(* ===== verification/_CoqProject ===== *)
-Q . S2P
Prelude.v
CommonTypes.v
BTreeMap.v
PhysicalMemory.v
AddressSpace.v
VirtualMemory.v
KernelErrors.v
MemorySyscalls.v
Bytes.v
GuestMemory.v
UnixPath.v
KernelServices.v
Psf.v
Elf.v
LinkerModule.v
Vulkan.v
Gpu.v
Hle.v
Linker.v
Exports.v
Libc.v
ExportHandlers.v
ExportLaws.v
Dispatcher.v
Signals.v
Boot.v
