(* ===== verification/Prelude.v ===== *)
(** * AnotherPS4: a verification library for the emulator

    AnotherPS4 runs PlayStation 4 executables natively: it maps the program into its
    own address space, rewrites its system calls to traps, and gives the traps of
    system calls and of imported functions to Rust code that plays the operating
    system, the C library and the GPU driver.  This library models that Rust code
    (all paths below are under src/crates/) and proves what its parts promise to one
    another, up to the jump into the guest and the handlers that run under it.

    ** Parts, and the code they model

    Foundations
    - Prelude.v: results that may panic, the state monad, machine integers, the tactics
      and hint databases, lemmas on lists and options.
    - Bytes.v: buffers, [std::io::Cursor], UTF-8.  GuestMemory.v: memory as raw pointers
      reach it.  UnixPath.v: [std::path], and the mount table of kernel/filesystem.rs.
    - BTreeMap.v: ordered maps, and the interface [Interval] that areas of physical and
      of virtual memory implement.

    Memory
    - CommonTypes.v: common/src/types.rs, addresses, constants and alignment.
    - PhysicalMemory.v: core/src/memory/physical_memory.rs, direct memory.
    - AddressSpace.v: core/src/memory/address_space.rs, over [mmap] and its relatives.
    - VirtualMemory.v: core/src/memory/virtual_memory.rs, the map of virtual areas.
    - KernelErrors.v: core/src/kernel/mod.rs, error codes.
    - MemorySyscalls.v: core/src/kernel/memory_syscalls.rs, the memory calls.

    Files and loading
    - Psf.v: formats/src/psf.rs, PARAM.SFO.  Elf.v: core/src/loader/elf.rs, ELF and SELF.
    - LinkerModule.v: core/src/linker/module.rs, one module in memory.
    - Linker.v: core/src/linker/mod.rs, relocation.rs and tls.rs, modules with their
      dependencies, relocation, TLS images, initialisers.
    - Hle.v: core/src/hle/stubs.rs, libraries.rs, libkernel.rs and
      core/src/loader/symbols.rs, the trap slots imports lead to.

    GPU
    - Vulkan.v: gpu/src/renderer/vulkan.rs, the renderer as its calls on Vulkan.
    - Gpu.v: gpu/src/liverpool/ and gpu/src/lib.rs, packets, registers, the context with
      its renderer, behind a mutex that a panic poisons.

    Kernel and library calls
    - KernelServices.v: core/src/kernel/equeue.rs, threading.rs, filesystem.rs, time.rs.
    - Exports.v: the interface of core/src/hle/exports.rs; Libc.v and ExportHandlers.v:
      its handlers and the dispatch on names; ExportLaws.v: what they promise by name.
    - Dispatcher.v and Signals.v: core/src/hle/dispatcher.rs, the rewriting of SYSCALL,
      the table of thread FS bases, the SIGILL and SIGSEGV handlers.
    - Boot.v: anotherps4-bin/src/main.rs from line 135, core/src/cpu/jump.rs, and the
      body of the threads that exports.rs spawns.

    ** How they interact

    Boot.v composes the parts as [run_emulator_guest_thread] does.  MemoryManager
    (Virtual) owns an AddressSpace and the direct memory (Physical), and is called by
    the linker, by the memory system calls and by the exports ([malloc], direct
    memory).  The linker takes Elf files through [fs_read], maps them with
    MemoryManager, resolves imports with the symbol registry of Hle, and allocates a
    stub for what it cannot resolve.  A call of a stub raises SIGILL: Signals finds the
    stub's name with Hle and calls the dispatcher, which it knows only as an instance of
    [ExportDispatcher]; ExportHandlers is that instance.  The exports that submit
    command buffers read guest memory and run the command processor of Gpu under its lock;
    those that request a frame run the renderer of Vulkan.v there, whose panic poisons the
    lock.  [Boot.guest_process] is the process Signals runs over.

    ** What the theorems show

    - Memory: [allocate] and the mapping operations refine updates of abstract views
      (what each byte of physical or virtual memory is used for); from [MemoryManager::new]
      on no sequence of memory calls panics or breaks the maps.  The arguments are bounded
      ([call_ok]: powers of two as alignments, sums that do not wrap): the code does not
      check the bounds, and [Physical.allocate_refines] shows what happens beyond them.
    - Files: parsers are total, or panic exactly as stated; they invert a reference
      writer of the documented formats; what is accepted is well formed.
    - Linking: loading ends for any cycle of dependencies; where the segments of the files
      fit their memory it does not fault, changes only memory that was free, and panics
      only by a file that crashes the parser or its relocation tables; relocation writes the values the ELF format defines, and
      nothing else; while there are free slots, an import that cannot be resolved leads
      to a stub that carries its name.
    - Traps: SIGILL is handled exactly at UD2, as the call of the stub's function or as a
      system call, and returns where the guest expects; SIGSEGV recovery resumes at a
      return address in guest code, at most 512 times.
    - Exports: no call breaks what the others rely on, and none panics but those that
      request a frame, when Vulkan reports an error; heap blocks are disjoint;
      direct memory is identity-mapped; file handles and descriptors are open exactly
      between open and close; submitted command buffers reach the GPU as written.
    - GPU: every buffer is processed to its end, with the effect of its packets in order;
      the renderer destroys each object once, after its users, and no frame waits for a
      fence nobody signals.
    - Start-up: under the name eboot.bin the guest is entered in the promised state, or one
      of the listed errors or panics ends it before; under any other name it never is
      entered; spawned threads, once the host starts them, enter at their start routine.

    ** Conventions and bounds

    - The build is the release profile: integer arithmetic wraps around, and the wrap is
      written out ([wrap 64] and its like); indexing, slicing and [unwrap] panic.  Casts
      between widths are explicit.  An [outcome] is [Ok], [Err] or [Panic]; guest memory
      adds [halt]: a fault, an abort, the end of the process.
    - Fuel: [Linker.load_module] takes one more unit than there are loadable names, and
      its theorem shows that this is enough; the loops over buffers (UTF-8 chunks,
      C strings, [process_loop], the scans of code) take the length of what they walk,
      and their laws show that it suffices.  [Libc.ROUNDS] and the 16 frames of
      [Signals] are limits of the code itself.
    - Locks are held for a whole operation, so an operation is one step; of the poisoning
      of [std::sync::Mutex] the model has that of GPU_CONTEXT, the one lock under which
      code panics.  Where the code
      releases a lock in the middle (waiting on an event queue) the critical sections are
      separate steps, and the theorem is about every interleaving.

    ** Parameters: code that is not in the repository

    [HostOS] (mmap, munmap, mprotect), [Bitflags] (the bitflags crate), [ByteOrder]
    (byteorder), [HashOrder] and [MountOrder] (the iteration order of hash maps),
    [HostThread] (gettid, arch_prctl), [HostFiles] and [HostSeek] (files of the host),
    [HostClock], [FloatOps] (functions of libm), [MemCmp] (the result of memcmp),
    [VulkanApi] (ash, any function of the log of calls), [HostSpawn] (whether a thread can
    be started, any function of the earlier attempts), and [fs_read], [exists_] and
    [arch_set_fs_ok] of Boot.v.  A class of laws beside each says what documented
    behaviour a theorem uses; the witnesses use concrete instances.

    ** Not modelled

    - The window, winit's event loop, clap and the logging subscriber (main.rs up to line
      134, common/src/logging.rs): control is handed to those crates.
    - The audio, controller and shader crates: stubs without behaviour.
    - The installation of the signal handlers, which is their use in Signals.v, and the
      instructions of the guest: a guest is any sequence of traps and faults, with any
      registers.
    - Page permissions, data races between guest threads on memory, and the failure of
      host allocations.
    - Strings that are only logged. *)

From stdpp Require Export base numbers list gmap strings.
From Stdlib Require Export ZArith Lia.

#[export] Set Default Goal Selector "!".

(** ** Scopes and hint databases *)

Declare Scope rust_scope.
Delimit Scope rust_scope with rust.

Create HintDb rust discriminated.
Create HintDb safe discriminated.

#[global] Open Scope Z_scope.

(** ** Rust values that may fail

    A Rust computation either yields a value, returns an [Err] of its
    declared error type, or panics (a failed index, a failed [unwrap]). *)

Inductive outcome (E A : Type) : Type :=
| Ok (a : A)
| Err (e : E)
| Panic.

Arguments Ok {E A} a.
Arguments Err {E A} e.
Arguments Panic {E A}.

(** A computation that returns no [Result]: it can only return or panic. *)
Abbreviation pan := (outcome Empty_set).

#[export] Instance outcome_ret E : MRet (outcome E) := λ A a, Ok a.
#[export] Instance outcome_bind E : MBind (outcome E) := λ A B k m,
  match m with
  | Ok a => k a
  | Err e => Err e
  | Panic => Panic
  end.

(** [Option::unwrap] and map indexing. *)
Definition unwrap {E A} (o : option A) : outcome E A :=
  match o with Some a => Ok a | None => Panic end.

(** [Result::unwrap]. *)
Definition expect {E F A} (m : outcome E A) : outcome F A :=
  match m with Ok a => Ok a | _ => Panic end.

(** [Option::ok_or]. *)
Definition ok_or {E A} (o : option A) (e : E) : outcome E A :=
  match o with Some a => Ok a | None => Err e end.

(** [Result::map_err] / the [From] conversion of the [?] operator. *)
Definition map_err {E F A} (f : E → F) (m : outcome E A) : outcome F A :=
  match m with
  | Ok a => Ok a
  | Err e => Err (f e)
  | Panic => Panic
  end.

Definition is_ok {E A} (m : outcome E A) : bool :=
  match m with Ok _ => true | _ => false end.

Lemma outcome_bind_Ok {E A B} (m : outcome E A) (k : A → outcome E B) b :
  (m ≫= k) = Ok b ↔ ∃ a, m = Ok a ∧ k a = Ok b.
Proof. destruct m; cbn; naive_solver. Qed.

Lemma outcome_bind_Err {E A B} (m : outcome E A) (k : A → outcome E B) e :
  (m ≫= k) = Err e ↔ m = Err e ∨ ∃ a, m = Ok a ∧ k a = Err e.
Proof. destruct m; cbn; naive_solver. Qed.

Lemma outcome_bind_Panic {E A B} (m : outcome E A) (k : A → outcome E B) :
  (m ≫= k) = Panic ↔ m = Panic ∨ ∃ a, m = Ok a ∧ k a = Panic.
Proof. destruct m; cbn; naive_solver. Qed.

Lemma unwrap_Ok {E A} (o : option A) a : unwrap (E:=E) o = Ok a ↔ o = Some a.
Proof. destruct o; cbn; split; congruence. Qed.

(** Splits the binds of a hypothesis [_ = Ok _] into their steps. *)
Ltac inv_ok :=
  repeat match goal with
  | H : (_ ≫= _) = Ok _ |- _ =>
      let a := fresh "a" in let Ha := fresh "Hbind" in
      apply outcome_bind_Ok in H as (a & Ha & H)
  | H : mret _ = Ok _ |- _ => unfold mret, outcome_ret in H
  | H : Ok _ = Ok _ |- _ => injection H as H
  | H : unwrap _ = Ok _ |- _ => apply unwrap_Ok in H
  | H : Err _ = Ok _ |- _ => discriminate H
  | H : Panic = Ok _ |- _ => discriminate H
  end.

(** ** Stateful computations

    [st S E A] threads a state [S] through fallible code.  The state reached is
    kept when the computation fails, as it is in Rust. *)

Definition st (S E A : Type) : Type := S → S * outcome E A.

#[export] Instance st_ret S E : MRet (st S E) := λ A a s, (s, Ok a).
#[export] Instance st_bind S E : MBind (st S E) := λ A B k m s,
  match m s with
  | (s', Ok a) => k a s'
  | (s', Err e) => (s', Err e)
  | (s', Panic) => (s', Panic)
  end.

#[export] Instance st_fmap S E : FMap (st S E) := λ A B f m s,
  match m s with
  | (s', Ok a) => (s', Ok (f a))
  | (s', Err e) => (s', Err e)
  | (s', Panic) => (s', Panic)
  end.

Definition st_get {S E} : st S E S := λ s, (s, Ok s).
Definition st_put {S E} (s' : S) : st S E unit := λ _, (s', Ok tt).
Definition st_lift {S E A} (m : outcome E A) : st S E A := λ s, (s, m).

(** A computation that cannot return [Err] inside one that can. *)
Definition no_err {E A} (m : pan A) : outcome E A :=
  map_err (λ e : Empty_set, match e with end) m.

(** Runs a computation on one component of a pair state. *)
Definition on_fst {S T E A} (m : st S E A) : st (S * T) E A := λ '(s, t),
  let '(s', r) := m s in ((s', t), r).

(** A [match] on the [Result] of a stateful call; a panic is not caught. *)
Definition st_match {S E F A B} (m : st S E A) (ok : A → st S F B)
    (err : E → st S F B) : st S F B := λ s,
  match m s with
  | (s, Ok a) => ok a s
  | (s, Err e) => err e s
  | (s, Panic) => (s, Panic)
  end.

Lemma st_bind_ok {S E A B} (m : st S E A) (k : A → st S E B) s s' a :
  m s = (s', Ok a) → (m ≫= k) s = k a s'.
Proof. intros Hm. unfold mbind, st_bind. by rewrite Hm. Qed.

(** A bind that returns went through its first half. *)
Lemma st_bind_inv {S E A B} (m : st S E A) (k : A → st S E B) s s' b :
  (m ≫= k) s = (s', Ok b) → ∃ s1 a, m s = (s1, Ok a) ∧ k a s1 = (s', Ok b).
Proof.
  unfold mbind, st_bind. destruct (m s) as [s1 [a|e|]]; intros Hk; [|done..]. by exists s1, a.
Qed.

Lemma st_bind_err {S E A B} (m : st S E A) (k : A → st S E B) s s' e :
  m s = (s', Err e) → (m ≫= k) s = (s', Err e).
Proof. intros Hm. unfold mbind, st_bind. by rewrite Hm. Qed.

Lemma st_bind_assoc {S E A B C} (m : st S E A) (k : A → st S E B) (j : B → st S E C) s :
  ((m ≫= k) ≫= j) s = (m ≫= λ a, k a ≫= j) s.
Proof. unfold mbind, st_bind. by destruct (m s) as [s' [a|e|]]. Qed.

Lemma st_bind_ext {S E A B} (m : st S E A) (k k' : A → st S E B) s :
  (∀ a s', k a s' = k' a s') → (m ≫= k) s = (m ≫= k') s.
Proof. intros Hk. unfold mbind, st_bind. destruct (m s) as [s' [a|e|]]; auto. Qed.

(** ** Machine integers

    A [w]-bit unsigned integer is a [Z]; the code is built with the release
    profile (README.md), where arithmetic wraps around silently. *)

Definition wrap (w : Z) (z : Z) : Z := z mod 2 ^ w.
Definition in_u (w : Z) (z : Z) : Prop := 0 ≤ z < 2 ^ w.
#[export] Instance in_u_dec w z : Decision (in_u w z).
Proof. unfold in_u; apply _. Defined.

Definition add64 (a b : Z) : Z := wrap 64 (a + b).
Definition sub64 (a b : Z) : Z := wrap 64 (a - b).
Definition mul64 (a b : Z) : Z := wrap 64 (a * b).
Definition not64 (a : Z) : Z := Z.land (Z.lnot a) (Z.ones 64).
Definition add32 (a b : Z) : Z := wrap 32 (a + b).

Infix "+64" := add64 (at level 50, left associativity) : rust_scope.
Infix "-64" := sub64 (at level 50, left associativity) : rust_scope.
Infix "*64" := mul64 (at level 40, left associativity) : rust_scope.

(** Two's complement: the [i32]/[i64] read of a word, and its bit pattern. *)
Definition to_signed (w : Z) (z : Z) : Z :=
  let u := wrap w z in if decide (u < 2 ^ (w - 1)) then u else u - 2 ^ w.

Lemma wrap_small w z : in_u w z → wrap w z = z.
Proof. unfold in_u, wrap. apply Z.mod_small. Qed.

Lemma wrap_range w z : 0 ≤ w → in_u w (wrap w z).
Proof. intros. unfold in_u, wrap. apply Z.mod_pos_bound. lia. Qed.

Lemma wrap_add_l w a b : wrap w (wrap w a + b) = wrap w (a + b).
Proof. unfold wrap. apply Zplus_mod_idemp_l. Qed.

Lemma wrap_wrap_signed w z : 0 < w → - 2 ^ (w - 1) ≤ z < 2 ^ (w - 1) →
  to_signed w (wrap w z) = z.
Proof.
  intros Hw Hz. unfold to_signed, wrap. rewrite Zmod_mod.
  assert (Hp : 2 ^ w = 2 * 2 ^ (w - 1)).
  { rewrite <-Z.pow_succ_r by lia. f_equal. lia. }
  destruct (decide (0 ≤ z)).
  - rewrite Z.mod_small by lia. rewrite decide_True by lia. done.
  - assert (z mod 2 ^ w = z + 2 ^ w) as ->.
    { symmetry. apply Zmod_unique with (-1); lia. }
    rewrite decide_False by lia. lia.
Qed.

Lemma add64_small a b : 0 ≤ a + b < 2 ^ 64 → add64 a b = a + b.
Proof. apply wrap_small. Qed.
Lemma sub64_small a b : 0 ≤ a - b < 2 ^ 64 → sub64 a b = a - b.
Proof. apply wrap_small. Qed.
Lemma mul64_small a b : 0 ≤ a * b < 2 ^ 64 → mul64 a b = a * b.
Proof. apply wrap_small. Qed.
Lemma add32_small a b : 0 ≤ a + b < 2 ^ 32 → add32 a b = a + b.
Proof. apply wrap_small. Qed.

(** Removes every wrap-around the context shows to be inactive. *)
Ltac unwrap64 :=
  repeat match goal with
  | |- context [add64 ?a ?b] => rewrite (add64_small a b) by lia
  | |- context [sub64 ?a ?b] => rewrite (sub64_small a b) by lia
  | |- context [mul64 ?a ?b] => rewrite (mul64_small a b) by lia
  | H : context [add64 ?a ?b] |- _ => rewrite (add64_small a b) in H by lia
  | H : context [sub64 ?a ?b] |- _ => rewrite (sub64_small a b) in H by lia
  | H : context [mul64 ?a ?b] |- _ => rewrite (mul64_small a b) in H by lia
  end.

(** Masking with the complement of [2^k - 1] rounds down to a multiple. *)
Lemma land_not64_ones x k : in_u 64 x → 0 ≤ k →
  Z.land x (not64 (2 ^ k - 1)) = x - x mod 2 ^ k.
Proof.
  intros Hx Hk. unfold not64.
  replace (2 ^ k - 1) with (Z.ones k) by (rewrite Z.ones_equiv; lia).
  rewrite Z.land_assoc, <-Z.ldiff_land, Z.land_ones by lia.
  rewrite Z.ldiff_ones_r, Z.shiftl_mul_pow2, Z.shiftr_div_pow2 by lia.
  pose proof (Z_div_mod_eq_full x (2 ^ k)).
  pose proof (Z.mod_pos_bound x (2 ^ k) ltac:(lia)).
  unfold in_u in Hx.
  assert (0 ≤ x / 2 ^ k) by (apply Z.div_pos; lia).
  rewrite Z.mod_small; nia.
Qed.

Lemma land_pow2_ones x k : 0 ≤ k → Z.land x (2 ^ k - 1) = x mod 2 ^ k.
Proof.
  intros. replace (2 ^ k - 1) with (Z.ones k) by (rewrite Z.ones_equiv; lia).
  apply Z.land_ones. lia.
Qed.

(** Joining two words into a wider one. *)
Lemma lor_shiftl_add lo hi w : 0 ≤ w → in_u w lo →
  Z.lor lo (Z.shiftl hi w) = lo + hi * 2 ^ w.
Proof.
  intros Hw Hlo. rewrite <-Z.shiftl_mul_pow2 by done.
  assert (Z.land lo (Z.shiftl hi w) = 0) as Hl.
  { apply Z.bits_inj'. intros n Hn. rewrite Z.land_spec, Z.bits_0.
    destruct (decide (n < w)); [by rewrite Z.shiftl_spec_low, andb_false_r by done|].
    rewrite <-(Z.mod_small lo (2 ^ w)), Z.mod_pow2_bits_high by (done || lia). done. }
  by rewrite Z.add_nocarry_lxor, Z.lxor_lor by done.
Qed.

(** ** Half-open ranges [lo, hi) *)

Definition in_range (lo hi a : Z) : bool := bool_decide (lo ≤ a < hi).

Lemma in_range_spec lo hi a : in_range lo hi a = true ↔ lo ≤ a < hi.
Proof. apply bool_decide_eq_true. Qed.

Lemma in_range_false lo hi a : in_range lo hi a = false ↔ ¬ (lo ≤ a < hi).
Proof. apply bool_decide_eq_false. Qed.

(** Case analysis on the first range test of the goal. *)
Ltac case_range :=
  match goal with
  | |- context [in_range ?lo ?hi ?a] =>
      let E := fresh "Hin" in
      destruct (in_range lo hi a) eqn:E;
      [apply in_range_spec in E | apply in_range_false in E]
  | H : context [in_range ?lo ?hi ?a] |- _ =>
      let E := fresh "Hin" in
      destruct (in_range lo hi a) eqn:E;
      [apply in_range_spec in E | apply in_range_false in E]
  end.

#[export] Hint Resolve wrap_range : rust.
