(* ===== verification/CommonTypes.v ===== *)
(** * crates/common/src/types.rs: address types, constants and alignment

    Guest and physical addresses are [u64] values, here [Z].  The alignment
    helpers are translated with their masks; the lemmas show that for a power
    of two and no overflow they are the usual round-up and round-down. *)

From S2P Require Import Prelude.

Local Open Scope rust_scope.

Abbreviation VAddr := Z.
Abbreviation PAddr := Z.

Definition PAGE_SIZE : Z := 16 * 1024.
Definition PAGE_MASK : Z := PAGE_SIZE -64 1.
Definition MAX_GPU_ADDRESS : VAddr := 0x1000000000.
Definition DEFAULT_MAPPING_BASE : VAddr := 0x200000000.
Definition SYSTEM_MANAGED_SIZE : Z := 512 * 1024 * 1024.
Definition SYSTEM_RESERVED_SIZE : Z := 3232 * 1024 * 1024.
Definition USER_SIZE : Z := 128 * 1024 * 1024 * 1024.

Definition align_up (value alignment : Z) : Z :=
  let mask := alignment -64 1 in
  Z.land (value +64 mask) (not64 mask).

Definition align_down (value alignment : Z) : Z :=
  Z.land value (not64 (alignment -64 1)).

Definition is_aligned (value alignment : Z) : bool :=
  Z.land value (alignment -64 1) =? 0.

(** The two decimals of [{:.2}]: the quotient in hundredths, rounded to the
    nearest, with ties to even as the float formatter rounds the exact
    binary value (the divisors are powers of two, so [bytes / unit] is the
    exact decimal expansion whenever [bytes < 2^53]). *)
Definition hundredths (bytes unit : Z) : Z :=
  let q := (100 * bytes) / unit in
  let r := (100 * bytes) mod unit in
  if 2 * r <? unit then q
  else if unit <? 2 * r then q + 1
  else if Z.even q then q else q + 1.

Inductive size_unit := GB | MB | KB | B.

(** [format_size] picks the unit and the number shown (in hundredths, or the
    plain byte count). *)
Definition format_size (bytes : Z) : size_unit * Z :=
  let KB_ := 1024 in
  let MB_ := KB_ * 1024 in
  let GB_ := MB_ * 1024 in
  if GB_ <=? bytes then (GB, hundredths bytes GB_)
  else if MB_ <=? bytes then (MB, hundredths bytes MB_)
  else if KB_ <=? bytes then (KB, hundredths bytes KB_)
  else (B, bytes).

(** ** The [bitflags] crate

    The generated [contains] and [from_bits_truncate] are parameters; the laws
    are their documented meaning on the bit representation. *)

Class Bitflags := {
  (** [contains self other]. *)
  flags_contains : Z → Z → bool;
  (** the mask of all declared flags, then the bits. *)
  from_bits_truncate : Z → Z → Z;
}.

Class BitflagsLaws `{Bitflags} : Prop := {
  flags_contains_spec a b : flags_contains a b = (Z.land a b =? b);
  from_bits_truncate_spec all bits : from_bits_truncate all bits = Z.land bits all;
}.

(** The implementation used by the witnesses. *)
Definition bitflags_impl : Bitflags :=
  {| flags_contains a b := Z.land a b =? b;
     from_bits_truncate all bits := Z.land bits all |}.

Lemma bitflags_impl_laws : @BitflagsLaws bitflags_impl.
Proof. by split. Qed.

(** ** Powers of two *)

Definition is_pow2 (a : Z) : Prop := ∃ k, 0 ≤ k < 64 ∧ a = 2 ^ k.

Lemma is_pow2_PAGE_SIZE : is_pow2 PAGE_SIZE.
Proof. exists 14. split; [lia | done]. Qed.

Lemma is_pow2_bounds a : is_pow2 a → 1 ≤ a < 2 ^ 64.
Proof.
  intros (k & Hk & ->). split.
  - pose proof (Z.pow_pos_nonneg 2 k). lia.
  - apply Z.pow_lt_mono_r; lia.
Qed.

Lemma is_pow2_max a b : is_pow2 a → is_pow2 b → is_pow2 (a `max` b).
Proof. intros. destruct (Z.max_spec a b) as [[_ ->]|[_ ->]]; done. Qed.

Lemma align_up_small v a : is_pow2 a → 0 ≤ v → v + (a - 1) < 2 ^ 64 →
  align_up v a = (v + (a - 1)) - (v + (a - 1)) mod a.
Proof.
  intros Ha Hv Hov. pose proof (is_pow2_bounds a Ha).
  destruct Ha as (k & Hk & ->). unfold align_up.
  unwrap64. apply land_not64_ones; unfold in_u; lia.
Qed.

(** What rounding up promises, when it does not overflow. *)
Lemma align_up_spec v a : is_pow2 a → 0 ≤ v → v + (a - 1) < 2 ^ 64 →
  v ≤ align_up v a < v + a ∧ (a | align_up v a).
Proof.
  intros Ha Hv Hov. rewrite align_up_small by done.
  pose proof (is_pow2_bounds a Ha).
  pose proof (Z.mod_pos_bound (v + (a - 1)) a ltac:(lia)).
  pose proof (Z_div_mod_eq_full (v + (a - 1)) a).
  split; [lia|]. exists ((v + (a - 1)) / a). lia.
Qed.

(** No smaller multiple is as large as the argument. *)
Lemma align_up_least v a b : is_pow2 a → 0 ≤ v → v + (a - 1) < 2 ^ 64 →
  (a | b) → v ≤ b → align_up v a ≤ b.
Proof.
  intros Ha Hv Hov [c ->] Hb. pose proof (is_pow2_bounds a Ha).
  destruct (align_up_spec v a Ha Hv Hov) as [Hr [d Hd]]. rewrite Hd in *.
  apply Z.mul_le_mono_nonneg_r; [lia|].
  assert (d < c + 1); [|lia]. apply (Z.mul_lt_mono_pos_r a); lia.
Qed.

Lemma align_up_aligned v a : is_pow2 a → (a | v) → 0 ≤ v →
  v + (a - 1) < 2 ^ 64 → align_up v a = v.
Proof.
  intros Ha Hd Hv Hov. destruct (align_up_spec v a Ha Hv Hov) as [Hr _].
  pose proof (align_up_least v a v Ha Hv Hov Hd ltac:(lia)). lia.
Qed.

Lemma align_down_spec v a : is_pow2 a → in_u 64 v →
  align_down v a ≤ v < align_down v a + a ∧ 0 ≤ align_down v a ∧
  (a | align_down v a).
Proof.
  intros Ha Hv. pose proof (is_pow2_bounds a Ha).
  destruct Ha as (k & Hk & ->). unfold align_down. unwrap64.
  rewrite land_not64_ones by (done || lia).
  pose proof (Z.mod_pos_bound v (2 ^ k) ltac:(lia)).
  pose proof (Z_div_mod_eq_full v (2 ^ k)). unfold in_u in Hv.
  assert (0 ≤ v / 2 ^ k) by (apply Z.div_pos; lia).
  split; [lia|]. split; [nia|]. exists (v / 2 ^ k). lia.
Qed.

Lemma is_aligned_spec v a : is_pow2 a → is_aligned v a = true ↔ (a | v).
Proof.
  intros Ha. pose proof (is_pow2_bounds a Ha).
  destruct Ha as (k & Hk & ->). unfold is_aligned. unwrap64.
  rewrite land_pow2_ones by lia. rewrite Z.eqb_eq.
  apply Z.mod_divide. lia.
Qed.

Lemma page_align_up_small v : 0 ≤ v → v < 2 ^ 64 - PAGE_SIZE →
  v ≤ align_up v PAGE_SIZE < v + PAGE_SIZE ∧ (PAGE_SIZE | align_up v PAGE_SIZE).
Proof.
  intros. apply align_up_spec; [apply is_pow2_PAGE_SIZE | lia | ].
  unfold PAGE_SIZE in *. lia.
Qed.

#[export] Hint Resolve is_pow2_PAGE_SIZE is_pow2_max : rust.

(** The repository's own unit tests, evaluated. *)
Example test_align_up :
  (align_up 0 4096, align_up 1 4096, align_up 4096 4096, align_up 4097 4096,
   align_up 100 PAGE_SIZE) = (0, 4096, 4096, 8192, PAGE_SIZE).
Proof. vm_compute. reflexivity. Qed.

Example test_format_size :
  map format_size [512; 1024; 1048576; 1073741824] =
  [(B, 512); (KB, 100); (MB, 100); (GB, 100)].
Proof. vm_compute. reflexivity. Qed.
