(* ===== verification/BTreeMap.v ===== *)
(** * Ordered maps and maps of address intervals

    [std::collections::BTreeMap<u64, V>] as the code uses it: an association
    list with strictly increasing keys, so that iteration order is the list
    order.  The second half is the interface [Interval] for values that
    describe the range [[base, base + size)] of a flat address space; both
    the physical areas and the virtual memory areas implement it. *)

From S2P Require Import Prelude.

Section btree.
Context {V : Type}.
Implicit Types (m : list (Z * V)) (k a : Z) (v : V).

Fixpoint bt_get (m : list (Z * V)) (k : Z) : option V :=
  match m with
  | [] => None
  | (k', v) :: m' => if k =? k' then Some v else bt_get m' k
  end.

Fixpoint bt_insert (m : list (Z * V)) (k : Z) (v : V) : list (Z * V) :=
  match m with
  | [] => [(k, v)]
  | (k', v') :: m' =>
      if k <? k' then (k, v) :: (k', v') :: m'
      else if k =? k' then (k, v) :: m'
      else (k', v') :: bt_insert m' k v
  end.

Fixpoint bt_remove (m : list (Z * V)) (k : Z) : list (Z * V) :=
  match m with
  | [] => []
  | (k', v') :: m' => if k =? k' then m' else (k', v') :: bt_remove m' k
  end.

(** [get_mut] followed by an assignment through the reference. *)
Fixpoint bt_update (m : list (Z * V)) (k : Z) (f : V → V) : list (Z * V) :=
  match m with
  | [] => []
  | (k', v') :: m' =>
      if k =? k' then (k', f v') :: m' else (k', v') :: bt_update m' k f
  end.

Definition bt_keys m : list Z := m.*1.
Definition bt_values m : list V := m.*2.

(** [map.range(..hi)]. *)
Definition bt_range_to m (hi : Z) : list (Z * V) := filter (λ kv, kv.1 < hi) m.

End btree.

(** ** Values that cover an address range *)

Class Interval (V : Type) := {
  ibase : V → Z;
  isize : V → Z;
}.

Definition iend `{Interval V} (v : V) : Z := ibase v + isize v.
Definition covers `{Interval V} (v : V) (a : Z) : bool :=
  in_range (ibase v) (iend v) a.

Section intervals.
Context `{Interval V}.
Implicit Types (m : list (Z * V)) (k a lo hi : Z) (v : V).

(** The entry whose range contains an address. *)
Fixpoint at_addr (m : list (Z * V)) (a : Z) : option V :=
  match m with
  | [] => None
  | (_, v) :: m' => if covers v a then Some v else at_addr m' a
  end.

(** Entries are stored under their base, are not empty, do not overlap, and
    lie in [[lo, hi)]. *)
Fixpoint spaced (lo hi : Z) (m : list (Z * V)) : Prop :=
  match m with
  | [] => lo ≤ hi
  | (k, v) :: m' =>
      k = ibase v ∧ lo ≤ ibase v ∧ 0 < isize v ∧ spaced (iend v) hi m'
  end.

(** The entries leave no gap either: a partition of [[lo, hi)]. *)
Fixpoint tiled (lo hi : Z) (m : list (Z * V)) : Prop :=
  match m with
  | [] => lo = hi
  | (k, v) :: m' =>
      k = lo ∧ ibase v = lo ∧ 0 < isize v ∧ tiled (iend v) hi m'
  end.

#[export] Instance spaced_dec lo hi m : Decision (spaced lo hi m).
Proof. revert lo. induction m as [|[k v] m IH]; intros lo; simpl; apply _. Defined.

#[export] Instance tiled_dec lo hi m : Decision (tiled lo hi m).
Proof. revert lo. induction m as [|[k v] m IH]; intros lo; simpl; apply _. Defined.

Lemma spaced_weaken lo lo' hi m : lo' ≤ lo → spaced lo hi m → spaced lo' hi m.
Proof. destruct m as [|[k v] m]; simpl; intuition lia. Qed.

Lemma spaced_bounds lo hi m k v : spaced lo hi m → (k, v) ∈ m →
  k = ibase v ∧ lo ≤ ibase v ∧ 0 < isize v ∧ iend v ≤ hi.
Proof.
  revert lo. induction m as [|[k' v'] m IH]; intros lo Hs Hin.
  { by apply not_elem_of_nil in Hin. }
  destruct Hs as (-> & Hlo & Hpos & Hs). unfold iend in *.
  apply elem_of_cons in Hin as [Heq|Hin].
  - injection Heq as -> ->. split_and!; try done.
    clear IH. revert Hs. generalize (ibase v' + isize v') as l.
    induction m as [|[k v] m IH]; simpl; [done|]; intros l (_ & ? & ? & Hs).
    specialize (IH _ Hs). unfold iend in IH. lia.
  - destruct (IH _ Hs Hin) as (? & ? & ? & ?). split_and!; lia.
Qed.

Lemma spaced_le lo hi m : spaced lo hi m → lo ≤ hi.
Proof.
  revert lo. induction m as [|[k v] m IH]; intros lo; simpl; [done|].
  intros (_ & ? & ? & Hs). apply IH in Hs. unfold iend in *. lia.
Qed.

Lemma at_addr_elem m a v : at_addr m a = Some v →
  (∃ k, (k, v) ∈ m) ∧ ibase v ≤ a < iend v.
Proof.
  induction m as [|[k w] m IH]; simpl; [done|]. unfold covers.
  case_range.
  - intros [= ->]. split; [|done]. exists k. set_solver.
  - intros Hv. destruct (IH Hv) as [[k' Hk'] ?]. split; [|done].
    exists k'. set_solver.
Qed.

Lemma at_addr_below lo hi m a : spaced lo hi m → a < lo → at_addr m a = None.
Proof.
  intros Hs Ha. destruct (at_addr m a) as [v|] eqn:E; [|done].
  apply at_addr_elem in E as [[k Hk] Hr].
  apply (spaced_bounds _ _ _ _ _ Hs) in Hk. lia.
Qed.

Lemma at_addr_above lo hi m a : spaced lo hi m → hi ≤ a → at_addr m a = None.
Proof.
  intros Hs Ha. destruct (at_addr m a) as [v|] eqn:E; [|done].
  apply at_addr_elem in E as [[k Hk] Hr].
  apply (spaced_bounds _ _ _ _ _ Hs) in Hk. lia.
Qed.

(** In a spaced map the entry found is the only one that covers the address. *)
Lemma at_addr_unique lo hi m k v a : spaced lo hi m → (k, v) ∈ m →
  ibase v ≤ a < iend v → at_addr m a = Some v.
Proof.
  revert lo. induction m as [|[k' w] m IH]; intros lo Hs Hin Hr.
  { by apply not_elem_of_nil in Hin. }
  destruct Hs as (-> & Hlo & Hpos & Hs). simpl. unfold covers.
  apply elem_of_cons in Hin as [Heq|Hin].
  - injection Heq as -> ->. case_range; [done | lia].
  - pose proof (spaced_bounds _ _ _ _ _ Hs Hin) as (_ & ? & _ & _).
    case_range; [lia|]. eauto.
Qed.

Lemma bt_get_elem m k v : bt_get m k = Some v → (k, v) ∈ m.
Proof.
  induction m as [|[k' w] m IH]; simpl; [done|].
  destruct (Z.eqb_spec k k') as [->|].
  - intros [= ->]. set_solver.
  - intros Hv. apply IH in Hv. set_solver.
Qed.

Lemma elem_bt_get lo hi m k v : spaced lo hi m → (k, v) ∈ m → bt_get m k = Some v.
Proof.
  revert lo. induction m as [|[k' w] m IH]; intros lo Hs Hin.
  { by apply not_elem_of_nil in Hin. }
  destruct Hs as (-> & Hlo & Hpos & Hs). simpl.
  apply elem_of_cons in Hin as [Heq|Hin].
  - injection Heq as -> ->. by rewrite Z.eqb_refl.
  - pose proof (spaced_bounds _ _ _ _ _ Hs Hin) as (-> & ? & _ & _).
    unfold iend in *. destruct (Z.eqb_spec (ibase v) (ibase w)); [lia|].
    eauto.
Qed.

(** The value found under a key describes the range that starts there. *)
Lemma bt_get_base lo hi m k v : spaced lo hi m → bt_get m k = Some v →
  k = ibase v ∧ lo ≤ ibase v ∧ 0 < isize v ∧ iend v ≤ hi.
Proof. intros Hs Hg. eapply spaced_bounds; eauto using bt_get_elem. Qed.

(** *** Removal *)

Lemma spaced_remove lo hi m k : spaced lo hi m → spaced lo hi (bt_remove m k).
Proof.
  revert lo. induction m as [|[k' v] m IH]; intros lo; simpl; [done|].
  intros (-> & ? & ? & Hs). destruct (Z.eqb_spec k (ibase v)) as [->|].
  - eapply spaced_weaken; [|done]. unfold iend. lia.
  - simpl. eauto.
Qed.

Lemma at_addr_remove lo hi m k v a : spaced lo hi m → bt_get m k = Some v →
  at_addr (bt_remove m k) a = if covers v a then None else at_addr m a.
Proof.
  revert lo. induction m as [|[k' w] m IH]; intros lo Hs Hg; [done|].
  simpl in *. destruct Hs as (-> & Hlo & Hpos & Hs).
  destruct (Z.eqb_spec k (ibase w)) as [->|Hne].
  - injection Hg as ->. unfold covers.
    case_range; [|done]. eapply at_addr_below; [done|lia].
  - simpl. rewrite (IH _ Hs Hg).
    apply (bt_get_base _ _ _ _ _ Hs) in Hg as (-> & ? & ? & ?).
    unfold covers. repeat case_range; try done; lia.
Qed.

Lemma bt_get_remove_ne m k k' : k ≠ k' → bt_get (bt_remove m k) k' = bt_get m k'.
Proof.
  intros Hne. induction m as [|[j v] m IH]; simpl; [done|].
  destruct (Z.eqb_spec k j) as [->|]; simpl.
  - destruct (Z.eqb_spec k' j); [congruence | done].
  - rewrite IH. done.
Qed.

Lemma bt_get_remove_eq lo hi m k : spaced lo hi m → bt_get (bt_remove m k) k = None.
Proof.
  intros Hs. destruct (bt_get (bt_remove m k) k) as [w|] eqn:E; [exfalso|done].
  revert lo Hs E. induction m as [|[j v] m IH]; intros lo; simpl; [done|].
  intros (-> & ? & ? & Hs). destruct (Z.eqb_spec k (ibase v)) as [->|Hne].
  - intros Hg. apply (bt_get_base _ _ _ _ _ Hs) in Hg. unfold iend in Hg. lia.
  - simpl. destruct (Z.eqb_spec k (ibase v)); [done|]. eauto.
Qed.

(** *** Insertion of a range nothing overlaps *)

Definition free_of m lo hi : Prop := ∀ a, lo ≤ a < hi → at_addr m a = None.

Lemma spaced_insert lo hi m v : spaced lo hi m →
  lo ≤ ibase v → 0 < isize v → iend v ≤ hi →
  free_of m (ibase v) (iend v) → spaced lo hi (bt_insert m (ibase v) v).
Proof.
  revert lo. induction m as [|[k w] m IH]; intros lo Hs Hlo Hpos Hhi Hfree.
  { simpl. split_and!; done. }
  simpl in *. destruct Hs as (-> & Hlo' & Hpos' & Hs).
  assert (Hw : ∀ a, ibase v ≤ a < iend v → ¬ (ibase w ≤ a < iend w)).
  { intros a Ha Hc. specialize (Hfree a Ha). simpl in Hfree. unfold covers in Hfree.
    apply in_range_spec in Hc. by rewrite Hc in Hfree. }
  destruct (Z.ltb_spec (ibase v) (ibase w)).
  - simpl. split_and!; try done.
    destruct (decide (iend v ≤ ibase w)); [done|].
    exfalso. apply (Hw (ibase w)); unfold iend in *; lia.
  - destruct (Z.eqb_spec (ibase v) (ibase w)) as [E|].
    + exfalso. apply (Hw (ibase v)); unfold iend in *; lia.
    + simpl. split_and!; try done. apply IH; try done.
      * destruct (decide (iend w ≤ ibase v)); [done|].
        exfalso. apply (Hw (ibase v)); unfold iend in *; lia.
      * intros a Ha. specialize (Hfree a Ha). simpl in Hfree. unfold covers in Hfree.
        by destruct (in_range _ _ a).
Qed.

Lemma at_addr_insert lo hi m v a : spaced lo hi m → 0 < isize v →
  free_of m (ibase v) (iend v) →
  at_addr (bt_insert m (ibase v) v) a = if covers v a then Some v else at_addr m a.
Proof.
  revert lo. induction m as [|[k w] m IH]; intros lo Hs Hpos Hfree; [done|].
  simpl in *. destruct Hs as (-> & Hlo' & Hpos' & Hs).
  assert (Hw : ∀ b, ibase v ≤ b < iend v → in_range (ibase w) (iend w) b = false).
  { intros b Hb. specialize (Hfree b Hb). simpl in Hfree. unfold covers in Hfree.
    by destruct (in_range _ _ b). }
  destruct (Z.ltb_spec (ibase v) (ibase w)); [done|].
  destruct (Z.eqb_spec (ibase v) (ibase w)) as [E|].
  - exfalso. specialize (Hw (ibase v)). unfold iend in *.
    apply in_range_false in Hw; lia.
  - simpl. rewrite (IH _ Hs Hpos).
    + unfold covers. repeat case_range; try done.
      specialize (Hw a ltac:(lia)). apply in_range_false in Hw. lia.
    + intros b Hb. specialize (Hfree b Hb). simpl in Hfree. unfold covers in Hfree.
      by destruct (in_range _ _ b).
Qed.

Lemma bt_get_insert m k k' v :
  bt_get (bt_insert m k v) k' = if k' =? k then Some v else bt_get m k'.
Proof.
  induction m as [|[j w] m IH]; simpl; [done|].
  destruct (Z.ltb_spec k j); simpl; [done|].
  destruct (Z.eqb_spec k j) as [->|]; simpl.
  - by destruct (Z.eqb_spec k' j).
  - rewrite IH. destruct (Z.eqb_spec k' j), (Z.eqb_spec k' k); congruence.
Qed.

(** *** In-place updates that keep the range *)

Lemma spaced_update lo hi m k f :
  (∀ v, ibase (f v) = ibase v ∧ isize (f v) = isize v) →
  spaced lo hi m → spaced lo hi (bt_update m k f).
Proof.
  intros Hf. revert lo. induction m as [|[k' v] m IH]; intros lo; simpl; [done|].
  intros (-> & ? & ? & Hs). destruct (Z.eqb_spec k (ibase v)) as [->|].
  - simpl. unfold iend in *. destruct (Hf v) as [-> ->]. done.
  - simpl. eauto.
Qed.

Lemma at_addr_update lo hi m k f v a :
  (∀ v, ibase (f v) = ibase v ∧ isize (f v) = isize v) →
  spaced lo hi m → bt_get m k = Some v →
  at_addr (bt_update m k f) a = if covers v a then Some (f v) else at_addr m a.
Proof.
  intros Hf. revert lo. induction m as [|[k' w] m IH]; intros lo Hs Hg; [done|].
  simpl in *. destruct Hs as (-> & Hlo & Hpos & Hs).
  destruct (Z.eqb_spec k (ibase w)) as [->|Hne].
  - injection Hg as ->. simpl. unfold covers, iend.
    destruct (Hf v) as [-> ->]. by case_range.
  - simpl. rewrite (IH _ Hs Hg).
    apply (bt_get_base _ _ _ _ _ Hs) in Hg as (-> & ? & ? & ?).
    unfold covers. repeat case_range; try done; lia.
Qed.

(** *** Tilings are spaced maps without holes *)

Lemma tiled_spaced lo hi m : tiled lo hi m → spaced lo hi m.
Proof.
  revert lo. induction m as [|[k v] m IH]; intros lo; simpl; [lia|].
  intros (-> & ? & ? & ?). split_and!; auto with lia.
Qed.

Definition no_hole m lo hi : Prop := ∀ a, lo ≤ a < hi → at_addr m a ≠ None.

Lemma tiled_iff lo hi m : tiled lo hi m ↔ spaced lo hi m ∧ no_hole m lo hi.
Proof.
  split.
  - intros Ht. split; [by apply tiled_spaced|].
    revert lo Ht. induction m as [|[k v] m IH]; intros lo; simpl.
    { intros -> a. lia. }
    intros (-> & Hb & Hpos & Ht) a Ha. simpl. unfold covers.
    case_range; [done|]. eapply IH; [done|]. lia.
  - revert lo. induction m as [|[k v] m IH]; intros lo [Hs Hn]; simpl.
    { destruct (decide (lo < hi)); [|simpl in *; lia].
      exfalso. by apply (Hn lo ltac:(lia)). }
    simpl in Hs. destruct Hs as (-> & Hlo & Hpos & Hs).
    assert (Hb : ibase v = lo).
    { destruct (decide (ibase v = lo)); [done|exfalso].
      pose proof (spaced_le _ _ _ Hs).
      apply (Hn lo ltac:(unfold iend in *; lia)). simpl. unfold covers.
      case_range; [lia|]. eapply at_addr_below; [done|]. unfold iend. lia. }
    split_and!; try done. apply IH. split; [done|].
    intros a Ha. pose proof (Hn a ltac:(unfold iend in *; lia)) as Hna.
    simpl in Hna. unfold covers in Hna.
    destruct (in_range (ibase v) (iend v) a) eqn:E; [|done].
    apply in_range_spec in E. lia.
Qed.

(** *** Optional pieces: the code inserts a remainder only when it is not empty *)

Lemma put_piece lo hi m v (c : bool) : spaced lo hi m → (c = true ↔ 0 < isize v) →
  lo ≤ ibase v → iend v ≤ hi → free_of m (ibase v) (iend v) →
  let m' := if c then bt_insert m (ibase v) v else m in
  spaced lo hi m' ∧ ∀ a, at_addr m' a = if covers v a then Some v else at_addr m a.
Proof.
  intros Hs Hc Hlo Hhi Hfree. destruct c; simpl.
  - assert (0 < isize v) by by apply Hc.
    split; [by apply spaced_insert|]. intros a. by eapply at_addr_insert.
  - assert (¬ 0 < isize v) by (intros ?%Hc; done).
    split; [done|]. intros a. unfold covers, iend. case_range; [lia|done].
Qed.

(** *** Positions in the entry list *)

Lemma bt_get_app m1 m2 k v : k ∉ m1.*1 → bt_get (m1 ++ (k, v) :: m2) k = Some v.
Proof.
  induction m1 as [|[j w] m1 IH]; simpl; intros Hk.
  - by rewrite Z.eqb_refl.
  - apply not_elem_of_cons in Hk as [? Hk].
    destruct (Z.eqb_spec k j); [done|]. auto.
Qed.

Lemma bt_get_notin m k : k ∉ m.*1 → bt_get m k = None.
Proof.
  induction m as [|[j w] m IH]; simpl; intros Hk; [done|].
  apply not_elem_of_cons in Hk as [? Hk].
  destruct (Z.eqb_spec k j); [done|]. auto.
Qed.

Lemma bt_remove_app m1 m2 k v : k ∉ m1.*1 → bt_remove (m1 ++ (k, v) :: m2) k = m1 ++ m2.
Proof.
  induction m1 as [|[j w] m1 IH]; simpl; intros Hk.
  - by rewrite Z.eqb_refl.
  - apply not_elem_of_cons in Hk as [? Hk].
    destruct (Z.eqb_spec k j); [done|]. by rewrite IH.
Qed.

Lemma bt_update_app m1 m2 k v f : k ∉ m1.*1 →
  bt_update (m1 ++ (k, v) :: m2) k f = m1 ++ (k, f v) :: m2.
Proof.
  induction m1 as [|[j w] m1 IH]; simpl; intros Hk.
  - by rewrite Z.eqb_refl.
  - apply not_elem_of_cons in Hk as [? Hk].
    destruct (Z.eqb_spec k j); [done|]. by rewrite IH.
Qed.

Lemma spaced_app lo hi m1 m2 :
  spaced lo hi (m1 ++ m2) ↔ ∃ mid, spaced lo mid m1 ∧ spaced mid hi m2.
Proof.
  revert lo. induction m1 as [|[k v] m1 IH]; intros lo; simpl.
  - split.
    + intros Hs. exists lo. done.
    + intros (mid & ? & ?). by eapply spaced_weaken.
  - setoid_rewrite IH. naive_solver.
Qed.

Lemma at_addr_app m1 m2 a :
  at_addr (m1 ++ m2) a = match at_addr m1 a with Some v => Some v | None => at_addr m2 a end.
Proof. induction m1 as [|[k v] m1 IH]; simpl; [done|]. by destruct (covers v a). Qed.

Lemma spaced_keys lo hi m k : spaced lo hi m → k ∈ m.*1 → lo ≤ k < hi.
Proof.
  intros Hs ([k' v] & -> & Hin)%list_elem_of_fmap.
  apply (spaced_bounds _ _ _ _ _ Hs) in Hin as (-> & ? & ? & ?).
  unfold iend in *. simpl. lia.
Qed.

Lemma spaced_NoDup lo hi m : spaced lo hi m → NoDup m.*1.
Proof.
  revert lo. induction m as [|[k v] m IH]; intros lo; simpl; [constructor|].
  intros (-> & ? & ? & Hs). constructor; [|eauto].
  intros Hk. apply (spaced_keys _ _ _ _ Hs) in Hk. unfold iend in Hk. lia.
Qed.

End intervals.

#[export] Hint Resolve spaced_remove spaced_insert spaced_update tiled_spaced
  bt_get_elem : rust.
