(* ===== verification/PhysicalMemory.v ===== *)
(** * crates/core/src/memory/physical_memory.rs: direct memory allocation

    [areas] is the [BTreeMap] from base address to area.  [state_at] is the
    abstract view the manager promises: what every byte of direct memory is
    used for.  The operations are shown to refine updates of that view. *)

From S2P Require Import Prelude CommonTypes BTreeMap.

Local Open Scope rust_scope.

Module Physical.

Inductive PhysicalMemoryType :=
  Free | Allocated | Mapped | Pooled | Committed | Flexible.

#[export] Instance PhysicalMemoryType_eq_dec : EqDecision PhysicalMemoryType.
Proof. solve_decision. Defined.

Record PhysicalMemoryArea := {
  pa_base : PAddr;
  pa_size : Z;
  pa_memory_type : Z;
  pa_dma_type : PhysicalMemoryType;
}.

#[export] Instance PhysicalMemoryArea_Interval : Interval PhysicalMemoryArea :=
  { ibase := pa_base; isize := pa_size }.

(** [PhysicalMemoryArea::end]. *)
Definition area_end (self : PhysicalMemoryArea) : PAddr :=
  pa_base self +64 pa_size self.

Definition can_merge_with (self next : PhysicalMemoryArea) : bool :=
  (pa_base self +64 pa_size self =? pa_base next)
  && (pa_memory_type self =? pa_memory_type next)
  && bool_decide (pa_dma_type self = pa_dma_type next).

Record PhysicalMemoryManager := {
  areas : list (PAddr * PhysicalMemoryArea);
  total_size : Z;
}.

Definition new (total_size : Z) : PhysicalMemoryManager :=
  {| areas := bt_insert [] 0
       {| pa_base := 0; pa_size := total_size;
          pa_memory_type := 0; pa_dma_type := Free |};
     total_size := total_size |}.

Definition set_areas (self : PhysicalMemoryManager) m : PhysicalMemoryManager :=
  {| areas := m; total_size := total_size self |}.

Definition set_dma_type (t : PhysicalMemoryType) (a : PhysicalMemoryArea) :=
  {| pa_base := pa_base a; pa_size := pa_size a;
     pa_memory_type := pa_memory_type a; pa_dma_type := t |}.

(** The search loop of [carve_area]: first entry that contains the address. *)
Fixpoint find_containing (m : list (PAddr * PhysicalMemoryArea)) (addr : PAddr)
  : option PAddr :=
  match m with
  | [] => None
  | (base, area) :: m' =>
      if (base <=? addr) && (addr <? area_end area) then Some base
      else find_containing m' addr
  end.

Definition carve_area (self : PhysicalMemoryManager) (addr : PAddr) (size : Z)
  : pan PhysicalMemoryManager :=
  match find_containing (areas self) addr with
  | None => mret self
  | Some containing_addr =>
      area ← unwrap (bt_get (areas self) containing_addr);
      let m := bt_remove (areas self) containing_addr in
      let piece b s :=
        {| pa_base := b; pa_size := s;
           pa_memory_type := pa_memory_type area;
           pa_dma_type := pa_dma_type area |} in
      let m :=
        if pa_base area <? addr
        then bt_insert m (pa_base area) (piece (pa_base area) (addr -64 pa_base area))
        else m in
      let m := bt_insert m addr (piece addr size) in
      let end_ := addr +64 size in
      let m :=
        if end_ <? area_end area
        then bt_insert m end_ (piece end_ (area_end area -64 end_))
        else m in
      mret (set_areas self m)
  end.

(** The body of the search loop of [allocate], for one area. *)
Definition try_fit (search_start search_end size alignment : Z)
    (area : PhysicalMemoryArea) : option PAddr :=
  if negb (bool_decide (pa_dma_type area = Free)) then None
  else
    let aligned_base := align_up (pa_base area `max` search_start) alignment in
    let end_ := aligned_base +64 size in
    if (pa_base area <=? aligned_base) && (end_ <=? area_end area)
       && (end_ <=? search_end)
    then Some aligned_base
    else None.

Fixpoint find_fit (search_start search_end size alignment : Z)
    (values : list PhysicalMemoryArea) : option PAddr :=
  match values with
  | [] => None
  | area :: values' =>
      match try_fit search_start search_end size alignment area with
      | Some addr => Some addr
      | None => find_fit search_start search_end size alignment values'
      end
  end.

Definition allocate (self : PhysicalMemoryManager)
    (search_start search_end : PAddr) (size alignment : Z)
  : pan (PhysicalMemoryManager * option PAddr) :=
  let alignment := alignment `max` PAGE_SIZE in
  match find_fit search_start search_end size alignment (bt_values (areas self)) with
  | Some addr =>
      self ← carve_area self addr size;
      mret (set_areas self (bt_update (areas self) addr (set_dma_type Allocated)),
            Some addr)
  | None => mret (self, None)
  end.

(** One iteration of [merge_adjacent] per consecutive pair of the keys that
    were collected before the loop; [self.areas[&key]] panics when the key has
    been removed meanwhile. *)
Fixpoint merge_loop (pairs : list (PAddr * PAddr))
    (m : list (PAddr * PhysicalMemoryArea))
  : pan (list (PAddr * PhysicalMemoryArea)) :=
  match pairs with
  | [] => mret m
  | (current_key, next_key) :: pairs' =>
      current ← unwrap (bt_get m current_key);
      next ← unwrap (bt_get m next_key);
      if can_merge_with current next then
        let m := bt_remove m next_key in
        current ← unwrap (bt_get m current_key);
        let grow (a : PhysicalMemoryArea) :=
          {| pa_base := pa_base a; pa_size := pa_size a +64 pa_size next;
             pa_memory_type := pa_memory_type a; pa_dma_type := pa_dma_type a |} in
        merge_loop pairs' (bt_update m current_key grow)
      else merge_loop pairs' m
  end.

Definition merge_adjacent (self : PhysicalMemoryManager) : pan PhysicalMemoryManager :=
  let keys := bt_keys (areas self) in
  m ← merge_loop (zip keys (tail keys)) (areas self);
  mret (set_areas self m).

Definition free (self : PhysicalMemoryManager) (addr : PAddr) (size : Z)
  : pan (PhysicalMemoryManager * bool) :=
  match bt_get (areas self) addr with
  | Some area =>
      if pa_size area =? size then
        let self := set_areas self (bt_update (areas self) addr (set_dma_type Free)) in
        self ← merge_adjacent self;
        mret (self, true)
      else mret (self, false)
  | None => mret (self, false)
  end.

(** ** The abstract view *)

Definition label (v : PhysicalMemoryArea) : Z * PhysicalMemoryType :=
  (pa_memory_type v, pa_dma_type v).

(** What each byte of direct memory is used for. *)
Definition state_at (self : PhysicalMemoryManager) (a : PAddr)
  : option (Z * PhysicalMemoryType) :=
  label <$> at_addr (areas self) a.

(** The areas partition direct memory, which is smaller than [2^62] bytes. *)
Definition wf (self : PhysicalMemoryManager) : Prop :=
  tiled 0 (total_size self) (areas self) ∧ 0 < total_size self < 2 ^ 62.

#[export] Instance wf_dec self : Decision (wf self).
Proof. unfold wf. apply _. Defined.

(** ** Lemmas: carving *)

Lemma area_end_small lo hi m k v : spaced lo hi m → 0 ≤ lo → hi < 2 ^ 64 →
  (k, v) ∈ m → area_end v = iend v.
Proof.
  intros Hs Hlo Hhi Hin.
  apply (spaced_bounds _ _ _ _ _ Hs) in Hin as (_ & ? & ? & ?).
  unfold area_end, iend in *. simpl in *. by unwrap64.
Qed.

Lemma find_containing_at lo hi m addr : spaced lo hi m → 0 ≤ lo → hi < 2 ^ 64 →
  find_containing m addr = ibase <$> at_addr m addr.
Proof.
  revert lo. induction m as [|[k v] m IH]; intros lo Hs Hlo Hhi; [done|].
  pose proof (area_end_small _ _ _ k v Hs Hlo Hhi ltac:(set_solver)) as He.
  destruct Hs as (-> & ? & ? & Hs). simpl. rewrite He. unfold covers.
  simpl. case_range; destruct (Z.leb_spec (pa_base v) addr),
    (Z.ltb_spec addr (iend v)); simpl in *; try lia; try done.
  all: eapply IH; [done | unfold iend in *; simpl in *; lia | done].
Qed.

Definition piece (area : PhysicalMemoryArea) (b s : Z) : PhysicalMemoryArea :=
  {| pa_base := b; pa_size := s;
     pa_memory_type := pa_memory_type area; pa_dma_type := pa_dma_type area |}.

(** The three pieces that replace an area, as [carve_area] inserts them. *)
Definition carve_pieces (m : list (PAddr * PhysicalMemoryArea))
    (area : PhysicalMemoryArea) (addr size : Z) :=
  let m := bt_remove m (pa_base area) in
  let m :=
    if pa_base area <? addr
    then bt_insert m (pa_base area) (piece area (pa_base area) (addr - pa_base area))
    else m in
  let m := bt_insert m addr (piece area addr size) in
  if addr + size <? iend area
  then bt_insert m (addr + size) (piece area (addr + size) (iend area - (addr + size)))
  else m.

Lemma carve_area_pieces self hi addr size base area :
  spaced 0 hi (areas self) → hi < 2 ^ 64 →
  bt_get (areas self) base = Some area → base ≤ addr → 0 < size →
  addr + size ≤ iend area →
  carve_area self addr size =
  Ok (set_areas self (carve_pieces (areas self) area addr size)).
Proof.
  intros Hs Hhi Hg Hb Hsz Hfit.
  pose proof (bt_get_base _ _ _ _ _ Hs Hg) as (-> & Hb0 & Hpos & Hend).
  unfold carve_area. erewrite find_containing_at by (done || lia).
  erewrite at_addr_unique by (eauto using bt_get_elem; lia).
  simpl in *. rewrite Hg. simpl.
  rewrite (area_end_small _ _ _ _ _ Hs ltac:(lia) Hhi (bt_get_elem _ _ _ Hg)).
  unfold carve_pieces, iend in *. simpl in *. by unwrap64.
Qed.

(** The same pieces one insertion at a time: each fills a hole left by the
    removal, so the map stays spaced and the lookups are exactly the pieces. *)
Lemma carve_pieces_spec hi m area addr size :
  spaced 0 hi m → bt_get m (pa_base area) = Some area →
  pa_base area ≤ addr → 0 < size → addr + size ≤ iend area →
  spaced 0 hi (carve_pieces m area addr size) ∧
  ∀ a, at_addr (carve_pieces m area addr size) a =
    if in_range (addr + size) (iend area) a
    then Some (piece area (addr + size) (iend area - (addr + size)))
    else if in_range addr (addr + size) a then Some (piece area addr size)
    else if in_range (pa_base area) addr a
    then Some (piece area (pa_base area) (addr - pa_base area))
    else at_addr m a.
Proof.
  intros Hs Hg Hb Hsz Hfit. unfold carve_pieces.
  pose proof (bt_get_base _ _ _ _ _ Hs Hg) as (_ & Hb0 & Hpos & Hend).
  pose proof (spaced_remove _ _ _ (pa_base area) Hs) as H1.
  pose proof (λ a, at_addr_remove _ _ _ _ _ a Hs Hg) as E1.
  set (m1 := bt_remove m (pa_base area)) in *. unfold covers, iend in *. simpl in *.
  destruct (put_piece 0 hi m1 (piece area (pa_base area) (addr - pa_base area))
    (pa_base area <? addr)) as [H2 E2]; unfold covers, iend in *; simpl in *;
    try done; try lia.
  { intros a Ha. rewrite E1. case_range; [done|lia]. }
  set (m2 := if pa_base area <? addr then _ else m1) in *.
  destruct (put_piece 0 hi m2 (piece area addr size) true) as [H3 E3];
    unfold covers, iend in *; simpl in *; try done; try lia.
  { intros a Ha. rewrite E2, E1. repeat case_range; try done; lia. }
  set (m3 := bt_insert m2 addr (piece area addr size)) in *.
  destruct (put_piece 0 hi m3
    (piece area (addr + size) (pa_base area + pa_size area - (addr + size)))
    (addr + size <? pa_base area + pa_size area)) as [H4 E4];
    unfold covers, iend in *; simpl in *; try done; try lia.
  { intros a Ha. rewrite E3, E2, E1. repeat case_range; try done; lia. }
  split; [done|]. intros a. rewrite E4, E3, E2, E1.
  repeat case_range; try done; lia.
Qed.

(** Carving splits one area in up to three: the entry at [addr] has exactly the
    requested size and no byte changes its use. *)
Lemma carve_area_spec self hi addr size base area :
  spaced 0 hi (areas self) → hi < 2 ^ 64 →
  bt_get (areas self) base = Some area → base ≤ addr → 0 < size →
  addr + size ≤ iend area →
  ∃ m, carve_area self addr size = Ok (set_areas self m) ∧
    spaced 0 hi m ∧ bt_get m addr = Some (piece area addr size) ∧
    ∀ a, label <$> at_addr m a = label <$> at_addr (areas self) a.
Proof.
  intros Hs Hhi Hg Hb Hsz Hfit.
  pose proof (bt_get_base _ _ _ _ _ Hs Hg) as (-> & _ & _ & _).
  destruct (carve_pieces_spec hi (areas self) area addr size) as [Hm Em]; try done.
  eexists. split; [by eapply carve_area_pieces|]. split_and!; [done| |].
  - unfold carve_pieces.
    destruct (addr + size <? iend area);
      rewrite !bt_get_insert, ?Z.eqb_refl; [|done].
    destruct (Z.eqb_spec addr (addr + size)); [lia|done].
  - intros a. rewrite Em. unfold iend in *. simpl in *.
    destruct (decide (pa_base area ≤ a < pa_base area + pa_size area)).
    + erewrite (at_addr_unique _ _ (areas self)) by eauto using bt_get_elem.
      by repeat case_range.
    + repeat case_range; try done; lia.
Qed.

(** ** Lemmas: searching *)

(** What the search accepts: a free area with an aligned place inside the
    window.  [lim] bounds every quantity so that no sum wraps. *)
Definition window_ok (search_start search_end size alignment : Z) : Prop :=
  is_pow2 alignment ∧ alignment ≤ 2 ^ 62 ∧ 0 ≤ search_start ≤ 2 ^ 62 ∧
  0 ≤ search_end < 2 ^ 64 ∧ 0 < size ≤ 2 ^ 62.

Lemma window_ok_max ss se size al : window_ok ss se size al →
  window_ok ss se size (al `max` PAGE_SIZE).
Proof.
  unfold window_ok. intros (? & ? & ? & ? & ?). split_and!; try lia.
  - auto with rust.
  - unfold PAGE_SIZE. lia.
Qed.

Lemma try_fit_Some ss se size al area addr : window_ok ss se size al →
  0 ≤ pa_base area → 0 < pa_size area → iend area < 2 ^ 62 →
  try_fit ss se size al area = Some addr ↔
  pa_dma_type area = Free ∧ addr = align_up (pa_base area `max` ss) al ∧
  addr + size ≤ iend area ∧ addr + size ≤ se.
Proof.
  intros (Ha & ? & ? & ? & ?) ? ? Hend. pose proof (is_pow2_bounds al Ha).
  unfold try_fit, area_end, iend in *. simpl in *.
  destruct (align_up_spec (pa_base area `max` ss) al Ha) as [Hr _]; [lia|lia|].
  set (b := align_up _ al) in *. unwrap64.
  destruct (bool_decide_reflect (pa_dma_type area = Free)); simpl;
    [|by split; [|intros (? & ?)]].
  destruct (Z.leb_spec (pa_base area) b); [|lia].
  destruct (Z.leb_spec (b + size) (pa_base area + pa_size area));
    destruct (Z.leb_spec (b + size) se); simpl; split;
    first [by intros [= <-] | intros (? & -> & ? & ?); done || lia | done].
Qed.

Lemma find_fit_Some ss se size al vs addr :
  find_fit ss se size al vs = Some addr →
  ∃ area, area ∈ vs ∧ try_fit ss se size al area = Some addr.
Proof.
  induction vs as [|v vs IH]; simpl; [done|].
  destruct (try_fit ss se size al v) eqn:E.
  - intros [= ->]. exists v. set_solver.
  - intros Hf. destruct (IH Hf) as (w & ? & ?). exists w. set_solver.
Qed.

Lemma find_fit_None ss se size al vs area :
  find_fit ss se size al vs = None → area ∈ vs →
  try_fit ss se size al area = None.
Proof.
  induction vs as [|v vs IH]; simpl; [set_solver|].
  destruct (try_fit ss se size al v) eqn:E; [done|].
  intros Hf [->|Hin]%elem_of_cons; auto.
Qed.

Lemma wf_elem self area : wf self → area ∈ bt_values (areas self) →
  bt_get (areas self) (pa_base area) = Some area ∧ 0 ≤ pa_base area ∧
  0 < pa_size area ∧ iend area < 2 ^ 62.
Proof.
  intros [Ht Hsz] ([k v] & -> & Hin)%list_elem_of_fmap.
  apply tiled_spaced in Ht.
  pose proof (spaced_bounds _ _ _ _ _ Ht Hin) as (-> & ? & ? & ?).
  split_and!; simpl in *; try lia. by eapply (elem_bt_get _ _ _ (pa_base v)).
Qed.

(** [wf] only depends on the abstract view. *)
Lemma wf_state_at self m : wf self → spaced 0 (total_size self) m →
  (∀ a, is_Some (at_addr (areas self) a) → is_Some (at_addr m a)) →
  wf (set_areas self m).
Proof.
  intros [Ht Hsz] Hs Hm. split; [|done]. simpl. apply tiled_iff. split; [done|].
  apply tiled_iff in Ht as [_ Hn]. intros a Ha Hnone.
  specialize (Hn a Ha). destruct (at_addr (areas self) a) eqn:E; [|done].
  destruct (Hm a) as [w Hw]; [by rewrite E|]. by rewrite Hnone in Hw.
Qed.

Lemma set_dma_type_range t v :
  ibase (set_dma_type t v) = ibase v ∧ isize (set_dma_type t v) = isize v.
Proof. done. Qed.

(** Changing the use of one entry, seen from the abstract view. *)
Lemma state_at_set_dma self hi k v t a :
  spaced 0 hi (areas self) → bt_get (areas self) k = Some v →
  state_at (set_areas self (bt_update (areas self) k (set_dma_type t))) a =
  if in_range (pa_base v) (iend v) a then Some (pa_memory_type v, t)
  else state_at self a.
Proof.
  intros Hs Hg. unfold state_at. simpl.
  erewrite at_addr_update by (done || apply set_dma_type_range).
  unfold covers. simpl. by case_range.
Qed.

(** ** Lemmas: merging *)

Definition grow (next a : PhysicalMemoryArea) : PhysicalMemoryArea :=
  {| pa_base := pa_base a; pa_size := pa_size a +64 pa_size next;
     pa_memory_type := pa_memory_type a; pa_dma_type := pa_dma_type a |}.

(** What the merge loop computes, by position: the first mergeable pair is
    merged; if it is not the last pair, the next iteration indexes the entry
    that was just removed. *)
Fixpoint merge_first (l1 l2 : list (PAddr * PhysicalMemoryArea))
  : pan (list (PAddr * PhysicalMemoryArea)) :=
  match l2 with
  | [] => Ok l1
  | (k, c) :: l2' =>
      match l2' with
      | [] => Ok (l1 ++ l2)
      | (k', n) :: rest =>
          if can_merge_with c n then
            match rest with [] => Ok (l1 ++ [(k, grow n c)]) | _ :: _ => Panic end
          else merge_first (l1 ++ [(k, c)]) l2'
      end
  end.

Lemma merge_first_cons l1 k c k' n rest :
  merge_first l1 ((k, c) :: (k', n) :: rest) =
  if can_merge_with c n then
    match rest with [] => Ok (l1 ++ [(k, grow n c)]) | _ :: _ => Panic end
  else merge_first (l1 ++ [(k, c)]) ((k', n) :: rest).
Proof. done. Qed.

Lemma merge_loop_first l1 l2 : NoDup (l1 ++ l2).*1 →
  merge_loop (zip l2.*1 (tail l2.*1)) (l1 ++ l2) = merge_first l1 l2.
Proof.
  revert l1. induction l2 as [|[k c] l2 IH]; intros l1 Hnd; [by rewrite app_nil_r|].
  destruct l2 as [|[k' n] rest]; [done|].
  pose proof Hnd as Hnd0. rewrite fmap_app in Hnd. simpl in Hnd.
  apply NoDup_app in Hnd as (_ & Hd & Hnd).
  apply NoDup_cons in Hnd as [Hk Hnd]. apply NoDup_cons in Hnd as [Hk' Hnd].
  assert (k ∉ l1.*1) by (intros Hin; specialize (Hd _ Hin); set_solver).
  assert (k' ∉ l1.*1) by (intros Hin; specialize (Hd _ Hin); set_solver).
  assert (Hk2 : k' ∉ (l1 ++ [(k, c)]).*1) by (rewrite fmap_app; set_solver).
  cbn [fmap list_fmap tail zip zip_with merge_loop fst].
  rewrite (bt_get_app l1 _ k) by done.
  replace (l1 ++ (k, c) :: (k', n) :: rest) with ((l1 ++ [(k, c)]) ++ (k', n) :: rest)
    by by rewrite <-app_assoc.
  rewrite bt_get_app by done. cbn [unwrap mbind outcome_bind].
  rewrite merge_first_cons. destruct (can_merge_with c n).
  - rewrite bt_remove_app by done. rewrite <-app_assoc. simpl app.
    rewrite bt_get_app by done. cbn [unwrap mbind outcome_bind].
    rewrite bt_update_app by done.
    destruct rest as [|[k'' n''] rest]; [done|].
    cbn [fmap list_fmap tail zip zip_with merge_loop fst].
    match goal with |- unwrap ?x ≫= _ = _ =>
      replace x with (@None PhysicalMemoryArea); [done|symmetry] end.
    apply bt_get_notin. rewrite fmap_app. set_solver.
  - apply (IH (l1 ++ [(k, c)])).
    by rewrite <-app_assoc.
Qed.

(** Two neighbours in the entry list that the loop would merge. *)
Definition mergeable_at (m : list (PAddr * PhysicalMemoryArea)) (i : nat) : Prop :=
  ∃ kc kn, m !! i = Some kc ∧ m !! S i = Some kn ∧
    can_merge_with kc.2 kn.2 = true.

Lemma merge_first_Panic l1 l2 :
  merge_first l1 l2 = Panic ↔
  ∃ i, mergeable_at l2 i ∧ (S (S i) < length l2)%nat.
Proof.
  revert l1. induction l2 as [|[k c] l2 IH]; intros l1.
  { split; [done|]. intros (i & _ & Hi). simpl in Hi. lia. }
  destruct l2 as [|[k' n] rest].
  { split; [done|]. intros (i & _ & Hi). simpl in Hi. lia. }
  rewrite merge_first_cons. destruct (can_merge_with c n) eqn:E.
  - destruct rest as [|p rest]; split; try done.
    + intros (i & _ & Hi). simpl in Hi. lia.
    + intros _. exists 0%nat. split; [|simpl; lia]. by exists (k, c), (k', n).
  - rewrite IH. split.
    + intros (i & (kc & kn & ? & ? & ?) & Hi). exists (S i).
      split; [by exists kc, kn | simpl in *; lia].
    + intros ([|i] & (kc & kn & H1 & H2 & H3) & Hi).
      * simpl in H1, H2. injection H1 as <-. injection H2 as <-. simpl in H3. congruence.
      * exists i. split; [by exists kc, kn | simpl in *; lia].
Qed.

Lemma can_merge_with_spec c n : 0 ≤ pa_base c → 0 < pa_size c → iend c < 2 ^ 64 →
  can_merge_with c n = true ↔ pa_base n = iend c ∧ label c = label n.
Proof.
  intros. unfold can_merge_with, label, iend in *. simpl in *. unwrap64.
  rewrite !andb_true_iff, !Z.eqb_eq, bool_decide_eq_true. naive_solver congruence.
Qed.

Lemma merge_pair lo hi l1 k c k' n : 0 ≤ lo → hi < 2 ^ 64 →
  spaced lo hi (l1 ++ [(k, c); (k', n)]) → can_merge_with c n = true →
  spaced lo hi (l1 ++ [(k, grow n c)]) ∧
  ∀ a, label <$> at_addr (l1 ++ [(k, grow n c)]) a =
    label <$> at_addr (l1 ++ [(k, c); (k', n)]) a.
Proof.
  intros Hlo Hhi (mid & H1 & H2)%spaced_app Hm.
  pose proof (spaced_le _ _ _ H1). simpl in H2.
  destruct H2 as (-> & ? & ? & -> & ? & ? & ?).
  unfold iend in *. simpl in *.
  apply can_merge_with_spec in Hm as [Hb Hl]; unfold iend in *; simpl in *; try lia.
  split.
  - apply spaced_app. exists mid. split; [done|]. simpl. unfold iend. simpl.
    unwrap64. split_and!; lia.
  - intros a. rewrite !at_addr_app. destruct (at_addr l1 a); [done|].
    simpl. unfold covers, iend. simpl. unwrap64.
    repeat case_range; simpl; try done; try lia; by apply (f_equal Some Hl).
Qed.

Lemma merge_first_Ok lo hi l1 l2 m : 0 ≤ lo → hi < 2 ^ 64 →
  spaced lo hi (l1 ++ l2) → merge_first l1 l2 = Ok m →
  spaced lo hi m ∧ ∀ a, label <$> at_addr m a = label <$> at_addr (l1 ++ l2) a.
Proof.
  intros Hlo Hhi. revert l1. induction l2 as [|[k c] l2 IH]; intros l1 Hs.
  { intros [= <-]. by rewrite app_nil_r in *. }
  destruct l2 as [|[k' n] rest]; [by intros [= <-]|].
  rewrite merge_first_cons. destruct (can_merge_with c n) eqn:E.
  - destruct rest as [|p rest]; [|done]. intros [= <-]. eapply merge_pair; eauto.
  - intros Hm. replace (l1 ++ (k, c) :: (k', n) :: rest)
      with ((l1 ++ [(k, c)]) ++ (k', n) :: rest) in * by by rewrite <-app_assoc.
    eapply IH; eauto.
Qed.

Lemma merge_adjacent_first self hi : spaced 0 hi (areas self) →
  merge_adjacent self = m ← merge_first [] (areas self); mret (set_areas self m).
Proof.
  intros Hs. unfold merge_adjacent, bt_keys.
  rewrite <-(merge_loop_first [] (areas self)) by (by eapply spaced_NoDup). done.
Qed.

(** ** Initial state *)

Lemma new_wf total : 0 < total < 2 ^ 62 → wf (new total).
Proof. intros. split; [|done]. simpl. unfold iend. simpl. lia. Qed.

(** The manager after any history of allocations and successful frees. *)
Inductive step : PhysicalMemoryManager → PhysicalMemoryManager → Prop :=
| step_allocate self ss se size al self' r :
    window_ok ss se size al → allocate self ss se size al = Ok (self', r) →
    step self self'
| step_free self addr size self' b :
    free self addr size = Ok (self', b) → step self self'.

Inductive reachable (total : Z) : PhysicalMemoryManager → Prop :=
| reachable_new : reachable total (new total)
| reachable_step self self' : reachable total self → step self self' →
    reachable total self'.

(** What a search that found [addr] knows about the area it will carve. *)
Lemma find_fit_wf self ss se size al addr : wf self → window_ok ss se size al →
  find_fit ss se size al (bt_values (areas self)) = Some addr →
  ∃ area, bt_get (areas self) (pa_base area) = Some area ∧
    pa_dma_type area = Free ∧ pa_base area `max` ss ≤ addr ∧ (al | addr) ∧
    addr + size ≤ iend area ∧ addr + size ≤ se.
Proof.
  intros Hwf Hw (area & Hin & Hfit)%find_fit_Some.
  destruct (wf_elem _ _ Hwf Hin) as (Hg & ? & ? & ?).
  apply try_fit_Some in Hfit as (Hf & -> & ? & ?); [|done..].
  destruct Hw as (Hal & ? & ? & ? & ?). pose proof (is_pow2_bounds _ Hal).
  destruct (align_up_spec (pa_base area `max` ss) al Hal) as [? ?];
    [lia | unfold iend in *; simpl in *; lia |].
  exists area. split_and!; done || lia.
Qed.

(** A successful search, carved and marked. *)
Lemma allocate_found self ss se size al addr : wf self → window_ok ss se size al →
  find_fit ss se size (al `max` PAGE_SIZE) (bt_values (areas self)) = Some addr →
  ∃ m area, allocate self ss se size al = Ok (set_areas self m, Some addr) ∧
    wf (set_areas self m) ∧
    (∀ a, addr ≤ a < addr + size → state_at self a = Some (pa_memory_type area, Free)) ∧
    ∀ a, state_at (set_areas self m) a =
      if in_range addr (addr + size) a then Some (pa_memory_type area, Allocated)
      else state_at self a.
Proof.
  intros Hwf Hw Hfit. unfold allocate. rewrite Hfit.
  apply find_fit_wf in Hfit as (area & Hg & Hfree & Hlo & _ & Hend & _);
    [|done|by apply window_ok_max].
  pose proof Hwf as [Ht Hsz]. apply tiled_spaced in Ht.
  destruct (carve_area_spec self (total_size self) addr size (pa_base area) area)
    as (m & -> & Hm & Hgm & Em); try done; try (unfold window_ok in Hw; lia).
  simpl. eexists _, area. split; [done|].
  pose proof (λ a, state_at_set_dma (set_areas self m) _ addr _ Allocated a Hm Hgm) as Es.
  unfold iend in Es. simpl in Es. split_and!.
  - apply (wf_state_at self); [done|by apply spaced_update|].
    intros a [v Hv]. specialize (Es a). unfold state_at in Es. simpl in Es.
    rewrite Em, Hv in Es. destruct (at_addr _ a); [done|]. by case_range.
  - intros a Ha. unfold state_at. erewrite at_addr_unique;
      [|done|by apply bt_get_elem| unfold iend in *; simpl in *; lia].
    simpl. unfold label. by rewrite Hfree.
  - intros a. rewrite Es. case_range; [done|]. unfold state_at. simpl. apply Em.
Qed.

Lemma free_unfold self addr size area : wf self → bt_get (areas self) addr = Some area →
  pa_size area = size →
  let m := bt_update (areas self) addr (set_dma_type Free) in
  spaced 0 (total_size self) m ∧
  free self addr size =
    (m' ← merge_first [] m; mret (set_areas self m', true)).
Proof.
  intros [Ht Hsz] Hg Hs. apply tiled_spaced in Ht. simpl.
  assert (Hm : spaced 0 (total_size self) (bt_update (areas self) addr (set_dma_type Free)))
    by by apply spaced_update.
  split; [done|]. unfold free. rewrite Hg, Hs, Z.eqb_refl.
  rewrite (merge_adjacent_first (set_areas self _) _ Hm). simpl.
  by destruct (merge_first _ _).
Qed.

Lemma free_found self addr size area self' : wf self →
  bt_get (areas self) addr = Some area → pa_size area = size →
  free self addr size = Ok (self', true) →
  wf self' ∧ total_size self' = total_size self ∧ ∀ a, state_at self' a =
    if in_range addr (addr + size) a then Some (pa_memory_type area, Free)
    else state_at self a.
Proof.
  intros Hwf Hg Hs Hf. destruct (free_unfold _ _ _ _ Hwf Hg Hs) as [Hm Hfr].
  rewrite Hfr in Hf. inv_ok. subst self'.
  pose proof Hwf as [Ht Hsz]. apply tiled_spaced in Ht.
  destruct (merge_first_Ok 0 (total_size self) []
    (bt_update (areas self) addr (set_dma_type Free)) a) as [Hsp Em]; [lia|lia|done|done|].
  simpl in Em.
  assert (Es : ∀ x, state_at (set_areas self a) x =
    if in_range addr (addr + size) x then Some (pa_memory_type area, Free)
    else state_at self x).
  { intros x. unfold state_at at 1. simpl. rewrite Em.
    pose proof (bt_get_base _ _ _ _ _ Ht Hg) as (-> & _).
    pose proof (state_at_set_dma self _ _ _ Free x Ht Hg) as Hx.
    unfold iend in Hx. simpl in Hx. by rewrite Hs in Hx. }
  split_and!; try done. apply (wf_state_at self); [done|done|].
  intros x [v Hv]. specialize (Es x). unfold state_at in Es. simpl in Es.
  rewrite Hv in Es. destruct (at_addr a x); [done|]. by case_range.
Qed.

Lemma step_wf self self' : wf self → step self self' →
  wf self' ∧ total_size self' = total_size self.
Proof.
  intros Hwf Hstep. destruct Hstep as [self ss se size al self' r Hw Ha|self addr size self' b Hf].
  - destruct (find_fit ss se size (al `max` PAGE_SIZE) (bt_values (areas self))) as [p|] eqn:E.
    + destruct (allocate_found self ss se size al p) as (m & area & Ha' & ? & _); try done.
      rewrite Ha' in Ha. by injection Ha as <- <-.
    + unfold allocate in Ha. rewrite E in Ha. by injection Ha as <- <-.
  - unfold free in Hf. destruct (bt_get (areas self) addr) as [area|] eqn:Hg;
      [|by injection Hf as <- <-].
    destruct (Z.eqb_spec (pa_size area) size) as [Hs|]; [|by injection Hf as <- <-].
    destruct b; [|by inv_ok].
    destruct (free_found self addr size area self') as (? & ? & _); try done.
    unfold free. by rewrite Hg, Hs, Z.eqb_refl in *.
Qed.

Lemma pow2_divide_max a b : is_pow2 a → is_pow2 b → (a | a `max` b).
Proof.
  intros (j & Hj & ->) (k & Hk & ->).
  destruct (Z.max_spec (2 ^ j) (2 ^ k)) as [[Hlt ->]|[_ ->]]; [|done].
  assert (j < k) by (apply (Z.pow_lt_mono_r_iff 2); lia).
  exists (2 ^ (k - j)). rewrite <-Z.pow_add_r by lia. f_equal. lia.
Qed.

(** ** Properties *)

(** The abstract operation. *)
Definition allocates (self : PhysicalMemoryManager) (ss se size al : Z)
    (self' : PhysicalMemoryManager) (r : option Z) : Prop :=
  match r with
  | Some addr =>
      (al | addr) ∧ (PAGE_SIZE | addr) ∧ ss ≤ addr ∧ addr + size ≤ se ∧
      ∃ mt, (∀ a, addr ≤ a < addr + size → state_at self a = Some (mt, Free)) ∧
        ∀ a, state_at self' a =
          if in_range addr (addr + size) a then Some (mt, Allocated)
          else state_at self a
  | None => self' = self
  end.


(** A pool of 1 MiB with its first page taken. *)
Definition one_taken : PhysicalMemoryManager :=
  {| areas := [(0, {| pa_base := 0; pa_size := 0x4000; pa_memory_type := 0;
                      pa_dma_type := Allocated |});
               (0x4000, {| pa_base := 0x4000; pa_size := 0xFC000;
                           pa_memory_type := 0; pa_dma_type := Free |})];
     total_size := 0x100000 |}.

Lemma one_taken_wf : wf one_taken.
Proof. by apply (bool_decide_eq_true_1 _); vm_compute. Qed.

Lemma window_ok_witness : window_ok 0 0x100000 0x8000 0x10000.
Proof. unfold window_ok. split_and!; try lia. exists 16. split; [lia|done]. Qed.


(** [allocate] is complete: when it reports failure, no free area contains
    a range of the requested size that is aligned and inside the window. *)
Theorem allocate_complete self ss se size al self' :
  wf self → window_ok ss se size al →
  allocate self ss se size al = Ok (self', None) →
  ∀ area addr, area ∈ bt_values (areas self) → pa_dma_type area = Free →
    (al `max` PAGE_SIZE | addr) → pa_base area ≤ addr → ss ≤ addr →
    addr + size ≤ iend area → addr + size ≤ se → False.
Proof.
  intros Hwf Hw Ha area addr Hin Hfree Hd Hb Hss Hend Hse.
  unfold allocate in Ha.
  destruct (find_fit _ _ _ _ _) eqn:E; [by inv_ok|].
  pose proof (find_fit_None _ _ _ _ _ _ E Hin) as Hn.
  destruct (wf_elem _ _ Hwf Hin) as (_ & ? & ? & ?).
  pose proof (window_ok_max _ _ _ _ Hw) as Hw'. set (al' := al `max` PAGE_SIZE) in *.
  assert (align_up (pa_base area `max` ss) al' ≤ addr) as Hle.
  { destruct Hw' as (? & ? & ? & ? & ?). apply align_up_least; try done; lia. }
  assert (try_fit ss se size al' area =
    Some (align_up (pa_base area `max` ss) al')) as Hfit; [|congruence].
  apply try_fit_Some; try done. split_and!; done || lia.
Qed.

Lemma allocate_complete_witness :
  allocate one_taken 0 0x100000 0x100000 0x4000 = Ok (one_taken, None) ∧
  ∀ area addr, area ∈ bt_values (areas one_taken) → pa_dma_type area = Free →
    (0x4000 `max` PAGE_SIZE | addr) → pa_base area ≤ addr → 0 ≤ addr →
    addr + 0x100000 ≤ iend area → addr + 0x100000 ≤ 0x100000 → False.
Proof.
  assert (allocate one_taken 0 0x100000 0x100000 0x4000 = Ok (one_taken, None)) as E
    by (vm_compute; reflexivity).
  split; [exact E|].
  apply (allocate_complete one_taken 0 0x100000 0x100000 0x4000 one_taken);
    [apply one_taken_wf | | exact E].
  unfold window_ok. split_and!; try lia. exists 14. split; [lia|done].
Defined.

(** Whatever the history of allocations and frees, the areas stay a
    partition of direct memory: sorted, keyed by their base, non-empty, with
    no overlap and no gap. *)
Theorem reachable_wf total self :
  0 < total < 2 ^ 62 → reachable total self → wf self ∧ total_size self = total.
Proof.
  intros Ht. induction 1 as [|self self' _ [Hwf Hsz] Hstep].
  - split; [by apply new_wf | done].
  - destruct (step_wf _ _ Hwf Hstep) as [? ->]. done.
Qed.

Lemma reachable_wf_witness :
  ∃ self, reachable 0x100000 self ∧ wf self ∧ state_at self 5 = Some (0, Allocated).
Proof.
  destruct (allocate (new 0x100000) 0 0x100000 0x8000 0x10000)
    as [[self r]| |] eqn:E; [|by vm_compute in E..].
  exists self. assert (Hr : reachable 0x100000 self).
  { eapply reachable_step; [constructor|].
    exact (step_allocate _ _ _ _ _ _ _ window_ok_witness E). }
  split; [exact Hr|]. split.
  - apply (reachable_wf 0x100000 self); [lia | exact Hr].
  - vm_compute in E. injection E as <- <-. vm_compute. reflexivity.
Defined.

(** When [free] returns, it refines the abstract operation: [true] means
    an area with exactly this base and size existed, its bytes became [Free]
    and no other byte changed (merging is invisible in the view); [false]
    means there was no such area and nothing changed. *)
Theorem free_refines self addr size self' b :
  wf self → free self addr size = Ok (self', b) →
  if b then
    wf self' ∧ ∃ area, bt_get (areas self) addr = Some area ∧ pa_size area = size ∧
      ∀ a, state_at self' a =
        if in_range addr (addr + size) a then Some (pa_memory_type area, Free)
        else state_at self a
  else self' = self ∧
    ∀ area, bt_get (areas self) addr = Some area → pa_size area ≠ size.
Proof.
  intros Hwf Hf. pose proof Hf as Hf0. unfold free in Hf.
  destruct (bt_get (areas self) addr) as [area|] eqn:Hg; [|by injection Hf as <- <-].
  destruct (Z.eqb_spec (pa_size area) size) as [Hs|Hs].
  - destruct b; [|by inv_ok].
    destruct (free_found self addr size area self') as (? & _ & ?); try done.
    split; [done|]. by exists area.
  - injection Hf as <- <-. split; [done|]. by intros ? [= ->].
Qed.

Lemma free_refines_witness :
  ∃ self', free one_taken 0 0x4000 = Ok (self', true) ∧
    wf self' ∧ map fst (areas self') = [0] ∧ state_at self' 0x3FFF = Some (0, Free).
Proof.
  destruct (free one_taken 0 0x4000) as [[self' b]| |] eqn:E; [|by vm_compute in E..].
  pose proof (free_refines _ _ _ _ _ one_taken_wf E) as H.
  vm_compute in E. injection E as <- <-.
  eexists. split; [reflexivity|]. split; [exact (proj1 H)|].
  split; vm_compute; reflexivity.
Defined.

(** Exactly when [free] panics.  The loop of [merge_adjacent] walks keys
    collected before it started, so the key removed by a merge is indexed in
    the next iteration: freeing panics if and only if two neighbours become
    mergeable anywhere but at the very end of the address space. *)
Theorem free_panics_iff self addr size area :
  wf self → bt_get (areas self) addr = Some area → pa_size area = size →
  free self addr size = Panic ↔
  ∃ i, (S (S i) < length (areas self))%nat ∧
    mergeable_at (bt_update (areas self) addr (set_dma_type Free)) i.
Proof.
  intros Hwf Hg Hs. destruct (free_unfold _ _ _ _ Hwf Hg Hs) as [Hm ->].
  rewrite outcome_bind_Panic. rewrite merge_first_Panic.
  assert (length (bt_update (areas self) addr (set_dma_type Free)) =
    length (areas self)) as ->.
  { clear. induction (areas self) as [|[k v] m IH]; simpl; [done|].
    destruct (addr =? k); simpl; by rewrite ?IH. }
  split; [|naive_solver]. intros [(i & ? & ?)|(? & _ & ?)]; [by exists i|done].
Qed.

(** Three pages taken from the front of the pool, the first one freed. *)
Definition hole_then_taken : PhysicalMemoryManager :=
  {| areas := [(0, {| pa_base := 0; pa_size := 0x4000; pa_memory_type := 0;
                      pa_dma_type := Free |});
               (0x4000, {| pa_base := 0x4000; pa_size := 0x4000;
                           pa_memory_type := 0; pa_dma_type := Allocated |});
               (0x8000, {| pa_base := 0x8000; pa_size := 0x4000;
                           pa_memory_type := 0; pa_dma_type := Allocated |});
               (0xC000, {| pa_base := 0xC000; pa_size := 0xF4000;
                           pa_memory_type := 0; pa_dma_type := Free |})];
     total_size := 0x100000 |}.

Lemma free_panics_iff_witness :
  wf hole_then_taken ∧ free hole_then_taken 0x4000 0x4000 = Panic.
Proof.
  assert (wf hole_then_taken) as Hwf by by apply (bool_decide_eq_true_1 _); vm_compute.
  split; [exact Hwf|].
  set (one_page := {| pa_base := 0; pa_size := 0x4000;
    pa_memory_type := 0; pa_dma_type := Free |}).
  apply (free_panics_iff hole_then_taken 0x4000 0x4000
    (set_dma_type Allocated (piece one_page 0x4000 0x4000)));
    [exact Hwf|vm_compute; reflexivity|vm_compute; reflexivity|].
  exists 0%nat. split; [apply Nat.ltb_lt; vm_compute; reflexivity|].
  exists (0, piece one_page 0 0x4000), (0x4000, piece one_page 0x4000 0x4000).
  split_and!; vm_compute; reflexivity.
Defined.

(** The state a computation started in [self] leaves behind. *)
Definition after {A} (self : PhysicalMemoryManager)
    (m : pan (PhysicalMemoryManager * A)) : PhysicalMemoryManager :=
  match m with Ok (s, _) => s | _ => self end.

(** [n] pages taken from the front of a pool. *)
Definition take_page (total : Z) (s : PhysicalMemoryManager) :=
  after s (allocate s 0 total 0x4000 0x4000).
Definition pages_taken (total : Z) (n : nat) : PhysicalMemoryManager :=
  Nat.iter n (take_page total) (new total).

Lemma reachable_pages total n : 0 ≤ total < 2 ^ 64 → reachable total (pages_taken total n).
Proof.
  intros Ht. induction n as [|n IH]; [constructor|]. simpl. unfold take_page.
  destruct (allocate (pages_taken total n) 0 total 0x4000 0x4000) as [[s r]| |] eqn:E;
    [|done|exact IH].
  eapply reachable_step; [exact IH|]. eapply step_allocate; [|exact E].
  unfold window_ok. split_and!; try lia. exists 14. split; [lia|done].
Qed.

(** The panic is reachable from the initial state: allocate three pages of
    a larger pool and free the first one. *)
Theorem free_panic_reachable :
  reachable 0x100000 (pages_taken 0x100000 3) ∧
  free (pages_taken 0x100000 3) 0 0x4000 = Panic.
Proof. split; [apply reachable_pages; lia | vm_compute; reflexivity]. Qed.

(** Merging is not restricted to free areas.  In a pool of exactly three
    pages, all allocated, freeing the first page merges the two others, which
    are still in use; freeing the second page afterwards is refused. *)
Theorem free_merges_allocated_areas :
  let s := pages_taken 0xC000 3 in
  reachable 0xC000 s ∧
  ∃ s', free s 0 0x4000 = Ok (s', true) ∧
    bt_get (areas s') 0x4000 =
      Some {| pa_base := 0x4000; pa_size := 0x8000;
              pa_memory_type := 0; pa_dma_type := Allocated |} ∧
    free s' 0x4000 0x4000 = Ok (s', false).
Proof.
  split; [apply reachable_pages; lia|].
  exists (after (new 0) (free (pages_taken 0xC000 3) 0 0x4000)).
  split_and!; vm_compute; reflexivity.
Qed.

End Physical.
