(* ===== verification/AddressSpace.v ===== *)
(** * crates/core/src/memory/address_space.rs: the host address space

    [libc]'s [mmap], [munmap] and [mprotect] are a parameter: the class
    [HostOS] over an abstract kernel state.  [HostOSLaws] names the documented
    behaviour the emulator relies on.  [AddressSpace] is the reservation made
    at start-up; its methods only forward to the kernel. *)

From S2P Require Import Prelude CommonTypes.

(** ** The operating system interface *)

(** [libc] constants on x86-64 Linux. *)
Definition PROT_NONE : Z := 0.
Definition PROT_READ : Z := 1.
Definition PROT_WRITE : Z := 2.
Definition PROT_EXEC : Z := 4.
Definition MAP_PRIVATE : Z := 0x02.
Definition MAP_FIXED : Z := 0x10.
Definition MAP_ANONYMOUS : Z := 0x20.

Class HostOS (OS : Type) := {
  (** address hint, length, protection, flags; [None] is [MAP_FAILED]. *)
  os_mmap : OS → Z → Z → Z → Z → OS * option Z;
  (** address, length; [true] is the result 0. *)
  os_munmap : OS → Z → Z → OS * bool;
  os_mprotect : OS → Z → Z → Z → OS * bool;
}.

(** mmap(2) and munmap(2): a length of zero is [EINVAL]; a fixed mapping is
    placed at the requested address or not at all; user mappings lie in the
    user half of the address space (at most 56 bits on x86-64), and the kernel never
    chooses the null page. *)
Class HostOSLaws OS `{HostOS OS} : Prop := {
  mmap_zero_length os addr prot flags : (os_mmap os addr 0 prot flags).2 = None;
  munmap_zero_length os addr : (os_munmap os addr 0).2 = false;
  mmap_fixed os addr len prot flags a :
    Z.land flags MAP_FIXED ≠ 0 →
    (os_mmap os addr len prot flags).2 = Some a → a = addr;
  mmap_user_half os addr len prot flags a : 0 ≤ addr → 0 ≤ len →
    (os_mmap os addr len prot flags).2 = Some a → 0 ≤ a ∧ a + len ≤ 2 ^ 56;
  mmap_not_null os addr len prot flags a : Z.land flags MAP_FIXED = 0 →
    (os_mmap os addr len prot flags).2 = Some a → a ≠ 0;
}.

(** The errors [anyhow::bail!] reports, by site. *)
Inductive mem_error :=
| MmapFailed (addr size : Z)
| MunmapFailed (addr size : Z)
| MprotectFailed (addr size : Z)
| ReserveFailed (size : Z)
| AllocateFailed (size : Z)
| NoFreeRegion (size : Z).

Module AddressSpace.

Definition BACKING_SIZE : Z := 8 * 1024 * 1024 * 1024.

Record AddressSpace := {
  backing_base : Z;
  backing_size : Z;
  system_managed_base : Z;
  system_managed_size : Z;
  system_reserved_base : Z;
  system_reserved_size : Z;
  user_base : Z;
  user_size : Z;
}.

Section with_os.
Context {OS : Type} `{HostOS OS}.

Definition mmap_reserve (size : Z) : st OS mem_error Z := λ os,
  match os_mmap os 0x1000000000 size PROT_NONE (Z.lor MAP_PRIVATE MAP_ANONYMOUS) with
  | (os, Some result) => (os, Ok result)
  | (os, None) => (os, Err (ReserveFailed size))
  end.

Definition mmap_anonymous (size : Z) : st OS mem_error Z := λ os,
  match os_mmap os 0 size (Z.lor PROT_READ PROT_WRITE)
          (Z.lor MAP_PRIVATE MAP_ANONYMOUS) with
  | (os, Some result) => (os, Ok result)
  | (os, None) => (os, Err (AllocateFailed size))
  end.

Definition new : st OS mem_error AddressSpace :=
  backing_base ← mmap_anonymous BACKING_SIZE;
  user_base ← mmap_reserve USER_SIZE;
  system_managed_base ← mmap_reserve SYSTEM_MANAGED_SIZE;
  system_reserved_base ← mmap_reserve SYSTEM_RESERVED_SIZE;
  mret {| backing_base := backing_base;
          backing_size := BACKING_SIZE;
          system_managed_base := system_managed_base;
          system_managed_size := SYSTEM_MANAGED_SIZE;
          system_reserved_base := system_reserved_base;
          system_reserved_size := SYSTEM_RESERVED_SIZE;
          user_base := user_base;
          user_size := USER_SIZE |}.

(** The backing offset argument of [map] is only logged. *)
Definition map (virtual_addr : VAddr) (size phys_offset : Z) (executable : bool)
  : st OS mem_error Z := λ os,
  let prot :=
    if executable then Z.lor (Z.lor PROT_READ PROT_WRITE) PROT_EXEC
    else Z.lor PROT_READ PROT_WRITE in
  match os_mmap os virtual_addr size prot
          (Z.lor (Z.lor MAP_PRIVATE MAP_ANONYMOUS) MAP_FIXED) with
  | (os, Some result) => (os, Ok result)
  | (os, None) => (os, Err (MmapFailed virtual_addr size))
  end.

Definition unmap (virtual_addr : VAddr) (size : Z) : st OS mem_error unit := λ os,
  match os_munmap os virtual_addr size with
  | (os, true) => (os, Ok tt)
  | (os, false) => (os, Err (MunmapFailed virtual_addr size))
  end.

Definition protect (virtual_addr : VAddr) (size : Z) (read write exec : bool)
  : st OS mem_error unit := λ os,
  let prot := PROT_NONE in
  let prot := if read then Z.lor prot PROT_READ else prot in
  let prot := if write then Z.lor prot PROT_WRITE else prot in
  let prot := if exec then Z.lor prot PROT_EXEC else prot in
  match os_mprotect os virtual_addr size prot with
  | (os, true) => (os, Ok tt)
  | (os, false) => (os, Err (MprotectFailed virtual_addr size))
  end.

(** [Drop]: every region whose base is not null is unmapped, results ignored. *)
Definition drop_region (base size : Z) (os : OS) : OS :=
  if base =? 0 then os else (os_munmap os base size).1.

Definition drop (self : AddressSpace) (os : OS) : OS :=
  let os := drop_region (backing_base self) (backing_size self) os in
  let os := drop_region (user_base self) (user_size self) os in
  let os := drop_region (system_managed_base self) (system_managed_size self) os in
  drop_region (system_reserved_base self) (system_reserved_size self) os.

(** ** What the forwarding methods promise *)

Lemma map_Ok `{!HostOSLaws OS} addr size off x os os' a :
  map addr size off x os = (os', Ok a) → a = addr ∧ size ≠ 0.
Proof.
  unfold map. destruct (os_mmap _ _ _ _ _) as [o [r|]] eqn:E; [|done].
  intros [= -> ->]. split.
  - eapply (mmap_fixed os addr size); [|by rewrite E]. done.
  - intros ->. pose proof (mmap_zero_length os addr
      (if x then Z.lor (Z.lor PROT_READ PROT_WRITE) PROT_EXEC
       else Z.lor PROT_READ PROT_WRITE)
      (Z.lor (Z.lor MAP_PRIVATE MAP_ANONYMOUS) MAP_FIXED)) as Hz.
    by rewrite E in Hz.
Qed.

Lemma unmap_Ok `{!HostOSLaws OS} addr size os os' u :
  unmap addr size os = (os', Ok u) → size ≠ 0.
Proof.
  unfold unmap. destruct (os_munmap _ _ _) as [o []] eqn:E; [|done].
  intros _ ->. pose proof (munmap_zero_length os addr) as Hz. by rewrite E in Hz.
Qed.

End with_os.

End AddressSpace.

(** ** A concrete kernel, for the witnesses

    Its state is the list of successful requests; fixed mappings below 2^47
    succeed, hinted mappings are placed at 2^36 and upwards. *)
Module ToyOS.

Record OS := { next_addr : Z; fixed_calls : list (Z * Z); unmap_calls : list (Z * Z) }.

#[export] Instance toy_os : HostOS OS := {
  os_mmap os addr len prot flags :=
    if len =? 0 then (os, None)
    else if Z.land flags MAP_FIXED =? 0 then
      if negb ((0 <? next_addr os) && (next_addr os + len <=? 2 ^ 47)) then (os, None) else
      ({| next_addr := next_addr os + len; fixed_calls := fixed_calls os;
          unmap_calls := unmap_calls os |}, Some (next_addr os))
    else if addr + len <=? 2 ^ 47 then
      ({| next_addr := next_addr os; fixed_calls := (addr, len) :: fixed_calls os;
          unmap_calls := unmap_calls os |}, Some addr)
    else (os, None);
  os_munmap os addr len :=
    if len =? 0 then (os, false)
    else ({| next_addr := next_addr os; fixed_calls := fixed_calls os;
             unmap_calls := (addr, len) :: unmap_calls os |}, true);
  os_mprotect os addr len prot := (os, true);
}.

#[export] Instance toy_os_laws : HostOSLaws OS.
Proof.
  split; simpl; intros; try done;
    (destruct (len =? 0); [done|]);
    destruct (Z.eqb_spec (Z.land flags MAP_FIXED) 0); try done;
    repeat match goal with
    | H : context [Z.leb ?a ?b] |- _ => destruct (Z.leb_spec a b)
    | H : context [Z.ltb ?a ?b] |- _ => destruct (Z.ltb_spec a b)
    end; simpl in *; simplify_eq; lia.
Qed.

Definition boot : OS := {| next_addr := 2 ^ 36; fixed_calls := []; unmap_calls := [] |}.

End ToyOS.
