(* ===== verification/VirtualMemory.v ===== *)
(** * crates/core/src/memory/virtual_memory.rs: the memory manager

    [MemoryManager] couples the host address space, direct memory and the VMA
    map.  [view] is the abstract state of the guest address space: the type,
    protection, name and merge flag recorded for every byte.  Mapping and
    unmapping are shown to refine updates of that view. *)

From S2P Require Import Prelude CommonTypes BTreeMap PhysicalMemory AddressSpace.

Local Open Scope rust_scope.

Module Virtual.

(** ** Flags and types *)

Module MemoryProt.
Definition NONE : Z := 0.
Definition CPU_READ : Z := 1.
Definition CPU_WRITE : Z := 2.
Definition CPU_RW : Z := 3.
Definition CPU_EXEC : Z := 4.
Definition GPU_READ : Z := 16.
Definition GPU_WRITE : Z := 32.
Definition GPU_RW : Z := 48.
(** All declared bits, the mask of [from_bits_truncate]. *)
Definition ALL : Z := Z.lor CPU_RW (Z.lor CPU_EXEC GPU_RW).
End MemoryProt.

Module MemoryMapFlags.
Definition NONE : Z := 0.
Definition SHARED : Z := 1.
Definition PRIVATE : Z := 2.
Definition FIXED : Z := 0x10.
Definition NO_OVERWRITE : Z := 0x80.
Definition VOID : Z := 0x100.
Definition STACK : Z := 0x400.
Definition NO_SYNC : Z := 0x800.
Definition ANONYMOUS : Z := 0x1000.
Definition NO_CORE : Z := 0x20000.
Definition NO_COALESCE : Z := 0x400000.
Definition ALL : Z :=
  foldr Z.lor 0 [SHARED; PRIVATE; FIXED; NO_OVERWRITE; VOID; STACK; NO_SYNC;
                 ANONYMOUS; NO_CORE; NO_COALESCE].
End MemoryMapFlags.

Inductive VMAType :=
  Free | Reserved | Direct | Flexible | Pooled | PoolReserved | Stack
| ThreadData | Code | File.

#[export] Instance VMAType_eq_dec : EqDecision VMAType.
Proof. solve_decision. Defined.

Record VirtualMemoryArea := {
  vma_base : VAddr;
  vma_size : Z;
  vma_type : VMAType;
  vma_prot : Z;
  vma_name : string;
  disallow_merge : bool;
}.

#[export] Instance VirtualMemoryArea_Interval : Interval VirtualMemoryArea :=
  { ibase := vma_base; isize := vma_size }.

Definition contains (self : VirtualMemoryArea) (addr : VAddr) (size : Z) : bool :=
  (vma_base self <=? addr) && (addr +64 size <=? vma_base self +64 vma_size self).

Definition overlaps (self : VirtualMemoryArea) (addr : VAddr) (size : Z) : bool :=
  (addr <? vma_base self +64 vma_size self) && (vma_base self <? addr +64 size).

Definition is_free (self : VirtualMemoryArea) : bool :=
  bool_decide (vma_type self = Free).

Definition is_mapped (self : VirtualMemoryArea) : bool :=
  match vma_type self with Free | Reserved | PoolReserved => false | _ => true end.

Definition can_merge_with (self next : VirtualMemoryArea) : bool :=
  if disallow_merge self || disallow_merge next then false
  else if negb (vma_base self +64 vma_size self =? vma_base next) then false
  else if negb (vma_prot self =? vma_prot next)
          || negb (bool_decide (vma_type self = vma_type next)) then false
  else if negb (bool_decide (vma_name self = vma_name next)) then false
  else true.

Record MemoryManager := {
  address_space : AddressSpace.AddressSpace;
  physical : Physical.PhysicalMemoryManager;
  vma_map : list (VAddr * VirtualMemoryArea);
  total_direct_size : Z;
  total_flexible_size : Z;
  flexible_usage : Z;
}.

Definition set_vma_map (self : MemoryManager) m : MemoryManager :=
  {| address_space := address_space self; physical := physical self;
     vma_map := m; total_direct_size := total_direct_size self;
     total_flexible_size := total_flexible_size self;
     flexible_usage := flexible_usage self |}.

Definition set_physical (self : MemoryManager) p : MemoryManager :=
  {| address_space := address_space self; physical := p;
     vma_map := vma_map self; total_direct_size := total_direct_size self;
     total_flexible_size := total_flexible_size self;
     flexible_usage := flexible_usage self |}.

(** The area that stands for unmapped addresses. *)
Definition free_vma (base : VAddr) (size : Z) : VirtualMemoryArea :=
  {| vma_base := base; vma_size := size; vma_type := Free;
     vma_prot := MemoryProt.NONE; vma_name := ""; disallow_merge := false |}.

(** [VirtualMemoryArea { base, size, ..vma }]. *)
Definition with_range (base size : Z) (vma : VirtualMemoryArea) : VirtualMemoryArea :=
  {| vma_base := base; vma_size := size; vma_type := vma_type vma;
     vma_prot := vma_prot vma; vma_name := vma_name vma;
     disallow_merge := disallow_merge vma |}.

(** ** Operations that do not call the kernel *)

Definition get_vmas (self : MemoryManager) : list VirtualMemoryArea :=
  bt_values (vma_map self).

Definition available_flexible_size (self : MemoryManager) : Z :=
  total_flexible_size self -64 flexible_usage self.

Definition allocate_direct_memory (self : MemoryManager)
    (search_start search_end : PAddr) (size alignment memory_type : Z)
  : pan (MemoryManager * option PAddr) :=
  let aligned_size := align_up size PAGE_SIZE in
  '(p, r) ← Physical.allocate (physical self) search_start search_end
              aligned_size alignment;
  mret (set_physical self p, r).

Definition is_valid_gpu_mapping (virtual_addr : VAddr) (size : Z) : bool :=
  virtual_addr +64 size <? MAX_GPU_ADDRESS.

Fixpoint find_free (size alignment : Z) (vmas : list VirtualMemoryArea)
  : option VAddr :=
  match vmas with
  | [] => None
  | vma :: vmas' =>
      if negb (is_free vma) then find_free size alignment vmas'
      else
        let aligned_base := align_up (vma_base vma) alignment in
        if aligned_base +64 size <=? vma_base vma +64 vma_size vma
        then Some aligned_base
        else find_free size alignment vmas'
  end.

Definition find_free_region (self : MemoryManager) (size alignment : Z)
  : outcome mem_error VAddr :=
  ok_or (find_free size alignment (bt_values (vma_map self))) (NoFreeRegion size).

(** One iteration of the carving loop, on the area stored under [base]. *)
Definition carve_one (addr end_ : Z) (m : list (VAddr * VirtualMemoryArea))
    (base : VAddr) : pan (list (VAddr * VirtualMemoryArea)) :=
  vma ← unwrap (bt_get m base);
  let m := bt_remove m base in
  let m :=
    if vma_base vma <? addr
    then bt_insert m (vma_base vma)
           (with_range (vma_base vma) (addr -64 vma_base vma) vma)
    else m in
  let vma_end := vma_base vma +64 vma_size vma in
  let m :=
    if end_ <? vma_end
    then bt_insert m end_ (with_range end_ (vma_end -64 end_) vma)
    else m in
  mret m.

Fixpoint carve_each (addr end_ : Z) (bases : list VAddr)
    (m : list (VAddr * VirtualMemoryArea))
  : pan (list (VAddr * VirtualMemoryArea)) :=
  match bases with
  | [] => mret m
  | base :: bases' => m ← carve_one addr end_ m base; carve_each addr end_ bases' m
  end.

Definition overlapping (m : list (VAddr * VirtualMemoryArea)) (addr size : Z)
  : list VAddr :=
  (filter (λ kv, overlaps kv.2 addr size = true)
     (bt_range_to m (addr +64 size))).*1.

Definition carve_vma (m : list (VAddr * VirtualMemoryArea)) (addr size : Z)
  : pan (list (VAddr * VirtualMemoryArea)) :=
  carve_each addr (addr +64 size) (overlapping m addr size) m.

(** ** Operations that call the kernel *)

Section with_os.
Context {OS : Type} `{HostOS OS} `{Bitflags}.

Definition new : st OS mem_error MemoryManager :=
  address_space ← AddressSpace.new;
  let total_direct_size := 5632 * 1024 * 1024 in
  let total_flexible_size := 448 * 1024 * 1024 in
  let physical := Physical.new total_direct_size in
  let user_base := AddressSpace.user_base address_space in
  let user_size := AddressSpace.user_size address_space in
  mret {| address_space := address_space;
          physical := physical;
          vma_map := bt_insert [] user_base (free_vma user_base user_size);
          total_direct_size := total_direct_size;
          total_flexible_size := total_flexible_size;
          flexible_usage := 0 |}.

Definition map_memory (virtual_addr : VAddr) (size prot flags : Z)
    (vma_type : VMAType) (name : string)
  : st (OS * MemoryManager) mem_error VAddr :=
  let aligned_size := align_up size PAGE_SIZE in
  '(_, self) ← st_get;
  addr ←
    (if (virtual_addr =? 0) || negb (flags_contains flags MemoryMapFlags.FIXED)
     then st_lift (find_free_region self aligned_size PAGE_SIZE)
     else mret virtual_addr);
  let executable := flags_contains prot MemoryProt.CPU_EXEC in
  _ ← on_fst (AddressSpace.map addr aligned_size 0 executable);
  m ← st_lift (no_err (carve_vma (vma_map self) addr aligned_size));
  let m := bt_insert m addr
    {| vma_base := addr; vma_size := aligned_size; vma_type := vma_type;
       vma_prot := prot; vma_name := name;
       disallow_merge := flags_contains flags MemoryMapFlags.NO_COALESCE |} in
  '(os, _) ← st_get;
  _ ← st_put (os, set_vma_map self m);
  mret addr.

Definition unmap_memory (virtual_addr : VAddr) (size : Z)
  : st (OS * MemoryManager) mem_error unit :=
  let aligned_size := align_up size PAGE_SIZE in
  _ ← on_fst (AddressSpace.unmap virtual_addr aligned_size);
  '(os, self) ← st_get;
  m ← st_lift (no_err (carve_vma (vma_map self) virtual_addr aligned_size));
  st_put (os, set_vma_map self
                (bt_insert m virtual_addr (free_vma virtual_addr aligned_size))).

Definition protect_memory (addr : VAddr) (size prot : Z)
  : st (OS * MemoryManager) mem_error unit :=
  let read := flags_contains prot MemoryProt.CPU_READ in
  let write := flags_contains prot MemoryProt.CPU_WRITE in
  let exec := flags_contains prot MemoryProt.CPU_EXEC in
  on_fst (AddressSpace.protect addr size read write exec).

End with_os.

(** ** The abstract view *)

Definition vma_label : Type := VMAType * Z * string * bool.
Definition label (v : VirtualMemoryArea) : vma_label :=
  (vma_type v, vma_prot v, vma_name v, disallow_merge v).

Definition view_map (m : list (VAddr * VirtualMemoryArea)) (a : VAddr)
  : option vma_label := label <$> at_addr m a.
Definition view (self : MemoryManager) : VAddr → option vma_label :=
  view_map (vma_map self).

(** The label of unmapped addresses the manager may hand out. *)
Definition free_label : vma_label := (Free, MemoryProt.NONE, "", false).

(** The address space the manager may describe: all sums below stay under
    [2^64]. *)
Definition VA_LIMIT : Z := 2 ^ 62.

Definition wf_map (m : list (VAddr * VirtualMemoryArea)) : Prop := spaced 0 VA_LIMIT m.
Definition wf (self : MemoryManager) : Prop := wf_map (vma_map self).

#[export] Instance wf_dec self : Decision (wf self).
Proof. unfold wf, wf_map. apply _. Defined.

(** ** Lemmas: carving *)

Lemma iend_small m k v : wf_map m → (k, v) ∈ m →
  vma_base v +64 vma_size v = iend v ∧ 0 ≤ vma_base v ∧ 0 < vma_size v ∧
  iend v ≤ VA_LIMIT ∧ k = vma_base v.
Proof.
  intros Hs Hin. apply (spaced_bounds _ _ _ _ _ Hs) in Hin as (-> & ? & ? & ?).
  unfold iend, VA_LIMIT in *. simpl in *. unwrap64. done.
Qed.

(** The range carved out of the map. *)
Definition carve_ok (addr size : Z) : Prop :=
  0 ≤ addr ∧ 0 < size ∧ addr + size ≤ VA_LIMIT.

Lemma overlaps_spec m k v addr size : wf_map m → (k, v) ∈ m → carve_ok addr size →
  overlaps v addr size = true ↔ addr < iend v ∧ vma_base v < addr + size.
Proof.
  intros Hs Hin (? & ? & ?). destruct (iend_small _ _ _ Hs Hin) as (E & _).
  unfold overlaps. rewrite E. unfold VA_LIMIT in *. unwrap64.
  rewrite andb_true_iff, !Z.ltb_lt. done.
Qed.

(** The two remainders of an area, as [carve_one] inserts them. *)
Definition carve_rest (m : list (VAddr * VirtualMemoryArea))
    (v : VirtualMemoryArea) (addr end_ : Z) :=
  let m := bt_remove m (vma_base v) in
  let m :=
    if vma_base v <? addr
    then bt_insert m (vma_base v) (with_range (vma_base v) (addr - vma_base v) v)
    else m in
  if end_ <? iend v
  then bt_insert m end_ (with_range end_ (iend v - end_) v)
  else m.

Lemma carve_one_rest m base v addr size : wf_map m → bt_get m base = Some v →
  carve_ok addr size → carve_one addr (addr + size) m base =
  Ok (carve_rest m v addr (addr + size)).
Proof.
  intros Hs Hg (? & ? & ?).
  destruct (iend_small _ _ _ Hs (bt_get_elem _ _ _ Hg)) as (E & ? & ? & ? & ->).
  unfold carve_one, carve_rest. rewrite Hg. simpl. rewrite E.
  unfold VA_LIMIT in *.
  destruct (Z.ltb_spec (vma_base v) addr), (Z.ltb_spec (addr + size) (iend v));
    by unwrap64.
Qed.

Lemma carve_rest_spec m v addr end_ : wf_map m → bt_get m (vma_base v) = Some v →
  0 ≤ addr < end_ → addr < iend v → vma_base v < end_ →
  wf_map (carve_rest m v addr end_) ∧
  ∀ a, at_addr (carve_rest m v addr end_) a =
    if in_range end_ (iend v) a then Some (with_range end_ (iend v - end_) v)
    else if in_range (vma_base v) addr a
    then Some (with_range (vma_base v) (addr - vma_base v) v)
    else if covers v a then None else at_addr m a.
Proof.
  intros Hs Hg Ha Ho1 Ho2.
  destruct (iend_small _ _ _ Hs (bt_get_elem _ _ _ Hg)) as (_ & ? & ? & ? & _).
  pose proof (spaced_remove _ _ _ (vma_base v) Hs) as Hm1.
  pose proof (λ a, at_addr_remove _ _ _ _ _ a Hs Hg) as E1.
  unfold carve_rest. set (m1 := bt_remove m (vma_base v)) in *.
  unfold covers, iend, wf_map in *. simpl in *.
  destruct (put_piece 0 VA_LIMIT m1
    (with_range (vma_base v) (addr - vma_base v) v) (vma_base v <? addr))
    as [Hm2 E2]; unfold covers, iend in *; simpl in *; try done; try lia.
  { intros a Hr. rewrite E1. case_range; [done|lia]. }
  set (m2 := if vma_base v <? addr then _ else m1) in *.
  destruct (put_piece 0 VA_LIMIT m2
    (with_range end_ (vma_base v + vma_size v - end_) v)
    (end_ <? vma_base v + vma_size v)) as [Hm3 E3];
    unfold covers, iend in *; simpl in *; try done; try lia.
  { intros a Hr. rewrite E2, E1. repeat case_range; try done; lia. }
  split; [done|]. intros a. rewrite E3, E2, E1.
  repeat case_range; try done; lia.
Qed.

(** Carving one area: its bytes inside the range disappear, nothing else
    changes, and the other entries below the end keep their keys. *)
Lemma carve_one_spec m base v addr size : wf_map m → bt_get m base = Some v →
  carve_ok addr size → overlaps v addr size = true →
  ∃ m', carve_one addr (addr + size) m base = Ok m' ∧ wf_map m' ∧
    (∀ a, view_map m' a =
      if covers v a && in_range addr (addr + size) a then None else view_map m a) ∧
    ∀ b, b ≠ base → b < addr + size → bt_get m' b = bt_get m b.
Proof.
  intros Hs Hg Hc Ho. pose proof (bt_get_elem _ _ _ Hg) as Hin.
  apply (overlaps_spec m base) in Ho as [Ho1 Ho2]; [|done..].
  pose proof (bt_get_base _ _ _ _ _ Hs Hg) as (-> & _).
  rewrite (carve_one_rest _ _ v) by done.
  destruct (carve_rest_spec m v addr (addr + size)) as [Hm' Em']; try done.
  { unfold carve_ok in Hc. lia. }
  eexists. split_and!; [done|done| |].
  - intros a. unfold view_map. rewrite Em'. unfold covers, iend in *. simpl in *.
    destruct (decide (vma_base v ≤ a < vma_base v + vma_size v)).
    + erewrite (at_addr_unique _ _ m) by eauto. repeat case_range; try done; lia.
    + repeat case_range; try done; lia.
  - intros b Hb Hlt. unfold carve_rest. simpl in Hb.
    destruct (addr + size <? iend v), (vma_base v <? addr);
      rewrite ?bt_get_insert;
      repeat match goal with |- context [?x =? ?y] => destruct (Z.eqb_spec x y); [lia|] end;
      by apply bt_get_remove_ne.
Qed.

(** Carving a list of overlapping areas. *)
Lemma carve_each_spec m bases addr size : wf_map m → carve_ok addr size →
  NoDup bases →
  (∀ b, b ∈ bases → b < addr + size ∧
     ∃ v, bt_get m b = Some v ∧ overlaps v addr size = true) →
  ∃ m', carve_each addr (addr + size) bases m = Ok m' ∧ wf_map m' ∧
    ∀ a, view_map m' a =
      if in_range addr (addr + size) a &&
         existsb (λ b, match bt_get m b with Some v => covers v a | None => false end) bases
      then None else view_map m a.
Proof.
  intros Hs Hc. revert m Hs. induction bases as [|b bases IH]; intros m Hs Hnd Hb.
  { exists m. split_and!; [done|done|]. intros a. by rewrite andb_false_r. }
  apply NoDup_cons in Hnd as [Hnb Hnd].
  destruct (Hb b) as (Hlt & v & Hg & Ho); [set_solver|].
  destruct (carve_one_spec m b v addr size) as (m1 & E1 & Hs1 & V1 & G1); try done.
  assert (Hkeep : ∀ b', b' ∈ bases → bt_get m1 b' = bt_get m b').
  { intros b' Hin. apply G1; [by intros ->|]. destruct (Hb b'); [set_solver|done]. }
  destruct (IH m1 Hs1 Hnd) as (m' & E & Hs' & V').
  { intros b' Hin. rewrite Hkeep by done. apply Hb. set_solver. }
  exists m'. simpl. rewrite E1. split_and!; [done|done|].
  intros a. rewrite V', V1, Hg.
  replace (existsb _ bases) with (existsb (λ b0,
    match bt_get m b0 with Some v0 => covers v0 a | None => false end) bases).
  2: { clear -Hkeep. induction bases as [|c cs IHc]; [done|]. simpl.
       rewrite Hkeep by set_solver. f_equal. apply IHc. set_solver. }
  destruct (in_range _ _ a), (covers v a), (existsb _ _); done.
Qed.

Lemma carve_vma_spec m addr size : wf_map m → carve_ok addr size →
  ∃ m', carve_vma m addr size = Ok m' ∧ wf_map m' ∧
    ∀ a, view_map m' a = if in_range addr (addr + size) a then None else view_map m a.
Proof.
  intros Hs Hc. pose proof Hc as (? & ? & ?). unfold carve_vma, overlapping, VA_LIMIT in *.
  unwrap64.
  destruct (carve_each_spec m
    (filter (λ kv, overlaps kv.2 addr size = true)
       (bt_range_to m (addr + size))).*1 addr size) as (m' & -> & Hs' & V); try done.
  { eapply sublist_NoDup; [by eapply spaced_NoDup|].
    apply fmap_sublist. etrans; apply sublist_filter. }
  { intros b ([k v] & -> & [Ho [Hlt Hin]%list_elem_of_filter]%list_elem_of_filter)
      %list_elem_of_fmap.
    simpl in *. split; [done|]. exists v. split; [|done]. by eapply elem_bt_get. }
  exists m'. split_and!; [done|done|]. intros a. rewrite V.
  case_range; simpl; [|done].
  destruct (existsb _ _) eqn:Ex; [done|]. unfold view_map.
  destruct (at_addr m a) as [v|] eqn:Ea; [exfalso|done].
  apply at_addr_elem in Ea as [[k Hk] Hr].
  apply Bool.not_true_iff_false in Ex. apply Ex. apply existsb_exists.
  destruct (iend_small _ _ _ Hs Hk) as (_ & _ & _ & _ & ->).
  exists (vma_base v). simpl in Hr. split.
  - apply list_elem_of_In, list_elem_of_fmap. exists (vma_base v, v). split; [done|].
    apply list_elem_of_filter. split.
    { apply (overlaps_spec m (vma_base v)); [done..|]. simpl in *. lia. }
    apply list_elem_of_filter. split; [simpl; lia|done].
  - rewrite (elem_bt_get _ _ _ _ _ Hs Hk). unfold covers. apply in_range_spec. done.
Qed.

(** An area beside the range stays as it is. *)
Definition beside (v : VirtualMemoryArea) (addr size : Z) : Prop :=
  vma_base v + vma_size v ≤ addr ∨ addr + size ≤ vma_base v.

Lemma carve_each_keeps m bases addr size m' a w : wf_map m → carve_ok addr size →
  NoDup bases →
  (∀ b, b ∈ bases → b < addr + size ∧
     ∃ v, bt_get m b = Some v ∧ overlaps v addr size = true) →
  carve_each addr (addr + size) bases m = Ok m' →
  at_addr m a = Some w → beside w addr size → at_addr m' a = Some w.
Proof.
  intros Hs Hc. revert m Hs. induction bases as [|b bases IH]; intros m Hs Hnd Hb E Ha Hw.
  { by injection E as <-. }
  apply NoDup_cons in Hnd as [Hnb Hnd].
  destruct (Hb b) as (Hlt & v & Hg & Ho); [set_solver|].
  destruct (carve_one_spec m b v addr size) as (m1 & E1 & Hs1 & _ & G1); try done.
  simpl in E. rewrite E1 in E. apply (IH m1); try done.
  { intros b' Hin. rewrite G1; [apply Hb; set_solver|by intros ->|]. destruct (Hb b'); [set_solver|done]. }
  rewrite (carve_one_rest _ _ v) in E1 by done. injection E1 as <-.
  pose proof (bt_get_elem _ _ _ Hg) as Hin.
  apply (overlaps_spec m b) in Ho as [Ho1 Ho2]; [|done..].
  pose proof (bt_get_base _ _ _ _ _ Hs Hg) as (-> & _).
  destruct (carve_rest_spec m v addr (addr + size)) as [_ ->]; try done.
  { unfold carve_ok in Hc. lia. }
  apply at_addr_elem in Ha as Hr. destruct Hr as [_ Hr].
  assert (¬ vma_base v ≤ a < vma_base v + vma_size v) as Hn.
  { intros Hv. assert (Ev : at_addr m a = Some v) by by eapply at_addr_unique.
    rewrite Ev in Ha. injection Ha as <-. unfold beside, iend in *. cbn in *. lia. }
  unfold covers, iend in *. cbn in *. repeat case_range; done || lia.
Qed.

Lemma carve_vma_keeps m addr size m' a w : wf_map m → carve_ok addr size →
  carve_vma m addr size = Ok m' → at_addr m a = Some w → beside w addr size →
  at_addr m' a = Some w.
Proof.
  intros Hs Hc. pose proof Hc as (? & ? & ?). unfold carve_vma, overlapping, VA_LIMIT in *.
  unwrap64. apply carve_each_keeps; try done.
  - eapply sublist_NoDup; [by eapply spaced_NoDup|].
    apply fmap_sublist. etrans; apply sublist_filter.
  - intros b ([k v] & -> & [Ho [Hlt Hin]%list_elem_of_filter]%list_elem_of_filter)
      %list_elem_of_fmap.
    simpl in *. split; [done|]. exists v. split; [|done]. by eapply elem_bt_get.
Qed.

(** ** Lemmas: searching *)

(** The area at an address, and the areas a step leaves alone: all that are
    mapped. *)
Definition entry_at (self : MemoryManager) (a : VAddr) : option VirtualMemoryArea :=
  at_addr (vma_map self) a.
Definition keeps (self self' : MemoryManager) : Prop :=
  ∀ a v, entry_at self a = Some v → vma_type v ≠ Free → entry_at self' a = Some v.

#[export] Instance keeps_preorder : PreOrder keeps.
Proof. split; [by intros ???|]. intros ??? H1 H2 a v Ha Hv. apply H2; [|done]. by apply H1. Qed.

Definition type_at (self : MemoryManager) (a : VAddr) : option VMAType :=
  vma_type <$> at_addr (vma_map self) a.

Lemma type_at_view self a l : view self a = Some l → type_at self a = Some l.1.1.1.
Proof.
  unfold view, view_map, type_at. destruct (at_addr _ a); [|done]. by intros [= <-].
Qed.

Lemma type_at_view_None self a : view self a = None → type_at self a = None.
Proof. unfold view, view_map, type_at. by destruct (at_addr _ a). Qed.

Lemma wf_values self v : wf self → v ∈ bt_values (vma_map self) →
  (vma_base v, v) ∈ vma_map self.
Proof.
  intros Hs ([k w] & -> & Hin)%list_elem_of_fmap.
  by destruct (iend_small _ _ _ Hs Hin) as (_ & _ & _ & _ & ->).
Qed.

(** The entries and the view describe the same areas. *)
Lemma values_view self v x : wf self → v ∈ bt_values (vma_map self) →
  vma_base v ≤ x < vma_base v + vma_size v → view self x = Some (label v).
Proof.
  intros Hwf Hv%wf_values Hx; [|done]. unfold view, view_map.
  by erewrite at_addr_unique.
Qed.

Lemma view_values self x l : wf self → view self x = Some l →
  ∃ v, v ∈ bt_values (vma_map self) ∧ label v = l.
Proof.
  intros Hwf Hl. unfold view, view_map in Hl. destruct (at_addr _ x) as [v|] eqn:E; [|done].
  apply at_addr_elem in E as [[k Hk] _]. injection Hl as <-. exists v. split; [|done].
  apply list_elem_of_fmap. by exists (k, v).
Qed.

Lemma values_bounds self v : wf self → v ∈ bt_values (vma_map self) →
  0 ≤ vma_base v ∧ 0 < vma_size v ∧ vma_base v + vma_size v ≤ VA_LIMIT.
Proof.
  intros Hwf Hv%wf_values; [|done]. by destruct (iend_small _ _ _ Hwf Hv) as (_ & ? & ? & ? & _).
Qed.

Lemma find_free_Some size al vs addr : find_free size al vs = Some addr →
  ∃ v, v ∈ vs ∧ vma_type v = Free ∧ addr = align_up (vma_base v) al ∧
    addr +64 size ≤ vma_base v +64 vma_size v.
Proof.
  induction vs as [|v vs IH]; simpl; [done|]. unfold is_free.
  destruct (bool_decide_reflect (vma_type v = Free)); simpl.
  - destruct (Z.leb_spec (align_up (vma_base v) al +64 size) (vma_base v +64 vma_size v)).
    + intros [= <-]. exists v. split_and!; [set_solver|done|done|done].
    + intros Hf. destruct (IH Hf) as (w & ? & ?). exists w. split; [set_solver|done].
  - intros Hf. destruct (IH Hf) as (w & ? & ?). exists w. split; [set_solver|done].
Qed.

Lemma find_free_None size al vs v : find_free size al vs = None → v ∈ vs →
  vma_type v = Free → vma_base v +64 vma_size v < align_up (vma_base v) al +64 size.
Proof.
  induction vs as [|w vs IH]; simpl; [set_solver|]. unfold is_free. intros Hf Hin Hv.
  apply elem_of_cons in Hin as [<-|Hin].
  - rewrite bool_decide_eq_true_2 in Hf by done. simpl in Hf.
    destruct (Z.leb_spec (align_up (vma_base v) al +64 size) (vma_base v +64 vma_size v));
      [done|lia].
  - apply IH; try done. destruct (bool_decide _); simpl in Hf; [|done].
    by destruct (_ <=? _).
Qed.

(** A region found by the search is page aligned and was entirely free. *)
Lemma find_free_region_Ok self size addr : wf self → 0 ≤ size < VA_LIMIT →
  find_free_region self size PAGE_SIZE = Ok addr →
  0 ≤ addr ∧ addr + size ≤ VA_LIMIT ∧ (PAGE_SIZE | addr) ∧
  ∀ a, addr ≤ a < addr + size → type_at self a = Some Free.
Proof.
  intros Hwf Hsz Hf. unfold find_free_region, ok_or in Hf.
  destruct (find_free _ _ _) as [b|] eqn:E; [|done]. injection Hf as ->.
  apply find_free_Some in E as (v & Hv & Hfree & -> & Hfit).
  apply (wf_values _ _ Hwf) in Hv.
  destruct (iend_small _ _ _ Hwf Hv) as (Ee & ? & ? & ? & _).
  unfold VA_LIMIT, iend in *. simpl in *.
  destruct (page_align_up_small (vma_base v)) as [? ?];
    [lia|unfold PAGE_SIZE; lia|]. unfold PAGE_SIZE in *.
  rewrite Ee in Hfit. unwrap64. split_and!; [lia|lia|done|].
  intros a Ha. unfold type_at. erewrite at_addr_unique;
    [|done|done|unfold iend; simpl; lia]. simpl. by f_equal.
Qed.

(** ** Lemmas: mapping *)

Section with_os.
Context {OS : Type} `{!HostOS OS, !HostOSLaws OS} `{!Bitflags, !BitflagsLaws}.

(** Arguments for which no address computation wraps. *)
Definition args_ok (virtual_addr size : Z) : Prop :=
  0 ≤ virtual_addr ∧ 0 ≤ size ∧ virtual_addr + size + PAGE_SIZE ≤ VA_LIMIT.

Lemma args_ok_aligned va size : args_ok va size →
  size ≤ align_up size PAGE_SIZE < size + PAGE_SIZE ∧
  (PAGE_SIZE | align_up size PAGE_SIZE).
Proof.
  unfold args_ok, VA_LIMIT, PAGE_SIZE. intros. apply page_align_up_small; [lia|].
  unfold PAGE_SIZE. lia.
Qed.

(** Carving and inserting: the common part of [map_memory] and
    [unmap_memory]. *)
Lemma carve_insert m v : wf_map m → carve_ok (vma_base v) (vma_size v) →
  ∃ m', carve_vma m (vma_base v) (vma_size v) = Ok m' ∧
    wf_map (bt_insert m' (vma_base v) v) ∧
    (∀ a, view_map (bt_insert m' (vma_base v) v) a =
      if covers v a then Some (label v) else view_map m a) ∧
    (∀ a, covers v a = true → at_addr (bt_insert m' (vma_base v) v) a = Some v) ∧
    ∀ a w, at_addr m a = Some w → beside w (vma_base v) (vma_size v) →
      at_addr (bt_insert m' (vma_base v) v) a = Some w.
Proof.
  intros Hs Hc. destruct (carve_vma_spec m (vma_base v) (vma_size v)) as (m' & E & Hs' & V);
    try done.
  pose proof (λ a w, carve_vma_keeps m (vma_base v) (vma_size v) m' a w Hs Hc E) as Hkeep.
  exists m'. split; [done|]. destruct Hc as (? & ? & ?).
  assert (Hfree : free_of m' (ibase v) (iend v)).
  { intros a Ha. unfold iend in Ha. simpl in Ha. specialize (V a).
    rewrite (proj2 (in_range_spec _ _ _)) in V by done.
    unfold view_map in V. by destruct (at_addr m' a). }
  assert (Hins : ∀ a, at_addr (bt_insert m' (vma_base v) v) a =
    if covers v a then Some v else at_addr m' a).
  { intros a. change (vma_base v) with (ibase v). by eapply at_addr_insert; [|simpl; lia|]. }
  split; [|split; [|split]].
  - unfold wf_map. change (vma_base v) with (ibase v).
    apply spaced_insert; unfold iend; simpl; done || lia.
  - intros a. unfold view_map. rewrite Hins.
    destruct (covers v a) eqn:Ecv; [done|].
    specialize (V a). unfold covers, iend in Ecv. simpl in Ecv. by rewrite Ecv in V.
  - intros a Ha. by rewrite Hins, Ha.
  - intros a w Ha Hw. rewrite Hins. apply at_addr_elem in Ha as Hr. destruct Hr as [_ Hr].
    unfold covers, beside, iend in *. cbn in *. case_range; [lia|]. by apply Hkeep.
Qed.

(** Where [map_memory] decides to put the mapping. *)
Definition fixed_request (virtual_addr flags : Z) : bool :=
  negb ((virtual_addr =? 0) || negb (flags_contains flags MemoryMapFlags.FIXED)).

Definition new_vma (addr size prot flags : Z) (ty : VMAType) (name : string) :=
  {| vma_base := addr; vma_size := size; vma_type := ty; vma_prot := prot;
     vma_name := name;
     disallow_merge := flags_contains flags MemoryMapFlags.NO_COALESCE |}.

(** The two ways [map_memory] can end. *)
Lemma map_memory_cases va size prot flags ty name os self :
  wf self → args_ok va size →
  let n := align_up size PAGE_SIZE in
  (∃ os' e, map_memory va size prot flags ty name (os, self) = ((os', self), Err e)) ∨
  ∃ os' addr m, map_memory va size prot flags ty name (os, self) =
      ((os', set_vma_map self m), Ok addr) ∧
    wf_map m ∧ carve_ok addr n ∧
    (if fixed_request va flags then addr = va
     else find_free_region self n PAGE_SIZE = Ok addr) ∧
    (∀ a, view_map m a =
      if in_range addr (addr + n) a then Some (label (new_vma addr n prot flags ty name))
      else view self a) ∧
    (∀ a, addr ≤ a < addr + n → at_addr m a = Some (new_vma addr n prot flags ty name)) ∧
    ∀ a w, entry_at self a = Some w → beside w addr n → at_addr m a = Some w.
Proof.
  intros Hwf Hargs n. destruct (args_ok_aligned va size Hargs) as [Hn Hd].
  fold n in Hn, Hd. clear Hd.
  assert (0 ≤ va ∧ 0 ≤ size ∧ va + n ≤ VA_LIMIT ∧ 0 ≤ n < VA_LIMIT) as Hb
    by (unfold args_ok, VA_LIMIT in *; unfold PAGE_SIZE in Hn, Hargs; lia).
  unfold map_memory. fold n. unfold fixed_request.
  assert (Hcase : ∀ addr, 0 ≤ addr → addr + n ≤ VA_LIMIT →
    (∃ os' e, AddressSpace.map addr n 0 (flags_contains prot MemoryProt.CPU_EXEC) os
       = (os', Err e)) ∨
    ∃ os' r m, AddressSpace.map addr n 0 (flags_contains prot MemoryProt.CPU_EXEC) os
        = (os', Ok r) ∧ carve_ok addr n ∧ carve_vma (vma_map self) addr n = Ok m ∧
      let v := new_vma addr n prot flags ty name in
      wf_map (bt_insert m addr v) ∧
      (∀ a, view_map (bt_insert m addr v) a = if in_range addr (addr + n) a
        then Some (label v) else view self a) ∧
      (∀ a, addr ≤ a < addr + n → at_addr (bt_insert m addr v) a = Some v) ∧
      ∀ a w, entry_at self a = Some w → beside w addr n →
        at_addr (bt_insert m addr v) a = Some w).
  { intros addr Ha He.
    destruct (AddressSpace.map addr n 0 _ os) as [os' [r|e|]] eqn:Em.
    - right. apply AddressSpace.map_Ok in Em as Hm. destruct Hm as [_ Hz].
      assert (carve_ok addr n) as Hc by (unfold carve_ok; lia).
      destruct (carve_insert (vma_map self) (new_vma addr n prot flags ty name) Hwf Hc)
        as (m & ? & ? & ? & Hin & Hk).
      exists os', r, m. split; [done|]. split; [done|]. split; [done|]. cbn zeta.
      split; [done|]. split; [done|]. split; [|exact Hk].
      intros a Hr. apply Hin. by apply in_range_spec.
    - left. by eexists _, _.
    - unfold AddressSpace.map in Em. by destruct (os_mmap _ _ _ _ _) as [? []]. }
  unfold mbind, st_bind, st_get, st_put, st_lift, on_fst. simpl. fold n.
  destruct ((va =? 0) || negb (flags_contains flags MemoryMapFlags.FIXED)); simpl.
  - destruct (find_free_region self n PAGE_SIZE) as [addr|e|] eqn:Ef; [|left; by eexists _, _|].
    + destruct (find_free_region_Ok self n addr) as (? & ? & ? & ?); [done|lia|done|].
      destruct (Hcase addr) as [(os' & e & ->)|(os' & r & m & -> & Hc & -> & ? & ? & ? & ?)];
        [done|done|left; by eexists _, _|].
      right. by eexists _, addr, _.
    + unfold find_free_region, ok_or in Ef. by destruct (find_free _ _ _).
  - destruct (Hcase va) as [(os' & e & ->)|(os' & r & m & -> & Hc & -> & ? & ? & ? & ?)];
      [lia|lia|left; by eexists _, _|].
    right. by eexists _, va, _.
Qed.

(** A mapped area is beside whatever is free. *)
Lemma beside_free self a w addr n : wf self → entry_at self a = Some w → vma_type w ≠ Free →
  0 < n → (∀ x, addr ≤ x < addr + n → type_at self x = Some Free) → beside w addr n.
Proof.
  intros Hwf Ha Hw Hn Hfree. apply at_addr_elem in Ha as [[k Hk] Hr].
  assert (∀ x, vma_base w ≤ x < vma_base w + vma_size w → ¬ addr ≤ x < addr + n) as Hno.
  { intros x Hx Hx'. specialize (Hfree x Hx'). unfold type_at in Hfree.
    erewrite at_addr_unique in Hfree by done. by injection Hfree. }
  unfold beside, iend in *. cbn in *. pose proof (Hno (vma_base w)). pose proof (Hno addr). lia.
Qed.

(** A mapping wherever there is room. *)
Lemma map_anywhere size prot flags ty name os self :
  wf self → 0 ≤ size → size + PAGE_SIZE ≤ VA_LIMIT →
  let n := align_up size PAGE_SIZE in
  (∃ os' e, map_memory 0 size prot flags ty name (os, self) = ((os', self), Err e)) ∨
  ∃ os' addr self', map_memory 0 size prot flags ty name (os, self) = ((os', self'), Ok addr) ∧
    wf self' ∧ carve_ok addr n ∧ (PAGE_SIZE | addr) ∧
    (∀ a, addr ≤ a < addr + n → type_at self a = Some Free) ∧
    (∀ a, view self' a = if in_range addr (addr + n) a
      then Some (ty, prot, name, flags_contains flags MemoryMapFlags.NO_COALESCE)
      else view self a) ∧
    (∀ a, addr ≤ a < addr + n → entry_at self' a = Some (new_vma addr n prot flags ty name)) ∧
    keeps self self'.
Proof.
  intros Hwf Hs Hl n. assert (args_ok 0 size) as Hargs by (unfold args_ok; lia).
  pose proof (args_ok_aligned 0 size Hargs) as [Hn _].
  destruct (map_memory_cases 0 size prot flags ty name os self Hwf Hargs)
    as [(os' & e & ->)|(os' & addr & m & -> & Hm & Hc & Hplace & Hv & Hin & Hk)]; [left; eauto|right].
  exists os', addr, (set_vma_map self m). cbn in Hplace.
  apply find_free_region_Ok in Hplace as (_ & _ & ? & Hfree); [|done|].
  2: { unfold VA_LIMIT, PAGE_SIZE in *. lia. }
  split; [done|]. split; [done|]. destruct Hc as (? & ? & ?). split; [done|]. split; [done|].
  split; [done|]. split; [exact Hv|]. split; [exact Hin|].
  intros a w Ha Hw. apply Hk; [done|]. by apply (beside_free self a).
Qed.

Lemma unmap_memory_cases va size os self : wf self → args_ok va size →
  let n := align_up size PAGE_SIZE in
  (∃ os' e, unmap_memory va size (os, self) = ((os', self), Err e)) ∨
  ∃ os' m, unmap_memory va size (os, self) = ((os', set_vma_map self m), Ok tt) ∧
    wf_map m ∧ ∀ a, view_map m a =
      if in_range va (va + n) a then Some free_label else view self a.
Proof.
  intros Hwf Hargs n. destruct (args_ok_aligned va size Hargs) as [Hn Hd].
  fold n in Hn, Hd. clear Hd.
  assert (0 ≤ va ∧ 0 ≤ size ∧ va + n ≤ VA_LIMIT ∧ 0 ≤ n < VA_LIMIT) as Hb
    by (unfold args_ok, VA_LIMIT in *; unfold PAGE_SIZE in Hn, Hargs; lia).
  unfold unmap_memory. fold n.
  unfold mbind, st_bind, st_get, st_put, st_lift, on_fst. simpl. fold n.
  destruct (AddressSpace.unmap va n os) as [os' [[]|e|]] eqn:Em.
  - right. apply AddressSpace.unmap_Ok in Em as Hz.
    destruct (carve_insert (vma_map self) (free_vma va n)) as (m & Ec & ? & ? & _);
      [done|unfold carve_ok; simpl; lia|].
    simpl in Ec. rewrite Ec. simpl. by eexists _, _.
  - left. by eexists _, _.
  - unfold AddressSpace.unmap in Em. by destruct (os_munmap _ _ _) as [? []].
Qed.

(** ** Properties *)

(** C38: [map_memory] refines the abstract mapping operation.  It never panics;
    on an error the manager is untouched; on success the map stays well formed
    and exactly the bytes of the page-rounded range take the requested type,
    protection, name and merge flag.  Unless the caller forces the address, the
    range is page aligned and was entirely free. *)
Theorem map_memory_refines va size prot flags ty name (os : OS) self :
  wf self → args_ok va size →
  let n := align_up size PAGE_SIZE in
  ∃ os' self' r, map_memory va size prot flags ty name (os, self) = ((os', self'), r) ∧
    wf self' ∧ physical self' = physical self ∧
    match r with
    | Ok addr =>
        0 < n ∧
        (if fixed_request va flags then addr = va
         else (PAGE_SIZE | addr) ∧ ∀ a, addr ≤ a < addr + n → type_at self a = Some Free) ∧
        ∀ a, view self' a =
          if in_range addr (addr + n) a
          then Some (ty, prot, name, flags_contains flags MemoryMapFlags.NO_COALESCE)
          else view self a
    | Err _ => self' = self
    | Panic => False
    end.
Proof.
  intros Hwf Hargs n. pose proof (args_ok_aligned va size Hargs) as [Hn _].
  destruct (map_memory_cases va size prot flags ty name os self Hwf Hargs)
    as [(os' & e & ->)|(os' & addr & m & -> & Hm & (? & Hpos & ?) & Hplace & Hv & _)].
  - by eexists _, _, _.
  - eexists _, _, _. split; [done|]. split_and!; [done|done|done| |exact Hv].
    destruct (fixed_request va flags); [done|].
    apply find_free_region_Ok in Hplace as (_ & _ & ? & ?); [done|done|].
    unfold args_ok, VA_LIMIT, PAGE_SIZE in *. fold n in Hn. lia.
Qed.

(** [map_memory] is complete: if it reports that there is no free region,
    every free area is too small for the page-rounded request once its base is
    rounded up. *)
Theorem map_memory_no_region va size prot flags ty name (os os' : OS) self self' s :
  wf self → args_ok va size →
  map_memory va size prot flags ty name (os, self) = ((os', self'), Err (NoFreeRegion s)) →
  ∀ v, v ∈ get_vmas self → vma_type v = Free →
    vma_base v + vma_size v < align_up (vma_base v) PAGE_SIZE + align_up size PAGE_SIZE.
Proof.
  intros Hwf Hargs Hmap v Hv Hfree.
  pose proof (args_ok_aligned va size Hargs) as [Hn _].
  assert (find_free (align_up size PAGE_SIZE) PAGE_SIZE (get_vmas self) = None) as Hnone.
  { unfold map_memory, mbind, st_bind, st_get, st_put, st_lift, on_fst,
      find_free_region in Hmap. simpl in Hmap. unfold get_vmas.
    destruct (find_free _ _ _) as [addr|]; [exfalso|done].
    destruct (_ || _); simpl in Hmap;
    (destruct (AddressSpace.map _ _ _ _ os) as [o [r|e|]] eqn:Em;
      [ | unfold AddressSpace.map in Em; destruct (os_mmap _ _ _ _ _) as [? []]; congruence
        | done]);
    by destruct (no_err (carve_vma _ _ _)) as [|e|] eqn:Ec; simplify_eq;
      destruct (carve_vma _ _ _) as [|[]|]. }
  pose proof (find_free_None _ _ _ v Hnone Hv Hfree) as Hlt.
  apply (wf_values _ _ Hwf) in Hv. destruct (iend_small _ _ _ Hwf Hv) as (Ee & ? & ? & ? & _).
  destruct (page_align_up_small (vma_base v)) as [? _];
    unfold args_ok, VA_LIMIT, PAGE_SIZE, iend in *; simpl in *; [lia|lia|].
  rewrite Ee in Hlt. unwrap64. done.
Qed.

(** C39: [unmap_memory] refines the abstract unmapping: it never panics, an
    error leaves the manager untouched, and on success exactly the bytes of the
    page-rounded range become free, whatever they were used for. *)
Theorem unmap_memory_refines va size (os : OS) self :
  wf self → args_ok va size →
  ∃ os' self' r, unmap_memory va size (os, self) = ((os', self'), r) ∧ wf self' ∧
    match r with
    | Ok _ => ∀ a, view self' a =
        if in_range va (va + align_up size PAGE_SIZE) a then Some free_label
        else view self a
    | Err _ => self' = self
    | Panic => False
    end.
Proof.
  intros Hwf Hargs.
  destruct (unmap_memory_cases va size os self Hwf Hargs)
    as [(os' & e & ->)|(os' & m & -> & Hm & Hv)]; by eexists _, _, _.
Qed.

(** A region handed out by the search never overlaps a live mapping: after
    a mapping of a type other than [Free], a second request that does not force
    its address gets a disjoint range, and the first mapping is intact. *)
Theorem mappings_disjoint va1 n1 p1 f1 t1 s1 va2 n2 p2 f2 t2 s2
    (os os1 os2 : OS) self self1 self2 a1 a2 :
  wf self → args_ok va1 n1 → args_ok va2 n2 → t1 ≠ Free →
  fixed_request va2 f2 = false →
  map_memory va1 n1 p1 f1 t1 s1 (os, self) = ((os1, self1), Ok a1) →
  map_memory va2 n2 p2 f2 t2 s2 (os1, self1) = ((os2, self2), Ok a2) →
  ∀ a, a1 ≤ a < a1 + align_up n1 PAGE_SIZE →
    ¬ (a2 ≤ a < a2 + align_up n2 PAGE_SIZE) ∧ view self2 a = view self1 a.
Proof.
  intros Hwf Ha1 Ha2 Ht Hf E1 E2 a Hr.
  destruct (map_memory_cases va1 n1 p1 f1 t1 s1 os self Hwf Ha1)
    as [(? & ? & E)|(? & ? & m1 & E & Hm1 & _ & _ & V1 & _)]; rewrite E in E1; simplify_eq.
  destruct (map_memory_cases va2 n2 p2 f2 t2 s2 os1 (set_vma_map self m1) Hm1 Ha2)
    as [(? & ? & E')|(? & ? & m2 & E' & Hm2 & _ & Hp & V2 & _)]; rewrite E' in E2; simplify_eq.
  rewrite Hf in Hp. pose proof (args_ok_aligned va2 n2 Ha2) as [Hn2 _].
  apply find_free_region_Ok in Hp as (_ & _ & _ & Hfree); [|done|].
  2: { unfold args_ok, VA_LIMIT, PAGE_SIZE in *. lia. }
  assert (Hout : ¬ (a2 ≤ a < a2 + align_up n2 PAGE_SIZE)).
  { intros Hin. specialize (Hfree a Hin).
    specialize (V1 a). rewrite (proj2 (in_range_spec _ _ _) Hr) in V1.
    erewrite type_at_view in Hfree by exact V1. simpl in Hfree. congruence. }
  split; [done|]. unfold view at 1. simpl. rewrite V2.
  by rewrite (proj2 (in_range_false _ _ _) Hout).
Qed.

(** Mapping at an address of the manager's choice and unmapping the same
    range restores the abstract state, when free memory carries no label. *)
Theorem map_unmap_roundtrip size prot flags ty name (os os1 os2 : OS) self self1 self2 addr :
  wf self → args_ok 0 size → args_ok addr size →
  (∀ a, type_at self a = Some Free → view self a = Some free_label) →
  map_memory 0 size prot flags ty name (os, self) = ((os1, self1), Ok addr) →
  unmap_memory addr size (os1, self1) = ((os2, self2), Ok tt) →
  ∀ a, view self2 a = view self a.
Proof.
  intros Hwf Ha Ha' Hclean E1 E2 a.
  destruct (map_memory_cases 0 size prot flags ty name os self Hwf Ha)
    as [(? & ? & E)|(? & ? & m1 & E & Hm1 & _ & Hp & V1 & _)]; rewrite E in E1; simplify_eq.
  destruct (unmap_memory_cases addr size os1 (set_vma_map self m1) Hm1 Ha')
    as [(? & ? & E')|(? & m2 & E' & Hm2 & V2)]; rewrite E' in E2; simplify_eq.
  simpl in Hp. pose proof (args_ok_aligned 0 size Ha) as [Hn _].
  apply find_free_region_Ok in Hp as (_ & _ & _ & Hfree); [|done|].
  2: { unfold args_ok, VA_LIMIT, PAGE_SIZE in *. lia. }
  unfold view at 1. simpl. rewrite V2. unfold view at 1. simpl. rewrite V1.
  case_range; [|done]. symmetry. apply Hclean, Hfree. done.
Qed.

End with_os.

(** [is_valid_gpu_mapping] accepts exactly the ranges that end below
    [2^36], not the 40-bit space its documentation names; in particular it
    rejects every range above the hint [0x10_0000_0000] at which
    [AddressSpace] asks for the user region. *)
Theorem is_valid_gpu_mapping_bound va size :
  0 ≤ va → 0 ≤ size → va + size < 2 ^ 64 →
  (is_valid_gpu_mapping va size = true ↔ va + size < 2 ^ 36) ∧
  (2 ^ 36 ≤ va → is_valid_gpu_mapping va size = false).
Proof.
  intros. unfold is_valid_gpu_mapping, MAX_GPU_ADDRESS. unwrap64.
  split; [rewrite Z.ltb_lt; lia | rewrite Z.ltb_ge; lia].
Qed.

Lemma is_valid_gpu_mapping_bound_witness :
  is_valid_gpu_mapping 0x8000000000 0x4000 = false ∧ 0x8000000000 + 0x4000 < 2 ^ 40.
Proof.
  split; [|lia]. apply (is_valid_gpu_mapping_bound 0x8000000000 0x4000); lia.
Defined.

(** ** Witnesses *)

(** A manager over the concrete kernel: 128 KiB of free user space at 2^36,
    with a mapping of two pages in the middle. *)
Definition small_mm : MemoryManager :=
  {| address_space :=
       {| AddressSpace.backing_base := 0; AddressSpace.backing_size := 0;
          AddressSpace.system_managed_base := 0; AddressSpace.system_managed_size := 0;
          AddressSpace.system_reserved_base := 0; AddressSpace.system_reserved_size := 0;
          AddressSpace.user_base := 2 ^ 36; AddressSpace.user_size := 0x20000 |};
     physical := Physical.new (5632 * 1024 * 1024);
     vma_map :=
       [(2 ^ 36, free_vma (2 ^ 36) 0x8000);
        (2 ^ 36 + 0x8000,
         {| vma_base := 2 ^ 36 + 0x8000; vma_size := 0x8000; vma_type := Code;
            vma_prot := 7; vma_name := "eboot.bin"; disallow_merge := false |});
        (2 ^ 36 + 0x10000, free_vma (2 ^ 36 + 0x10000) 0x10000)];
     total_direct_size := 5632 * 1024 * 1024;
     total_flexible_size := 448 * 1024 * 1024;
     flexible_usage := 0 |}.

Lemma small_mm_wf : wf small_mm.
Proof. by apply (bool_decide_eq_true_1 _); vm_compute. Qed.

#[local] Existing Instances bitflags_impl bitflags_impl_laws ToyOS.toy_os ToyOS.toy_os_laws.

Lemma map_memory_refines_witness :
  ∃ os' self', map_memory (OS:=ToyOS.OS) 0 0xC000 3 0 Direct "direct" (ToyOS.boot, small_mm)
    = ((os', self'), Ok (2 ^ 36 + 0x10000)) ∧ wf self' ∧
    view self' (2 ^ 36 + 0x10000) = Some (Direct, 3, "direct", false).
Proof.
  destruct (map_memory_refines 0 0xC000 3 0 Direct "direct" ToyOS.boot small_mm small_mm_wf)
    as (os' & self' & r & E & Hwf & _ & _).
  { unfold args_ok, VA_LIMIT, PAGE_SIZE. lia. }
  exists os', self'. vm_compute in E. injection E as <- <- <-.
  split; [vm_compute; reflexivity|]. split; [exact Hwf|]. vm_compute. reflexivity.
Defined.

(** Five pages do not fit although six pages are free. *)
Lemma map_memory_no_region_witness :
  let v := free_vma (2 ^ 36 + 0x10000) 0x10000 in
  vma_base v + vma_size v < align_up (vma_base v) PAGE_SIZE + align_up 0x14000 PAGE_SIZE.
Proof.
  eapply (map_memory_no_region 0 0x14000 3 0 Direct "direct" ToyOS.boot);
    [exact small_mm_wf | unfold args_ok, VA_LIMIT, PAGE_SIZE; lia | vm_compute; reflexivity
    | unfold get_vmas; simpl; set_solver | reflexivity].
Defined.

Lemma unmap_memory_refines_witness :
  ∃ os' self', unmap_memory (OS:=ToyOS.OS) (2 ^ 36 + 0x4000) 0x8000 (ToyOS.boot, small_mm)
    = ((os', self'), Ok tt) ∧ wf self' ∧
    view self' (2 ^ 36 + 0x8000) = Some free_label ∧
    view self' (2 ^ 36 + 0xC000) = Some (Code, 7, "eboot.bin", false).
Proof.
  destruct (unmap_memory_refines (2 ^ 36 + 0x4000) 0x8000 ToyOS.boot small_mm small_mm_wf)
    as (os' & self' & r & E & Hwf & _).
  { unfold args_ok, VA_LIMIT, PAGE_SIZE. lia. }
  exists os', self'. vm_compute in E. injection E as <- <- <-.
  split; [vm_compute; reflexivity|]. split; [exact Hwf|]. split; vm_compute; reflexivity.
Defined.

(** The state a run ends in. *)
Definition mm_after {E A} (r : (ToyOS.OS * MemoryManager) * outcome E A) : MemoryManager :=
  r.1.2.

Lemma mappings_disjoint_witness :
  let r1 := map_memory (OS:=ToyOS.OS) 0 0x4000 3 0 Direct "a" (ToyOS.boot, small_mm) in
  let r2 := map_memory 0 0x4000 3 0 Stack "b" r1.1 in
  view (mm_after r2) (2 ^ 36) = view (mm_after r1) (2 ^ 36) ∧
  view (mm_after r2) (2 ^ 36) = Some (Direct, 3, "a", false).
Proof.
  split; [|vm_compute; reflexivity].
  refine (proj2 (mappings_disjoint 0 0x4000 3 0 Direct "a" 0 0x4000 3 0 Stack "b"
    ToyOS.boot _ _ small_mm _ _ (2 ^ 36) (2 ^ 36 + 0x4000) small_mm_wf _ _ _ _ _ _
    (2 ^ 36) _));
    first [ vm_compute; reflexivity | discriminate
          | unfold args_ok, VA_LIMIT, PAGE_SIZE; lia
          | split; vm_compute; [intros [=] | reflexivity] ].
Defined.

Lemma small_mm_clean a : type_at small_mm a = Some Free → view small_mm a = Some free_label.
Proof.
  unfold type_at, view, view_map, small_mm. simpl. unfold covers, iend. simpl.
  repeat case_range; simpl; try done; congruence.
Qed.

Lemma map_unmap_roundtrip_witness :
  let r1 := map_memory (OS:=ToyOS.OS) 0 0x4000 3 0 Direct "a" (ToyOS.boot, small_mm) in
  let r2 := unmap_memory (2 ^ 36) 0x4000 r1.1 in
  view (mm_after r2) (2 ^ 36) = view small_mm (2 ^ 36).
Proof.
  refine (map_unmap_roundtrip 0x4000 3 0 Direct "a" ToyOS.boot _ _ small_mm _ _ (2 ^ 36)
    small_mm_wf _ _ small_mm_clean _ _ (2 ^ 36));
    first [ vm_compute; reflexivity | unfold args_ok, VA_LIMIT, PAGE_SIZE; lia ].
Defined.

(** Freed areas are never coalesced.  With one free area of four pages,
    mapping and unmapping one page leaves every byte free, but a later request
    for the four pages is refused. *)
Theorem unmap_fragments :
  let self := set_vma_map small_mm [(2 ^ 36, free_vma (2 ^ 36) 0x10000)] in
  let r1 := map_memory (OS:=ToyOS.OS) 0 0x4000 3 0 Direct "a" (ToyOS.boot, self) in
  let r2 := unmap_memory (2 ^ 36) 0x4000 r1.1 in
  (map_memory (OS:=ToyOS.OS) 0 0x10000 3 0 Direct "b" (ToyOS.boot, self)).2 = Ok (2 ^ 36) ∧
  r1.2 = Ok (2 ^ 36) ∧ r2.2 = Ok tt ∧
  map vma_type (get_vmas (mm_after r2)) = [Free; Free] ∧
  (map_memory 0 0x10000 3 0 Direct "b" r2.1).2 = Err (NoFreeRegion 0x10000).
Proof. split_and!; vm_compute; reflexivity. Qed.


End Virtual.
