(* ===== verification/KernelErrors.v ===== *)
(** * Kernel error codes (kernel/mod.rs)

    [OrbisError] and [PosixError] are newtypes around [i32]; a constant of
    either is its [i32] value. *)

From S2P Require Import Prelude.

(** The bit pattern of an [i32]. *)
Definition as_u32 (z : Z) : Z := wrap 32 z.

Module OrbisError.

Definition OK : Z := 0.
Definition EPERM : Z := -0x7FFE0001.
Definition ENOENT : Z := -0x7FFE0002.
Definition ESRCH : Z := -0x7FFE0003.
Definition EINTR : Z := -0x7FFE0004.
Definition EBADF : Z := -0x7FFE0009.
Definition EDEADLK : Z := -0x7FFE000B.
Definition ENOMEM : Z := -0x7FFE000C.
Definition EACCES : Z := -0x7FFE000D.
Definition EBUSY : Z := -0x7FFE0010.
Definition EINVAL : Z := -0x7FFE0016.
Definition ETIMEDOUT : Z := -0x7FFE003C.
Definition ENOSYS : Z := -0x7FFE004E.

End OrbisError.

Module PosixError.

Definition OK : Z := 0.
Definition EPERM : Z := 1.
Definition ENOENT : Z := 2.
Definition ESRCH : Z := 3.
Definition EINTR : Z := 4.
Definition EBADF : Z := 9.
Definition ENOMEM : Z := 12.
Definition EACCES : Z := 13.
Definition EBUSY : Z := 16.
Definition EINVAL : Z := 22.
Definition ETIMEDOUT : Z := 60.
Definition ENOSYS : Z := 78.

End PosixError.

(** The errors both families name, as pairs, and the Orbis-only one. *)
Definition common_errors : list (Z * Z) :=
  [(OrbisError.EPERM, PosixError.EPERM); (OrbisError.ENOENT, PosixError.ENOENT);
   (OrbisError.ESRCH, PosixError.ESRCH); (OrbisError.EINTR, PosixError.EINTR);
   (OrbisError.EBADF, PosixError.EBADF); (OrbisError.ENOMEM, PosixError.ENOMEM);
   (OrbisError.EACCES, PosixError.EACCES); (OrbisError.EBUSY, PosixError.EBUSY);
   (OrbisError.EINVAL, PosixError.EINVAL);
   (OrbisError.ETIMEDOUT, PosixError.ETIMEDOUT);
   (OrbisError.ENOSYS, PosixError.ENOSYS)].

Definition orbis_errors : list Z := OrbisError.EDEADLK :: common_errors.*1.

(** The error constants are pairwise distinct negative [i32] values, so a
    caller can tell them apart and from [OK]; but the bit pattern of the
    constant for errno [n] is [0x80020000 - n], not the [0x80020000 + n] the
    comment next to each constant documents. *)
Theorem orbis_error_encoding :
  NoDup (OrbisError.OK :: orbis_errors) ∧
  Forall (λ e, - 2 ^ 31 ≤ e < 0) orbis_errors ∧
  Forall (λ '(e, n), as_u32 e = 0x80020000 - n ∧ as_u32 e ≠ 0x80020000 + n)
    ((OrbisError.EDEADLK, 11) :: common_errors).
Proof.
  split_and!.
  - by apply (bool_decide_eq_true_1 _); vm_compute.
  - by apply (bool_decide_eq_true_1 _); vm_compute.
  - repeat constructor; vm_compute; congruence.
Qed.
