(* ===== verification/MemorySyscalls.v ===== *)
(** * Memory system calls (kernel/memory_syscalls.rs)

    The handlers libkernel exports for direct and flexible memory.  An out
    parameter is passed in and returned; the return code is an [i32].  The
    state is the host kernel and the [MemoryManager].  The [tracing] calls have
    no effect on it. *)

From S2P Require Import Prelude CommonTypes BTreeMap PhysicalMemory AddressSpace.
From S2P Require Import VirtualMemory KernelErrors.

Open Scope rust_scope.

Module Syscalls.

Import Virtual.

Section with_os.
Context {OS : Type} `{HostOS OS} `{Bitflags}.

(** ** The handlers *)

Definition sce_kernel_allocate_direct_memory (search_start search_end : PAddr)
    (len alignment memory_type : Z) (phys_addr_out : PAddr)
  : st (OS * MemoryManager) Empty_set (Z * PAddr) :=
  if (len =? 0) || negb (is_aligned len PAGE_SIZE)
  then mret (OrbisError.EINVAL, phys_addr_out)
  else
    '(os, memory) ← st_get;
    '(memory, r) ← st_lift (allocate_direct_memory memory search_start search_end
                              len alignment memory_type);
    _ ← st_put (os, memory);
    match r with
    | Some addr => mret (OrbisError.OK, addr)
    | None => mret (OrbisError.ENOMEM, phys_addr_out)
    end.

Definition sce_kernel_map_direct_memory (addr : VAddr) (len prot flags : Z)
    (direct_memory_start : PAddr) (alignment : Z)
  : st (OS * MemoryManager) Empty_set (Z * VAddr) :=
  let mem_prot := from_bits_truncate MemoryProt.ALL prot in
  let mem_flags := from_bits_truncate MemoryMapFlags.ALL flags in
  st_match (map_memory addr len mem_prot mem_flags Direct "direct")
    (λ mapped_addr, mret (OrbisError.OK, mapped_addr))
    (λ _, mret (OrbisError.ENOMEM, addr)).

Definition sce_kernel_map_flexible_memory (addr : VAddr) (len prot flags : Z)
  : st (OS * MemoryManager) Empty_set (Z * VAddr) :=
  let mem_prot := from_bits_truncate MemoryProt.ALL prot in
  let mem_flags := from_bits_truncate MemoryMapFlags.ALL flags in
  st_match (map_memory addr len mem_prot mem_flags Flexible "flexible")
    (λ mapped_addr, mret (OrbisError.OK, mapped_addr))
    (λ _, mret (OrbisError.ENOMEM, addr)).

Definition sce_kernel_munmap (addr : VAddr) (len : Z)
  : st (OS * MemoryManager) Empty_set Z :=
  st_match (unmap_memory addr len)
    (λ _, mret OrbisError.OK)
    (λ _, mret OrbisError.EINVAL).

(** The three out parameters are the last components of the result. *)
Definition sce_kernel_query_memory_protection (addr : VAddr)
  : st (OS * MemoryManager) Empty_set (Z * (VAddr * VAddr * Z)) :=
  let start_out := align_down addr PAGE_SIZE in
  let end_out := start_out +64 PAGE_SIZE in
  let prot_out := Z.lor MemoryProt.CPU_READ MemoryProt.CPU_WRITE in
  mret (OrbisError.OK, (start_out, end_out, prot_out)).

(** ** Sequences of calls *)

Inductive syscall :=
| AllocateDirectMemory (search_start search_end len alignment memory_type out : Z)
| MapDirectMemory (addr len prot flags direct_memory_start alignment : Z)
| MapFlexibleMemory (addr len prot flags : Z)
| Munmap (addr len : Z)
| QueryMemoryProtection (addr : Z).

(** The return code of one call. *)
Definition run (c : syscall) : st (OS * MemoryManager) Empty_set Z :=
  match c with
  | AllocateDirectMemory ss se len al mt out =>
      fst <$> sce_kernel_allocate_direct_memory ss se len al mt out
  | MapDirectMemory addr len prot flags start al =>
      fst <$> sce_kernel_map_direct_memory addr len prot flags start al
  | MapFlexibleMemory addr len prot flags =>
      fst <$> sce_kernel_map_flexible_memory addr len prot flags
  | Munmap addr len => sce_kernel_munmap addr len
  | QueryMemoryProtection addr => fst <$> sce_kernel_query_memory_protection addr
  end.

Fixpoint run_all (cs : list syscall) : st (OS * MemoryManager) Empty_set (list Z) :=
  match cs with
  | [] => mret []
  | c :: cs' => rc ← run c; rcs ← run_all cs'; mret (rc :: rcs)
  end.

End with_os.

(** ** The invariant and admissible arguments *)

(** What every call keeps. *)
Definition mm_wf (self : MemoryManager) : Prop :=
  wf self ∧ Physical.wf (physical self).

(** Arguments for which no address sum of the code wraps; a length that is not
    a multiple of the page size, or zero, is admissible. *)
Definition call_ok (c : syscall) : Prop :=
  match c with
  | AllocateDirectMemory ss se len al mt out =>
      is_pow2 al ∧ al ≤ 2 ^ 62 ∧ 0 ≤ ss ≤ 2 ^ 62 ∧ 0 ≤ se < 2 ^ 64 ∧ 0 ≤ len ≤ 2 ^ 62
  | MapDirectMemory addr len _ _ _ _ | MapFlexibleMemory addr len _ _
  | Munmap addr len => args_ok addr len
  | QueryMemoryProtection addr => in_u 64 addr
  end.

(** The direct-memory handler rejects exactly the lengths the kernel does. *)
Definition length_ok (len : Z) : Prop := 0 < len ∧ (PAGE_SIZE | len).

Lemma length_check len : 0 ≤ len →
  (len =? 0) || negb (is_aligned len PAGE_SIZE) = false ↔ length_ok len.
Proof.
  intros. rewrite orb_false_iff, negb_false_iff, is_aligned_spec by auto with rust.
  rewrite Z.eqb_neq. unfold length_ok. split; intros [? ?]; split; done || lia.
Qed.

Lemma length_ok_dec len : 0 ≤ len → length_ok len ∨ ¬ length_ok len.
Proof.
  intros. rewrite <-length_check by done.
  destruct (_ || _); [right|left]; congruence.
Qed.

(** What the two mapping handlers share. *)
Definition map_result (ty : VMAType) (prot : Z) (addr len : Z)
    (self self' : MemoryManager) (rc out : Z) : Prop :=
  (rc = OrbisError.ENOMEM ∧ out = addr ∧ self' = self) ∨
  (rc = OrbisError.OK ∧ 0 < len ∧
   physical self' = physical self ∧
   ∀ a, option_map (λ l : vma_label, (l.1.1.1, l.1.1.2)) (view self' a) =
     if in_range out (out + align_up len PAGE_SIZE) a then Some (ty, prot)
     else option_map (λ l : vma_label, (l.1.1.1, l.1.1.2)) (view self a)).

Section laws.
Context {OS : Type} `{!HostOS OS, !HostOSLaws OS} `{!Bitflags, !BitflagsLaws}.

Lemma align_up_pos len : 0 ≤ len < VA_LIMIT →
  0 < align_up len PAGE_SIZE → 0 < len.
Proof.
  intros Hl Hp. destruct (decide (len = 0)) as [->|]; [|lia].
  vm_compute in Hp. congruence.
Qed.

(** [MemoryManager::allocate_direct_memory], through the allocator's lemmas. *)
Lemma allocate_direct_cases self ss se len al mt :
  Physical.wf (physical self) → Physical.window_ok ss se len al → length_ok len →
  (∃ addr m area, allocate_direct_memory self ss se len al mt =
      Ok (set_physical self (Physical.set_areas (physical self) m), Some addr) ∧
    Physical.wf (Physical.set_areas (physical self) m) ∧
    (al | addr) ∧ ss ≤ addr ∧ addr + len ≤ se ∧
    (∀ a, addr ≤ a < addr + len →
      Physical.state_at (physical self) a = Some (Physical.pa_memory_type area, Physical.Free)) ∧
    ∀ a, Physical.state_at (Physical.set_areas (physical self) m) a =
      if in_range addr (addr + len) a
      then Some (Physical.pa_memory_type area, Physical.Allocated)
      else Physical.state_at (physical self) a) ∨
  allocate_direct_memory self ss se len al mt = Ok (self, None).
Proof.
  intros Hwf Hw [Hpos Hd]. unfold allocate_direct_memory.
  rewrite align_up_aligned; [|auto with rust|done|lia|unfold PAGE_SIZE; destruct Hw; lia].
  destruct (Physical.find_fit ss se len (al `max` PAGE_SIZE)
              (bt_values (Physical.areas (physical self)))) as [addr|] eqn:E.
  - left. destruct (Physical.allocate_found _ _ _ _ _ _ Hwf Hw E)
      as (m & area & -> & ? & ? & ?).
    apply Physical.find_fit_wf in E as (? & _ & _ & ? & Hdv & _ & ?);
      [|done|by apply Physical.window_ok_max].
    exists addr, m, area. split_and!; try done.
    + etrans; [|exact Hdv]. apply Physical.pow2_divide_max; [apply Hw|auto with rust].
    + lia.
  - right. unfold Physical.allocate. rewrite E. simpl.
    by destruct self as [? ? ? ? ? ?].
Qed.

Lemma map_memory_result va len prot flags ty name (os : OS) self :
  mm_wf self → args_ok va len →
  ∃ os' self' r, map_memory va len prot flags ty name (os, self) = ((os', self'), r) ∧
    mm_wf self' ∧ total_flexible_size self' = total_flexible_size self ∧
    flexible_usage self' = flexible_usage self ∧
    match r with
    | Ok out => map_result ty prot va len self self' OrbisError.OK out
    | Err _ => self' = self
    | Panic => False
    end.
Proof.
  intros [Hwf Hp] Ha. pose proof (args_ok_aligned va len Ha) as [Hn _].
  destruct (map_memory_cases va len prot flags ty name os self Hwf Ha)
    as [(os' & e & ->)|(os' & addr & m & -> & Hm & (? & Hpos & ?) & _ & Hv & _)].
  { by eexists _, _, _. }
  eexists _, _, _. split; [done|]. split_and!; try done. right.
  split_and!; try done.
  - apply align_up_pos; [|lia]. unfold args_ok, VA_LIMIT, PAGE_SIZE in *. lia.
  - intros a. unfold view at 1. simpl. rewrite Hv. by case_range.
Qed.

Local Ltac done_call :=
  eexists _, _, _; split; [done|];
  repeat first [done | match goal with
  | |- _ ∧ _ => split
  | |- mm_wf _ => split
  | |- _ ≠ _ → _ => intros ?
  end]; first [congruence | set_solver].

(** One call: it returns [OK], [ENOMEM] or [EINVAL], and keeps the invariant. *)
Lemma run_ok c (os : OS) self : mm_wf self → call_ok c →
  ∃ os' self' rc, run c (os, self) = ((os', self'), Ok rc) ∧ mm_wf self' ∧
    rc ∈ [OrbisError.OK; OrbisError.ENOMEM; OrbisError.EINVAL] ∧
    total_flexible_size self' = total_flexible_size self ∧
    flexible_usage self' = flexible_usage self ∧
    (rc ≠ OrbisError.OK → self' = self).
Proof.
  intros Hwf Hc. destruct c as [ss se len al mt out|va len p f st al|va len p f|va len|va];
    simpl in Hc; unfold run, fmap, st_fmap.
  - destruct Hc as (? & ? & ? & ? & ?). unfold sce_kernel_allocate_direct_memory.
    destruct (_ || _) eqn:E; [destruct Hwf; done_call|].
    apply length_check in E; [|lia].
    unfold mbind, st_bind, st_get, st_lift, st_put. simpl.
    destruct (allocate_direct_cases self ss se len al mt)
      as [(addr & m & area & -> & ? & _)| ->]; [apply Hwf| |done| |].
    + unfold Physical.window_ok. destruct E. split_and!; done || lia.
    + destruct Hwf. done_call.
    + destruct Hwf. done_call.
  - unfold sce_kernel_map_direct_memory, st_match.
    destruct (map_memory_result va len (from_bits_truncate MemoryProt.ALL p)
      (from_bits_truncate MemoryMapFlags.ALL f) Direct "direct" os self Hwf Hc)
      as (os' & self' & [r|e|] & -> & ? & ? & ? & Hr); [| |done].
    + done_call.
    + subst. done_call.
  - unfold sce_kernel_map_flexible_memory, st_match.
    destruct (map_memory_result va len (from_bits_truncate MemoryProt.ALL p)
      (from_bits_truncate MemoryMapFlags.ALL f) Flexible "flexible" os self Hwf Hc)
      as (os' & self' & [r|e|] & -> & ? & ? & ? & Hr); [| |done].
    + done_call.
    + subst. done_call.
  - unfold sce_kernel_munmap, st_match. destruct Hwf as [Hwf Hp].
    destruct (unmap_memory_cases va len os self Hwf Hc)
      as [(os' & e & ->)|(os' & m & -> & ? & _)];
      done_call.
  - unfold sce_kernel_query_memory_protection. simpl.
    destruct Hwf. done_call.
Qed.

Lemma run_all_ok cs (os : OS) self : mm_wf self → Forall call_ok cs →
  ∃ os' self' rcs, run_all cs (os, self) = ((os', self'), Ok rcs) ∧ mm_wf self' ∧
    length rcs = length cs ∧
    Forall (λ rc, rc ∈ [OrbisError.OK; OrbisError.ENOMEM; OrbisError.EINVAL]) rcs ∧
    total_flexible_size self' = total_flexible_size self ∧
    flexible_usage self' = flexible_usage self.
Proof.
  intros Hwf Hcs. revert os self Hwf. induction Hcs as [|c cs Hc _ IH]; intros os self Hwf.
  { by exists os, self, []. }
  destruct (run_ok c os self Hwf Hc) as (os1 & self1 & rc & E & Hwf1 & ? & Et & Eu & _).
  destruct (IH os1 self1 Hwf1) as (os2 & self2 & rcs & E' & ? & ? & ? & ? & ?).
  exists os2, self2, (rc :: rcs). simpl. erewrite st_bind_ok by done.
  erewrite st_bind_ok by done. split; [done|]. split; [done|].
  split; [congruence|]. split; [by constructor|]. split; congruence.
Qed.

(** A new manager has free areas only, and address 0 is not among them. *)
Lemma manager_new_free (os os' : OS) self x : new os = (os', Ok self) →
  type_at self x = Some Free ∧ x ≠ 0 ∨ type_at self x = None.
Proof.
  intros E. unfold new, mbind, st_bind in E.
  destruct (AddressSpace.new os) as [os1 [sp|e|]] eqn:Es; [|done|done].
  injection E as <- <-. assert (AddressSpace.user_base sp ≠ 0 ∧ 0 ≤ AddressSpace.user_base sp) as Hb.
  { unfold AddressSpace.new, mbind, st_bind, AddressSpace.mmap_anonymous,
      AddressSpace.mmap_reserve in Es.
    destruct (os_mmap os _ _ _ _) as [o1 [b1|]]; [|done].
    destruct (os_mmap o1 _ _ _ _) as [o2 [b2|]] eqn:Eb; [|done].
    destruct (os_mmap o2 _ _ _ _) as [o3 [b3|]]; [|done].
    destruct (os_mmap o3 _ _ _ _) as [o4 [b4|]]; [|done].
    injection Es as <- <-. cbn. apply (f_equal snd) in Eb. cbn in Eb. split.
    - by eapply mmap_not_null; [|exact Eb].
    - by eapply mmap_user_half; [| |exact Eb]. }
  unfold type_at. cbn. unfold covers. case_range; [left|by right]. split; [done|]. cbn in *. lia.
Qed.

Lemma manager_new_no_panic (os : OS) : (new os).2 ≠ Panic.
Proof.
  unfold new, AddressSpace.new, mbind, st_bind, AddressSpace.mmap_anonymous,
    AddressSpace.mmap_reserve.
  destruct (os_mmap os _ _ _ _) as [o1 [b1|]]; [|done].
  destruct (os_mmap o1 _ _ _ _) as [o2 [b2|]]; [|done].
  destruct (os_mmap o2 _ _ _ _) as [o3 [b3|]]; [|done].
  by destruct (os_mmap o3 _ _ _ _) as [o4 [b4|]].
Qed.

(** Every [Ok] of [MemoryManager::new] is well formed. *)
Lemma manager_new_wf (os os' : OS) self : new os = (os', Ok self) →
  mm_wf self ∧ total_flexible_size self = 448 * 1024 * 1024 ∧ flexible_usage self = 0.
Proof.
  intros E. unfold new, mbind, st_bind in E.
  destruct (AddressSpace.new os) as [os1 [sp|e|]] eqn:Es; [|done|done].
  injection E as <- <-. simpl. split; [|done].
  assert (0 ≤ AddressSpace.user_base sp ∧
    AddressSpace.user_base sp + AddressSpace.user_size sp ≤ 2 ^ 56 ∧
    AddressSpace.user_size sp = USER_SIZE) as (? & ? & Eu).
  { unfold AddressSpace.new, mbind, st_bind, AddressSpace.mmap_anonymous,
      AddressSpace.mmap_reserve in Es.
    destruct (os_mmap os _ _ _ _) as [o1 [b1|]]; [|done].
    destruct (os_mmap o1 _ _ _ _) as [o2 [b2|]] eqn:Eb; [|done].
    destruct (os_mmap o2 _ _ _ _) as [o3 [b3|]]; [|done].
    destruct (os_mmap o3 _ _ _ _) as [o4 [b4|]]; [|done].
    injection Es as <- <-. simpl. change 137438953472 with USER_SIZE.
    destruct (mmap_user_half o1 0x1000000000 USER_SIZE PROT_NONE
      (Z.lor MAP_PRIVATE MAP_ANONYMOUS) b2); [lia|done|by rewrite Eb|done]. }
  split.
  - unfold wf, wf_map, VA_LIMIT. simpl. unfold iend. simpl. rewrite Eu in *.
    unfold USER_SIZE in *. split_and!; done || lia.
  - apply Physical.new_wf. done.
Qed.

(** ** Properties *)

(** C1: from start-up on, whatever memory system calls a program makes with arguments
    within the bounds of [call_ok] (direct memory: a power-of-two alignment, and window
    start, length and alignment at most 2^62; mappings: ranges that, rounded to pages, lie
    in the address space), no call panics, every call returns [OK], [ENOMEM] or [EINVAL],
    as the constants of kernel/mod.rs define them, and both the areas of virtual memory
    and those of direct memory stay well formed.  The flexible budget is never charged:
    the available flexible size stays at its initial 448 MiB.  No handler checks these
    bounds; what direct memory does beyond them is in [Physical.allocate_refines]. *)
Theorem syscalls_safe (os os1 : OS) self cs :
  new os = (os1, Ok self) → Forall call_ok cs →
  ∃ os2 self' rcs, run_all cs (os1, self) = ((os2, self'), Ok rcs) ∧
    wf self' ∧ Physical.wf (physical self') ∧ length rcs = length cs ∧
    Forall (λ rc, rc ∈ [OrbisError.OK; OrbisError.ENOMEM; OrbisError.EINVAL]) rcs ∧
    available_flexible_size self' = 448 * 1024 * 1024.
Proof.
  intros (Hwf & Et & Eu)%manager_new_wf Hcs.
  destruct (run_all_ok cs os1 self Hwf Hcs) as (os2 & self' & rcs & -> & [? ?] & ? & ? & Et' & Eu').
  eexists _, _, _. split_and!; try done.
  unfold available_flexible_size. by rewrite Et', Eu', Et, Eu.
Qed.

(** C40: the direct-memory call, branch by branch, for a power-of-two alignment and a
    window start, length and alignment of at most 2^62: a zero or unaligned length is
    [EINVAL] and nothing else is; a failed search is [ENOMEM]; in both cases
    neither the manager nor the out parameter changes; on [OK] the out
    parameter is an aligned block inside the window, all of it free before and
    exactly it allocated after.  The handler checks none of the bounds: a page-aligned
    length near 2^64 is [OK], too, and the block reaches beyond the window. *)
Theorem allocate_direct_memory_refines ss se len al mt out (os : OS) self :
  mm_wf self → call_ok (AllocateDirectMemory ss se len al mt out) →
  ∃ self' rc out', sce_kernel_allocate_direct_memory ss se len al mt out (os, self) =
      ((os, self'), Ok (rc, out')) ∧ mm_wf self' ∧
    (rc = OrbisError.EINVAL ↔ ¬ length_ok len) ∧
    (rc ≠ OrbisError.OK → self' = self ∧ out' = out) ∧
    (rc = OrbisError.OK →
      (al | out') ∧ ss ≤ out' ∧ out' + len ≤ se ∧ vma_map self' = vma_map self ∧
      ∃ t, (∀ a, out' ≤ a < out' + len →
             Physical.state_at (physical self) a = Some (t, Physical.Free)) ∧
        ∀ a, Physical.state_at (physical self') a =
          if in_range out' (out' + len) a then Some (t, Physical.Allocated)
          else Physical.state_at (physical self) a).
Proof.
  intros [Hwf Hp] (? & ? & ? & ? & ?). unfold sce_kernel_allocate_direct_memory.
  destruct (_ || _) eqn:E.
  { assert (¬ length_ok len) by (rewrite <-length_check by lia; congruence).
    by eexists _, _, _. }
  apply length_check in E; [|lia].
  unfold mbind, st_bind, st_get, st_lift, st_put. simpl.
  destruct (allocate_direct_cases self ss se len al mt)
    as [(addr & m & area & -> & ? & ? & ? & ? & ? & ?)| ->]; [done| |done| |].
  - unfold Physical.window_ok. destruct E. split_and!; done || lia.
  - eexists _, _, _. split; [done|]. split; [done|]. split; [done|]. split; [done|].
    intros _. split_and!; try done. by eexists.
  - eexists _, _, _. split; [done|]. by split_and!.
Qed.

(** Both mapping calls keep the out parameter and the manager on [ENOMEM];
    on [OK] the out parameter is the base of a non-empty page-rounded range
    that takes the call's type and the declared bits of its protection, while
    every other byte keeps its type and protection. *)
Theorem map_calls_refine va len prot flags st al (os : OS) self :
  mm_wf self → args_ok va len →
  (∃ os' self' rc out, sce_kernel_map_direct_memory va len prot flags st al (os, self) =
      ((os', self'), Ok (rc, out)) ∧ mm_wf self' ∧
      map_result Direct (Z.land prot MemoryProt.ALL) va len self self' rc out) ∧
  (∃ os' self' rc out, sce_kernel_map_flexible_memory va len prot flags (os, self) =
      ((os', self'), Ok (rc, out)) ∧ mm_wf self' ∧
      map_result Flexible (Z.land prot MemoryProt.ALL) va len self self' rc out).
Proof.
  intros Hwf Hc. rewrite <-from_bits_truncate_spec. split.
  - unfold sce_kernel_map_direct_memory, st_match.
    destruct (map_memory_result va len (from_bits_truncate MemoryProt.ALL prot)
      (from_bits_truncate MemoryMapFlags.ALL flags) Direct "direct" os self Hwf Hc)
      as (os' & self' & [r|e|] & -> & ? & ? & ? & Hr); [| |done].
    + by eexists _, _, _, _.
    + subst. eexists _, _, _, _. split_and!; [done|done|by left].
  - unfold sce_kernel_map_flexible_memory, st_match.
    destruct (map_memory_result va len (from_bits_truncate MemoryProt.ALL prot)
      (from_bits_truncate MemoryMapFlags.ALL flags) Flexible "flexible" os self Hwf Hc)
      as (os' & self' & [r|e|] & -> & ? & ? & ? & Hr); [| |done].
    + by eexists _, _, _, _.
    + subst. eexists _, _, _, _. split_and!; [done|done|by left].
Qed.

End laws.

(** ** Witnesses, over the concrete kernel *)

#[local] Existing Instances bitflags_impl bitflags_impl_laws ToyOS.toy_os ToyOS.toy_os_laws.

(** The manager a successful start yields. *)
Definition booted : MemoryManager :=
  match new ToyOS.boot with (_, Ok self) => self | _ => small_mm end.

Lemma booted_wf : mm_wf booted.
Proof. split; by apply (bool_decide_eq_true_1 _); vm_compute. Qed.

(** Allocate two pages, map them, unmap one, then ask for a partial page. *)
Definition sample_calls : list syscall :=
  [AllocateDirectMemory 0 (2 ^ 32) 0x8000 0x4000 0 0;
   MapDirectMemory 0 0x8000 3 0 0 0; Munmap (2 ^ 36) 0x4000;
   AllocateDirectMemory 0 (2 ^ 32) 0x1000 0x4000 0 0].

Lemma is_pow2_0x4000 : is_pow2 0x4000.
Proof. exists 14. split; [lia|done]. Qed.

Lemma sample_calls_ok : Forall call_ok sample_calls.
Proof.
  pose proof is_pow2_0x4000.
  repeat constructor; unfold args_ok, VA_LIMIT, PAGE_SIZE; done || lia.
Qed.

Lemma syscalls_safe_witness :
  ∃ os self', run_all sample_calls ((new ToyOS.boot).1, booted) =
      ((os, self'), Ok [0; 0; 0; OrbisError.EINVAL]) ∧
    wf self' ∧ available_flexible_size self' = 448 * 1024 * 1024.
Proof.
  destruct (syscalls_safe ToyOS.boot (new ToyOS.boot).1 booted sample_calls)
    as (os & self' & rcs & E & Hwf & _ & _ & _ & Hf);
    [vm_compute; reflexivity|exact sample_calls_ok|].
  exists os, self'. split; [|by split]. rewrite E. f_equal.
  vm_compute in E. by injection E as _ _ <-.
Defined.

(** Two pages; and what a length beyond the bounds leaves behind. *)
Lemma allocate_direct_memory_refines_witness :
  (∃ self' out', sce_kernel_allocate_direct_memory 0 (2 ^ 32) 0x8000 0x4000 0 7
      (ToyOS.boot, booted) = ((ToyOS.boot, self'), Ok (OrbisError.OK, out')) ∧
    (0x4000 | out') ∧ out' + 0x8000 ≤ 2 ^ 32) ∧
  ∃ self', sce_kernel_allocate_direct_memory 0x4000 (2 ^ 32) (2 ^ 64 - 0x4000) 0x4000 0 7
      (ToyOS.boot, booted) = ((ToyOS.boot, self'), Ok (OrbisError.OK, 0x4000)) ∧ ¬ mm_wf self'.
Proof.
  split.
  2: { eexists. split; [vm_compute; reflexivity|]. intros [_ Hp]. revert Hp.
       apply (bool_decide_eq_false_1 _). vm_compute. reflexivity. }
  destruct (allocate_direct_memory_refines 0 (2 ^ 32) 0x8000 0x4000 0 7 ToyOS.boot booted)
    as (self' & rc & out' & E & _ & _ & _ & Hok).
  - exact booted_wf.
  - pose proof is_pow2_0x4000. simpl. split; [done|lia].
  - assert (rc = OrbisError.OK) as -> by (vm_compute in E; by injection E as _ <- _).
    destruct (Hok eq_refl) as (? & ? & ? & _).
    exists self', out'. split; [exact E|by split].
Defined.

Lemma map_calls_refine_witness :
  ∃ os' self' out, sce_kernel_map_direct_memory 0 0x8000 0xFFFF03 0 0 0 (ToyOS.boot, booted) =
      ((os', self'), Ok (OrbisError.OK, out)) ∧
    map_result Direct 3 0 0x8000 booted self' OrbisError.OK out.
Proof.
  destruct (map_calls_refine 0 0x8000 0xFFFF03 0 0 0 ToyOS.boot booted)
    as [(os' & self' & rc & out & E & _ & Hr) _].
  - exact booted_wf.
  - unfold args_ok, VA_LIMIT, PAGE_SIZE. lia.
  - assert (rc = OrbisError.OK) as -> by (vm_compute in E; by injection E as _ _ <- _).
    exists os', self', out. split; [exact E|]. exact Hr.
Defined.

End Syscalls.
