(* ===== verification/Bytes.v ===== *)
(** * Byte buffers, cursors and strings

    A byte is a [Z] below 256 and a buffer a list of them.  [std::io::Cursor]
    over a borrowed buffer is its position; the [byteorder] crate, which turns
    the bytes of a field into an integer, is the class [ByteOrder].
    [String::from_utf8] and [String::from_utf8_lossy] follow the chunking of
    [core::str::lossy]. *)

From S2P Require Import Prelude.

Abbreviation bytes := (list Z).

Definition is_byte (b : Z) : Prop := in_u 8 b.
#[export] Instance is_byte_dec b : Decision (is_byte b).
Proof. unfold is_byte; apply _. Defined.

Abbreviation is_bytes := (Forall is_byte).

(** The length of a buffer, as a machine integer. *)
Abbreviation blen l := (Z.of_nat (length l)).

(** ** Little-endian integers *)

Fixpoint le_decode (bs : bytes) : Z :=
  match bs with
  | [] => 0
  | b :: bs' => b + 256 * le_decode bs'
  end.

Fixpoint le_encode (n : nat) (z : Z) : bytes :=
  match n with
  | O => []
  | S n' => z mod 256 :: le_encode n' (z / 256)
  end.

Lemma le_encode_length n z : length (le_encode n z) = n.
Proof. revert z. induction n; intros; simpl; auto. Qed.

Lemma le_encode_bytes n z : is_bytes (le_encode n z).
Proof.
  revert z. induction n; intros; constructor; [|done].
  unfold is_byte, in_u. change (2 ^ 8) with 256. apply Z.mod_pos_bound. lia.
Qed.

Lemma le_decode_encode n z : 0 ≤ z < 256 ^ Z.of_nat n → le_decode (le_encode n z) = z.
Proof.
  revert z. induction n as [|n IH]; intros z Hz.
  { change (Z.of_nat 0) with 0 in Hz. simpl. lia. }
  cbn [le_encode le_decode]. rewrite Nat2Z.inj_succ, Z.pow_succ_r in Hz by lia.
  rewrite IH.
  - pose proof (Z_div_mod_eq_full z 256). lia.
  - split; [apply Z.div_pos; lia|]. apply Z.div_lt_upper_bound; lia.
Qed.

Lemma le_decode_range bs : is_bytes bs → 0 ≤ le_decode bs < 256 ^ blen bs.
Proof.
  induction 1 as [|b bs Hb _ IH]; [simpl; lia|].
  cbn [le_decode length]. rewrite Nat2Z.inj_succ, Z.pow_succ_r by lia.
  unfold is_byte, in_u in Hb. change (2 ^ 8) with 256 in Hb. lia.
Qed.

Lemma le_encode_decode bs : is_bytes bs → le_encode (length bs) (le_decode bs) = bs.
Proof.
  induction 1 as [|b bs Hb _ IH]; [done|].
  cbn [le_decode length le_encode]. unfold is_byte, in_u in Hb. change (2 ^ 8) with 256 in Hb.
  rewrite (Z.mul_comm 256), Z.mod_add, Z.div_add by lia.
  rewrite Z.mod_small, Z.div_small, Z.add_0_l by lia. by rewrite IH.
Qed.

#[global] Arguments le_encode : simpl never.
#[global] Arguments le_decode : simpl never.

(** ** The [byteorder] crate *)

Class ByteOrder := {
  (** [LittleEndian::read_uN] on a buffer of [N / 8] bytes. *)
  read_le : bytes → Z;
}.

Class ByteOrderLaws `{ByteOrder} : Prop := {
  read_le_spec bs : is_bytes bs → read_le bs = le_decode bs;
}.

(** The implementation used by the witnesses. *)
Definition byteorder_impl : ByteOrder := {| read_le := le_decode |}.

Lemma byteorder_impl_laws : @ByteOrderLaws byteorder_impl.
Proof. by split. Qed.

(** [u32::swap_bytes]. *)
Definition swap_bytes32 (x : Z) : Z := le_decode (rev (le_encode 4 x)).

(** ** Cursors *)

Inductive io_error :=
| UnexpectedEof
| OsError (errno : Z).

(** [impl From<io::Error>], the conversion the [?] operator applies. *)
Class FromIo (E : Type) := from_io : io_error → E.
#[export] Instance from_io_id : FromIo io_error := λ e, e.

Section cursor.
Context {E : Type} `{FromIo E} `{ByteOrder}.
Variable data : bytes.

(** The position of a [Cursor] over [data] is the state. *)
Definition seek (pos : Z) : st Z E unit := st_put pos.
Definition position : st Z E Z := st_get.

(** [read_exact]: a short read leaves the cursor at the end of the buffer. *)
Definition read_exact (n : Z) : st Z E bytes := λ pos,
  let pos' := pos `min` blen data in
  if n <=? blen data - pos'
  then (pos + n, Ok (take (Z.to_nat n) (drop (Z.to_nat pos') data)))
  else (blen data, Err (from_io UnexpectedEof)).

Definition read_uint (n : Z) : st Z E Z := read_le <$> read_exact n.

Definition read_u8 : st Z E Z := bs ← read_exact 1; mret (default 0 (head bs)).
Definition read_u16 : st Z E Z := read_uint 2.
Definition read_u32 : st Z E Z := read_uint 4.
Definition read_u64 : st Z E Z := read_uint 8.
Definition read_i32 : st Z E Z := to_signed 32 <$> read_uint 4.
Definition read_i64 : st Z E Z := to_signed 64 <$> read_uint 8.

(** [for _ in 0..n { v.push(read?) }]. *)
Fixpoint read_n {A} (n : nat) (m : st Z E A) : st Z E (list A) :=
  match n with
  | O => mret []
  | S n' => a ← m; l ← read_n n' m; mret (a :: l)
  end.

End cursor.

(** ** Slices *)

(** [&data[start..end]]; a reversed or too long range panics. *)
Definition slice {E} (data : bytes) (start end_ : Z) : outcome E bytes :=
  if (start <=? end_) && (end_ <=? blen data)
  then Ok (take (Z.to_nat (end_ - start)) (drop (Z.to_nat start) data))
  else Panic.

(** [&data[start..]]. *)
Definition slice_from {E} (data : bytes) (start : Z) : outcome E bytes :=
  slice data start (blen data).

(** [data[i]]. *)
Definition index {E} (data : bytes) (i : Z) : outcome E Z :=
  unwrap (data !! Z.to_nat i).

(** ** What the buffer holds at a position *)

Definition reads (data : bytes) (pos : Z) (bs : bytes) : Prop :=
  0 ≤ pos ∧ bs `prefix_of` drop (Z.to_nat pos) data.

Lemma reads_nil data pos : 0 ≤ pos → reads data pos [].
Proof. intros. split; [done|apply prefix_nil]. Qed.

Lemma reads_app data pos a b :
  reads data pos (a ++ b) ↔ reads data pos a ∧ reads data (pos + blen a) b.
Proof.
  unfold reads. split.
  - intros (? & k & Hk). rewrite Z2Nat.inj_add, Nat2Z.id by lia. split_and!; try lia.
    + exists (b ++ k). by rewrite Hk, (assoc_L (++)).
    + exists k. rewrite <-drop_drop, Hk, <-(assoc_L (++)). by rewrite drop_app_length.
  - intros ((? & k1 & H1) & _ & k2 & H2). rewrite Z2Nat.inj_add, Nat2Z.id in H2 by lia.
    split; [done|]. exists k2. rewrite <-drop_drop, H1, drop_app_length in H2.
    by rewrite H1, H2, (assoc_L (++)).
Qed.

Lemma reads_here pre bs post : reads (pre ++ bs ++ post) (blen pre) bs.
Proof.
  split; [lia|]. rewrite Nat2Z.id, drop_app_length. by exists post.
Qed.

Lemma reads_take data pos n : 0 ≤ pos → 0 ≤ n → pos + n ≤ blen data →
  reads data pos (take (Z.to_nat n) (drop (Z.to_nat pos) data)).
Proof. intros. split; [done|]. apply prefix_take. Qed.

Lemma reads_inj data pos a b : reads data pos a → reads data pos b →
  length a = length b → a = b.
Proof.
  intros (_ & k1 & H1) (_ & k2 & H2) Hl. rewrite H1 in H2. by apply app_inj_1 in H2 as [].
Qed.

Section cursor_lemmas.
Context {E : Type} `{FromIo E} `{ByteOrder, !ByteOrderLaws}.
Implicit Types data bs : bytes.

Lemma read_exact_reads data pos bs : reads data pos bs →
  read_exact (E:=E) data (blen bs) pos = (pos + blen bs, Ok bs).
Proof.
  intros (Hp & k & Hk). unfold read_exact.
  assert (blen (drop (Z.to_nat pos) data) = blen bs + blen k) as Hl
    by (rewrite Hk, length_app; lia).
  rewrite length_drop in Hl.
  destruct (decide (pos ≤ blen data)).
  - rewrite Z.min_l by done. destruct (Z.leb_spec (blen bs) (blen data - pos)); [|lia].
    by rewrite Hk, Nat2Z.id, take_app_length.
  - assert (bs = []) as -> by (apply nil_length_inv; lia).
    simpl. rewrite Z.min_r by lia.
    rewrite (proj2 (Z.leb_le _ _)) by lia. done.
Qed.

(** A read succeeds or fails for want of bytes; it never panics. *)
Lemma read_exact_cases data n pos : 0 ≤ pos → 0 ≤ n →
  (∃ bs, blen bs = n ∧ reads data pos bs ∧
     read_exact (E:=E) data n pos = (pos + n, Ok bs)) ∨
  (blen data < pos + n ∧
   read_exact (E:=E) data n pos = (blen data, Err (from_io UnexpectedEof))).
Proof.
  intros Hp Hn. destruct (decide (n ≤ blen data - pos `min` blen data)).
  - left. exists (take (Z.to_nat n) (drop (Z.to_nat (pos `min` blen data)) data)).
    assert (blen (take (Z.to_nat n) (drop (Z.to_nat (pos `min` blen data)) data)) = n)
      as Hlen by (rewrite length_take, length_drop; lia).
    split; [done|]. split.
    + split; [done|]. destruct (decide (pos ≤ blen data)).
      * rewrite Z.min_l by done. apply prefix_take.
      * assert (n = 0) as -> by lia. apply prefix_nil.
    + unfold read_exact. by destruct (Z.leb_spec n (blen data - pos `min` blen data)); [|lia].
  - right. unfold read_exact.
    destruct (Z.leb_spec n (blen data - pos `min` blen data)); [lia|]. split; [lia|done].
Qed.

Lemma read_uint_reads data pos bs : is_bytes bs → reads data pos bs →
  read_uint (E:=E) data (blen bs) pos = (pos + blen bs, Ok (le_decode bs)).
Proof.
  intros Hb Hr. unfold read_uint, fmap, st_fmap. rewrite read_exact_reads by done.
  by rewrite read_le_spec.
Qed.

(** The value of a field, or the lack of bytes for it. *)
Lemma read_uint_cases data n pos : is_bytes data → 0 ≤ pos → 0 < n →
  (pos + n ≤ blen data ∧ read_uint (E:=E) data n pos =
     (pos + n, Ok (le_decode (take (Z.to_nat n) (drop (Z.to_nat pos) data))))) ∨
  (blen data < pos + n ∧
   read_uint (E:=E) data n pos = (blen data, Err (from_io UnexpectedEof))).
Proof.
  intros Hb Hp Hn. destruct (decide (pos + n ≤ blen data)).
  - left. split; [done|]. pose proof (reads_take data pos n Hp ltac:(lia) ltac:(done)) as Hr.
    apply read_uint_reads in Hr.
    + rewrite length_take, length_drop in Hr.
      by replace (Z.of_nat (Z.to_nat n `min` (length data - Z.to_nat pos))) with n in Hr by lia.
    + by apply Forall_take, Forall_drop.
  - right. split; [lia|]. unfold read_uint, fmap, st_fmap, read_exact.
    destruct (Z.leb_spec n (blen data - pos `min` blen data)); [lia|done].
Qed.

(** Reading back a field of [n] bytes. *)
Lemma read_uint_encode data pos n z : reads data pos (le_encode n z) →
  0 ≤ z < 256 ^ Z.of_nat n →
  read_uint (E:=E) data (Z.of_nat n) pos = (pos + Z.of_nat n, Ok z).
Proof.
  intros Hr Hz. pose proof (read_uint_reads data pos _ (le_encode_bytes n z) Hr) as E1.
  rewrite le_encode_length, le_decode_encode in E1 by done. done.
Qed.

Lemma read_u16_encode data pos z : reads data pos (le_encode 2 z) → in_u 16 z →
  read_u16 (E:=E) data pos = (pos + 2, Ok z).
Proof. apply (read_uint_encode data pos 2). Qed.
Lemma read_u32_encode data pos z : reads data pos (le_encode 4 z) → in_u 32 z →
  read_u32 (E:=E) data pos = (pos + 4, Ok z).
Proof. apply (read_uint_encode data pos 4). Qed.
Lemma read_u64_encode data pos z : reads data pos (le_encode 8 z) → in_u 64 z →
  read_u64 (E:=E) data pos = (pos + 8, Ok z).
Proof. apply (read_uint_encode data pos 8). Qed.

Lemma read_i32_encode data pos z : reads data pos (le_encode 4 (wrap 32 z)) →
  - 2 ^ 31 ≤ z < 2 ^ 31 → read_i32 (E:=E) data pos = (pos + 4, Ok z).
Proof.
  intros Hr Hz. unfold read_i32, fmap, st_fmap.
  pose proof (read_uint_encode data pos 4 (wrap 32 z) Hr
    ltac:(apply (wrap_range 32 z); lia)) as E1.
  change (Z.of_nat 4) with 4 in E1. rewrite E1. by rewrite wrap_wrap_signed by lia.
Qed.

Lemma read_i64_encode data pos z : reads data pos (le_encode 8 (wrap 64 z)) →
  - 2 ^ 63 ≤ z < 2 ^ 63 → read_i64 (E:=E) data pos = (pos + 8, Ok z).
Proof.
  intros Hr Hz. unfold read_i64, fmap, st_fmap.
  pose proof (read_uint_encode data pos 8 (wrap 64 z) Hr
    ltac:(apply (wrap_range 64 z); lia)) as E1.
  change (Z.of_nat 8) with 8 in E1. rewrite E1. by rewrite wrap_wrap_signed by lia.
Qed.

Lemma read_u8_reads data pos b : reads data pos [b] →
  read_u8 (E:=E) data pos = (pos + 1, Ok b).
Proof.
  intros Hr. unfold read_u8. erewrite st_bind_ok; [|by apply (read_exact_reads data pos [b])].
  done.
Qed.

(** The other way round: a field that was read is there. *)
Lemma read_exact_found data n pos pos' bs : 0 ≤ pos → 0 ≤ n →
  read_exact (E:=E) data n pos = (pos', Ok bs) → pos' = pos + n ∧ blen bs = n ∧ reads data pos bs.
Proof.
  intros Hp Hn Er. destruct (read_exact_cases data n pos Hp Hn) as [(bs' & Hl & Hr & E1)|[_ E1]];
    rewrite E1 in Er; [|done]. by injection Er as <- <-.
Qed.

Lemma read_uint_found data n pos pos' v : is_bytes data → 0 ≤ pos →
  read_uint (E:=E) data (Z.of_nat n) pos = (pos', Ok v) →
  pos' = pos + Z.of_nat n ∧ reads data pos (le_encode n v).
Proof.
  intros Hb Hp Er. unfold read_uint, fmap, st_fmap in Er.
  destruct (read_exact data (Z.of_nat n) pos) as [p1 [bs|e|]] eqn:Ex; [|done..].
  injection Er as <- <-. apply read_exact_found in Ex as (-> & Hl & Hr); [|lia..]. split; [done|].
  assert (is_bytes bs) as Hbs.
  { destruct Hr as (_ & k & Hk). apply (Forall_drop _ (Z.to_nat pos)) in Hb. rewrite Hk in Hb.
    by apply Forall_app in Hb as []. }
  rewrite read_le_spec by done. replace n with (length bs) by lia. by rewrite le_encode_decode.
Qed.

Lemma read_u8_found data pos pos' v : 0 ≤ pos →
  read_u8 (E:=E) data pos = (pos', Ok v) → pos' = pos + 1 ∧ reads data pos [v].
Proof.
  unfold read_u8. intros Hp Er. apply st_bind_inv in Er as (p1 & bs & Ex & Er). apply read_exact_found in Ex as (-> & Hl & Hr); [|lia..].
  injection Er as <- <-. split; [done|].
  destruct bs as [|b [|]]; [done|exact Hr|cbn [length] in Hl; lia].
Qed.

Lemma read_u16_found data pos pos' v : is_bytes data → 0 ≤ pos →
  read_u16 (E:=E) data pos = (pos', Ok v) → pos' = pos + 2 ∧ reads data pos (le_encode 2 v).
Proof. apply (read_uint_found data 2). Qed.
Lemma read_u32_found data pos pos' v : is_bytes data → 0 ≤ pos →
  read_u32 (E:=E) data pos = (pos', Ok v) → pos' = pos + 4 ∧ reads data pos (le_encode 4 v).
Proof. apply (read_uint_found data 4). Qed.
Lemma read_u64_found data pos pos' v : is_bytes data → 0 ≤ pos →
  read_u64 (E:=E) data pos = (pos', Ok v) → pos' = pos + 8 ∧ reads data pos (le_encode 8 v).
Proof. apply (read_uint_found data 8). Qed.

End cursor_lemmas.

(** ** UTF-8

    One step of [Utf8Chunks]: whether the bytes at the head form a character,
    and how many bytes the character, or the maximal invalid part, has. *)

Definition utf8_cont (b : Z) : bool := in_range 0x80 0xC0 b.

(** The range of the second byte after a given first byte. *)
Definition utf8_second (b0 b1 : Z) : bool :=
  if b0 =? 0xE0 then in_range 0xA0 0xC0 b1
  else if b0 =? 0xED then in_range 0x80 0xA0 b1
  else if b0 =? 0xF0 then in_range 0x90 0xC0 b1
  else if b0 =? 0xF4 then in_range 0x80 0x90 b1
  else utf8_cont b1.

Definition utf8_next (bs : bytes) : bool * nat :=
  match bs with
  | [] => (true, 0%nat)
  | b0 :: r =>
      let at_ i := default 0 (r !! i) in
      if b0 <? 0x80 then (true, 1%nat)
      else if in_range 0xC2 0xE0 b0 then
        if utf8_cont (at_ 0%nat) then (true, 2%nat) else (false, 1%nat)
      else if in_range 0xE0 0xF0 b0 then
        if negb (utf8_second b0 (at_ 0%nat)) then (false, 1%nat)
        else if negb (utf8_cont (at_ 1%nat)) then (false, 2%nat)
        else (true, 3%nat)
      else if in_range 0xF0 0xF5 b0 then
        if negb (utf8_second b0 (at_ 0%nat)) then (false, 1%nat)
        else if negb (utf8_cont (at_ 1%nat)) then (false, 2%nat)
        else if negb (utf8_cont (at_ 2%nat)) then (false, 3%nat)
        else (true, 4%nat)
      else (false, 1%nat)
  end.

Fixpoint utf8_chunks_loop (fuel : nat) (bs : bytes) : list (bool * bytes) :=
  match fuel, bs with
  | O, _ | _, [] => []
  | S fuel', _ =>
      let '(ok, n) := utf8_next bs in
      (ok, take n bs) :: utf8_chunks_loop fuel' (drop n bs)
  end.

Definition utf8_chunks (bs : bytes) := utf8_chunks_loop (length bs) bs.

Definition utf8_valid (bs : bytes) : bool := forallb fst (utf8_chunks bs).

Definition from_utf8_lossy (bs : bytes) : bytes :=
  concat (map (λ '(ok, c), if ok : bool then c else [0xEF; 0xBF; 0xBD]) (utf8_chunks bs)).

(** A string literal, as the bytes of a [&str]. *)
Definition str (s : string) : bytes :=
  map (λ c, Z.of_N (Ascii.N_of_ascii c)) (String.list_ascii_of_string s).

Lemma utf8_next_pos bs : bs ≠ [] → (1 ≤ (utf8_next bs).2)%nat.
Proof.
  destruct bs as [|b0 r]; [done|]. intros _. unfold utf8_next.
  repeat case_match; simpl; lia.
Qed.

(** The chunks are the whole text: the fuel is enough. *)
Lemma utf8_chunks_concat bs : concat (snd <$> utf8_chunks bs) = bs.
Proof.
  unfold utf8_chunks.
  assert (∀ n bs, (length bs ≤ n)%nat → concat (snd <$> utf8_chunks_loop n bs) = bs) as Hc;
    [|by apply Hc].
  clear. induction n as [|n IH]; intros [|x bs]; try done; [simpl; lia|].
  intros Hl. cbn [utf8_chunks_loop]. pose proof (utf8_next_pos (x :: bs) ltac:(done)) as Hp.
  destruct (utf8_next (x :: bs)) as [ok k]. rewrite fmap_cons. cbn [snd concat].
  simpl in Hp. rewrite IH.
  - apply take_drop.
  - rewrite length_drop. simpl in *. lia.
Qed.

Lemma from_utf8_lossy_valid bs : utf8_valid bs = true → from_utf8_lossy bs = bs.
Proof.
  intros Hv. rewrite <-(utf8_chunks_concat bs) at 2. unfold from_utf8_lossy, utf8_valid in *.
  revert Hv. generalize (utf8_chunks bs). clear.
  induction l as [|[ok c] l IH]; [done|]. simpl. intros [-> Hl]%andb_true_iff.
  by rewrite IH.
Qed.

(** ASCII text is valid. *)
Lemma utf8_valid_ascii bs : Forall (λ x, 0 ≤ x < 0x80) bs → utf8_valid bs = true.
Proof.
  unfold utf8_valid, utf8_chunks. induction 1 as [|x bs Hx Hbs IH]; [done|].
  cbn [length utf8_chunks_loop utf8_next]. destruct (Z.ltb_spec x 128); [|lia]. done.
Qed.

(** Splitting the bytes at a position into the fields read from them. *)
Lemma reads_encode data pos n z bs :
  reads data pos (le_encode n z ++ bs) ↔
  reads data pos (le_encode n z) ∧ reads data (pos + Z.of_nat n) bs.
Proof. by rewrite reads_app, le_encode_length. Qed.

Lemma reads_all data : reads data 0 data.
Proof. split; [lia|]. simpl. by exists []; rewrite app_nil_r. Qed.

Lemma reads_length data pos bs : reads data pos bs → bs ≠ [] →
  pos + blen bs ≤ blen data.
Proof.
  intros (? & k & Hk) Hne. apply (f_equal length) in Hk.
  rewrite length_drop, length_app in Hk.
  destruct bs; [done|]. simpl in *. lia.
Qed.

(** Runs the read at the head of a sequence by the lemma given for it. *)
Ltac read_by lem := erewrite st_bind_ok; [|solve [eapply lem; first [eassumption | lia | done]]].

(** ** Readers that cannot panic

    [safe m Q]: from any position, [m] returns a value that satisfies [Q], or
    an error; the position stays non-negative. *)

Definition safe {E A} (m : st Z E A) (Q : A → Prop) : Prop := ∀ pos, 0 ≤ pos →
  match m pos with
  | (pos', Ok a) => 0 ≤ pos' ∧ Q a
  | (_, Err _) => True
  | (_, Panic) => False
  end.

Lemma safe_ret {E A} (a : A) (Q : A → Prop) : Q a → safe (mret a : st Z E A) Q.
Proof. intros HQ pos Hp. by split. Qed.

Lemma safe_bind {E A B} (m : st Z E A) (k : A → st Z E B) Q R :
  safe m Q → (∀ a, Q a → safe (k a) R) → safe (m ≫= k) R.
Proof.
  intros Hm Hk pos Hp. unfold mbind, st_bind. specialize (Hm pos Hp).
  destruct (m pos) as [pos' [a|e|]]; [|done..]. destruct Hm as [Hp' Ha].
  by apply Hk.
Qed.

Lemma safe_fmap {E A B} (m : st Z E A) (f : A → B) (Q : A → Prop) (R : B → Prop) :
  safe m Q → (∀ a, Q a → R (f a)) → safe (f <$> m) R.
Proof.
  intros Hm Hf pos Hp. unfold fmap, st_fmap. specialize (Hm pos Hp).
  destruct (m pos) as [pos' [a|e|]]; [|done..]. destruct Hm. auto.
Qed.

Lemma safe_mono {E A} (m : st Z E A) (Q R : A → Prop) :
  safe m Q → (∀ a, Q a → R a) → safe m R.
Proof.
  intros Hm HQ pos Hp. specialize (Hm pos Hp).
  destruct (m pos) as [pos' [a|e|]]; [|done..]. destruct Hm. auto.
Qed.

Lemma safe_seek {E} pos : 0 ≤ pos → safe (seek pos : st Z E unit) (λ _, True).
Proof. intros Hp p _. by split. Qed.

Lemma safe_lift {E A} (o : outcome E A) Q : (∀ a, o = Ok a → Q a) → o ≠ Panic →
  safe (st_lift o) Q.
Proof. intros HQ Ho pos Hp. unfold st_lift. destruct o; [by split; auto|done..]. Qed.

Section safe_readers.
Context {E : Type} `{FromIo E} `{ByteOrder, !ByteOrderLaws}.
Variable data : bytes.
Hypothesis Hdata : is_bytes data.

Lemma reads_bytes pos bs : reads data pos bs → is_bytes bs.
Proof.
  intros (_ & k & Hk). assert (is_bytes (bs ++ k)) as Hb
    by (rewrite <-Hk; by apply Forall_drop).
  by apply Forall_app in Hb as [].
Qed.

Lemma safe_read_exact n : 0 ≤ n →
  safe (E:=E) (read_exact data n) (λ bs, is_bytes bs ∧ blen bs = n).
Proof.
  intros Hn pos Hp.
  destruct (read_exact_cases (E:=E) data n pos Hp Hn) as [(bs & Hl & Hr & ->)|[_ ->]]; [|done].
  split; [lia|]. split; [by eapply reads_bytes|done].
Qed.

Lemma safe_read_uint n : 0 ≤ n →
  safe (E:=E) (read_uint data n) (λ z, in_u (8 * n) z).
Proof.
  intros Hn. eapply safe_fmap; [by apply safe_read_exact|].
  intros bs [Hb Hl]. rewrite read_le_spec by done.
  pose proof (le_decode_range bs Hb) as Hr. rewrite Hl in Hr.
  unfold in_u. by rewrite Z.pow_mul_r by lia.
Qed.

Lemma safe_read_u8 : safe (E:=E) (read_u8 data) is_byte.
Proof.
  eapply safe_bind; [by apply (safe_read_exact 1)|]. intros bs [Hb Hl]. apply safe_ret.
  destruct Hb; [done|]. done.
Qed.
Lemma safe_read_u16 : safe (E:=E) (read_u16 data) (in_u 16).
Proof. by apply (safe_read_uint 2). Qed.
Lemma safe_read_u32 : safe (E:=E) (read_u32 data) (in_u 32).
Proof. by apply (safe_read_uint 4). Qed.
Lemma safe_read_u64 : safe (E:=E) (read_u64 data) (in_u 64).
Proof. by apply (safe_read_uint 8). Qed.

Lemma to_signed_range w z : 0 < w → - 2 ^ (w - 1) ≤ to_signed w z < 2 ^ (w - 1).
Proof.
  intros Hw. unfold to_signed. pose proof (wrap_range w z ltac:(lia)) as Hr.
  unfold in_u in Hr.
  assert (Hp : 2 ^ w = 2 * 2 ^ (w - 1)).
  { rewrite <-Z.pow_succ_r by lia. f_equal. lia. }
  case_decide; lia.
Qed.

Lemma safe_read_i32 : safe (E:=E) (read_i32 data) (λ z, - 2 ^ 31 ≤ z < 2 ^ 31).
Proof.
  eapply safe_fmap; [by apply (safe_read_uint 4)|]. intros.
  by apply (to_signed_range 32).
Qed.
Lemma safe_read_i64 : safe (E:=E) (read_i64 data) (λ z, - 2 ^ 63 ≤ z < 2 ^ 63).
Proof.
  eapply safe_fmap; [by apply (safe_read_uint 8)|]. intros.
  by apply (to_signed_range 64).
Qed.

End safe_readers.

(** ** Readers of a fixed width *)

Definition advances {E A} (data : bytes) (m : st Z E A) (k : Z) : Prop :=
  0 ≤ k ∧ ∀ pos pos' a, 0 ≤ pos ≤ blen data → m pos = (pos', Ok a) →
    pos' = pos + k ∧ pos' ≤ blen data.

Lemma advances_ret {E A} data (a : A) : advances data (mret a : st Z E A) 0.
Proof. split; [done|]. intros pos pos' a' ? [= <- <-]. lia. Qed.

Lemma advances_bind {E A B} data (m : st Z E A) (k : A → st Z E B) i j :
  advances data m i → 0 ≤ j → (∀ a, advances data (k a) j) →
  advances data (m ≫= k) (i + j).
Proof.
  intros [Hi Hm] Hj Hk. split; [lia|]. intros pos pos' b Hp E1.
  unfold mbind, st_bind in E1. destruct (m pos) as [p [a|e|]] eqn:Em; [|done..].
  apply Hm in Em as [-> ?]; [|done]. apply (Hk a) in E1; lia.
Qed.

Lemma advances_fmap {E A B} data (m : st Z E A) (f : A → B) i :
  advances data m i → advances data (f <$> m) i.
Proof.
  intros [Hi Hm]. split; [done|]. intros pos pos' b Hp E1. unfold fmap, st_fmap in E1.
  destruct (m pos) as [p [a|e|]] eqn:Em; [|done..]. injection E1 as <- <-. eauto.
Qed.

Lemma advances_read_n {E A} data n (m : st Z E A) k : advances data m k →
  advances data (read_n n m) (Z.of_nat n * k).
Proof.
  intros Hm. induction n as [|n IH]; [apply advances_ret|]. cbn [read_n].
  replace (Z.of_nat (S n) * k) with (k + Z.of_nat n * k) by lia.
  destruct Hm as [Hk Hm]. apply advances_bind; [by split|lia|]. intros a.
  replace (Z.of_nat n * k) with (Z.of_nat n * k + 0) by lia.
  apply advances_bind; [done|lia|]. intros l. apply advances_ret.
Qed.

Section advances_readers.
Context {E : Type} `{FromIo E} `{ByteOrder}.
Variable data : bytes.

Lemma advances_read_exact n : 0 ≤ n → advances (E:=E) data (read_exact data n) n.
Proof.
  intros Hn. split; [done|]. intros pos pos' a Hp E1.
  destruct (read_exact_cases (E:=E) data n pos) as [(bs & Hl & Hr & E2)|[_ E2]];
    [lia|done| |congruence].
  rewrite E2 in E1. injection E1 as <- <-. split; [done|].
  destruct (decide (bs = [])) as [->|Hne]; [simpl in *; lia|].
  pose proof (reads_length _ _ _ Hr Hne). lia.
Qed.

Lemma advances_read_u8 : advances (E:=E) data (read_u8 data) 1.
Proof.
  apply (advances_bind data _ _ 1 0); [by apply advances_read_exact|done|].
  intros. apply advances_ret.
Qed.
Lemma advances_read_u16 : advances (E:=E) data (read_u16 data) 2.
Proof. by apply advances_fmap, advances_read_exact. Qed.
Lemma advances_read_u32 : advances (E:=E) data (read_u32 data) 4.
Proof. by apply advances_fmap, advances_read_exact. Qed.
Lemma advances_read_u64 : advances (E:=E) data (read_u64 data) 8.
Proof. by apply advances_fmap, advances_read_exact. Qed.

End advances_readers.

#[export] Hint Resolve advances_read_u8 advances_read_u16 advances_read_u32
  advances_read_u64 : safe.

Lemma safe_read_n {E A} n (m : st Z E A) Q : safe m Q →
  safe (read_n n m) (λ l, Forall Q l ∧ length l = n).
Proof.
  intros Hm. induction n as [|n IH]; [by apply safe_ret|]. cbn [read_n].
  eapply safe_bind; [done|]. intros a Ha. eapply safe_bind; [done|]. intros l [Hl Hn].
  apply safe_ret. split; [by constructor|]. simpl. by rewrite Hn.
Qed.

#[export] Hint Resolve safe_read_u8 safe_read_u16 safe_read_u32 safe_read_u64
  safe_read_i32 safe_read_i64 : safe.

(** Runs the reader at the head of a sequence, naming what it yields. *)
Ltac safe_step :=
  eapply safe_bind; [solve [eauto with safe]|]; intros ? ?.

Lemma reads_byte data pos x l bs :
  reads data pos ((x :: l) ++ bs) ↔ reads data pos [x] ∧ reads data (pos + 1) (l ++ bs).
Proof. change ((x :: l) ++ bs) with ([x] ++ (l ++ bs)). by rewrite reads_app. Qed.

Lemma reads_nil_app data pos bs : reads data pos ([] ++ bs) ↔ reads data pos bs.
Proof. done. Qed.

Lemma reads_encode2 data pos z bs : reads data pos (le_encode 2 z ++ bs) ↔
  reads data pos (le_encode 2 z) ∧ reads data (pos + 2) bs.
Proof. apply (reads_encode data pos 2). Qed.
Lemma reads_encode4 data pos z bs : reads data pos (le_encode 4 z ++ bs) ↔
  reads data pos (le_encode 4 z) ∧ reads data (pos + 4) bs.
Proof. apply (reads_encode data pos 4). Qed.
Lemma reads_encode8 data pos z bs : reads data pos (le_encode 8 z ++ bs) ↔
  reads data pos (le_encode 8 z) ∧ reads data (pos + 8) bs.
Proof. apply (reads_encode data pos 8). Qed.

(** Splits a record of fields, then runs the reads of its fields one by one. *)
Ltac split_reads H :=
  repeat match type of H with
  | reads _ _ (le_encode 2 _ ++ _) =>
      let R := fresh "R" in apply (proj1 (reads_encode2 _ _ _ _)) in H as [R H]
  | reads _ _ (le_encode 4 _ ++ _) =>
      let R := fresh "R" in apply (proj1 (reads_encode4 _ _ _ _)) in H as [R H]
  | reads _ _ (le_encode 8 _ ++ _) =>
      let R := fresh "R" in apply (proj1 (reads_encode8 _ _ _ _)) in H as [R H]
  | reads _ _ ((_ :: _) ++ _) =>
      let R := fresh "R" in apply (proj1 (reads_byte _ _ _ _ _)) in H as [R H]
  | reads _ _ ([] ++ _) => apply (proj1 (reads_nil_app _ _ _)) in H
  end.

Ltac read_field :=
  erewrite st_bind_ok; [|first
    [ eapply read_u8_reads; eassumption
    | eapply read_u16_encode; [eassumption|assumption]
    | eapply read_u32_encode; [eassumption|assumption]
    | eapply read_u64_encode; [eassumption|assumption] ]].

(** The field a read that returned went through. *)
Ltac found_field Hb H :=
  let p := fresh "p" in let v := fresh "v" in let E := fresh "E" in let R := fresh "R" in
  apply st_bind_inv in H as (p & v & E & H);
  first
    [ apply read_u8_found in E as [-> R]; [|lia]
    | apply read_u16_found in E as [-> R]; [|exact Hb|lia]
    | apply read_u32_found in E as [-> R]; [|exact Hb|lia]
    | apply read_u64_found in E as [-> R]; [|exact Hb|lia] ].

Lemma read_n_found {E A} data (m : st Z E A) (enc : A → bytes) k n :
  0 ≤ k → (∀ a, blen (enc a) = k) →
  (∀ pos pos' a, 0 ≤ pos → m pos = (pos', Ok a) → pos' = pos + k ∧ reads data pos (enc a)) →
  ∀ pos pos' l, 0 ≤ pos → read_n n m pos = (pos', Ok l) → reads data pos (concat (enc <$> l)).
Proof.
  intros Hk Hlen Hm. induction n as [|n IH]; intros pos pos' l Hp Hr; cbn [read_n] in Hr.
  { injection Hr as _ <-. by apply reads_nil. }
  apply st_bind_inv in Hr as (p1 & a & E1 & Hr). apply Hm in E1 as [-> Ha]; [|done].
  apply st_bind_inv in Hr as (p2 & l' & E2 & Hr). injection Hr as _ <-.
  cbn [fmap list_fmap concat]. apply reads_app. split; [done|]. rewrite Hlen.
  eapply IH; [|exact E2]. lia.
Qed.

(** A table of records of [k] bytes each. *)
Lemma read_n_encode {E A} data (m : st Z E A) (enc : A → bytes) (P : A → Prop) k :
  (∀ a, P a → blen (enc a) = k) →
  (∀ pos a, reads data pos (enc a) → P a → m pos = (pos + k, Ok a)) →
  ∀ l pos, reads data pos (concat (enc <$> l)) → Forall P l →
  read_n (length l) m pos = (pos + k * Z.of_nat (length l), Ok l).
Proof.
  intros Hk Hm l pos Hr Hl. revert pos Hr. induction Hl as [|a l Ha _ IH]; intros pos Hr.
  { simpl. unfold mret, st_ret. f_equal. lia. }
  rewrite fmap_cons in Hr. cbn [concat] in Hr. apply reads_app in Hr as [H1 H2].
  rewrite (Hk a Ha) in H2. cbn [length read_n].
  erewrite st_bind_ok by by apply Hm.
  erewrite st_bind_ok by by apply IH. unfold mret, st_ret. f_equal. lia.
Qed.

Lemma blen_concat {A} (enc : A → bytes) (P : A → Prop) k l :
  (∀ a, P a → blen (enc a) = k) → Forall P l →
  blen (concat (enc <$> l)) = k * Z.of_nat (length l).
Proof.
  intros Hk. induction 1 as [|a l Ha _ IH]; [simpl; lia|].
  rewrite fmap_cons. cbn [concat]. rewrite length_app, Nat2Z.inj_add, IH, (Hk a Ha).
  simpl length. lia.
Qed.
