(* ===== verification/GuestMemory.v ===== *)
(** * Guest memory, byte by byte

    The guest shares the address space of the emulator, so guest memory is the
    memory raw pointers reach: a partial map from addresses to bytes, whose domain
    is what is mapped.  A load or store of an unmapped byte is a fault.  Page
    permissions are not part of the model.  [halt] is the ways in which control
    does not come back to the code that runs. *)

From S2P Require Import Prelude Bytes.

Open Scope rust_scope.

Abbreviation memory := (gmap Z Z).

Inductive halt :=
| Fault (addr : Z)
| Exited (code : Z)
| Aborted.

#[export] Instance halt_eq_dec : EqDecision halt.
Proof. solve_decision. Defined.

Fixpoint load_bytes (m : memory) (a : Z) (n : nat) : option bytes :=
  match n with
  | O => Some []
  | S n' => b ← m !! a; bs ← load_bytes m (a + 1) n'; Some (b :: bs)
  end.

Fixpoint write_bytes (bs : bytes) (a : Z) (m : memory) : memory :=
  match bs with
  | [] => m
  | b :: bs' => write_bytes bs' (a + 1) (<[a := b]> m)
  end.

Definition store_bytes (m : memory) (a : Z) (bs : bytes) : option memory :=
  if load_bytes m a (length bs) is Some _ then Some (write_bytes bs a m) else None.

(** A load and a store of an [n]-byte integer. *)
Definition load (n : nat) (m : memory) (a : Z) : outcome halt Z :=
  ok_or (le_decode <$> load_bytes m a n) (Fault a).

Definition store (n : nat) (m : memory) (a v : Z) : outcome halt memory :=
  ok_or (store_bytes m a (le_encode n v)) (Fault a).

(** A fresh anonymous mapping reads as zeros (mmap(2)). *)
Definition map_zeros (addr size : Z) (m : memory) : memory :=
  write_bytes (replicate (Z.to_nat size) 0) addr m.

(** ** Lemmas *)

Definition mapped (m : memory) (a n : Z) : Prop :=
  ∀ x, a ≤ x < a + n → is_Some (m !! x).

Lemma mapped_weaken m a n a' n' : mapped m a n → a ≤ a' → a' + n' ≤ a + n → mapped m a' n'.
Proof. intros Hm ? ? x ?. apply Hm. lia. Qed.

Lemma load_bytes_Some m a n bs : load_bytes m a n = Some bs ↔
  length bs = n ∧ ∀ i b, bs !! i = Some b → m !! (a + Z.of_nat i) = Some b.
Proof.
  revert a bs. induction n as [|n IH]; intros a bs; cbn [load_bytes].
  { split; [by intros [= <-]|]. by intros [->%nil_length_inv _]. }
  split.
  - intros (b & Hb & (bs' & [Hl Hbs]%IH & [= <-])%bind_Some)%bind_Some. split; [by simpl; rewrite Hl|].
    intros [|i] b' Hi; simpl in Hi; [by rewrite Z.add_0_r; simplify_eq|].
    apply Hbs in Hi. by replace (a + Z.of_nat (S i)) with (a + 1 + Z.of_nat i) by lia.
  - intros [Hl Hbs]. destruct bs as [|b bs]; [done|]. simpl in Hl.
    assert (m !! a = Some b) as ->.
    { rewrite <-(Z.add_0_r a). by apply (Hbs 0%nat). }
    cbn.
    assert (load_bytes m (a + 1) n = Some bs) as ->; [|done].
    apply IH. split; [lia|]. intros i b' Hi.
    replace (a + 1 + Z.of_nat i) with (a + Z.of_nat (S i)) by lia. by apply Hbs.
Qed.

Lemma load_bytes_mapped m a n : is_Some (load_bytes m a n) ↔ mapped m a (Z.of_nat n).
Proof.
  revert a. induction n as [|n IH]; intros a; cbn [load_bytes].
  { split; [|by eexists]. intros _ x. lia. }
  split.
  - intros [bs (b & Hb & (bs' & Hbs & _)%bind_Some)%bind_Some] x Hx.
    destruct (decide (x = a)) as [->|]; [by eexists|].
    apply (proj1 (IH (a + 1)) (mk_is_Some _ _ Hbs)). lia.
  - intros Hm. destruct (Hm a ltac:(lia)) as [b ->].
    destruct (proj2 (IH (a + 1))) as [bs ->]; [|by eexists].
    eapply mapped_weaken; [done|lia..].
Qed.

Lemma write_bytes_lookup bs a m x : write_bytes bs a m !! x =
  if in_range a (a + blen bs) x then bs !! Z.to_nat (x - a) else m !! x.
Proof.
  revert a m. induction bs as [|b bs IH]; intros a m; cbn [write_bytes length].
  { case_range; [lia|done]. }
  rewrite IH. repeat case_range; try lia; try done.
  - replace (Z.to_nat (x - a)) with (S (Z.to_nat (x - (a + 1)))) by lia. done.
  - assert (x = a) as -> by lia. by rewrite lookup_insert_eq, Z.sub_diag.
  - by rewrite lookup_insert_ne by lia.
Qed.

Lemma store_bytes_Some m a bs m' : store_bytes m a bs = Some m' ↔
  mapped m a (blen bs) ∧ m' = write_bytes bs a m.
Proof.
  unfold store_bytes. rewrite <-load_bytes_mapped.
  destruct (load_bytes m a (length bs)); split; [|naive_solver..].
  intros [= <-]. split; [by eexists|done].
Qed.

(** Writing mapped bytes maps nothing new. *)
Lemma write_bytes_app b1 b2 a m :
  write_bytes (b1 ++ b2) a m = write_bytes b2 (a + blen b1) (write_bytes b1 a m).
Proof.
  apply map_eq. intros x. rewrite !write_bytes_lookup, length_app. repeat case_range;
    first [lia|done|rewrite lookup_app_r by lia; f_equal; lia|by rewrite lookup_app_l by lia].
Qed.

Lemma write_bytes_mapped bs a m b n : mapped m a (blen bs) →
  mapped (write_bytes bs a m) b n ↔ mapped m b n.
Proof.
  intros Hm. unfold mapped. split; intros Hb x Hx; specialize (Hb x Hx).
  - rewrite write_bytes_lookup in Hb. case_range; [by apply Hm|done].
  - rewrite write_bytes_lookup. case_range; [|done]. apply lookup_lt_is_Some_2. lia.
Qed.

Lemma write_bytes_dom bs a m : mapped m a (blen bs) → dom (write_bytes bs a m) = dom m.
Proof.
  intros Hm. apply set_eq. intros x. rewrite !elem_of_dom, write_bytes_lookup. case_range; [|done].
  split; intros _; [by apply Hm|]. apply lookup_lt_is_Some. lia.
Qed.

Lemma load_write_same bs a m : load_bytes (write_bytes bs a m) a (length bs) = Some bs.
Proof.
  apply load_bytes_Some. split; [done|]. intros i b Hi. pose proof (lookup_lt_Some _ _ _ Hi).
  rewrite write_bytes_lookup. case_range; [|lia]. rewrite <-Hi. f_equal. lia.
Qed.

Lemma load_bytes_agree m m' a n : (∀ x, a ≤ x < a + Z.of_nat n → m !! x = m' !! x) →
  load_bytes m a n = load_bytes m' a n.
Proof.
  revert a. induction n as [|n IH]; intros a Ha; [done|]. cbn [load_bytes].
  rewrite (Ha a) by lia. destruct (m' !! a); [|done]. cbn.
  rewrite IH; [done|]. intros x Hx. apply Ha. lia.
Qed.

Lemma load_write_disjoint bs a m b n : b + Z.of_nat n ≤ a ∨ a + blen bs ≤ b →
  load_bytes (write_bytes bs a m) b n = load_bytes m b n.
Proof.
  intros Hd. apply load_bytes_agree. intros x Hx. rewrite write_bytes_lookup.
  case_range; [lia|done].
Qed.

(** Loads and stores of integers. *)
Lemma load_Ok n m a v : load n m a = Ok v ↔ ∃ bs, load_bytes m a n = Some bs ∧ v = le_decode bs.
Proof. unfold load. destruct (load_bytes m a n); cbn; naive_solver. Qed.

Lemma load_total n m a : mapped m a (Z.of_nat n) → ∃ v, load n m a = Ok v.
Proof. intros [bs E]%load_bytes_mapped. exists (le_decode bs). apply load_Ok. eauto. Qed.

Lemma load_fault n m a : ¬ mapped m a (Z.of_nat n) → load n m a = Err (Fault a).
Proof.
  intros Hn. unfold load. destruct (load_bytes m a n) eqn:E; [|done].
  destruct Hn. apply load_bytes_mapped. by eexists.
Qed.

Lemma store_Ok n m a v m' : store n m a v = Ok m' ↔
  mapped m a (Z.of_nat n) ∧ m' = write_bytes (le_encode n v) a m.
Proof.
  unfold store. rewrite <-(le_encode_length n v) at 2. rewrite <-store_bytes_Some.
  destruct (store_bytes m a (le_encode n v)); cbn; naive_solver.
Qed.

Lemma store_total n m a v : mapped m a (Z.of_nat n) →
  store n m a v = Ok (write_bytes (le_encode n v) a m).
Proof. intros Hm. by apply store_Ok. Qed.

Lemma store_fault n m a v : ¬ mapped m a (Z.of_nat n) → store n m a v = Err (Fault a).
Proof.
  intros Hm. unfold store. destruct (store_bytes m a _) as [m'|] eqn:E; [|done].
  apply store_bytes_Some in E as [E _]. by rewrite le_encode_length in E.
Qed.

Lemma load_store_same n m a v m' : store n m a v = Ok m' → 0 ≤ v < 256 ^ Z.of_nat n →
  load n m' a = Ok v.
Proof.
  intros [Hm ->]%store_Ok Hv. apply load_Ok. exists (le_encode n v).
  rewrite le_decode_encode by done. split; [|done].
  rewrite <-(le_encode_length n v) at 2. apply load_write_same.
Qed.

Lemma load_store_disjoint n k m a b v m' : store n m a v = Ok m' →
  b + Z.of_nat k ≤ a ∨ a + Z.of_nat n ≤ b → load k m' b = load k m b.
Proof.
  intros [Hm ->]%store_Ok Hd. unfold load. rewrite load_write_disjoint; [done|].
  by rewrite le_encode_length.
Qed.

Lemma load1 m a b : m !! a = Some b → load 1 m a = Ok b.
Proof.
  intros Hb. apply load_Ok. exists [b].
  cbn [load_bytes]. rewrite Hb. split; [done|]. change (le_decode [b]) with (b + 256 * 0).
  lia.
Qed.

Lemma load1_fault m a : m !! a = None → load 1 m a = Err (Fault a).
Proof.
  intros Ha. apply load_fault. intros Hm. destruct (Hm a) as [? ?]; [lia|congruence].
Qed.

Lemma load_agree n m m' a : (∀ x, a ≤ x < a + Z.of_nat n → m !! x = m' !! x) →
  load n m a = load n m' a.
Proof. intros Hm. unfold load. by rewrite (load_bytes_agree _ _ _ _ Hm). Qed.

Lemma mapped1 m a : is_Some (m !! a) → mapped m a 1.
Proof. intros Ha x Hx. by replace x with a by lia. Qed.

Lemma store1 m a b : is_Some (m !! a) → is_byte b → store 1 m a b = Ok (<[a := b]> m).
Proof.
  intros Ha Hb. rewrite store_total by by apply mapped1. unfold le_encode. cbn [write_bytes].
  by rewrite Z.mod_small.
Qed.

(** [bs] lies in memory at [y]. *)
Definition bytes_at (bs : bytes) (m : memory) (y : Z) : Prop :=
  load_bytes m y (length bs) = Some bs.

#[export] Instance bytes_at_dec bs m y : Decision (bytes_at bs m y).
Proof. unfold bytes_at; apply _. Defined.

Lemma bytes_at_lookup bs m y : bytes_at bs m y ↔
  ∀ k b, bs !! k = Some b → m !! (y + Z.of_nat k) = Some b.
Proof. unfold bytes_at. rewrite load_bytes_Some. naive_solver. Qed.

Lemma bytes_at_agree bs m m' y : (∀ x, y ≤ x < y + blen bs → m !! x = m' !! x) →
  bytes_at bs m y ↔ bytes_at bs m' y.
Proof. intros Hm. unfold bytes_at. by rewrite (load_bytes_agree _ _ _ _ Hm). Qed.

Lemma mapped_load_bytes m a n : mapped m a n ↔ is_Some (load_bytes m a (Z.to_nat n)).
Proof. rewrite load_bytes_mapped. split; intros Hm x Hx; apply Hm; lia. Qed.

#[export] Instance mapped_dec m a n : Decision (mapped m a n).
Proof.
  refine (cast_if (decide (is_Some (load_bytes m a (Z.to_nat n)))));
    by rewrite mapped_load_bytes.
Defined.

Lemma bytes_at_app b1 b2 m y :
  bytes_at (b1 ++ b2) m y ↔ bytes_at b1 m y ∧ bytes_at b2 m (y + blen b1).
Proof.
  rewrite !bytes_at_lookup. split; [intros Hb; split|intros [H1 H2]].
  - intros k b Hk. apply Hb. rewrite lookup_app_l; [done|]. by eapply lookup_lt_Some.
  - intros k b Hk. replace (y + blen b1 + Z.of_nat k) with (y + Z.of_nat (length b1 + k)) by lia.
    apply Hb. rewrite lookup_app_r by lia. by replace (length b1 + k - length b1)%nat with k by lia.
  - intros k b [Hk|[Hl Hk]]%lookup_app_Some; [by apply H1|].
    replace (y + Z.of_nat k) with (y + blen b1 + Z.of_nat (k - length b1)) by lia. by apply H2.
Qed.

Lemma bytes_at_write bs m y : bytes_at bs (write_bytes bs y m) y.
Proof. apply load_write_same. Qed.

Lemma map_zeros_lookup addr size m x : 0 ≤ size →
  map_zeros addr size m !! x = if in_range addr (addr + size) x then Some 0 else m !! x.
Proof.
  intros Hs. unfold map_zeros. rewrite write_bytes_lookup, length_replicate, Z2Nat.id by lia.
  case_range; [|done]. apply lookup_replicate_2. lia.
Qed.

Lemma map_zeros_mapped addr size m : 0 ≤ size → mapped (map_zeros addr size m) addr size.
Proof. intros Hs x Hx. rewrite map_zeros_lookup by done. by case_range; [|lia]. Qed.

(** ** Memory of bytes, and computations that stop only by a fault *)

Definition mem_ok (m : memory) : Prop := map_Forall (λ _ b, is_byte b) m.

#[export] Instance mem_ok_dec m : Decision (mem_ok m).
Proof. unfold mem_ok; apply _. Defined.

Definition safe {A} (o : outcome halt A) (Q : A → Prop) : Prop :=
  match o with
  | Ok a => Q a
  | Err (Fault _) => True
  | _ => False
  end.

Create HintDb guest.

Lemma guest_ret {A} (a : A) (Q : A → Prop) : Q a → safe (mret a) Q.
Proof. done. Qed.

Lemma guest_bind {A B} (o : outcome halt A) (k : A → outcome halt B) P Q :
  safe o P → (∀ a, P a → safe (k a) Q) → safe (o ≫= k) Q.
Proof. destruct o as [a|[]|]; cbn; auto. Qed.

Lemma guest_mono {A} (o : outcome halt A) (P Q : A → Prop) :
  safe o P → (∀ a, P a → Q a) → safe o Q.
Proof. destruct o as [a|[]|]; cbn; auto. Qed.

Lemma load_bytes_ok m a n bs : mem_ok m → load_bytes m a n = Some bs → is_bytes bs.
Proof.
  intros Hm [_ Hb]%load_bytes_Some. apply Forall_lookup. intros i b Hi. eapply Hm, Hb, Hi.
Qed.

Lemma write_bytes_ok bs a m : mem_ok m → is_bytes bs → mem_ok (write_bytes bs a m).
Proof.
  intros Hm Hbs. apply map_Forall_lookup. intros x b. rewrite write_bytes_lookup. case_range.
  - intros Hx. by eapply Forall_lookup_1.
  - apply Hm.
Qed.

Lemma load_safe n m a : mem_ok m → safe (load n m a) (λ v, 0 ≤ v < 256 ^ Z.of_nat n).
Proof.
  intros Hm. unfold load. destruct (load_bytes m a n) as [bs|] eqn:E; [|done]. cbn.
  pose proof (le_decode_range bs (load_bytes_ok _ _ _ _ Hm E)) as Hr.
  apply load_bytes_Some in E as [Hl _]. by rewrite Hl in Hr.
Qed.

Lemma store_bytes_safe m a bs x : mem_ok m → is_bytes bs →
  safe (ok_or (store_bytes m a bs) (Fault x)) mem_ok.
Proof.
  intros Hm Hbs. destruct (store_bytes m a bs) as [m'|] eqn:E; [|done]. cbn.
  apply store_bytes_Some in E as [_ ->]. by apply write_bytes_ok.
Qed.

Lemma store_safe n m a v : mem_ok m → safe (store n m a v) mem_ok.
Proof. intros Hm. apply store_bytes_safe; [done|apply le_encode_bytes]. Qed.

Lemma map_zeros_ok addr size m : mem_ok m → mem_ok (map_zeros addr size m).
Proof. intros Hm. apply write_bytes_ok; [done|]. by apply Forall_replicate. Qed.

#[export] Hint Resolve load_safe store_safe map_zeros_ok : guest.

(** Goes through the binds and branches of a computation; calls are discharged by
    the database. *)
Ltac safe_step :=
  match goal with
  | |- safe (_ ≫= _) _ => eapply guest_bind; [solve [eauto with guest]|intros ? ?]
  | |- safe (mret _) _ => apply guest_ret
  | |- safe (Ok _) _ => apply guest_ret
  | |- safe (if ?b then _ else _) _ => destruct b eqn:?
  | |- safe (let '(_, _) := ?p in _) _ => destruct p
  | |- safe (match ?x with Some _ => _ | None => _ end) _ => destruct x eqn:?
  end.
Ltac safe_steps := repeat safe_step; try solve [eauto with guest].
