(* ===== verification/UnixPath.v ===== *)
(** * Paths (std::path, on Unix)

    A path is the list of its components, as [Path::components] yields them:
    repeated and trailing separators and inner [.] components are not part of it.
    Component texts are bytes. *)

From S2P Require Import Prelude Bytes.

Record path := { absolute : bool; comps : list bytes }.

#[export] Instance path_eq_dec : EqDecision path.
Proof. solve_decision. Defined.

(** The pieces between separators (byte 47). *)
Fixpoint split_slash (bs acc : bytes) : list bytes :=
  match bs with
  | [] => [rev acc]
  | b :: bs' => if b =? 47 then rev acc :: split_slash bs' [] else split_slash bs' (b :: acc)
  end.

Definition cur_dir : bytes := [46].
Definition parent_dir : bytes := [46; 46].

(** A leading [.] of a relative path is a component; others are dropped. *)
Definition normalize (keep_first : bool) (cs : list bytes) : list bytes :=
  match cs with
  | c :: cs' =>
      (if decide (c = []) then []
       else if decide (c = cur_dir) then (if keep_first then [c] else []) else [c])
      ++ filter (λ c, c ≠ [] ∧ c ≠ cur_dir) cs'
  | [] => []
  end.

Definition from_bytes (bs : bytes) : path :=
  let absolute := match bs with b :: _ => b =? 47 | [] => false end in
  {| absolute := absolute; comps := normalize (negb absolute) (split_slash bs []) |}.

(** [Path::file_name]: the last component, when it names something. *)
Definition file_name (p : path) : option bytes :=
  match last (comps p) with
  | Some c => if decide (c = parent_dir ∨ c = cur_dir) then None else Some c
  | None => None
  end.

(** [Path::parent]. *)
Definition parent (p : path) : option path :=
  match comps p with
  | [] => None
  | cs => Some {| absolute := absolute p; comps := removelast cs |}
  end.

(** [Path::join]: an absolute path replaces, a relative one extends. *)
Definition join (p : path) (bs : bytes) : path :=
  let q := from_bytes bs in
  if absolute q then q
  else
    {| absolute := absolute p;
       comps := comps p ++
         (if absolute p || negb (bool_decide (comps p = []))
          then filter (λ c, c ≠ cur_dir) (comps q) else comps q) |}.

(** ** Lemmas *)

Lemma file_name_comps p name : file_name p = Some name →
  last (comps p) = Some name ∧ name ≠ parent_dir ∧ name ≠ cur_dir.
Proof.
  unfold file_name. destruct (last (comps p)) as [c|]; [|done].
  case_decide as Hc; [done|]. intros [= ->]. naive_solver.
Qed.

Example join_examples :
  join (from_bytes (str "/games/app")) (str "./data//save.bin") =
    from_bytes (str "/games/app/data/save.bin") ∧
  join (from_bytes (str "/games/app")) (str "/etc/passwd") = from_bytes (str "/etc/passwd") ∧
  file_name (from_bytes (str "/games/app/eboot.bin/")) = Some (str "eboot.bin") ∧
  file_name (from_bytes (str "/games/..")) = None ∧
  parent (from_bytes (str "eboot.bin")) = Some (from_bytes []).
Proof. split_and!; vm_compute; reflexivity. Qed.

(** ** Mount points

    A map from guest path prefixes to host directories; both file layers resolve a
    guest path by its first mount, in the order of the hash map, whose key is a
    prefix of the text. *)
Module Mounts.

Abbreviation mounts := (gmap bytes path).

(** The order in which the hash map is iterated. *)
Class MountOrder := mount_iter : mounts → list (bytes * path).
Class MountOrderLaws `{MountOrder} : Prop :=
  mount_iter_perm m : mount_iter m ≡ₚ map_to_list m.

(** [trim_start_matches('/')]. *)
Fixpoint trim_slashes (bs : bytes) : bytes :=
  match bs with
  | b :: bs' => if b =? 47 then trim_slashes bs' else bs
  | [] => []
  end.

Definition mount_target (prefix : bytes) (host_base : path) (ps4_path : bytes) : path :=
  join host_base (trim_slashes (drop (length prefix) ps4_path)).

Fixpoint first_mount (ms : list (bytes * path)) (ps4_path : bytes) : option path :=
  match ms with
  | [] => None
  | (prefix, host_base) :: ms' =>
      if decide (prefix `prefix_of` ps4_path) then Some (mount_target prefix host_base ps4_path)
      else first_mount ms' ps4_path
  end.

Definition resolve `{MountOrder} (ms : mounts) (ps4_path : bytes) : option path :=
  first_mount (mount_iter ms) ps4_path.

(** *** Lemmas *)

Lemma trim_slashes_relative bs : absolute (from_bytes (trim_slashes bs)) = false.
Proof.
  unfold from_bytes. cbn [absolute]. induction bs as [|b bs IH]; [done|]. cbn [trim_slashes].
  destruct (b =? 47) eqn:E; [exact IH|by rewrite E].
Qed.

(** What a mount serves: the components of the guest path below its host
    directory; only [..] leads out of it again. *)
Lemma mount_target_below prefix host_base ps4_path : ∃ cs,
  mount_target prefix host_base ps4_path =
    {| absolute := absolute host_base; comps := comps host_base ++ cs |} ∧
  ∀ c, c ∈ cs → c ∈ comps (from_bytes (trim_slashes (drop (length prefix) ps4_path))).
Proof.
  unfold mount_target, join. rewrite trim_slashes_relative. eexists. split; [done|].
  intros c. case_match; [|done]. rewrite list_elem_of_filter. naive_solver.
Qed.

Lemma first_mount_Some ms ps4_path p : first_mount ms ps4_path = Some p →
  ∃ prefix host_base, (prefix, host_base) ∈ ms ∧ prefix `prefix_of` ps4_path ∧
    p = mount_target prefix host_base ps4_path.
Proof.
  induction ms as [|[prefix base] ms IH]; [done|]. cbn [first_mount].
  case_decide as Hp; [intros [= <-]; exists prefix, base; set_solver|].
  intros (q & b & ? & ? & ?)%IH. exists q, b. set_solver.
Qed.

Lemma first_mount_None ms ps4_path : first_mount ms ps4_path = None →
  ∀ prefix host_base, (prefix, host_base) ∈ ms → ¬ prefix `prefix_of` ps4_path.
Proof.
  induction ms as [|[prefix base] ms IH]; [set_solver|]. cbn [first_mount].
  case_decide as Hp; [done|]. intros Hn q b [[= -> ->]|Hin]%elem_of_cons; [done|by eapply IH].
Qed.

Lemma resolve_cases `{MountOrder, !MountOrderLaws} ms ps4_path :
  match resolve ms ps4_path with
  | Some p => ∃ prefix host_base, ms !! prefix = Some host_base ∧ prefix `prefix_of` ps4_path ∧
      p = mount_target prefix host_base ps4_path
  | None => ∀ prefix, is_Some (ms !! prefix) → ¬ prefix `prefix_of` ps4_path
  end.
Proof.
  unfold resolve. destruct (first_mount (mount_iter ms) ps4_path) eqn:E.
  - apply first_mount_Some in E as (q & b & Hin & Hq & ->). exists q, b.
    rewrite mount_iter_perm, elem_of_map_to_list in Hin. done.
  - intros q [b Hb]. eapply first_mount_None; [exact E|].
    by rewrite mount_iter_perm, elem_of_map_to_list.
Qed.

End Mounts.
