(* ===== verification/KernelServices.v ===== *)
(** * Kernel services (kernel/equeue.rs, threading.rs, filesystem.rs, time.rs)

    Module [EventQueues]: the queues of triggered events, with the critical sections
    of [trigger_event] and [wait] as steps that other threads may interleave.
    [Threads]: thread identifiers.  [FileSystem]: descriptors over host files, which
    are a class.  [Time]: the clocks, over the host's. *)

From stdpp Require Import pretty.
From S2P Require Import Prelude KernelErrors Bytes UnixPath.

Open Scope rust_scope.

Module EventQueues.

Inductive EventFilter := User | Read | Write | Timer | GraphicsCore | Display | Hid.

(** The discriminants, as [i16]. *)
Definition EventFilter_to (f : EventFilter) : Z :=
  match f with
  | User => -11 | Read => -1 | Write => -2 | Timer => -7
  | GraphicsCore => -13 | Display => -14 | Hid => -15
  end.

Record Event := {
  ident : Z; filter : Z; flags : Z; fflags : Z; data : Z; udata : Z;
}.

Record EventQueue := { name : bytes; events : list Event }.

Definition EventQueue_new (name : bytes) : EventQueue := {| name := name; events := [] |}.

Definition set_events (self : EventQueue) (es : list Event) : EventQueue :=
  {| name := name self; events := es |}.

(** Registration does nothing yet. *)
Definition add_event (event : Event) (self : EventQueue) : EventQueue := self.

Definition trigger_event (event : Event) (self : EventQueue) : EventQueue :=
  set_events self (events self ++ [event]).

(** The end of [wait], under the lock. *)
Definition drain (max_events : Z) (self : EventQueue) : EventQueue * list Event :=
  let count := Z.to_nat (blen (events self) `min` max_events) in
  (set_events self (drop count (events self)), take count (events self)).

(** The start of [wait], under the lock: [None] when the caller goes to sleep, for
    at most 16 ms; the lock is free meanwhile. *)
Definition wait_enter (max_events : Z) (timeout : bool) (self : EventQueue)
  : EventQueue * option (list Event) :=
  if bool_decide (events self = []) && timeout then (self, None)
  else let '(self, es) := drain max_events self in (self, Some es).

Definition pending_count (self : EventQueue) : Z := blen (events self).

Record EventQueueManager := { queues : list EventQueue }.
Definition EventQueueManager_new : EventQueueManager := {| queues := [] |}.
Definition create_equeue (name : bytes) (self : EventQueueManager)
  : EventQueueManager * EventQueue :=
  ({| queues := queues self ++ [EventQueue_new name] |}, EventQueue_new name).
Definition queue_count (self : EventQueueManager) : Z := blen (queues self).

(** The steps of any number of threads on one queue: [sleeping] has the threads that
    sleep in [wait], with the number of events they ask for. *)
Inductive step_label :=
| Trigger (event : Event)
| Wait (tid : nat) (max_events : Z) (timeout : bool)
| Wake (tid : nat).

Record threads_state := { queue : EventQueue; sleeping : gmap nat Z }.

(** A step and, when it ends a [wait], what that returns. *)
Inductive eq_step : threads_state → step_label → threads_state → list Event → Prop :=
| step_trigger q sl e : eq_step {| queue := q; sleeping := sl |} (Trigger e)
    {| queue := trigger_event e q; sleeping := sl |} []
| step_return q sl tid n t q' es : sl !! tid = None → wait_enter n t q = (q', Some es) →
    eq_step {| queue := q; sleeping := sl |} (Wait tid n t) {| queue := q'; sleeping := sl |} es
| step_sleep q sl tid n t q' : sl !! tid = None → wait_enter n t q = (q', None) →
    eq_step {| queue := q; sleeping := sl |} (Wait tid n t)
      {| queue := q'; sleeping := <[tid := n]> sl |} []
| step_wake q sl tid n q' es : sl !! tid = Some n → drain n q = (q', es) →
    eq_step {| queue := q; sleeping := sl |} (Wake tid)
      {| queue := q'; sleeping := delete tid sl |} es.

(** An execution: its labels, and what the waits returned, step by step. *)
Inductive execution : threads_state → list (step_label * list Event) → threads_state → Prop :=
| exec_nil s : execution s [] s
| exec_step s l es s1 tr s2 : eq_step s l s1 es → execution s1 tr s2 →
    execution s ((l, es) :: tr) s2.

Definition triggered (l : step_label) : list Event :=
  match l with Trigger e => [e] | _ => [] end.

(** The number of events a step may return. *)
Definition allowed (s : threads_state) (l : step_label) : Z :=
  match l with
  | Trigger _ => 0
  | Wait _ n _ => n
  | Wake tid => default 0 (sleeping s !! tid)
  end.

Lemma drain_split n q q' es : drain n q = (q', es) → events q = es ++ events q' ∧
  name q' = name q ∧ (0 ≤ n → blen es ≤ n).
Proof.
  unfold drain. intros [= <- <-]. cbn. rewrite take_drop. split_and!; [done|done|].
  intros Hn. rewrite length_take. lia.
Qed.

(** Each step moves events from the triggers through the queue to the waits. *)
Lemma eq_step_fifo s l s' es : eq_step s l s' es →
  events (queue s) ++ triggered l = es ++ events (queue s').
Proof.
  intros []; cbn; rewrite ?app_nil_r; try done.
  - match goal with H : wait_enter _ _ _ = _ |- _ => revert H end. unfold wait_enter.
    destruct (_ && _); [done|]. destruct (drain n q) as [q1 es1] eqn:E. intros [= <- <-].
    by apply drain_split in E as [-> _].
  - match goal with H : wait_enter _ _ _ = _ |- _ => revert H end. unfold wait_enter.
    destruct (_ && _); [by intros [= <-]|]. by destruct (drain n q).
  - match goal with H : drain _ _ = _ |- _ => by apply drain_split in H as [-> _] end.
Qed.

Lemma execution_fifo s tr s' : execution s tr s' →
  events (queue s) ++ concat ((λ x, triggered x.1) <$> tr) =
  concat (snd <$> tr) ++ events (queue s').
Proof.
  induction 1 as [s|s l es s1 tr s2 Hstep _ IH]; [by rewrite !app_nil_r|].
  rewrite !fmap_cons. cbn [concat fst snd]. rewrite (assoc_L (++)), (eq_step_fifo _ _ _ _ Hstep).
  by rewrite <-!(assoc_L (++)), IH.
Qed.

(** C23: whatever threads trigger and wait, in any interleaving and with waits that
    sleep in between: no event is lost, invented, duplicated or reordered: what the
    waits have returned so far, in the order they returned it, followed by what is
    pending, is what has been triggered, in that order. *)
Theorem queue_fifo nm tr s : execution {| queue := EventQueue_new nm; sleeping := ∅ |} tr s →
  concat ((λ x, triggered x.1) <$> tr) = concat (snd <$> tr) ++ events (queue s) ∧
  pending_count (queue s) =
    blen (concat ((λ x, triggered x.1) <$> tr)) - blen (concat (snd <$> tr)).
Proof.
  intros He. apply execution_fifo in He. cbn in He. split; [done|].
  rewrite He, length_app. unfold pending_count. lia.
Qed.

(** Two events; one thread sleeps on the empty queue, another takes the first. *)
Definition ev (i : Z) : Event :=
  {| ident := i; filter := EventFilter_to Display; flags := 0; fflags := 0; data := 0; udata := 0 |}.

Lemma queue_fifo_witness : ∃ s,
  execution {| queue := EventQueue_new []; sleeping := ∅ |}
    [(Wait 1 8 true, []); (Trigger (ev 5), []); (Trigger (ev 6), []); (Wait 2 1 true, [ev 5]);
     (Wake 1, [ev 6])] s ∧ pending_count (queue s) = 0.
Proof.
  eexists. assert (execution {| queue := EventQueue_new []; sleeping := ∅ |}
    [(Wait 1 8 true, []); (Trigger (ev 5), []); (Trigger (ev 6), []); (Wait 2 1 true, [ev 5]);
     (Wake 1, [ev 6])]
    {| queue := EventQueue_new []; sleeping := delete 1%nat (<[1%nat := 8]> ∅) |}) as He.
  { eapply exec_step; [by eapply step_sleep|]. eapply exec_step; [apply step_trigger|].
    eapply exec_step; [apply step_trigger|]. eapply exec_step; [by eapply step_return|].
    eapply exec_step; [by eapply step_wake|]. apply exec_nil. }
  split; [exact He|]. destruct (queue_fifo _ _ _ He) as [_ ->]. reflexivity.
Defined.

End EventQueues.

Module Threads.

Record ThreadAttr := {
  stack_size : Z; priority : Z; affinity_mask : Z; attr_name : bytes;
}.

Definition ThreadAttr_default : ThreadAttr :=
  {| stack_size := 2 * 1024 * 1024; priority := 700; affinity_mask := 0xFF;
     attr_name := str "OrbisThread" |}.

(** The join handle of a [ThreadInfo] is always [None]. *)
Record ThreadInfo := { id : Z; info_name : bytes }.

Record ThreadManager := { next_id : Z; threads : list ThreadInfo }.

Definition ThreadManager_new : ThreadManager := {| next_id := 1; threads := [] |}.

(** The two critical sections of [create_thread]. *)
Definition take_id (self : ThreadManager) : ThreadManager * Z :=
  ({| next_id := next_id self +64 1; threads := threads self |}, next_id self).

Definition track (thread_id : Z) (name : bytes) (self : ThreadManager) : ThreadManager :=
  {| next_id := next_id self;
     threads := threads self ++ [{| id := thread_id; info_name := name |}] |}.

Definition create_thread (attr : ThreadAttr) (self : ThreadManager) : ThreadManager * outcome Z Z :=
  let '(self, thread_id) := take_id self in
  (track thread_id (attr_name attr) self, Ok thread_id).

Definition thread_count (self : ThreadManager) : Z := blen (threads self).

(** The out parameter is the third component. *)
Definition sce_pthread_create (attr : ThreadAttr) (self : ThreadManager) (thread_out : Z)
  : ThreadManager * Z * Z :=
  match create_thread attr self with
  | (self, Ok i) => (self, i, OrbisError.OK)
  | (self, Err e) => (self, thread_out, e)
  | (self, Panic) => (self, thread_out, 0)
  end.

(** [{:?}] of a [std::thread::ThreadId]. *)
Definition debug_thread_id (host_id : N) : string := "ThreadId(" +:+ pretty host_id +:+ ")".

Definition sce_pthread_self (host_id : N) : Z := Z.of_nat (String.length (debug_thread_id host_id)).

Lemma string_length_app s1 s2 :
  String.length (s1 +:+ s2) = (String.length s1 + String.length s2)%nat.
Proof. induction s1 as [|c s1 IH]; [done|]. apply (f_equal S), IH. Qed.

(** Concurrent creations: a thread takes an identifier and enters it later. *)
Inductive label := Take (tid : nat) | Track (tid : nat) (name : bytes).

Record creators := { manager : ThreadManager; pending : gmap nat Z }.

Inductive create_step : creators → label → creators → Prop :=
| create_take mg p tid mg' i : p !! tid = None → take_id mg = (mg', i) →
    create_step {| manager := mg; pending := p |} (Take tid)
      {| manager := mg'; pending := <[tid := i]> p |}
| create_track mg p tid i nm : p !! tid = Some i →
    create_step {| manager := mg; pending := p |} (Track tid nm)
      {| manager := track i nm mg; pending := delete tid p |}.

Inductive creations : creators → list label → creators → Prop :=
| creations_nil s : creations s [] s
| creations_step s l s1 ls s2 : create_step s l s1 → creations s1 ls s2 →
    creations s (l :: ls) s2.

(** The identifiers handed out: those entered and those still on their way. *)
Definition ids (s : creators) : list Z :=
  (id <$> threads (manager s)) ++ (map_to_list (pending s)).*2.

Definition ids_ok (s : creators) : Prop :=
  NoDup (ids s) ∧ (∀ i, i ∈ ids s → 1 ≤ i < next_id (manager s)) ∧
  1 ≤ next_id (manager s).

Lemma create_step_ids s l s' : create_step s l s' → ids_ok s → next_id (manager s) < 2 ^ 64 - 1 →
  ids_ok s' ∧ next_id (manager s') ≤ next_id (manager s) + 1.
Proof.
  intros [mg p tid mg' i Hp Ht|mg p tid i nm Hp] (Hnd & Hr & Hn) Hmax; cbn in *.
  - injection Ht as <- <-. unwrap64. split; [|cbn; lia].
    assert (ids {| manager := {| next_id := next_id mg + 1; threads := threads mg |};
                   pending := <[tid:=next_id mg]> p |} ≡ₚ
      next_id mg :: ids {| manager := mg; pending := p |}) as Hperm.
    { unfold ids. cbn. rewrite map_to_list_insert by done. rewrite fmap_cons. cbn.
      by rewrite Permutation_middle. }
    unfold ids_ok. rewrite Hperm. cbn. split_and!; [|intros j Hj; rewrite Hperm in Hj|lia].
    + constructor; [|done]. intros Hin%Hr. lia.
    + apply elem_of_cons in Hj as [->|Hj%Hr]; lia.
  - split; [|lia].
    assert (ids {| manager := track i nm mg; pending := delete tid p |} ≡ₚ
      ids {| manager := mg; pending := p |}) as Hperm.
    { unfold ids. cbn. rewrite fmap_app. cbn.
      rewrite <-(map_to_list_delete p tid i Hp), fmap_cons. cbn.
      by rewrite <-(assoc_L (++)). }
    unfold ids_ok. rewrite Hperm. split_and!; [done| |done].
    intros j Hj. rewrite Hperm in Hj. by apply Hr.
Qed.

(** Threads created concurrently, in any interleaving, get pairwise distinct
    identifiers, none of them 0, as long as the 64-bit counter does not run out.
    The handle a thread gets for itself, however, is not its identifier: it is the
    length of a text, the same for all host threads with equally many digits. *)
Theorem thread_ids_distinct ls s : Z.of_nat (length ls) < 2 ^ 64 - 2 →
  creations {| manager := ThreadManager_new; pending := ∅ |} ls s →
  NoDup (ids s) ∧ (0 ∉ ids s) ∧
  ∀ h1 h2 : N, String.length (pretty h1) = String.length (pretty h2) →
    sce_pthread_self h1 = sce_pthread_self h2.
Proof.
  intros Hl Hc.
  assert (∀ s0 ls s, creations s0 ls s → ids_ok s0 →
    next_id (manager s0) + Z.of_nat (length ls) < 2 ^ 64 - 1 → ids_ok s) as Hall.
  { clear. induction 1 as [s|s l s1 ls s2 Hst _ IH]; intros Hok Hn; [done|].
    cbn [length] in Hn. destruct (create_step_ids _ _ _ Hst Hok) as [? ?]; [lia|]. apply IH; [done|lia]. }
  destruct (Hall _ _ _ Hc) as (Hnd & Hr & _).
  { split_and!; [constructor|by intros i ?%elem_of_nil|done]. }
  { cbn. lia. }
  split_and!; [done|intros ?%Hr; lia|]. intros h1 h2 Hh.
  unfold sce_pthread_self, debug_thread_id. by rewrite !string_length_app, Hh.
Qed.

Lemma thread_ids_distinct_witness : ∃ s,
  creations {| manager := ThreadManager_new; pending := ∅ |}
    [Take 1; Take 2; Track 2 []; Track 1 []] s ∧ ids s = [2; 1] ∧ NoDup (ids s) ∧
  sce_pthread_self 3 = sce_pthread_self 9.
Proof.
  eexists. assert (creations {| manager := ThreadManager_new; pending := ∅ |}
    [Take 1; Take 2; Track 2 []; Track 1 []]
    {| manager := track 1 [] (track 2 [] {| next_id := 3; threads := [] |});
       pending := delete 1%nat (delete 2%nat (<[2%nat := 2]> (<[1%nat := 1]> ∅))) |}) as Hc.
  { eapply creations_step; [by eapply create_take|]. eapply creations_step; [by eapply create_take|].
    eapply creations_step; [by eapply create_track|]. eapply creations_step; [by eapply create_track|].
    apply creations_nil. }
  destruct (λ Hl, thread_ids_distinct _ _ Hl Hc) as (Hnd & _ & Hh); [cbn; lia|].
  split; [exact Hc|]. split; [vm_compute; reflexivity|]. split; [exact Hnd|].
  apply Hh. vm_compute. reflexivity.
Defined.

End Threads.

(** The host's files: [W] is the state of the host, [F] an open [fs::File].  A read
    or write that fails is [None]. *)
Class HostFiles (W F : Type) := {
  host_open : path → W → W * option F;
  host_read : F → Z → W → W * F * option bytes;
  host_write : F → bytes → W → W * F * option Z;
  host_print : Z → bytes → W → W;
  read_only : F → Prop;
}.

(** [File::open] opens for reading only; a read fills at most the buffer; writing
    to a file opened for reading fails (std::fs). *)
Class HostFilesLaws W F `{HostFiles W F} : Prop := {
  host_open_read_only p w w' f : host_open p w = (w', Some f) → read_only f;
  host_read_spec f n w w' f' r : 0 ≤ n → host_read f n w = (w', f', r) →
    (read_only f → read_only f') ∧ match r with Some bs => blen bs ≤ n ∧ is_bytes bs | None => True end;
  host_write_read_only f bs w w' f' r : read_only f → host_write f bs w = (w', f', r) →
    read_only f' ∧ r = None;
}.

Module FileSystem.

Import Mounts.

Section fs.
Context {W F : Type} `{!HostFiles W F} `{!MountOrder}.

Record OpenFile := { host_path : path; file : option F; position : Z }.

Record FileSystem := {
  mount_points : mounts;
  next_fd : Z;
  open_files : gmap Z OpenFile;
}.

Definition FileSystem_new : FileSystem :=
  {| mount_points := ∅; next_fd := 3; open_files := ∅ |}.

Definition mount (ps4_path : bytes) (host : path) (self : FileSystem) : FileSystem :=
  {| mount_points := <[ps4_path := host]> (mount_points self);
     next_fd := next_fd self; open_files := open_files self |}.

Definition resolve_path (self : FileSystem) (ps4_path : bytes) : option path :=
  resolve (mount_points self) ps4_path.

Definition set_file (fd : Z) (f : OpenFile) (self : FileSystem) : FileSystem :=
  {| mount_points := mount_points self; next_fd := next_fd self;
     open_files := <[fd := f]> (open_files self) |}.

(** The new descriptor; the counter is an [i32]. *)
Definition add_file (f : OpenFile) (self : FileSystem) : FileSystem * Z :=
  let fd := next_fd self in
  (set_file fd f {| mount_points := mount_points self; next_fd := to_signed 32 (fd + 1);
                    open_files := open_files self |}, fd).

Definition open (p : bytes) (s : W * FileSystem) : (W * FileSystem) * Z :=
  let '(w, self) := s in
  match resolve_path self p with
  | None =>
      if decide (str "/dev/" `prefix_of` p) then
        let '(self, fd) :=
          add_file {| host_path := from_bytes p; file := None; position := 0 |} self in
        ((w, self), fd)
      else ((w, self), OrbisError.ENOENT)
  | Some host_path =>
      match host_open host_path w with
      | (w, Some f) =>
          let '(self, fd) :=
            add_file {| host_path := host_path; file := Some f; position := 0 |} self in
          ((w, self), fd)
      | (w, None) => ((w, self), OrbisError.ENOENT)
      end
  end.

Definition close (fd : Z) (s : W * FileSystem) : (W * FileSystem) * Z :=
  let '(w, self) := s in
  match open_files self !! fd with
  | Some _ =>
      ((w, {| mount_points := mount_points self; next_fd := next_fd self;
              open_files := delete fd (open_files self) |}), 0)
  | None => ((w, self), OrbisError.EBADF)
  end.

Definition with_file (f : OpenFile) (h : F) : OpenFile :=
  {| host_path := host_path f; file := Some h; position := position f |}.
Definition advance (f : OpenFile) (h : F) (n : Z) : OpenFile :=
  {| host_path := host_path f; file := Some h; position := position f +64 n |}.

(** The bytes read go to the buffer of [n] bytes. *)
Definition read (fd n : Z) (s : W * FileSystem) : (W * FileSystem) * (Z * bytes) :=
  let '(w, self) := s in
  match open_files self !! fd with
  | None => ((w, self), (OrbisError.EBADF, []))
  | Some f =>
      match file f with
      | None => ((w, self), (0, []))
      | Some h =>
          match host_read h n w with
          | (w, h, Some bs) => ((w, set_file fd (advance f h (blen bs)) self), (blen bs, bs))
          | (w, h, None) => ((w, set_file fd (with_file f h) self), (-1, []))
          end
      end
  end.

Definition write (fd : Z) (buf : bytes) (s : W * FileSystem) : (W * FileSystem) * Z :=
  let '(w, self) := s in
  if (fd =? 1) || (fd =? 2) then ((host_print fd (from_utf8_lossy buf) w, self), blen buf)
  else
    match open_files self !! fd with
    | None => ((w, self), OrbisError.EBADF)
    | Some f =>
        match file f with
        | None => ((w, self), blen buf)
        | Some h =>
            match host_write h buf w with
            | (w, h, Some n) => ((w, set_file fd (advance f h n) self), n)
            | (w, h, None) => ((w, set_file fd (with_file f h) self), -1)
            end
        end
    end.

Definition open_count (self : FileSystem) : Z := Z.of_nat (size (open_files self)).

(** A call of the guest, and its result. *)
Inductive call := Open (p : bytes) | Close (fd : Z) | ReadFd (fd n : Z) | WriteFd (fd : Z) (buf : bytes).

Definition do_call (c : call) (s : W * FileSystem) : (W * FileSystem) * Z :=
  match c with
  | Open p => open p s
  | Close fd => close fd s
  | ReadFd fd n => let '(s, (r, _)) := read fd n s in (s, r)
  | WriteFd fd buf => write fd buf s
  end.

(** A history: the calls so far with their results, the latest first. *)
Fixpoint history (cs : list call) (s : W * FileSystem) : (W * FileSystem) * list (call * Z) :=
  match cs with
  | [] => (s, [])
  | c :: cs' =>
      let '(s, h) := history cs' s in
      let '(s, r) := do_call c s in
      (s, (c, r) :: h)
  end.

(** ** The specification: descriptors from the history alone *)

Fixpoint is_open (h : list (call * Z)) (fd : Z) : bool :=
  match h with
  | [] => false
  | (Open _, r) :: h' => bool_decide (r = fd ∧ 3 ≤ fd) || is_open h' fd
  | (Close fd', _) :: h' => negb (bool_decide (fd' = fd)) && is_open h' fd
  | _ :: h' => is_open h' fd
  end.

(** The descriptors handed out. *)
Fixpoint handed_out (h : list (call * Z)) : list Z :=
  match h with
  | [] => []
  | (Open _, r) :: h' => if decide (3 ≤ r) then r :: handed_out h' else handed_out h'
  | _ :: h' => handed_out h'
  end.

(** Whether a descriptor was opened on a file of the host, below a mount; the other
    ones are devices. *)
Fixpoint on_host (ms : mounts) (h : list (call * Z)) (fd : Z) : bool :=
  match h with
  | [] => false
  | (Open p, r) :: h' =>
      if decide (r = fd) then (if resolve ms p is Some _ then true else false) else on_host ms h' fd
  | _ :: h' => on_host ms h' fd
  end.

(** What a call may return after [h]. *)
Definition answer_ok (ms : mounts) (h : list (call * Z)) (c : call) (r : Z) : Prop :=
  match c with
  | Open p =>
      let new := 3 ≤ r ∧ r ∉ handed_out h in
      match resolve ms p with
      | Some _ => r = OrbisError.ENOENT ∨ new
      | None => if decide (str "/dev/" `prefix_of` p) then new else r = OrbisError.ENOENT
      end
  | Close fd => r = if is_open h fd then 0 else OrbisError.EBADF
  | ReadFd fd n =>
      if is_open h fd then (if on_host ms h fd then -1 ≤ r ≤ n else r = 0)
      else r = OrbisError.EBADF
  | WriteFd fd buf =>
      if (fd =? 1) || (fd =? 2) then r = blen buf
      else if is_open h fd then r = (if on_host ms h fd then -1 else blen buf)
      else r = OrbisError.EBADF
  end.

End fs.
Arguments OpenFile : clear implicits.
Arguments FileSystem : clear implicits.

Section laws.
Context {W F : Type} `{!HostFiles W F, !HostFilesLaws W F} `{!MountOrder, !MountOrderLaws}.

Variable ms : mounts.

Record fs_inv (self : FileSystem F) (h : list (call * Z)) : Prop := {
  fi_mounts : mount_points self = ms;
  fi_kind fd f : open_files self !! fd = Some f →
    on_host ms h fd = if file f is Some _ then true else false;
  fi_open fd : is_Some (open_files self !! fd) ↔ is_open h fd = true;
  fi_file fd f hf : open_files self !! fd = Some f → file f = Some hf → read_only hf;
  fi_range fd : fd ∈ handed_out h → 3 ≤ fd < next_fd self;
  fi_next : 3 ≤ next_fd self ≤ 3 + blen h;
  fi_sub fd : is_open h fd = true → fd ∈ handed_out h;
}.

Lemma fs_inv_add self h f p : fs_inv self h → blen h < 2 ^ 31 - 8 →
  (∀ hf, file f = Some hf → read_only hf) →
  ((if resolve ms p is Some _ then true else false) = if file f is Some _ then true else false) →
  let '(self', fd) := add_file f self in
  fs_inv self' ((Open p, fd) :: h) ∧ 3 ≤ fd ∧ fd ∉ handed_out h.
Proof.
  intros [Hms Hk Ho Hf Hr [Hn1 Hn2] Hs] Hl Hro Hp. unfold add_file.
  assert (next_fd self ∉ handed_out h) as Hnew by (intros ?%Hr; lia).
  assert (to_signed 32 (next_fd self + 1) = next_fd self + 1) as Hnext.
  { rewrite <-(wrap_small 32 (next_fd self + 1)) at 1 by (unfold in_u; lia).
    apply wrap_wrap_signed; lia. }
  split; [|done]. split; cbn [open_files set_file next_fd].
  - exact Hms.
  - intros fd f'. cbn [on_host]. intros [[<- <-]|[Hne Hfd]]%lookup_insert_Some.
    + by rewrite decide_True.
    + rewrite decide_False by done. by apply Hk.
  - intros fd. cbn [is_open]. rewrite orb_true_iff, bool_decide_eq_true, <-Ho.
    destruct (decide (next_fd self = fd)) as [<-|Hne].
    + rewrite lookup_insert_eq. split; [|by eexists]. intros _. left. by split.
    + rewrite lookup_insert_ne by done. naive_solver.
  - intros fd f' hf [[<- <-]|[_ Hfd]]%lookup_insert_Some; [by apply Hro|by eapply Hf].
  - intros fd. cbn [handed_out]. rewrite decide_True by done. rewrite Hnext.
    intros [->|Hin]%elem_of_cons; [lia|]. apply Hr in Hin. lia.
  - rewrite Hnext. simpl length. lia.
  - intros fd. cbn [is_open handed_out]. rewrite decide_True by done.
    rewrite orb_true_iff, bool_decide_eq_true. intros [[-> _]|Ho']; [by left|right; by apply Hs].
Qed.

(** A step that changes no descriptor. *)
Lemma fs_inv_same self self' h c r : fs_inv self h →
  next_fd self' = next_fd self →
  (∀ fd, is_Some (open_files self' !! fd) ↔ is_Some (open_files self !! fd)) →
  (∀ fd f hf, open_files self' !! fd = Some f → file f = Some hf → read_only hf) →
  (∀ fd, is_open ((c, r) :: h) fd = is_open h fd) → handed_out ((c, r) :: h) = handed_out h →
  mount_points self' = ms →
  (∀ fd f, open_files self' !! fd = Some f →
     on_host ms ((c, r) :: h) fd = if file f is Some _ then true else false) →
  fs_inv self' ((c, r) :: h).
Proof.
  intros [_ _ Ho Hf Hr Hn Hs] En Eo Ef Ei Eh Em Ek. split; [done|done|..].
  - intros fd. by rewrite Eo, Ei.
  - exact Ef.
  - intros fd. rewrite Eh, En. apply Hr.
  - rewrite En. simpl length. lia.
  - intros fd. rewrite Ei, Eh. apply Hs.
Qed.

Lemma set_file_dom fd f (self : FileSystem F) x : is_Some (open_files self !! fd) →
  is_Some (open_files (set_file fd f self) !! x) ↔ is_Some (open_files self !! x).
Proof.
  intros Hfd. cbn. destruct (decide (fd = x)) as [<-|]; [|by rewrite lookup_insert_ne].
  rewrite lookup_insert_eq. split; [done|by eexists].
Qed.

Definition call_ok (c : call) : Prop := match c with ReadFd _ n => 0 ≤ n | _ => True end.

(** A call on a descriptor that replaces at most its file, by one of the same kind. *)
Lemma fs_inv_set self h fd f g c r : fs_inv self h → open_files self !! fd = Some f →
  (∀ hf, file g = Some hf → read_only hf) →
  ((if file g is Some _ then true else false) = if file f is Some _ then true else false) →
  (∀ x, is_open ((c, r) :: h) x = is_open h x) → handed_out ((c, r) :: h) = handed_out h →
  (∀ x, on_host ms ((c, r) :: h) x = on_host ms h x) →
  fs_inv (set_file fd g self) ((c, r) :: h).
Proof.
  intros Hi E Hro Hkind Ei Eh Ek. pose proof Hi as [Hms Hk _ Hf _ _ _].
  apply (fs_inv_same self); [done|done|intros x; apply set_file_dom; by eexists| |done|done|done|].
  - intros x f' hf. cbn. intros [[<- <-]|[_ Hx]]%lookup_insert_Some; [by apply Hro|by eapply Hf].
  - intros x f'. rewrite Ek. cbn. intros [[<- <-]|[_ Hx]]%lookup_insert_Some; [|by apply Hk].
    by rewrite Hkind, (Hk fd f E).
Qed.

Lemma not_open self h fd : fs_inv self h → open_files self !! fd = None → is_open h fd = false.
Proof. intros [_ _ Ho _ _ _ _] E. apply not_true_iff_false. rewrite <-Ho, E. by intros []. Qed.

Lemma open_ok p w self h : fs_inv self h → blen h < 2 ^ 31 - 8 →
  let '((w', self'), r) := open p (w, self) in
  fs_inv self' ((Open p, r) :: h) ∧ answer_ok ms h (Open p) r.
Proof.
  intros Hi Hl. pose proof Hi as [Hms Hk Ho Hf Hr Hn Hs].
  assert (fs_inv self ((Open p, OrbisError.ENOENT) :: h)) as Hno.
  { apply (fs_inv_same self); [done|done|done|exact Hf| |done|done|].
    - intros fd. cbn [is_open]. by rewrite bool_decide_false by (unfold OrbisError.ENOENT; lia).
    - intros fd f E. cbn [on_host]. rewrite decide_False; [by apply Hk|]. intros <-.
      assert (3 ≤ OrbisError.ENOENT); [|unfold OrbisError.ENOENT in *; lia].
      apply Hr, Hs, Ho. by eexists. }
  unfold open, resolve_path, answer_ok. rewrite Hms. destruct (resolve ms p) as [hp|] eqn:Ep.
  - destruct (host_open hp w) as [w1 [f|]] eqn:E; [|by split; [|left]].
    pose proof (fs_inv_add self h {| host_path := hp; file := Some f; position := 0 |} p Hi Hl) as Ha.
    destruct (add_file _ self) as [self' fd]. destruct Ha as (? & ? & ?).
    { intros hf [= <-]. by eapply host_open_read_only. }
    { by rewrite Ep. }
    split; [done|by right].
  - case_decide; [|by split].
    pose proof (fs_inv_add self h {| host_path := from_bytes p; file := None; position := 0 |} p Hi Hl) as Ha.
    destruct (add_file _ self) as [self' fd]. destruct Ha as (? & ? & ?); [done|by rewrite Ep|].
    by split.
Qed.

Lemma close_ok fd w self h : fs_inv self h →
  let '((w', self'), r) := close fd (w : W, self) in
  fs_inv self' ((Close fd, r) :: h) ∧ answer_ok ms h (Close fd) r.
Proof.
  intros Hi. pose proof Hi as [Hms Hk Ho Hf Hr Hn Hs].
  unfold close, answer_ok. destruct (open_files self !! fd) as [f|] eqn:E.
  - rewrite (proj1 (Ho fd)) by by eexists. split; [|done]. split; cbn [open_files next_fd].
    + exact Hms.
    + intros x f' [_ Hx]%lookup_delete_Some. by apply Hk.
    + intros x. cbn [is_open]. rewrite andb_true_iff, <-Ho, negb_true_iff, bool_decide_eq_false.
      destruct (decide (fd = x)) as [<-|]; [rewrite lookup_delete_eq|rewrite lookup_delete_ne by done].
      * split; [by intros []|naive_solver].
      * naive_solver.
    + intros x f' hf [_ Hx]%lookup_delete_Some. by eapply Hf.
    + exact Hr.
    + simpl length. lia.
    + intros x. cbn [is_open handed_out]. intros [_ ?]%andb_true_iff. by apply Hs.
  - pose proof (not_open _ _ _ Hi E) as Hno. rewrite Hno. split; [|done].
    apply (fs_inv_same self); [done|done|done|exact Hf| |done|done|done].
    intros x. cbn [is_open]. case_bool_decide as Hx; [by rewrite <-Hx|done].
Qed.

Lemma read_ok fd n w self h : fs_inv self h → 0 ≤ n →
  let '((w', self'), (r, bs)) := read fd n (w, self) in
  fs_inv self' ((ReadFd fd n, r) :: h) ∧ answer_ok ms h (ReadFd fd n) r.
Proof.
  intros Hi Hn0. pose proof Hi as [Hms Hk Ho Hf Hr Hn Hs]. unfold read, answer_ok.
  destruct (open_files self !! fd) as [f|] eqn:E.
  2: { rewrite (not_open _ _ _ Hi E). split; [|done]. by apply (fs_inv_same self). }
  rewrite (proj1 (Ho fd)), (Hk fd f E) by by eexists. destruct (file f) as [hf|] eqn:Ef.
  2: { split; [by apply (fs_inv_same self)|done]. }
  destruct (host_read hf n w) as [[w' hf'] r] eqn:Er.
  apply host_read_spec in Er as [Hro Hbs]; [|done].
  destruct r as [bs|]; (split; [|lia]); (eapply fs_inv_set; [done|exact E| |by rewrite Ef|done..]);
    intros hf2 [= <-]; apply Hro; by eapply Hf.
Qed.

Lemma write_ok fd buf w self h : fs_inv self h →
  let '((w', self'), r) := write fd buf (w, self) in
  fs_inv self' ((WriteFd fd buf, r) :: h) ∧ answer_ok ms h (WriteFd fd buf) r.
Proof.
  intros Hi. pose proof Hi as [Hms Hk Ho Hf Hr Hn Hs]. unfold write, answer_ok.
  destruct ((fd =? 1) || (fd =? 2)).
  { split; [by apply (fs_inv_same self)|done]. }
  destruct (open_files self !! fd) as [f|] eqn:E.
  2: { rewrite (not_open _ _ _ Hi E). split; [|done]. by apply (fs_inv_same self). }
  rewrite (proj1 (Ho fd)), (Hk fd f E) by by eexists. destruct (file f) as [hf|] eqn:Ef.
  2: { split; [by apply (fs_inv_same self)|done]. }
  destruct (host_write hf buf w) as [[w' hf'] r] eqn:Er.
  apply host_write_read_only in Er as [Hro ->]; [|by eapply Hf].
  split; [|done]. eapply fs_inv_set; [done|exact E| |by rewrite Ef|done..]. by intros hf2 [= <-].
Qed.

Lemma do_call_ok c w self h : fs_inv self h → blen h < 2 ^ 31 - 8 → call_ok c →
  let '((w', self'), r) := do_call c (w, self) in
  fs_inv self' ((c, r) :: h) ∧ answer_ok ms h c r.
Proof.
  intros Hi Hl Hc. destruct c as [p|fd|fd n|fd buf]; cbn [do_call].
  - by apply open_ok.
  - by apply close_ok.
  - pose proof (read_ok fd n w self h Hi Hc) as Hr.
    by destruct (read fd n (w, self)) as [[w' self'] [r bs]].
  - by apply write_ok.
Qed.

Lemma history_inv (cs : list call) (w : W) : Z.of_nat (length cs) < 2 ^ 31 - 8 → Forall call_ok cs →
  let '((w', self), h) := history cs (w, {| mount_points := ms; next_fd := 3; open_files := ∅ |}) in
  fs_inv self h ∧ length h = length cs ∧ NoDup (handed_out h) ∧
  ∀ i c r, h !! i = Some (c, r) → answer_ok ms (drop (S i) h) c r.
Proof.
  intros Hl Hcs. revert Hl. induction Hcs as [|c cs Hc _ IH]; intros Hl; cbn [history].
  { split_and!; [|done|constructor|done].
    split; cbn; [done|done| |done|by intros ? ?%elem_of_nil|lia|done].
    intros fd. rewrite lookup_empty. split; [by intros []|done]. }
  cbn [length] in Hl. destruct (history cs _) as [[w1 self1] h]. destruct IH as (Hi & Hlen & Hnd & Ha); [lia|].
  pose proof (do_call_ok c w1 self1 h Hi ltac:(lia) Hc) as Hd.
  destruct (do_call c (w1, self1)) as [[w2 self2] r]. destruct Hd as [Hi' Hans].
  split_and!; [done|simpl; lia| |].
  - destruct c; cbn [handed_out]; try done. case_decide as H3; [|done]. constructor; [|done].
    cbn [answer_ok] in Hans. unfold OrbisError.ENOENT in *.
    destruct (resolve ms p); [|case_decide]; [destruct Hans as [->|[]]|destruct Hans|subst]; done.
  - intros [|i] c' r' Hlk; simpl in Hlk; [by simplify_eq|]. by apply Ha.
Qed.

(** C24: in every history of calls, with any mounts and any host files, short of
    2^31 calls: every descriptor handed out is at least 3 and new, even after
    closing; and the answers follow from the history and the mounts: a path below no
    mount opens exactly when it is a device; closing succeeds once
    per opening and is EBADF otherwise; reading yields at most the buffer from a host
    file, nothing from a device, and EBADF on a descriptor that is not open.  Writing
    works for standard output and error (as long as the host takes the output): host
    files are always opened for reading, so that writing to one returns -1, whatever
    flags it was opened with, and writing to a device is ignored. *)
Theorem descriptors_spec (cs : list call) (w : W) : Z.of_nat (length cs) < 2 ^ 31 - 8 → Forall call_ok cs →
  let '(s', h) := history cs (w, {| mount_points := ms; next_fd := 3; open_files := ∅ |}) in
  NoDup (handed_out h) ∧ (∀ fd, fd ∈ handed_out h → 3 ≤ fd) ∧
  (∀ fd, is_Some (open_files s'.2 !! fd) ↔ is_open h fd = true) ∧
  ∀ i c r, h !! i = Some (c, r) → answer_ok ms (drop (S i) h) c r.
Proof.
  intros Hl Hcs. pose proof (history_inv cs w Hl Hcs) as Hh.
  destruct (history cs _) as [[w' self] h]. destruct Hh as (Hi & _ & Hnd & Ha).
  split_and!; [done| |apply Hi|done]. intros fd Hin. by apply Hi.
Qed.

(** A path is served by a mount whose key is a textual prefix of it (any one of
    them, when there are several), and is not found exactly when there is none.  The
    host path is the mount's directory followed by components of the guest path:
    nothing keeps [..] out of them, and the prefix need not end at a separator. *)
Theorem resolve_path_spec (self : FileSystem F) p :
  match resolve_path self p with
  | Some hp => ∃ prefix host cs, mount_points self !! prefix = Some host ∧ prefix `prefix_of` p ∧
      hp = {| absolute := absolute host; comps := comps host ++ cs |} ∧
      ∀ c, c ∈ cs → c ∈ comps (from_bytes (trim_slashes (drop (length prefix) p)))
  | None => ∀ prefix, is_Some (mount_points self !! prefix) → ¬ prefix `prefix_of` p
  end.
Proof.
  pose proof (resolve_cases (mount_points self) p) as Hr. unfold resolve_path.
  destruct (resolve (mount_points self) p) as [hp|]; [|done].
  destruct Hr as (prefix & host & Hm & Hp & ->).
  destruct (mount_target_below prefix host p) as (cs & E & Hcs). by exists prefix, host, cs.
Qed.

End laws.

(** ** Witnesses *)

(** A host where every file exists and holds its own path. *)
#[local] Instance toy_files : HostFiles unit bytes :=
  {| host_open p w := (w, Some (wrap 8 <$> concat (comps p)));
     host_read f n w :=
       (w, drop (Z.to_nat n) f, if decide (is_bytes f) then Some (take (Z.to_nat n) f) else None);
     host_write f bs w := (w, f, None);
     host_print fd bs w := w;
     read_only f := is_bytes f |}.
#[local] Instance toy_files_laws : HostFilesLaws unit bytes.
Proof.
  split; cbn.
  - intros p w w' f [= <- <-]. apply Forall_fmap, Forall_true. intros b. by apply (wrap_range 8).
  - intros f n w w' f' r Hn [= <- <- <-]. split; [by apply Forall_drop|].
    case_decide; [|done]. rewrite length_take. split; [lia|by apply Forall_take].
  - by intros f bs w w' f' r ? [= <- <- <-].
Qed.
#[local] Instance sorted_mounts : MountOrder := map_to_list.
#[local] Instance sorted_mounts_laws : MountOrderLaws.
Proof. by intros m. Qed.

Definition app_mounts : mounts := {[ str "/app0" := from_bytes (str "/games/x") ]}.

Definition sample_calls : list call :=
  [WriteFd 3 [65]; Close 3; Close 3; WriteFd 4 [65]; Open (str "/dev/gc"); WriteFd 1 [65];
   WriteFd 3 [65]; ReadFd 3 4;
   Open (str "/app0/data")].

(** Earliest call last. *)
Lemma descriptors_spec_witness :
  let '(s', h) := history (F:=bytes) sample_calls
    (tt, {| mount_points := app_mounts; next_fd := 3; open_files := ∅ |}) in
  (snd <$> h) = [OrbisError.EBADF; OrbisError.EBADF; 0; 1; 4; 1; -1; 4; 3] ∧ NoDup (handed_out h) ∧
  open_files s'.2 !! 3 = None.
Proof.
  pose proof (descriptors_spec (F:=bytes) app_mounts sample_calls tt ltac:(cbn; lia)) as Hd.
  destruct (history sample_calls _) as [s' h] eqn:E.
  destruct Hd as (Hnd & _ & Ho & _); [by repeat constructor|].
  vm_compute in E. injection E as <- <-. split; [done|]. split; [exact Hnd|]. vm_compute. reflexivity.
Defined.

(** A path that leaves its mount. *)
Example resolve_path_escapes :
  resolve_path {| mount_points := app_mounts; next_fd := 3; open_files := (∅ : gmap Z (OpenFile bytes)) |}
    (str "/app0/../../etc/passwd") =
  Some (from_bytes (str "/games/x/../../etc/passwd")).
Proof. vm_compute. reflexivity. Qed.

End FileSystem.

(** The host's clocks, in nanoseconds: the monotonic one, and the time since the
    epoch, when it is not before it. *)
Class HostClock (T : Type) := {
  instant_now : T → Z;
  since_epoch : T → option Z;
}.

Module Time.
Section time.
Context `{HostClock T}.

(** [PROCESS_START]. *)
Abbreviation start_time := (option Z).

Definition init (now : T) : start_time := Some (instant_now now).

Definition sce_kernel_get_tsc_frequency : Z := 1600000000.

(** [Instant::elapsed]: never negative. *)
Definition elapsed (start : start_time) (now : T) : Z :=
  Z.max 0 (instant_now now - default (instant_now now) start).

Definition sce_kernel_get_process_time (start : start_time) (now : T) : Z :=
  wrap 64 (elapsed start now / 1000).

Definition sce_kernel_get_process_time_counter (start : start_time) (now : T) : Z :=
  wrap 64 (elapsed start now).

Definition sce_kernel_get_process_time_counter_frequency : Z := 1000000000.

(** The result and the out parameters, which an unknown clock leaves alone. *)
Definition sce_kernel_clock_gettime (start : start_time) (now : T) (clock_id sec_out nsec_out : Z)
  : Z * Z * Z :=
  let split_time d := (0, to_signed 64 (d / 1000000000), d mod 1000000000) in
  if clock_id =? 0 then split_time (default 0 (since_epoch now))
  else if clock_id =? 4 then split_time (elapsed start now)
  else (-1, sec_out, nsec_out).

Definition sce_kernel_gettimeofday (now : T) : Z * Z * Z :=
  let d := default 0 (since_epoch now) in
  (0, to_signed 64 (d / 1000000000), d mod 1000000000 / 1000).

(** The clocks agree with each other, in their units, for 292 years. *)
Lemma time_consistent start now s n : 0 ≤ elapsed start now < 2 ^ 63 →
  0 ≤ default 0 (since_epoch now) < 2 ^ 63 →
  let '(r, sec, nsec) := sce_kernel_clock_gettime start now 4 s n in
  r = 0 ∧ sec * 1000000000 + nsec = sce_kernel_get_process_time_counter start now ∧
  (sec * 1000000000 + nsec) / 1000 = sce_kernel_get_process_time start now ∧
  let '(_, sec0, nsec0) := sce_kernel_clock_gettime start now 0 s n in
  sce_kernel_gettimeofday now = (0, sec0, nsec0 / 1000).
Proof.
  intros He Hd. unfold sce_kernel_clock_gettime, sce_kernel_get_process_time_counter,
    sce_kernel_get_process_time, sce_kernel_gettimeofday. cbn [Z.eqb Pos.eqb].
  set (d := elapsed start now) in *.
  assert (d / 1000000000 * 1000000000 + d mod 1000000000 = d) as E.
  { pose proof (Z_div_mod_eq_full d 1000000000). lia. }
  assert (0 ≤ d / 1000000000 ≤ d) as Hq.
  { split; [apply Z.div_pos; lia|]. apply Z.div_le_upper_bound; lia. }
  assert (0 ≤ d / 1000 ≤ d).
  { split; [apply Z.div_pos; lia|]. apply Z.div_le_upper_bound; lia. }
  assert (to_signed 64 (d / 1000000000) = d / 1000000000) as ->.
  { rewrite <-(wrap_small 64 (d / 1000000000)) at 1 by (unfold in_u; lia).
    apply wrap_wrap_signed; lia. }
  rewrite !wrap_small by (unfold in_u; lia). rewrite E. by split_and!.
Qed.

End time.
End Time.
