(* ===== verification/Psf.v ===== *)
(** * PARAM.SFO metadata (psf.rs)

    The parser of the PSF key-value file and its accessors.  A [String] is its
    bytes, the [HashMap] of entries a [gmap].  The allocation of the tables
    (whose sizes come from the file) is taken to succeed. *)

From S2P Require Import Prelude Bytes.

Open Scope rust_scope.

Module Psf.

(** ** Data *)

Definition PSF_MAGIC : Z := 0x00505346.
Definition PSF_VERSION_1_1 : Z := 0x00000101.

Inductive PsfEntryFormat := FmtBinary | FmtText | FmtInteger.

Definition from_u16 (value : Z) : option PsfEntryFormat :=
  if value =? 0x0004 then Some FmtBinary
  else if value =? 0x0204 then Some FmtText
  else if value =? 0x0404 then Some FmtInteger
  else None.

Inductive PsfValue :=
| Binary (b : bytes)
| Text (s : bytes)
| Integer (v : Z).

Definition as_str (self : PsfValue) : option bytes :=
  match self with Text s => Some s | _ => None end.
Definition as_integer (self : PsfValue) : option Z :=
  match self with Integer v => Some v | _ => None end.
Definition as_binary (self : PsfValue) : option bytes :=
  match self with Binary b => Some b | _ => None end.

Record Psf := {
  version : Z;
  entries : gmap bytes PsfValue;
}.

Inductive PsfError :=
| Io (e : io_error)
| InvalidMagic (magic : Z)
| UnknownFormat (fmt : Z)
| InvalidUtf8.

#[export] Instance psf_from_io : FromIo PsfError := Io.

Record RawIndexEntry := {
  key_offset : Z;
  param_fmt : Z;
  param_len : Z;
  param_max_len : Z;
  data_offset : Z;
}.

(** ** The parser *)

Section parser.
Context `{ByteOrder}.
Variable data : bytes.

Definition read_raw_entry : st Z PsfError RawIndexEntry :=
  key_offset ← read_u16 data;
  param_fmt ← read_u16 data;
  param_len ← read_u32 data;
  param_max_len ← read_u32 data;
  data_offset ← read_u32 data;
  mret {| key_offset := key_offset; param_fmt := param_fmt; param_len := param_len;
          param_max_len := param_max_len; data_offset := data_offset |}.

(** The loop that collects the key up to its terminator.  Every round consumes
    a byte of the buffer, so [S (length data)] rounds are never used up. *)
Fixpoint read_key_loop (fuel : nat) (key_bytes : bytes) : st Z PsfError bytes :=
  match fuel with
  | O => st_lift Panic
  | S fuel' =>
      byte ← read_u8 data;
      if byte =? 0 then mret key_bytes
      else read_key_loop fuel' (key_bytes ++ [byte])
  end.

(** [String::from_utf8] with the error mapped to [InvalidUtf8]. *)
Definition from_utf8 (bs : bytes) : st Z PsfError bytes :=
  st_lift (if utf8_valid bs then Ok bs else Err InvalidUtf8).

Definition read_value (fmt : PsfEntryFormat) (raw : RawIndexEntry)
  : st Z PsfError PsfValue :=
  match fmt with
  | FmtBinary => buf ← read_exact data (param_len raw); mret (Binary buf)
  | FmtText =>
      let str_len := if 0 <? param_len raw then param_len raw - 1 else 0 in
      buf ← read_exact data str_len;
      text ← from_utf8 buf;
      mret (Text text)
  | FmtInteger => val ← read_i32 data; mret (Integer val)
  end.

Definition parse_entry (key_table_offset data_table_offset : Z) (raw : RawIndexEntry)
  : st Z PsfError (bytes * PsfValue) :=
  let key_start := key_table_offset +64 key_offset raw in
  _ ← seek key_start;
  key_bytes ← read_key_loop (S (length data)) [];
  key ← from_utf8 key_bytes;
  let data_start := data_table_offset +64 data_offset raw in
  _ ← seek data_start;
  fmt ← st_lift (ok_or (from_u16 (param_fmt raw)) (UnknownFormat (param_fmt raw)));
  value ← read_value fmt raw;
  mret (key, value).

Fixpoint parse_entries (key_table_offset data_table_offset : Z)
    (raw_entries : list RawIndexEntry) (entries : gmap bytes PsfValue)
  : st Z PsfError (gmap bytes PsfValue) :=
  match raw_entries with
  | [] => mret entries
  | raw :: raw_entries' =>
      '(key, value) ← parse_entry key_table_offset data_table_offset raw;
      parse_entries key_table_offset data_table_offset raw_entries'
        (<[key := value]> entries)
  end.

Definition parse_cursor : st Z PsfError Psf :=
  magic ← read_u32 data;
  if negb (magic =? PSF_MAGIC) && negb (swap_bytes32 magic =? PSF_MAGIC)
  then st_lift (Err (InvalidMagic magic))
  else
    version ← read_u32 data;
    key_table_offset ← read_u32 data;
    data_table_offset ← read_u32 data;
    index_entries ← read_u32 data;
    raw_entries ← read_n (Z.to_nat index_entries) read_raw_entry;
    entries ← parse_entries key_table_offset data_table_offset raw_entries ∅;
    mret {| version := version; entries := entries |}.

Definition parse : outcome PsfError Psf := (parse_cursor 0).2.

End parser.

(** [Psf::open], over the result of reading the file. *)
Definition open `{ByteOrder} {path} (fs_read : path → outcome io_error bytes) (p : path)
  : outcome PsfError Psf :=
  data ← map_err Io (fs_read p); parse data.

Definition get_string (self : Psf) (key : bytes) : option bytes :=
  entries self !! key ≫= as_str.
Definition get_integer (self : Psf) (key : bytes) : option Z :=
  entries self !! key ≫= as_integer.

Definition title (self : Psf) := get_string self (str "TITLE").
Definition title_id (self : Psf) := get_string self (str "TITLE_ID").
Definition content_id (self : Psf) := get_string self (str "CONTENT_ID").
Definition app_version (self : Psf) := get_string self (str "APP_VER").
Definition category (self : Psf) := get_string self (str "CATEGORY").

(** ** The format, as a writer

    The layout the module documentation of psf.rs describes and its test
    writes: header, index table, key table and data table, where every value
    may be followed by padding. *)

Record field := { f_key : bytes; f_value : PsfValue; f_padding : bytes }.

Definition value_bytes (v : PsfValue) : bytes :=
  match v with
  | Binary b => b
  | Text s => s ++ [0]
  | Integer z => le_encode 4 (wrap 32 z)
  end.

Definition format_code (v : PsfValue) : Z :=
  match v with Binary _ => 0x0004 | Text _ => 0x0204 | Integer _ => 0x0404 end.

Definition key_cell (f : field) : bytes := f_key f ++ [0].
Definition data_cell (f : field) : bytes := value_bytes (f_value f) ++ f_padding f.

Definition raw_entry (ko do : Z) (f : field) : RawIndexEntry :=
  {| key_offset := ko; param_fmt := format_code (f_value f);
     param_len := blen (value_bytes (f_value f));
     param_max_len := blen (data_cell f); data_offset := do |}.

Definition encode_raw (r : RawIndexEntry) : bytes :=
  le_encode 2 (key_offset r) ++ le_encode 2 (param_fmt r) ++ le_encode 4 (param_len r)
  ++ le_encode 4 (param_max_len r) ++ le_encode 4 (data_offset r).

Fixpoint raw_table (ko do : Z) (fs : list field) : list RawIndexEntry :=
  match fs with
  | [] => []
  | f :: fs' =>
      raw_entry ko do f :: raw_table (ko + blen (key_cell f)) (do + blen (data_cell f)) fs'
  end.

Definition key_table (fs : list field) : bytes := concat (key_cell <$> fs).
Definition data_table (fs : list field) : bytes := concat (data_cell <$> fs).

Definition encode (ver : Z) (fs : list field) : bytes :=
  let n := Z.of_nat (length fs) in
  let kto := 20 + 16 * n in
  let dto := kto + blen (key_table fs) in
  [0x00; 0x50; 0x53; 0x46] ++ le_encode 4 ver ++ le_encode 4 kto ++ le_encode 4 dto
  ++ le_encode 4 n ++ concat (encode_raw <$> raw_table 0 0 fs)
  ++ key_table fs ++ data_table fs.

(** What the format can hold: keys are text without NUL, text is UTF-8,
    integers are [i32], and every table stays below the width of its offsets. *)
Definition value_ok (v : PsfValue) : Prop :=
  match v with
  | Binary b => is_bytes b
  | Text s => is_bytes s ∧ utf8_valid s = true
  | Integer z => - 2 ^ 31 ≤ z < 2 ^ 31
  end.

Definition field_ok (f : field) : Prop :=
  is_bytes (f_key f) ∧ (0 ∉ f_key f) ∧ utf8_valid (f_key f) = true ∧
  value_ok (f_value f) ∧ is_bytes (f_padding f).

Definition format_ok (ver : Z) (fs : list field) : Prop :=
  in_u 32 ver ∧ Forall field_ok fs ∧ blen (key_table fs) ≤ 2 ^ 16 ∧
  blen (data_table fs) ≤ 2 ^ 30 ∧ Z.of_nat (length fs) ≤ 2 ^ 20.

#[export] Instance value_ok_dec v : Decision (value_ok v).
Proof. destruct v; simpl; apply _. Defined.
#[export] Instance field_ok_dec f : Decision (field_ok f).
Proof. unfold field_ok; apply _. Defined.
#[export] Instance format_ok_dec ver fs : Decision (format_ok ver fs).
Proof. unfold format_ok; apply _. Defined.

(** ** Lemmas *)

Section laws.
Context `{ByteOrder, !ByteOrderLaws}.

Definition raw_ok (r : RawIndexEntry) : Prop :=
  in_u 16 (key_offset r) ∧ in_u 16 (param_fmt r) ∧ in_u 32 (param_len r) ∧
  in_u 32 (param_max_len r) ∧ in_u 32 (data_offset r).

Lemma encode_raw_length r : blen (encode_raw r) = 16.
Proof. unfold encode_raw. by rewrite !length_app, !le_encode_length. Qed.

Lemma read_raw_entry_encode data pos r : reads data pos (encode_raw r) → raw_ok r →
  read_raw_entry data pos = (pos + 16, Ok r).
Proof.
  unfold encode_raw. rewrite !reads_encode. simpl Z.of_nat.
  intros (R1 & R2 & R3 & R4 & R5) (? & ? & ? & ? & ?). unfold read_raw_entry.
  read_by @read_u16_encode. read_by @read_u16_encode. read_by @read_u32_encode.
  read_by @read_u32_encode. read_by @read_u32_encode.
  unfold mret, st_ret. destruct r. f_equal. simpl. lia.
Qed.

Lemma read_raw_table data pos rs : reads data pos (concat (encode_raw <$> rs)) →
  Forall raw_ok rs →
  read_n (length rs) (read_raw_entry data) pos = (pos + 16 * Z.of_nat (length rs), Ok rs).
Proof.
  apply (read_n_encode data (read_raw_entry data) encode_raw raw_ok 16).
  - intros. apply encode_raw_length.
  - intros. by apply read_raw_entry_encode.
Qed.

Lemma read_key_loop_spec data fuel pos acc key :
  reads data pos (key ++ [0]) → 0 ∉ key → (length key < fuel)%nat →
  read_key_loop data fuel acc pos = (pos + blen key + 1, Ok (acc ++ key)).
Proof.
  revert fuel pos acc. induction key as [|x key IH]; intros fuel pos acc Hr Hn Hf;
    (destruct fuel as [|fuel]; [simpl in Hf; lia|]); cbn [read_key_loop].
  - erewrite st_bind_ok by by apply read_u8_reads. simpl.
    rewrite app_nil_r. unfold mret, st_ret. f_equal. lia.
  - change ((x :: key) ++ [0]) with ([x] ++ (key ++ [0])) in Hr.
    apply reads_app in Hr as [H1 H2]. apply not_elem_of_cons in Hn as [Hx Hn].
    erewrite st_bind_ok by by apply read_u8_reads.
    destruct (Z.eqb_spec x 0); [congruence|].
    rewrite (IH fuel _ (acc ++ [x])); [|done|done|simpl in Hf; lia].
    rewrite <-(assoc_L (++)). f_equal. simpl. lia.
Qed.

Lemma read_value_spec data pos v ko do f : f_value f = v → value_ok v →
  reads data pos (value_bytes v) → blen (value_bytes v) < 2 ^ 31 →
  ∃ fmt pos', from_u16 (format_code v) = Some fmt ∧
    read_value data fmt (raw_entry ko do f) pos = (pos', Ok v).
Proof.
  intros Hf Hv Hr Hl. destruct v as [bs|s|z]; simpl in *.
  - exists FmtBinary. eexists. split; [done|]. simpl. rewrite Hf. simpl.
    by erewrite st_bind_ok by by apply read_exact_reads.
  - exists FmtText. eexists. split; [done|]. simpl. rewrite Hf. simpl.
    apply reads_app in Hr as [Hr _]. rewrite length_app in *. simpl in *.
    destruct (Z.ltb_spec 0 (Z.of_nat (length s + 1))); [|lia].
    replace (Z.of_nat (length s + 1) - 1) with (blen s) by lia.
    erewrite st_bind_ok by by apply read_exact_reads.
    erewrite st_bind_ok; [done|]. unfold from_utf8, st_lift. by rewrite (proj2 Hv).
  - exists FmtInteger. eexists. split; [done|]. simpl.
    by erewrite st_bind_ok by by apply read_i32_encode.
Qed.

Lemma parse_entry_spec data pos kto dto ko do f : field_ok f →
  reads data (kto + ko) (key_cell f) → reads data (dto + do) (data_cell f) →
  blen data < 2 ^ 31 → dto + do ≤ blen data →
  ∃ pos', parse_entry data kto dto (raw_entry ko do f) pos = (pos', Ok (f_key f, f_value f)).
Proof.
  intros (_ & Hnul & Hutf & Hv & _) Hk Hd Hlen Hle.
  pose proof (reads_length _ _ _ Hk ltac:(by destruct f as [[] ? ?])) as Hkl.
  assert (0 ≤ kto + ko) by apply Hk. assert (0 ≤ dto + do) by apply Hd.
  unfold key_cell in Hkl, Hk. rewrite length_app in Hkl. simpl in Hkl.
  apply reads_app in Hd as [Hd Hpad].
  assert (blen (value_bytes (f_value f)) < 2 ^ 31).
  { destruct (decide (value_bytes (f_value f) = [])) as [->|Hne]; [simpl; lia|].
    pose proof (reads_length _ _ _ Hd Hne). lia. }
  unfold parse_entry. simpl key_offset. simpl data_offset. unwrap64.
  erewrite st_bind_ok by done.
  erewrite st_bind_ok by (apply read_key_loop_spec; [done|done|lia]).
  erewrite st_bind_ok by (unfold from_utf8, st_lift; simpl; by rewrite Hutf).
  erewrite st_bind_ok by done. 
  destruct (read_value_spec data (dto + do) (f_value f) ko do f) as (fmt & pos' & Hfmt & Hval);
    try done.
  exists pos'. simpl param_fmt. rewrite Hfmt. simpl.
  erewrite st_bind_ok by done. by erewrite st_bind_ok by done.
Qed.

Lemma parse_entries_spec data pos kto dto ko do fs m : Forall field_ok fs →
  reads data (kto + ko) (key_table fs) → reads data (dto + do) (data_table fs) →
  blen data < 2 ^ 31 → dto + do + blen (data_table fs) ≤ blen data →
  ∃ pos', parse_entries data kto dto (raw_table ko do fs) m pos =
    (pos', Ok (foldl (λ m f, <[f_key f := f_value f]> m) m fs)).
Proof.
  intros Hok. revert pos ko do m. induction Hok as [|f fs Hf _ IH];
    intros pos ko do m Hk Hd Hlen Hle; [by eexists|].
  unfold key_table, data_table in *. rewrite fmap_cons in Hk, Hd, Hle.
  cbn [concat] in Hk, Hd, Hle. rewrite length_app in Hle.
  apply reads_app in Hk as [Hk1 Hk2], Hd as [Hd1 Hd2].
  rewrite <-Z.add_assoc in Hk2, Hd2.
  destruct (parse_entry_spec data pos kto dto ko do f) as [p' E]; try done; [lia|].
  destruct (IH p' _ _ (<[f_key f := f_value f]> m) Hk2 Hd2 Hlen) as [p'' E'];
    [lia|].
  exists p''. cbn [raw_table parse_entries foldl]. by erewrite st_bind_ok by done.
Qed.

Lemma format_code_u16 v : in_u 16 (format_code v).
Proof. by destruct v. Qed.

Lemma raw_table_ok ko do fs : 0 ≤ ko → 0 ≤ do →
  ko + blen (key_table fs) ≤ 2 ^ 16 → do + blen (data_table fs) ≤ 2 ^ 30 →
  Forall raw_ok (raw_table ko do fs).
Proof.
  revert ko do. induction fs as [|f fs IH]; intros ko do ? ? Hk Hd; [constructor|].
  unfold key_table, data_table in *. rewrite fmap_cons in Hk, Hd. cbn [concat] in Hk, Hd.
  rewrite length_app in Hk, Hd.
  assert (blen (key_cell f) = blen (f_key f) + 1) as Ek
    by (unfold key_cell; rewrite length_app; simpl; lia).
  assert (blen (data_cell f) = blen (value_bytes (f_value f)) + blen (f_padding f)) as Ed
    by (unfold data_cell; rewrite length_app; lia).
  cbn [raw_table]. constructor; [|apply IH; lia].
  pose proof (format_code_u16 (f_value f)).
  unfold raw_ok, raw_entry, in_u in *. cbn [key_offset param_fmt param_len param_max_len data_offset].
  split_and!; done || lia.
Qed.

Lemma raw_table_length ko do fs : length (raw_table ko do fs) = length fs.
Proof. revert ko do. induction fs; intros; simpl; auto. Qed.

Lemma encoded_table_length rs : blen (concat (encode_raw <$> rs)) = 16 * Z.of_nat (length rs).
Proof.
  apply (blen_concat encode_raw (λ _, True)).
  - intros. apply encode_raw_length.
  - by apply Forall_true.
Qed.

(** Inserting the fields in file order: the last value of a key wins. *)
Lemma foldl_insert_list_to_map (fs : list field) (m : gmap bytes PsfValue) :
  foldl (λ m f, <[f_key f := f_value f]> m) m fs =
  list_to_map (reverse ((λ f, (f_key f, f_value f)) <$> fs)) ∪ m.
Proof.
  revert m. induction fs as [|f fs IH]; intros m.
  { simpl. by rewrite left_id_L by apply _. }
  cbn [foldl]. rewrite IH, fmap_cons, reverse_cons, list_to_map_app.
  rewrite <-(assoc_L (∪)). f_equal. cbn [list_to_map foldr].
  by rewrite insert_empty, <-insert_union_singleton_l.
Qed.

(** ** Lemmas: no input makes the parser panic *)

(** What the parser promises of its result. *)
Definition psf_wf (self : Psf) : Prop :=
  in_u 32 (version self) ∧
  map_Forall (λ k v, is_bytes k ∧ (0 ∉ k) ∧ utf8_valid k = true ∧ value_ok v) (entries self).

Lemma read_key_loop_safe data fuel pos acc : is_bytes data → 0 ≤ pos →
  (blen data - pos) `max` 0 < Z.of_nat fuel → is_bytes acc → 0 ∉ acc →
  match read_key_loop data fuel acc pos with
  | (pos', Ok key) => 0 ≤ pos' ∧ is_bytes key ∧ 0 ∉ key
  | (_, Err _) => True
  | (_, Panic) => False
  end.
Proof.
  intros Hd. revert pos acc. induction fuel as [|fuel IH]; intros pos acc Hp Hf Ha Hn; [lia|].
  cbn [read_key_loop].
  destruct (read_exact_cases (E:=PsfError) data 1 pos Hp ltac:(lia))
    as [(bs & Hl & Hr & E)|[_ E]].
  - destruct bs as [|x [|]]; simpl in Hl; try lia.
    pose proof (reads_bytes data Hd _ _ Hr) as Hx.
    pose proof (reads_length _ _ _ Hr ltac:(done)) as Hle. simpl in Hle.
    erewrite st_bind_ok by by apply read_u8_reads.
    destruct (Z.eqb_spec x 0); [split; [lia|done]|].
    apply IH; [lia|lia|by apply Forall_app|]. rewrite not_elem_of_app. set_solver.
  - unfold read_u8, mbind, st_bind. by rewrite E.
Qed.

Lemma safe_read_raw_entry data : is_bytes data → safe (read_raw_entry data) raw_ok.
Proof. intros. unfold read_raw_entry. do 5 safe_step. by apply safe_ret. Qed.

Lemma advances_raw_entry data : advances data (read_raw_entry data) 16.
Proof.
  unfold read_raw_entry. change 16 with (2 + (2 + (4 + (4 + (4 + 0))))).
  repeat (apply advances_bind; [by auto with safe|lia|intros ?]). apply advances_ret.
Qed.

Lemma safe_from_utf8 bs :
  safe (from_utf8 bs) (λ s, s = bs ∧ utf8_valid bs = true).
Proof.
  unfold from_utf8. apply safe_lift; destruct (utf8_valid bs); [|done..].
  by intros a [= ->].
Qed.

Lemma safe_read_value data fmt raw : is_bytes data → raw_ok raw →
  safe (read_value data fmt raw) value_ok.
Proof.
  intros Hd (_ & _ & Hl & _). unfold in_u in Hl. destruct fmt; simpl.
  - eapply safe_bind; [apply safe_read_exact; [done|lia]|]. intros bs [Hb _].
    by apply safe_ret.
  - eapply safe_bind; [apply safe_read_exact; [done|case_match; lia]|]. intros bs [Hb _].
    eapply safe_bind; [apply safe_from_utf8|]. intros s [-> Hs]. by apply safe_ret.
  - safe_step. by apply safe_ret.
Qed.

Lemma safe_parse_entry data kto dto raw : is_bytes data → in_u 32 kto → in_u 32 dto →
  raw_ok raw → safe (parse_entry data kto dto raw) (λ '(k, v),
    is_bytes k ∧ (0 ∉ k) ∧ utf8_valid k = true ∧ value_ok v).
Proof.
  intros Hd Hk Hdt Hraw. unfold parse_entry.
  eapply safe_bind; [apply safe_seek; by apply (wrap_range 64)|]. intros _ _.
  eapply (safe_bind _ _ (λ key, is_bytes key ∧ 0 ∉ key)).
  { intros pos Hp. apply (read_key_loop_safe data _ pos []); try done; [lia|set_solver]. }
  intros key [Hkey Hnul].
  eapply safe_bind; [apply safe_from_utf8|]. intros k [-> Hutf].
  eapply safe_bind; [apply safe_seek; by apply (wrap_range 64)|]. intros _ _.
  eapply (safe_bind _ _ (λ _, True)).
  { apply safe_lift; [done|]. by destruct (from_u16 _). }
  intros fmt _. eapply safe_bind; [by apply safe_read_value|]. intros v Hv.
  by apply safe_ret.
Qed.

Lemma safe_parse_entries data kto dto raws m : is_bytes data → in_u 32 kto → in_u 32 dto →
  Forall raw_ok raws → psf_wf {| version := 0; entries := m |} →
  safe (parse_entries data kto dto raws m) (λ m, psf_wf {| version := 0; entries := m |}).
Proof.
  intros Hd Hk Hdt Hraws. revert m. induction Hraws as [|raw raws Hr _ IH]; intros m Hm.
  { by apply safe_ret. }
  cbn [parse_entries]. eapply safe_bind; [by apply safe_parse_entry|]. intros [k v] Hkv.
  apply IH. destruct Hm as [? Hm]. split; [done|]. simpl in *.
  by apply map_Forall_insert_2.
Qed.

(** ** Properties *)

(** C3: parsing what the writer of the format produces gives back the version
    and every field: integers with their sign, text without its terminator,
    binary data as it is; the last field of a key wins. *)
Theorem parse_encode ver fs : format_ok ver fs →
  parse (encode ver fs) =
  Ok {| version := ver;
        entries := list_to_map (reverse ((λ f, (f_key f, f_value f)) <$> fs)) |}.
Proof.
  intros (Hver & Hfs & Hkt & Hdt & Hn). set (data := encode ver fs).
  pose proof (reads_all data) as Hr.
  set (n := Z.of_nat (length fs)) in *.
  assert (blen data = 20 + 16 * n + blen (key_table fs) + blen (data_table fs)) as Hlen.
  { unfold data, encode. fold n. rewrite !length_app, !le_encode_length, !Nat2Z.inj_add.
    rewrite encoded_table_length, raw_table_length. simpl length. lia. }
  unfold data in Hr at 2. unfold encode in Hr. fold n in Hr.
  change [0; 80; 83; 70] with (le_encode 4 0x46535000) in Hr.
  rewrite !reads_encode, !reads_app in Hr.
  rewrite encoded_table_length, raw_table_length in Hr. simpl Z.of_nat in Hr.
  destruct Hr as (R1 & R2 & R3 & R4 & R5 & R6 & R7 & R8).
  unfold parse, parse_cursor.
  erewrite st_bind_ok by by apply read_u32_encode.
  change (negb (0x46535000 =? PSF_MAGIC) && negb (swap_bytes32 0x46535000 =? PSF_MAGIC))
    with false. cbn [negb].
  erewrite st_bind_ok by by apply read_u32_encode.
  erewrite st_bind_ok by (apply read_u32_encode; [done|unfold in_u; lia]).
  erewrite st_bind_ok by (apply read_u32_encode; [done|unfold in_u; lia]).
  erewrite st_bind_ok by (apply read_u32_encode; [done|unfold in_u; lia]).
  replace (Z.to_nat n) with (length (raw_table 0 0 fs)) by (rewrite raw_table_length; lia).
  erewrite st_bind_ok by (apply read_raw_table; [done|apply raw_table_ok; lia]).
  destruct (parse_entries_spec data
    (0 + 4 + 4 + 4 + 4 + 4 + 16 * Z.of_nat (length (raw_table 0 0 fs)))
    (20 + 16 * n) (20 + 16 * n + blen (key_table fs)) 0 0 fs ∅) as [p' E].
  - done.
  - replace (20 + 16 * n + 0) with (0 + 4 + 4 + 4 + 4 + 4 + 16 * n) by lia. done.
  - replace (20 + 16 * n + blen (key_table fs) + 0) with
      (0 + 4 + 4 + 4 + 4 + 4 + 16 * n + blen (key_table fs)) by lia. done.
  - lia.
  - lia.
  - erewrite st_bind_ok by done. unfold mret, st_ret. cbn [snd]. by rewrite foldl_insert_list_to_map, right_id_L by apply _.
Qed.

(** Parsing never panics. *)
Lemma parse_cursor_safe data : is_bytes data → safe (parse_cursor data) psf_wf.
Proof.
  intros Hd. unfold parse_cursor. safe_step. destruct (_ && _).
  { by apply safe_lift. }
  safe_step. safe_step. safe_step. safe_step.
  eapply safe_bind; [by apply safe_read_n, safe_read_raw_entry|]. intros raws [Hr _].
  eapply safe_bind; [apply safe_parse_entries; try done|].
  intros m [_ Hm]. by apply safe_ret.
Qed.

Lemma parse_no_panic data : is_bytes data → parse data ≠ Panic.
Proof.
  intros Hd. pose proof (parse_cursor_safe data Hd 0 ltac:(lia)) as Hs. unfold parse.
  by destruct (parse_cursor data 0) as [p [psf|e|]].
Qed.

(** C7: every file, however damaged, is parsed or rejected with an error: the
    parser never panics and its loops end.  What it accepts is well formed: the
    keys are UTF-8 text without NUL, text values are UTF-8, integers are [i32],
    and the version is a [u32]. *)
Theorem parse_total data : is_bytes data →
  match parse data with
  | Ok psf => psf_wf psf
  | Err _ => True
  | Panic => False
  end.
Proof.
  intros Hd. pose proof (parse_cursor_safe data Hd 0 ltac:(lia)) as Hs. unfold parse.
  destruct (parse_cursor data 0) as [p [psf|e|]]; [by destruct Hs|done|done].
Qed.

(** The header is checked first.  A file of fewer than four bytes is an
    I/O error; one whose first word is the magic number in neither byte order is
    [InvalidMagic] with that word, whatever follows; and an accepted file holds
    its 20-byte header and the whole index table the header announces. *)
Theorem parse_header data : is_bytes data →
  let word i := le_decode (take 4 (drop i data)) in
  (blen data < 4 → parse data = Err (Io UnexpectedEof)) ∧
  (4 ≤ blen data → word 0%nat ≠ PSF_MAGIC → swap_bytes32 (word 0%nat) ≠ PSF_MAGIC →
    parse data = Err (InvalidMagic (word 0%nat))) ∧
  (∀ psf, parse data = Ok psf →
    version psf = word 4%nat ∧ 20 + 16 * word 16%nat ≤ blen data).
Proof.
  intros Hd word.
  assert (∀ pos, 0 ≤ pos →
    (pos + 4 ≤ blen data ∧ read_u32 (E:=PsfError) data pos =
       (pos + 4, Ok (word (Z.to_nat pos)))) ∨
    (blen data < pos + 4 ∧
     read_u32 (E:=PsfError) data pos = (blen data, Err (Io UnexpectedEof)))) as H32.
  { intros pos Hp. by apply (read_uint_cases data 4 pos). }
  unfold parse, parse_cursor.
  destruct (H32 0) as [[Hl E0]|[Hl E0]]; [lia| |].
  2: { split_and!; [intros _|lia|intros psf]; by erewrite st_bind_err by done. }
  erewrite st_bind_ok by done. split; [lia|]. split.
  { intros _ H1%Z.eqb_neq H2%Z.eqb_neq. change (word (Z.to_nat 0)) with (word 0%nat).
    by rewrite H1, H2. }
  intros psf Hp. destruct (_ && _); [done|].
  repeat match goal with
  | H : ((read_u32 _ ≫= _) ?p).2 = _ |- _ =>
      destruct (H32 p) as [[? Er]|[? Er]]; [lia| |];
      [erewrite st_bind_ok in H by exact Er | by erewrite st_bind_err in H by exact Er];
      clear Er
  end.
  change (Z.to_nat (0 + 4 + 4 + 4 + 4)) with 16%nat in Hp.
  change (Z.to_nat (0 + 4)) with 4%nat in Hp.
  assert (0 ≤ word 16%nat) as Hn by (apply le_decode_range, Forall_take, Forall_drop; done).
  unfold mbind, st_bind in Hp.
  destruct (read_n _ _ _) as [p [raws|e|]] eqn:En; [|done|done].
  destruct (advances_read_n data (Z.to_nat (word 16%nat)) _ _ (advances_raw_entry data))
    as [_ Hadv]. apply Hadv in En as [-> ?]; [|lia].
  destruct (parse_entries _ _ _ _ _ _) as [p [m|e|]]; [|done|done].
  injection Hp as <-. split; [done|]. lia.
Qed.

End laws.

(** ** Witnesses *)

#[local] Existing Instances byteorder_impl byteorder_impl_laws.

(** The file the unit test builds. *)
Definition test_fields : list field :=
  [{| f_key := str "APP_VER"; f_value := Text (str "01.00"); f_padding := [0; 0] |};
   {| f_key := str "TITLE"; f_value := Text (str "Test Game"); f_padding := [0; 0] |}].

Definition test_psf : bytes := encode PSF_VERSION_1_1 test_fields.

Definition accessor (f : Psf → option bytes) (r : outcome PsfError Psf) : option bytes :=
  match r with Ok psf => f psf | _ => None end.

Lemma test_psf_bytes : is_bytes test_psf.
Proof. by apply (bool_decide_eq_true_1 _); vm_compute. Qed.

Lemma test_fields_ok : format_ok PSF_VERSION_1_1 test_fields.
Proof.
  by apply (bool_decide_eq_true_1 _); vm_compute.
Qed.

Lemma parse_encode_witness :
  parse test_psf = Ok {| version := PSF_VERSION_1_1;
    entries := {[ str "APP_VER" := Text (str "01.00"); str "TITLE" := Text (str "Test Game") ]} |} ∧
  accessor title (parse test_psf) = Some (str "Test Game") ∧
  accessor app_version (parse test_psf) = Some (str "01.00").
Proof.
  split; [|split; vm_compute; reflexivity].
  etransitivity; [exact (parse_encode PSF_VERSION_1_1 test_fields test_fields_ok)|].
  vm_compute. reflexivity.
Defined.

(** A file cut in the middle of a value. *)
Lemma parse_total_witness :
  match parse (take 80 test_psf) with
  | Ok psf => psf_wf psf
  | Err _ => True
  | Panic => False
  end ∧ parse (take 80 test_psf) = Err (Io UnexpectedEof).
Proof.
  split; [|vm_compute; reflexivity].
  apply (parse_total (take 80 test_psf)), Forall_take, test_psf_bytes.
Defined.

(** The second unit test, and the header of the first one's file. *)
Lemma parse_header_witness :
  parse (repeat 0xFF 20) = Err (InvalidMagic 0xFFFFFFFF) ∧
  20 + 16 * le_decode (take 4 (drop 16 test_psf)) ≤ blen test_psf.
Proof.
  split.
  - apply (parse_header (repeat 0xFF 20));
      [by apply (bool_decide_eq_true_1 _); vm_compute|vm_compute; congruence..].
  - eapply (parse_header test_psf test_psf_bytes). vm_compute. reflexivity.
Defined.

End Psf.
