(* ===== verification/Elf.v ===== *)
(** * ELF and SELF files (loader/elf.rs)

    The headers and tables of the executable format, the parser over a cursor,
    the resolution of segment offsets in a SELF wrapper, and the accessors of a
    parsed file.  [tracing] output is left out. *)

From S2P Require Import Prelude CommonTypes Bytes.

Open Scope rust_scope.

Module Elf.

(** ** SELF headers *)

Definition SELF_MAGIC : Z := 0x1D3D154F.

Record SelfHeader := {
  sh_magic : Z; sh_version : Z; sh_mode : Z; sh_endian : Z; sh_attributes : Z;
  sh_category : Z; sh_program_type : Z; sh_padding1 : Z; sh_header_size : Z;
  sh_meta_size : Z; sh_file_size : Z; sh_padding2 : Z; sh_segment_count : Z;
  sh_unknown_1a : Z; sh_padding3 : Z;
}.

Record SelfSegmentHeader := {
  seg_flags : Z; seg_file_offset : Z; seg_file_size : Z; seg_memory_size : Z;
}.

Definition is_blocked (self : SelfSegmentHeader) : bool :=
  negb (Z.land (seg_flags self) 0x800 =? 0).
Definition get_id (self : SelfSegmentHeader) : Z :=
  wrap 32 (Z.land (Z.shiftr (seg_flags self) 20) 0xFFF).
Definition is_ordered (self : SelfSegmentHeader) : bool :=
  negb (Z.land (seg_flags self) 1 =? 0).
Definition is_encrypted (self : SelfSegmentHeader) : bool :=
  negb (Z.land (seg_flags self) 2 =? 0).
Definition is_signed (self : SelfSegmentHeader) : bool :=
  negb (Z.land (seg_flags self) 4 =? 0).
Definition is_compressed (self : SelfSegmentHeader) : bool :=
  negb (Z.land (seg_flags self) 8 =? 0).

(** ** ELF headers *)

Definition ELF_MAGIC : bytes := [0x7F; 0x45; 0x4C; 0x46].

Inductive ElfType :=
| ET_None | ET_Relocatable | ET_Executable | ET_SharedObject | ET_Core
| ET_SceExec | ET_SceStubLib | ET_SceDynExec | ET_SceDynamic
| ET_Unknown (v : Z).

#[export] Instance ElfType_eq_dec : EqDecision ElfType.
Proof. solve_decision. Defined.

Definition ElfType_from (v : Z) : ElfType :=
  if v =? 0x0 then ET_None
  else if v =? 0x1 then ET_Relocatable
  else if v =? 0x2 then ET_Executable
  else if v =? 0x3 then ET_SharedObject
  else if v =? 0x4 then ET_Core
  else if v =? 0xFE00 then ET_SceExec
  else if v =? 0xFE0C then ET_SceStubLib
  else if v =? 0xFE10 then ET_SceDynExec
  else if v =? 0xFE18 then ET_SceDynamic
  else ET_Unknown v.

Record ElfIdent := {
  id_magic : bytes; id_class : Z; id_data : Z; id_version : Z; id_os_abi : Z;
  id_abi_version : Z; id_padding : bytes;
}.

Record ElfHeader := {
  ident : ElfIdent; elf_type : ElfType; machine : Z; eh_version : Z; entry : Z;
  phoff : Z; shoff : Z; eh_flags : Z; ehsize : Z; phentsize : Z; phnum : Z;
  shentsize : Z; shnum : Z; shstrndx : Z;
}.

(** ** Program headers *)

Inductive ProgramType :=
| PT_Null | PT_Load | PT_Dynamic | PT_Interp | PT_Note | PT_Phdr | PT_Tls
| PT_SceRela | PT_SceDynlibData | PT_SceProcParam | PT_SceModuleParam | PT_SceRelro
| PT_GnuEhFrame | PT_GnuStack | PT_GnuRelro | PT_SceComment | PT_SceLibVersion
| PT_Unknown (v : Z).

#[export] Instance ProgramType_eq_dec : EqDecision ProgramType.
Proof. solve_decision. Defined.

Definition ProgramType_from (v : Z) : ProgramType :=
  if v =? 0x0 then PT_Null
  else if v =? 0x1 then PT_Load
  else if v =? 0x2 then PT_Dynamic
  else if v =? 0x3 then PT_Interp
  else if v =? 0x4 then PT_Note
  else if v =? 0x6 then PT_Phdr
  else if v =? 0x7 then PT_Tls
  else if v =? 0x60000000 then PT_SceRela
  else if v =? 0x61000000 then PT_SceDynlibData
  else if v =? 0x61000001 then PT_SceProcParam
  else if v =? 0x61000002 then PT_SceModuleParam
  else if v =? 0x61000010 then PT_SceRelro
  else if v =? 0x6474E550 then PT_GnuEhFrame
  else if v =? 0x6474E551 then PT_GnuStack
  else if v =? 0x6474E552 then PT_GnuRelro
  else if v =? 0x6FFFFF00 then PT_SceComment
  else if v =? 0x6FFFFF01 then PT_SceLibVersion
  else PT_Unknown v.

Module ProgramFlags.
Definition EXECUTE : Z := 0x1.
Definition WRITE : Z := 0x2.
Definition READ : Z := 0x4.
Definition ALL_FLAGS : Z := Z.lor EXECUTE (Z.lor WRITE READ).
End ProgramFlags.

Record ProgramHeader := {
  phdr_type : ProgramType; ph_flags : Z; ph_offset : Z; ph_vaddr : Z; ph_paddr : Z;
  ph_filesz : Z; ph_memsz : Z; ph_align : Z;
}.

(** ** Dynamic tags *)

Module sce_dynamic.
Definition DT_NULL : Z := 0.
Definition DT_NEEDED : Z := 0x00000001.
Definition DT_RELA : Z := 0x00000007.
Definition DT_INIT : Z := 0x0000000C.
Definition DT_FINI : Z := 0x0000000D.
Definition DT_DEBUG : Z := 0x00000015.
Definition DT_TEXTREL : Z := 0x00000016.
Definition DT_INIT_ARRAY : Z := 0x00000019.
Definition DT_FINI_ARRAY : Z := 0x0000001A.
Definition DT_INIT_ARRAYSZ : Z := 0x0000001B.
Definition DT_FINI_ARRAYSZ : Z := 0x0000001C.
Definition DT_FLAGS : Z := 0x0000001E.
Definition DT_PREINIT_ARRAY : Z := 0x00000020.
Definition DT_PREINIT_ARRAYSZ : Z := 0x00000021.
Definition DT_SCE_FINGERPRINT : Z := 0x61000007.
Definition DT_SCE_ORIGINAL_FILENAME : Z := 0x61000009.
Definition DT_SCE_MODULE_INFO : Z := 0x6100000D.
Definition DT_SCE_NEEDED_MODULE : Z := 0x6100000F.
Definition DT_SCE_MODULE_ATTR : Z := 0x61000011.
Definition DT_SCE_EXPORT_LIB : Z := 0x61000013.
Definition DT_SCE_IMPORT_LIB : Z := 0x61000015.
Definition DT_SCE_IMPORT_LIB_ATTR : Z := 0x61000019.
Definition DT_SCE_HASH : Z := 0x61000025.
Definition DT_SCE_PLTGOT : Z := 0x61000027.
Definition DT_SCE_JMPREL : Z := 0x61000029.
Definition DT_SCE_PLTREL : Z := 0x6100002B.
Definition DT_SCE_PLTRELSZ : Z := 0x6100002D.
Definition DT_SCE_RELA : Z := 0x6100002F.
Definition DT_SCE_RELASZ : Z := 0x61000031.
Definition DT_SCE_RELAENT : Z := 0x61000033.
Definition DT_SCE_STRTAB : Z := 0x61000035.
Definition DT_SCE_STRSZ : Z := 0x61000037.
Definition DT_SCE_SYMTAB : Z := 0x61000039.
Definition DT_SCE_SYMENT : Z := 0x6100003B.
Definition DT_SCE_HASHSZ : Z := 0x6100003D.
Definition DT_SCE_SYMTABSZ : Z := 0x6100003F.
End sce_dynamic.

Record DynamicEntry := { tag : Z; dt_value : Z }.

(** ** Symbols and relocations *)

Definition STB_LOCAL : Z := 0.
Definition STB_GLOBAL : Z := 1.
Definition STB_WEAK : Z := 2.
Definition STT_NOTYPE : Z := 0.
Definition STT_OBJECT : Z := 1.
Definition STT_FUNC : Z := 2.
Definition STT_SECTION : Z := 3.
Definition STT_TLS : Z := 6.
Definition STT_SCE : Z := 11.

Record ElfSymbol := {
  name_offset : Z; st_info : Z; st_other : Z; shndx : Z; st_value : Z; st_size : Z;
}.

Definition binding (self : ElfSymbol) : Z := Z.shiftr (st_info self) 4.
Definition sym_type (self : ElfSymbol) : Z := Z.land (st_info self) 0xF.
Definition visibility (self : ElfSymbol) : Z := Z.land (st_other self) 3.

Definition R_X86_64_64 : Z := 1.
Definition R_X86_64_GLOB_DAT : Z := 6.
Definition R_X86_64_JUMP_SLOT : Z := 7.
Definition R_X86_64_RELATIVE : Z := 8.
Definition R_X86_64_DTPMOD64 : Z := 16.

Record ElfRelocation := { r_offset : Z; r_info : Z; r_addend : Z }.

Definition symbol (self : ElfRelocation) : Z := wrap 32 (Z.shiftr (r_info self) 32).
Definition rel_type (self : ElfRelocation) : Z := wrap 32 (Z.land (r_info self) 0xFFFFFFFF).

Inductive SelfProgramType :=
| SPT_Fake | SPT_NpdrmExec | SPT_NpdrmDynlib | SPT_SystemExec | SPT_SystemDynlib
| SPT_HostKernel | SPT_SecureModule | SPT_SecureKernel
| SPT_Unknown (v : Z).

Definition SelfProgramType_from (v : Z) : SelfProgramType :=
  if v =? 0x1 then SPT_Fake
  else if v =? 0x4 then SPT_NpdrmExec
  else if v =? 0x5 then SPT_NpdrmDynlib
  else if v =? 0x8 then SPT_SystemExec
  else if v =? 0x9 then SPT_SystemDynlib
  else if v =? 0xC then SPT_HostKernel
  else if v =? 0xE then SPT_SecureModule
  else if v =? 0xF then SPT_SecureKernel
  else SPT_Unknown v.

(** ** The parsed file *)

Inductive ElfError :=
| Io (e : io_error)
| NotElf
| Not64Bit (class : Z)
| NotLittleEndian (data : Z)
| NotX86_64 (machine : Z).

#[export] Instance elf_from_io : FromIo ElfError := Io.

Record Elf := {
  is_self : bool;
  self_header : option SelfHeader;
  self_segments : list SelfSegmentHeader;
  header : ElfHeader;
  program_headers : list ProgramHeader;
  dynamic_entries : list DynamicEntry;
  dynlib_data : bytes;
  data : bytes;
}.

Section parser.
Context `{ByteOrder} `{Bitflags}.

Definition read_symbol (bs : bytes) : st Z io_error ElfSymbol :=
  name_offset ← read_u32 bs;
  info ← read_u8 bs;
  other ← read_u8 bs;
  shndx ← read_u16 bs;
  value ← read_u64 bs;
  size ← read_u64 bs;
  mret {| name_offset := name_offset; st_info := info; st_other := other;
          shndx := shndx; st_value := value; st_size := size |}.

Definition ElfSymbol_from_bytes (bs : bytes) : pan (option ElfSymbol) :=
  if blen bs <? 24 then mret None
  else s ← expect (read_symbol bs 0).2; mret (Some s).

Definition read_relocation (bs : bytes) : st Z io_error ElfRelocation :=
  offset ← read_u64 bs;
  info ← read_u64 bs;
  addend ← read_i64 bs;
  mret {| r_offset := offset; r_info := info; r_addend := addend |}.

Definition ElfRelocation_from_bytes (bs : bytes) : pan (option ElfRelocation) :=
  if blen bs <? 24 then mret None
  else r ← expect (read_relocation bs 0).2; mret (Some r).

(** *** Headers *)

Section headers.
Variable file : bytes.

Definition read_self_header : st Z ElfError SelfHeader :=
  magic ← read_u32 file;
  version ← read_u8 file;
  mode ← read_u8 file;
  endian ← read_u8 file;
  attributes ← read_u8 file;
  category ← read_u8 file;
  program_type ← read_u8 file;
  padding1 ← read_u16 file;
  header_size ← read_u16 file;
  meta_size ← read_u16 file;
  file_size ← read_u32 file;
  padding2 ← read_u32 file;
  segment_count ← read_u16 file;
  unknown_1a ← read_u16 file;
  padding3 ← read_u32 file;
  mret {| sh_magic := magic; sh_version := version; sh_mode := mode; sh_endian := endian;
          sh_attributes := attributes; sh_category := category;
          sh_program_type := program_type; sh_padding1 := padding1;
          sh_header_size := header_size; sh_meta_size := meta_size;
          sh_file_size := file_size; sh_padding2 := padding2;
          sh_segment_count := segment_count; sh_unknown_1a := unknown_1a;
          sh_padding3 := padding3 |}.

Definition read_self_segment : st Z ElfError SelfSegmentHeader :=
  flags ← read_u64 file;
  file_offset ← read_u64 file;
  file_size ← read_u64 file;
  memory_size ← read_u64 file;
  mret {| seg_flags := flags; seg_file_offset := file_offset;
          seg_file_size := file_size; seg_memory_size := memory_size |}.

Definition read_self_segments (count : Z) : st Z ElfError (list SelfSegmentHeader) :=
  read_n (Z.to_nat count) read_self_segment.

Definition elf_err {A} (e : ElfError) : st Z ElfError A := st_lift (Err e).

Definition read_elf_header : st Z ElfError ElfHeader :=
  magic ← read_exact file 4;
  if negb (bool_decide (magic = ELF_MAGIC)) then elf_err NotElf else
  class ← read_u8 file;
  if negb (class =? 2) then elf_err (Not64Bit class) else
  data ← read_u8 file;
  if negb (data =? 1) then elf_err (NotLittleEndian data) else
  version ← read_u8 file;
  os_abi ← read_u8 file;
  abi_version ← read_u8 file;
  padding ← read_exact file 7;
  elf_type_raw ← read_u16 file;
  machine ← read_u16 file;
  if negb (machine =? 62) then elf_err (NotX86_64 machine) else
  eh_version ← read_u32 file;
  entry ← read_u64 file;
  phoff ← read_u64 file;
  shoff ← read_u64 file;
  flags ← read_u32 file;
  ehsize ← read_u16 file;
  phentsize ← read_u16 file;
  phnum ← read_u16 file;
  shentsize ← read_u16 file;
  shnum ← read_u16 file;
  shstrndx ← read_u16 file;
  mret {| ident := {| id_magic := magic; id_class := class; id_data := data;
                      id_version := version; id_os_abi := os_abi;
                      id_abi_version := abi_version; id_padding := padding |};
          elf_type := ElfType_from elf_type_raw; machine := machine;
          eh_version := eh_version; entry := entry; phoff := phoff; shoff := shoff;
          eh_flags := flags; ehsize := ehsize; phentsize := phentsize; phnum := phnum;
          shentsize := shentsize; shnum := shnum; shstrndx := shstrndx |}.

Definition read_program_header : st Z ElfError ProgramHeader :=
  type_raw ← read_u32 file;
  flags_raw ← read_u32 file;
  offset ← read_u64 file;
  vaddr ← read_u64 file;
  paddr ← read_u64 file;
  filesz ← read_u64 file;
  memsz ← read_u64 file;
  align ← read_u64 file;
  mret {| phdr_type := ProgramType_from type_raw;
          ph_flags := from_bits_truncate ProgramFlags.ALL_FLAGS flags_raw;
          ph_offset := offset; ph_vaddr := vaddr; ph_paddr := paddr;
          ph_filesz := filesz; ph_memsz := memsz; ph_align := align |}.

(** The optional SELF wrapper: its header, its segments and where the ELF
    header starts. *)
Definition read_wrapper
  : st Z ElfError (bool * option SelfHeader * list SelfSegmentHeader * Z) :=
  first_u32 ← read_u32 file;
  _ ← seek 0;
  if first_u32 =? SELF_MAGIC then
    sh ← read_self_header;
    segments ← read_self_segments (sh_segment_count sh);
    elf_off ← position;
    mret (true, Some sh, segments, elf_off)
  else mret (false, None, [], 0).

(** The dynamic table: up to [n] entries, cut short by [DT_NULL] or by the end
    of the file. *)
Fixpoint read_dynamic (n : nat) : st Z Empty_set (list DynamicEntry) :=
  match n with
  | O => mret []
  | S n' =>
      st_match (E:=io_error) (read_i64 file) (λ tag,
        st_match (E:=io_error) (read_u64 file) (λ value,
          if tag =? sce_dynamic.DT_NULL then mret []
          else
            rest ← read_dynamic n';
            mret ({| tag := tag; dt_value := value |} :: rest))
          (λ _, mret []))
        (λ _, mret [])
  end.

End headers.

(** *** Segment offsets *)

Fixpoint find_own_segment (segs : list SelfSegmentHeader) (phdr_idx : nat) : option Z :=
  match segs with
  | [] => None
  | seg :: segs' =>
      if is_blocked seg && (get_id seg =? Z.of_nat phdr_idx)
      then Some (seg_file_offset seg)
      else find_own_segment segs' phdr_idx
  end.

Fixpoint find_parent_segment (segs : list SelfSegmentHeader)
    (phs : list ProgramHeader) (target_offset : Z) : option Z :=
  match segs with
  | [] => None
  | seg :: segs' =>
      if negb (is_blocked seg) then find_parent_segment segs' phs target_offset
      else
        match phs !! Z.to_nat (get_id seg) with
        | None => find_parent_segment segs' phs target_offset
        | Some parent_ph =>
            if (ph_offset parent_ph <=? target_offset)
               && (target_offset <? ph_offset parent_ph +64 ph_filesz parent_ph)
            then Some (seg_file_offset seg +64 (target_offset -64 ph_offset parent_ph))
            else find_parent_segment segs' phs target_offset
        end
  end.

Definition resolve_file_offset_internal (is_self : bool)
    (self_segments : list SelfSegmentHeader) (program_headers : list ProgramHeader)
    (phdr_idx : nat) (phdr : ProgramHeader) (elf_offset : Z) : Z :=
  if negb is_self then ph_offset phdr
  else
    match find_own_segment self_segments phdr_idx with
    | Some off => off
    | None =>
        match find_parent_segment self_segments program_headers (ph_offset phdr) with
        | Some real => real
        | None => elf_offset +64 ph_offset phdr
        end
    end.

(** The last [PT_DYNAMIC] and the last [PT_SCE_DYNLIBDATA]. *)
Fixpoint scan_phdrs (idx : nat) (phs : list ProgramHeader)
    (acc : option nat * option nat) : option nat * option nat :=
  match phs with
  | [] => acc
  | ph :: phs' =>
      scan_phdrs (S idx) phs'
        (match phdr_type ph with
         | PT_Dynamic => (Some idx, acc.2)
         | PT_SceDynlibData => (acc.1, Some idx)
         | _ => acc
         end)
  end.

Definition extract_dynamic (file : bytes) (resolve : nat → ProgramHeader → Z)
    (phs : list ProgramHeader) (idx : option nat) : st Z ElfError (list DynamicEntry) :=
  match idx with
  | None => mret []
  | Some dyn_idx =>
      dyn_ph ← st_lift (unwrap (phs !! dyn_idx));
      let real_offset := resolve dyn_idx dyn_ph in
      if real_offset <? blen file then
        _ ← seek real_offset;
        let num_entries := ph_filesz dyn_ph / 16 in
        st_match (read_dynamic file (Z.to_nat num_entries)) mret
          (λ e : Empty_set, match e with end)
      else mret []
  end.

Definition extract_dynlib (file : bytes) (resolve : nat → ProgramHeader → Z)
    (phs : list ProgramHeader) (idx : option nat) : st Z ElfError bytes :=
  match idx with
  | None => mret []
  | Some dl_idx =>
      dl_ph ← st_lift (unwrap (phs !! dl_idx));
      let start := resolve dl_idx dl_ph in
      let end_ := start +64 ph_filesz dl_ph in
      if end_ <=? blen file then st_lift (slice file start end_)
      else if start <? blen file then st_lift (slice_from file start)
      else mret []
  end.

(** The first half of [parse]: the wrapper and the two kinds of headers. *)
Definition read_headers (file : bytes)
  : st Z ElfError ((bool * option SelfHeader * list SelfSegmentHeader * Z)
                   * ElfHeader * list ProgramHeader) :=
  wrapper ← read_wrapper file;
  let elf_offset := wrapper.2 in
  _ ← seek elf_offset;
  header ← read_elf_header file;
  _ ← seek (elf_offset +64 phoff header);
  program_headers ← read_n (Z.to_nat (phnum header)) (read_program_header file);
  mret (wrapper, header, program_headers).

Definition parse_cursor (file : bytes) : st Z ElfError Elf :=
  '((is_self, self_header, self_segments, elf_offset), header, program_headers)
    ← read_headers file;
  let '(dynamic_phdr_idx, dynlib_phdr_idx) := scan_phdrs 0 program_headers (None, None) in
  let resolve idx ph :=
    resolve_file_offset_internal is_self self_segments program_headers idx ph elf_offset in
  dynamic_entries ← extract_dynamic file resolve program_headers dynamic_phdr_idx;
  dynlib_data ← extract_dynlib file resolve program_headers dynlib_phdr_idx;
  mret {| is_self := is_self; self_header := self_header; self_segments := self_segments;
          header := header; program_headers := program_headers;
          dynamic_entries := dynamic_entries; dynlib_data := dynlib_data;
          data := file |}.

Definition parse (file : bytes) : outcome ElfError Elf := (parse_cursor file 0).2.

(** [Elf::open], over the result of reading the file. *)
Definition open {path} (fs_read : path → outcome io_error bytes) (p : path)
  : outcome ElfError Elf :=
  file ← map_err Io (fs_read p); parse file.

End parser.

(** ** Accessors *)

Definition is_shared_lib (self : Elf) : bool :=
  bool_decide (elf_type (header self) = ET_SceDynamic).
Definition entry_point (self : Elf) : VAddr := entry (header self).

Definition elf_offset (self : Elf) : Z :=
  if is_self self then
    match self_header self with
    | Some sh => 32 +64 (sh_segment_count sh *64 32)
    | None => 0
    end
  else 0.

Definition of_type (t : ProgramType) (ph : ProgramHeader) : bool :=
  bool_decide (phdr_type ph = t).

Definition load_segments (self : Elf) : list ProgramHeader :=
  filter (λ ph, of_type PT_Load ph = true) (program_headers self).

Definition resolve_file_offset (self : Elf) (phdr_idx : nat) (phdr : ProgramHeader) : Z :=
  resolve_file_offset_internal (is_self self) (self_segments self) (program_headers self)
    phdr_idx phdr (elf_offset self).

Definition find_phdr (t : ProgramType) (self : Elf) : option ProgramHeader :=
  snd <$> list_find (λ ph, of_type t ph = true) (program_headers self).

Definition tls_header : Elf → option ProgramHeader := find_phdr PT_Tls.
Definition proc_param_header : Elf → option ProgramHeader := find_phdr PT_SceProcParam.
Definition eh_frame_header : Elf → option ProgramHeader := find_phdr PT_GnuEhFrame.

Definition dynamic_value (self : Elf) (t : Z) : option Z :=
  dt_value ∘ snd <$> list_find (λ e, tag e = t) (dynamic_entries self).

Definition segment_data {E} (self : Elf) (ph : ProgramHeader) : outcome E bytes :=
  let offset := elf_offset self +64 ph_offset ph in
  let end_ := offset +64 ph_filesz ph in
  if end_ <=? blen (data self) then slice (data self) offset end_ else mret [].

(** The scan for the terminator: [while end < len && data[end] != 0]. *)
Fixpoint scan_string (fuel : nat) (bs : bytes) (end_ : Z) : pan Z :=
  match fuel with
  | O => Panic
  | S fuel' =>
      if end_ <? blen bs then
        x ← index bs end_;
        if x =? 0 then mret end_ else scan_string fuel' bs (end_ + 1)
      else mret end_
  end.

Definition get_dynamic_string (self : Elf) (offset : Z) : pan bytes :=
  match dynamic_value self sce_dynamic.DT_SCE_STRTAB with
  | None => mret []
  | Some strtab_off =>
      match dynamic_value self sce_dynamic.DT_SCE_STRSZ with
      | None => mret []
      | Some strtab_sz =>
          if strtab_sz <=? offset then mret []
          else
            let start := strtab_off +64 offset in
            if blen (dynlib_data self) <=? start then mret []
            else
              end_ ← scan_string (S (length (dynlib_data self))) (dynlib_data self) start;
              bs ← slice (dynlib_data self) start end_;
              mret (from_utf8_lossy bs)
      end
  end.

Fixpoint needed_loop (self : Elf) (es : list DynamicEntry) : pan (list bytes) :=
  match es with
  | [] => mret []
  | e :: es' =>
      if (tag e =? sce_dynamic.DT_NEEDED) || (tag e =? sce_dynamic.DT_SCE_IMPORT_LIB) then
        name ← get_dynamic_string self (dt_value e);
        rest ← needed_loop self es';
        mret (if bool_decide (name = []) then rest else name :: rest)
      else needed_loop self es'
  end.

Definition needed_modules (self : Elf) : pan (list bytes) :=
  needed_loop self (dynamic_entries self).

(** ** Reference definitions *)

(** The discriminants of the enumerations. *)
Definition ElfType_to (t : ElfType) : Z :=
  match t with
  | ET_None => 0x0 | ET_Relocatable => 0x1 | ET_Executable => 0x2
  | ET_SharedObject => 0x3 | ET_Core => 0x4 | ET_SceExec => 0xFE00
  | ET_SceStubLib => 0xFE0C | ET_SceDynExec => 0xFE10 | ET_SceDynamic => 0xFE18
  | ET_Unknown v => v
  end.

Definition ProgramType_to (t : ProgramType) : Z :=
  match t with
  | PT_Null => 0x0 | PT_Load => 0x1 | PT_Dynamic => 0x2 | PT_Interp => 0x3
  | PT_Note => 0x4 | PT_Phdr => 0x6 | PT_Tls => 0x7 | PT_SceRela => 0x60000000
  | PT_SceDynlibData => 0x61000000 | PT_SceProcParam => 0x61000001
  | PT_SceModuleParam => 0x61000002 | PT_SceRelro => 0x61000010
  | PT_GnuEhFrame => 0x6474E550 | PT_GnuStack => 0x6474E551
  | PT_GnuRelro => 0x6474E552 | PT_SceComment => 0x6FFFFF00
  | PT_SceLibVersion => 0x6FFFFF01 | PT_Unknown v => v
  end.

Lemma ElfType_to_from v : ElfType_to (ElfType_from v) = v.
Proof.
  unfold ElfType_from.
  repeat match goal with
  | |- context [v =? ?k] => destruct (Z.eqb_spec v k) as [->|]; [done|]
  end. done.
Qed.

Lemma ProgramType_to_from v : ProgramType_to (ProgramType_from v) = v.
Proof.
  unfold ProgramType_from.
  repeat match goal with
  | |- context [v =? ?k] => destruct (Z.eqb_spec v k) as [->|]; [done|]
  end. done.
Qed.

(** The files a linker writes. *)
Definition encode_self_header (h : SelfHeader) : bytes :=
  le_encode 4 (sh_magic h)
  ++ [sh_version h; sh_mode h; sh_endian h; sh_attributes h; sh_category h; sh_program_type h]
  ++ le_encode 2 (sh_padding1 h) ++ le_encode 2 (sh_header_size h)
  ++ le_encode 2 (sh_meta_size h) ++ le_encode 4 (sh_file_size h)
  ++ le_encode 4 (sh_padding2 h) ++ le_encode 2 (sh_segment_count h)
  ++ le_encode 2 (sh_unknown_1a h) ++ le_encode 4 (sh_padding3 h).

Definition encode_segment (s : SelfSegmentHeader) : bytes :=
  le_encode 8 (seg_flags s) ++ le_encode 8 (seg_file_offset s)
  ++ le_encode 8 (seg_file_size s) ++ le_encode 8 (seg_memory_size s).

Definition encode_header (h : ElfHeader) : bytes :=
  id_magic (ident h)
  ++ [id_class (ident h); id_data (ident h); id_version (ident h); id_os_abi (ident h);
      id_abi_version (ident h)]
  ++ id_padding (ident h)
  ++ le_encode 2 (ElfType_to (elf_type h)) ++ le_encode 2 (machine h)
  ++ le_encode 4 (eh_version h) ++ le_encode 8 (entry h) ++ le_encode 8 (phoff h)
  ++ le_encode 8 (shoff h) ++ le_encode 4 (eh_flags h) ++ le_encode 2 (ehsize h)
  ++ le_encode 2 (phentsize h) ++ le_encode 2 (phnum h) ++ le_encode 2 (shentsize h)
  ++ le_encode 2 (shnum h) ++ le_encode 2 (shstrndx h).

Definition encode_phdr (p : ProgramHeader) : bytes :=
  le_encode 4 (ProgramType_to (phdr_type p)) ++ le_encode 4 (ph_flags p)
  ++ le_encode 8 (ph_offset p) ++ le_encode 8 (ph_vaddr p) ++ le_encode 8 (ph_paddr p)
  ++ le_encode 8 (ph_filesz p) ++ le_encode 8 (ph_memsz p) ++ le_encode 8 (ph_align p).

Definition self_header_ok (h : SelfHeader) : Prop :=
  sh_magic h = SELF_MAGIC ∧
  Forall is_byte [sh_version h; sh_mode h; sh_endian h; sh_attributes h; sh_category h;
                  sh_program_type h] ∧
  Forall (in_u 16) [sh_padding1 h; sh_header_size h; sh_meta_size h; sh_segment_count h;
                    sh_unknown_1a h] ∧
  Forall (in_u 32) [sh_file_size h; sh_padding2 h; sh_padding3 h].

Definition segment_ok (s : SelfSegmentHeader) : Prop :=
  Forall (in_u 64) [seg_flags s; seg_file_offset s; seg_file_size s; seg_memory_size s].

Definition header_ok (h : ElfHeader) : Prop :=
  id_magic (ident h) = ELF_MAGIC ∧ id_class (ident h) = 2 ∧ id_data (ident h) = 1 ∧
  Forall is_byte [id_version (ident h); id_os_abi (ident h); id_abi_version (ident h)] ∧
  is_bytes (id_padding (ident h)) ∧ length (id_padding (ident h)) = 7%nat ∧
  ElfType_from (ElfType_to (elf_type h)) = elf_type h ∧
  in_u 16 (ElfType_to (elf_type h)) ∧ machine h = 62 ∧
  Forall (in_u 32) [eh_version h; eh_flags h] ∧
  Forall (in_u 64) [entry h; phoff h; shoff h] ∧
  Forall (in_u 16) [ehsize h; phentsize h; phnum h; shentsize h; shnum h; shstrndx h].

Definition phdr_ok (p : ProgramHeader) : Prop :=
  ProgramType_from (ProgramType_to (phdr_type p)) = phdr_type p ∧
  in_u 32 (ProgramType_to (phdr_type p)) ∧ in_u 3 (ph_flags p) ∧
  Forall (in_u 64) [ph_offset p; ph_vaddr p; ph_paddr p; ph_filesz p; ph_memsz p; ph_align p].

(** The optional wrapper of a file. *)
Definition wrapper : Type := option (SelfHeader * list SelfSegmentHeader).

Definition encode_wrapper (w : wrapper) : bytes :=
  match w with
  | None => []
  | Some (h, segs) => encode_self_header h ++ concat (encode_segment <$> segs)
  end.

Definition wrapper_ok (w : wrapper) : Prop :=
  match w with
  | None => True
  | Some (h, segs) =>
      self_header_ok h ∧ Forall segment_ok segs ∧ sh_segment_count h = Z.of_nat (length segs)
  end.

Definition wrapper_view (w : wrapper)
  : bool * option SelfHeader * list SelfSegmentHeader * Z :=
  match w with
  | None => (false, None, [], 0)
  | Some (h, segs) => (true, Some h, segs, 32 + 32 * Z.of_nat (length segs))
  end.

(** A whole file: wrapper, ELF header, a gap up to the program headers, and
    anything after them. *)
Definition encode_file (w : wrapper) (h : ElfHeader) (gap : bytes)
    (phs : list ProgramHeader) (rest : bytes) : bytes :=
  encode_wrapper w ++ encode_header h ++ gap ++ concat (encode_phdr <$> phs) ++ rest.

Definition file_ok (w : wrapper) (h : ElfHeader) (gap : bytes) (phs : list ProgramHeader)
  : Prop :=
  wrapper_ok w ∧ header_ok h ∧ Forall phdr_ok phs ∧
  phoff h = 64 + blen gap ∧ phnum h = Z.of_nat (length phs) ∧
  blen (encode_wrapper w) + phoff h < 2 ^ 64.

#[export] Instance self_header_ok_dec h : Decision (self_header_ok h).
Proof. unfold self_header_ok; apply _. Defined.
#[export] Instance segment_ok_dec s : Decision (segment_ok s).
Proof. unfold segment_ok; apply _. Defined.
#[export] Instance header_ok_dec h : Decision (header_ok h).
Proof. unfold header_ok; apply _. Defined.
#[export] Instance phdr_ok_dec p : Decision (phdr_ok p).
Proof. unfold phdr_ok; apply _. Defined.
#[export] Instance wrapper_ok_dec w : Decision (wrapper_ok w).
Proof. destruct w as [[??]|]; simpl; apply _. Defined.
#[export] Instance file_ok_dec w h gap phs : Decision (file_ok w h gap phs).
Proof. unfold file_ok; apply _. Defined.

(** The dynamic table as a function of the bytes at its offset. *)
Fixpoint dyn_table (n : nat) (bs : bytes) : list DynamicEntry :=
  match n with
  | O => []
  | S n' =>
      if blen bs <? 16 then []
      else
        let t := to_signed 64 (le_decode (take 8 bs)) in
        let v := le_decode (take 8 (drop 8 bs)) in
        if t =? sce_dynamic.DT_NULL then []
        else {| tag := t; dt_value := v |} :: dyn_table n' (drop 16 bs)
  end.

(** [i] is the last program header of type [t]. *)
Definition last_of_type (t : ProgramType) (phs : list ProgramHeader) (i : nat)
    (ph : ProgramHeader) : Prop :=
  phs !! i = Some ph ∧ phdr_type ph = t ∧
  ∀ j ph', (i < j)%nat → phs !! j = Some ph' → phdr_type ph' ≠ t.

(** What the parser stores for the two tables, given where their headers
    point. *)
Definition dynamic_spec (file : bytes) (resolve : nat → ProgramHeader → Z)
    (phs : list ProgramHeader) (es : list DynamicEntry) : Prop :=
  (∀ i ph, last_of_type PT_Dynamic phs i ph →
     es = dyn_table (Z.to_nat (ph_filesz ph / 16)) (drop (Z.to_nat (resolve i ph)) file)) ∧
  ((∀ i ph, ¬ last_of_type PT_Dynamic phs i ph) → es = []).

Definition dynlib_spec (file : bytes) (resolve : nat → ProgramHeader → Z)
    (phs : list ProgramHeader) (bs : bytes) : Prop :=
  (∀ i ph, last_of_type PT_SceDynlibData phs i ph →
     bs = take (Z.to_nat (ph_filesz ph)) (drop (Z.to_nat (resolve i ph)) file)) ∧
  ((∀ i ph, ¬ last_of_type PT_SceDynlibData phs i ph) → bs = []).

(** The end of the dynamic-library data wraps around to a place in the file. *)
Definition dynlib_wraps (file : bytes) (resolve : nat → ProgramHeader → Z)
    (phs : list ProgramHeader) : Prop :=
  ∃ i ph, last_of_type PT_SceDynlibData phs i ph ∧
    2 ^ 64 ≤ resolve i ph + ph_filesz ph ≤ 2 ^ 64 + blen file.

(** The string at the head of a buffer: the bytes before the terminator. *)
Fixpoint cstr (bs : bytes) : bytes :=
  match bs with
  | [] => []
  | x :: bs' => if x =? 0 then [] else x :: cstr bs'
  end.

(** The string an offset of the string table denotes; the empty string when the
    table is missing or the offset lies outside it or outside the data. *)
Definition dynamic_string (self : Elf) (offset : Z) : bytes :=
  match dynamic_value self sce_dynamic.DT_SCE_STRTAB,
        dynamic_value self sce_dynamic.DT_SCE_STRSZ with
  | Some strtab_off, Some strtab_sz =>
      if decide (offset < strtab_sz)
      then from_utf8_lossy (cstr (drop (Z.to_nat (strtab_off +64 offset)) (dynlib_data self)))
      else []
  | _, _ => []
  end.

Definition is_needed (e : DynamicEntry) : Prop :=
  tag e = sce_dynamic.DT_NEEDED ∨ tag e = sce_dynamic.DT_SCE_IMPORT_LIB.
#[export] Instance is_needed_dec e : Decision (is_needed e).
Proof. unfold is_needed; apply _. Defined.

Definition encode_symbol (s : ElfSymbol) : bytes :=
  le_encode 4 (name_offset s) ++ [st_info s; st_other s] ++ le_encode 2 (shndx s)
  ++ le_encode 8 (st_value s) ++ le_encode 8 (st_size s).

Definition symbol_ok (s : ElfSymbol) : Prop :=
  in_u 32 (name_offset s) ∧ is_byte (st_info s) ∧ is_byte (st_other s) ∧
  in_u 16 (shndx s) ∧ in_u 64 (st_value s) ∧ in_u 64 (st_size s).

Definition encode_relocation (r : ElfRelocation) : bytes :=
  le_encode 8 (r_offset r) ++ le_encode 8 (r_info r) ++ le_encode 8 (wrap 64 (r_addend r)).

Definition relocation_ok (r : ElfRelocation) : Prop :=
  in_u 64 (r_offset r) ∧ in_u 64 (r_info r) ∧ - 2 ^ 63 ≤ r_addend r < 2 ^ 63.

(** ** Lemmas: strings *)

Lemma cstr_length bs : (length (cstr bs) ≤ length bs)%nat.
Proof. induction bs as [|x bs IH]; simpl; [done|]. case_match; simpl; lia. Qed.

Lemma scan_string_spec fuel bs p : 0 ≤ p ≤ blen bs → blen bs - p < Z.of_nat fuel →
  scan_string fuel bs p = Ok (p + blen (cstr (drop (Z.to_nat p) bs))).
Proof.
  revert p. induction fuel as [|fuel IH]; intros p Hp Hf; [lia|]. cbn [scan_string].
  destruct (Z.ltb_spec p (blen bs)) as [Hl|Hl].
  - destruct (lookup_lt_is_Some_2 bs (Z.to_nat p) ltac:(lia)) as [x Hx].
    unfold index. rewrite Hx. cbn. rewrite (drop_S _ x) by done. cbn [cstr].
    destruct (x =? 0); [simpl; f_equal; lia|].
    rewrite IH by lia. f_equal. simpl length.
    replace (Z.to_nat (p + 1)) with (S (Z.to_nat p)) by lia. lia.
  - rewrite drop_ge by lia. simpl. f_equal. lia.
Qed.

Lemma cstr_prefix bs : take (length (cstr bs)) bs = cstr bs.
Proof.
  induction bs as [|x bs IH]; [done|]. simpl. case_match; [done|]. simpl. by rewrite IH.
Qed.

(** The terminated string at an offset of the data. *)
Lemma read_string_spec d start : 0 ≤ start ≤ blen d →
  (end_ ← scan_string (S (length d)) d start;
   bs ← slice d start end_; mret (from_utf8_lossy bs)) =
  Ok (from_utf8_lossy (cstr (drop (Z.to_nat start) d))).
Proof.
  intros Hs. rewrite scan_string_spec by lia. cbn -[from_utf8_lossy].
  pose proof (cstr_length (drop (Z.to_nat start) d)) as Hc. rewrite length_drop in Hc.
  unfold slice. rewrite !(proj2 (Z.leb_le _ _)) by lia. cbn -[from_utf8_lossy].
  do 2 f_equal. rewrite Z.add_simpl_l, Nat2Z.id. apply cstr_prefix.
Qed.

Lemma get_dynamic_string_Ok self offset :
  get_dynamic_string self offset = Ok (dynamic_string self offset).
Proof.
  unfold get_dynamic_string, dynamic_string.
  destruct (dynamic_value self _) as [o|]; [|done].
  destruct (dynamic_value self _) as [n|]; [|done].
  destruct (Z.leb_spec n offset); [rewrite decide_False by lia; done|].
  rewrite decide_True by lia. set (start := o +64 offset).
  assert (0 ≤ start) by by apply (wrap_range 64). set (d := dynlib_data self).
  destruct (Z.leb_spec (blen d) start).
  { rewrite drop_ge by lia. done. }
  apply read_string_spec. lia.
Qed.

(** ** Lemmas: reading back what was written *)

Section laws.
Context `{ByteOrder, !ByteOrderLaws} `{Bitflags, !BitflagsLaws}.

Lemma read_self_header_encode file pos h :
  reads file pos (encode_self_header h) → self_header_ok h →
  read_self_header file pos = (pos + 32, Ok h).
Proof.
  unfold encode_self_header, self_header_ok. rewrite !Forall_cons. intros Hr [Em Hok].
  destruct_and! Hok. assert (in_u 32 (sh_magic h)) by by rewrite Em.
  split_reads Hr. unfold read_self_header. repeat read_field.
  unfold mret, st_ret. destruct h. f_equal. lia.
Qed.

Lemma read_segment_encode file pos s :
  reads file pos (encode_segment s) → segment_ok s →
  read_self_segment file pos = (pos + 32, Ok s).
Proof.
  unfold encode_segment, segment_ok. rewrite !Forall_cons. intros Hr Hok.
  destruct_and! Hok. split_reads Hr. unfold read_self_segment. repeat read_field.
  unfold mret, st_ret. destruct s. f_equal. lia.
Qed.

Lemma read_phdr_encode file pos p :
  reads file pos (encode_phdr p) → phdr_ok p →
  read_program_header file pos = (pos + 56, Ok p).
Proof.
  unfold encode_phdr, phdr_ok. rewrite !Forall_cons. intros Hr (Ht & ? & Hf & Hok).
  destruct_and! Hok. assert (in_u 32 (ph_flags p)) by (unfold in_u in *; lia).
  split_reads Hr. unfold read_program_header. repeat read_field.
  unfold mret, st_ret. rewrite Ht, from_bits_truncate_spec.
  change ProgramFlags.ALL_FLAGS with (2 ^ 3 - 1). rewrite land_pow2_ones by lia.
  rewrite Z.mod_small by exact Hf. destruct p. f_equal. lia.
Qed.

Lemma read_header_encode file pos h :
  reads file pos (encode_header h) → header_ok h →
  read_elf_header file pos = (pos + 64, Ok h).
Proof.
  unfold encode_header, header_ok. rewrite !Forall_cons.
  intros Hr (Em & Ec & Ed & Hb & Hpad & Lpad & Ht & ? & Emach & H32 & H64 & H16).
  destruct_and! Hb. destruct_and! H32. destruct_and! H64. destruct_and! H16.
  assert (in_u 16 (machine h)) by by rewrite Emach.
  apply reads_app in Hr as [Rm Hr]. rewrite Em in Rm, Hr.
  change (blen ELF_MAGIC) with 4 in Hr. split_reads Hr.
  apply reads_app in Hr as [Rp Hr]. rewrite Lpad in Hr. change (Z.of_nat 7) with 7 in Hr.
  split_reads Hr. unfold read_elf_header.
  erewrite st_bind_ok; [|by apply (read_exact_reads file pos ELF_MAGIC)].
  rewrite bool_decide_eq_true_2 by done. cbn [negb].
 
 read_field. rewrite Ec, Z.eqb_refl. cbn [negb]. read_field. rewrite Ed, Z.eqb_refl. cbn [negb].
  do 3 read_field.
  erewrite st_bind_ok; [|apply read_exact_reads in Rp; rewrite Lpad in Rp; exact Rp].
  do 2 read_field. rewrite Emach, Z.eqb_refl. cbn [negb].
  repeat read_field.
  unfold mret, st_ret. rewrite Ht. destruct h as [[]]. simpl in *. subst.
  f_equal. lia.
Qed.

(** A header that is read is what the bytes at the cursor encode. *)
Lemma read_elf_header_found file pos pos' h : is_bytes file → 0 ≤ pos →
  read_elf_header file pos = (pos', Ok h) → reads file pos (encode_header h).
Proof.
  intros Hb Hp Hr. unfold read_elf_header in Hr.
  apply st_bind_inv in Hr as (p & mg & E & Hr).
  apply read_exact_found in E as (-> & Lm & Rm); [|lia..].
  case_bool_decide as Em; [cbn [negb] in Hr|done].
  found_field Hb Hr. destruct (Z.eqb_spec v 2); [cbn [negb] in Hr|done].
  found_field Hb Hr. destruct (Z.eqb_spec v0 1); [cbn [negb] in Hr|done].
  do 3 found_field Hb Hr.
  apply st_bind_inv in Hr as (p & pad & E & Hr).
  apply read_exact_found in E as (-> & Lp & Rp); [|lia..].
  do 2 found_field Hb Hr. destruct (Z.eqb_spec v5 62); [cbn [negb] in Hr|done].
  repeat found_field Hb Hr. injection Hr as _ <-. unfold encode_header. cbn.
  rewrite ElfType_to_from, reads_app, Lm. split; [done|].
  do 5 (apply (proj2 (reads_app file _ [_] _)); split; [assumption|]; change (blen [_]) with 1).
  apply reads_app. rewrite Lp. split; [exact Rp|].
  rewrite !reads_encode2, !reads_encode4, !reads_encode8. rewrite ?reads_encode2, ?reads_encode4.
  rewrite ?reads_encode2. by split_and!.
Qed.

Lemma encode_segment_length s : blen (encode_segment s) = 32.
Proof. unfold encode_segment. by rewrite !length_app, !le_encode_length. Qed.
Lemma encode_phdr_length p : blen (encode_phdr p) = 56.
Proof. unfold encode_phdr. by rewrite !length_app, !le_encode_length. Qed.
Lemma encode_self_header_length h : blen (encode_self_header h) = 32.
Proof. unfold encode_self_header. by rewrite !length_app, !le_encode_length. Qed.
Lemma encode_header_length h : header_ok h → blen (encode_header h) = 64.
Proof.
  intros (Em & _ & _ & _ & _ & Hp & _). unfold encode_header.
  by rewrite Em, !length_app, !le_encode_length, Hp.
Qed.

Lemma encode_wrapper_length w : blen (encode_wrapper w) = (wrapper_view w).2.
Proof.
  destruct w as [[h segs]|]; [|done]. cbn [encode_wrapper wrapper_view snd].
  rewrite length_app, Nat2Z.inj_add, encode_self_header_length.
  by rewrite (blen_concat _ (λ _, True) 32 segs (λ s _, encode_segment_length s))
    by by apply Forall_true.
Qed.

Lemma read_wrapper_encode file w h rest : reads file 0 (encode_wrapper w) →
  reads file (blen (encode_wrapper w)) (encode_header h ++ rest) →
  wrapper_ok w → header_ok h →
  ∃ pos, read_wrapper file 0 = (pos, Ok (wrapper_view w)).
Proof.
  intros Hw Hh Hok Hhok. unfold read_wrapper. destruct w as [[sh segs]|]; cbn [encode_wrapper wrapper_ok wrapper_view] in *.
  - destruct Hok as (Hsh & Hsegs & Hn). apply reads_app in Hw as [Hw1 Hw2].
    rewrite encode_self_header_length in Hw2.
    pose proof Hw1 as Hm. unfold encode_self_header in Hm. split_reads Hm.
    rewrite (proj1 Hsh) in R.
    erewrite st_bind_ok; [|by apply read_u32_encode].
    erewrite st_bind_ok by done. rewrite Z.eqb_refl.
    erewrite st_bind_ok by by apply read_self_header_encode.
    unfold read_self_segments. rewrite Hn, Nat2Z.id.
    erewrite st_bind_ok.
    2: { apply (read_n_encode file (read_self_segment file) encode_segment segment_ok 32);
         [by intros; apply encode_segment_length|by intros; apply read_segment_encode|..];
         done. }
    erewrite st_bind_ok by done. eexists. unfold mret, st_ret. repeat f_equal.
  - apply reads_app in Hh as [Hh _]. unfold encode_header in Hh.
    rewrite (proj1 Hhok) in Hh. apply reads_app in Hh as [Hh _].
    change ELF_MAGIC with (le_encode 4 0x464C457F) in Hh.
    erewrite st_bind_ok; [|by apply read_u32_encode].
    erewrite st_bind_ok by done. by eexists.
Qed.

Lemma read_headers_encode w h gap phs rest : file_ok w h gap phs →
  ∃ pos, read_headers (encode_file w h gap phs rest) 0 =
    (pos, Ok (wrapper_view w, h, phs)).
Proof.
  intros (Hw & Hh & Hphs & Hoff & Hnum & Hlim).
  pose proof (reads_all (encode_file w h gap phs rest)) as Hr.
  unfold encode_file in Hr at 2. set (file := encode_file w h gap phs rest) in *.
  apply reads_app in Hr as [R1 Hr]. pose proof Hr as Hr0.
  apply reads_app in Hr as [R2 Hr]. apply reads_app in Hr as [_ Hr].
  apply reads_app in Hr as [R3 _]. rewrite Z.add_0_l in *.
  rewrite encode_header_length in R3 by done.
  destruct (read_wrapper_encode file w h _ R1 Hr0 Hw Hh) as [p E].
  rewrite encode_wrapper_length in R2, R3, Hlim.
  assert (0 ≤ (wrapper_view w).2) as Hw0 by (rewrite <-encode_wrapper_length; lia).
  unfold read_headers. erewrite st_bind_ok by done. erewrite st_bind_ok by done.
  erewrite st_bind_ok by by apply read_header_encode. unwrap64.
  erewrite st_bind_ok by done. rewrite Hnum, Nat2Z.id.
  erewrite st_bind_ok; [by eexists|].
  apply (read_n_encode file (read_program_header file) encode_phdr phdr_ok 56);
    [by intros; apply encode_phdr_length|by intros; apply read_phdr_encode| |done].
  rewrite Hoff. by rewrite Z.add_assoc.
Qed.


(** The wrapper that is read is the one the file starts with. *)
Lemma read_self_header_found file pos pos' h : is_bytes file → 0 ≤ pos →
  read_self_header file pos = (pos', Ok h) → pos' = pos + 32 ∧ reads file pos (encode_self_header h).
Proof.
  intros Hb Hp Hr. unfold read_self_header in Hr. repeat found_field Hb Hr.
  injection Hr as <- <-. split; [lia|]. unfold encode_self_header. cbn.
  apply reads_encode4. split; [assumption|].
  do 6 (apply (proj2 (reads_app file _ [_] _)); split; [assumption|]; change (blen [_]) with 1).
  repeat (rewrite reads_encode2 || rewrite reads_encode4). by split_and!.
Qed.

Lemma read_self_segment_found file pos pos' s : is_bytes file → 0 ≤ pos →
  read_self_segment file pos = (pos', Ok s) → pos' = pos + 32 ∧ reads file pos (encode_segment s).
Proof.
  intros Hb Hp Hr. unfold read_self_segment in Hr. repeat found_field Hb Hr.
  injection Hr as <- <-. split; [lia|]. unfold encode_segment. cbn. rewrite !reads_encode8.
  by split_and!.
Qed.

Lemma read_wrapper_found file pos' w : is_bytes file →
  read_wrapper file 0 = (pos', Ok (wrapper_view w)) → reads file 0 (encode_wrapper w).
Proof.
  intros Hb Hr. unfold read_wrapper in Hr. apply st_bind_inv in Hr as (p & first & _ & Hr).
  apply st_bind_inv in Hr as (p0 & [] & E & Hr). injection E as <-.
  destruct (first =? SELF_MAGIC).
  - apply st_bind_inv in Hr as (p1 & sh & E1 & Hr). apply st_bind_inv in Hr as (p2 & segs & E2 & Hr).
    apply st_bind_inv in Hr as (p3 & off & _ & Hr). injection Hr as _ Hv.
    destruct w as [[sh' segs']|]; [|done]. injection Hv as -> -> _. cbn [encode_wrapper].
    apply read_self_header_found in E1 as [-> E1]; [|done|lia]. apply reads_app. split; [done|].
    rewrite encode_self_header_length.
    eapply (read_n_found _ _ encode_segment 32); [lia|apply encode_segment_length| |lia|exact E2].
    intros. by apply read_self_segment_found.
  - injection Hr as _ Hv. destruct w as [[sh' segs']|]; [done|]. by apply reads_nil.
Qed.

(** ** Lemmas: the tables *)

Lemma last_of_type_unique t phs i ph j ph' :
  last_of_type t phs i ph → last_of_type t phs j ph' → i = j ∧ ph = ph'.
Proof.
  intros (Hi & Ti & Li) (Hj & Tj & Lj). destruct (Nat.lt_trichotomy i j) as [Hl|[->|Hl]].
  - by destruct (Li j ph' Hl Hj).
  - split; [done|congruence].
  - by destruct (Lj i ph Hl Hi).
Qed.

Definition scan_ok (t : ProgramType) (phs : list ProgramHeader) (o : option nat) : Prop :=
  match o with
  | Some i => ∃ ph, last_of_type t phs i ph
  | None => ∀ i ph, phs !! i = Some ph → phdr_type ph ≠ t
  end.

Lemma scan_ok_snoc t phs ph o : scan_ok t phs o →
  scan_ok t (phs ++ [ph]) (if decide (phdr_type ph = t) then Some (length phs) else o).
Proof.
  intros Ho. case_decide as Ht.
  - exists ph. split_and!; [by apply list_lookup_middle|done|].
    intros j ph' Hj Hl%lookup_lt_Some. rewrite length_app in Hl. simpl in Hl. lia.
  - assert (∀ j ph', (phs ++ [ph]) !! j = Some ph' → phs !! j = Some ph' ∨ ph' = ph) as Hs.
    { intros j ph' [|[_ Hl]]%lookup_app_Some; [by left|right].
      apply list_lookup_singleton_Some in Hl as [_ ->]. done. }
    destruct o as [i|].
    + destruct Ho as (p & Hi & Tp & Lp). exists p. split_and!; [|done|].
      * by apply lookup_app_l_Some.
      * intros j ph' Hij [Hj| ->]%Hs; [by eapply Lp|done].
    + intros j ph' [Hj| ->]%Hs; [by eapply Ho|done].
Qed.

Lemma scan_phdrs_ok pre phs acc :
  scan_ok PT_Dynamic pre acc.1 → scan_ok PT_SceDynlibData pre acc.2 →
  scan_ok PT_Dynamic (pre ++ phs) (scan_phdrs (length pre) phs acc).1 ∧
  scan_ok PT_SceDynlibData (pre ++ phs) (scan_phdrs (length pre) phs acc).2.
Proof.
  revert pre acc. induction phs as [|ph phs IH]; intros pre acc A1 A2.
  { by rewrite app_nil_r. }
  cbn [scan_phdrs]. pose proof (scan_ok_snoc _ _ ph _ A1) as S1.
  pose proof (scan_ok_snoc _ _ ph _ A2) as S2.
  replace (pre ++ ph :: phs) with ((pre ++ [ph]) ++ phs) by by rewrite <-(assoc_L (++)).
  replace (S (length pre)) with (length (pre ++ [ph])) by (rewrite length_app; simpl; lia).
  apply IH; destruct (phdr_type ph); simpl in *; done.
Qed.

Lemma read_dynamic_spec file n pos : is_bytes file → 0 ≤ pos →
  ∃ pos', read_dynamic file n pos = (pos', Ok (dyn_table n (drop (Z.to_nat pos) file))).
Proof.
  intros Hb. revert pos. induction n as [|n IH]; intros pos Hp; [by eexists|].
  cbn [read_dynamic dyn_table]. unfold st_match at 1, read_i64, fmap, st_fmap.
  rewrite length_drop.
  destruct (read_uint_cases (E:=io_error) file 8 pos Hb Hp ltac:(lia)) as [[Hl ->]|[Hl ->]].
  2: { destruct (Z.ltb_spec (Z.of_nat (length file - Z.to_nat pos)) 16); [by eexists|lia]. }
  unfold st_match at 1, read_u64.
  destruct (read_uint_cases (E:=io_error) file 8 (pos + 8) Hb ltac:(lia) ltac:(lia))
    as [[Hl' ->]|[Hl' ->]].
  2: { destruct (Z.ltb_spec (Z.of_nat (length file - Z.to_nat pos)) 16); [by eexists|lia]. }
  destruct (Z.ltb_spec (Z.of_nat (length file - Z.to_nat pos)) 16); [lia|].
  change (Z.to_nat 8) with 8%nat.
  case_match; [by eexists|].
  destruct (IH (pos + 8 + 8) ltac:(lia)) as [pos' E].
  exists pos'. unfold mbind, st_bind. rewrite E. unfold mret, st_ret.
  rewrite !drop_drop. repeat f_equal; lia.
Qed.

Lemma extract_dynlib_spec file resolve phs idx pos :
  scan_ok PT_SceDynlibData phs idx →
  (∀ i ph, phs !! i = Some ph → in_u 64 (resolve i ph) ∧ in_u 64 (ph_filesz ph)) →
  (∃ bs, extract_dynlib file resolve phs idx pos = (pos, Ok bs) ∧
     dynlib_spec file resolve phs bs ∧ ¬ dynlib_wraps file resolve phs) ∨
  (extract_dynlib file resolve phs idx pos = (pos, Panic) ∧ dynlib_wraps file resolve phs).
Proof.
  intros Hs Hr. destruct idx as [i|]; simpl in *.
  2: { left. exists []. split_and!; [done| |].
       - split; [|done]. intros i ph (Hi & Ht & _). by destruct (Hs i ph).
       - intros (i & ph & (Hi & Ht & _) & _). by destruct (Hs i ph). }
  destruct Hs as [ph Hl]. pose proof Hl as (Hi & _).
  erewrite st_bind_ok by (unfold st_lift; by rewrite Hi).
  destruct (Hr i ph Hi) as [Hu Hf]. unfold in_u in *.
  assert (∀ bs, bs = take (Z.to_nat (ph_filesz ph)) (drop (Z.to_nat (resolve i ph)) file) →
    dynlib_spec file resolve phs bs) as Hspec.
  { intros bs ->. split.
    - intros j ph' Hj. by destruct (last_of_type_unique _ _ _ _ _ _ Hl Hj) as [-> ->].
    - intros Hn. by destruct (Hn i ph). }
  destruct (decide (2 ^ 64 ≤ resolve i ph + ph_filesz ph)) as [Hw|Hw].
  - assert (resolve i ph +64 ph_filesz ph = resolve i ph + ph_filesz ph - 2 ^ 64) as Ee.
    { unfold add64, wrap. symmetry. apply Zmod_unique with 1; lia. }
    rewrite Ee. destruct (Z.leb_spec (resolve i ph + ph_filesz ph - 2 ^ 64) (blen file)).
    + right. split; [|exists i, ph; split; [done|lia]].
      unfold st_lift, slice.
      by destruct (Z.leb_spec (resolve i ph) (resolve i ph + ph_filesz ph - 2 ^ 64)); [lia|].
    + left. destruct (Z.ltb_spec (resolve i ph) (blen file)); [lia|].
      exists []. split_and!; [done| |].
      * apply Hspec. rewrite drop_ge by lia. by rewrite take_nil.
      * intros (j & ph' & Hj & Hb). destruct (last_of_type_unique _ _ _ _ _ _ Hl Hj) as [-> ->].
        lia.
  - unwrap64. left.
    assert (¬ dynlib_wraps file resolve phs).
    { intros (j & ph' & Hj & Hb). destruct (last_of_type_unique _ _ _ _ _ _ Hl Hj) as [-> ->].
      lia. }
    unfold st_lift, slice_from, slice.
    destruct (Z.leb_spec (resolve i ph + ph_filesz ph) (blen file)).
    + destruct (Z.leb_spec (resolve i ph) (resolve i ph + ph_filesz ph)); [|lia]. simpl.
      eexists. split_and!; [done| |done]. apply Hspec. f_equal. lia.
    + destruct (Z.ltb_spec (resolve i ph) (blen file)).
      * destruct (Z.leb_spec (resolve i ph) (blen file)); [|lia].
        rewrite (proj2 (Z.leb_le _ _)) by lia. cbn [andb].
        eexists. split_and!; [done| |done]. apply Hspec.
        rewrite !take_ge; [done|rewrite length_drop; lia..].
      * eexists. split_and!; [done| |done]. apply Hspec.
        rewrite drop_ge by lia. by rewrite take_nil.
Qed.

Lemma extract_dynamic_spec file resolve phs idx pos : is_bytes file →
  scan_ok PT_Dynamic phs idx →
  (∀ i ph, phs !! i = Some ph → in_u 64 (resolve i ph) ∧ in_u 64 (ph_filesz ph)) →
  ∃ pos' es, extract_dynamic file resolve phs idx pos = (pos', Ok es) ∧
    dynamic_spec file resolve phs es.
Proof.
  intros Hb Hs Hr. destruct idx as [i|]; simpl in *.
  2: { eexists _, []. split; [done|]. split; [|done].
       intros i ph (Hi & Ht & _). by destruct (Hs i ph). }
  destruct Hs as [ph Hl]. pose proof Hl as (Hi & _).
  erewrite st_bind_ok by (unfold st_lift; by rewrite Hi).
  destruct (Hr i ph Hi) as [[Hu _] _].
  assert (∀ es, es = dyn_table (Z.to_nat (ph_filesz ph / 16))
      (drop (Z.to_nat (resolve i ph)) file) → dynamic_spec file resolve phs es) as Hspec.
  { intros bs ->. split.
    - intros j ph' Hj. by destruct (last_of_type_unique _ _ _ _ _ _ Hl Hj) as [-> ->].
    - intros Hn. by destruct (Hn i ph). }
  destruct (Z.ltb_spec (resolve i ph) (blen file)).
  - erewrite st_bind_ok by done. unfold st_match.
    destruct (read_dynamic_spec file (Z.to_nat (ph_filesz ph / 16)) (resolve i ph) Hb Hu)
      as [pos' ->]. eexists _, _. split; [done|]. by apply Hspec.
  - eexists _, _. split; [done|]. apply Hspec. rewrite drop_ge by lia.
    by destruct (Z.to_nat _).
Qed.


(** ** Lemmas: headers of an arbitrary file *)

Lemma Forall_Forall_cons {A} (P : A → Prop) x l : P x → Forall P l → Forall P (x :: l).
Proof. by constructor. Qed.

Ltac field_ranges := repeat (apply Forall_Forall_cons; [assumption|]); by constructor.

Lemma safe_self_header file : is_bytes file →
  safe (read_self_header file) (λ h, sh_magic h = SELF_MAGIC → self_header_ok h).
Proof.
  intros. unfold read_self_header. do 15 safe_step. apply safe_ret. intros Hm.
  split; [done|]. cbn. split_and!; field_ranges.
Qed.

Lemma safe_self_segment file : is_bytes file → safe (read_self_segment file) segment_ok.
Proof.
  intros. unfold read_self_segment. do 4 safe_step. apply safe_ret.
  unfold segment_ok. cbn. field_ranges.
Qed.

Lemma safe_program_header file : is_bytes file → safe (read_program_header file) phdr_ok.
Proof.
  intros. unfold read_program_header. do 8 safe_step. apply safe_ret.
  unfold phdr_ok. cbn. rewrite ProgramType_to_from. split_and!; try done.
  - rewrite from_bits_truncate_spec. change ProgramFlags.ALL_FLAGS with (2 ^ 3 - 1).
    rewrite land_pow2_ones by lia. unfold in_u. apply Z.mod_pos_bound. lia.
  - field_ranges.
Qed.

Lemma safe_elf_header file : is_bytes file → safe (read_elf_header file) header_ok.
Proof.
  intros Hb. unfold read_elf_header.
  eapply safe_bind; [by apply safe_read_exact|]. intros magic _.
  case_bool_decide as Hm; cbn [negb]; [|by apply safe_lift].
  safe_step. destruct (Z.eqb_spec a 2); cbn [negb]; [|by apply safe_lift].
  safe_step. destruct (Z.eqb_spec a0 1); cbn [negb]; [|by apply safe_lift].
  do 3 safe_step.
  eapply safe_bind; [by apply safe_read_exact|]. intros padding [Hp Lp].
  do 2 safe_step. destruct (Z.eqb_spec a5 62); cbn [negb]; [|by apply safe_lift].
  do 11 safe_step. apply safe_ret. unfold header_ok. cbn. rewrite ElfType_to_from.
  split_and!; try done; try field_ranges. lia.
Qed.

Lemma advances_self_header file : advances file (read_self_header file) 32.
Proof.
  unfold read_self_header.
  change 32 with (4+(1+(1+(1+(1+(1+(1+(2+(2+(2+(4+(4+(2+(2+(4+0))))))))))))))).
  repeat (apply advances_bind; [by auto with safe|lia|intros ?]). apply advances_ret.
Qed.

Lemma advances_self_segment file : advances file (read_self_segment file) 32.
Proof.
  unfold read_self_segment. change 32 with (8 + (8 + (8 + (8 + 0)))).
  repeat (apply advances_bind; [by auto with safe|lia|intros ?]). apply advances_ret.
Qed.

(** The SELF header starts with the word that was tested. *)
Lemma self_header_magic file pos pos' h : read_self_header file pos = (pos', Ok h) →
  ∃ p, read_u32 (E:=ElfError) file pos = (p, Ok (sh_magic h)).
Proof.
  unfold read_self_header. unfold mbind at 1, st_bind at 1.
  destruct (read_u32 file pos) as [p [m|e|]]; [|done|done]. intros E. exists p.
  revert E. repeat (unfold mbind at 1, st_bind at 1;
    match goal with |- context [match ?x with _ => _ end = _] =>
      destruct x as [? [?|?|]]; [|done|done] end).
  by intros [= _ <-].
Qed.

(** What the wrapper reader yields, with where the ELF header starts. *)
Definition wrapper_wf (file : bytes)
    (v : bool * option SelfHeader * list SelfSegmentHeader * Z) : Prop :=
  ∃ w, v = wrapper_view w ∧ wrapper_ok w ∧ v.2 ≤ blen file.

Lemma read_wrapper_safe file : is_bytes file →
  match read_wrapper file 0 with
  | (pos, Ok v) => 0 ≤ pos ∧ wrapper_wf file v
  | (_, Err _) => True
  | (_, Panic) => False
  end.
Proof.
  intros Hb. unfold read_wrapper. unfold mbind at 1, st_bind at 1.
  pose proof (safe_read_u32 (E:=ElfError) file Hb 0 ltac:(lia)) as Hs.
  destruct (read_u32 file 0) as [p [first|e|]] eqn:E0; [|done|done].
  erewrite st_bind_ok by done.
  destruct (Z.eqb_spec first SELF_MAGIC) as [->|].
  2: { split; [lia|]. exists None. split_and!; [done|done|simpl; lia]. }
  unfold mbind at 1, st_bind at 1.
  pose proof (safe_self_header file Hb 0 ltac:(lia)) as Hh.
  destruct (read_self_header file 0) as [p1 [sh|e|]] eqn:E1; [|done|done].
  destruct Hh as [Hp1 Hsh]. destruct (self_header_magic _ _ _ _ E1) as [q Eq].
  rewrite E0 in Eq. injection Eq as _ Eq.
  apply (proj2 (advances_self_header file)) in E1 as [-> Hle]; [|lia].
  unfold read_self_segments, mbind at 1, st_bind at 1.
  pose proof (safe_read_n (Z.to_nat (sh_segment_count sh)) _ _
    (safe_self_segment file Hb) (0 + 32) ltac:(lia)) as Hseg.
  destruct (read_n _ _ _) as [p2 [segs|e|]] eqn:E2; [|done|done].
  destruct Hseg as [Hp2 [Hsegs Hlen]].
  apply (proj2 (advances_read_n file _ _ _ (advances_self_segment file))) in E2
    as [-> Hle2]; [|lia].
  erewrite st_bind_ok by done. split; [done|].
  specialize (Hsh ltac:(congruence)). pose proof Hsh as (_ & _ & H16 & _).
  rewrite !Forall_cons in H16. destruct_and! H16. unfold in_u in *.
  exists (Some (sh, segs)). split; [|split].
  - cbn [wrapper_view]. rewrite Hlen. f_equal. lia.
  - split; [done|]. split; [done|]. lia.
  - cbn [snd]. lia.
Qed.

Definition headers_wf (file : bytes)
    (hs : (bool * option SelfHeader * list SelfSegmentHeader * Z)
          * ElfHeader * list ProgramHeader) : Prop :=
  wrapper_wf file hs.1.1 ∧ header_ok hs.1.2 ∧ Forall phdr_ok hs.2 ∧
  phnum hs.1.2 = Z.of_nat (length hs.2).

Lemma read_headers_safe file : is_bytes file →
  match read_headers file 0 with
  | (pos, Ok hs) => 0 ≤ pos ∧ headers_wf file hs
  | (_, Err _) => True
  | (_, Panic) => False
  end.
Proof.
  intros Hb. unfold read_headers. unfold mbind at 1, st_bind at 1.
  pose proof (read_wrapper_safe file Hb) as Hw.
  destruct (read_wrapper file 0) as [p [v|e|]]; [|done|done]. destruct Hw as [Hp Hw].
  assert (0 ≤ v.2) as Hv.
  { destruct Hw as ([[sh segs]|] & -> & _); cbn; lia. }
  assert (safe (E:=ElfError) (_ ← seek v.2;
     header ← read_elf_header file;
     _ ← seek (v.2 +64 phoff header);
     program_headers ← read_n (Z.to_nat (phnum header)) (read_program_header file);
     mret (v, header, program_headers)) (headers_wf file)) as Hs.
  { eapply safe_bind; [by apply safe_seek|]. intros _ _.
    eapply safe_bind; [by apply safe_elf_header|]. intros h Hh.
    eapply safe_bind; [by apply safe_seek, (wrap_range 64)|]. intros _ _.
    eapply safe_bind; [by apply safe_read_n, safe_program_header|]. intros phs [Hphs Hn].
    apply safe_ret. split_and!; try done.
    - cbn. destruct Hh as (_ & _ & _ & _ & _ & _ & _ & _ & _ & _ & _ & H16).
      rewrite !Forall_cons in H16. destruct_and! H16. unfold in_u in *.
      simpl. rewrite Hn. lia. }
  exact (Hs p Hp).
Qed.

(** Where the headers were found. *)
Lemma read_headers_found file pos w h phs : is_bytes file →
  read_headers file 0 = (pos, Ok (wrapper_view w, h, phs)) →
  let off := (wrapper_view w).2 in
  reads file 0 (encode_wrapper w) ∧ reads file off (encode_header h) ∧
  (read_n (Z.to_nat (phnum h)) (read_program_header file) (off +64 phoff h)).2 = Ok phs.
Proof.
  intros Hb Hr off. unfold read_headers in Hr.
  apply st_bind_inv in Hr as (p1 & v & E1 & Hr). apply st_bind_inv in Hr as (p2 & [] & E2 & Hr).
  apply st_bind_inv in Hr as (p3 & h' & E3 & Hr). apply st_bind_inv in Hr as (p4 & [] & E4 & Hr).
  apply st_bind_inv in Hr as (p5 & phs' & E5 & Hr).
  injection E2 as <-. injection E4 as <-. injection Hr as _ -> -> ->. split_and!.
  - by eapply read_wrapper_found.
  - eapply read_elf_header_found; [done| |exact E3]. destruct w as [[? ?]|]; cbn; lia.
  - unfold off. by rewrite E5.
Qed.

(** Every resolved offset is a [u64]. *)
Lemma resolve_range b segs phs i ph off : Forall segment_ok segs → phdr_ok ph →
  in_u 64 (resolve_file_offset_internal b segs phs i ph off).
Proof.
  intros Hsegs Hph. assert (in_u 64 (ph_offset ph)) as Hoff.
  { destruct Hph as (_ & _ & _ & H64). by apply Forall_cons in H64 as []. }
  unfold resolve_file_offset_internal. destruct b; [|done]. cbn [negb].
  assert (∀ o, find_own_segment segs i = Some o → in_u 64 o) as Hown.
  { induction Hsegs as [|s segs Hs _ IH]; [done|]. cbn [find_own_segment]. intros o.
    case_match; [|by apply IH]. intros [= <-].
    unfold segment_ok in Hs. rewrite !Forall_cons in Hs. by destruct_and! Hs. }
  destruct (find_own_segment segs i) as [o|]; [by apply Hown|].
  assert (∀ o, find_parent_segment segs phs (ph_offset ph) = Some o → in_u 64 o) as Hpar.
  { clear Hown. induction Hsegs as [|s segs Hs _ IH]; [done|]. cbn [find_parent_segment].
    intros o. repeat case_match; try by apply IH. intros [= <-]. by apply wrap_range. }
  destruct (find_parent_segment _ _ _) as [o|]; [by apply Hpar|]. by apply wrap_range.
Qed.


(** The resolution the parser uses, from what [read_headers] yields. *)
Definition resolve_of (v : bool * option SelfHeader * list SelfSegmentHeader * Z)
    (phs : list ProgramHeader) (i : nat) (ph : ProgramHeader) : Z :=
  resolve_file_offset_internal v.1.1.1 v.1.2 phs i ph v.2.

Lemma parse_headers_Ok file pos v h phs : is_bytes file →
  read_headers file 0 = (pos, Ok (v, h, phs)) →
  wrapper_wf file v → Forall phdr_ok phs →
  (dynlib_wraps file (resolve_of v phs) phs ∧ parse file = Panic) ∨
  (¬ dynlib_wraps file (resolve_of v phs) phs ∧ ∃ es bs,
     dynamic_spec file (resolve_of v phs) phs es ∧
     dynlib_spec file (resolve_of v phs) phs bs ∧
     parse file = Ok {| is_self := v.1.1.1; self_header := v.1.1.2; self_segments := v.1.2;
       header := h; program_headers := phs; dynamic_entries := es; dynlib_data := bs;
       data := file |}).
Proof.
  intros Hb E Hv Hphs. unfold parse, parse_cursor. erewrite st_bind_ok by done.
  destruct (scan_phdrs_ok [] phs (None, None)) as [S1 S2]; [done|done|].
  simpl length in S1, S2. rewrite app_nil_l in S1, S2.
  destruct v as [[[b sh] segs] off]. cbn [fst snd] in *.
  destruct (scan_phdrs 0 phs (None, None)) as [o1 o2]. cbn [fst snd] in *.
  assert (∀ i ph, phs !! i = Some ph →
    in_u 64 (resolve_of (b, sh, segs, off) phs i ph) ∧ in_u 64 (ph_filesz ph)) as Hr.
  { intros i ph Hi. rewrite Forall_lookup in Hphs. specialize (Hphs i ph Hi). split.
    - apply resolve_range; [|done]. destruct Hv as ([[sh' segs']|] & [= -> -> -> ->] & Hok & _);
        [apply Hok|constructor].
    - destruct Hphs as (_ & _ & _ & H64). rewrite !Forall_cons in H64. by destruct_and! H64. }
  destruct (extract_dynamic_spec file (resolve_of (b, sh, segs, off) phs) phs o1 pos Hb S1 Hr)
    as (pos' & es & Ees & Hes).
  unfold resolve_of in Ees. cbn [fst snd] in Ees. erewrite st_bind_ok by exact Ees.
  destruct (extract_dynlib_spec file (resolve_of (b, sh, segs, off) phs) phs o2 pos' S2 Hr)
    as [(bs & Ebs & Hbs & Hn)|[Ebs Hw]]; unfold resolve_of in Ebs; cbn [fst snd] in Ebs.
  - right. erewrite st_bind_ok by exact Ebs. split; [done|]. by exists es, bs.
  - left. split; [done|]. unfold mbind, st_bind. by rewrite Ebs.
Qed.

Lemma read_symbol_encode bs pos s : reads bs pos (encode_symbol s) → symbol_ok s →
  read_symbol bs pos = (pos + 24, Ok s).
Proof.
  unfold encode_symbol, symbol_ok. intros Hr Hok. destruct_and! Hok.
  split_reads Hr. unfold read_symbol. repeat read_field.
  unfold mret, st_ret. destruct s. f_equal. lia.
Qed.

Lemma read_relocation_encode bs pos r : reads bs pos (encode_relocation r) →
  relocation_ok r → read_relocation bs pos = (pos + 24, Ok r).
Proof.
  unfold encode_relocation, relocation_ok. intros Hr (? & ? & ?).
  split_reads Hr. unfold read_relocation. do 2 read_field.
  erewrite st_bind_ok by by apply read_i64_encode.
  unfold mret, st_ret. destruct r. f_equal. lia.
Qed.

(** ** Properties *)

(** What a parsed file promises. *)
Definition elf_wf (self : Elf) : Prop :=
  header_ok (header self) ∧ Forall phdr_ok (program_headers self) ∧
  phnum (header self) = Z.of_nat (length (program_headers self)) ∧
  (∃ w, wrapper_ok w ∧ reads (data self) 0 (encode_wrapper w) ∧
     (is_self self, self_header self, self_segments self, elf_offset self) = wrapper_view w) ∧
  elf_offset self ≤ blen (data self).

Lemma elf_offset_view v h phs es bs file : wrapper_wf file v →
  elf_offset {| is_self := v.1.1.1; self_header := v.1.1.2; self_segments := v.1.2;
    header := h; program_headers := phs; dynamic_entries := es; dynlib_data := bs;
    data := file |} = v.2.
Proof.
  intros (w & -> & Hok & _). destruct w as [[sh segs]|]; [|done]. cbn in *.
  destruct Hok as (Hsh & _ & Hn). destruct Hsh as (_ & _ & H16 & _).
  rewrite !Forall_cons in H16. destruct_and! H16. unfold in_u in *. unfold elf_offset. cbn.
  unwrap64. lia.
Qed.


(** C16: parsing what a linker writes (an ELF, or a SELF with its segment table,
    then the program headers at [phoff]) gives back every header field and
    every program header, provided the end of the dynamic-library data does not
    wrap around 2^64. *)
Theorem parse_encode_file w h gap phs rest :
  file_ok w h gap phs →
  let file := encode_file w h gap phs rest in
  is_bytes file → ¬ dynlib_wraps file (resolve_of (wrapper_view w) phs) phs →
  ∃ self, parse file = Ok self ∧ header self = h ∧ program_headers self = phs ∧
    (is_self self, self_header self, self_segments self) = (wrapper_view w).1.
Proof.
  intros Hok file Hb Hn. destruct (read_headers_encode w h gap phs rest Hok) as [pos Eh].
  pose proof (read_headers_safe file Hb) as Hs. unfold file in Hs. rewrite Eh in Hs.
  destruct Hs as (_ & Hv & _ & Hphs & _).
  destruct (parse_headers_Ok file pos _ h phs Hb Eh Hv Hphs)
    as [[? _]|(_ & es & bs & _ & _ & Ep)]; [done|].
  eexists. split; [exact Ep|]. cbn. by destruct (wrapper_view w) as [[[??]?]?].
Qed.

(** C26: [parse] panics exactly when the headers are readable and the last
    [PT_SCE_DYNLIBDATA] has a file size so large that [start + filesz] wraps
    around to a place inside the file: the range check passes and the slice is
    reversed. *)
Theorem parse_panics_iff file : is_bytes file →
  parse file = Panic ↔
  ∃ pos v h phs, read_headers file 0 = (pos, Ok (v, h, phs)) ∧
    dynlib_wraps file (resolve_of v phs) phs.
Proof.
  intros Hb. pose proof (read_headers_safe file Hb) as Hs.
  destruct (read_headers file 0) as [pos [[[v h] phs]|e|]] eqn:Eh; [| |done].
  - destruct Hs as (_ & Hv & _ & Hphs & _).
    destruct (parse_headers_Ok file pos v h phs Hb Eh Hv Hphs)
      as [[Hw Ep]|(Hn & es & bs & _ & _ & Ep)]; rewrite Ep.
    + split; [|done]. intros _. by exists pos, v, h, phs.
    + split; [done|]. intros (? & ? & ? & ? & [= <- <- <- <-] & Hw). done.
  - split; [|by intros (? & ? & ? & ? & ? & ?)].
    unfold parse, parse_cursor, mbind, st_bind. by rewrite Eh.
Qed.

(** Reading an entry from the head of a buffer. *)
Lemma ElfSymbol_from_bytes_encode s rest : symbol_ok s →
  ElfSymbol_from_bytes (encode_symbol s ++ rest) = Ok (Some s).
Proof.
  intros Hs. unfold ElfSymbol_from_bytes. rewrite length_app.
  assert (blen (encode_symbol s) = 24) as Hl
    by (unfold encode_symbol; by rewrite !length_app, !le_encode_length).
  destruct (Z.ltb_spec (Z.of_nat (length (encode_symbol s) + length rest)) 24); [lia|].
  by erewrite read_symbol_encode by
    (try exact Hs; apply (reads_here [] (encode_symbol s) rest)).
Qed.

Lemma ElfRelocation_from_bytes_encode r rest : relocation_ok r →
  ElfRelocation_from_bytes (encode_relocation r ++ rest) = Ok (Some r).
Proof.
  intros Hr. unfold ElfRelocation_from_bytes. rewrite length_app.
  assert (blen (encode_relocation r) = 24) as Hl
    by (unfold encode_relocation; by rewrite !length_app, !le_encode_length).
  destruct (Z.ltb_spec (Z.of_nat (length (encode_relocation r) + length rest)) 24); [lia|].
  by erewrite read_relocation_encode by
    (try exact Hr; apply (reads_here [] (encode_relocation r) rest)).
Qed.

(** The entries of the symbol and relocation tables decode to what was
    encoded, whatever follows them; a buffer shorter than an entry is [None],
    never a panic; and the packed fields lose nothing: binding and type make up
    [info] of a symbol, symbol index and type that of a relocation. *)
Theorem entries_roundtrip rest :
  (∀ s, symbol_ok s →
     ElfSymbol_from_bytes (encode_symbol s ++ rest) = Ok (Some s) ∧
     st_info s = binding s * 16 + sym_type s ∧ 0 ≤ sym_type s < 16) ∧
  (∀ r, relocation_ok r →
     ElfRelocation_from_bytes (encode_relocation r ++ rest) = Ok (Some r) ∧
     r_info r = symbol r * 2 ^ 32 + rel_type r ∧ in_u 32 (rel_type r)) ∧
  (blen rest < 24 → ElfSymbol_from_bytes rest = Ok None ∧
     ElfRelocation_from_bytes rest = Ok None).
Proof.
  split_and!.
  - intros s Hs. split; [|split].
    + by apply ElfSymbol_from_bytes_encode.
    + unfold binding, sym_type. change 0xF with (2 ^ 4 - 1).
      rewrite land_pow2_ones, Z.shiftr_div_pow2 by lia.
      pose proof (Z_div_mod_eq_full (st_info s) (2 ^ 4)). lia.
    + unfold sym_type. change 0xF with (2 ^ 4 - 1). rewrite land_pow2_ones by lia.
      apply Z.mod_pos_bound. lia.
  - intros r Hr. pose proof Hr as (_ & Hi & _). unfold in_u in Hi. split; [|split].
    + by apply ElfRelocation_from_bytes_encode.
    + unfold symbol, rel_type. change 0xFFFFFFFF with (2 ^ 32 - 1).
      rewrite land_pow2_ones, Z.shiftr_div_pow2 by lia.
      pose proof (Z_div_mod_eq_full (r_info r) (2 ^ 32)).
      pose proof (Z.mod_pos_bound (r_info r) (2 ^ 32) ltac:(lia)).
      assert (0 ≤ r_info r / 2 ^ 32) by (apply Z.div_pos; lia).
      assert (r_info r / 2 ^ 32 < 2 ^ 32) by (apply Z.div_lt_upper_bound; lia).
      rewrite !wrap_small by (unfold in_u; lia). lia.
    + apply wrap_range. lia.
  - intros Hl. unfold ElfSymbol_from_bytes, ElfRelocation_from_bytes.
    by destruct (Z.ltb_spec (blen rest) 24); [|lia].
Qed.

End laws.

(** The loop over the dynamic entries. *)
Lemma needed_loop_Ok (self : Elf) es :
  needed_loop self es =
  Ok (filter (λ n, n ≠ [])
        ((λ e, dynamic_string self (dt_value e)) <$> filter is_needed es)).
Proof.
  induction es as [|e es IH]; [done|].
  cbn [needed_loop]. rewrite filter_cons. unfold is_needed at 1.
  destruct (Z.eqb_spec (tag e) sce_dynamic.DT_NEEDED);
    destruct (Z.eqb_spec (tag e) sce_dynamic.DT_SCE_IMPORT_LIB); cbn [orb];
    case_decide as Hd; try (exfalso; tauto); [..|exact IH];
    rewrite get_dynamic_string_Ok, IH, fmap_cons, filter_cons; cbn -[dynamic_string filter];
    by case_bool_decide; case_decide.
Qed.

(** Resolving the names of the needed modules never panics, whatever the
    table offsets are: the result is, in table order, the text up to the
    terminator (or the end of the data) at each [DT_NEEDED] or
    [DT_SCE_IMPORT_LIB] offset, with the empty names left out. *)
Theorem needed_modules_spec (self : Elf) :
  needed_modules self =
  Ok (filter (λ n, n ≠ [])
        ((λ e, dynamic_string self (dt_value e)) <$> filter is_needed (dynamic_entries self))).
Proof. apply needed_loop_Ok. Qed.

(** ** Witnesses *)

#[local] Existing Instances byteorder_impl byteorder_impl_laws
  bitflags_impl bitflags_impl_laws.

Definition sample_ident : ElfIdent :=
  {| id_magic := ELF_MAGIC; id_class := 2; id_data := 1; id_version := 1; id_os_abi := 9;
     id_abi_version := 0; id_padding := repeat 0 7 |}.

Definition sample_header (n : Z) : ElfHeader :=
  {| ident := sample_ident; elf_type := ET_SceDynExec; machine := 62; eh_version := 1;
     entry := 0x400; phoff := 64; shoff := 0; eh_flags := 0; ehsize := 64;
     phentsize := 56; phnum := n; shentsize := 0; shnum := 0; shstrndx := 0 |}.

Definition phdr (t : ProgramType) (off filesz : Z) : ProgramHeader :=
  {| phdr_type := t; ph_flags := 4; ph_offset := off; ph_vaddr := off; ph_paddr := 0;
     ph_filesz := filesz; ph_memsz := filesz; ph_align := 16 |}.

(** A SELF whose dynamic table lies inside the segment of a [PT_LOAD] and whose
    dynamic-library data has a segment of its own. *)
Definition sample_self_header : SelfHeader :=
  {| sh_magic := SELF_MAGIC; sh_version := 0; sh_mode := 1; sh_endian := 1;
     sh_attributes := 0x12; sh_category := 1; sh_program_type := 1; sh_padding1 := 0;
     sh_header_size := 0; sh_meta_size := 0; sh_file_size := 402; sh_padding2 := 0;
     sh_segment_count := 2; sh_unknown_1a := 0x22; sh_padding3 := 0 |}.

Definition sample_segments : list SelfSegmentHeader :=
  [{| seg_flags := 0x200800; seg_file_offset := 328; seg_file_size := 64;
      seg_memory_size := 64 |};
   {| seg_flags := 0x100800; seg_file_offset := 392; seg_file_size := 10;
      seg_memory_size := 10 |}].

Definition sample_phdrs : list ProgramHeader :=
  [phdr PT_Dynamic 0x4000 64; phdr PT_SceDynlibData 0x5000 10; phdr PT_Load 0x4000 64].

Definition sample_rest : bytes :=
  concat ((λ '(t, v), le_encode 8 t ++ le_encode 8 v) <$>
    [(sce_dynamic.DT_SCE_STRTAB, 0); (sce_dynamic.DT_SCE_STRSZ, 10);
     (sce_dynamic.DT_NEEDED, 1); (0, 0)])
  ++ [0] ++ str "libc.prx" ++ [0].

Definition sample_wrapper : wrapper := Some (sample_self_header, sample_segments).

Definition sample_file : bytes :=
  encode_file sample_wrapper (sample_header 3) [] sample_phdrs sample_rest.

Definition parsed (r : outcome ElfError Elf) : Elf :=
  match r with
  | Ok self => self
  | _ => {| is_self := false; self_header := None; self_segments := [];
            header := sample_header 0; program_headers := []; dynamic_entries := [];
            dynlib_data := []; data := [] |}
  end.

Lemma sample_file_bytes : is_bytes sample_file.
Proof. by apply (bool_decide_eq_true_1 _); vm_compute. Qed.

Lemma sample_file_ok : file_ok sample_wrapper (sample_header 3) [] sample_phdrs.
Proof.
  by apply (bool_decide_eq_true_1 _); vm_compute.
Qed.

Lemma sample_no_wrap :
  ¬ dynlib_wraps sample_file (resolve_of (wrapper_view sample_wrapper) sample_phdrs) sample_phdrs.
Proof.
  intros (i & ph & (Hi & Ht & _) & Hw).
  destruct i as [|[|[|i]]]; [..|done]; injection Hi as <-; try discriminate Ht.
  vm_compute in Hw. by destruct Hw as [Hw _].
Qed.


Lemma parse_encode_file_witness :
  ∃ self, parse sample_file = Ok self ∧ header self = sample_header 3 ∧
    program_headers self = sample_phdrs ∧
    (is_self self, self_header self, self_segments self) =
    (true, Some sample_self_header, sample_segments).
Proof.
  exact (parse_encode_file sample_wrapper (sample_header 3) [] sample_phdrs sample_rest
    sample_file_ok sample_file_bytes sample_no_wrap).
Defined.

(** A 120-byte file whose dynamic-library data starts at 100 and is 2^64 - 50
    bytes long. *)
Definition reversed_file : bytes :=
  encode_file None (sample_header 1) [] [phdr PT_SceDynlibData 100 (2 ^ 64 - 50)] [].

Lemma parse_panics_iff_witness : blen reversed_file = 120 ∧ parse reversed_file = Panic.
Proof.
  split; [vm_compute; reflexivity|]. apply (parse_panics_iff reversed_file).
  - by apply (bool_decide_eq_true_1 _); vm_compute.
  - exists 120, (wrapper_view None), (sample_header 1),
      [phdr PT_SceDynlibData 100 (2 ^ 64 - 50)].
    split; [vm_compute; reflexivity|].
    exists 0%nat, (phdr PT_SceDynlibData 100 (2 ^ 64 - 50)). split.
    + split; [done|]. split; [done|]. intros [|j] ph' Hj Hl; [lia|done].
    + vm_compute. split; intros [=].
Defined.

Lemma entries_roundtrip_witness :
  ElfRelocation_from_bytes
    (encode_relocation {| r_offset := 0x10; r_info := 0x300000007; r_addend := -8 |} ++ [0]) =
  Ok (Some {| r_offset := 0x10; r_info := 0x300000007; r_addend := -8 |}) ∧
  ElfSymbol_from_bytes [0] = Ok None.
Proof.
  split.
  - apply (entries_roundtrip [0]). unfold relocation_ok, in_u. simpl. lia.
  - apply (entries_roundtrip [0]). simpl. lia.
Defined.

End Elf.
