(* ===== verification/LinkerModule.v ===== *)
(** * Loading a module (linker/module.rs)

    [load] parses an ELF file, maps its region, copies its segments into guest
    memory and derives the addresses the linker needs; [parse_relocations] joins
    the relocation, symbol and string tables.  The state is the host kernel with
    the memory manager, guest memory and the TLS index counter.  A fresh mapping
    reads as zeros (mmap(2), MAP_ANONYMOUS). *)

From S2P Require Import Prelude CommonTypes BTreeMap PhysicalMemory AddressSpace.
From S2P Require Import VirtualMemory Bytes GuestMemory UnixPath Elf.

Open Scope rust_scope.

Module LinkerModule.

Import Elf Elf.sce_dynamic.

Record ParsedRelocation := {
  offset : Z;
  pr_rel_type : Z;
  addend : Z;
  symbol_name : bytes;
  symbol_binding : Z;
  symbol_type : Z;
  is_jmp_rel : bool;
}.

(** [Module]. *)
Record LoadedModule := {
  name : bytes;
  file : path;
  elf_of : Elf;
  base_virtual_addr : VAddr;
  aligned_base_size : Z;
  proc_param_addr : VAddr;
  eh_frame_hdr_addr : VAddr;
  eh_frame_hdr_size : Z;
  relocations : list ParsedRelocation;
  tls_index : Z;
  tls_image_addr : VAddr;
  tls_image_size : Z;
  tls_size : Z;
  tls_align : Z;
  min_addr : Z;
  init_array_addr : VAddr;
  init_array_size : Z;
  init_addr : VAddr;
}.

(** The errors [load] returns. *)
Inductive link_error :=
| ElfFailed (e : ElfError)
| MemFailed (e : mem_error)
| NoLoadSegments (name : bytes).

(** A returned error, which the caller may handle, or a host fault, which it
    cannot. *)
Inductive load_stop :=
| Failed (e : link_error)
| Faulted (h : halt).

(** A name, as the memory manager keeps it. *)
Definition bytes_string (bs : bytes) : string :=
  String.string_of_list_ascii ((λ b, Ascii.ascii_of_N (Z.to_N b)) <$> bs).

Lemma str_bytes_string bs : is_bytes bs → str (bytes_string bs) = bs.
Proof.
  intros Hb. unfold str, bytes_string. rewrite String.list_ascii_of_string_of_list_ascii.
  induction Hb as [|b bs Hb _ IH]; [done|]. cbn [fmap list_fmap map]. f_equal; [|done].
  unfold is_byte, in_u in Hb. rewrite Ascii.N_ascii_embedding, Z2N.id by lia. done.
Qed.

Section parsing.
Context `{ByteOrder}.

Definition get_string (data : bytes) (strtab_off strtab_sz offset : Z) : pan bytes :=
  if strtab_sz <=? offset then mret []
  else
    let start := strtab_off +64 offset in
    end_ ← scan_string (S (length data)) data start;
    bs ← slice data start end_;
    mret (from_utf8_lossy bs).

(** The symbol a relocation refers to: name, binding, type. *)
Definition symbol_ref (data : bytes) (symtab_off symtab_sz strtab_off strtab_sz : Z)
    (rel : ElfRelocation) : pan (bytes * Z * Z) :=
  let sym_idx := symbol rel in
  if negb (sym_idx =? 0) && (sym_idx *64 24 <? symtab_sz) then
    sym_bytes ← slice_from data (symtab_off +64 (sym_idx *64 24));
    sym ← ElfSymbol_from_bytes sym_bytes;
    match sym with
    | Some sym =>
        name ← get_string data strtab_off strtab_sz (name_offset sym);
        mret (name, binding sym, sym_type sym)
    | None => mret ([], 0, 0)
    end
  else mret ([], 0, 0).

(** [for i in 0..count]. *)
Fixpoint parse_table (n : nat) (i table_off : Z) (is_jmp_rel : bool) (data : bytes)
    (symtab_off symtab_sz strtab_off strtab_sz : Z) : pan (list ParsedRelocation) :=
  match n with
  | O => mret []
  | S n' =>
      bytes ← slice_from data (table_off +64 (i *64 24));
      rel ← ElfRelocation_from_bytes bytes;
      match rel with
      | Some rel =>
          '(name, bind, typ) ← symbol_ref data symtab_off symtab_sz strtab_off strtab_sz rel;
          rest ← parse_table n' (i + 1) table_off is_jmp_rel data
                   symtab_off symtab_sz strtab_off strtab_sz;
          mret ({| offset := r_offset rel; pr_rel_type := rel_type rel; addend := r_addend rel;
                   symbol_name := name; symbol_binding := bind; symbol_type := typ;
                   is_jmp_rel := is_jmp_rel |} :: rest)
      | None => parse_table n' (i + 1) table_off is_jmp_rel data
                  symtab_off symtab_sz strtab_off strtab_sz
      end
  end.

(** One of the two relocation tables, when the file has it. *)
Definition parse_section (elf : Elf) (off_tag sz_tag : Z) (is_jmp_rel : bool)
    (symtab_off symtab_sz strtab_off strtab_sz : Z) : pan (list ParsedRelocation) :=
  match dynamic_value elf off_tag, dynamic_value elf sz_tag with
  | Some off, Some sz =>
      parse_table (Z.to_nat (sz / 24)) 0 off is_jmp_rel (dynlib_data elf)
        symtab_off symtab_sz strtab_off strtab_sz
  | _, _ => mret []
  end.

Definition parse_relocations (elf : Elf) : pan (list ParsedRelocation) :=
  match dynamic_value elf DT_SCE_SYMTAB with
  | None => mret []
  | Some symtab_off =>
  match dynamic_value elf DT_SCE_SYMTABSZ with
  | None => mret []
  | Some symtab_sz =>
  match dynamic_value elf DT_SCE_STRTAB with
  | None => mret []
  | Some strtab_off =>
  match dynamic_value elf DT_SCE_STRSZ with
  | None => mret []
  | Some strtab_sz =>
      standard ← parse_section elf DT_SCE_RELA DT_SCE_RELASZ false
                   symtab_off symtab_sz strtab_off strtab_sz;
      jmprel ← parse_section elf DT_SCE_JMPREL DT_SCE_PLTRELSZ true
                 symtab_off symtab_sz strtab_off strtab_sz;
      mret (standard ++ jmprel)
  end end end end.

End parsing.

(** The bounds of the LOAD segments. *)
Definition segment_bounds (phs : list ProgramHeader) : Z * Z :=
  foldl (λ '(min_addr, max_addr) ph,
           (min_addr `min` ph_vaddr ph, max_addr `max` (ph_vaddr ph +64 ph_memsz ph)))
    (2 ^ 64 - 1, 0) phs.

(** One LOAD segment. *)
Definition copy_segment (elf : Elf) (base min_addr : Z) (ph_idx : nat) (ph : ProgramHeader)
    (m : memory) : outcome halt memory :=
  let dest_addr := base +64 ph_vaddr ph -64 min_addr in
  let src_offset := resolve_file_offset elf ph_idx ph in
  let copy_size := ph_filesz ph in
  if (0 <? copy_size) && (src_offset +64 copy_size <=? blen (data elf)) then
    src ← slice (data elf) src_offset (src_offset +64 copy_size);
    ok_or (store_bytes m dest_addr src) (Fault dest_addr)
  else mret m.

(** The loop over the program headers, with their indices. *)
Fixpoint copy_segments (elf : Elf) (base min_addr : Z) (ph_idx : nat)
    (phs : list ProgramHeader) (m : memory) : outcome halt memory :=
  match phs with
  | [] => mret m
  | ph :: phs' =>
      m ← (if of_type PT_Load ph then copy_segment elf base min_addr ph_idx ph m else mret m);
      copy_segments elf base min_addr (S ph_idx) phs' m
  end.

Section loading.
Context {OS : Type} `{HostOS OS} `{Bitflags} `{ByteOrder}.
(** [std::fs::read]. *)
Variable fs_read : path → outcome io_error bytes.

(** Host kernel and memory manager, guest memory, the TLS index counter. *)
Definition load_state : Type := (OS * Virtual.MemoryManager) * memory * Z.

Definition module_addr (base min_addr : Z) (a : Z) : Z := base +64 a -64 min_addr.

Definition module_name (p : path) : bytes :=
  match file_name p with Some n => from_utf8_lossy n | None => str "unknown" end.

Definition RWX : Z :=
  Z.lor (Z.lor Virtual.MemoryProt.CPU_READ Virtual.MemoryProt.CPU_WRITE)
    Virtual.MemoryProt.CPU_EXEC.
Definition ANON_PRIVATE : Z :=
  Z.lor Virtual.MemoryMapFlags.ANONYMOUS Virtual.MemoryMapFlags.PRIVATE.

Definition load (p : path) : st load_state load_stop LoadedModule := λ '(sys, m, max_tls_index),
  match Elf.open fs_read p with
  | Err e => ((sys, m, max_tls_index), Err (Failed (ElfFailed e)))
  | Panic => ((sys, m, max_tls_index), Panic)
  | Ok elf =>
  let name := module_name p in
  let '(min_addr, max_addr) := segment_bounds (load_segments elf) in
  if min_addr =? 2 ^ 64 - 1 then ((sys, m, max_tls_index), Err (Failed (NoLoadSegments name)))
  else
  let aligned_base_size := align_up (max_addr -64 min_addr) PAGE_SIZE in
  match Virtual.map_memory 0 aligned_base_size RWX ANON_PRIVATE Virtual.Code
          (bytes_string name) sys with
  | (sys, Err e) => ((sys, m, max_tls_index), Err (Failed (MemFailed e)))
  | (sys, Panic) => ((sys, m, max_tls_index), Panic)
  | (sys, Ok base) =>
  let m := map_zeros base (align_up aligned_base_size PAGE_SIZE) m in
  match copy_segments elf base min_addr 0 (program_headers elf) m with
  | Err h => ((sys, m, max_tls_index), Err (Faulted h))
  | Panic => ((sys, m, max_tls_index), Panic)
  | Ok m =>
  let addr := module_addr base min_addr in
  match parse_relocations elf with
  | Err e => match e with end
  | Panic => ((sys, m, max_tls_index), Panic)
  | Ok relocations =>
  let max_tls_index :=
    match tls_header elf with Some _ => add32 max_tls_index 1 | None => max_tls_index end in
  let tls (f : ProgramHeader → Z) := from_option f 0 (tls_header elf) in
  match needed_modules elf with
  | Err e => match e with end
  | Panic => ((sys, m, max_tls_index), Panic)
  | Ok _ =>
    ((sys, m, max_tls_index), Ok
      {| name := name; file := p; elf_of := elf; base_virtual_addr := base;
         aligned_base_size := aligned_base_size;
         proc_param_addr := from_option (λ ph, addr (ph_vaddr ph)) 0 (proc_param_header elf);
         eh_frame_hdr_addr := from_option (λ ph, addr (ph_vaddr ph)) 0 (eh_frame_header elf);
         eh_frame_hdr_size := from_option (λ ph, wrap 32 (ph_filesz ph)) 0 (eh_frame_header elf);
         relocations := relocations;
         tls_index := tls (λ _, max_tls_index);
         tls_image_addr := tls (λ ph, addr (ph_vaddr ph));
         tls_image_size := tls (λ ph, wrap 32 (ph_filesz ph));
         tls_size := tls (λ ph, wrap 32 (ph_memsz ph));
         tls_align := tls (λ ph, wrap 32 (ph_align ph));
         min_addr := min_addr;
         init_array_addr := from_option addr 0 (dynamic_value elf DT_INIT_ARRAY);
         init_array_size := default 0 (dynamic_value elf DT_INIT_ARRAYSZ);
         init_addr := from_option addr 0 (dynamic_value elf DT_INIT) |})
  end end end end end.

End loading.

(** ** Lemmas: the tables *)

(** What a relocation entry stands for, given the symbols. *)
Definition symbol_view (elf : Elf) (syms : list ElfSymbol) (rel : ElfRelocation) : bytes * Z * Z :=
  match (if decide (symbol rel = 0) then None else syms !! Z.to_nat (symbol rel)) with
  | Some s => (dynamic_string elf (name_offset s), binding s, sym_type s)
  | None => ([], 0, 0)
  end.

Definition reloc_view (elf : Elf) (syms : list ElfSymbol) (jmp : bool) (rel : ElfRelocation)
  : ParsedRelocation :=
  let '(n, b, t) := symbol_view elf syms rel in
  {| offset := r_offset rel; pr_rel_type := rel_type rel; addend := r_addend rel;
     symbol_name := n; symbol_binding := b; symbol_type := t; is_jmp_rel := jmp |}.

Lemma slice_from_reads {E} data pos bs : reads data pos bs → bs ≠ [] →
  ∃ rest, slice_from (E:=E) data pos = Ok (bs ++ rest).
Proof.
  intros Hr Hbs. pose proof (reads_length _ _ _ Hr Hbs) as Hl. destruct Hr as (H0 & rest & Hd).
  exists rest. unfold slice_from, slice.
  assert (1 ≤ blen bs) by (destruct bs; [done|simpl; lia]).
  rewrite !(proj2 (Z.leb_le _ _)) by lia. cbn [andb]. rewrite <-Hd. f_equal.
  apply take_ge. rewrite length_drop. lia.
Qed.

(** The [i]-th entry of a table of 24-byte entries. *)
Lemma reads_entry {A} (enc : A → bytes) (l : list A) data off i x :
  (∀ a, blen (enc a) = 24) → reads data off (concat (enc <$> l)) → l !! i = Some x →
  reads data (off + Z.of_nat i * 24) (enc x).
Proof.
  intros Henc. revert off i. induction l as [|a l IH]; intros off i Hr Hi; [done|].
  rewrite fmap_cons in Hr. cbn [concat] in Hr. apply reads_app in Hr as [Ha Hl].
  rewrite Henc in Hl. destruct i as [|i]; simpl in Hi.
  - injection Hi as ->. by rewrite Z.add_0_r.
  - replace (off + Z.of_nat (S i) * 24) with (off + 24 + Z.of_nat i * 24) by lia. by apply IH.
Qed.

Lemma encode_symbol_24 s : blen (encode_symbol s) = 24.
Proof. unfold encode_symbol. by rewrite !length_app, !le_encode_length. Qed.

Lemma encode_relocation_24 r : blen (encode_relocation r) = 24.
Proof. unfold encode_relocation. by rewrite !length_app, !le_encode_length. Qed.

Lemma encoded_nonempty (bs : bytes) : blen bs = 24 → bs ≠ [].
Proof. intros Hl ->. done. Qed.

Lemma reads_table_length {A} (enc : A → bytes) (l : list A) data off :
  (∀ a, blen (enc a) = 24) → reads data off (concat (enc <$> l)) → l ≠ [] →
  off + 24 * blen l ≤ blen data.
Proof.
  intros Henc Hr Hl. assert (blen (concat (enc <$> l)) = 24 * blen l) as Hc.
  { clear Hr Hl. induction l as [|a l IH]; [done|]. rewrite fmap_cons. cbn [concat].
    rewrite length_app, Nat2Z.inj_add, Henc, IH. simpl length. lia. }
  apply reads_length in Hr; [lia|]. intros E. rewrite E in Hc. destruct l; [done|simpl in Hc; lia].
Qed.

Section tables.
Context `{ByteOrder, !ByteOrderLaws}.

(** The dynamic-library data of a file a linker wrote: the four tables lie inside
    it, at the places the dynamic section says. *)
Record tables_at (elf : Elf) (syms : list ElfSymbol) (rels jmps : list ElfRelocation)
    (symtab strtab strsz rela jmprel : Z) : Prop := {
  ta_symtab : dynamic_value elf DT_SCE_SYMTAB = Some symtab;
  ta_symtabsz : dynamic_value elf DT_SCE_SYMTABSZ = Some (24 * blen syms);
  ta_strtab : dynamic_value elf DT_SCE_STRTAB = Some strtab;
  ta_strsz : dynamic_value elf DT_SCE_STRSZ = Some strsz;
  ta_rela : dynamic_value elf DT_SCE_RELA = Some rela;
  ta_relasz : dynamic_value elf DT_SCE_RELASZ = Some (24 * blen rels);
  ta_jmprel : dynamic_value elf DT_SCE_JMPREL = Some jmprel;
  ta_pltrelsz : dynamic_value elf DT_SCE_PLTRELSZ = Some (24 * blen jmps);
  ta_size : blen (dynlib_data elf) < 2 ^ 62;
  ta_syms : reads (dynlib_data elf) symtab (concat (encode_symbol <$> syms));
  ta_syms_ok : Forall symbol_ok syms;
  ta_rels : reads (dynlib_data elf) rela (concat (encode_relocation <$> rels));
  ta_rels_ok : Forall relocation_ok rels;
  ta_jmps : reads (dynlib_data elf) jmprel (concat (encode_relocation <$> jmps));
  ta_jmps_ok : Forall relocation_ok jmps;
  ta_strings : 0 ≤ strtab ∧ 0 ≤ strsz ∧ strtab + strsz ≤ blen (dynlib_data elf);
}.

Context (elf : Elf) (syms : list ElfSymbol) (symtab strtab strsz : Z).
Hypothesis strtab_at : dynamic_value elf DT_SCE_STRTAB = Some strtab.
Hypothesis strsz_is : dynamic_value elf DT_SCE_STRSZ = Some strsz.
Hypothesis data_size : blen (dynlib_data elf) < 2 ^ 62.
Hypothesis symbols_at : reads (dynlib_data elf) symtab (concat (encode_symbol <$> syms)).
Hypothesis symbols_ok : Forall symbol_ok syms.
Hypothesis strings_in : 0 ≤ strtab ∧ 0 ≤ strsz ∧ strtab + strsz ≤ blen (dynlib_data elf).

Lemma get_string_Ok off : 0 ≤ off →
  get_string (dynlib_data elf) strtab strsz off = Ok (dynamic_string elf off).
Proof.
  intros Ho. unfold get_string, dynamic_string. rewrite strtab_at, strsz_is.
  destruct (Z.leb_spec strsz off); [by rewrite decide_False by lia|].
  rewrite decide_True by lia. unwrap64. apply read_string_spec. lia.
Qed.

Lemma symbol_ref_Ok rel : relocation_ok rel →
  symbol_ref (dynlib_data elf) symtab (24 * blen syms) strtab strsz rel =
  Ok (symbol_view elf syms rel).
Proof.
  intros Hrel. unfold symbol_ref, symbol_view.
  assert (in_u 32 (symbol rel)) as Hs by by apply wrap_range. unfold in_u in Hs.
  unwrap64. case_decide as Hz; [by rewrite Hz|]. rewrite (proj2 (Z.eqb_neq _ 0) Hz). cbn [negb andb].
  destruct (Z.ltb_spec (symbol rel * 24) (24 * blen syms)) as [Hlt|Hge].
  2: { rewrite lookup_ge_None_2 by lia. done. }
  destruct (lookup_lt_is_Some_2 syms (Z.to_nat (symbol rel))) as [sy Hsy]; [lia|].
  rewrite Hsy. pose proof (reads_entry encode_symbol syms _ _ _ _ encode_symbol_24 symbols_at Hsy) as Hr.
  rewrite Z2Nat.id in Hr by lia.
  pose proof (reads_length _ _ _ Hr (encoded_nonempty _ (encode_symbol_24 sy))) as Hlen.
  pose proof (encode_symbol_24 sy). destruct symbols_at as [Hp _]. unwrap64.
  destruct (slice_from_reads (E:=Empty_set) _ _ _ Hr) as [rest ->];
    [by apply encoded_nonempty, encode_symbol_24|]. cbn [mbind outcome_bind].
  assert (symbol_ok sy) as Hok by by eapply Forall_lookup_1.
  rewrite ElfSymbol_from_bytes_encode by done. cbn [mbind outcome_bind].
  rewrite get_string_Ok by apply Hok. done.
Qed.

Lemma parse_table_Ok jmp rels table i : Forall relocation_ok rels → 0 ≤ i →
  0 ≤ table → reads (dynlib_data elf) (table + i * 24) (concat (encode_relocation <$> rels)) →
  parse_table (length rels) i table jmp (dynlib_data elf) symtab (24 * blen syms) strtab strsz =
  Ok (reloc_view elf syms jmp <$> rels).
Proof.
  intros Hok. revert i. induction Hok as [|rel rels Hrel Hok IH]; intros i Hi Ht Hr; [done|].
  cbn [length parse_table]. rewrite fmap_cons in Hr. cbn [concat] in Hr.
  apply reads_app in Hr as [Hr Hrest]. rewrite encode_relocation_24 in Hrest.
  pose proof (reads_length _ _ _ Hr (encoded_nonempty _ (encode_relocation_24 rel))) as Hlen.
  pose proof (encode_relocation_24 rel). unwrap64.
  destruct (slice_from_reads (E:=Empty_set) _ _ _ Hr) as [rest ->];
    [by apply encoded_nonempty, encode_relocation_24|]. cbn [mbind outcome_bind].
  rewrite ElfRelocation_from_bytes_encode by done. cbn [mbind outcome_bind].
  rewrite symbol_ref_Ok by done. rewrite fmap_cons. unfold reloc_view at 1.
  destruct (symbol_view elf syms rel) as [[n b] t]. cbn [mbind outcome_bind].
  rewrite IH; [done|lia|done|]. by replace (table + (i + 1) * 24) with (table + i * 24 + 24) by lia.
Qed.

End tables.

(** ** Lemmas: the image *)

Definition is_load (ph : ProgramHeader) : Prop := phdr_type ph = PT_Load.

(** The segments of a loadable file: their file part lies in their memory part,
    and the sums stay below the sizes of the machine. *)
Definition segment_fits (elf : Elf) (i : nat) (ph : ProgramHeader) : Prop :=
  0 ≤ ph_vaddr ph ∧ 0 ≤ ph_filesz ph ≤ ph_memsz ph ∧ ph_vaddr ph + ph_memsz ph ≤ 2 ^ 60 ∧
  0 ≤ resolve_file_offset elf i ph ∧ resolve_file_offset elf i ph + ph_filesz ph < 2 ^ 64.

Definition segments_fit (elf : Elf) : Prop :=
  ∀ i ph, program_headers elf !! i = Some ph → is_load ph → segment_fits elf i ph.

#[export] Instance segments_fit_dec elf : Decision (segments_fit elf).
Proof.
  refine (cast_if (decide (Forall (λ p, is_load p.2 → segment_fits elf p.1 p.2)
    (imap pair (program_headers elf)))));
    rewrite Forall_forall in *; unfold segments_fit.
  - intros i ph Hi. match goal with H : ∀ _, _ |- _ => apply (H (i, ph)) end.
    apply elem_of_lookup_imap. by exists i, ph.
  - intros Hfit. match goal with H : ¬ _ |- _ => apply H end.
    intros p (i & ph & -> & Hi)%elem_of_lookup_imap. by apply Hfit.
Defined.

(** The byte one segment, and a list of segments from index [i] on, put at [x];
    of overlapping segments the last one wins. *)
Definition segment_byte (elf : Elf) (base min_addr : Z) (i : nat) (ph : ProgramHeader) (x : Z)
  : option Z :=
  let dest := base + ph_vaddr ph - min_addr in
  let src := resolve_file_offset elf i ph in
  if decide (is_load ph ∧ dest ≤ x < dest + ph_filesz ph ∧ src + ph_filesz ph ≤ blen (data elf))
  then data elf !! Z.to_nat (src + (x - dest)) else None.

Fixpoint image (elf : Elf) (base min_addr : Z) (i : nat) (phs : list ProgramHeader) (x : Z)
  : option Z :=
  match phs with
  | [] => None
  | ph :: phs' =>
      match image elf base min_addr (S i) phs' x with
      | Some b => Some b
      | None => segment_byte elf base min_addr i ph x
      end
  end.

Lemma segment_bounds_spec phs a b : 
  let r := foldl (λ '(min_addr, max_addr) ph,
           (min_addr `min` ph_vaddr ph, max_addr `max` (ph_vaddr ph +64 ph_memsz ph)))
    (a, b) phs in
  r.1 ≤ a ∧ b ≤ r.2 ∧
  (∀ ph, ph ∈ phs → r.1 ≤ ph_vaddr ph ∧ ph_vaddr ph +64 ph_memsz ph ≤ r.2) ∧
  (r.1 = a ∨ ∃ ph, ph ∈ phs ∧ r.1 = ph_vaddr ph) ∧
  (r.2 = b ∨ ∃ ph, ph ∈ phs ∧ r.2 = ph_vaddr ph +64 ph_memsz ph).
Proof.
  revert a b. induction phs as [|ph phs IH]; intros a b r.
  { split_and!; [done|done|by intros ? ?%elem_of_nil|by left|by left]. }
  destruct (IH (a `min` ph_vaddr ph) (b `max` (ph_vaddr ph +64 ph_memsz ph)))
    as (H1 & H2 & H3 & H4 & H5).
  cbn [foldl] in r. fold r in H1, H2, H3, H4, H5. split_and!; [lia|lia| | |].
  - intros ph' [->|Hin]%elem_of_cons; [lia|by apply H3].
  - destruct H4 as [E|(ph' & ? & ?)]; [|right; exists ph'; set_solver].
    destruct (Z.min_spec a (ph_vaddr ph)) as [[_ Em]|[_ Em]]; rewrite Em in E; [by left|].
    right. exists ph. set_solver.
  - destruct H5 as [E|(ph' & ? & ?)]; [|right; exists ph'; set_solver].
    destruct (Z.max_spec b (ph_vaddr ph +64 ph_memsz ph)) as [[_ Em]|[_ Em]]; rewrite Em in E;
      [|by left]. right. exists ph. set_solver.
Qed.

Lemma slice_Ok {E} d start end_ : 0 ≤ start ≤ end_ → end_ ≤ blen d →
  ∃ bs, slice (E:=E) d start end_ = Ok bs ∧ blen bs = end_ - start ∧
    ∀ k, 0 ≤ k < end_ - start → bs !! Z.to_nat k = d !! Z.to_nat (start + k).
Proof.
  intros Hs He. unfold slice. rewrite !(proj2 (Z.leb_le _ _)) by lia. cbn [andb].
  eexists. split; [done|]. split; [rewrite length_take, length_drop; lia|].
  intros k Hk. rewrite lookup_take_lt by lia. rewrite lookup_drop. f_equal. lia.
Qed.

Lemma copy_segment_spec elf base min_addr n ph i m :
  0 ≤ base → 0 ≤ min_addr → base + n ≤ 2 ^ 62 → mapped m base n →
  is_load ph → segment_fits elf i ph → min_addr ≤ ph_vaddr ph →
  ph_vaddr ph + ph_memsz ph - min_addr ≤ n →
  ∃ m', copy_segment elf base min_addr i ph m = Ok m' ∧
    (∀ a k, mapped m' a k ↔ mapped m a k) ∧
    ∀ x, m' !! x = match segment_byte elf base min_addr i ph x with
      | Some b => Some b | None => m !! x end.
Proof.
  intros Hb Hmin Hn Hm Hl (Hv & Hf & Hend & Hsrc & Hsum) Hge Hle.
  unfold copy_segment, segment_byte. unwrap64.
  set (dest := base + ph_vaddr ph - min_addr). set (src := resolve_file_offset elf i ph) in *.
  assert (∀ x, (if decide (is_load ph ∧ dest ≤ x < dest + ph_filesz ph ∧
    src + ph_filesz ph ≤ blen (data elf)) then data elf !! Z.to_nat (src + (x - dest)) else None)
    = if decide (dest ≤ x < dest + ph_filesz ph ∧ src + ph_filesz ph ≤ blen (data elf))
      then data elf !! Z.to_nat (src + (x - dest)) else None) as Hdec.
  { intros x. apply decide_ext. tauto. }
  destruct (Z.ltb_spec 0 (ph_filesz ph)) as [Hpos|Hz]; cbn [andb].
  2: { exists m. split_and!; [done|done|]. intros x. rewrite Hdec. by rewrite decide_False by lia. }
  destruct (Z.leb_spec (src + ph_filesz ph) (blen (data elf))) as [Hin|Hout].
  2: { exists m. split_and!; [done|done|]. intros x. rewrite Hdec. by rewrite decide_False by lia. }
  destruct (slice_Ok (E:=halt) (data elf) src (src + ph_filesz ph)) as (bs & -> & Hbs & Hk); [lia..|].
  cbn [mbind outcome_bind].
  assert (mapped m dest (blen bs)) as Hd by (eapply mapped_weaken; [done|lia..]).
  assert (store_bytes m dest bs = Some (write_bytes bs dest m)) as -> by by apply store_bytes_Some.
  eexists. split; [done|]. split; [intros; by apply write_bytes_mapped|].
  intros x. rewrite Hdec, write_bytes_lookup. case_range.
  - rewrite decide_True by lia. rewrite Hk by lia.
    destruct (lookup_lt_is_Some_2 (data elf) (Z.to_nat (src + (x - dest)))) as [b ->]; [lia|done].
  - by rewrite decide_False by lia.
Qed.

(** Copying the segments of a region that holds them all. *)
Lemma copy_segments_spec elf base min_addr n phs i m :
  0 ≤ base → 0 ≤ min_addr → base + n ≤ 2 ^ 62 → mapped m base n →
  (∀ k ph, phs !! k = Some ph → is_load ph →
     segment_fits elf (i + k) ph ∧ min_addr ≤ ph_vaddr ph ∧
     ph_vaddr ph + ph_memsz ph - min_addr ≤ n) →
  ∃ m', copy_segments elf base min_addr i phs m = Ok m' ∧
    (∀ a k, mapped m' a k ↔ mapped m a k) ∧
    ∀ x, m' !! x = match image elf base min_addr i phs x with
      | Some b => Some b | None => m !! x end.
Proof.
  intros Hb Hmin Hn. revert i m. induction phs as [|ph phs IH]; intros i m Hm Hph.
  { by exists m. }
  cbn [copy_segments image].
  assert (∃ m1, (if of_type PT_Load ph then copy_segment elf base min_addr i ph m else mret m) = Ok m1 ∧
    (∀ a k, mapped m1 a k ↔ mapped m a k) ∧
    ∀ x, m1 !! x = match segment_byte elf base min_addr i ph x with
      | Some b => Some b | None => m !! x end) as (m1 & -> & Hdom & Hm1).
  { unfold of_type. case_bool_decide as Hl.
    - destruct (Hph 0%nat ph eq_refl Hl) as (Hfit & ? & ?). rewrite Nat.add_0_r in Hfit.
      by apply (copy_segment_spec _ _ _ n).
    - exists m. split_and!; [done|done|]. intros x. unfold segment_byte, is_load.
      by rewrite decide_False by tauto. }
  cbn [mbind outcome_bind]. destruct (IH (S i) m1) as (m' & -> & Hdom' & Hm').
  { by apply Hdom. }
  { intros k ph' Hk. replace (S i + k)%nat with (i + S k)%nat by lia. by apply Hph. }
  exists m'. split; [done|]. split.
  - intros a k. by rewrite Hdom'.
  - intros x. rewrite Hm', Hm1. by destruct (image _ _ _ _ _ _).
Qed.

(** A segment's bytes lie in its memory part. *)
Lemma image_range elf base min_addr n i phs x b :
  (∀ k ph, phs !! k = Some ph → is_load ph →
     segment_fits elf (i + k) ph ∧ min_addr ≤ ph_vaddr ph ∧
     ph_vaddr ph + ph_memsz ph - min_addr ≤ n) →
  image elf base min_addr i phs x = Some b → base ≤ x < base + n.
Proof.
  revert i. induction phs as [|ph phs IH]; intros i Hph; [done|]. cbn [image].
  destruct (image elf base min_addr (S i) phs x) eqn:E.
  - intros Hb. apply (IH (S i)); [|by rewrite E]. intros k ph' Hk.
    replace (S i + k)%nat with (i + S k)%nat by lia. by apply Hph.
  - unfold segment_byte. case_decide as Hd; [|done]. destruct Hd as (Hl & Hx & _). intros _.
    destruct (Hph 0%nat ph eq_refl Hl) as ((? & ? & ? & _) & ? & ?). lia.
Qed.

Lemma load_segments_elem elf ph : ph ∈ load_segments elf ↔ is_load ph ∧ ph ∈ program_headers elf.
Proof.
  unfold load_segments, of_type, is_load. rewrite list_elem_of_filter.
  rewrite bool_decide_eq_true. done.
Qed.

(** The bounds of the segments of a loadable file. *)
Lemma segment_bounds_fit elf : segments_fit elf →
  let '(lo, hi) := segment_bounds (load_segments elf) in
  (lo = 2 ^ 64 - 1 ↔ load_segments elf = []) ∧
  (load_segments elf ≠ [] → 0 ≤ lo ≤ hi ∧ hi ≤ 2 ^ 60) ∧
  ∀ i ph, program_headers elf !! i = Some ph → is_load ph →
    segment_fits elf i ph ∧ lo ≤ ph_vaddr ph ∧ ph_vaddr ph + ph_memsz ph ≤ hi.
Proof.
  intros Hfit. unfold segment_bounds.
  pose proof (segment_bounds_spec (load_segments elf) (2 ^ 64 - 1) 0) as Hs. cbv zeta in Hs.
  destruct (foldl _ _ _) as [lo hi]. cbn [fst snd] in Hs. destruct Hs as (H1 & H2 & H3 & H4 & H5).
  assert (∀ ph, ph ∈ load_segments elf →
    0 ≤ ph_vaddr ph ∧ 0 ≤ ph_memsz ph ∧ ph_vaddr ph + ph_memsz ph ≤ 2 ^ 60 ∧
    ph_vaddr ph +64 ph_memsz ph = ph_vaddr ph + ph_memsz ph) as Hb.
  { intros ph [Hl [i Hi]%list_elem_of_lookup]%load_segments_elem.
    destruct (Hfit i ph Hi Hl) as (? & ? & ? & _). split_and!; [lia..|]. unwrap64. done. }
  assert (∀ ph, ph ∈ load_segments elf → lo ≤ ph_vaddr ph ∧ ph_vaddr ph + ph_memsz ph ≤ hi) as Hin.
  { intros ph Hph. destruct (H3 ph Hph). destruct (Hb ph Hph) as (? & ? & ? & <-). lia. }
  split_and!.
  - split.
    + intros ->. destruct (load_segments elf) as [|ph l]; [done|].
      destruct (Hin ph) as [? _]; [set_solver|]. destruct (Hb ph) as (? & ? & ? & _); [set_solver|lia].
    + intros E. rewrite E in H4. destruct H4 as [|(ph & ?%elem_of_nil & _)]; done.
  - intros Hne. destruct (load_segments elf) as [|ph l]; [done|].
    destruct (Hin ph) as [? ?]; [set_solver|]. destruct (Hb ph) as (? & ? & ? & _); [set_solver|].
    destruct H5 as [|(ph' & Hp & E)]; destruct H4 as [|(ph'' & Hp' & E')]; try lia.
    all: repeat match goal with
      | Hp : ?p ∈ _ :: _ |- _ => destruct (Hb p Hp) as (? & ? & ? & ?); clear Hp
      end; lia.
  - intros i ph Hi Hl. split; [by eapply Hfit|]. apply Hin, load_segments_elem.
    split; [done|]. by eapply list_elem_of_lookup_2.
Qed.

Section laws.
Context {OS : Type} `{!HostOS OS, !HostOSLaws OS} `{!Bitflags, !BitflagsLaws} `{!ByteOrder, !ByteOrderLaws}.
Variable fs_read : path → outcome io_error bytes.

(** C11: a file whose relocation, symbol and string tables lie where its dynamic
    section says yields every relocation of both tables, in order, with its type
    and addend and with the name, binding and type of its symbol; a relocation
    without a symbol, or with an index outside the table, has an empty name.  The
    table positions are trusted: a table that starts behind the data is a panic. *)
Theorem parse_relocations_spec elf :
  (∀ syms rels jmps symtab strtab strsz rela jmprel,
     tables_at elf syms rels jmps symtab strtab strsz rela jmprel →
     parse_relocations elf =
     Ok ((reloc_view elf syms false <$> rels) ++ (reloc_view elf syms true <$> jmps))) ∧
  (∀ symtab symtabsz strtab strsz rela relasz,
     dynamic_value elf DT_SCE_SYMTAB = Some symtab →
     dynamic_value elf DT_SCE_SYMTABSZ = Some symtabsz →
     dynamic_value elf DT_SCE_STRTAB = Some strtab →
     dynamic_value elf DT_SCE_STRSZ = Some strsz →
     dynamic_value elf DT_SCE_RELA = Some rela → dynamic_value elf DT_SCE_RELASZ = Some relasz →
     24 ≤ relasz → blen (dynlib_data elf) < rela < 2 ^ 64 →
     parse_relocations elf = Panic).
Proof.
  split.
  - intros syms rels jmps symtab strtab strsz rela jmprel [].
    unfold parse_relocations, parse_section. rewrite ta_symtab0, ta_symtabsz0, ta_strtab0,
      ta_strsz0, ta_rela0, ta_relasz0, ta_jmprel0, ta_pltrelsz0.
    rewrite !(Z.mul_comm 24 (blen _)), !Z_div_mult, !Nat2Z.id by lia. rewrite !(Z.mul_comm (blen _) 24).
    pose proof (parse_table_Ok elf syms symtab strtab strsz ta_strtab0 ta_strsz0 ta_size0
      ta_syms0 ta_syms_ok0 ta_strings0) as Htable.
    rewrite (Htable false rels rela 0); [|done|done|apply ta_rels0|by rewrite Z.add_0_r].
    cbn [mbind outcome_bind].
    by rewrite (Htable true jmps jmprel 0); [|done|done|apply ta_jmps0|rewrite Z.add_0_r].
  - intros symtab symtabsz strtab strsz rela relasz E1 E2 E3 E4 E5 E6 Hsz Hrela.
    unfold parse_relocations, parse_section. rewrite E1, E2, E3, E4, E5, E6.
    assert (∃ n, Z.to_nat (relasz / 24) = S n) as [n ->].
    { exists (Z.to_nat (relasz / 24) - 1)%nat.
      pose proof (Z.div_le_lower_bound relasz 24 1 ltac:(lia) ltac:(lia)). lia. }
    cbn [parse_table]. unwrap64. rewrite Z.add_0_r. unfold slice_from, slice.
    by rewrite (proj2 (Z.leb_gt _ _)) by lia.
Qed.

Lemma image_bytes elf base min_addr i phs x b : is_bytes (data elf) →
  image elf base min_addr i phs x = Some b → is_byte b.
Proof.
  intros Hd. revert i. induction phs as [|ph phs IH]; intros i; cbn [image]; [done|].
  destruct (image elf base min_addr (S i) phs x) eqn:E; [intros [= <-]; by eapply IH|].
  unfold segment_byte. case_decide; [|done]. by apply Forall_lookup_1.
Qed.

(** Loading, case by case. *)
Lemma load_cases p (os : OS) self m tls elf :
  Virtual.wf self → Elf.open fs_read p = Ok elf → segments_fit elf →
  let '(lo, hi) := segment_bounds (load_segments elf) in
  let size := align_up (hi - lo) PAGE_SIZE in
  (∃ os' e, load fs_read p ((os, self), m, tls) = (((os', self), m, tls), Err (Failed e)) ∧
     (e = NoLoadSegments (module_name p) ↔ load_segments elf = [])) ∨
  (parse_relocations elf = Panic ∧ (load fs_read p ((os, self), m, tls)).2 = Panic) ∨
  ∃ os' self' m' md, let base := base_virtual_addr md in
    load fs_read p ((os, self), m, tls) =
      (((os', self'), m', if tls_header elf is Some _ then add32 tls 1 else tls), Ok md) ∧
    Virtual.wf self' ∧ name md = module_name p ∧ elf_of md = elf ∧
    parse_relocations elf = Ok (relocations md) ∧
    min_addr md = lo ∧
    aligned_base_size md = size ∧ (PAGE_SIZE | base) ∧ Virtual.carve_ok base size ∧
    (∀ a, base ≤ a < base + size → Virtual.type_at self a = Some Virtual.Free) ∧
    (∀ a, Virtual.view self' a = if in_range base (base + size) a
       then Some (Virtual.Code, RWX, bytes_string (module_name p),
                  flags_contains ANON_PRIVATE Virtual.MemoryMapFlags.NO_COALESCE)
       else Virtual.view self a) ∧
    (∀ a, base ≤ a < base + size → Virtual.entry_at self' a = Some
       (Virtual.new_vma base size RWX ANON_PRIVATE Virtual.Code (bytes_string (module_name p)))) ∧
    Virtual.keeps self self' ∧
    (∀ x, m' !! x = if in_range base (base + size) x
       then Some (default 0 (image elf base lo 0 (program_headers elf) x)) else m !! x) ∧
    ∀ i ph, program_headers elf !! i = Some ph → is_load ph →
      lo ≤ ph_vaddr ph ∧ module_addr base lo (ph_vaddr ph) + ph_memsz ph ≤ base + size.
Proof.
  intros Hwf Hopen Hfit. unfold load. rewrite Hopen.
  pose proof (segment_bounds_fit elf Hfit) as Hb.
  destruct (segment_bounds (load_segments elf)) as [lo hi]. destruct Hb as (Hempty & Hbounds & Hph).
  set (size := align_up (hi - lo) PAGE_SIZE). destruct (Z.eqb_spec lo (2 ^ 64 - 1)) as [E|Hne].
  { left. exists os, (NoLoadSegments (module_name p)). split; [done|]. by split; [intros _; apply Hempty|]. }
  assert (load_segments elf ≠ []) as Hsome by by rewrite <-Hempty.
  destruct (Hbounds Hsome) as [Hlo Hhi]. unwrap64. fold size.
  destruct (page_align_up_small (hi - lo)) as [Hsz Hal]; [lia|unfold PAGE_SIZE; lia|].
  fold size in Hsz, Hal. assert (align_up size PAGE_SIZE = size) as Hfix.
  { apply align_up_aligned; [apply is_pow2_PAGE_SIZE|done|lia|unfold PAGE_SIZE in *; lia]. }
  destruct (Virtual.map_anywhere size RWX ANON_PRIVATE Virtual.Code
    (bytes_string (module_name p)) os self Hwf) as [(os' & e & ->)|
    (os' & base & self' & -> & Hwf' & Hc & Hpage & Hfree & Hview & Hentry & Hkeeps)];
    [lia|unfold Virtual.VA_LIMIT, PAGE_SIZE in *; lia| |].
  { left. exists os', (MemFailed e). split; [done|]. by split. }
  right. rewrite Hfix in *. destruct Hc as (Hb0 & Hpos & Hlim). unfold Virtual.VA_LIMIT in Hlim.
  destruct (copy_segments_spec elf base lo size (program_headers elf) 0 (map_zeros base size m))
    as (m' & -> & _ & Hm'); [lia|lia|lia| | |].
  { apply map_zeros_mapped; lia. }
  { intros k ph Hk Hl. destruct (Hph k ph Hk Hl) as (? & ? & ?). split_and!; [done|lia|lia]. }
  destruct (parse_relocations elf) as [rs|[]|] eqn:Hrs; [right|by left].
  pose proof (needed_loop_Ok elf (dynamic_entries elf)) as Hn.
  fold (needed_modules elf) in Hn. rewrite Hn.
  eexists os', self', m', _. split; [reflexivity|].
  cbn [base_virtual_addr name elf_of relocations min_addr aligned_base_size].
  unfold Virtual.carve_ok, Virtual.VA_LIMIT. split_and!; try done.
  - intros x. rewrite Hm', map_zeros_lookup by lia. 
    destruct (image elf base lo 0 (program_headers elf) x) eqn:Ei; [|by case_range].
    apply (image_range _ _ _ size) in Ei; [by case_range; [|lia]|].
    intros k ph Hk Hl. destruct (Hph k ph Hk Hl) as (? & ? & ?). split_and!; [done|lia|lia].
  - intros i ph Hi Hl. destruct (Hph i ph Hi Hl) as ((? & ? & ? & _) & ? & ?).
    unfold module_addr. unwrap64. lia.
Qed.

(** C10: loading a file that opens, and whose LOAD segments fit (the file part of each
    lies in its memory part, below 2^60, and its file range does not wrap), never faults.
    It fails with memory manager, guest memory and TLS counter unchanged, when there is
    no LOAD segment or no room; or it panics, and then it is the relocation tables that
    cannot be parsed; or the module gets a page-aligned region of its own
    that was free before and is now one area of [Code] with all permissions, every LOAD
    segment lies inside it, it holds the bytes of the file and zeros elsewhere, and
    nothing outside the region changes: the other mapped areas stay as they are. *)
Theorem load_spec p (os : OS) self m tls elf :
  Virtual.wf self → Elf.open fs_read p = Ok elf → segments_fit elf →
  let '(lo, hi) := segment_bounds (load_segments elf) in
  let size := align_up (hi - lo) PAGE_SIZE in
  (∃ os' e, load fs_read p ((os, self), m, tls) = (((os', self), m, tls), Err (Failed e)) ∧
     (e = NoLoadSegments (module_name p) ↔ load_segments elf = [])) ∨
  (parse_relocations elf = Panic ∧ (load fs_read p ((os, self), m, tls)).2 = Panic) ∨
  ∃ os' self' m' md, let base := base_virtual_addr md in
    load fs_read p ((os, self), m, tls) =
      (((os', self'), m', if tls_header elf is Some _ then add32 tls 1 else tls), Ok md) ∧
    Virtual.wf self' ∧ name md = module_name p ∧ elf_of md = elf ∧
    parse_relocations elf = Ok (relocations md) ∧
    min_addr md = lo ∧
    aligned_base_size md = size ∧ (PAGE_SIZE | base) ∧ Virtual.carve_ok base size ∧
    (∀ a, base ≤ a < base + size → Virtual.type_at self a = Some Virtual.Free) ∧
    (∀ a, Virtual.view self' a = if in_range base (base + size) a
       then Some (Virtual.Code, RWX, bytes_string (module_name p),
                  flags_contains ANON_PRIVATE Virtual.MemoryMapFlags.NO_COALESCE)
       else Virtual.view self a) ∧
    (∀ a, base ≤ a < base + size → Virtual.entry_at self' a = Some
       (Virtual.new_vma base size RWX ANON_PRIVATE Virtual.Code (bytes_string (module_name p)))) ∧
    Virtual.keeps self self' ∧
    (∀ x, m' !! x = if in_range base (base + size) x
       then Some (default 0 (image elf base lo 0 (program_headers elf) x)) else m !! x) ∧
    ∀ i ph, program_headers elf !! i = Some ph → is_load ph →
      lo ≤ ph_vaddr ph ∧ module_addr base lo (ph_vaddr ph) + ph_memsz ph ≤ base + size.
Proof. apply load_cases. Qed.

End laws.

(** ** Witnesses *)

#[local] Existing Instances byteorder_impl byteorder_impl_laws
  bitflags_impl bitflags_impl_laws ToyOS.toy_os ToyOS.toy_os_laws.

(** An executable: 16 bytes of code, mapped at 0x1000 with 0x5000 bytes of memory;
    the dynamic-library data (strings, two symbols, two relocations and a PLT
    relocation); the dynamic section. *)
Definition sample_syms : list ElfSymbol :=
  [{| name_offset := 0; st_info := 0; st_other := 0; shndx := 0; st_value := 0; st_size := 0 |};
   {| name_offset := 1; st_info := 0x12; st_other := 0; shndx := 0; st_value := 0; st_size := 0 |}].
Definition sample_rels : list ElfRelocation :=
  [{| r_offset := 0x100; r_info := R_X86_64_RELATIVE; r_addend := 0x20 |};
   {| r_offset := 0x108; r_info := 2 ^ 32 + R_X86_64_64; r_addend := -8 |}].
Definition sample_jmps : list ElfRelocation :=
  [{| r_offset := 0x110; r_info := 7 * 2 ^ 32 + R_X86_64_JUMP_SLOT; r_addend := 0 |}].
Definition sample_strings : bytes := [0] ++ str "8zTFvBIAIN8#A#B" ++ [0; 0].
Definition sample_code : bytes :=
  [0x90; 0x90; 0x85; 0xC0; 0x75; 0x02; 0xCD; 0x41; 0xC3; 0; 0; 0; 0; 0; 0; 0].
Definition sample_dynlib : bytes :=
  sample_strings ++ concat (encode_symbol <$> sample_syms) ++
  concat (encode_relocation <$> sample_rels) ++ concat (encode_relocation <$> sample_jmps).
Definition sample_dynamic : bytes :=
  concat ((λ '(t, v), le_encode 8 t ++ le_encode 8 v) <$>
    [(DT_SCE_STRTAB, 0); (DT_SCE_STRSZ, 18); (DT_SCE_SYMTAB, 18); (DT_SCE_SYMTABSZ, 48);
     (DT_SCE_RELA, 66); (DT_SCE_RELASZ, 48); (DT_SCE_JMPREL, 114); (DT_SCE_PLTRELSZ, 24);
     (0, 0)]).
Definition sample_module_phdrs : list ProgramHeader :=
  [{| phdr_type := PT_Load; ph_flags := 5; ph_offset := 232; ph_vaddr := 0x1000; ph_paddr := 0;
      ph_filesz := 16; ph_memsz := 0x5000; ph_align := 0x4000 |};
   phdr PT_SceDynlibData 248 138; phdr PT_Dynamic 386 144].
Definition sample_module : bytes :=
  encode_file None (sample_header 3) [] sample_module_phdrs
    (sample_code ++ sample_dynlib ++ sample_dynamic).
Definition sample_elf : Elf := parsed (parse sample_module).
Definition sample_fs (p : path) : outcome io_error bytes := Ok sample_module.
Definition sample_path : path := from_bytes (str "/app0/eboot.bin").

Lemma sample_dynlib_data : dynlib_data sample_elf = sample_dynlib.
Proof. vm_compute. reflexivity. Qed.

Lemma sample_tables_at : tables_at sample_elf sample_syms sample_rels sample_jmps 18 0 18 66 114.
Proof.
  split.
  all: lazymatch goal with
    | |- _ = _ => vm_compute; reflexivity
    | |- Forall _ _ => by apply (bool_decide_eq_true_1 _); vm_compute
    | _ => idtac
    end.
  all: rewrite sample_dynlib_data; by apply (bool_decide_eq_true_1 _); vm_compute.
Qed.

Lemma parse_relocations_spec_witness :
  (λ r, (offset r, pr_rel_type r, addend r, symbol_name r, symbol_binding r, is_jmp_rel r)) <$>
    (reloc_view sample_elf sample_syms false <$> sample_rels) =
    [(0x100, R_X86_64_RELATIVE, 0x20, [], 0, false);
     (0x108, R_X86_64_64, -8, str "8zTFvBIAIN8#A#B", 1, false)] ∧
  parse_relocations sample_elf =
    Ok ((reloc_view sample_elf sample_syms false <$> sample_rels) ++
        (reloc_view sample_elf sample_syms true <$> sample_jmps)).
Proof.
  split; [vm_compute; reflexivity|].
  exact (proj1 (parse_relocations_spec sample_elf) _ _ _ _ _ _ _ _ sample_tables_at).
Defined.

Lemma sample_segments_fit : segments_fit sample_elf.
Proof. apply (bool_decide_eq_true_1 _). vm_compute. reflexivity. Qed.

(** The first code byte arrives, and the memory behind them is zero. *)
Lemma load_spec_witness :
  ∃ os' self' m' md,
    load sample_fs sample_path ((ToyOS.boot, Virtual.small_mm), ∅, 0) =
      (((os', self'), m', 0), Ok md) ∧ aligned_base_size md = 0x8000 ∧
    (PAGE_SIZE | base_virtual_addr md) ∧
    m' !! base_virtual_addr md = Some 0x90 ∧ m' !! (base_virtual_addr md + 0x4000) = Some 0.
Proof.
  assert (segment_bounds (load_segments sample_elf) = (0x1000, 0x6000)) as Eb
    by (vm_compute; reflexivity).
  assert ((if (load sample_fs sample_path ((ToyOS.boot, Virtual.small_mm), ∅, 0)).2 is Ok md
    then base_virtual_addr md else 0) = 2 ^ 36) as Hok by (vm_compute; reflexivity).
  pose proof (load_spec sample_fs sample_path ToyOS.boot Virtual.small_mm ∅ 0 sample_elf
    Virtual.small_mm_wf) as H.
  rewrite Eb in H. destruct H as [(os' & e & E & _)|[[_ E]|(os' & self' & m' & md & H)]].
  { vm_compute. reflexivity. }
  { exact sample_segments_fit. }
  { rewrite E in Hok. discriminate Hok. }
  { rewrite E in Hok. discriminate Hok. }
  cbv zeta in H. destruct H as (E & _ & _ & _ & _ & _ & Hsz & Hal & _ & _ & _ & _ & _ & Hm & _).
  exists os', self', m', md. assert (tls_header sample_elf = None) as Et by (vm_compute; reflexivity).
  rewrite Et in E. clear Et Eb. rewrite E in Hok. cbn [snd] in Hok. rewrite Hok in *.
  split; [exact E|]. clear E. rewrite !Hm. clear Hm.
  split; [rewrite Hsz; vm_compute; reflexivity|]. split; [exact Hal|].
  split; vm_compute; reflexivity.
Defined.

End LinkerModule.
