(* ===== verification/Vulkan.v ===== *)
(** * crates/gpu/src/renderer/vulkan.rs: the Vulkan renderer

    The renderer talks to Vulkan through [ash].  What it does there is kept as the log
    of its calls, and what Vulkan answers is a parameter, the class [VulkanApi]: any
    function of the log.  [new], [present_blank_frame] and [drop] are the calls the
    code makes, in its order, with its early returns, [?]s and [unwrap]s.  Names,
    versions and constants that are only passed on (the application's name, the
    surface format, the extent) are left out of the calls. *)

From S2P Require Import Prelude.

Open Scope rust_scope.

Module Vulkan.

Inductive object :=
| Instance | Surface | Device | CommandPool | Semaphore | Fence | Swapchain | ImageView
| Framebuffer | RenderPass.

#[export] Instance object_eq_dec : EqDecision object.
Proof. solve_decision. Defined.

(** What is created, and out of what. *)
Inductive create_info :=
| InstanceInfo (extensions : list Z)
| SurfaceInfo (instance display window : Z)
| DeviceInfo (instance physical_device family : Z)
| PoolInfo (device family : Z)
| SemaphoreInfo (device : Z)
| FenceInfo (device : Z) (signaled : bool)
| SwapchainInfo (device surface min_image_count : Z)
| ImageViewInfo (device image : Z).

Definition object_of (i : create_info) : object :=
  match i with
  | InstanceInfo _ => Instance
  | SurfaceInfo _ _ _ => Surface
  | DeviceInfo _ _ _ => Device
  | PoolInfo _ _ => CommandPool
  | SemaphoreInfo _ => Semaphore
  | FenceInfo _ _ => Fence
  | SwapchainInfo _ _ _ => Swapchain
  | ImageViewInfo _ _ => ImageView
  end.

(** The calls that had an effect, and the presentations that were refused. *)
Inductive event :=
| Created (i : create_info) (handle : Z)
| Destroyed (o : object) (handle : Z)
| Waited (fence : Z)
| Acquired (swapchain semaphore index : Z)
| Reset (fence : Z)
| Submitted (queue wait signal fence : Z)
| Presented (queue wait swapchain index : Z) (ok : bool)
| Idled (device : Z).

Abbreviation log := (list event).

(** [OutOfDate] is ERROR_OUT_OF_DATE_KHR or SUBOPTIMAL_KHR. *)
Inductive acquisition := Image (index : Z) | OutOfDate | AcquireFailed.

(** Vulkan and the window system, by what they answer after a log of calls: [None] and
    [false] are errors. *)
Class VulkanApi (Window : Type) := {
  entry_load : bool;
  display_handle : Window → option Z;
  window_handle : Window → option Z;
  required_extensions : Z → option (list Z);
  create : log → create_info → option Z;
  enumerate_physical_devices : log → Z → option (list Z);
  queue_flags : Z → list Z;
  device_queue : Z → Z → Z;
  surface_image_counts : log → Z → Z → option (Z * Z);
  get_swapchain_images : log → Z → option (list Z);
  wait_for_fence : log → Z → bool;
  acquire_next_image : log → Z → Z → acquisition;
  reset_fence : log → Z → bool;
  queue_submit : log → Z → Z → Z → Z → bool;
  queue_present : log → Z → Z → Z → Z → bool;
}.

(** The strings [new] returns, by the step that failed. *)
Inductive vk_error :=
| LoadFailed | NoDisplayHandle | NoWindowHandle | ExtensionsFailed | InstanceFailed
| SurfaceFailed | EnumerateFailed | NoDevice | NoGraphicsQueue | DeviceFailed | PoolFailed.

(** The loaders are tables of functions: whether they are there. *)
Record VulkanRenderer := {
  instance : Z;
  physical_device : Z;
  device : Z;
  graphics_queue : Z;
  graphics_queue_family : Z;
  surface_loader : bool;
  surface : option Z;
  swapchain_loader : bool;
  swapchain : option Z;
  swapchain_images : list Z;
  swapchain_image_views : list Z;
  command_pool : Z;
  command_buffers : list Z;
  render_pass : option Z;
  framebuffers : list Z;
  image_available_semaphore : Z;
  render_finished_semaphore : Z;
  in_flight_fence : Z;
  frame_count : Z;
}.

Definition set_frame_count (n : Z) (self : VulkanRenderer) : VulkanRenderer :=
  {| instance := instance self; physical_device := physical_device self; device := device self;
     graphics_queue := graphics_queue self; graphics_queue_family := graphics_queue_family self;
     surface_loader := surface_loader self; surface := surface self;
     swapchain_loader := swapchain_loader self; swapchain := swapchain self;
     swapchain_images := swapchain_images self; swapchain_image_views := swapchain_image_views self;
     command_pool := command_pool self; command_buffers := command_buffers self;
     render_pass := render_pass self; framebuffers := framebuffers self;
     image_available_semaphore := image_available_semaphore self;
     render_finished_semaphore := render_finished_semaphore self;
     in_flight_fence := in_flight_fence self; frame_count := n |}.

Section renderer.
Context {Window : Type} `{!VulkanApi Window}.

(** [create_...(...)?] and [create_...(...).unwrap()]. *)
Definition create_or {E} (failure : outcome E Z) (i : create_info) : st log E Z := λ l,
  match create l i with
  | Some h => (l ++ [Created i h], Ok h)
  | None => (l, failure)
  end.

Definition ask {E A} (o : log → outcome E A) : st log E A := λ l, (l, o l).
Definition record {E} (e : event) : st log E unit := λ l, (l ++ [e], Ok tt).

Definition GRAPHICS : Z := 0x1.

Definition graphics_family (flags : list Z) : option nat :=
  fst <$> list_find (λ f, Z.land f GRAPHICS = GRAPHICS) flags.

Definition image_count (min_image_count max_image_count : Z) : Z :=
  let image_count := add32 min_image_count 1 in
  if (0 <? max_image_count) && (max_image_count <? image_count) then max_image_count
  else image_count.

Fixpoint create_image_views (device : Z) (images : list Z) : st log vk_error (list Z) :=
  match images with
  | [] => mret []
  | image :: images' =>
      view ← create_or Panic (ImageViewInfo device image);
      views ← create_image_views device images';
      mret (view :: views)
  end.

Definition new (window : Window) : st log vk_error VulkanRenderer :=
  _ ← st_lift (if entry_load then Ok tt else Err LoadFailed);
  display ← st_lift (ok_or (display_handle window) NoDisplayHandle);
  handle ← st_lift (ok_or (window_handle window) NoWindowHandle);
  extensions ← st_lift (ok_or (required_extensions display) ExtensionsFailed);
  instance ← create_or (Err InstanceFailed) (InstanceInfo extensions);
  surface ← create_or (Err SurfaceFailed) (SurfaceInfo instance display handle);
  devices ← ask (λ l, ok_or (enumerate_physical_devices l instance) EnumerateFailed);
  physical_device ← st_lift (ok_or (head devices) NoDevice);
  family ← st_lift (ok_or (graphics_family (queue_flags physical_device)) NoGraphicsQueue);
  let family := wrap 32 (Z.of_nat family) in
  device ← create_or (Err DeviceFailed) (DeviceInfo instance physical_device family);
  let graphics_queue := device_queue device family in
  command_pool ← create_or (Err PoolFailed) (PoolInfo device family);
  image_available ← create_or Panic (SemaphoreInfo device);
  render_finished ← create_or Panic (SemaphoreInfo device);
  in_flight_fence ← create_or Panic (FenceInfo device true);
  caps ← ask (λ l, unwrap (surface_image_counts l physical_device surface));
  swapchain ← create_or Panic (SwapchainInfo device surface (image_count caps.1 caps.2));
  images ← ask (λ l, unwrap (get_swapchain_images l swapchain));
  views ← create_image_views device images;
  mret {| instance := instance; physical_device := physical_device; device := device;
          graphics_queue := graphics_queue; graphics_queue_family := family;
          surface_loader := true; surface := Some surface;
          swapchain_loader := true; swapchain := Some swapchain;
          swapchain_images := images; swapchain_image_views := views;
          command_pool := command_pool; command_buffers := []; render_pass := None;
          framebuffers := []; image_available_semaphore := image_available;
          render_finished_semaphore := render_finished; in_flight_fence := in_flight_fence;
          frame_count := 0 |}.

Definition accepted {E} (b : bool) : outcome E unit := if b then Ok tt else Panic.

(** The colour is ignored, and so is the result of [queue_present]. *)
Definition present_blank_frame (self : VulkanRenderer) : st log Empty_set VulkanRenderer :=
  match swapchain self with
  | None => mret self
  | Some sc =>
      if negb (swapchain_loader self) then mret self else
      _ ← ask (λ l, accepted (wait_for_fence l (in_flight_fence self)));
      _ ← record (Waited (in_flight_fence self));
      result ← ask (λ l, Ok (acquire_next_image l sc (image_available_semaphore self)));
      match result with
      | OutOfDate => mret self
      | AcquireFailed => st_lift Panic
      | Image index =>
          _ ← record (Acquired sc (image_available_semaphore self) index);
          _ ← ask (λ l, accepted (reset_fence l (in_flight_fence self)));
          _ ← record (Reset (in_flight_fence self));
          _ ← ask (λ l, accepted (queue_submit l (graphics_queue self)
                (image_available_semaphore self) (render_finished_semaphore self)
                (in_flight_fence self)));
          _ ← record (Submitted (graphics_queue self) (image_available_semaphore self)
                (render_finished_semaphore self) (in_flight_fence self));
          ok ← ask (λ l, Ok (queue_present l (graphics_queue self)
                 (render_finished_semaphore self) sc index));
          _ ← record (Presented (graphics_queue self) (render_finished_semaphore self) sc index ok);
          mret (set_frame_count (add64 (frame_count self) 1) self)
      end
  end.

(** What [Drop] destroys, in its order. *)
Definition destroyed (self : VulkanRenderer) : list (object * Z) :=
  [(Fence, in_flight_fence self); (Semaphore, render_finished_semaphore self);
   (Semaphore, image_available_semaphore self)] ++
  (pair Framebuffer <$> framebuffers self) ++
  (pair RenderPass <$> option_list (render_pass self)) ++
  (pair ImageView <$> swapchain_image_views self) ++
  (pair Swapchain <$> (if swapchain_loader self then option_list (swapchain self) else [])) ++
  [(CommandPool, command_pool self); (Device, device self)] ++
  (pair Surface <$> (if surface_loader self then option_list (surface self) else [])) ++
  [(Instance, instance self)].

Definition drop (self : VulkanRenderer) (l : log) : log :=
  l ++ Idled (device self) :: (uncurry Destroyed <$> destroyed self).

End renderer.

(** ** Lemmas: creation *)

Section laws.
Context {Window : Type} `{!VulkanApi Window}.

(** Objects that are created in a log. *)
Definition made (cs : list (create_info * Z)) : log := uncurry Created <$> cs.
Definition objects (cs : list (create_info * Z)) : list (object * Z) :=
  (λ '(i, h), (object_of i, h)) <$> cs.

Lemma made_app cs1 cs2 : made (cs1 ++ cs2) = made cs1 ++ made cs2.
Proof. apply fmap_app. Qed.

(** A computation that only creates: [Q] holds of what it has created when it returns,
    and nothing is destroyed when it does not. *)
Definition creates {A} (c : st log vk_error A) (Q : list (create_info * Z) → A → Prop) : Prop :=
  ∀ l, ∃ cs, (c l).1 = l ++ made cs ∧ ∀ a, (c l).2 = Ok a → Q cs a.

Lemma creates_ret {A} (a : A) (Q : _ → A → Prop) : Q [] a → creates (mret a) Q.
Proof. intros HQ l. exists []. cbn. rewrite app_nil_r. split; [done|]. by intros ? [= <-]. Qed.

Lemma creates_bind {A B} (c : st log vk_error A) (k : A → st log vk_error B) P Q :
  creates c P → (∀ cs a, P cs a → creates (k a) (λ cs', Q (cs ++ cs'))) → creates (c ≫= k) Q.
Proof.
  intros Hc Hk l. destruct (Hc l) as (cs & El & HP). unfold mbind, st_bind.
  destruct (c l) as [l' [a|e|]]; cbn in *; [|by exists cs..].
  destruct (Hk cs a (HP a eq_refl) l') as (cs' & El' & HQ). exists (cs ++ cs').
  split; [by rewrite El', El, made_app, (assoc_L (++))|exact HQ].
Qed.

Lemma creates_lift {A} (o : outcome vk_error A) : creates (st_lift o) (λ cs _, cs = []).
Proof. intros l. exists []. split; [by rewrite app_nil_r|done]. Qed.

Lemma creates_ask {A} (o : log → outcome vk_error A) : creates (ask o) (λ cs _, cs = []).
Proof. intros l. exists []. split; [by rewrite app_nil_r|done]. Qed.

Lemma creates_create i (failure : outcome vk_error Z) : (∀ h, failure ≠ Ok h) →
  creates (create_or failure i) (λ cs h, cs = [(i, h)]).
Proof.
  intros Hf l. unfold create_or. destruct (create l i) as [h|].
  - exists [(i, h)]. split; [done|]. by intros ? [= <-].
  - exists []. cbn. rewrite app_nil_r. split; [done|]. intros a Ha. by destruct (Hf a).
Qed.

Lemma create_image_views_creates device images : creates (create_image_views device images)
  (λ cs views, length views = length images ∧ cs = zip (ImageViewInfo device <$> images) views).
Proof.
  induction images as [|image images IH]; cbn [create_image_views]; [by apply creates_ret|].
  eapply creates_bind; [by apply creates_create|]. intros cs v ->.
  eapply creates_bind; [exact IH|]. intros cs vs [Hl ->].
  apply creates_ret. rewrite app_nil_r. cbn. split; [by f_equal|done].
Qed.

(** What a new renderer owns. *)
Definition owned (extensions : list Z) (display handle : Z) (self : VulkanRenderer) (min max surface swapchain : Z)
  : list (create_info * Z) :=
  let d := device self in
  [(InstanceInfo extensions, instance self);
   (SurfaceInfo (instance self) display handle, surface);
   (DeviceInfo (instance self) (physical_device self) (graphics_queue_family self), d);
   (PoolInfo d (graphics_queue_family self), command_pool self);
   (SemaphoreInfo d, image_available_semaphore self);
   (SemaphoreInfo d, render_finished_semaphore self);
   (FenceInfo d true, in_flight_fence self);
   (SwapchainInfo d surface (image_count min max), swapchain)] ++
  zip (ImageViewInfo d <$> swapchain_images self) (swapchain_image_views self).

Definition fresh_renderer (cs : list (create_info * Z)) (self : VulkanRenderer) : Prop :=
  ∃ extensions display handle min max surface_ swapchain_,
    cs = owned extensions display handle self min max surface_ swapchain_ ∧
    surface self = Some surface_ ∧ swapchain self = Some swapchain_ ∧
    surface_loader self = true ∧ swapchain_loader self = true ∧
    length (swapchain_image_views self) = length (swapchain_images self) ∧
    framebuffers self = [] ∧ render_pass self = None ∧ frame_count self = 0.

Lemma new_creates window : creates (new window) fresh_renderer.
Proof.
  unfold new.
  repeat first
    [ eapply creates_bind; [by apply creates_lift|]; intros ? ? ->
    | eapply creates_bind; [by apply creates_ask|]; intros ? ? ->
    | eapply creates_bind; [by apply creates_create|]; intros ? ? -> ].
  eapply creates_bind; [apply create_image_views_creates|]. intros ? views [Hl ->].
  apply creates_ret. rewrite app_nil_r. cbn [app].
  eexists _, _, _, _, _, _, _. split; [|by split_and!]. reflexivity.
Qed.

(** ** Lemmas: frames *)

(** The calls of a frame: [None] is one that is dropped; otherwise its image, and whether
    the presentation is accepted. *)
Definition frame (self : VulkanRenderer) (sc : Z) (shown : option (Z * bool)) : log :=
  match shown with
  | None => [Waited (in_flight_fence self)]
  | Some (index, ok) =>
      [Waited (in_flight_fence self); Acquired sc (image_available_semaphore self) index;
       Reset (in_flight_fence self);
       Submitted (graphics_queue self) (image_available_semaphore self)
         (render_finished_semaphore self) (in_flight_fence self);
       Presented (graphics_queue self) (render_finished_semaphore self) sc index ok]
  end.

Definition frames (self : VulkanRenderer) (sc : Z) (fs : list (option (Z * bool))) : log :=
  fs ≫= frame self sc.

Definition counted (fs : list (option (Z * bool))) (self : VulkanRenderer) : VulkanRenderer :=
  foldl (λ self shown, if shown is Some _ then set_frame_count (add64 (frame_count self) 1) self
                       else self) self fs.

(** Vulkan reports an error (a lost device) in one of the calls whose result is
    unwrapped. *)
Definition device_lost (self : VulkanRenderer) (sc : Z) (l : log) : Prop :=
  wait_for_fence l (in_flight_fence self) = false ∨
  acquire_next_image l sc (image_available_semaphore self) = AcquireFailed ∨
  reset_fence l (in_flight_fence self) = false ∨
  queue_submit l (graphics_queue self) (image_available_semaphore self)
    (render_finished_semaphore self) (in_flight_fence self) = false.

Lemma present_cases self sc l : swapchain self = Some sc → swapchain_loader self = true →
  (∃ shown, present_blank_frame self l = (l ++ frame self sc shown, Ok (counted [shown] self))) ∨
  ∃ shown p, p `prefix_of` frame self sc shown ∧
    present_blank_frame self l = (l ++ p, Panic) ∧ device_lost self sc (l ++ p).
Proof.
  intros Hsc Hl. unfold present_blank_frame, device_lost. rewrite Hsc, Hl. cbn [negb].
  unfold mbind, st_bind, ask, record, accepted, st_lift.
  destruct (wait_for_fence l _) eqn:E1.
  2: { right. exists None, []. rewrite app_nil_r. split; [apply prefix_nil|]. auto. }
  destruct (acquire_next_image _ _ _) as [index| |] eqn:E2.
  2: { left. by exists None. }
  2: { right. exists None, [Waited (in_flight_fence self)]. split; [done|]. split; [done|]. auto. }
  rewrite <-!(assoc_L (++)). cbn [app].
  destruct (reset_fence _ _) eqn:E3.
  2: { right. eexists (Some (index, true)), (take 2 _). split; [apply prefix_take|]. cbn. split; [done|]. auto. }
  destruct (queue_submit _ _ _ _ _) eqn:E4.
  2: { right. eexists (Some (index, true)), (take 3 _). split; [apply prefix_take|]. cbn. split; [done|]. auto. }
  left. by eexists (Some (index, _)).
Qed.

(** A frame panics only by an error of Vulkan. *)
Lemma present_panics self l : (present_blank_frame self l).2 = Panic →
  ∃ sc, swapchain self = Some sc ∧ device_lost self sc (present_blank_frame self l).1.
Proof.
  intros Hp. destruct (swapchain self) as [sc|] eqn:Hsc.
  2: { unfold present_blank_frame in Hp. by rewrite Hsc in Hp. }
  destruct (swapchain_loader self) eqn:Hl.
  2: { unfold present_blank_frame in Hp. by rewrite Hsc, Hl in Hp. }
  exists sc. split; [done|].
  destruct (present_cases self sc l Hsc Hl) as [[shown E]|(shown & p & _ & E & Hd)]; rewrite E in *;
    done.
Qed.

Fixpoint present_frames (n : nat) (self : VulkanRenderer) : st log Empty_set VulkanRenderer :=
  match n with
  | O => mret self
  | S n' => self ← present_blank_frame self; present_frames n' self
  end.

Lemma present_frames_cases n self sc l : swapchain self = Some sc → swapchain_loader self = true →
  (∃ fs, length fs = n ∧
     present_frames n self l = (l ++ frames self sc fs, Ok (counted fs self))) ∨
  ∃ fs shown p, (length fs < n)%nat ∧ p `prefix_of` frame self sc shown ∧
    present_frames n self l = (l ++ frames self sc fs ++ p, Panic) ∧
    device_lost self sc (l ++ frames self sc fs ++ p).
Proof.
  revert self l. induction n as [|n IH]; intros self l Hsc Hl.
  { left. exists []. cbn. by rewrite app_nil_r. }
  cbn [present_frames]. unfold mbind, st_bind.
  destruct (present_cases self sc l Hsc Hl) as [[shown ->]|(shown & p & Hp & -> & Hd)].
  2: { right. exists [], shown, p. cbn. split; [lia|]. by split_and!. }
  set (self1 := counted [shown] self).
  assert (∀ fs, frames self1 sc fs = frames self sc fs) as Hf by by destruct shown.
  destruct (IH self1 (l ++ frame self sc shown)) as [(fs & <- & ->)|(fs & o & p & Hn & Hp & -> & Hd)];
    [by destruct shown|by destruct shown|..].
  - left. exists (shown :: fs). rewrite Hf. cbn. by rewrite (assoc_L (++)).
  - right. exists (shown :: fs), o, p. rewrite Hf in *. cbn. rewrite <-!(assoc_L (++)) in *.
    split; [lia|]. split; [by destruct shown|]. split; [done|]. by destruct shown.
Qed.

(** ** Lemmas: the fence *)

(** Whether a fence is signalled, or will be by work that has been submitted. *)
Definition fence_step (f : Z) (b : bool) (e : event) : bool :=
  match e with
  | Created (FenceInfo _ signaled) h => if h =? f then signaled else b
  | Reset h => if h =? f then false else b
  | Submitted _ _ _ h => if h =? f then true else b
  | _ => b
  end.
Definition fence_ready (f : Z) (l : log) : bool := foldl (fence_step f) false l.

(** No wait is for a fence that nobody is going to signal. *)
Definition never_blocks (l : log) : Prop :=
  ∀ l1 f l2, l = l1 ++ Waited f :: l2 → fence_ready f l1 = true.

Lemma never_blocks_app l p : never_blocks l →
  (∀ l1 f l2, p = l1 ++ Waited f :: l2 → fence_ready f (l ++ l1) = true) → never_blocks (l ++ p).
Proof.
  intros Hl Hp l1 f l2 E. apply app_eq_inv in E as [(k & -> & Ek)|(k & -> & Ek)].
  - destruct k as [|e k]; cbn in Ek.
    + rewrite app_nil_r in *. rewrite <-(app_nil_r l1). by apply (Hp [] f l2).
    + injection Ek as <- ->. by apply (Hl l1 f k).
  - by apply (Hp k f l2).
Qed.

Lemma fence_ready_app f l p : fence_ready f (l ++ p) = foldl (fence_step f) (fence_ready f l) p.
Proof. apply foldl_app. Qed.

(** A whole frame waits once, for a fence that is ready, and leaves it ready; so does
    every part of one. *)
Lemma frame_ready self sc shown l : fence_ready (in_flight_fence self) l = true →
  fence_ready (in_flight_fence self) (l ++ frame self sc shown) = true.
Proof.
  intros Hf. rewrite fence_ready_app, Hf. destruct shown as [[index ok]|]; cbn; [|done].
  by rewrite Z.eqb_refl.
Qed.

Lemma frame_waits self sc shown p l1 f l2 : p `prefix_of` frame self sc shown →
  p = l1 ++ Waited f :: l2 → l1 = [] ∧ f = in_flight_fence self.
Proof.
  intros [q Eq] ->. destruct l1 as [|e l1]; [split; [done|]|exfalso].
  - by destruct shown as [[index ok]|]; injection Eq.
  - assert (Waited f ∈ tail (frame self sc shown)) as Hin.
    { rewrite Eq. cbn. set_solver. }
    destruct shown as [[index ok]|]; cbn in Hin; set_solver.
Qed.

Lemma frame_never_blocks self sc shown p l : fence_ready (in_flight_fence self) l = true →
  never_blocks l → p `prefix_of` frame self sc shown → never_blocks (l ++ p).
Proof.
  intros Hf Hl Hp. apply never_blocks_app; [done|]. intros l1 f l2 E.
  destruct (frame_waits _ _ _ _ _ _ _ Hp E) as [-> ->]. by rewrite app_nil_r.
Qed.

Lemma frames_never_block self sc fs l : fence_ready (in_flight_fence self) l = true →
  never_blocks l →
  fence_ready (in_flight_fence self) (l ++ frames self sc fs) = true ∧
  never_blocks (l ++ frames self sc fs).
Proof.
  revert l. induction fs as [|shown fs IH]; intros l Hf Hl; cbn; [by rewrite app_nil_r|].
  rewrite (assoc_L (++)). apply IH.
  - by apply frame_ready.
  - by eapply frame_never_blocks.
Qed.

(** ** Lemmas: destruction *)

(** The first object is made out of the second. *)
Definition depends (a b : object) : bool :=
  match a, b with
  | (Surface | Device), Instance => true
  | (CommandPool | Semaphore | Fence | Swapchain | ImageView | Framebuffer | RenderPass), Device => true
  | Swapchain, Surface | ImageView, Swapchain | Framebuffer, (ImageView | RenderPass) => true
  | _, _ => false
  end.

(** No object is destroyed before one that is made out of it. *)
Definition children_first (ds : list (object * Z)) : Prop :=
  ∀ i j a b, ds !! i = Some a → ds !! j = Some b → depends b.1 a.1 = true → (j < i)%nat.

Lemma children_first_cons a ds : Forall (λ b, depends b.1 a.1 = false) (a :: ds) →
  children_first ds → children_first (a :: ds).
Proof.
  intros Ha Hds i j x y Hi Hj Hd. destruct i as [|i].
  - injection Hi as <-. rewrite Forall_lookup in Ha. rewrite (Ha j y Hj) in Hd. done.
  - destruct j as [|j]; [lia|]. specialize (Hds i j x y Hi Hj Hd). lia.
Qed.

Lemma children_first_views vs ds : Forall (λ b, depends b.1 ImageView = false) ds →
  children_first ds → children_first ((pair ImageView <$> vs) ++ ds).
Proof.
  intros Hd Hds. induction vs as [|v vs IH]; [done|]. cbn. apply children_first_cons; [|done].
  apply Forall_cons. split; [done|]. apply Forall_app. split; [|done].
  apply Forall_fmap. by apply Forall_true.
Qed.

Lemma fresh_drop cs self : fresh_renderer cs self →
  destroyed self ≡ₚ objects cs ∧ children_first (destroyed self).
Proof.
  intros (ex & di & ha & mi & ma & su & sc & -> & Es & Ec & E1 & E2 & Hl & Ef & Er & _).
  unfold destroyed. rewrite Es, Ec, E1, E2, Ef, Er. cbn [fmap list_fmap option_list app].
  split.
  - unfold objects, owned. rewrite fmap_app.
    assert (∀ d, (λ '(i, h), (object_of i, h)) <$>
      zip (ImageViewInfo d <$> swapchain_images self) (swapchain_image_views self) =
      pair ImageView <$> swapchain_image_views self) as ->.
    { intros d. revert Hl. generalize (swapchain_images self).
      induction (swapchain_image_views self) as [|v vs IH]; intros [|i imgs] Hl; try done.
      cbn. f_equal. apply IH. by injection Hl. }
    cbn. solve_Permutation.
  - assert (∀ a ds, Forall (λ b, depends b.1 a = false) ds → depends ImageView a = false →
      Forall (λ b, depends b.1 a = false) ((pair ImageView <$> swapchain_image_views self) ++ ds)) as Hviews.
    { intros a ds ??. apply Forall_app. split; [|done]. apply Forall_fmap. by apply Forall_true. }
    do 3 (apply children_first_cons;
      [repeat (apply Forall_cons; split; [done|]); by apply Hviews; [repeat constructor|]|]).
    apply children_first_views; [by repeat constructor|].
    do 5 (apply children_first_cons; [by repeat constructor|]). intros i j a b Hi. by rewrite lookup_nil in Hi.
Qed.

Lemma counted_fields fs self : ∃ n, counted fs self = set_frame_count n self.
Proof.
  revert self. induction fs as [|shown fs IH]; intros self; [exists (frame_count self); by destruct self|].
  cbn. destruct shown; [|apply IH]. destruct (IH (set_frame_count (add64 (frame_count self) 1) self)) as [n E].
  exists n. exact E.
Qed.

(** The frames whose presentation was asked for. *)
Definition shown_count (fs : list (option (Z * bool))) : Z := Z.of_nat (length (omap id fs)).

Lemma counted_count fs self : in_u 64 (frame_count self) →
  frame_count (counted fs self) = wrap 64 (frame_count self + shown_count fs).
Proof.
  revert self. induction fs as [|shown fs IH]; intros self Hc.
  { cbn. by rewrite Z.add_0_r, wrap_small. }
  destruct shown as [x|]; [|exact (IH self Hc)].
  change (counted (Some x :: fs) self)
    with (counted fs (set_frame_count (add64 (frame_count self) 1) self)).
  rewrite IH by (by apply wrap_range). unfold shown_count. cbn. unfold add64. rewrite wrap_add_l.
  f_equal. lia.
Qed.

Lemma fresh_fence cs self : fresh_renderer cs self →
  fence_ready (in_flight_fence self) (made cs) = true ∧ never_blocks (made cs).
Proof.
  intros (ex & di & ha & mi & ma & su & sc & -> & _). split.
  - unfold owned. rewrite made_app. unfold fence_ready. rewrite foldl_app. cbn. rewrite Z.eqb_refl.
    generalize (swapchain_images self). generalize (swapchain_image_views self).
    intros vs. induction vs as [|v vs IH]; intros imgs; [by destruct imgs|].
    destruct imgs; [done|]. apply IH.
  - intros l1 f l2 E. exfalso. assert (Waited f ∈ made (owned ex di ha self mi ma su sc)) as Hin.
    { rewrite E. set_solver. }
    apply list_elem_of_fmap in Hin as ([i h] & ? & _). done.
Qed.

(** ** Properties *)


(** C20: presenting frames never waits for a fence that nobody signals, however many of
    the frames are dropped for want of an image: the fence is reset only between an
    acquisition and the submission that signals it again.  A frame is counted exactly
    when an image was acquired and its presentation asked for, also when Vulkan refuses
    the presentation (the result is dropped); a panic means that Vulkan has reported an
    error in a call whose result is unwrapped. *)
Theorem frames_never_wait_forever window n l self :
  new window [] = (l, Ok self) →
  ∃ sc, swapchain self = Some sc ∧
  match present_frames n self l with
  | (l', Ok self') => ∃ fs, length fs = n ∧ l' = l ++ frames self sc fs ∧ never_blocks l' ∧
      frame_count self' = wrap 64 (shown_count fs)
  | (_, Err e) => match e with end
  | (l', Panic) => never_blocks l' ∧ device_lost self sc l'
  end.
Proof.
  intros E. destruct (new_creates window []) as (cs & El & Hnew). rewrite E in El, Hnew.
  specialize (Hnew self eq_refl). cbn in El. subst l.
  destruct (fresh_fence cs self Hnew) as [Hf Hb].
  destruct Hnew as (_ & _ & _ & _ & _ & su & sc & _ & _ & Hsc & _ & Hl & _ & _ & _ & Hc).
  exists sc. split; [done|].
  destruct (present_frames_cases n self sc (made cs) Hsc Hl)
    as [(fs & Hn & ->)|(fs & o & p & _ & Hp & -> & Hd)];
    destruct (frames_never_block self sc fs (made cs) Hf Hb) as [Hf' Hb'].
  - exists fs. split_and!; [done..|]. rewrite counted_count, Hc by by rewrite Hc. done.
  - split; [|done]. rewrite (assoc_L (++)). by eapply frame_never_blocks.
Qed.

(** The number of swapchain images lies between the limits of the surface; it would
    wrap to 0 for the largest minimum. *)
Lemma image_count_limits min max : 0 ≤ min < 2 ^ 32 - 1 → max = 0 ∨ min ≤ max →
  min ≤ image_count min max ∧ (0 < max → image_count min max ≤ max).
Proof.
  intros Hmin Hmax. unfold image_count. rewrite add32_small by lia.
  destruct (Z.ltb_spec 0 max), (Z.ltb_spec max (min + 1)); cbn; lia.
Qed.

End laws.

(** ** Witnesses *)

(** A device whose second queue family draws, and whose window is resized now and
    then; [device] tells whether devices can be created. *)
Definition toy_api (device : bool) : VulkanApi unit := {|
  entry_load := true;
  display_handle w := Some 1;
  window_handle w := Some 2;
  required_extensions d := Some [3];
  create l i := if negb device && bool_decide (object_of i = Device) then None
                else Some (100 + Z.of_nat (length l));
  enumerate_physical_devices l i := Some [10; 11];
  queue_flags d := [4; 7];
  device_queue d f := 20 + f;
  surface_image_counts l d s := Some (2, 3);
  get_swapchain_images l s := Some [30; 31; 32];
  wait_for_fence l f := bool_decide (length l < 22%nat)%nat;
  acquire_next_image l sc sem := if bool_decide (length l = 12%nat) then OutOfDate else Image 1;
  reset_fence l f := true;
  queue_submit l q w s f := true;
  queue_present l q w sc i := bool_decide (length l < 20%nat)%nat;
|}.

Definition toy_new (device : bool) := new (VulkanApi0 := toy_api device) tt [].
Definition toy_self : VulkanRenderer := set_frame_count 0
  {| instance := 100; physical_device := 10; device := 102; graphics_queue := 21;
     graphics_queue_family := 1; surface_loader := true; surface := Some 101;
     swapchain_loader := true; swapchain := Some 107; swapchain_images := [30; 31; 32];
     swapchain_image_views := [108; 109; 110]; command_pool := 103; command_buffers := [];
     render_pass := None; framebuffers := []; image_available_semaphore := 104;
     render_finished_semaphore := 105; in_flight_fence := 106; frame_count := 0 |}.

(** The first of three frames is dropped, and the presentation of the last is refused. *)
Lemma frames_never_wait_forever_witness :
  (toy_new true).2 = Ok toy_self ∧
  let r := present_frames (VulkanApi0 := toy_api true) 3 toy_self (toy_new true).1 in
  r.2 = Ok (set_frame_count 2 toy_self) ∧ never_blocks r.1 ∧
  last r.1 = Some (Presented 21 105 107 1 false).
Proof.
  split; [vm_compute; reflexivity|]. cbv zeta.
  assert (toy_new true = ((toy_new true).1, Ok toy_self)) as E by (vm_compute; reflexivity).
  destruct (frames_never_wait_forever (VulkanApi0 := toy_api true) tt 3 _ _ E) as (sc & _ & Hr).
  assert ((present_frames (VulkanApi0 := toy_api true) 3 toy_self (toy_new true).1).2 =
    Ok (set_frame_count 2 toy_self)) as Ev by (vm_compute; reflexivity).
  split; [exact Ev|]. split; [|vm_compute; reflexivity]. destruct (present_frames 3 toy_self _) as [l' [self'|e|]]; [|done..].
  by destruct Hr as (_ & _ & _ & Hb & _).
Defined.

(** When no device can be created, the instance and the surface are never destroyed. *)
Lemma new_leaks : toy_new false =
  ([Created (InstanceInfo [3]) 100; Created (SurfaceInfo 100 1 2) 101], Err DeviceFailed).
Proof. vm_compute. reflexivity. Qed.

End Vulkan.
