(* ===== verification/Gpu.v ===== *)
(** * The GPU front end (gpu crate)

    Module [Pm4]: packet headers (liverpool/pm4.rs).  Module [Liverpool]: the
    register file (regs.rs) and the command processor (command_processor.rs).
    Module [Gpu]: the global context (lib.rs).  The register-bank writes only
    emit a trace line so far, so the model keeps the trace of register writes as
    output next to the registers.  The renderer is that of Vulkan.v: its calls on Vulkan
    are a log next to the context, and its panics poison the lock of the context. *)

From S2P Require Import Prelude Bytes Vulkan.

Open Scope rust_scope.

Module Pm4.

Inductive Pm4Opcode :=
| Nop | SetBase | ClearState | IndexBufferSize | DispatchDirect | DispatchIndirect |
AtomicGds | OcclusionQuery | SetPredication | RegRmw | DrawIndirect | DrawIndexIndirect |
IndexBase | DrawIndex2 | ContextControl | IndexType | DrawIndexAuto | NumInstances |
DrawIndexMultiAuto | IndirectBufferConst | DrawIndexOffset2 | WriteData | MemSemaphore |
WaitRegMem | IndirectBuffer | CopyData | PfpSyncMe | SurfaceSync | EventWrite |
EventWriteEop | EventWriteEos | ReleaseMem | DmaData | AcquireMem | LoadShReg |
LoadContextReg | SetConfigReg | SetContextReg | SetShReg | SetUconfigReg | LoadConstRam |
WriteConstRam | DumpConstRam | IncrementCeCounter | IncrementDeCounter | WaitOnCeCounter |
WaitOnDeCounterDiff.

#[export] Instance Pm4Opcode_eq_dec : EqDecision Pm4Opcode.
Proof. solve_decision. Defined.

Definition from_u32 (value : Z) : option Pm4Opcode :=
  if value =? 0x10 then Some Nop
  else if value =? 0x11 then Some SetBase
  else if value =? 0x12 then Some ClearState
  else if value =? 0x13 then Some IndexBufferSize
  else if value =? 0x15 then Some DispatchDirect
  else if value =? 0x16 then Some DispatchIndirect
  else if value =? 0x1D then Some AtomicGds
  else if value =? 0x1F then Some OcclusionQuery
  else if value =? 0x20 then Some SetPredication
  else if value =? 0x21 then Some RegRmw
  else if value =? 0x24 then Some DrawIndirect
  else if value =? 0x25 then Some DrawIndexIndirect
  else if value =? 0x26 then Some IndexBase
  else if value =? 0x27 then Some DrawIndex2
  else if value =? 0x28 then Some ContextControl
  else if value =? 0x2A then Some IndexType
  else if value =? 0x2D then Some DrawIndexAuto
  else if value =? 0x2F then Some NumInstances
  else if value =? 0x30 then Some DrawIndexMultiAuto
  else if value =? 0x33 then Some IndirectBufferConst
  else if value =? 0x35 then Some DrawIndexOffset2
  else if value =? 0x37 then Some WriteData
  else if value =? 0x39 then Some MemSemaphore
  else if value =? 0x3C then Some WaitRegMem
  else if value =? 0x3F then Some IndirectBuffer
  else if value =? 0x40 then Some CopyData
  else if value =? 0x42 then Some PfpSyncMe
  else if value =? 0x43 then Some SurfaceSync
  else if value =? 0x46 then Some EventWrite
  else if value =? 0x47 then Some EventWriteEop
  else if value =? 0x48 then Some EventWriteEos
  else if value =? 0x49 then Some ReleaseMem
  else if value =? 0x50 then Some DmaData
  else if value =? 0x58 then Some AcquireMem
  else if value =? 0x5F then Some LoadShReg
  else if value =? 0x61 then Some LoadContextReg
  else if value =? 0x68 then Some SetConfigReg
  else if value =? 0x69 then Some SetContextReg
  else if value =? 0x76 then Some SetShReg
  else if value =? 0x79 then Some SetUconfigReg
  else if value =? 0x80 then Some LoadConstRam
  else if value =? 0x81 then Some WriteConstRam
  else if value =? 0x83 then Some DumpConstRam
  else if value =? 0x84 then Some IncrementCeCounter
  else if value =? 0x85 then Some IncrementDeCounter
  else if value =? 0x86 then Some WaitOnCeCounter
  else if value =? 0x88 then Some WaitOnDeCounterDiff
  else None.

Inductive Pm4Type := Type0 | Type2 | Type3.

#[export] Instance Pm4Type_eq_dec : EqDecision Pm4Type.
Proof. solve_decision. Defined.

Record Pm4Header := { packet_type : Pm4Type; count : Z; opcode : option Pm4Opcode }.

Definition parse_pm4_header (header : Z) : Pm4Header :=
  let sel := Z.land (Z.shiftr header 30) 0x3 in
  let packet_type :=
    if sel =? 0 then Type0
    else if sel =? 2 then Type2
    else if sel =? 3 then Type3
    else Type2 in
  let count := wrap 16 (Z.land (Z.shiftr header 16) 0x3FFF) in
  let opcode :=
    if bool_decide (packet_type = Type3)
    then from_u32 (Z.land (Z.shiftr header 8) 0xFF)
    else None in
  {| packet_type := packet_type; count := count; opcode := opcode |}.

(** The discriminants, and the header word of a packet with [n] body words. *)
Definition to_u32 (op : Pm4Opcode) : Z :=
  match op with
  | Nop => 0x10 | SetBase => 0x11 | ClearState => 0x12 | IndexBufferSize => 0x13 |
  DispatchDirect => 0x15 | DispatchIndirect => 0x16 | AtomicGds => 0x1D | OcclusionQuery =>
  0x1F | SetPredication => 0x20 | RegRmw => 0x21 | DrawIndirect => 0x24 | DrawIndexIndirect
  => 0x25 | IndexBase => 0x26 | DrawIndex2 => 0x27 | ContextControl => 0x28 | IndexType =>
  0x2A | DrawIndexAuto => 0x2D | NumInstances => 0x2F | DrawIndexMultiAuto => 0x30 |
  IndirectBufferConst => 0x33 | DrawIndexOffset2 => 0x35 | WriteData => 0x37 | MemSemaphore
  => 0x39 | WaitRegMem => 0x3C | IndirectBuffer => 0x3F | CopyData => 0x40 | PfpSyncMe =>
  0x42 | SurfaceSync => 0x43 | EventWrite => 0x46 | EventWriteEop => 0x47 | EventWriteEos =>
  0x48 | ReleaseMem => 0x49 | DmaData => 0x50 | AcquireMem => 0x58 | LoadShReg => 0x5F |
  LoadContextReg => 0x61 | SetConfigReg => 0x68 | SetContextReg => 0x69 | SetShReg => 0x76 |
  SetUconfigReg => 0x79 | LoadConstRam => 0x80 | WriteConstRam => 0x81 | DumpConstRam =>
  0x83 | IncrementCeCounter => 0x84 | IncrementDeCounter => 0x85 | WaitOnCeCounter => 0x86 |
  WaitOnDeCounterDiff => 0x88
  end.

Definition type3_header (op : Pm4Opcode) (n : Z) : Z :=
  3 * 2 ^ 30 + (n - 1) * 2 ^ 16 + to_u32 op * 2 ^ 8.

Lemma from_to_u32 op : from_u32 (to_u32 op) = Some op.
Proof. by destruct op. Qed.

Lemma from_u32_Some v op : from_u32 v = Some op → to_u32 op = v.
Proof.
  unfold from_u32.
  repeat match goal with
  | |- context [v =? ?k] => destruct (Z.eqb_spec v k) as [->|]; [by intros [= <-]|]
  end. done.
Qed.

Lemma to_u32_range op : 0 ≤ to_u32 op < 256.
Proof. destruct op; simpl; lia. Qed.

Lemma parse_type3_header op n : 1 ≤ n ≤ 0x4000 →
  parse_pm4_header (type3_header op n) =
  {| packet_type := Type3; count := n - 1; opcode := Some op |}.
Proof.
  intros Hn. pose proof (to_u32_range op) as Ho. unfold parse_pm4_header.
  change 0x3 with (2 ^ 2 - 1). change 0x3FFF with (2 ^ 14 - 1). change 0xFF with (2 ^ 8 - 1).
  rewrite !land_pow2_ones, !Z.shiftr_div_pow2 by lia. unfold type3_header.
  assert ((3 * 2 ^ 30 + (n - 1) * 2 ^ 16 + to_u32 op * 2 ^ 8) / 2 ^ 30 mod 2 ^ 2 = 3) as ->.
  { rewrite <-(Z.div_unique_pos (3 * 2 ^ 30 + (n - 1) * 2 ^ 16 + to_u32 op * 2 ^ 8) (2 ^ 30) 3
      ((n - 1) * 2 ^ 16 + to_u32 op * 2 ^ 8)); [done|lia..]. }
  assert ((3 * 2 ^ 30 + (n - 1) * 2 ^ 16 + to_u32 op * 2 ^ 8) / 2 ^ 16 mod 2 ^ 14 = n - 1) as ->.
  { rewrite <-(Z.div_unique_pos (3 * 2 ^ 30 + (n - 1) * 2 ^ 16 + to_u32 op * 2 ^ 8) (2 ^ 16) (3 * 2 ^ 14 + (n - 1))
      (to_u32 op * 2 ^ 8)); [|lia..].
    symmetry. apply (Zmod_unique _ _ 3); lia. }
  assert ((3 * 2 ^ 30 + (n - 1) * 2 ^ 16 + to_u32 op * 2 ^ 8) / 2 ^ 8 mod 2 ^ 8 = to_u32 op) as ->.
  { rewrite <-(Z.div_unique_pos (3 * 2 ^ 30 + (n - 1) * 2 ^ 16 + to_u32 op * 2 ^ 8) (2 ^ 8)
      (3 * 2 ^ 22 + (n - 1) * 2 ^ 8 + to_u32 op) 0); [|lia..].
    symmetry. apply (Zmod_unique _ _ (3 * 2 ^ 14 + (n - 1))); lia. }
  simpl. rewrite from_to_u32, wrap_small; [done|]. unfold in_u. lia.
Qed.

End Pm4.

Module Liverpool.

Import Pm4.

(** ** Registers *)

(** The [f32] fields are bit patterns. *)
Record ContextRegs := {
  cb_color_base : list Z; cb_color_size : list Z; cb_color_info : list Z;
  db_z_info : Z; db_stencil_info : Z;
  pa_cl_vport_xscale : Z; pa_cl_vport_yscale : Z; pa_cl_vport_zscale : Z;
  pa_cl_vport_xoffset : Z; pa_cl_vport_yoffset : Z; pa_cl_vport_zoffset : Z;
  pa_sc_screen_scissor_tl : Z; pa_sc_screen_scissor_br : Z;
}.

Record ShaderRegs := {
  vs_program_addr : Z; ps_program_addr : Z; cs_program_addr : Z; gs_program_addr : Z;
  hs_program_addr : Z;
  vs_user_data : list Z; ps_user_data : list Z; cs_user_data : list Z;
}.

Record GpuRegs := {
  context : ContextRegs;
  shader : ShaderRegs;
  num_instances : Z;
  index_base : Z;
  index_size : Z;
  index_type : Z;
}.

Definition ContextRegs_default : ContextRegs :=
  {| cb_color_base := repeat 0 8; cb_color_size := repeat 0 8; cb_color_info := repeat 0 8;
     db_z_info := 0; db_stencil_info := 0;
     pa_cl_vport_xscale := 0; pa_cl_vport_yscale := 0; pa_cl_vport_zscale := 0;
     pa_cl_vport_xoffset := 0; pa_cl_vport_yoffset := 0; pa_cl_vport_zoffset := 0;
     pa_sc_screen_scissor_tl := 0; pa_sc_screen_scissor_br := 0 |}.

Definition ShaderRegs_default : ShaderRegs :=
  {| vs_program_addr := 0; ps_program_addr := 0; cs_program_addr := 0;
     gs_program_addr := 0; hs_program_addr := 0; vs_user_data := repeat 0 16;
     ps_user_data := repeat 0 16; cs_user_data := repeat 0 16 |}.

Definition GpuRegs_default : GpuRegs :=
  {| context := ContextRegs_default; shader := ShaderRegs_default; num_instances := 0;
     index_base := 0; index_size := 0; index_type := 0 |}.

(** A line of the register trace: bank, offset, value. *)
Inductive bank := Context | Shader | Config | Uconfig.
Definition reg_write : Type := bank * Z * Z.

(** The registers and the trace so far. *)
Definition regs_out : Type := GpuRegs * list reg_write.

Definition write_context_reg (offset value : Z) (s : regs_out) : regs_out :=
  (s.1, s.2 ++ [(Context, offset, value)]).
Definition write_sh_reg (offset value : Z) (s : regs_out) : regs_out :=
  (s.1, s.2 ++ [(Shader, offset, value)]).
Definition write_config_reg (offset value : Z) (s : regs_out) : regs_out :=
  (s.1, s.2 ++ [(Config, offset, value)]).
Definition write_uconfig_reg (offset value : Z) (s : regs_out) : regs_out :=
  (s.1, s.2 ++ [(Uconfig, offset, value)]).

Definition set_num_instances (v : Z) (r : GpuRegs) : GpuRegs :=
  {| context := context r; shader := shader r; num_instances := v;
     index_base := index_base r; index_size := index_size r; index_type := index_type r |}.
Definition set_index_base (v : Z) (r : GpuRegs) : GpuRegs :=
  {| context := context r; shader := shader r; num_instances := num_instances r;
     index_base := v; index_size := index_size r; index_type := index_type r |}.
Definition set_index_size (v : Z) (r : GpuRegs) : GpuRegs :=
  {| context := context r; shader := shader r; num_instances := num_instances r;
     index_base := index_base r; index_size := v; index_type := index_type r |}.
Definition set_index_type (v : Z) (r : GpuRegs) : GpuRegs :=
  {| context := context r; shader := shader r; num_instances := num_instances r;
     index_base := index_base r; index_size := index_size r; index_type := v |}.

(** ** The command processor *)

Record CommandProcessor := { regs : GpuRegs; submit_count : Z }.

Definition new : CommandProcessor := {| regs := GpuRegs_default; submit_count := 0 |}.

(** [for (i, &value) in body[1..].iter().enumerate()]. *)
Fixpoint write_each (write : Z → Z → regs_out → regs_out) (reg_offset i : Z)
    (values : list Z) (s : regs_out) : regs_out :=
  match values with
  | [] => s
  | value :: values' =>
      write_each write reg_offset (i + 1) values'
        (write (add32 reg_offset (wrap 32 i)) value s)
  end.

(** The four [SET_*_REG] cases. *)
Definition set_regs (write : Z → Z → regs_out → regs_out) (body : list Z)
    (s : regs_out) : pan regs_out :=
  if 2 <=? blen body then
    reg_offset ← index body 0;
    values ← slice_from body 1;
    mret (write_each write reg_offset 0 values s)
  else mret s.

(** Runs [f] on the first word, when there is one. *)
Definition first_word (f : Z → GpuRegs → GpuRegs) (body : list Z) (s : regs_out)
  : pan regs_out :=
  if negb (blen body =? 0) then v ← index body 0; mret (f v s.1, s.2) else mret s.

Definition process_type3_packet (opcode : Pm4Opcode) (body : list Z) (s : regs_out)
  : pan regs_out :=
  match opcode with
  | Nop => mret s
  | SetContextReg => set_regs write_context_reg body s
  | SetShReg => set_regs write_sh_reg body s
  | SetConfigReg => set_regs write_config_reg body s
  | SetUconfigReg => set_regs write_uconfig_reg body s
  | DrawIndex2 => mret s
  | DrawIndexAuto => mret s
  | DispatchDirect => mret s
  | NumInstances => first_word set_num_instances body s
  | IndexBase =>
      if 2 <=? blen body then
        lo ← index body 0;
        hi ← index body 1;
        mret (set_index_base (Z.lor lo (Z.shiftl hi 32)) s.1, s.2)
      else mret s
  | IndexType => first_word set_index_type body s
  | IndexBufferSize => first_word set_index_size body s
  | EventWriteEop => mret s
  | AcquireMem => mret s
  | WaitRegMem => mret s
  | ContextControl => mret s
  | ClearState => mret s
  | _ => mret s
  end.

(** The loop over the words of the buffer.  Every round advances the offset,
    so [S (length dcb)] rounds are enough. *)
Fixpoint process_loop (fuel : nat) (dcb : list Z) (offset : Z) (s : regs_out)
  : pan regs_out :=
  match fuel with
  | O => Panic
  | S fuel' =>
      if offset <? blen dcb then
        header_word ← index dcb offset;
        let header := parse_pm4_header header_word in
        match packet_type header with
        | Type2 => process_loop fuel' dcb (offset + 1) s
        | Type3 =>
            let body_dwords := count header + 1 in
            let end_ := (offset + 1 + body_dwords) `min` blen dcb in
            body ← slice dcb (offset + 1) end_;
            s ← match opcode header with
                | Some op => process_type3_packet op body s
                | None => mret s
                end;
            process_loop fuel' dcb end_ s
        | Type0 => process_loop fuel' dcb (offset + 1) s
        end
      else mret s
  end.

(** With the register writes traced. *)
Definition process_command_buffer (self : CommandProcessor) (dcb : list Z)
  : pan (CommandProcessor * list reg_write) :=
  '(r, t) ← process_loop (S (length dcb)) dcb 0 (regs self, []);
  mret ({| regs := r; submit_count := submit_count self +64 1 |}, t).

(** ** The packets of a buffer *)

Inductive packet :=
| Filler
| Packet (op : Pm4Opcode) (body : list Z).

Definition packet_ok (p : packet) : Prop :=
  match p with
  | Filler => True
  | Packet op body => 1 ≤ blen body ≤ 0x4000
  end.

(** A filler word is a type-2 header. *)
Definition encode_packet (p : packet) : list Z :=
  match p with
  | Filler => [2 ^ 31]
  | Packet op body => type3_header op (blen body) :: body
  end.

(** What one packet does: the register writes it asks for, at consecutive
    offsets modulo 2^32, or the index-buffer and instancing registers. *)
Fixpoint writes (k : bank) (off : Z) (values : list Z) : list reg_write :=
  match values with
  | [] => []
  | v :: values' => (k, wrap 32 off, v) :: writes k (off + 1) values'
  end.

Definition exec_bank (k : bank) (body : list Z) (s : regs_out) : regs_out :=
  match body with off :: values => (s.1, s.2 ++ writes k off values) | [] => s end.

Definition exec (op : Pm4Opcode) (body : list Z) (s : regs_out) : regs_out :=
  match op, body with
  | SetContextReg, _ => exec_bank Context body s
  | SetShReg, _ => exec_bank Shader body s
  | SetConfigReg, _ => exec_bank Config body s
  | SetUconfigReg, _ => exec_bank Uconfig body s
  | NumInstances, v :: _ => (set_num_instances v s.1, s.2)
  | IndexType, v :: _ => (set_index_type v s.1, s.2)
  | IndexBufferSize, v :: _ => (set_index_size v s.1, s.2)
  | IndexBase, lo :: hi :: _ => (set_index_base (lo + hi * 2 ^ 32) s.1, s.2)
  | _, _ => s
  end.

Definition exec_packet (s : regs_out) (p : packet) : regs_out :=
  match p with Filler => s | Packet op body => exec op body s end.

(** ** Lemmas *)

Lemma write_each_spec k write off i values s :
  (∀ o v s, write o v s = (s.1, s.2 ++ [(k, o, v)])) → 0 ≤ i →
  write_each write off i values s = (s.1, s.2 ++ writes k (off + i) values).
Proof.
  intros Hw. revert i s. induction values as [|v values IH]; intros i s Hi; simpl.
  { rewrite app_nil_r. by destruct s. }
  rewrite IH, Hw by lia. cbn [fst snd]. rewrite <-(assoc_L (++)), <-Z.add_assoc.
  unfold add32, wrap at 1 2. by rewrite Z.add_mod_idemp_r by done.
Qed.

Lemma slice_from_1 {E} (v : Z) l : slice_from (E:=E) (v :: l) 1 = Ok l.
Proof.
  unfold slice_from, slice. rewrite !(proj2 (Z.leb_le _ _)) by (simpl length; lia).
  cbn [andb]. change (drop (Z.to_nat 1) (v :: l)) with l.
  rewrite take_ge; [done|]. simpl length. lia.
Qed.

Lemma set_regs_exec k write body s :
  (∀ o v s, write o v s = (s.1, s.2 ++ [(k, o, v)])) →
  set_regs write body s = Ok (exec_bank k body s).
Proof.
  intros Hw. unfold set_regs. destruct body as [|off [|v values]]; [done| |].
  { cbn. rewrite app_nil_r. by destruct s. }
  rewrite (proj2 (Z.leb_le _ _)) by (simpl length; lia).
  unfold index. simpl (unwrap _). cbn [mbind outcome_bind]. rewrite slice_from_1.
  cbn [mbind outcome_bind]. by rewrite (write_each_spec k), Z.add_0_r by done.
Qed.

Lemma process_type3_exec op body s : Forall (in_u 32) body →
  process_type3_packet op body s = Ok (exec op body s).
Proof.
  intros Hb. assert (∀ f, first_word f body s =
    Ok (match body with v :: _ => (f v s.1, s.2) | [] => s end)) as Hf
    by (intros f; by destruct body).
  destruct op; try done; cbn [process_type3_packet exec];
    try (by apply set_regs_exec); try (rewrite Hf; by destruct body).
  destruct body as [|lo [|hi body]]; [done..|].
  rewrite (proj2 (Z.leb_le _ _)) by (simpl length; lia).
  change (index (E:=Empty_set) (lo :: hi :: body) 0) with (Ok (E:=Empty_set) lo).
  change (index (E:=Empty_set) (lo :: hi :: body) 1) with (Ok (E:=Empty_set) hi).
  cbn [mbind outcome_bind].
  apply Forall_cons in Hb as [Hlo _]. by rewrite lor_shiftl_add by done.
Qed.

Lemma index_reads {E} dcb offset w l : reads dcb offset (w :: l) →
  index (E:=E) dcb offset = Ok w.
Proof.
  intros (Hp & k & Hk). unfold index.
  assert (dcb !! Z.to_nat offset = Some w) as ->; [|done].
  rewrite <-(take_drop (Z.to_nat offset) dcb), Hk.
  pose proof (f_equal length Hk) as Hl. rewrite length_drop in Hl. simpl in Hl.
  rewrite lookup_app_r; rewrite length_take; [|lia].
  replace (Z.to_nat offset - Z.to_nat offset `min` length dcb)%nat with 0%nat by lia. done.
Qed.

Lemma slice_reads {E} dcb offset l : reads dcb offset l → offset + blen l ≤ blen dcb →
  slice (E:=E) dcb offset (offset + blen l) = Ok l.
Proof.
  intros (Hp & k & Hk) Hl. unfold slice.
  rewrite !(proj2 (Z.leb_le _ _)) by lia. cbn [andb]. rewrite Hk.
  replace (offset + blen l - offset) with (blen l) by lia.
  by rewrite Nat2Z.id, take_app_length.
Qed.

(** One round of the loop on a packet whose body may be cut by the end of the
    buffer. *)
Lemma process_loop_packet fuel dcb offset op n body s :
  Forall (in_u 32) body → 1 ≤ n ≤ 0x4000 →
  reads dcb offset (type3_header op n :: body) →
  blen body = n ∨ (blen body < n ∧ offset + 1 + blen body = blen dcb) →
  process_loop (S fuel) dcb offset s =
  process_loop fuel dcb (offset + 1 + blen body) (exec op body s).
Proof.
  intros Hb Hn Hr Hl. cbn [process_loop].
  pose proof (reads_length _ _ _ Hr ltac:(done)) as Hlen. simpl length in Hlen.
  destruct (Z.ltb_spec offset (blen dcb)); [|lia].
  erewrite index_reads by done. cbn [mbind outcome_bind].
  rewrite parse_type3_header by done. cbn [packet_type count Pm4.opcode].
  assert ((offset + 1 + (n - 1 + 1)) `min` blen dcb = offset + 1 + blen body) as -> by lia.
  change (type3_header op n :: body) with ([type3_header op n] ++ body) in Hr.
  apply reads_app in Hr as [_ Hr]. change (blen [type3_header op n]) with 1 in Hr.
  rewrite slice_reads by (done || lia). cbn [mbind outcome_bind].
  by rewrite process_type3_exec.
Qed.

Lemma process_loop_filler fuel dcb offset s : reads dcb offset [2 ^ 31] →
  process_loop (S fuel) dcb offset s = process_loop fuel dcb (offset + 1) s.
Proof.
  intros Hr. cbn [process_loop].
  pose proof (reads_length _ _ _ Hr ltac:(done)) as Hlen. simpl length in Hlen.
  destruct (Z.ltb_spec offset (blen dcb)); [|lia]. by erewrite index_reads by done.
Qed.

Lemma process_loop_end fuel dcb offset s : blen dcb ≤ offset →
  process_loop (S fuel) dcb offset s = Ok s.
Proof. intros Hl. cbn [process_loop]. by destruct (Z.ltb_spec offset (blen dcb)); [lia|]. Qed.

Lemma process_loop_packets ps fuel dcb offset s :
  Forall packet_ok ps → Forall (in_u 32) (concat (encode_packet <$> ps)) →
  reads dcb offset (concat (encode_packet <$> ps)) →
  process_loop (length ps + fuel) dcb offset s =
  process_loop fuel dcb (offset + blen (concat (encode_packet <$> ps)))
    (foldl exec_packet s ps).
Proof.
  intros Hok. revert offset s. induction Hok as [|p ps Hp _ IH]; intros offset s Hu Hr.
  { by rewrite Z.add_0_r. }
  rewrite fmap_cons in *. cbn [concat] in *. apply Forall_app in Hu as [Hu1 Hu2].
  apply reads_app in Hr as [Hr1 Hr2]. rewrite length_app, Nat2Z.inj_add.
  change (length (p :: ps) + fuel)%nat with (S (length ps + fuel)).
  destruct p as [|op body]; cbn [encode_packet] in *.
  - rewrite process_loop_filler by done. change (blen [2 ^ 31]) with 1 in *.
    rewrite IH by done. cbn [foldl exec_packet]. by rewrite Z.add_assoc.
  - apply Forall_cons in Hu1 as [_ Hu1].
    rewrite (process_loop_packet _ _ _ op (blen body) body) by first [exact Hp|done|by left].
    simpl length in *. rewrite IH; [|done|].
    + cbn [foldl exec_packet]. f_equal. lia.
    + by replace (offset + 1 + blen body) with (offset + Z.of_nat (S (length body))) by lia.
Qed.

(** What no packet can break. *)
Definition regs_wf (r : GpuRegs) : Prop :=
  in_u 32 (num_instances r) ∧ in_u 64 (index_base r) ∧ in_u 32 (index_size r) ∧
  in_u 32 (index_type r).

Definition trace_wf (t : list reg_write) : Prop :=
  Forall (λ w : reg_write, in_u 32 w.1.2 ∧ in_u 32 w.2) t.

Definition frame (s s' : regs_out) : Prop :=
  context s'.1 = context s.1 ∧ shader s'.1 = shader s.1 ∧
  (regs_wf s.1 → regs_wf s'.1) ∧ (trace_wf s.2 → trace_wf s'.2).

Lemma frame_refl s : frame s s.
Proof. by split_and!. Qed.

Lemma frame_trans s1 s2 s3 : frame s1 s2 → frame s2 s3 → frame s1 s3.
Proof. intros (? & ? & ? & ?) (? & ? & ? & ?). split_and!; [congruence..|auto|auto]. Qed.

Lemma writes_wf k off values : Forall (in_u 32) values → trace_wf (writes k off values).
Proof.
  intros Hv. revert off. induction Hv as [|v values Hv _ IH]; intros off; [constructor|].
  constructor; [|apply IH]. split; [by apply wrap_range|done].
Qed.

Lemma exec_frame op body s : Forall (in_u 32) body → frame s (exec op body s).
Proof.
  intros Hb. destruct body as [|v body]; [by destruct op|].
  apply Forall_cons in Hb as [Hv Hb].
  assert (∀ k, frame s (exec_bank k (v :: body) s)) as Hbank.
  { intros k. split_and!; try done. intros Ht. apply Forall_app. split; [done|].
    by apply writes_wf. }
  assert (∀ r, context r = context s.1 → shader r = shader s.1 →
    (regs_wf s.1 → regs_wf r) → frame s (r, s.2)) as Hset by (intros; by split_and!).
  unfold regs_wf in Hset.
  destruct op; cbn [exec]; try apply frame_refl; try apply Hbank.
  2: destruct body as [|hi body]; [apply frame_refl|].
  2: apply Forall_cons in Hb as [Hhi _].
  all: apply Hset; [done..|]; intros (? & ? & ? & ?); split_and!; try done;
    unfold in_u in *; simpl; lia.
Qed.

Lemma process_loop_total dcb fuel offset s : Forall (in_u 32) dcb → 0 ≤ offset →
  blen dcb - offset < Z.of_nat fuel → (0 < fuel)%nat →
  ∃ s', process_loop fuel dcb offset s = Ok s' ∧ frame s s'.
Proof.
  intros Hu. revert offset s. induction fuel as [|fuel IH]; intros offset s Hp Hf H0; [lia|].
  cbn [process_loop]. destruct (Z.ltb_spec offset (blen dcb)) as [Hl|].
  2: { exists s. split; [done|apply frame_refl]. }
  destruct (lookup_lt_is_Some_2 dcb (Z.to_nat offset) ltac:(lia)) as [w Hw].
  unfold index. rewrite Hw. cbn [unwrap mbind outcome_bind].
  destruct (packet_type (parse_pm4_header w)); [apply IH; lia..|].
  set (end_ := (offset + 1 + (count (parse_pm4_header w) + 1)) `min` blen dcb).
  assert (0 ≤ count (parse_pm4_header w)) as Hc by (apply (wrap_range 16); lia).
  unfold slice. rewrite !(proj2 (Z.leb_le _ _)) by lia. cbn [andb mbind outcome_bind].
  set (body := take _ _). assert (Forall (in_u 32) body) by by apply Forall_take, Forall_drop.
  assert (∃ s1, match opcode (parse_pm4_header w) with
    | Some op => process_type3_packet op body s | None => mret s end = Ok s1 ∧ frame s s1)
    as (s1 & -> & Hs1).
  { destruct (opcode _) as [op|]; [|exists s; split; [done|apply frame_refl]].
    exists (exec op body s). split; [by apply process_type3_exec|by apply exec_frame]. }
  cbn [mbind outcome_bind]. destruct (IH end_ s1) as (s' & -> & Hs'); [lia..|].
  exists s'. split; [done|]. by eapply frame_trans.
Qed.

(** ** Properties *)

(** A packet at the end of a buffer of which only [body] is left. *)
Definition encode_cut (cut : option (Pm4Opcode * Z * list Z)) : list Z :=
  match cut with Some (op, n, body) => type3_header op n :: body | None => [] end.

Definition cut_ok (cut : option (Pm4Opcode * Z * list Z)) : Prop :=
  match cut with Some (_, n, body) => blen body < n ≤ 0x4000 | None => True end.

Definition exec_cut (s : regs_out) (cut : option (Pm4Opcode * Z * list Z)) : regs_out :=
  match cut with Some (op, _, body) => exec op body s | None => s end.

(** C22: a command buffer made of filler words and type-3 packets is decoded to
    exactly those packets: processing it performs the effect of each packet in
    order, and counts one submission.  A last packet cut by the end of the
    buffer is executed with the words that are there. *)
Theorem process_encoded ps cut self dcb :
  Forall packet_ok ps → cut_ok cut →
  dcb = concat (encode_packet <$> ps) ++ encode_cut cut → Forall (in_u 32) dcb →
  process_command_buffer self dcb =
    let '(r, t) := exec_cut (foldl exec_packet (regs self, []) ps) cut in
    Ok ({| regs := r; submit_count := submit_count self +64 1 |}, t).
Proof.
  intros Hps Hcut Edcb Hu. pose proof (reads_all dcb) as Hr. rewrite Edcb in Hr at 2.
  apply reads_app in Hr as [Hr1 Hr2]. unfold process_command_buffer.
  assert (length ps ≤ length (concat (encode_packet <$> ps)))%nat as Hn.
  { clear. induction ps as [|p ps IH]; [done|]. rewrite fmap_cons. cbn [concat].
    rewrite length_app. destruct p; simpl; lia. }
  assert (length dcb = length (concat (encode_packet <$> ps)) + length (encode_cut cut))%nat
    as Hl by (by rewrite Edcb, length_app).
  rewrite Edcb in Hu. apply Forall_app in Hu as [Hu1 Hu2].
  replace (S (length dcb)) with (length ps + S (length dcb - length ps))%nat by lia.
  rewrite process_loop_packets by done. rewrite Z.add_0_l in *.
  destruct cut as [[[op n] body]|]; cbn [encode_cut exec_cut cut_ok] in *.
  - simpl length in Hl. apply Forall_cons in Hu2 as [_ Hu2].
    rewrite (process_loop_packet _ _ _ op n body); [|done|lia|done|right; lia].
    replace (length dcb - length ps)%nat with
      (S (length dcb - length ps - 1))%nat by lia.
    rewrite process_loop_end by lia. by destruct (exec _ _ _).
  - simpl length in Hl. rewrite process_loop_end by lia. by destruct (foldl _ _ _).
Qed.

(** C27: every buffer of words is processed to the end without panic, and counts
    one submission: no header, count or opcode makes an index or slice fail.
    The context and shader registers are never changed, and the other registers
    and the traced writes keep their widths. *)
Theorem process_total self dcb : Forall (in_u 32) dcb →
  ∃ self' t, process_command_buffer self dcb = Ok (self', t) ∧
    submit_count self' = submit_count self +64 1 ∧
    context (regs self') = context (regs self) ∧ shader (regs self') = shader (regs self) ∧
    (regs_wf (regs self) → regs_wf (regs self')) ∧ trace_wf t.
Proof.
  intros Hu. unfold process_command_buffer.
  destruct (process_loop_total dcb (S (length dcb)) 0 (regs self, []) Hu)
    as ([r t] & -> & (Hc & Hs & Hr & Ht)); [lia..|].
  eexists _, t. split; [done|]. split; [done|]. split; [exact Hc|]. split; [exact Hs|].
  split; [exact Hr|]. apply Ht. constructor.
Qed.

(** The words of a type-0 packet (a register write, whose header announces
    two words here) are not skipped: they are read as packets of their own, and
    here set the instance count. *)
Theorem type0_body_executed :
  packet_type (parse_pm4_header 0x00010000) = Type0 ∧
  count (parse_pm4_header 0x00010000) = 1 ∧
  process_command_buffer new [0x00010000; type3_header NumInstances 1; 7] =
  Ok ({| regs := set_num_instances 7 GpuRegs_default; submit_count := 1 |}, []).
Proof. split_and!; vm_compute; reflexivity. Qed.

(** ** Witnesses *)

(** Two fillers around a context-register write and an index base, then an
    instance count cut off before its body. *)
Definition sample_packets : list packet :=
  [Filler; Packet SetContextReg [0x200; 11; 12]; Packet IndexBase [0xDEAD; 1]; Filler].

Definition sample_dcb : list Z :=
  concat (encode_packet <$> sample_packets) ++ [type3_header SetShReg 4; 0xFFFFFFFF; 5; 6].

Lemma sample_dcb_words : Forall (in_u 32) sample_dcb.
Proof. by apply (bool_decide_eq_true_1 _); vm_compute. Qed.

Lemma process_encoded_witness :
  process_command_buffer new sample_dcb =
  Ok ({| regs := set_index_base 0x10000DEAD GpuRegs_default; submit_count := 1 |},
      [(Context, 0x200, 11); (Context, 0x201, 12); (Shader, 0xFFFFFFFF, 5); (Shader, 0, 6)]).
Proof.
  etransitivity.
  - apply (process_encoded sample_packets (Some (SetShReg, 4, [0xFFFFFFFF; 5; 6])) new
      sample_dcb); [|simpl; lia|reflexivity|exact sample_dcb_words].
    repeat constructor; simpl; lia.
  - vm_compute. reflexivity.
Defined.

Lemma process_total_witness :
  ∃ self' t, process_command_buffer new [0xFFFFFFFF; 0; 0xC0FF00FF] = Ok (self', t) ∧
    submit_count self' = 1.
Proof.
  destruct (process_total new [0xFFFFFFFF; 0; 0xC0FF00FF]) as (self' & t & E & Es & _).
  - by apply (bool_decide_eq_true_1 _); vm_compute.
  - exists self', t. split; [exact E|exact Es].
Defined.

End Liverpool.

(** ** The global context *)

Module Gpu.

Import Liverpool.

Section gpu.
Context {Window : Type} `{!Vulkan.VulkanApi Window}.

Record GpuContext := {
  command_processor : CommandProcessor;
  renderer : option Vulkan.VulkanRenderer;
  frames_submitted : Z;
}.

Definition with_renderer (r : option Vulkan.VulkanRenderer) : GpuContext :=
  {| command_processor := Liverpool.new; renderer := r; frames_submitted := 0 |}.

(** [GpuContext::default], which is [new(None)]. *)
Definition GpuContext_default : GpuContext := with_renderer None.

(** Without a renderer, for want of a window or after an error of Vulkan, there is a
    context all the same. *)
Definition GpuContext_new (window : option Window) : st Vulkan.log Empty_set GpuContext := λ l,
  match window with
  | Some win =>
      match Vulkan.new win l with
      | (l, Ok r) => (l, Ok (with_renderer (Some r)))
      | (l, Err _) => (l, Ok (with_renderer None))
      | (l, Panic) => (l, Panic)
      end
  | None => (l, Ok GpuContext_default)
  end.

Definition submit_gfx (self : GpuContext) (dcb ccb : list Z)
  : pan (GpuContext * list reg_write) :=
  '(cp, t) ← process_command_buffer (command_processor self) dcb;
  mret ({| command_processor := cp; renderer := renderer self;
           frames_submitted := frames_submitted self |}, t).

Definition set_renderer (r : option Vulkan.VulkanRenderer) (self : GpuContext) : GpuContext :=
  {| command_processor := command_processor self; renderer := r;
     frames_submitted := frames_submitted self |}.

(** The frame is counted before it is presented. *)
Definition submit_done : st (GpuContext * Vulkan.log) Empty_set unit := λ '(self, l),
  let self := {| command_processor := command_processor self; renderer := renderer self;
                 frames_submitted := frames_submitted self +64 1 |} in
  match renderer self with
  | None => ((self, l), Ok tt)
  | Some r =>
      match Vulkan.present_blank_frame r l with
      | (l, Ok r) => ((set_renderer (Some r) self, l), Ok tt)
      | (l, Err e) => match e with end
      | (l, Panic) => ((self, l), Panic)
      end
  end.

(** [static GPU_CONTEXT: Mutex<Option<GpuContext>>]: a panic while the lock is held poisons
    it, and [lock().unwrap()] of a poisoned lock panics. *)
Record GpuGlobal := {
  poisoned : bool;
  context : option GpuContext;
  vulkan : Vulkan.log;
}.

Definition GPU_CONTEXT : GpuGlobal := {| poisoned := false; context := None; vulkan := [] |}.

Definition locked {A} (f : st (option GpuContext * Vulkan.log) Empty_set A)
  : st GpuGlobal Empty_set A := λ g,
  if poisoned g then (g, Panic)
  else
    match f (context g, vulkan g) with
    | ((c, l), Ok a) => ({| poisoned := false; context := c; vulkan := l |}, Ok a)
    | ((c, l), Err e) => match e with end
    | ((c, l), Panic) => ({| poisoned := true; context := c; vulkan := l |}, Panic)
    end.

(** The global is [None] until the first use; the lock is held throughout. *)
Definition init_gpu (window : option Window) : st GpuGlobal Empty_set unit :=
  locked (λ '(c, l),
    match c with
    | Some g => ((Some g, l), Ok tt)
    | None =>
        match GpuContext_new window l with
        | (l, Ok g) => ((Some g, l), Ok tt)
        | (l, Err e) => match e with end
        | (l, Panic) => ((None, l), Panic)
        end
    end).

Definition with_gpu {R} (f : st (GpuContext * Vulkan.log) Empty_set R) : st GpuGlobal Empty_set R :=
  locked (λ '(c, l),
    let '((g, l), r) := f (default GpuContext_default c, l) in ((Some g, l), r)).

(** Calls on the global. *)
Inductive gpu_call :=
| InitGpu (window : option Window)
| SubmitGfx (dcb ccb : list Z)
| SubmitDone.

(** The closure of [SubmitGfx]; the register trace is not kept. *)
Definition gfx (dcb ccb : list Z) : st (GpuContext * Vulkan.log) Empty_set unit := λ '(g, l),
  match submit_gfx g dcb ccb with
  | Ok (g, _) => ((g, l), Ok tt)
  | Err e => match e with end
  | Panic => ((g, l), Panic)
  end.

Definition gpu_step (c : gpu_call) : st GpuGlobal Empty_set unit :=
  match c with
  | InitGpu w => init_gpu w
  | SubmitGfx dcb ccb => with_gpu (gfx dcb ccb)
  | SubmitDone => with_gpu submit_done
  end.

Fixpoint gpu_run (cs : list gpu_call) : st GpuGlobal Empty_set unit :=
  match cs with
  | [] => mret tt
  | c :: cs' => _ ← gpu_step c; gpu_run cs'
  end.

Definition call_words (c : gpu_call) : Prop :=
  match c with SubmitGfx dcb _ => Forall (in_u 32) dcb | _ => True end.

Definition is_gfx (c : gpu_call) : bool := match c with SubmitGfx _ _ => true | _ => false end.
Definition is_done (c : gpu_call) : bool := match c with SubmitDone => true | _ => false end.

(** The counters of the context, zero while there is none. *)
Definition counters (c : option GpuContext) : Z * Z :=
  match c with
  | Some g => (submit_count (command_processor g), frames_submitted g)
  | None => (0, 0)
  end.

Definition calls (f : gpu_call → bool) (cs : list gpu_call) : Z :=
  Z.of_nat (length (List.filter f cs)).

Definition counters_ok (c : option GpuContext) : Prop :=
  in_u 64 (counters c).1 ∧ in_u 64 (counters c).2.

(** The lock after a panic in a frame: Vulkan has reported an error. *)
Definition gpu_lost (g : GpuGlobal) : Prop :=
  poisoned g = true ∧ ∃ c r sc, context g = Some c ∧ renderer c = Some r ∧
    Vulkan.swapchain r = Some sc ∧ Vulkan.device_lost r sc (vulkan g).

Lemma submit_gfx_ok g dcb ccb : Forall (in_u 32) dcb → ∃ g' t,
  submit_gfx g dcb ccb = Ok (g', t) ∧ renderer g' = renderer g ∧
  frames_submitted g' = frames_submitted g ∧
  submit_count (command_processor g') = submit_count (command_processor g) +64 1.
Proof.
  intros Hu. unfold submit_gfx, process_command_buffer.
  destruct (process_loop_total dcb (S (length dcb)) 0 (regs (command_processor g), []) Hu)
    as ([r t] & -> & _); [lia..|]. by eexists _, _.
Qed.

(** A submission of a buffer to a lock that is not poisoned. *)
Lemma with_gpu_gfx dcb ccb g : Forall (in_u 32) dcb → poisoned g = false →
  ∃ c t, submit_gfx (default GpuContext_default (context g)) dcb ccb = Ok (c, t) ∧
    with_gpu (gfx dcb ccb) g = ({| poisoned := false; context := Some c; vulkan := vulkan g |}, Ok tt).
Proof.
  intros Hd Hp. destruct (submit_gfx_ok (default GpuContext_default (context g)) dcb ccb Hd)
    as (c & t & E & _). exists c, t. split; [done|].
  unfold with_gpu, locked, gfx. by rewrite Hp, E.
Qed.

(** A frame counts itself; it returns, or Vulkan has reported an error. *)
Lemma submit_done_cases g : poisoned g = false →
  ∃ g' c, with_gpu submit_done g = (g', if poisoned g' then Panic else Ok tt) ∧ context g' = Some c ∧
    command_processor c = command_processor (default GpuContext_default (context g)) ∧
    frames_submitted c = frames_submitted (default GpuContext_default (context g)) +64 1 ∧
    (renderer c = None ↔ renderer (default GpuContext_default (context g)) = None) ∧
    (poisoned g' = true → gpu_lost g').
Proof.
  intros Hp. unfold with_gpu, locked, submit_done. rewrite Hp.
  set (c0 := default GpuContext_default (context g)). cbn [renderer].
  destruct (renderer c0) as [r|] eqn:Er; [|by eexists (Build_GpuGlobal false _ _), _].
  destruct (Vulkan.present_blank_frame r (vulkan g)) as [l [r'|[]|]] eqn:E;
    [by eexists (Build_GpuGlobal false _ _), _|].
  eexists (Build_GpuGlobal true _ _), _. do 2 (split; [done|]). split_and!; [done..|].
  intros _. split; [done|].
  pose proof (Vulkan.present_panics r (vulkan g)) as Hl. rewrite E in Hl.
  destruct Hl as (sc & Hsc & Hd); [done|]. by eexists _, r, sc.
Qed.

(** One call counts itself, and keeps the renderer of an existing context. *)
Lemma gpu_step_cases c g : call_words c → poisoned g = false → counters_ok (context g) →
  match gpu_step c g with
  | (g', Ok _) => poisoned g' = false ∧ ∃ x, context g' = Some x ∧
      counters (Some x) = (wrap 64 ((counters (context g)).1 + calls is_gfx [c]),
                           wrap 64 ((counters (context g)).2 + calls is_done [c]))
  | (_, Err e) => match e with end
  | (g', Panic) => poisoned g' = true ∧
      match c with
      | InitGpu w => ∃ win, w = Some win ∧ (Vulkan.new win (vulkan g)).2 = Panic
      | _ => gpu_lost g'
      end
  end.
Proof.
  intros Hw Hp [H1 H2]. destruct c as [w|dcb ccb|]; cbn [gpu_step call_words] in *.
  - assert (calls is_gfx [InitGpu w] = 0 ∧ calls is_done [InitGpu w] = 0) as [-> ->] by done.
    rewrite !Z.add_0_r, !wrap_small by done. unfold init_gpu, locked. rewrite Hp.
    destruct (context g) as [x|]; [split; [done|]; by exists x|].
    destruct w as [win|]; cbn [GpuContext_new]; [|split; [done|]; by eexists].
    destruct (Vulkan.new win (vulkan g)) as [l [r|e|]] eqn:E; [split; [done|]; by eexists..|].
    split; [done|]. exists win. by rewrite E.
  - destruct (with_gpu_gfx dcb ccb g Hw Hp) as (x & t & E & ->). split; [done|]. exists x.
    split; [done|]. destruct (submit_gfx_ok (default GpuContext_default (context g)) dcb ccb Hw)
      as (x' & t' & E' & _ & Ef & Ec). rewrite E in E'. injection E' as <- _. cbn [counters].
    rewrite Ef, Ec. change (calls is_gfx [SubmitGfx dcb ccb]) with 1.
    change (calls is_done [SubmitGfx dcb ccb]) with 0. rewrite Z.add_0_r.
    rewrite (wrap_small 64 (counters (context g)).2) by done. by destruct (context g).
  - destruct (submit_done_cases g Hp) as (g' & x & -> & Ex & Ec & Ef & _ & Hl).
    destruct (poisoned g') eqn:Ep; [split; [done|]; by apply Hl|]. split; [done|]. exists x.
    split; [done|]. cbn [counters]. rewrite Ec, Ef. change (calls is_gfx [SubmitDone]) with 0.
    change (calls is_done [SubmitDone]) with 1. rewrite Z.add_0_r.
    rewrite (wrap_small 64 (counters (context g)).1) by done. by destruct (context g).
Qed.

Lemma calls_cons f c cs : calls f (c :: cs) = calls f [c] + calls f cs.
Proof. unfold calls. simpl. destruct (f c); simpl length; lia. Qed.

(** The context counts the command buffers and the frames submitted, modulo 2^64.  Calls
    panic only when Vulkan reports an error in a call the renderer unwraps; the lock is
    poisoned from then on, and every later call panics. *)
Theorem gpu_run_counts cs g : Forall call_words cs → poisoned g = false → counters_ok (context g) →
  match gpu_run cs g with
  | (g', Ok _) => poisoned g' = false ∧
      counters (context g') = (wrap 64 ((counters (context g)).1 + calls is_gfx cs),
                               wrap 64 ((counters (context g)).2 + calls is_done cs))
  | (_, Err e) => match e with end
  | (g', Panic) => poisoned g' = true ∧ ∀ c, gpu_step c g' = (g', Panic)
  end.
Proof.
  intros Hcs. revert g. induction Hcs as [|c cs Hc _ IH]; intros g Hp Hk.
  { destruct Hk as [H1 H2]. cbn [gpu_run]. unfold mret, st_ret, calls. cbn -[wrap].
    rewrite !Z.add_0_r, !wrap_small by done. split; [done|]. by destruct (counters _). }
  cbn [gpu_run]. unfold mbind, st_bind. pose proof (gpu_step_cases c g Hc Hp Hk) as Hs.
  destruct (gpu_step c g) as [g1 [[]|[]|]].
  - destruct Hs as (Hp1 & x & Ex & Ec). rewrite <-Ex in Ec.
    assert (counters_ok (context g1)) as Hk1.
    { unfold counters_ok. rewrite Ec. split; apply wrap_range; lia. }
    specialize (IH g1 Hp1 Hk1). destruct (gpu_run cs g1) as [g2 [[]|[]|]]; [|by apply IH].
    destruct IH as [Hp2 IH]. split; [done|]. rewrite IH, Ec, !(calls_cons _ c cs). cbn [fst snd].
    by rewrite !wrap_add_l, <-!Z.add_assoc.
  - split; [apply Hs|]. intros [w|d d'|]; cbn [gpu_step]; unfold init_gpu, with_gpu, locked;
      by rewrite (proj1 Hs).
Qed.

End gpu.

End Gpu.
