(* ===== verification/Hle.v ===== *)
(** * High-level emulation: stubs, symbols and libraries

    Module [Stubs] (hle/stubs.rs): the region of trap instructions and the
    allocator that names its slots.  Module [Symbols] (loader/symbols.rs): the
    symbol registry and the table of known NIDs.  Module [Libraries]
    (hle/libraries.rs, hle/libkernel.rs): the registration of the emulated
    libraries.  A string is its bytes; the guest-visible bytes of the stub region
    are a map from addresses; the iteration order of a hash map is a parameter. *)

From S2P Require Import Prelude Bytes GuestMemory CommonTypes AddressSpace.

Open Scope rust_scope.

Module Stubs.

Definition STUB_SIZE : Z := 16.
Definition MAX_STUBS : Z := 4096.
Definition STUB_REGION_SIZE : Z := STUB_SIZE *64 MAX_STUBS.

Record StubAllocator := { base : Z; used : Z; names : list bytes }.

(** [for j in 2..STUB_SIZE]. *)
Fixpoint fill_nops (n : nat) (slot j : Z) (m : memory) : memory :=
  match n with
  | O => m
  | S n' => fill_nops n' slot (j + 1) (<[slot + j := 0x90]> m)
  end.

Definition fill_slot (slot : Z) (m : memory) : memory :=
  let m := <[slot := 0x0F]> m in
  let m := <[slot + 1 := 0x0B]> m in
  fill_nops (Z.to_nat (STUB_SIZE - 2)) slot 2 m.

(** [for i in 0..MAX_STUBS]. *)
Fixpoint fill_slots (n : nat) (base i : Z) (m : memory) : memory :=
  match n with
  | O => m
  | S n' => fill_slots n' base (i + 1) (fill_slot (base + i * STUB_SIZE) m)
  end.

Section with_os.
Context {OS : Type} `{HostOS OS}.

Definition StubAllocator_new : st (OS * memory) mem_error StubAllocator := λ '(os, m),
  match os_mmap os 0 STUB_REGION_SIZE (Z.lor (Z.lor PROT_READ PROT_WRITE) PROT_EXEC)
          (Z.lor MAP_PRIVATE MAP_ANONYMOUS) with
  | (os, None) => ((os, m), Err (AllocateFailed STUB_REGION_SIZE))
  | (os, Some base) =>
      ((os, fill_slots (Z.to_nat MAX_STUBS) base 0 m),
       Ok {| base := base; used := 0; names := [] |})
  end.

(** The global allocator is the second component of the state. *)
Definition init : st (OS * memory * option StubAllocator) mem_error unit :=
  alloc ← on_fst StubAllocator_new;
  '(s, _) ← st_get;
  st_put (s, Some alloc).

End with_os.

Definition next_stub (self : StubAllocator) (name : bytes) : StubAllocator * option Z :=
  if MAX_STUBS <=? used self then (self, None)
  else
    let addr := base self +64 (used self *64 STUB_SIZE) in
    ({| base := base self; used := used self + 1; names := names self ++ [name] |},
     Some addr).

Definition allocate_stub (name : bytes) (g : option StubAllocator)
  : option StubAllocator * Z :=
  match g with
  | Some alloc => let '(alloc, r) := next_stub alloc name in (Some alloc, default 0 r)
  | None => (None, 0)
  end.

Definition get_stub_name (idx : Z) (g : option StubAllocator) : bytes :=
  match g with
  | Some alloc => default (str "UnknownStub") (names alloc !! Z.to_nat idx)
  | None => str "UnknownStub"
  end.

Definition stub_count (g : option StubAllocator) : Z :=
  match g with Some alloc => used alloc | None => 0 end.

Definition in_stubs (alloc : StubAllocator) (addr : Z) : bool :=
  (base alloc <=? addr) && (addr <? base alloc +64 (used alloc *64 STUB_SIZE)).

Definition is_stub (addr : Z) (g : option StubAllocator) : bool :=
  match g with Some alloc => in_stubs alloc addr | None => false end.

Definition get_stub_index (addr : Z) (g : option StubAllocator) : option Z :=
  match g with
  | Some alloc =>
      if in_stubs alloc addr then Some ((addr -64 base alloc) / STUB_SIZE) else None
  | None => None
  end.

(** ** Lemmas: the trap instructions *)

Definition slot_byte (r : Z) : Z :=
  if r =? 0 then 0x0F else if r =? 1 then 0x0B else 0x90.

Lemma fill_nops_lookup n slot j m a :
  fill_nops n slot j m !! a =
  if in_range (slot + j) (slot + j + Z.of_nat n) a then Some 0x90 else m !! a.
Proof.
  revert j m. induction n as [|n IH]; intros j m; cbn [fill_nops].
  { case_range; [lia|done]. }
  rewrite IH. repeat case_range; try done; try lia.
  - assert (a = slot + j) as -> by lia. by rewrite lookup_insert_eq.
  - by rewrite lookup_insert_ne by lia.
Qed.

Lemma fill_slot_lookup slot m a :
  fill_slot slot m !! a =
  if in_range slot (slot + STUB_SIZE) a then Some (slot_byte (a - slot)) else m !! a.
Proof.
  unfold fill_slot. rewrite fill_nops_lookup. unfold slot_byte, STUB_SIZE.
  change (Z.of_nat (Z.to_nat (16 - 2))) with 14. repeat case_range; try lia.
  - destruct (Z.eqb_spec (a - slot) 0); [lia|]. destruct (Z.eqb_spec (a - slot) 1); [lia|done].
  - destruct (decide (a = slot + 1)) as [->|].
    + rewrite lookup_insert_eq. destruct (Z.eqb_spec (slot + 1 - slot) 0); [lia|].
      by destruct (Z.eqb_spec (slot + 1 - slot) 1); [|lia].
    + assert (a = slot) as -> by lia. rewrite lookup_insert_ne by lia.
      by rewrite lookup_insert_eq, Z.sub_diag.
  - by rewrite !lookup_insert_ne by lia.
Qed.

Lemma fill_slots_lookup n b i m a :
  fill_slots n b i m !! a =
  if in_range (b + i * STUB_SIZE) (b + (i + Z.of_nat n) * STUB_SIZE) a
  then Some (slot_byte ((a - b) mod STUB_SIZE)) else m !! a.
Proof.
  revert i m. induction n as [|n IH]; intros i m; cbn [fill_slots].
  { case_range; [lia|done]. }
  rewrite IH, fill_slot_lookup. unfold STUB_SIZE in *. repeat case_range; try done; try lia.
  f_equal. f_equal. apply (Zmod_unique _ _ i); lia.
Qed.

(** ** Lemmas: the allocator *)

(** The region lies in the address space and the names are those of the used
    slots. *)
Definition alloc_wf (alloc : StubAllocator) : Prop :=
  0 ≤ base alloc ∧ base alloc + STUB_SIZE * MAX_STUBS ≤ 2 ^ 56 ∧
  used alloc = Z.of_nat (length (names alloc)) ∧ used alloc ≤ MAX_STUBS.

#[export] Instance alloc_wf_dec alloc : Decision (alloc_wf alloc).
Proof. unfold alloc_wf; apply _. Defined.

(** The address of a slot. *)
Definition slot_addr (alloc : StubAllocator) (i : nat) : Z :=
  base alloc + STUB_SIZE * Z.of_nat i.

Fixpoint allocate_all (ns : list bytes) (g : option StubAllocator)
  : option StubAllocator * list Z :=
  match ns with
  | [] => (g, [])
  | name :: ns' =>
      let '(g, addr) := allocate_stub name g in
      let '(g, addrs) := allocate_all ns' g in
      (g, addr :: addrs)
  end.

Definition with_names (alloc : StubAllocator) (ns : list bytes) : StubAllocator :=
  {| base := base alloc; used := Z.of_nat (length ns); names := ns |}.

Lemma allocate_stub_wf alloc name : alloc_wf alloc →
  allocate_stub name (Some alloc) =
  if decide (used alloc < MAX_STUBS)
  then (Some (with_names alloc (names alloc ++ [name])),
        slot_addr alloc (length (names alloc)))
  else (Some alloc, 0).
Proof.
  intros (? & ? & Hu & Hm). unfold allocate_stub, next_stub, slot_addr, with_names.
  unfold MAX_STUBS, STUB_SIZE in *. rewrite length_app. simpl length.
  destruct (Z.leb_spec 4096 (used alloc)); case_decide; try lia; [done|]. unfold default, from_option, id.
  unwrap64. rewrite Hu. f_equal; [|lia]. do 2 f_equal. lia.
Qed.

Lemma with_names_wf alloc ns : alloc_wf alloc → Z.of_nat (length ns) ≤ MAX_STUBS →
  alloc_wf (with_names alloc ns).
Proof. intros (? & ? & ? & ?) ?. by split_and!. Qed.

(** Address, slot and name of a used slot agree. *)
Lemma slot_lookup alloc i name k : alloc_wf alloc → names alloc !! i = Some name →
  0 ≤ k < STUB_SIZE →
  is_stub (slot_addr alloc i + k) (Some alloc) = true ∧
  get_stub_index (slot_addr alloc i + k) (Some alloc) = Some (Z.of_nat i) ∧
  get_stub_name (Z.of_nat i) (Some alloc) = name.
Proof.
  intros (? & ? & Hu & Hm) Hi Hk. pose proof (lookup_lt_Some _ _ _ Hi).
  unfold is_stub, get_stub_index, get_stub_name, in_stubs, slot_addr.
  unfold MAX_STUBS, STUB_SIZE in *. unwrap64.
  rewrite (proj2 (Z.leb_le _ _)), (proj2 (Z.ltb_lt _ _)) by lia.
  split; [done|]. rewrite Nat2Z.id, Hi. split; [|done]. cbn [andb]. f_equal.
  symmetry. apply (Z.div_unique_pos _ _ _ k); lia.
Qed.

Lemma not_slot alloc a : alloc_wf alloc →
  ¬ (base alloc ≤ a < base alloc + STUB_SIZE * used alloc) →
  is_stub a (Some alloc) = false ∧ get_stub_index a (Some alloc) = None.
Proof.
  intros (? & ? & Hu & Hm) Ha. unfold is_stub, get_stub_index.
  assert (in_stubs alloc a = false) as ->; [|done].
  unfold in_stubs. unfold MAX_STUBS, STUB_SIZE in *. unwrap64.
  destruct (Z.leb_spec (base alloc) a); [|done]. cbn [andb].
  destruct (Z.ltb_spec a (base alloc + used alloc * 16)); [lia|done].
Qed.

Lemma allocate_all_spec ns alloc : alloc_wf alloc →
  let room := Z.to_nat (MAX_STUBS - used alloc) in
  ∃ addrs, allocate_all ns (Some alloc) =
    (Some (with_names alloc (names alloc ++ take room ns)), addrs) ∧
    length addrs = length ns ∧
    ∀ i, (i < length ns)%nat → addrs !! i = Some
      (if decide (i < room)%nat then slot_addr alloc (length (names alloc) + i) else 0).
Proof.
  revert alloc. induction ns as [|name ns IH]; intros alloc Hwf room.
  { exists []. rewrite take_nil, app_nil_r. cbn [allocate_all].
    destruct Hwf as (_ & _ & Hu & _). split_and!; [|done|simpl; lia].
    unfold with_names. rewrite <-Hu. by destruct alloc. }
  cbn [allocate_all]. rewrite allocate_stub_wf by done.
  pose proof Hwf as (_ & _ & Hu & Hm). case_decide as Hr.
  - destruct (IH (with_names alloc (names alloc ++ [name]))) as (addrs & -> & Hl & Ha).
    { apply with_names_wf; [done|]. rewrite length_app. simpl length. lia. }
    set (room' := Z.to_nat (MAX_STUBS - used (with_names alloc (names alloc ++ [name])))) in *.
    assert (room = S room') as Er.
    { unfold room, room', with_names. cbn [used]. rewrite length_app. simpl length. lia. }
    eexists. split; [|split].
    + rewrite Er. cbn [take]. unfold with_names. cbn [base names].
      by rewrite <-(assoc_L (++)).
    + simpl. by rewrite Hl.
    + intros [|i] Hi; simpl in Hi.
      * rewrite Er, decide_True by lia. by rewrite Nat.add_0_r.
      * cbn. rewrite Ha by lia. rewrite Er. cbn [with_names names base].
        unfold slot_addr, with_names. cbn [base]. rewrite length_app. simpl length.
        repeat case_decide; try lia; [|done]. do 2 f_equal. lia.
  - assert (room = 0%nat) as Er by (unfold room; lia).
    destruct (IH alloc Hwf) as (addrs & -> & Hl & Ha). eexists. split; [|split].
    + rewrite Er. change (Z.to_nat (MAX_STUBS - used alloc)) with room. by rewrite Er.
    + simpl. by rewrite Hl.
    + intros [|i] Hi; simpl in Hi; [by rewrite Er|].
      cbn. rewrite Ha by lia. change (Z.to_nat (MAX_STUBS - used alloc)) with room.
      rewrite Er. by repeat case_decide; try lia.
Qed.

Lemma init_Ok {OS} `{!HostOS OS} (os os' : OS) m m' g :
  init (os, m, None) = ((os', m', g), Ok tt) →
  ∃ b, (os_mmap os 0 STUB_REGION_SIZE (Z.lor (Z.lor PROT_READ PROT_WRITE) PROT_EXEC)
          (Z.lor MAP_PRIVATE MAP_ANONYMOUS)).2 = Some b ∧
    m' = fill_slots (Z.to_nat MAX_STUBS) b 0 m ∧
    g = Some {| base := b; used := 0; names := [] |}.
Proof.
  unfold init, on_fst, StubAllocator_new, mbind, st_bind.
  destruct (os_mmap os 0 _ _ _) as [os1 [b|]]; [|done].
  intros E. exists b. revert E. generalize (fill_slots (Z.to_nat MAX_STUBS) b 0 m).
  cbn. by intros m1 [= <- <- <-].
Qed.

Lemma init_cases {OS} `{!HostOS OS, !HostOSLaws OS} (os : OS) m :
  (∃ s e, init (os, m, None) = (s, Err e)) ∨
  ∃ os' m' alloc, init (os, m, None) = ((os', m', Some alloc), Ok tt) ∧
    alloc_wf alloc ∧ used alloc = 0 ∧ (mem_ok m → mem_ok m').
Proof.
  destruct (init (os, m, None)) as [[[os' m'] g] r] eqn:E.
  assert (r = Ok tt ∨ ∃ e, r = Err e) as [-> | [e ->]].
  { revert E. unfold init, on_fst, StubAllocator_new, mbind, st_bind.
    destruct (os_mmap os 0 _ _ _) as [os1 [b|]].
    - generalize (fill_slots (Z.to_nat MAX_STUBS) b 0 m). cbn. intros m1 [= <- <- <- <-]. by left.
    - intros [= <- <- <- <-]. right. by eexists. }
  - right. apply init_Ok in E as (b & Hm & -> & ->). do 3 eexists. split; [done|]. split; [|split; [done|]].
    2: { intros Hok a b0. rewrite fill_slots_lookup. case_range; [intros [= <-]|apply Hok].
         unfold slot_byte. by repeat case_match. }
    assert (0 ≤ b ∧ b + STUB_REGION_SIZE ≤ 2 ^ 56) as [? ?].
    { by eapply (mmap_user_half os 0 STUB_REGION_SIZE). }
    unfold alloc_wf. cbn [base used names length]. by split_and!.
  - left. by eexists _, _.
Qed.

Lemma slot_bytes (m1 m : memory) b i :
  (∀ a, m1 !! a = if in_range (b + 0 * STUB_SIZE)
                       (b + (0 + Z.of_nat (Z.to_nat MAX_STUBS)) * STUB_SIZE) a
                  then Some (slot_byte ((a - b) mod STUB_SIZE)) else m !! a) →
  Z.of_nat i < MAX_STUBS → ∀ r v, (r = 0 ∧ v = 0x0F ∨ r = 1 ∧ v = 0x0B) →
  m1 !! (b + STUB_SIZE * Z.of_nat i + r) = Some v.
Proof.
  intros Hm Hi r v Hr. rewrite Hm. rewrite Z2Nat.id by done.
  unfold MAX_STUBS, STUB_SIZE in *. case_range; [|lia].
  assert ((b + 16 * Z.of_nat i + r - b) mod 16 = r) as ->.
  { symmetry. apply (Zmod_unique _ _ (Z.of_nat i)); lia. }
  by destruct Hr as [[-> ->]|[-> ->]].
Qed.

(** ** Properties *)

(** C30: after [init], a stub can be told from its address.  Of any list of
    names, the first 4096 get slots of their own: consecutive, distinct, holding
    a trap instruction, and every address inside the slot leads back to the
    index and from there to the name; the others get the address 0, and no
    other address counts as a stub. *)
Theorem stubs_roundtrip {OS} `{!HostOS OS, !HostOSLaws OS} (os os' : OS) m m' g ns :
  init (os, m, None) = ((os', m', g), Ok tt) →
  ∃ b g' addrs, allocate_all ns g = (g', addrs) ∧ length addrs = length ns ∧
    stub_count g' = Z.of_nat (length ns) `min` MAX_STUBS ∧
    (∀ i name, ns !! i = Some name → Z.of_nat i < MAX_STUBS →
       let addr := b + STUB_SIZE * Z.of_nat i in
       addrs !! i = Some addr ∧ m' !! addr = Some 0x0F ∧ m' !! (addr + 1) = Some 0x0B ∧
       ∀ k, 0 ≤ k < STUB_SIZE →
         is_stub (addr + k) g' = true ∧ get_stub_index (addr + k) g' = Some (Z.of_nat i) ∧
         get_stub_name (Z.of_nat i) g' = name) ∧
    (∀ i, (i < length ns)%nat → MAX_STUBS ≤ Z.of_nat i → addrs !! i = Some 0) ∧
    (∀ a, ¬ (b ≤ a < b + STUB_SIZE * stub_count g') →
       is_stub a g' = false ∧ get_stub_index a g' = None).
Proof.
  intros (b & Hm & -> & ->)%init_Ok. pose proof (fill_slots_lookup (Z.to_nat MAX_STUBS) b 0 m)
    as Hfill. generalize dependent (fill_slots (Z.to_nat MAX_STUBS) b 0 m). intros m1 Hfill.
  set (alloc := {| base := b; used := 0; names := [] |}).
  assert (alloc_wf alloc) as Hwf.
  { assert (0 ≤ b ∧ b + STUB_REGION_SIZE ≤ 2 ^ 56) as [? ?].
    { by eapply (mmap_user_half os 0 STUB_REGION_SIZE). }
    unfold alloc_wf. cbn [base used names alloc length]. by split_and!. }
  destruct (allocate_all_spec ns alloc Hwf) as (addrs & E & Hl & Ha).
  set (room := Z.to_nat (MAX_STUBS - used alloc)) in *.
  assert (Z.of_nat room = MAX_STUBS) as Hroom by done. clearbody room.
  cbn [names alloc] in E, Ha. rewrite app_nil_l in E.
  assert (alloc_wf (with_names alloc (take room ns))) as Hwf'.
  { apply with_names_wf; [done|]. rewrite length_take. lia. }
  exists b, (Some (with_names alloc (take room ns))), addrs.
  assert (stub_count (Some (with_names alloc (take room ns))) =
    Z.of_nat (length ns) `min` MAX_STUBS) as Hc.
  { cbn [stub_count with_names used]. rewrite length_take. lia. }
  split; [done|]. split; [done|]. split; [done|]. split; [|split].
  - intros i name Hi Hlt. set (addr := b + STUB_SIZE * Z.of_nat i). split; [|split; [|split]].
    + rewrite Ha by by eapply lookup_lt_Some. by rewrite decide_True by lia.
    + rewrite <-(Z.add_0_r addr). eapply (slot_bytes m1 m b i); [done|done|by left].
    + eapply (slot_bytes m1 m b i); [done|done|by right].
    + intros k Hk. apply (slot_lookup (with_names alloc (take room ns)) i name k Hwf'); [|done].
      cbn [with_names names]. by rewrite lookup_take_lt by lia.
  - intros i Hi Hge. rewrite Ha by done. by rewrite decide_False by lia.
  - intros a Hna. rewrite Hc in Hna. apply (not_slot _ _ Hwf'). cbn [with_names used base].
    rewrite length_take. cbn [base alloc]. unfold STUB_SIZE in *. lia.
Qed.

#[local] Existing Instances ToyOS.toy_os ToyOS.toy_os_laws.

Lemma init_boot : ∃ os' m' g,
  init (ToyOS.boot, (∅ : memory), None) = ((os', m', g), Ok tt).
Proof.
  unfold init, on_fst, StubAllocator_new, mbind, st_bind. cbn [os_mmap ToyOS.toy_os].
  generalize (fill_slots (Z.to_nat MAX_STUBS)). intros f. cbn. by do 3 eexists.
Qed.

Lemma stubs_roundtrip_witness : ∃ os' m' g,
  init (ToyOS.boot, (∅ : memory), None) = ((os', m', g), Ok tt) ∧
  ∃ b g' addrs, allocate_all [str "malloc"; str "free"] g = (g', addrs) ∧
    stub_count g' = 2 ∧ addrs !! 1%nat = Some (b + 16) ∧
    m' !! (b + 16) = Some 0x0F ∧ get_stub_name 1 g' = str "free".
Proof.
  destruct init_boot as (os' & m' & g & E). exists os', m', g. split; [done|].
  destruct (stubs_roundtrip ToyOS.boot os' ∅ m' g [str "malloc"; str "free"] E)
    as (b & g' & addrs & Ha & _ & Hc & Hs & _). clear E.
  exists b, g', addrs. split; [done|]. split; [done|].
  pose proof (Hs 1%nat (str "free") eq_refl eq_refl) as Hf. cbn zeta in Hf.
  change (STUB_SIZE * Z.of_nat 1) with 16 in Hf. destruct Hf as (Hf1 & Hf2 & _ & Hk).
  destruct (Hk 0) as (_ & _ & Hn); [done|].
  split; [exact Hf1|]. split; [exact Hf2|]. exact Hn.
Defined.

End Stubs.

Module Symbols.

Inductive SymbolType := Unknown | Function | Object | Tls | NoType.

Record SymbolRecord := {
  sym_name : bytes;
  virtual_address : Z;
  sym_type : SymbolType;
  library : bytes;
  module : bytes;
}.

Record SymbolResolver := { symbols : gmap bytes SymbolRecord }.

(** The order in which the hash map is iterated. *)
Class HashOrder := hash_iter : gmap bytes SymbolRecord → list (bytes * SymbolRecord).
Class HashOrderLaws `{HashOrder} : Prop :=
  hash_iter_perm m : hash_iter m ≡ₚ map_to_list m.

Definition SymbolResolver_new : SymbolResolver := {| symbols := ∅ |}.

Definition add_symbol (nid : bytes) (record : SymbolRecord) (self : SymbolResolver)
  : SymbolResolver := {| symbols := <[nid := record]> (symbols self) |}.

Definition find_symbol (self : SymbolResolver) (nid : bytes) : option SymbolRecord :=
  symbols self !! nid.

Fixpoint find_by_name (recs : list (bytes * SymbolRecord)) (name : bytes) : option Z :=
  match recs with
  | [] => None
  | (_, rec) :: recs' =>
      if bool_decide (sym_name rec = name) then Some (virtual_address rec)
      else find_by_name recs' name
  end.

Definition len (self : SymbolResolver) : Z := Z.of_nat (size (symbols self)).
Definition is_empty (self : SymbolResolver) : bool := bool_decide (symbols self = ∅).

Section with_order.
Context `{HashOrder}.

Definition resolve (self : SymbolResolver) (name : bytes) : option Z :=
  match symbols self !! name with
  | Some rec => Some (virtual_address rec)
  | None => find_by_name (hash_iter (symbols self)) name
  end.

Definition iter (self : SymbolResolver) : list (bytes * SymbolRecord) :=
  hash_iter (symbols self).

Definition merge (self other : SymbolResolver) : SymbolResolver :=
  {| symbols := foldl (λ m '(nid, record), <[nid := record]> m) (symbols self)
                  (hash_iter (symbols other)) |}.

End with_order.

Definition encode_nid (name library module : bytes) : bytes := name.

(** The arms of the [match], in order. *)
Definition known_nids : list (string * string) :=
  [("bzQExy189ZI", "_init_env");
   ("8G2LB+A3rzg", "atexit");
   ("tsvEmnenz48", "__cxa_atexit");
   ("3GPpjQdAMTw", "__cxa_guard_acquire");
   ("9rAeANT2tyE", "__cxa_guard_release");
   ("fJnpuVVBbKk", "_Znwm");
   ("z+P+xCnWLBk", "_ZdlPv");
   ("gQX+4GDQjpM", "malloc");
   ("tIhsqj0qsFE", "free");
   ("XKRegsFpEpk", "catchReturnFromMain");
   ("uMei1W9uyNo", "exit");
   ("Q3VBxCXhUHs", "memcpy");
   ("8zTFvBIAIN8", "memset");
   ("kiZSXIWd9vg", "strcpy");
   ("j4ViWNHEgww", "strlen");
   ("Ls4tzzhimqQ", "strcat");
   ("Ovb2dSJOAuE", "strcmp");
   ("DfivPArhucg", "memcmp");
   ("cpCOXWMgha0", "rand");
   ("ZtjspkJQ+vw", "sinf");
   ("ZE6RNL+eLbk", "tanf");
   ("GZWjF-YIFFk", "asinf");
   ("QI-x0SL8jhw", "acosf");
   ("EH-x713A99c", "atan2f");
   ("hcuQgD53UxM", "printf");
   ("YQ0navp+YIc", "puts");
   ("xeYO4u7uyJ0", "fopen");
   ("lbB+UlZqVG0", "fread");
   ("uodLYyUip20", "fclose");
   ("rQFVBXp-Cxg", "fseek");
   ("Qazy8LmXTvw", "ftell");
   ("MpxhMh8QFro", "fwrite");
   ("KdP-nULpuGw", "fgets");
   ("Q2V+iqvjgC0", "vsnprintf");
   ("B+vc2AO2Zrc", "sceKernelAllocateMainDirectMemory");
   ("pO96TwzOm5E", "sceKernelGetDirectMemorySize");
   ("WslcK1FQcGI", "sceKernelIsNeoMode");
   ("rTXw65xmLIA", "sceKernelAllocateDirectMemory");
   ("L-Q3LEjIbgA", "sceKernelMapDirectMemory");
   ("cQke9UuBQOk", "sceKernelMunmap");
   ("MBuItvba6z8", "sceKernelReleaseDirectMemory");
   ("2Of0f+3mhhE", "scePthreadMutexDestroy");
   ("cmo1RIYva9o", "scePthreadMutexInit");
   ("9UK1vLZQft4", "scePthreadMutexLock");
   ("tn3VlD0hG60", "scePthreadMutexUnlock");
   ("6UgtwV+0zb4", "scePthreadCreate");
   ("D0OdFMjp46I", "sceKernelCreateEqueue");
   ("jpFjmgAC5AE", "sceKernelDeleteEqueue");
   ("Up36PTk687E", "sceVideoOutOpen");
   ("CBiu4mCE1DA", "sceVideoOutSetFlipRate");
   ("uquVH4-Du78", "sceVideoOutClose");
   ("6kPnj51T62Y", "sceVideoOutGetResolutionStatus");
   ("i6-sR91Wt-4", "sceVideoOutSetBufferAttribute");
   ("w3BY+tAEiQY", "sceVideoOutRegisterBuffers");
   ("b0xyllnVY-I", "sceGnmAddEqEvent");
   ("PVT+fuoS9gU", "sceGnmDeleteEqEvent");
   ("yb2cRhagD1I", "sceGnmDrawInitDefaultHardwareState350");
   ("1qXLHIpROPE", "sceGnmInsertWaitFlipDone");
   ("hv1luiJrqQM", "scePadInit");
   ("xk0AcarP3V4", "scePadOpen");
   ("6ncge5+l5Qs", "scePadClose");
   ("YndgXqQVV7c", "scePadReadState");
   ("j3YMu1MVNNo", "sceUserServiceInitialize");
   ("bwFjS+bX9mA", "sceUserServiceTerminate");
   ("CdWp0oHWGr0", "sceUserServiceGetInitialUser");
   ("yH17Q6NWtVg", "sceUserServiceGetEvent");
   ("fPhymKNvK-A", "sceUserServiceGetLoginUserIdList");
   ("Vo5V8KAwCmk", "sceSystemServiceHideSplashScreen");
   ("fZo48un7LK4", "sceSystemServiceParamGetInt");
   ("656LMQSrg6U", "sceSystemServiceReceiveEvent");
   ("rPo6tV8D9bM", "sceSystemServiceGetStatus");
   ("g8cM39EUZ6o", "sceSysmoduleLoadModule");
   ("uoUpLGNkygk", "sceCommonDialogInitialize");
   ("TywrFKCoLGY", "sceSaveDataInitialize3");
   ("yKDy8S5yLA0", "sceSaveDataTerminate");
   ("KK3Bdg1RWK0", "sceSaveDataDialogUpdateStatus");
   ("yEiJ-qqr6Cg", "sceSaveDataDialogGetResult");
   ("A2CQ3kgSopQ", "sceNpSetContentRestriction");
   ("Ec63y59l9tw", "sceNpSetNpTitleId");
   ("GWnWQNXZH5M", "sceNpScoreCreateNpTitleCtxA");
   ("q7U6tEAQf7c", "sceNpTrophyCreateHandle");
   ("TJCAxto9SEU", "sceNpTrophyRegisterContext");
   ("XbkjbobZlCY", "sceNpTrophyCreateContext");
   ("73WQ4Jj0nJI", "sceScreenShotSetOverlayImageWithOrigin");
   ("JfEPXVxhFqA", "sceAudioOutInit");
   ("ekNvsT22rsY", "sceAudioOutOpen")].

(** [nid.split('#').next()]. *)
Fixpoint before_hash (nid : bytes) : bytes :=
  match nid with
  | [] => []
  | c :: nid' => if c =? 35 then [] else c :: before_hash nid'
  end.

Fixpoint match_nid (arms : list (string * string)) (nid : bytes) : option bytes :=
  match arms with
  | [] => None
  | (key, name) :: arms' =>
      if bool_decide (nid = str key) then Some (str name) else match_nid arms' nid
  end.

Definition lookup_known_nid (nid : bytes) : option bytes :=
  match_nid known_nids (before_hash nid).

(** ** Lemmas *)

Section laws.
Context `{HashOrder, !HashOrderLaws}.

Lemma hash_iter_elem m nid rec : (nid, rec) ∈ hash_iter m ↔ m !! nid = Some rec.
Proof. by rewrite hash_iter_perm, elem_of_map_to_list. Qed.

Lemma find_by_name_Some recs name a : find_by_name recs name = Some a →
  ∃ nid rec, (nid, rec) ∈ recs ∧ sym_name rec = name ∧ virtual_address rec = a.
Proof.
  induction recs as [|[nid rec] recs IH]; [done|]. cbn [find_by_name].
  case_bool_decide as Hn.
  - intros [= <-]. exists nid, rec. set_solver.
  - intros Hf. destruct (IH Hf) as (nid' & rec' & ? & ?). exists nid', rec'. set_solver.
Qed.

Lemma find_by_name_None recs name nid rec : find_by_name recs name = None →
  (nid, rec) ∈ recs → sym_name rec ≠ name.
Proof.
  induction recs as [|[nid' rec'] recs IH]; [set_solver|]. cbn [find_by_name].
  case_bool_decide; [done|]. intros Hf [[= -> ->]|Hin]%elem_of_cons; [done|by apply IH].
Qed.

(** The order of the hash map does not matter to a merge. *)
Lemma merge_union self other :
  symbols (merge self other) = symbols other ∪ symbols self.
Proof.
  unfold merge. cbn [symbols]. assert (NoDup (hash_iter (symbols other)).*1) as Hnd.
  { rewrite hash_iter_perm. apply NoDup_fst_map_to_list. }
  rewrite <-(list_to_map_to_list (symbols other)) at 2.
  rewrite <-(list_to_map_proper (hash_iter (symbols other)) (map_to_list (symbols other)))
    by (apply hash_iter_perm || done).
  generalize (symbols self). revert Hnd.
  induction (hash_iter (symbols other)) as [|[nid rec] l IH]; intros Hnd m.
  { cbn [foldl list_to_map foldr]. symmetry. apply map_empty_union. }
  apply NoDup_cons in Hnd as [Hn Hnd]. cbn [foldl list_to_map foldr].
  rewrite IH by done. cbn [uncurry fst snd]. rewrite <-insert_union_l.
  rewrite insert_union_r; [done|]. by apply not_elem_of_list_to_map_1.
Qed.

(** ** Properties *)

(** [resolve] finds an address exactly when some symbol answers to the
    name: the symbol registered under the name as its NID, or else one whose
    human-readable name it is.  So the iteration order of the hash map can only
    matter when two symbols share a name; and merging adds the other registry's
    symbols, overriding those with the same NID, in any order. *)
Theorem resolve_spec self other name :
  match resolve self name with
  | Some a =>
      match find_symbol self name with
      | Some rec => a = virtual_address rec
      | None => ∃ nid rec, find_symbol self nid = Some rec ∧ sym_name rec = name ∧
                  virtual_address rec = a
      end
  | None => find_symbol self name = None ∧
      ∀ nid rec, find_symbol self nid = Some rec → sym_name rec ≠ name
  end ∧
  ∀ nid, find_symbol (merge self other) nid =
    match find_symbol other nid with
    | Some rec => Some rec
    | None => find_symbol self nid
    end.
Proof.
  split.
  - unfold resolve, find_symbol. destruct (symbols self !! name) as [rec|] eqn:E; [done|].
    destruct (find_by_name _ _) as [a|] eqn:Ef.
    + apply find_by_name_Some in Ef as (nid & rec & Hin & ?).
      apply hash_iter_elem in Hin. by exists nid, rec.
    + split; [done|]. intros nid rec Hs. eapply find_by_name_None; [done|].
      by apply hash_iter_elem.
  - intros nid. unfold find_symbol. rewrite merge_union.
    destruct (symbols other !! nid) as [rec|] eqn:E.
    + by apply lookup_union_Some_l.
    + by apply lookup_union_r.
Qed.

End laws.

(** Two registries that share a NID, iterated in the order of their maps. *)
#[local] Instance sorted_order : HashOrder := map_to_list.
#[local] Instance sorted_order_laws : HashOrderLaws.
Proof. by intros m. Qed.

Definition sample_symbol (name : string) (addr : Z) : SymbolRecord :=
  {| sym_name := str name; virtual_address := addr; sym_type := Function;
     library := str "libc"; module := [] |}.

Lemma resolve_spec_witness :
  let r1 := add_symbol (str "gQX+4GDQjpM") (sample_symbol "malloc" 16)
              (add_symbol (str "tIhsqj0qsFE") (sample_symbol "free" 32) SymbolResolver_new) in
  let r2 := add_symbol (str "tIhsqj0qsFE") (sample_symbol "free" 48) SymbolResolver_new in
  (∃ nid rec, find_symbol r1 nid = Some rec ∧ sym_name rec = str "malloc" ∧
     virtual_address rec = 16) ∧
  virtual_address <$> find_symbol (merge r1 r2) (str "tIhsqj0qsFE") = Some 48.
Proof.
  intros r1 r2. destruct (resolve_spec r1 r2 (str "malloc")) as [Hr Hm]. split.
  - assert (resolve r1 (str "malloc") = Some 16) as E by (by vm_compute).
    assert (find_symbol r1 (str "malloc") = None) as F by (by vm_compute).
    rewrite E, F in Hr. exact Hr.
  - rewrite (Hm (str "tIhsqj0qsFE")). by vm_compute.
Defined.

Lemma before_hash_stop nid suffix : 35 ∉ nid →
  before_hash (nid ++ 35 :: suffix) = before_hash nid.
Proof.
  induction nid as [|c nid IH]; [done|]. intros [Hc Hn]%not_elem_of_cons.
  cbn [before_hash app]. destruct (Z.eqb_spec c 35); [congruence|]. by rewrite IH.
Qed.

Lemma match_nid_elem arms key name : NoDup (map (str ∘ fst) arms) →
  (key, name) ∈ arms → match_nid arms (str key) = Some (str name).
Proof.
  induction arms as [|[k v] arms IH]; [set_solver|]. cbn [map compose fst].
  intros [Hk Hnd]%NoDup_cons [[= <- <-]|Hin]%elem_of_cons; cbn [match_nid].
  - by rewrite bool_decide_eq_true_2.
  - rewrite bool_decide_eq_false_2; [by apply IH|]. intros Heq. apply Hk.
    rewrite <-Heq. apply list_elem_of_fmap. by exists (key, name).
Qed.

Definition nid_arm_ok (arm : string * string) : Prop :=
  length (str arm.1) = 11%nat ∧ (35 ∉ str arm.1).
#[export] Instance nid_arm_ok_dec arm : Decision (nid_arm_ok arm).
Proof. unfold nid_arm_ok; apply _. Defined.

(** The table of known NIDs is a bijection between 11-character NIDs and
    names, so no arm shadows another; each NID is found, and a library and
    module suffix after [#] makes no difference. *)
Theorem known_nids_spec :
  NoDup (map (str ∘ fst) known_nids) ∧ NoDup (map (str ∘ snd) known_nids) ∧
  Forall nid_arm_ok known_nids ∧
  (∀ nid name, (nid, name) ∈ known_nids → lookup_known_nid (str nid) = Some (str name)) ∧
  (∀ nid suffix, 35 ∉ nid → lookup_known_nid (nid ++ 35 :: suffix) = lookup_known_nid nid).
Proof.
  assert (NoDup (map (str ∘ fst) known_nids)) as Hnd
    by (by apply (bool_decide_eq_true_1 _); vm_compute).
  assert (Forall nid_arm_ok known_nids) as Hok
    by (by apply (bool_decide_eq_true_1 _); vm_compute).
  split; [done|]. split; [by apply (bool_decide_eq_true_1 _); vm_compute|].
  split; [done|]. split.
  - intros nid name Hin. unfold lookup_known_nid.
    rewrite Forall_forall in Hok. destruct (Hok _ Hin) as [_ Hh].
    assert (∀ l, 35 ∉ l → before_hash l = l) as Hb.
    { clear. induction l as [|c l IH]; [done|]. intros [Hc Hn]%not_elem_of_cons.
      cbn [before_hash]. destruct (Z.eqb_spec c 35); [congruence|]. by rewrite IH. }
    rewrite Hb by done. by apply match_nid_elem.
  - intros nid suffix Hn. unfold lookup_known_nid. by rewrite before_hash_stop.
Qed.

Lemma known_nids_spec_witness :
  lookup_known_nid (str "gQX+4GDQjpM" ++ 35 :: str "A#B") = Some (str "malloc").
Proof.
  destruct known_nids_spec as (_ & _ & _ & Hfind & Hsuf).
  rewrite Hsuf by (by apply (bool_decide_eq_true_1 _); vm_compute).
  apply (Hfind "gQX+4GDQjpM" "malloc"). by apply (bool_decide_eq_true_1 _); vm_compute.
Defined.

End Symbols.

Module Libraries.

Import Stubs Symbols.

(** The resolver and the global stub allocator. *)
Definition hle_state : Type := SymbolResolver * option StubAllocator.

Definition register_stub (nid name library : bytes) (s : hle_state) : hle_state :=
  let '(resolver, g) := s in
  let '(g, addr) := allocate_stub name g in
  (add_symbol nid
     {| sym_name := name; virtual_address := addr; sym_type := Function;
        library := library; module := [] |} resolver, g).

(** The calls of [libkernel::register], in order; each passes the name as the
    NID too. *)
Definition libkernel_symbols : list string :=
  ["sceKernelAllocateDirectMemory"; "sceKernelMapDirectMemory";
   "sceKernelMapFlexibleMemory"; "sceKernelMunmap"; "sceKernelMprotect";
   "sceKernelQueryMemoryProtection"; "sceKernelGetDirectMemorySize";
   "sceKernelAvailableDirectMemorySize"; "sceKernelVirtualQuery";
   "sceKernelReserveVirtualRange"; "sceKernelMapNamedFlexibleMemory";
   "sceKernelMapNamedDirectMemory"; "scePthreadCreate"; "scePthreadJoin";
   "scePthreadDetach"; "scePthreadSelf"; "scePthreadExit"; "scePthreadSetaffinity";
   "scePthreadGetaffinity"; "scePthreadSetprio"; "scePthreadAttrInit";
   "scePthreadAttrDestroy"; "scePthreadAttrSetstacksize"; "scePthreadAttrSetdetachstate";
   "scePthreadRename"; "scePthreadMutexInit"; "scePthreadMutexDestroy";
   "scePthreadMutexLock"; "scePthreadMutexUnlock"; "scePthreadMutexTrylock";
   "scePthreadCondInit"; "scePthreadCondDestroy"; "scePthreadCondSignal";
   "scePthreadCondBroadcast"; "scePthreadCondWait"; "scePthreadCondTimedwait";
   "scePthreadRwlockInit"; "scePthreadRwlockDestroy"; "scePthreadRwlockRdlock";
   "scePthreadRwlockWrlock"; "scePthreadRwlockUnlock"; "sceKernelCreateSema";
   "sceKernelDeleteSema"; "sceKernelWaitSema"; "sceKernelSignalSema";
   "sceKernelCreateEqueue"; "sceKernelDeleteEqueue"; "sceKernelAddUserEvent";
   "sceKernelAddReadEvent"; "sceKernelWaitEqueue"; "sceKernelTriggerUserEvent";
   "sceKernelGetTscFrequency"; "sceKernelGetProcessTime"; "sceKernelGetProcessTimeCounter";
   "sceKernelGetProcessTimeCounterFrequency"; "sceKernelClockGettime";
   "sceKernelGettimeofday"; "sceKernelUsleep"; "sceKernelSleep"; "sceKernelNanosleep";
   "sceKernelOpen"; "sceKernelClose"; "sceKernelRead"; "sceKernelWrite"; "sceKernelLseek";
   "sceKernelStat"; "sceKernelFstat"; "sceKernelMkdir"; "sceKernelGetdents";
   "sceKernelCheckReachability"; "sceKernelGetCurrentCpu"; "sceKernelGetProcessParam";
   "sceKernelGetCompiledSdkVersion"; "sceKernelGetCpuFrequency"; "sceKernelGetCpuMode";
   "sceKernelIsNeoMode"; "sceKernelLoadStartModule"; "sceKernelDlsym";
   "sceKernelGetModuleList"; "sceKernelGetModuleInfo"; "sceKernelGetModuleInfoByName";
   "sceKernelDebugOutText"; "sceKernelDebugRaiseException"; "pthread_create";
   "pthread_join"; "pthread_mutex_init"; "pthread_mutex_lock"; "pthread_mutex_unlock";
   "pthread_mutex_destroy"; "pthread_cond_init"; "pthread_cond_signal";
   "pthread_cond_wait"; "pthread_cond_destroy"; "pthread_self"; "malloc"; "free"; "calloc";
   "realloc"; "memalign"; "memcpy"; "memset"; "memmove"; "strlen"].

Definition register (s : hle_state) : hle_state :=
  foldl (λ s name, register_stub (str name) (str name) (str "libkernel") s)
    s libkernel_symbols.

Record HleLibrary := { lib_name : bytes; lib_init : hle_state → hle_state }.

Definition HLE_LIBRARIES : list HleLibrary :=
  [{| lib_name := str "libkernel"; lib_init := register |}].

Definition register_all_libraries (s : hle_state) : hle_state :=
  foldl (λ s lib, lib_init lib s) s HLE_LIBRARIES.

(** ** Lemmas *)

Definition hle_record (addr : Z) (name : bytes) : SymbolRecord :=
  {| sym_name := name; virtual_address := addr; sym_type := Function;
     library := str "libkernel"; module := [] |}.

Definition register_names (ns : list bytes) (s : hle_state) : hle_state :=
  foldl (λ s name, register_stub name name (str "libkernel") s) s ns.

Lemma register_eq s : register s = register_names (map str libkernel_symbols) s.
Proof.
  unfold register, register_names. generalize libkernel_symbols. intros l. revert s.
  induction l as [|x l IH]; intros s; [done|]. apply IH.
Qed.

(** The registrations in terms of the allocations they make. *)
Lemma register_names_spec ns r g : NoDup ns →
  ∃ g' addrs, allocate_all ns g = (g', addrs) ∧
    (register_names ns (r, g)).2 = g' ∧
    ∀ nid, find_symbol (register_names ns (r, g)).1 nid =
      match list_find (λ n, n = nid) ns with
      | Some (i, _) => (λ addr, hle_record addr nid) <$> addrs !! i
      | None => find_symbol r nid
      end.
Proof.
  intros Hnd. revert r g. induction Hnd as [|name ns Hn Hnd IH]; intros r g.
  { by exists g, []. }
  cbn [allocate_all register_names foldl]. unfold register_stub at 2 4.
  destruct (allocate_stub name g) as [g1 addr] eqn:E.
  destruct (IH (add_symbol name {| sym_name := name; virtual_address := addr;
    sym_type := Function; library := str "libkernel"; module := [] |} r) g1)
    as (g' & addrs & Ea & Eg & Hf).
  exists g', (addr :: addrs). rewrite Ea. split; [done|]. split; [done|].
  intros nid. unfold register_names in Hf. rewrite Hf. cbn [list_find].
  case_decide as Hd.
  - subst nid. cbn. assert (list_find (λ n, n = name) ns = None) as ->.
    { apply list_find_None. rewrite Forall_forall. intros x Hx ->. done. }
    unfold find_symbol, add_symbol. cbn [symbols]. by rewrite lookup_insert_eq.
  - destruct (list_find (λ n, n = nid) ns) as [[i y]|]; [done|]. cbn.
    unfold find_symbol, add_symbol. cbn [symbols]. by rewrite lookup_insert_ne.
Qed.

Lemma libkernel_NoDup : NoDup (map str libkernel_symbols).
Proof. by apply (bool_decide_eq_true_1 _); vm_compute. Qed.

Lemma register_all_eq s :
  register_all_libraries s = register_names (map str libkernel_symbols) s.
Proof. exact (register_eq s). Qed.

Lemma list_find_eq (ns : list bytes) i nid : NoDup ns → ns !! i = Some nid →
  list_find (λ n, n = nid) ns = Some (i, nid).
Proof.
  intros Hnd Hi. apply list_find_Some. split_and!; [done|done|].
  intros j y Hj Hlt ->. pose proof (NoDup_lookup _ _ _ _ Hnd Hi Hj). lia.
Qed.

Lemma allocate_all_length ns g : length (allocate_all ns g).2 = length ns.
Proof.
  revert g. induction ns as [|n ns IH]; intros g; [done|]. cbn [allocate_all].
  destruct (allocate_stub n g) as [g1 a]. specialize (IH g1).
  destruct (allocate_all ns g1) as [g2 addrs]. cbn in *. by rewrite IH.
Qed.

(** Without the stub region every name gets the address 0. *)
Lemma allocate_all_None ns : allocate_all ns None = (None, replicate (length ns) 0).
Proof. induction ns as [|n ns IH]; [done|]. cbn. by rewrite IH. Qed.

Section resolving.
Context `{HashOrder, !HashOrderLaws}.

(** A registry whose symbols are registered under their own names answers to
    those names only. *)
Lemma resolve_self_named r name :
  (∀ nid rec, find_symbol r nid = Some rec → sym_name rec = nid) →
  resolve r name = virtual_address <$> find_symbol r name.
Proof.
  intros Hself. unfold resolve, find_symbol in *.
  destruct (symbols r !! name) as [rec|] eqn:E; [done|]. cbn.
  destruct (find_by_name _ _) as [a|] eqn:Ef; [|done].
  apply find_by_name_Some in Ef as (nid & rec & Hin%hash_iter_elem & Hn & _).
  pose proof (Hself _ _ Hin). congruence.
Qed.

Lemma resolve_registered ns g : NoDup ns →
  let r := (register_names ns (SymbolResolver_new, g)).1 in
  (∀ i n, ns !! i = Some n → resolve r n = (allocate_all ns g).2 !! i) ∧
  (∀ n, n ∉ ns → resolve r n = None).
Proof.
  intros Hnd. destruct (register_names_spec ns SymbolResolver_new g Hnd)
    as (g' & addrs & Ea & _ & Hf). rewrite Ea. cbn [snd].
  assert (∀ n, find_symbol SymbolResolver_new n = None) as Hnew
    by (intros n; apply lookup_empty).
  assert (∀ n, resolve (register_names ns (SymbolResolver_new, g)).1 n =
    virtual_address <$> find_symbol (register_names ns (SymbolResolver_new, g)).1 n) as Hr.
  { intros n. apply resolve_self_named. intros nid rec. rewrite Hf.
    destruct (list_find _ _) as [[i y]|]; [|by rewrite Hnew].
    destruct (addrs !! i); [|done]. by intros [= <-]. }
  split.
  - intros i n Hi. rewrite Hr, Hf, (list_find_eq _ _ _ Hnd Hi). by destruct (addrs !! i).
  - intros n Hn. rewrite Hr, Hf. assert (list_find (λ m, m = n) ns = None) as ->.
    { apply list_find_None, Forall_forall. intros x Hx ->. done. }
    by rewrite Hnew.
Qed.

End resolving.

Lemma register_all_wf r alloc : alloc_wf alloc →
  ∃ r' alloc', register_all_libraries (r, Some alloc) = (r', Some alloc') ∧ alloc_wf alloc'.
Proof.
  intros Hwf. rewrite register_all_eq. pose proof libkernel_NoDup as Hnd.
  generalize dependent (map str libkernel_symbols). intros ns Hnd.
  destruct (register_names_spec ns r (Some alloc) Hnd) as (g' & addrs & Ea & Eg & _).
  destruct (register_names ns (r, Some alloc)) as [r' g]. cbn in Eg. subst g'.
  destruct (allocate_all_spec ns alloc Hwf) as (addrs' & Ea' & _). rewrite Ea' in Ea.
  injection Ea as <- _. eexists _, _. split; [done|].
  pose proof Hwf as (_ & _ & ? & ?). apply with_names_wf; [done|].
  rewrite length_app, length_take. lia.
Qed.

(** ** Properties *)

(** C32: registering the libraries into an empty registry, with a fresh stub
    allocator, gives every libkernel function a stub of its own, whatever the
    order of the hash map: [resolve] maps the [i]-th name to the [i]-th slot
    and any other name to nothing, and a trap at that address is reported under
    that name.  Without the stub region every function resolves to address 0. *)
Theorem register_all_resolves `{HashOrder, !HashOrderLaws} alloc :
  alloc_wf alloc → used alloc = 0 →
  let '(r, g) := register_all_libraries (SymbolResolver_new, Some alloc) in
  (∀ i name, libkernel_symbols !! i = Some name →
     resolve r (str name) = Some (slot_addr alloc i) ∧
     get_stub_index (slot_addr alloc i) g = Some (Z.of_nat i) ∧
     get_stub_name (Z.of_nat i) g = str name ∧
     resolve (register_all_libraries (SymbolResolver_new, None)).1 (str name) = Some 0) ∧
  (∀ name, name ∉ map str libkernel_symbols → resolve r name = None).
Proof.
  intros Hwf Hused.
  rewrite (register_all_eq (SymbolResolver_new, Some alloc)), (register_all_eq (SymbolResolver_new, None)).
  pose proof libkernel_NoDup as Hnd.
  assert (length (map str libkernel_symbols) < 4096)%nat as Hlen by (by vm_compute; lia).
  assert (∀ i name, libkernel_symbols !! i = Some name →
    map str libkernel_symbols !! i = Some (str name)) as Hmap.
  { intros i name Hi. by rewrite list_lookup_fmap, Hi. }
  generalize dependent (map str libkernel_symbols). intros ns Hnd Hlen Hmap.
  destruct (resolve_registered ns (Some alloc) Hnd) as [Hres Hnone].
  destruct (resolve_registered ns None Hnd) as [Hres0 _].
  destruct (register_names_spec ns SymbolResolver_new (Some alloc) Hnd) as (g' & addrs & Ea & Eg & _).
  destruct (register_names ns (SymbolResolver_new, Some alloc)) as [r g]. cbn [fst snd] in *. subst g'.
  split; [|done]. intros i name Hi. apply Hmap in Hi. pose proof (lookup_lt_Some _ _ _ Hi).
  destruct (allocate_all_spec ns alloc Hwf) as (addrs' & Ea' & _ & Ha).
  rewrite (Hres _ _ Hi), (Hres0 _ _ Hi). rewrite Ea' in Ea |- *. injection Ea as <- <-.
  pose proof Hwf as (_ & _ & Hu & _). unfold MAX_STUBS in *.
  rewrite allocate_all_None. cbn [snd]. rewrite lookup_replicate_2 by lia.
  rewrite Ha, decide_True by lia.
  assert (names alloc = []) as En by (apply length_zero_iff_nil; lia).
  rewrite En, Hused. split; [done|].
  assert (alloc_wf (with_names alloc ns)) by (apply with_names_wf; unfold MAX_STUBS; [done|lia]).
  rewrite take_ge by (simpl; lia). rewrite app_nil_l.
  destruct (slot_lookup (with_names alloc ns) i (str name) 0) as (_ & Hix & Hname); try done.
  by rewrite Z.add_0_r in Hix.
Qed.

#[local] Instance map_order : HashOrder := map_to_list.
#[local] Instance map_order_laws : HashOrderLaws.
Proof. by intros m. Qed.

Lemma register_all_resolves_witness :
  let alloc := {| base := 2 ^ 36; used := 0; names := [] |} in
  let '(r, g) := register_all_libraries (SymbolResolver_new, Some alloc) in
  resolve r (str "sceKernelMapDirectMemory") = Some (2 ^ 36 + 16) ∧
  get_stub_name 1 g = str "sceKernelMapDirectMemory" ∧
  resolve r (str "sceKernelMapDirect") = None.
Proof.
  intros alloc.
  assert (alloc_wf alloc) as Hwf by (by apply (bool_decide_eq_true_1 _); vm_compute).
  pose proof (register_all_resolves alloc Hwf eq_refl) as Hall. revert Hall.
  destruct (register_all_libraries (SymbolResolver_new, Some alloc)) as [r g]. intros [Hin Hout].
  destruct (Hin 1%nat "sceKernelMapDirectMemory" eq_refl) as (? & _ & ? & _).
  split; [done|]. split; [done|]. apply Hout.
  by apply (bool_decide_eq_true_1 _); vm_compute.
Defined.

End Libraries.
