(* ===== verification/Linker.v ===== *)
(** * The dynamic linker (linker/mod.rs, linker/relocation.rs, linker/tls.rs)

    Module [Relocation] applies one relocation and all those of a list of modules;
    [Tls] is the table of TLS images; [Linker] loads modules with their
    dependencies, rewrites assertion traps and collects the initialisers.  The
    names a directory holds are read through [fs_read] and [exists_]. *)

From S2P Require Import Prelude CommonTypes BTreeMap PhysicalMemory AddressSpace.
From S2P Require Import VirtualMemory Bytes GuestMemory UnixPath Elf LinkerModule Hle.

Open Scope rust_scope.

Module Relocation.

Import LinkerModule Hle.Stubs.

(** Guest memory and the stub allocator. *)
Abbreviation reloc_state := (memory * option StubAllocator)%type.

Definition store64 (a v : Z) : st reloc_state halt unit := λ '(m, g),
  match store 8 m a v with
  | Ok m => ((m, g), Ok tt)
  | Err h => ((m, g), Err h)
  | Panic => ((m, g), Panic)
  end.

Definition allocate_stub_st (name : bytes) : st reloc_state halt Z := λ '(m, g),
  let '(g, a) := allocate_stub name g in ((m, g), Ok a).

Section with_order.
Context `{Symbols.HashOrder}.

(** The name a stub gets. *)
Definition stub_name (symbol_name : bytes) : bytes :=
  match Symbols.lookup_known_nid (Symbols.before_hash symbol_name) with
  | Some known => known
  | None => symbol_name
  end.

Definition resolve_import (hle_symbols : Symbols.SymbolResolver) (symbol_name : bytes)
  : st reloc_state halt Z :=
  if bool_decide (symbol_name = []) then mret 0
  else
    match Symbols.resolve hle_symbols (Symbols.before_hash symbol_name) with
    | Some addr => mret addr
    | None =>
        match Symbols.resolve hle_symbols symbol_name with
        | Some addr => mret addr
        | None => allocate_stub_st (stub_name symbol_name)
        end
    end.

Definition is_symbolic (rel_type : Z) : bool :=
  (rel_type =? Elf.R_X86_64_64) || (rel_type =? Elf.R_X86_64_GLOB_DAT)
  || (rel_type =? Elf.R_X86_64_JUMP_SLOT).

Definition apply_relocation (hle_symbols : Symbols.SymbolResolver) (base : VAddr)
    (reloc : ParsedRelocation) : st reloc_state halt unit :=
  let target_addr := base +64 offset reloc in
  let rel_type := pr_rel_type reloc in
  if rel_type =? Elf.R_X86_64_RELATIVE then
    store64 target_addr (base +64 wrap 64 (addend reloc))
  else if is_symbolic rel_type then
    resolved_addr ← resolve_import hle_symbols (symbol_name reloc);
    store64 target_addr (resolved_addr +64 wrap 64 (addend reloc))
  else if rel_type =? Elf.R_X86_64_DTPMOD64 then store64 target_addr 1
  else mret tt.

(** [for j in 0..reloc_count]. *)
Fixpoint relocate_module (hle_symbols : Symbols.SymbolResolver) (base : VAddr)
    (rs : list ParsedRelocation) : st reloc_state halt unit :=
  match rs with
  | [] => mret tt
  | r :: rs' =>
      _ ← apply_relocation hle_symbols base r;
      relocate_module hle_symbols base rs'
  end.

Fixpoint relocate_modules (hle_symbols : Symbols.SymbolResolver) (ms : list LoadedModule)
  : st reloc_state halt unit :=
  match ms with
  | [] => mret tt
  | md :: ms' =>
      _ ← relocate_module hle_symbols (base_virtual_addr md) (relocations md);
      relocate_modules hle_symbols ms'
  end.

End with_order.

(** ** Lemmas *)

(** Which relocations write a word, and where. *)
Definition has_target (r : ParsedRelocation) : bool :=
  (pr_rel_type r =? Elf.R_X86_64_RELATIVE) || is_symbolic (pr_rel_type r)
  || (pr_rel_type r =? Elf.R_X86_64_DTPMOD64).
Definition target (base : VAddr) (r : ParsedRelocation) : Z := base +64 offset r.

(** The relocations of a list of modules, in the order they are applied. *)
Definition all_relocations (ms : list LoadedModule) : list (VAddr * ParsedRelocation) :=
  md ← ms; (λ r, (base_virtual_addr md, r)) <$> relocations md.

(** The stubs of [g] are kept, in their slots, by [g']. *)
Definition extends (alloc alloc' : StubAllocator) : Prop :=
  Stubs.base alloc' = Stubs.base alloc ∧ names alloc `prefix_of` names alloc'.

#[export] Instance extends_preorder : PreOrder extends.
Proof.
  split; [by split|]. intros x y z [Hb Hp] [Hb' Hp']. split; [congruence|by etrans].
Qed.

Section laws.
Context `{Symbols.HashOrder} (syms : Symbols.SymbolResolver).

(** What an import may resolve to: nothing for no name; a registered symbol, the
    text before the [#] first; a stub that carries its name; or address 0, when no
    stub is left. *)
Definition import_addr (alloc : StubAllocator) (n : bytes) (a : Z) : Prop :=
  if decide (n = []) then a = 0
  else
    match Symbols.resolve syms (Symbols.before_hash n), Symbols.resolve syms n with
    | Some a', _ | None, Some a' => a = a'
    | None, None =>
        (∃ i, names alloc !! i = Some (stub_name n) ∧ a = slot_addr alloc i) ∨
        (used alloc = MAX_STUBS ∧ a = 0)
    end.

(** The word a relocation stands for. *)
Definition reloc_value (alloc : StubAllocator) (base : VAddr) (r : ParsedRelocation) (v : Z)
  : Prop :=
  if pr_rel_type r =? Elf.R_X86_64_RELATIVE then v = wrap 64 (base + addend r)
  else if is_symbolic (pr_rel_type r) then
    ∃ a, import_addr alloc (symbol_name r) a ∧ v = wrap 64 (a + addend r)
  else v = 1.

Lemma import_addr_extends alloc alloc' n a : alloc_wf alloc → alloc_wf alloc' →
  extends alloc alloc' → import_addr alloc n a → import_addr alloc' n a.
Proof.
  intros (_ & _ & Hu & _) (_ & _ & Hu' & Hm') [Hb Hp]. unfold import_addr.
  case_decide; [done|]. repeat case_match; try done.
  intros [(i & Hi & ->)|[Hfull ->]]; [left|right].
  - exists i. split; [by eapply prefix_lookup_Some|]. unfold slot_addr. by rewrite Hb.
  - split; [|done]. apply prefix_length in Hp. lia.
Qed.

Lemma reloc_value_extends alloc alloc' base r v : alloc_wf alloc → alloc_wf alloc' →
  extends alloc alloc' → reloc_value alloc base r v → reloc_value alloc' base r v.
Proof.
  intros Hwf Hwf' Hx. unfold reloc_value. repeat case_match; try done.
  intros (a & Ha & ->). exists a. split; [|done]. by apply (import_addr_extends alloc).
Qed.

Lemma resolve_import_spec m alloc n : alloc_wf alloc →
  ∃ alloc' a, resolve_import syms n (m, Some alloc) = ((m, Some alloc'), Ok a) ∧
    alloc_wf alloc' ∧ extends alloc alloc' ∧ import_addr alloc' n a.
Proof.
  intros Hwf. unfold resolve_import, import_addr, mret, st_ret, allocate_stub_st.
  destruct (decide (n = [])) as [Hn|Hn]; [rewrite bool_decide_true by done; by exists alloc, 0|].
  rewrite bool_decide_false by done.
  destruct (Symbols.resolve syms (Symbols.before_hash n)) as [a|]; [by exists alloc, a|].
  destruct (Symbols.resolve syms n) as [a|]; [by exists alloc, a|].
  rewrite allocate_stub_wf by done. pose proof Hwf as (_ & _ & Hu & Hm). case_decide as Hr.
  - eexists _, _. split; [done|]. split_and!.
    + apply with_names_wf; [done|]. rewrite length_app. simpl length. lia.
    + split; [done|]. by eexists.
    + left. exists (length (names alloc)). split; [|done].
      cbn [with_names names]. by rewrite lookup_app_r, Nat.sub_diag by lia.
  - exists alloc, 0. split_and!; [done..|]. right. split; [lia|done].
Qed.

Lemma store64_mapped a v m (g : option StubAllocator) : mapped m a 8 →
  store64 a v (m, g) = ((write_bytes (le_encode 8 v) a m, g), Ok tt).
Proof. intros Hm. unfold store64. by rewrite store_total. Qed.

Lemma apply_relocation_spec m alloc base r : alloc_wf alloc →
  (has_target r = true → mapped m (target base r) 8) →
  ∃ m' alloc', apply_relocation syms base r (m, Some alloc) = ((m', Some alloc'), Ok tt) ∧
    alloc_wf alloc' ∧ extends alloc alloc' ∧
    if has_target r
    then ∃ v, in_u 64 v ∧ reloc_value alloc' base r v ∧
      m' = write_bytes (le_encode 8 v) (target base r) m
    else m' = m.
Proof.
  intros Hwf. unfold apply_relocation, has_target, reloc_value. fold (target base r).
  assert (∀ a, a +64 wrap 64 (addend r) = wrap 64 (a + addend r)) as Hadd.
  { intros a. unfold add64. by rewrite (Z.add_comm a), wrap_add_l, (Z.add_comm a). }
  destruct (pr_rel_type r =? Elf.R_X86_64_RELATIVE); cbn [orb].
  { intros Hm. rewrite Hadd, store64_mapped by auto. eexists _, alloc. split; [done|].
    split; [done|]. split; [done|]. eexists. split; [by apply wrap_range|]. by split. }
  destruct (is_symbolic (pr_rel_type r)); cbn [orb].
  { intros Hm. destruct (resolve_import_spec m alloc (symbol_name r) Hwf)
      as (alloc' & a & E & Hwf' & Hx & Ha).
    rewrite (st_bind_ok _ _ _ _ _ E), Hadd, store64_mapped by auto.
    eexists _, alloc'. split; [done|]. split; [done|]. split; [done|]. eexists.
    split; [by apply wrap_range|]. split; [by exists a|done]. }
  destruct (pr_rel_type r =? Elf.R_X86_64_DTPMOD64).
  { intros Hm. rewrite store64_mapped by auto. eexists _, alloc. split; [done|].
    split; [done|]. split; [done|]. exists 1. split; [by apply (bool_decide_eq_true_1 _)|]. done. }
  by exists m, alloc.
Qed.

(** The two loops as one loop over all relocations. *)
Fixpoint relocate_list (l : list (VAddr * ParsedRelocation)) : st reloc_state halt unit :=
  match l with
  | [] => mret tt
  | (base, r) :: l' => _ ← apply_relocation syms base r; relocate_list l'
  end.

Lemma relocate_list_app l1 l2 s :
  relocate_list (l1 ++ l2) s = (_ ← relocate_list l1; relocate_list l2) s.
Proof.
  revert s. induction l1 as [|[base r] l1 IH]; intros s; [done|]. cbn [app relocate_list].
  rewrite st_bind_assoc. apply st_bind_ext. intros _ s'. apply IH.
Qed.

Lemma relocate_module_list base rs s :
  relocate_module syms base rs s = relocate_list ((λ r, (base, r)) <$> rs) s.
Proof.
  revert s. induction rs as [|r rs IH]; intros s; [done|]. cbn [relocate_module fmap list_fmap relocate_list].
  apply st_bind_ext. intros _ s'. apply IH.
Qed.

Lemma relocate_modules_list ms s :
  relocate_modules syms ms s = relocate_list (all_relocations ms) s.
Proof.
  revert s. induction ms as [|md ms IH]; intros s; [done|]. cbn [relocate_modules].
  change (all_relocations (md :: ms))
    with (((λ r, (base_virtual_addr md, r)) <$> relocations md) ++ all_relocations ms).
  rewrite relocate_list_app. unfold mbind, st_bind. rewrite relocate_module_list.
  destruct (relocate_list _ s) as [s' [a|e|]]; auto.
Qed.

(** A step that at most stores and allocates stubs: it stops by a fault at most, and
    maps and unmaps nothing. *)
Definition only_stores (s : reloc_state) (c : reloc_state * outcome halt unit) : Prop :=
  dom c.1.1 = dom s.1 ∧ (mem_ok s.1 → mem_ok c.1.1) ∧
  (∀ alloc, s.2 = Some alloc → alloc_wf alloc →
     ∃ alloc', c.1.2 = Some alloc' ∧ alloc_wf alloc' ∧ extends alloc alloc') ∧
  c.2 ≠ Panic ∧ ∀ h, c.2 = Err h → ∃ a, h = Fault a.

Lemma only_stores_refl m g : only_stores (m, g) ((m, g), Ok tt).
Proof. split_and!; [done|done| |done..]. intros alloc ??. by exists alloc. Qed.

Lemma only_stores_bind s s' r (k : st reloc_state halt unit) :
  only_stores s (s', r) → only_stores s' (k s') →
  only_stores s (match r with Ok _ => k s' | Err h => (s', Err h) | Panic => (s', Panic) end).
Proof.
  intros (Hd & Hb & Ha & Hp & He) (Hd2 & Hb2 & Ha2 & Hp2 & He2).
  destruct r as [[]|h|]; [|by split_and!..].
  cbn in *. split_and!; [congruence|auto| |done..]. intros alloc E Hwf.
  destruct (Ha alloc E Hwf) as (a1 & E1 & Hwf1 & ?). destruct (Ha2 a1 E1 Hwf1) as (a2 & ? & ? & ?).
  exists a2. split_and!; [done..|by etrans].
Qed.

Lemma store64_stores a v s : only_stores s (store64 a v s).
Proof.
  destruct s as [m g]. unfold store64. destruct (decide (mapped m a (Z.of_nat 8))) as [Hm|Hm].
  - rewrite store_total by done. destruct (only_stores_refl m g) as (_ & _ & Ha & _).
    split; [|split; [|by split]].
    + apply write_bytes_dom. by rewrite le_encode_length.
    + intros Hok. apply write_bytes_ok; [done|apply le_encode_bytes].
  - rewrite store_fault by done. destruct (only_stores_refl m g) as (? & ? & Ha & _).
    split_and!; [done..|]. intros h [= <-]. by eexists.
Qed.

Lemma resolve_import_stores n s : ∃ g' v,
  resolve_import syms n s = ((s.1, g'), Ok v) ∧ only_stores s ((s.1, g'), Ok tt).
Proof.
  destruct s as [m g]. pose proof (only_stores_refl m g) as Hr. unfold resolve_import.
  case_bool_decide; [by eexists _, _|].
  destruct (Symbols.resolve _ _); [by eexists _, _|]. destruct (Symbols.resolve _ _); [by eexists _, _|].
  unfold allocate_stub_st. destruct (allocate_stub (stub_name n) g) as [g' v] eqn:Eg.
  eexists _, _. split; [done|]. split_and!; [done|done| |done..]. cbn. intros alloc -> Hwf.
  rewrite allocate_stub_wf in Eg by done. case_decide as Hu; injection Eg as <- <-; [|by exists alloc].
  eexists. split; [done|]. split; [|by split; [|exists [stub_name n]]].
  pose proof Hwf as (_ & _ & ? & _). apply with_names_wf; [done|]. rewrite length_app. cbn. lia.
Qed.

Lemma apply_relocation_stores base r s : only_stores s (apply_relocation syms base r s).
Proof.
  unfold apply_relocation. destruct (_ =? Elf.R_X86_64_RELATIVE); [apply store64_stores|].
  destruct (is_symbolic _).
  - destruct (resolve_import_stores (symbol_name r) s) as (g' & v & E & Hs).
    unfold mbind, st_bind. rewrite E.
    apply (only_stores_bind s (s.1, g') (Ok tt) (store64 _ _) Hs), store64_stores.
  - destruct (_ =? Elf.R_X86_64_DTPMOD64); [apply store64_stores|].
    destruct s. apply only_stores_refl.
Qed.

Lemma relocate_modules_stores ms s : only_stores s (relocate_modules syms ms s).
Proof.
  rewrite relocate_modules_list. revert s.
  induction (all_relocations ms) as [|[base r] l IH]; intros [m g]; [apply only_stores_refl|].
  cbn [relocate_list]. unfold mbind, st_bind.
  pose proof (apply_relocation_stores base r (m, g)) as Hone.
  destruct (apply_relocation syms base r (m, g)) as [s' o].
  pose proof (only_stores_bind (m, g) s' o (relocate_list l) Hone (IH s')) as Hb.
  by destruct o.
Qed.

(** Two words of 8 bytes that do not meet. *)
Definition apart (a b : Z) : Prop := a + 8 ≤ b ∨ b + 8 ≤ a.

Lemma relocate_list_spec l m alloc : alloc_wf alloc →
  (∀ base r, (base, r) ∈ l → has_target r = true → mapped m (target base r) 8) →
  ∃ m' alloc', relocate_list l (m, Some alloc) = ((m', Some alloc'), Ok tt) ∧
    alloc_wf alloc' ∧ extends alloc alloc' ∧
    (∀ x, (∀ base r, (base, r) ∈ l → has_target r = true →
             ¬ target base r ≤ x < target base r + 8) → m' !! x = m !! x) ∧
    ∀ l1 base r l2, l = l1 ++ (base, r) :: l2 → has_target r = true →
      (∀ base' r', (base', r') ∈ l2 → has_target r' = true →
         apart (target base r) (target base' r')) →
      ∃ v, reloc_value alloc' base r v ∧ GuestMemory.load 8 m' (target base r) = Ok v.
Proof.
  revert m alloc. induction l as [|[b r0] l IH]; intros m alloc Hwf Hm.
  { exists m, alloc. split_and!; try done. by intros []. }
  destruct (apply_relocation_spec m alloc b r0 Hwf) as (m1 & alloc1 & E & Hwf1 & Hx1 & H1).
  { apply Hm. set_solver. }
  assert (∀ a k, mapped m a k → mapped m1 a k) as Hdom.
  { destruct (has_target r0) eqn:Ht; [|by subst m1]. destruct H1 as (v & _ & _ & ->).
    intros a k. apply write_bytes_mapped. rewrite le_encode_length. apply Hm; [set_solver|done]. }
  destruct (IH m1 alloc1 Hwf1) as (m' & alloc' & E' & Hwf' & Hx' & Hout & Hin).
  { intros base r Hel Ht. apply Hdom, Hm; [set_solver|done]. }
  exists m', alloc'. cbn [relocate_list]. rewrite (st_bind_ok _ _ _ _ _ E).
  split_and!; [done|done|by etrans| |].
  - intros x Hx. rewrite Hout by (intros; apply Hx; [set_solver|done]).
    destruct (has_target r0) eqn:Ht; [|by subst m1]. destruct H1 as (v & _ & _ & ->).
    specialize (Hx b r0 ltac:(set_solver) Ht).
    rewrite write_bytes_lookup, le_encode_length. case_range; [lia|done].
  - intros [|[b1 r1] l1] base r l2 Hl Ht Hapart; injection Hl as Hb Hr Hl; subst.
    + rewrite Ht in H1. destruct H1 as (v & Hv & Hval & ->). exists v.
      split; [by apply (reloc_value_extends alloc1)|].
      erewrite load_agree; [eapply load_store_same; [by apply store_total; auto; apply Hm; [set_solver|]|exact Hv]|].
      intros x Hx. apply Hout. intros base' r' Hel Ht'.
      specialize (Hapart base' r' Hel Ht'). unfold apart in Hapart. lia.
    + by eapply Hin.
Qed.

End laws.

End Relocation.

Module Tls.

Record TlsImage := {
  module_index : Z; align : Z; image_size : Z; total_size : Z; image_addr : Z;
}.

Record TlsManager := { images : list TlsImage; total_static_size : Z }.

Definition TlsManager_new : TlsManager := {| images := []; total_static_size := 0 |}.

Definition register_image (image : TlsImage) (self : TlsManager) : TlsManager :=
  {| images := images self ++ [image];
     total_static_size := total_static_size self +64 total_size image |}.

Definition image_count (self : TlsManager) : Z := blen (images self).

End Tls.

Module Linker.

Import LinkerModule.

Record Linker := {
  modules : list LoadedModule;
  hle_symbols : Symbols.SymbolResolver;
  dtv_generation_counter : Z;
  static_tls_size : Z;
  max_tls_index : Z;
}.

Definition Linker_new : Linker :=
  {| modules := []; hle_symbols := Symbols.SymbolResolver_new; dtv_generation_counter := 1;
     static_tls_size := 0; max_tls_index := 0 |}.

Definition set_max_tls_index (self : Linker) (i : Z) : Linker :=
  {| modules := modules self; hle_symbols := hle_symbols self;
     dtv_generation_counter := dtv_generation_counter self;
     static_tls_size := static_tls_size self; max_tls_index := i |}.

Definition push_module (self : Linker) (md : LoadedModule) : Linker :=
  {| modules := modules self ++ [md]; hle_symbols := hle_symbols self;
     dtv_generation_counter := dtv_generation_counter self;
     static_tls_size := static_tls_size self; max_tls_index := max_tls_index self |}.

(** *** Assertion traps *)

Definition TRAP : bytes := [0x85; 0xC0; 0x75; 0x02; 0xCD; 0x41].
Definition NO_TRAP : bytes := [0xB8; 0x0A; 0x00; 0x00; 0x00; 0x90].

(** The bytes at [a] are compared one by one, up to the first difference. *)
Fixpoint matches (pat : bytes) (a : Z) (m : memory) : outcome halt bool :=
  match pat with
  | [] => mret true
  | b :: pat' =>
      x ← GuestMemory.load 1 m a;
      if x =? b then matches pat' (a + 1) m else mret false
  end.

Fixpoint store_each (bs : bytes) (a : Z) (m : memory) : outcome halt memory :=
  match bs with
  | [] => mret m
  | b :: bs' => m ← store 1 m a b; store_each bs' (a + 1) m
  end.

(** [while i + 5 < code_size]; [fuel] bounds the rounds. *)
Fixpoint trap_loop (fuel : nat) (base i code_size patched : Z) (m : memory)
  : outcome halt (memory * Z) :=
  match fuel with
  | O => mret (m, patched)
  | S fuel' =>
      if i +64 5 <? code_size then
        hit ← matches TRAP (base + i) m;
        if (hit : bool) then
          m ← store_each NO_TRAP (base + i) m;
          trap_loop fuel' base (i + 6) code_size (add32 patched 1) m
        else trap_loop fuel' base (i + 1) code_size patched m
      else mret (m, patched)
  end.

(** A round advances [i], so [code_size] rounds are enough. *)
Definition patch_traps (base code_size : Z) (m : memory) : outcome halt (memory * Z) :=
  trap_loop (Z.to_nat code_size) base 0 code_size 0 m.

(** *** Loading *)

Section loading.
Context {OS : Type} `{HostOS OS} `{Bitflags} `{ByteOrder}.
Variable fs_read : path → outcome io_error bytes.
Variable exists_ : path → bool.

(** Host kernel and memory manager, guest memory, the linker. *)
Definition link_state : Type := (OS * Virtual.MemoryManager) * memory * Linker.

Definition module_load (p : path) : st link_state load_stop LoadedModule :=
  λ '(sys, m, self),
  let '((sys, m, i), r) := load fs_read p (sys, m, max_tls_index self) in
  ((sys, m, set_max_tls_index self i), r).

Definition position (ms : list LoadedModule) (n : bytes) : option nat :=
  fst <$> list_find (λ md, name md = n) ms.

(** The new module is entered, and the traps of the main executable rewritten. *)
Definition enter_module (md : LoadedModule) : st link_state load_stop unit :=
  λ '(sys, m, self),
  let self := push_module self md in
  if bool_decide (name md = str "eboot.bin") then
    match patch_traps (base_virtual_addr md) (aligned_base_size md) m with
    | Ok (m, _) => ((sys, m, self), Ok tt)
    | Err h => ((sys, m, self), Err (Faulted h))
    | Panic => ((sys, m, self), Panic)
    end
  else ((sys, m, self), Ok tt).

(** [None]: the fuel, which bounds the nesting, has run out. *)
Definition run (A : Type) : Type := option (link_state * outcome load_stop A).

Definition run_bind {A B} (r : run A) (k : A → link_state → run B) : run B :=
  match r with
  | None => None
  | Some (s, Ok a) => k a s
  | Some (s, Err e) => Some (s, Err e)
  | Some (s, Panic) => Some (s, Panic)
  end.

(** A dependency that fails to load is reported and skipped. *)
Definition ignore_error (r : run Z) : run unit :=
  match r with
  | None => None
  | Some (s, Ok _) | Some (s, Err (Failed _)) => Some (s, Ok tt)
  | Some (s, Err (Faulted h)) => Some (s, Err (Faulted h))
  | Some (s, Panic) => Some (s, Panic)
  end.

(** [for dep in needed]. *)
Fixpoint load_deps (load_module : path → link_state → run Z) (parent_dir : path)
    (deps : list bytes) (s : link_state) : run unit :=
  match deps with
  | [] => Some (s, Ok tt)
  | dep :: deps' =>
      let dep_path := join parent_dir dep in
      let dep_sce := join (join parent_dir (str "sce_module")) dep in
      run_bind
        (if exists_ dep_path then ignore_error (load_module dep_path s)
         else if exists_ dep_sce then ignore_error (load_module dep_sce s)
         else Some (s, Ok tt))
        (λ _ s, load_deps load_module parent_dir deps' s)
  end.

Definition parent_or_empty (p : path) : path :=
  default (from_bytes []) (parent p).

Fixpoint load_module (fuel : nat) (p : path) (s : link_state) : run Z :=
  match fuel with
  | O => None
  | S fuel' =>
      match position (modules (snd s)) (module_name p) with
      | Some idx => Some (s, Ok (wrap 32 (Z.of_nat idx)))
      | None =>
          run_bind (Some (module_load p s)) (λ md s,
          let index := wrap 32 (blen (modules (snd s))) in
          match Elf.needed_modules (elf_of md) with
          | Err e => match e with end
          | Panic => Some (s, Panic)
          | Ok needed =>
              run_bind (Some (enter_module md s)) (λ _ s,
              run_bind (load_deps (load_module fuel') (parent_or_empty p) needed s) (λ _ s,
              Some (s, Ok index)))
          end)
      end
  end.

End loading.

(** *** The rest of the interface *)

Definition get_module (self : Linker) (index : Z) : option LoadedModule :=
  modules self !! Z.to_nat index.
Definition main_module (self : Linker) : option LoadedModule := head (modules self).
Definition module_count (self : Linker) : Z := blen (modules self).

Definition relocate_all `{Symbols.HashOrder} (self : Linker)
  : st (memory * option Stubs.StubAllocator) halt unit :=
  Relocation.relocate_modules (hle_symbols self) (modules self).

Definition entry_point (self : Linker) : option Z :=
  (λ md, base_virtual_addr md +64 Elf.entry_point (elf_of md)) <$> main_module self.

Definition get_dt_init_funcs (self : Linker) : list Z :=
  filter (λ a, 0x1000 < a) (init_addr <$> modules self).

(** [for dbg_i in 0..16]: the entries read for the log. *)
Fixpoint dump_entries (n : nat) (dbg_i array_addr : Z) (m : memory) : outcome halt unit :=
  match n with
  | O => mret tt
  | S n' => _ ← GuestMemory.load 8 m (array_addr +64 dbg_i *64 8); dump_entries n' (dbg_i + 1) array_addr m
  end.

(** [rounds] is what is left of the hard limit. *)
Fixpoint init_array_loop (rounds : nat) (i array_addr array_size : Z) (m : memory)
  : outcome halt (list Z) :=
  match rounds with
  | O => mret []
  | S rounds' =>
      if (0 <? array_size) && (array_size <=? i *64 8) then mret []
      else
        func_ptr ← GuestMemory.load 8 m (array_addr +64 i *64 8);
        if (func_ptr =? 0) && (array_size =? 0) then mret []
        else
          rest ← init_array_loop rounds' (i + 1) array_addr array_size m;
          mret (if 0x1000 <? func_ptr then func_ptr :: rest else rest)
  end.

(** The loop stops when [i > 10000]. *)
Definition ROUNDS : nat := Z.to_nat 10001.

Definition module_init_array (md : LoadedModule) (m : memory) : outcome halt (list Z) :=
  if 0x1000 <? init_array_addr md then
    _ ← dump_entries 16 0 (init_array_addr md) m;
    init_array_loop ROUNDS 0 (init_array_addr md) (init_array_size md) m
  else mret [].

Fixpoint init_array_funcs (ms : list LoadedModule) (m : memory) : outcome halt (list Z) :=
  match ms with
  | [] => mret []
  | md :: ms' =>
      funcs ← module_init_array md m;
      rest ← init_array_funcs ms' m;
      mret (funcs ++ rest)
  end.

Definition get_init_array_funcs (self : Linker) (m : memory) : outcome halt (list Z) :=
  init_array_funcs (modules self) m.

(** ** Lemmas: assertion traps *)

Definition trap_at (m : memory) (y : Z) : Prop := bytes_at TRAP m y.

#[export] Instance trap_at_dec m y : Decision (trap_at m y).
Proof. unfold trap_at; apply _. Defined.

Lemma matches_spec pat a m : mapped m a (blen pat) →
  matches pat a m = Ok (bool_decide (bytes_at pat m a)).
Proof.
  revert a. induction pat as [|b pat IH]; intros a Hm; [done|]. cbn [matches].
  destruct (Hm a) as [x Hx]; [simpl; lia|]. rewrite (load1 _ _ _ Hx). cbn [mbind outcome_bind].
  assert (mapped m (a + 1) (blen pat)) as Hm' by (eapply mapped_weaken; [done|simpl; lia..]).
  assert (bytes_at (b :: pat) m a ↔ x = b ∧ bytes_at pat m (a + 1)) as Hat.
  { rewrite !bytes_at_lookup. split.
    - intros Hb. split.
      + specialize (Hb 0%nat b eq_refl). rewrite Z.add_0_r in Hb. congruence.
      + intros k c Hk. rewrite <-Z.add_assoc. replace (1 + Z.of_nat k) with (Z.of_nat (S k)) by lia.
        by apply Hb.
    - intros [-> Hb] [|k] c Hk; simpl in Hk; [by rewrite Z.add_0_r; simplify_eq|].
      replace (a + Z.of_nat (S k)) with (a + 1 + Z.of_nat k) by lia. by apply Hb. }
  rewrite (bool_decide_ext _ _ Hat). destruct (Z.eqb_spec x b) as [->|Hne].
  - rewrite IH by done. f_equal. apply bool_decide_ext. tauto.
  - by rewrite bool_decide_false by tauto.
Qed.

Lemma store_each_spec bs a m : is_bytes bs → mapped m a (blen bs) →
  store_each bs a m = Ok (write_bytes bs a m).
Proof.
  intros Hbs. revert a m. induction Hbs as [|b bs Hb _ IH]; intros a m Hm; [done|].
  cbn [store_each write_bytes]. rewrite store1; [|apply Hm; simpl; lia|done].
  cbn [mbind outcome_bind]. apply IH. intros x Hx.
  destruct (decide (x = a)) as [->|]; [rewrite lookup_insert_eq; by eexists|].
  rewrite lookup_insert_ne by done. apply Hm. simpl. lia.
Qed.

(** No byte of a trap is a byte of its replacement. *)
Lemma traps_apart m y z : trap_at m y → trap_at m z → y < z → y + 6 ≤ z.
Proof.
  unfold trap_at. rewrite !bytes_at_lookup. intros Hy Hz Hlt.
  destruct (decide (y + 6 ≤ z)) as [|Hov]; [done|]. exfalso.
  assert (m !! z = Some 0x85) as Hz0.
  { rewrite <-(Z.add_0_r z). by apply (Hz 0%nat). }
  assert (∃ k, (0 < k < 6)%nat ∧ z = y + Z.of_nat k) as (k & Hk & ->).
  { exists (Z.to_nat (z - y)). lia. }
  destruct (lookup_lt_is_Some_2 TRAP k) as [b Hb]; [simpl; lia|].
  rewrite (Hy k b Hb) in Hz0. injection Hz0 as ->.
  do 6 (destruct k as [|k]; [try lia; discriminate Hb|]). lia.
Qed.

(** What rewriting the traps that start in [lo .. hi - 6] does. *)
Record traps_patched (lo hi : Z) (m m' : memory) : Prop := {
  tp_hit y : lo ≤ y → y + 6 ≤ hi → trap_at m y → bytes_at NO_TRAP m' y;
  tp_rest x : (∀ y, lo ≤ y → y + 6 ≤ hi → trap_at m y → ¬ y ≤ x < y + 6) → m' !! x = m !! x;
}.

Lemma traps_patched_step lo hi m m' : traps_patched (lo + 1) hi m m' → ¬ trap_at m lo →
  traps_patched lo hi m m'.
Proof.
  intros [Hhit Hrest] Hlo. split.
  - intros y Hy He Ht. apply Hhit; [|done..]. destruct (decide (y = lo)) as [->|]; [done|lia].
  - intros x Hx. apply Hrest. intros y ?. apply Hx. lia.
Qed.

Lemma trap_at_beyond bs m lo y : length bs = 6%nat → trap_at m lo → lo < y →
  trap_at m y ↔ lo + 6 ≤ y ∧ trap_at (write_bytes bs lo m) y.
Proof.
  intros Hl Hlo Hy. split.
  - intros Ht. pose proof (traps_apart m lo y Hlo Ht Hy). split; [done|].
    unfold trap_at. rewrite bytes_at_agree; [exact Ht|]. intros x Hx.
    rewrite write_bytes_lookup, Hl. case_range; [lia|done].
  - intros [Hge Ht]. unfold trap_at. rewrite bytes_at_agree; [exact Ht|]. intros x Hx.
    rewrite write_bytes_lookup, Hl. case_range; [lia|done].
Qed.

Lemma traps_patched_hit lo hi m m' : trap_at m lo → lo + 6 ≤ hi →
  traps_patched (lo + 6) hi (write_bytes NO_TRAP lo m) m' → traps_patched lo hi m m'.
Proof.
  intros Hlo Hhi [Hhit Hrest].
  assert (∀ x, lo ≤ x < lo + 6 → m' !! x = write_bytes NO_TRAP lo m !! x) as Hhere.
  { intros x Hx. apply Hrest. intros y ? ? ?. lia. }
  split.
  - intros y Hy He Ht. destruct (decide (y = lo)) as [->|Hne].
    + eapply bytes_at_agree; [exact Hhere|]. unfold bytes_at. apply load_write_same.
    + apply (trap_at_beyond NO_TRAP m lo y) in Ht as [? ?]; [by apply Hhit|done|done|lia].
  - intros x Hx. assert (¬ lo ≤ x < lo + 6) as Hlx by by apply Hx.
    rewrite Hrest; [rewrite write_bytes_lookup; case_range; [simpl in *; lia|done]|].
    intros y Hy He Ht. apply Hx; [lia|done|].
    apply (trap_at_beyond NO_TRAP m lo y); [done|done|lia|]. split; [lia|done].
Qed.

(** The loop, from index [i] on. *)
Lemma trap_loop_spec fuel base i size c m : 0 ≤ i ≤ size → size < 2 ^ 63 →
  size - i ≤ Z.of_nat fuel → mapped m base size →
  ∃ m' c', trap_loop fuel base i size c m = Ok (m', c') ∧
    traps_patched (base + i) (base + size) m m'.
Proof.
  revert i c m. induction fuel as [|fuel IH]; intros i c m Hi Hs Hf Hm.
  { exists m, c. split; [done|]. split; [lia|done]. }
  cbn [trap_loop]. unwrap64. destruct (Z.ltb_spec (i + 5) size) as [Hlt|Hge].
  2: { exists m, c. split; [done|]. split; [lia|done]. }
  assert (mapped m (base + i) 6) as H6 by (eapply mapped_weaken; [done|lia..]).
  rewrite matches_spec by done. cbn [mbind outcome_bind]. case_bool_decide as Ht.
  - rewrite store_each_spec by (done || by apply (bool_decide_eq_true_1 _)).
    cbn [mbind outcome_bind].
    destruct (IH (i + 6) (add32 c 1) (write_bytes NO_TRAP (base + i) m)) as (m' & c' & -> & Hp);
      [lia|done|lia|by apply write_bytes_mapped|].
    exists m', c'. split; [done|]. apply traps_patched_hit; [done|lia|].
    by rewrite <-Z.add_assoc.
  - destruct (IH (i + 1) c m) as (m' & c' & -> & Hp); [lia|done|lia|done|].
    exists m', c'. split; [done|]. apply traps_patched_step; [|done]. by rewrite <-Z.add_assoc.
Qed.

Lemma patch_traps_Ok base size m : 0 ≤ size < 2 ^ 63 → mapped m base size →
  ∃ m' c, patch_traps base size m = Ok (m', c) ∧ traps_patched base (base + size) m m'.
Proof.
  intros Hs Hm. unfold patch_traps.
  destruct (trap_loop_spec (Z.to_nat size) base 0 size 0 m) as (m' & c & E & Hp); [lia..|done|].
  rewrite Z.add_0_r in Hp. eauto.
Qed.

(** Outside the region nothing changes. *)
(** Memory keeps holding bytes. *)
Lemma matches_safe pat a m : safe (matches pat a m) (λ _, True).
Proof.
  revert a. induction pat as [|p pat IH]; intros a; [done|]. cbn [matches].
  apply (guest_bind _ _ (λ _, True)).
  - unfold GuestMemory.load. by destruct (load_bytes m a 1).
  - intros v _. by destruct (_ =? _).
Qed.

Lemma store_each_safe bs a m : mem_ok m → safe (store_each bs a m) mem_ok.
Proof.
  revert a m. induction bs as [|b bs IH]; intros a m Hm; [done|]. cbn [store_each].
  eapply guest_bind; [by apply store_safe|]. intros m' Hm'. by apply IH.
Qed.

Lemma trap_loop_safe fuel base i size c m : mem_ok m →
  safe (trap_loop fuel base i size c m) (λ r, mem_ok r.1).
Proof.
  revert i c m. induction fuel as [|fuel IH]; intros i c m Hm; [done|]. cbn [trap_loop].
  destruct (_ <? _); [|done]. eapply guest_bind; [apply matches_safe|]. intros [] _; [|by apply IH].
  eapply guest_bind; [by apply store_each_safe|]. intros m' Hm'. by apply IH.
Qed.

Lemma patch_traps_bytes base size m m' c : mem_ok m → patch_traps base size m = Ok (m', c) → mem_ok m'.
Proof.
  intros Hm E. pose proof (trap_loop_safe (Z.to_nat size) base 0 size 0 m Hm) as Hs.
  unfold patch_traps in E. by rewrite E in Hs.
Qed.

Lemma traps_patched_outside lo hi m m' x : traps_patched lo hi m m' → ¬ lo ≤ x < hi →
  m' !! x = m !! x.
Proof. intros [_ Hrest] Hx. apply Hrest. intros y ? ? _ ?. lia. Qed.

Lemma traps_patched_mapped lo hi m m' a n : traps_patched lo hi m m' → mapped m lo (hi - lo) →
  mapped m a n → mapped m' a n.
Proof.
  intros [Hhit Hrest] Hreg Hm x Hx.
  destruct (decide (Exists (λ y, lo ≤ y ∧ y + 6 ≤ hi ∧ trap_at m y ∧ y ≤ x < y + 6)
    (seqZ (x - 5) 6))) as [Hc|Hc].
  - apply Exists_exists in Hc as (y & _ & Hy & He & Ht & Hin).
    specialize (Hhit y Hy He Ht). rewrite bytes_at_lookup in Hhit.
    destruct (lookup_lt_is_Some_2 NO_TRAP (Z.to_nat (x - y))) as [b Hb]; [simpl; lia|].
    specialize (Hhit _ _ Hb). exists b. by replace x with (y + Z.of_nat (Z.to_nat (x - y))) by lia.
  - rewrite Hrest; [by apply Hm|]. intros y Hy He Ht Hin. apply Hc, Exists_exists.
    exists y. split; [apply elem_of_seqZ; lia|done].
Qed.

(** No trap is left. *)
Lemma traps_patched_none lo hi m m' y : traps_patched lo hi m m' → lo ≤ y → y + 6 ≤ hi →
  ¬ trap_at m' y.
Proof.
  intros [Hhit Hrest] Hy He Ht'. unfold trap_at in Ht'. rewrite bytes_at_lookup in Ht'.
  assert (∀ z, lo ≤ z → z + 6 ≤ hi → trap_at m z → z + 6 ≤ y ∨ y + 6 ≤ z) as Hsep.
  { intros z Hz Hze Htz. specialize (Hhit z Hz Hze Htz). rewrite bytes_at_lookup in Hhit.
    destruct (decide (z + 6 ≤ y)) as [|Hn1]; [by left|].
    destruct (decide (y + 6 ≤ z)) as [|Hn2]; [by right|]. exfalso.
    set (x := y `max` z).
    destruct (lookup_lt_is_Some_2 NO_TRAP (Z.to_nat (x - z))) as [b Hb]; [simpl; lia|].
    destruct (lookup_lt_is_Some_2 TRAP (Z.to_nat (x - y))) as [c Hc]; [simpl; lia|].
    pose proof (Hhit _ _ Hb) as E1. pose proof (Ht' _ _ Hc) as E2.
    replace (z + Z.of_nat (Z.to_nat (x - z))) with x in E1 by lia.
    replace (y + Z.of_nat (Z.to_nat (x - y))) with x in E2 by lia.
    assert (b = c) as -> by congruence.
    apply list_elem_of_lookup_2 in Hb, Hc. unfold TRAP, NO_TRAP in *. set_solver. }
  assert (trap_at m y) as Ht.
  { unfold trap_at. rewrite (bytes_at_agree _ _ m'); [by apply bytes_at_lookup|].
    intros x Hx. symmetry. apply Hrest. intros z Hz Hze Htz.
    specialize (Hsep z Hz Hze Htz). simpl in Hx. lia. }
  specialize (Hsep y Hy He Ht). lia.
Qed.

(** ** Lemmas: initialisers *)

Lemma dump_entries_mapped n i a m : 0 ≤ i → 0 ≤ a → a + 8 * (i + Z.of_nat n) ≤ 2 ^ 63 →
  mapped m (a + 8 * i) (8 * Z.of_nat n) → dump_entries n i a m = Ok tt.
Proof.
  revert i. induction n as [|n IH]; intros i Hi Ha Hl Hm; [done|]. cbn [dump_entries]. unwrap64.
  destruct (load_total 8 m (a + i * 8)) as [v ->]; [eapply mapped_weaken; [done|lia..]|].
  cbn [mbind outcome_bind]. apply IH; [lia..|]. eapply mapped_weaken; [done|lia..].
Qed.

Lemma dump_entries_fault n i a m : 0 ≤ i → 0 ≤ a → a + 8 * (i + Z.of_nat n) ≤ 2 ^ 63 →
  mapped m (a + 8 * i) (8 * Z.of_nat n) ∨ ∃ x, dump_entries n i a m = Err (Fault x).
Proof.
  revert i. induction n as [|n IH]; intros i Hi Ha Hl; [left; intros x; lia|].
  cbn [dump_entries]. unwrap64. destruct (decide (mapped m (a + i * 8) 8)) as [Hm|Hm].
  2: { right. exists (a + i * 8). by rewrite load_fault. }
  destruct (load_total 8 m (a + i * 8) Hm) as [v ->]. cbn [mbind outcome_bind].
  destruct (IH (i + 1)) as [Hr|Hf]; [lia..| |by right]. left. intros x Hx.
  destruct (decide (x < a + i * 8 + 8)); [apply Hm|apply Hr]; lia.
Qed.

(** Consecutive 64-bit words. *)
Definition words_at (m : memory) (a : Z) (ws : list Z) : Prop :=
  ∀ i w, ws !! i = Some w → GuestMemory.load 8 m (a + 8 * Z.of_nat i) = Ok w.

Lemma words_at_cons m a w ws : words_at m a (w :: ws) →
  GuestMemory.load 8 m a = Ok w ∧ words_at m (a + 8) ws.
Proof.
  intros Hw. split; [rewrite <-(Z.add_0_r a); by apply (Hw 0%nat)|].
  intros i x Hi. replace (a + 8 + 8 * Z.of_nat i) with (a + 8 * Z.of_nat (S i)) by lia. by apply Hw.
Qed.

Definition functions (ws : list Z) : list Z := filter (λ f, 0x1000 < f) ws.

Lemma functions_cons w ws :
  (if 0x1000 <? w then w :: functions ws else functions ws) = functions (w :: ws).
Proof. unfold functions. rewrite filter_cons. destruct (Z.ltb_spec 0x1000 w); case_decide; done || lia. Qed.

(** The number of words an array of [size] bytes has, a broken one included. *)
Definition word_count (size : Z) : nat := Z.to_nat ((size + 7) / 8).

Lemma word_count_stop size i : 0 < size →
  (size <=? Z.of_nat i * 8) = bool_decide (word_count size ≤ i)%nat.
Proof.
  intros Hs. unfold word_count. apply eq_bool_prop_intro.
  rewrite bool_decide_spec, Is_true_true, Z.leb_le.
  pose proof (Z.div_mod (size + 7) 8 ltac:(lia)). pose proof (Z.mod_pos_bound (size + 7) 8 ltac:(lia)).
  lia.
Qed.

Lemma init_loop_sized n i a size ws m : 0 ≤ a → 0 < size → a + 8 * Z.of_nat (i + n) ≤ 2 ^ 63 →
  length ws = (n `min` (word_count size - i))%nat → words_at m (a + 8 * Z.of_nat i) ws →
  init_array_loop n (Z.of_nat i) a size m = Ok (functions ws).
Proof.
  intros Ha Hs. revert i ws. induction n as [|n IH]; intros i ws Hl Hlen Hws.
  { by destruct ws. }
  cbn [init_array_loop]. unwrap64. rewrite (proj2 (Z.ltb_lt 0 size)), word_count_stop by done.
  cbn [andb]. case_bool_decide as Hc.
  { by destruct ws as [|w ws]; [|cbn [length] in Hlen; lia]. }
  destruct ws as [|w ws]; [cbn [length] in Hlen; lia|]. apply words_at_cons in Hws as [Hw Hws].
  rewrite (Z.mul_comm _ 8), Hw. cbn [mbind outcome_bind].
  rewrite (proj2 (Z.eqb_neq size 0)), andb_false_r by lia.
  replace (Z.of_nat i + 1) with (Z.of_nat (S i)) by lia.
  rewrite (IH (S i) ws); [|lia|cbn [length] in Hlen; lia|].
  - cbn [mbind outcome_bind]. by rewrite functions_cons.
  - by replace (a + 8 * Z.of_nat (S i)) with (a + 8 * Z.of_nat i + 8) by lia.
Qed.

Lemma init_loop_null n i a ws m : 0 ≤ a → a + 8 * Z.of_nat (i + n) ≤ 2 ^ 63 →
  0 ∉ ws → (length ws ≤ n)%nat →
  words_at m (a + 8 * Z.of_nat i) (ws ++ (if decide (length ws < n)%nat then [0] else [])) →
  init_array_loop n (Z.of_nat i) a 0 m = Ok (functions ws).
Proof.
  intros Ha. revert i ws. induction n as [|n IH]; intros i ws Hl H0 Hlen Hws.
  { destruct ws; [done|cbn [length] in Hlen; lia]. }
  cbn [init_array_loop]. unwrap64. cbn [Z.ltb Z.compare andb]. rewrite (Z.mul_comm _ 8).
  destruct ws as [|w ws].
  { rewrite decide_True in Hws by (simpl; lia). apply words_at_cons in Hws as [-> _]. done. }
  cbn [app] in Hws. apply words_at_cons in Hws as [-> Hws]. cbn [mbind outcome_bind].
  rewrite (proj2 (Z.eqb_neq w 0)) by set_solver. cbn [andb].
  replace (Z.of_nat i + 1) with (Z.of_nat (S i)) by lia.
  rewrite (IH (S i) ws); [|lia|set_solver|cbn [length] in Hlen; lia|].
  - cbn [mbind outcome_bind]. by rewrite functions_cons.
  - replace (a + 8 * Z.of_nat (S i)) with (a + 8 * Z.of_nat i + 8) by lia.
    simpl length in Hws. by repeat case_decide; try lia.
Qed.

(** The words of a module's array, as far as the scan reads it: all words of an
    array of known size, those before the first null otherwise, at most [ROUNDS]. *)
Definition init_words (m : memory) (md : LoadedModule) (ws : list Z) : Prop :=
  if decide (init_array_addr md ≤ 0x1000) then ws = []
  else if decide (init_array_size md = 0) then
    (0 ∉ ws) ∧ (length ws ≤ ROUNDS)%nat ∧
    words_at m (init_array_addr md) (ws ++ (if decide (length ws < ROUNDS)%nat then [0] else []))
  else
    length ws = (ROUNDS `min` word_count (init_array_size md))%nat ∧
    words_at m (init_array_addr md) ws.

(** What the scan of a module may read: the dump reads 128 bytes of any array. *)
Definition dump_ok (m : memory) (md : LoadedModule) : Prop :=
  0x1000 < init_array_addr md → mapped m (init_array_addr md) 128.

#[export] Instance dump_ok_dec m md : Decision (dump_ok m md).
Proof. unfold dump_ok; apply _. Defined.

Definition array_ok (md : LoadedModule) : Prop :=
  0 ≤ init_array_addr md ≤ 2 ^ 62 ∧ 0 ≤ init_array_size md.

Lemma module_init_array_spec m md ws : array_ok md → dump_ok m md → init_words m md ws →
  module_init_array md m = Ok (functions ws).
Proof.
  unfold array_ok, dump_ok, init_words, module_init_array. intros [Ha Hs] Hd Hw.
  destruct (Z.ltb_spec 0x1000 (init_array_addr md)) as [Hlt|Hge].
  2: { rewrite decide_True in Hw by done. by subst. }
  rewrite decide_False in Hw by lia. rewrite dump_entries_mapped; [|lia..|].
  2: { eapply mapped_weaken; [by apply Hd|lia..]. }
  cbn [mbind outcome_bind]. assert (Z.of_nat ROUNDS = 10001) as HR by done. case_decide as Hz.
  - destruct Hw as (? & ? & Hw). rewrite Hz.
    apply (init_loop_null _ 0); [lia|lia|done|done|by rewrite Z.add_0_r].
  - destruct Hw as (? & Hw).
    apply (init_loop_sized _ 0); [lia|lia|lia|by rewrite Nat.sub_0_r|by rewrite Z.add_0_r].
Qed.

Lemma module_init_array_fault m md : array_ok md → ¬ dump_ok m md →
  ∃ x, module_init_array md m = Err (Fault x).
Proof.
  unfold array_ok, dump_ok, module_init_array. intros [Ha Hs] Hd.
  destruct (Z.ltb_spec 0x1000 (init_array_addr md)) as [Hlt|Hge]; [|destruct Hd; lia].
  destruct (dump_entries_fault 16 0 (init_array_addr md) m) as [Hm|[x ->]]; [lia..| |by exists x].
  destruct Hd. intros _. eapply mapped_weaken; [done|lia..].
Qed.

Lemma init_array_funcs_app ms1 ms2 m :
  init_array_funcs (ms1 ++ ms2) m =
  (f1 ← init_array_funcs ms1 m; f2 ← init_array_funcs ms2 m; mret (f1 ++ f2)).
Proof.
  induction ms1 as [|md ms1 IH]; cbn [app init_array_funcs].
  { cbn. by destruct (init_array_funcs ms2 m). }
  destruct (module_init_array md m) as [fs|h|]; cbn [mbind outcome_bind]; [|done..].
  rewrite IH. destruct (init_array_funcs ms1 m) as [f1|h|]; cbn [mbind outcome_bind]; [|done..].
  destruct (init_array_funcs ms2 m); cbn; [|done..]. by rewrite (assoc_L (++)).
Qed.

(** ** Lemmas: loading *)

Section laws.
Context {OS : Type} `{!HostOS OS, !HostOSLaws OS} `{!Bitflags, !BitflagsLaws} `{!ByteOrder, !ByteOrderLaws}.
Variable fs_read : path → outcome io_error bytes.
Variable exists_ : path → bool.

Abbreviation state := (link_state (OS:=OS)).
Definition mm (s : state) : Virtual.MemoryManager := s.1.1.2.
Definition mem (s : state) : memory := s.1.2.
Definition lk (s : state) : Linker := s.2.
Definition loaded (s : state) : list bytes := name <$> modules (lk s).

Definition region (md : LoadedModule) (x : Z) : Prop :=
  base_virtual_addr md ≤ x < base_virtual_addr md + aligned_base_size md.

(** A module's region, as one area of the manager. *)
Definition module_area (md : LoadedModule) : Virtual.VirtualMemoryArea :=
  Virtual.new_vma (base_virtual_addr md) (aligned_base_size md) RWX ANON_PRIVATE Virtual.Code
    (bytes_string (name md)).
Definition in_area (self : Virtual.MemoryManager) (md : LoadedModule) : Prop :=
  ∀ x, region md x → Virtual.entry_at self x = Some (module_area md).

Lemma in_area_keeps self self' md : Virtual.keeps self self' → in_area self md → in_area self' md.
Proof. intros Hk Hc x Hx. apply Hk; [by apply Hc|done]. Qed.

Lemma in_area_type self md x : in_area self md → region md x →
  Virtual.type_at self x = Some Virtual.Code.
Proof.
  intros Hc Hx. specialize (Hc x Hx). unfold Virtual.entry_at, Virtual.type_at in *. by rewrite Hc.
Qed.

(** The file names under which a module can be read; finitely many. *)
Variable loadable : gset bytes.

(** The files there are: what can be opened has a loadable name, and its LOAD segments
    fit their memory. *)
Definition files_ok : Prop :=
  ∀ p elf, Elf.open fs_read p = Ok elf →
    module_name p ∈ loadable ∧ segments_fit elf ∧ is_bytes (Elf.data elf).

(** A file that panics the loader: by its dynamic-library data ([Elf.parse_panics_iff])
    or by its relocation tables ([LinkerModule.parse_relocations_spec]). *)
Definition crashes (p : path) : Prop :=
  match Elf.open fs_read p with
  | Ok elf => parse_relocations elf = Panic
  | Err _ => False
  | Panic => True
  end.

(** Every module has its own name and its own region of code, mapped and disjoint
    from those of the others. *)
Record linker_inv (s : state) : Prop := {
  li_wf : Virtual.wf (mm s);
  li_bytes : mem_ok (mem s);
  li_names : NoDup (loaded s);
  li_loadable : ∀ n, n ∈ loaded s → n ∈ loadable;
  li_region md : md ∈ modules (lk s) →
    0 < aligned_base_size md < 2 ^ 63 ∧
    in_area (mm s) md ∧ mapped (mem s) (base_virtual_addr md) (aligned_base_size md);
  li_apart i j md md' x : modules (lk s) !! i = Some md → modules (lk s) !! j = Some md' →
    region md x → region md' x → i = j;
}.

(** What loading leaves alone: the modules there were, and all memory that was
    not free.  New code belongs to a module. *)
Record frame (s s' : state) : Prop := {
  fr_modules : modules (lk s) `prefix_of` modules (lk s');
  fr_symbols : hle_symbols (lk s') = hle_symbols (lk s);
  fr_memory x : Virtual.type_at (mm s) x ≠ Some Virtual.Free →
    Virtual.view (mm s') x = Virtual.view (mm s) x ∧ mem s' !! x = mem s !! x;
  fr_keeps : Virtual.keeps (mm s) (mm s');
  fr_code x : Virtual.type_at (mm s') x = Some Virtual.Code →
    Virtual.type_at (mm s) x = Some Virtual.Code ∨
    ∃ md, md ∈ modules (lk s') ∧ region md x;
}.

Lemma view_type_at self self' x : Virtual.view self' x = Virtual.view self x →
  Virtual.type_at self' x = Virtual.type_at self x.
Proof.
  intros E. destruct (Virtual.view self x) as [l|] eqn:V.
  - by rewrite (Virtual.type_at_view _ _ _ E), (Virtual.type_at_view _ _ _ V).
  - by rewrite (Virtual.type_at_view_None _ _ E), (Virtual.type_at_view_None _ _ V).
Qed.

#[local] Existing Instance Virtual.keeps_preorder.
#[local] Instance frame_preorder : PreOrder frame.
Proof.
  split; [intros s; split; [reflexivity|done|done|reflexivity|by left]|].
  intros s1 s2 s3 [Hp1 Hs1 Hm1 Hk1 Hc1] [Hp2 Hs2 Hm2 Hk2 Hc2]. split.
  - by etrans.
  - congruence.
  - intros x Hx. destruct (Hm1 x Hx) as [V1 E1].
    destruct (Hm2 x) as [V2 E2]; [by rewrite (view_type_at _ _ _ V1)|]. split; congruence.
  - by etrans.
  - intros x [Hx|?]%Hc2; [|by right]. apply Hc1 in Hx as [?|(md & Hmd & Hx)]; [by left|right].
    exists md. split; [|done]. by eapply elem_of_prefix.
Qed.

Definition missing (s : state) : nat := size (loadable ∖ list_to_set (loaded s)).

Lemma missing_frame s s' : frame s s' → (missing s' ≤ missing s)%nat.
Proof.
  intros [[l E] _ _ _ _]. unfold missing, loaded. apply subseteq_size. rewrite E, fmap_app.
  set_solver.
Qed.

Lemma loaded_count s : linker_inv s → (length (modules (lk s)) ≤ size loadable)%nat.
Proof.
  intros Hi. transitivity (size (list_to_set (loaded s) : gset bytes)).
  - rewrite size_list_to_set by apply Hi. unfold loaded. by rewrite length_fmap.
  - apply subseteq_size. intros n Hn%elem_of_list_to_set. by apply Hi.
Qed.

(** Entering a module at the end of the list. *)
Lemma inv_push sys' m' (s : state) i md : linker_inv s →
  let s1 : state := (sys', m', push_module (set_max_tls_index (lk s) i) md) in
  frame s s1 → Virtual.wf (mm s1) → name md ∈ loadable → name md ∉ loaded s →
  0 < aligned_base_size md < 2 ^ 63 →
  (∀ x, region md x → Virtual.type_at (mm s) x = Some Virtual.Free) →
  in_area (mm s1) md →
  mapped m' (base_virtual_addr md) (aligned_base_size md) →
  mem_ok m' → linker_inv s1.
Proof.
  intros Hi s1 Hf Hwf Hin Hnew Hsz Hfree Hcode Hmap Hbytes. pose proof Hi as [_ _ Hnd Hl Hr Ha].
  assert (loaded s1 = loaded s ++ [name md]) as El.
  { unfold loaded, s1. cbn. by rewrite fmap_app. }
  assert (∀ md' x, md' ∈ modules (lk s) → region md' x → ¬ region md x) as Hdisj.
  { intros md' x Hmd' Hx Hx'. destruct (Hr md' Hmd') as (_ & Hc & _).
    apply (in_area_type _ _ _ Hc) in Hx. by rewrite (Hfree x Hx') in Hx. }
  split; [done|exact Hbytes|..].
  - rewrite El. apply NoDup_app. split_and!; [done|set_solver|apply NoDup_singleton].
  - rewrite El. intros n [Hn|Hn]%elem_of_app; [by apply Hl|]. by apply list_elem_of_singleton in Hn as ->.
  - intros md' [Hmd'|Hmd']%elem_of_app; [|by apply list_elem_of_singleton in Hmd' as ->].
    destruct (Hr md' Hmd') as (? & Hc & Hm). split; [done|].
    split; [by eapply in_area_keeps; [apply Hf|]|].
    intros x Hx. destruct (fr_memory _ _ Hf x) as [_ E].
    { by rewrite (in_area_type _ _ _ Hc Hx). }
    rewrite E. by apply Hm.
  - intros i1 i2 md1 md2 x L1 L2 Hx1 Hx2. unfold s1 in L1, L2. cbn in L1, L2.
    apply lookup_snoc_Some in L1 as [[_ L1]|[-> <-]], L2 as [[_ L2]|[-> <-]].
    + by apply (Ha i1 i2 md1 md2 x).
    + destruct (Hdisj md1 x); [by eapply list_elem_of_lookup_2|done..].
    + destruct (Hdisj md2 x); [by eapply list_elem_of_lookup_2|done..].
    + done.
Qed.

(** One module: it fails and changes no module and no memory, or it is entered, or its
    file takes the loader down. *)
Definition entered (p : path) (s : state) (r : run (OS:=OS) LoadedModule) : Prop :=
  (∃ s' e, r = Some (s', Err (Failed e)) ∧ linker_inv s' ∧ frame s s' ∧
     modules (lk s') = modules (lk s) ∧ mem s' = mem s) ∨
  (crashes p ∧ ∃ s', r = Some (s', Panic)) ∨
  ∃ s' md, r = Some (s', Ok md) ∧ linker_inv s' ∧ frame s s' ∧
    modules (lk s') = modules (lk s) ++ [md] ∧ name md = module_name p ∧
    name md ∈ loadable.

(** [module_load] and [enter_module] in sequence. *)
Definition load_one (p : path) (s : state) : run LoadedModule :=
  run_bind (Some (module_load fs_read p s)) (λ md s,
  run_bind (Some (enter_module md s)) (λ _ s, Some (s, Ok md))).

Lemma set_index_inv sys' m' (s : state) i : linker_inv s → Virtual.wf sys'.2 →
  sys'.2 = mm s → m' = mem s →
  linker_inv (sys', m', set_max_tls_index (lk s) i) ∧
  frame s (sys', m', set_max_tls_index (lk s) i).
Proof.
  intros [Hwf Hby Hnd Hl Hr Ha] Hwf' V ->. split.
  - split; [exact Hwf'|exact Hby|exact Hnd|exact Hl| |exact Ha]. intros md Hmd.
    unfold mm. cbn. rewrite V. by apply Hr.
  - split; [done|done|..]; unfold mm in *; cbn; rewrite V; [done|done|]. intros x Hx. by left.
Qed.

Lemma load_one_spec p s : files_ok → linker_inv s → module_name p ∉ loaded s →
  entered p s (load_one p s).
Proof.
  intros Hfiles Hi Hnew. destruct s as [[[os self] m] lnk]. unfold load_one, module_load, entered, crashes.
  specialize (Hfiles p). destruct (Elf.open fs_read p) as [elf|e|] eqn:Eo; [|..].
  3: { right. left. split; [done|]. unfold load. rewrite Eo. by eexists. }
  2: { left. unfold load. rewrite Eo. eexists _, (ElfFailed e). split; [done|].
       destruct (set_index_inv (os, self) m (os, self, m, lnk) (max_tls_index lnk)) as [? ?];
         [done|by apply Hi|done..|]. by split_and!. }
  destruct (Hfiles elf eq_refl) as (Hin & Hfit & Hdata).
  pose proof (load_cases fs_read p os self m (max_tls_index lnk) elf (li_wf _ Hi) Eo Hfit) as Hl.
  destruct (segment_bounds _) as [lo hi].
  destruct Hl as [(os' & e & -> & _)|[[Hrs El]|(os' & self' & m' & md & -> & Hwf' & Hname & _ & _ & _ & Hsz & _ &
    (Hb & Hpos & Hlim) & Hfree & Hview & Hentry & Hkeeps & Hm & _)]].
  { left. eexists _, e. split; [done|].
    destruct (set_index_inv (os', self) m (os, self, m, lnk) (max_tls_index lnk)) as [? ?];
      [done|by apply Hi|done..|]. by split_and!. }
  { right. left. split; [done|]. destruct (load _ _ _) as [[[sys' m'] t'] x]. cbn in El. subst x.
    by eexists. }
  rewrite <-Hsz in *. unfold Virtual.VA_LIMIT in Hlim.
  set (i := if Elf.tls_header elf is Some _ then add32 (max_tls_index lnk) 1 else max_tls_index lnk).
  set (s0 := (os, self, m, lnk) : state).
  assert (in_area self' md) as Hcode.
  { intros x Hx. rewrite (Hentry x Hx). unfold module_area. by rewrite Hname. }
  assert (mapped m' (base_virtual_addr md) (aligned_base_size md)) as Hmap.
  { intros x Hx. rewrite Hm. case_range; [by eexists|done]. }
  assert (mem_ok m') as Hbytes.
  { intros x b. rewrite Hm. case_range; [intros [= <-]|by apply (li_bytes _ Hi)].
    destruct (image _ _ _ _ _ _) eqn:Ei; [by eapply image_bytes|done]. }
  assert (∀ m2, (∀ x, ¬ region md x → m2 !! x = m' !! x) → mem_ok m2 →
    mapped m2 (base_virtual_addr md) (aligned_base_size md) →
    let s2 : state := ((os', self'), m2, push_module (set_max_tls_index lnk i) md) in
    linker_inv s2 ∧ frame s0 s2) as Hdone.
  { intros m2 Hm2 Hby2 Hmap2 s2. assert (frame s0 s2) as Hf.
    { split; [by eexists|done|..].
      - intros x Hx. assert (¬ region md x) as Hn by by intros ?%Hfree.
        cbn. rewrite Hm2 by done. rewrite Hview, Hm. unfold region in Hn. by case_range.
      - exact Hkeeps.
      - intros x Hx. specialize (Hview x). revert Hview. case_range; intros Hview.
        + right. exists md. split; [|done]. unfold s2. cbn. set_solver.
        + left. apply view_type_at in Hview. exact (eq_trans (eq_sym Hview) Hx). }
    split; [|exact Hf]. apply (inv_push (os', self') m2 s0 i md); try done; [by rewrite Hname..|lia]. }
  cbn [run_bind]. unfold enter_module. right. right.
  case_bool_decide as Heboot.
  - destruct (patch_traps_Ok (base_virtual_addr md) (aligned_base_size md) m')
      as (m2 & c & Ep & Hp); [lia|done|]. rewrite Ep.
    destruct (Hdone m2) as [Hi2 Hf2].
    { intros x Hx. by eapply traps_patched_outside. }
    { by eapply patch_traps_bytes. }
    { eapply traps_patched_mapped; [done|by rewrite Z.add_simpl_l|done]. }
    eexists _, md. split; [done|]. split_and!; [done|done|done|done|by rewrite Hname].
  - destruct (Hdone m') as [Hi2 Hf2]; [done..|].
    eexists _, md. split; [done|]. split_and!; [done|done|done|done|by rewrite Hname].
Qed.

(** The outcomes of [load_module]: never a fault, and a panic only by a file that
    takes the loader down. *)
Definition linked (p : path) (s : state) (r : run (OS:=OS) Z) : Prop :=
  ∃ s' res, r = Some (s', res) ∧
    match res with
    | Ok index => linker_inv s' ∧ frame s s' ∧
        ∃ md, modules (lk s') !! Z.to_nat index = Some md ∧ name md = module_name p
    | Err (Failed _) => linker_inv s' ∧ frame s s' ∧
        modules (lk s') = modules (lk s) ∧ mem s' = mem s
    | Err (Faulted _) => False
    | Panic => ∃ q, crashes q
    end.

(** The same, for the loop over the dependencies. *)
Definition deps_linked (s : state) (r : run (OS:=OS) unit) : Prop :=
  (∃ s', r = Some (s', Ok tt) ∧ linker_inv s' ∧ frame s s') ∨
  (∃ s' q, r = Some (s', Panic) ∧ crashes q).

Lemma load_deps_spec f parent_dir deps s : linker_inv s →
  (∀ p s', linker_inv s' → frame s s' → linked p s' (f p s')) →
  deps_linked s (load_deps exists_ f parent_dir deps s).
Proof.
  revert s. induction deps as [|dep deps IH]; intros s Hi Hf; [left; by exists s|]. cbn [load_deps].
  assert (∀ p, deps_linked s (ignore_error (f p s))) as Hone.
  { intros p. destruct (Hf p s Hi) as (s1 & res & -> & Hres); [done|].
    destruct res as [i|[e|h]|]; [left; exists s1; by destruct Hres as (? & ? & _)..|done|].
    right. destruct Hres as [q Hq]. by exists s1, q. }
  assert (∀ r, deps_linked s r →
    deps_linked s (run_bind r (λ _ s1, load_deps exists_ f parent_dir deps s1))) as Hrest.
  { intros r [(s1 & -> & Hi1 & Hf1)|(s1 & q & -> & Hq)]; [|right; by exists s1, q]. cbn [run_bind].
    destruct (IH s1 Hi1) as [(s' & -> & Hi' & Hf')|(s' & q & -> & Hq)]; [| |right; by exists s', q].
    - intros p s' ? ?. apply Hf; [done|by etrans].
    - left. exists s'. split_and!; [done|done|by etrans]. }
  apply Hrest. destruct (exists_ _); [apply Hone|]. destruct (exists_ _); [apply Hone|].
  left. by exists s.
Qed.

Lemma load_deps_mono (f g : path → state → run (OS:=OS) Z) parent_dir deps s r :
  (∀ p s r, f p s = Some r → g p s = Some r) →
  load_deps exists_ f parent_dir deps s = Some r → load_deps exists_ g parent_dir deps s = Some r.
Proof.
  intros Hfg. assert (∀ p s r, ignore_error (f p s) = Some r → ignore_error (g p s) = Some r) as Hone.
  { intros p s1 r1. destruct (f p s1) as [[s2 res]|] eqn:E; [|done]. by rewrite (Hfg _ _ _ E). }
  revert s. induction deps as [|dep deps IH]; intros s; [done|]. cbn [load_deps].
  unfold run_bind. intros E. case_match eqn:E1; [|done].
  assert (∀ q, ignore_error (f q s) = Some p → ignore_error (g q s) = Some p) as Hq by auto.
  assert ((if exists_ (join parent_dir dep) then ignore_error (g (join parent_dir dep) s)
    else if exists_ (join (join parent_dir (str "sce_module")) dep)
      then ignore_error (g (join (join parent_dir (str "sce_module")) dep) s)
      else Some (s, Ok tt)) = Some p) as ->.
  { destruct (exists_ _); [by apply Hq|]. destruct (exists_ _); [by apply Hq|done]. }
  destruct p as [s1 [[]|e|]]; [by apply IH|done..].
Qed.

Lemma needed_modules_Ok elf : ∃ deps, Elf.needed_modules elf = Ok deps.
Proof. eexists. apply Elf.needed_loop_Ok. Qed.

Lemma load_module_step fuel p (s : state) : position (modules (lk s)) (module_name p) = None →
  load_module fs_read exists_ (S fuel) p s =
  run_bind (load_one p s) (λ md s1,
    let index := wrap 32 (blen (modules (lk s1)) - 1) in
    run_bind (load_deps exists_ (load_module fs_read exists_ fuel) (parent_or_empty p)
                (default [] (match Elf.needed_modules (elf_of md) with Ok l => Some l | _ => None end)) s1)
      (λ _ s2, Some (s2, Ok index))).
Proof.
  intros Hpos. cbn [load_module]. fold (lk s). rewrite Hpos. unfold load_one. cbn [run_bind].
  destruct (module_load fs_read p s) as [s1 [md|e|]]; [|done..]. cbn [run_bind].
  destruct (needed_modules_Ok (elf_of md)) as [deps Hd]; rewrite Hd. cbn [default from_option].
  unfold enter_module. destruct s1 as [[sys m] lnk].
  assert (∀ m' : memory, wrap 32 (blen (modules (lk (sys, m', push_module lnk md))) - 1) =
    wrap 32 (blen (modules lnk))) as Hidx.
  { intros m'. f_equal. cbn. rewrite length_app. simpl. lia. }
  case_bool_decide; [destruct (patch_traps _ _ _) as [[m' c]|h|]; [|done..]|]; cbn [run_bind].
  all: by rewrite Hidx, Hd.
Qed.

Lemma load_module_mono fuel p (s : state) r :
  load_module fs_read exists_ fuel p s = Some r →
  load_module fs_read exists_ (S fuel) p s = Some r.
Proof.
  revert p s r. induction fuel as [|fuel IH]; intros p s r; [done|].
  destruct (position (modules (lk s)) (module_name p)) as [idx|] eqn:Hpos.
  { cbn [load_module]. fold (lk s). by rewrite Hpos. }
  rewrite !load_module_step by done. destruct (load_one p s) as [[s1 [md|e|]]|]; try done.
  cbn [run_bind]. unfold run_bind at 1. case_match eqn:E; [|done].
  by rewrite (load_deps_mono _ _ _ _ _ _ IH E).
Qed.

Lemma position_None (s : state) n : position (modules (lk s)) n = None → n ∉ loaded s.
Proof.
  unfold position, loaded. intros Hp. apply fmap_None in Hp. apply list_find_None in Hp.
  intros (md & -> & Hmd)%list_elem_of_fmap. rewrite Forall_forall in Hp. by apply (Hp md).
Qed.

Lemma load_module_linked fuel p (s : state) : files_ok → Z.of_nat (size loadable) < 2 ^ 32 →
  linker_inv s → (missing s < fuel)%nat → linked p s (load_module fs_read exists_ fuel p s).
Proof.
  intros Hfiles Hsize. revert p s. induction fuel as [|fuel IH]; intros p s Hi Hf; [lia|].
  destruct (position (modules (lk s)) (module_name p)) as [idx|] eqn:Hpos.
  { cbn [load_module]. fold (lk s). rewrite Hpos. exists s, (Ok (wrap 32 (Z.of_nat idx))).
    split; [done|]. cbv iota beta. split; [done|]. split; [done|]. unfold position in Hpos. apply fmap_Some in Hpos as ([k md] & Hl & ->).
    apply list_find_Some in Hl as (Hk & Hn & _). exists md. split; [|done]. cbn [fst].
    pose proof (lookup_lt_Some _ _ _ Hk). pose proof (loaded_count s Hi).
    rewrite wrap_small by (unfold in_u; lia). by rewrite Nat2Z.id. }
  rewrite load_module_step by done. pose proof (position_None _ _ Hpos) as Hnew.
  destruct (load_one_spec p s Hfiles Hi Hnew)
    as [(s1 & e & -> & ? & ? & ? & ?)|[(Hc & s1 & ->)|(s1 & md & -> & Hi1 & Hf1 & Hmods & Hname & Hin)]].
  { by exists s1, (Err (Failed e)). }
  { exists s1, Panic. split; [done|]. by exists p. }
  cbn [run_bind].
  assert (missing s1 < fuel)%nat as Hm1.
  { assert (missing s1 < missing s)%nat; [|lia]. unfold missing. apply subset_size.
    unfold loaded. rewrite Hmods, fmap_app. rewrite <-Hname in Hnew. unfold loaded in Hnew. set_solver. }
  destruct (load_deps_spec (load_module fs_read exists_ fuel) (parent_or_empty p)
    (default [] (match Elf.needed_modules (elf_of md) with Ok l => Some l | _ => None end)) s1 Hi1)
    as [(s2 & -> & Hi2 & Hf2)|(s2 & q & -> & Hq)].
  { intros q s' Hi' Hf'. apply IH; [done|]. pose proof (missing_frame _ _ Hf'). lia. }
  2: { exists s2, Panic. split; [done|]. by exists q. }
  cbn [run_bind]. eexists s2, _. split; [done|]. cbv iota beta. split; [done|]. split; [by etrans|].
  pose proof (loaded_count s1 Hi1) as Hc. rewrite Hmods, length_app in *. cbn [length] in *.
  rewrite wrap_small by (unfold in_u; lia). exists md. split; [|by rewrite Hname].
  eapply prefix_lookup_Some; [|apply Hf2]. rewrite Hmods.
  replace (Z.to_nat _) with (length (modules (lk s))) by lia. apply list_lookup_middle. done.
Qed.

(** Loading the first module: it is the main one. *)
Lemma load_main_module fuel p (s : state) : files_ok → Z.of_nat (size loadable) < 2 ^ 32 →
  linker_inv s → modules (lk s) = [] → (size loadable < fuel)%nat →
  ∃ s' r, load_module fs_read exists_ fuel p s = Some (s', r) ∧
    match r with
    | Ok _ => linker_inv s' ∧ frame s s' ∧
        ∃ md, main_module (lk s') = Some md ∧ name md = module_name p
    | Err (Failed _) => modules (lk s') = []
    | Err (Faulted _) => False
    | Panic => ∃ q, crashes q
    end.
Proof.
  intros Hfiles Hsize Hi Hnil Hfuel. destruct fuel as [|fuel]; [lia|].
  assert (loaded s = []) as Hl by (unfold loaded; by rewrite Hnil).
  rewrite load_module_step by (by rewrite Hnil).
  destruct (load_one_spec p s Hfiles Hi)
    as [(s1 & e & -> & ? & ? & Hm & _)|[(Hc & s1 & ->)|(s1 & md & -> & Hi1 & Hf1 & Hmods & Hname & Hin)]].
  { rewrite Hl. by intros ?%elem_of_nil. }
  { exists s1, (Err (Failed e)). by rewrite Hm. }
  { exists s1, Panic. split; [done|]. by exists p. }
  rewrite Hnil in Hmods. cbn [run_bind app] in *.
  destruct (load_deps_spec (load_module fs_read exists_ fuel) (parent_or_empty p)
    (default [] (match Elf.needed_modules (elf_of md) with Ok l => Some l | _ => None end)) s1 Hi1)
    as [(s2 & -> & Hi2 & Hf2)|(s2 & q & -> & Hq)].
  3: { exists s2, Panic. split; [done|]. by exists q. }
  { intros q s' Hi' Hf'. apply load_module_linked; [done..|].
    assert (missing s' < size loadable)%nat; [|lia].
    apply Nat.le_lt_trans with (missing s1); [by apply missing_frame|].
    unfold missing. apply subset_size. unfold loaded. rewrite Hmods. cbn. rewrite Hname in Hin. set_solver. }
  cbn [run_bind]. eexists s2, _. split; [done|]. cbv iota beta. split; [done|]. split; [by etrans|].
  exists md. split; [|done]. destruct (fr_modules _ _ Hf2) as [l E]. unfold main_module.
  by rewrite E, Hmods.
Qed.

(** ** Properties *)

(** C8: loading a module with its dependencies terminates, whatever cycles the
    dependencies form: as many levels as there are loadable names that are not
    loaded yet, and one, are enough, and more make no difference.  Where the LOAD
    segments of the files fit their memory it never faults, and it panics only if there
    is a file whose dynamic-library data or relocation tables make the loader panic; a
    dependency that cannot be loaded does not stop its dependent.  Otherwise
    every module keeps its own name, its own mapped region of code, and its index;
    modules loaded before, and all memory that was not free, are unchanged; the
    result is the index of the module with the requested file name, or the error of
    the requested file itself, and then no module has been added. *)
Theorem load_module_spec fuel p (s : state) : files_ok → Z.of_nat (size loadable) < 2 ^ 32 →
  linker_inv s → (missing s < fuel)%nat →
  linked p s (load_module fs_read exists_ fuel p s) ∧
  ∀ fuel', (fuel ≤ fuel')%nat →
    load_module fs_read exists_ fuel' p s = load_module fs_read exists_ fuel p s.
Proof.
  intros Hfiles Hsize Hi Hf. pose proof (load_module_linked fuel p s Hfiles Hsize Hi Hf) as Hl.
  split; [done|]. destruct Hl as (s' & res & E & _). rewrite E.
  intros fuel' Hle. induction Hle as [|fuel' _ IH]; [done|]. by apply load_module_mono.
Qed.

End laws.

(** C9: relocating the loaded modules, in mapped memory and with an initialised
    stub allocator, never faults: afterwards every target that no later relocation
    overlaps holds its word: base plus addend, the address of the import plus
    addend, or module index 1; an import without a registered symbol leads to a stub
    that carries its readable name (to address 0 once all stubs are used up);
    stubs handed out before keep their slots; memory outside the targets is
    unchanged, and relocations of other types do nothing. *)
Theorem relocate_all_spec `{Symbols.HashOrder} (self : Linker) m alloc :
  Stubs.alloc_wf alloc →
  (∀ base r, (base, r) ∈ Relocation.all_relocations (modules self) →
     Relocation.has_target r = true → mapped m (Relocation.target base r) 8) →
  ∃ m' alloc', relocate_all self (m, Some alloc) = ((m', Some alloc'), Ok tt) ∧
    Stubs.alloc_wf alloc' ∧ Relocation.extends alloc alloc' ∧
    (∀ x, (∀ base r, (base, r) ∈ Relocation.all_relocations (modules self) →
             Relocation.has_target r = true →
             ¬ Relocation.target base r ≤ x < Relocation.target base r + 8) →
       m' !! x = m !! x) ∧
    ∀ l1 base r l2, Relocation.all_relocations (modules self) = l1 ++ (base, r) :: l2 →
      Relocation.has_target r = true →
      (∀ base' r', (base', r') ∈ l2 → Relocation.has_target r' = true →
         Relocation.apart (Relocation.target base r) (Relocation.target base' r')) →
      ∃ v, Relocation.reloc_value (hle_symbols self) alloc' base r v ∧
        GuestMemory.load 8 m' (Relocation.target base r) = Ok v.
Proof.
  intros Hwf Hm. unfold relocate_all. rewrite Relocation.relocate_modules_list.
  by apply Relocation.relocate_list_spec.
Qed.

(** C36: the scan of a mapped code region ends within its bound, and rewrites
    exactly the assertion traps (85 C0 75 02 CD 41) that lie in the region into
    [mov eax, 10; nop]: no trap is left, whatever the order in which the scan finds
    them, and no byte outside a trap changes. *)
Theorem patch_traps_spec base size m : 0 ≤ size < 2 ^ 63 → mapped m base size →
  ∃ m' patched, patch_traps base size m = Ok (m', patched) ∧
    (∀ y, base ≤ y → y + 6 ≤ base + size → trap_at m y → bytes_at NO_TRAP m' y) ∧
    (∀ y, base ≤ y → y + 6 ≤ base + size → ¬ trap_at m' y) ∧
    (∀ x, (∀ y, base ≤ y → y + 6 ≤ base + size → trap_at m y → ¬ y ≤ x < y + 6) →
       m' !! x = m !! x).
Proof.
  intros Hs Hm. destruct (patch_traps_Ok base size m Hs Hm) as (m' & c & E & Hp).
  exists m', c. split; [done|]. split; [apply Hp|]. split; [|apply Hp].
  intros y. by eapply traps_patched_none.
Qed.

(** C37: the initialisers collected are, module by module, the words of its array
    above 0x1000: an array of known size contributes all its words (a broken one at
    the end included), one of unknown size those before the first null, and no array
    more than 10001 words.  The dump for the log, which comes first, reads 128 bytes
    of every array: where an array ends earlier in memory, the scan faults although
    the array itself is readable. *)
Theorem get_init_array_funcs_spec self m wss :
  Forall array_ok (modules self) → Forall2 (init_words m) (modules self) wss →
  (Forall (dump_ok m) (modules self) →
     get_init_array_funcs self m = Ok (functions (concat wss))) ∧
  (¬ Forall (dump_ok m) (modules self) → ∃ x, get_init_array_funcs self m = Err (Fault x)).
Proof.
  unfold get_init_array_funcs. intros Hok Hws. split.
  - intros Hd. induction Hws as [|md ws ms wss Hmd Hws IH]; [done|].
    apply Forall_cons in Hok as [? Hok], Hd as [? Hd]. cbn [init_array_funcs].
    rewrite (module_init_array_spec _ _ ws) by done. cbn [mbind outcome_bind].
    rewrite IH by done. cbn. unfold functions. by rewrite filter_app.
  - induction Hws as [|md ws ms wss Hmd Hws IH]; intros Hd; [by destruct Hd|].
    apply Forall_cons in Hok as [? Hok]. cbn [init_array_funcs].
    destruct (decide (dump_ok m md)) as [Hmd'|Hmd'].
    + rewrite (module_init_array_spec _ _ ws) by done. cbn [mbind outcome_bind].
      destruct IH as [x ->]; [done| |by exists x]. intros Hds. apply Hd. by constructor.
    + destruct (module_init_array_fault m md) as [x ->]; [done..|]. by exists x.
Qed.

(** ** Witnesses *)

#[local] Existing Instances byteorder_impl byteorder_impl_laws
  bitflags_impl bitflags_impl_laws ToyOS.toy_os ToyOS.toy_os_laws.

(** A directory with an executable that needs a library, and the library. *)
Definition app_fs (p : path) : outcome io_error bytes :=
  if decide (module_name p = str "eboot.bin") then Ok Elf.sample_file
  else if decide (module_name p = str "libc.prx") then Ok sample_module
  else Err UnexpectedEof.
Definition app_names : gset bytes := {[ str "eboot.bin"; str "libc.prx" ]}.
Definition app_start : link_state := ((ToyOS.boot, Virtual.small_mm), ∅, Linker_new).

Definition file_good (r : outcome Elf.ElfError Elf.Elf) : bool :=
  if r is Ok elf then bool_decide (segments_fit elf ∧ is_bytes (Elf.data elf)) else false.

Lemma file_good_spec r : file_good r = true →
  ∃ elf, r = Ok elf ∧ segments_fit elf ∧ is_bytes (Elf.data elf).
Proof.
  destruct r as [elf|e|]; cbn [file_good]; [|done..].
  intros Hf%bool_decide_eq_true_1. by exists elf.
Qed.

Lemma app_files_ok : files_ok app_fs app_names.
Proof.
  intros p elf0. unfold app_fs, Elf.open. case_decide as H1; [|case_decide as H2; [|done]].
  - assert (file_good (Elf.parse Elf.sample_file) = true) as Hg by (vm_compute; reflexivity).
    apply file_good_spec in Hg as (elf & E & Hf & Hd). cbn [map_err mbind outcome_bind].
    rewrite E, H1. intros [= <-]. split; [|exact (conj Hf Hd)]. unfold app_names. set_solver.
  - assert (file_good (Elf.parse sample_module) = true) as Hg by (vm_compute; reflexivity).
    apply file_good_spec in Hg as (elf & E & Hf & Hd). cbn [map_err mbind outcome_bind].
    rewrite E, H2. intros [= <-]. split; [|exact (conj Hf Hd)]. unfold app_names. set_solver.
Qed.

Lemma app_start_inv : linker_inv app_names app_start.
Proof.
  split; cbn.
  - apply Virtual.small_mm_wf.
  - apply map_Forall_empty.
  - constructor.
  - by intros n ?%elem_of_nil.
  - by intros md ?%elem_of_nil.
  - done.
Qed.

(** The executable needs the library: both are loaded, in this order. *)
Lemma load_module_spec_witness :
  ∃ s', load_module app_fs (λ _, true) 3 (from_bytes (str "/app0/eboot.bin")) app_start =
      Some (s', Ok 0) ∧
    linker_inv app_names s' ∧ loaded s' = [str "eboot.bin"; str "libc.prx"].
Proof.
  destruct (load_module_spec app_fs (λ _, true) app_names 3 (from_bytes (str "/app0/eboot.bin"))
    app_start app_files_ok) as [(s' & res & E & Hi) _];
    [by vm_compute|exact app_start_inv|by apply (bool_decide_eq_true_1 _); vm_compute|].
  assert ((λ r, (r.2, loaded r.1)) <$>
    load_module app_fs (λ _, true) 3 (from_bytes (str "/app0/eboot.bin")) app_start =
    Some (Ok 0, [str "eboot.bin"; str "libc.prx"])) as Hv by (vm_compute; reflexivity).
  rewrite E in Hv. injection Hv as -> Hl. exists s'. split; [exact E|]. split; [exact (proj1 Hi)|exact Hl].
Defined.

(** A module at 0x10000 with the relocations of the sample file, and [funcs] as
    its array of initialisers. *)
Definition sample_md (rs : list ParsedRelocation) (array size : Z) : LoadedModule :=
  {| name := str "eboot.bin"; file := sample_path; elf_of := sample_elf;
     base_virtual_addr := 0x10000; aligned_base_size := 0x200; proc_param_addr := 0;
     eh_frame_hdr_addr := 0; eh_frame_hdr_size := 0; relocations := rs; tls_index := 0;
     tls_image_addr := 0; tls_image_size := 0; tls_size := 0; tls_align := 0; min_addr := 0x1000;
     init_array_addr := array; init_array_size := size; init_addr := 0 |}.

Definition zeros : memory := map_zeros 0x10000 0x200 ∅.

Definition sample_linker (md : LoadedModule) : Linker := push_module Linker_new md.

Definition sample_relocs : list ParsedRelocation :=
  (reloc_view sample_elf sample_syms false <$> sample_rels) ++
  (reloc_view sample_elf sample_syms true <$> sample_jmps).

Definition new_stubs : Stubs.StubAllocator :=
  {| Stubs.base := 0x200000; Stubs.used := 0; Stubs.names := [] |}.

#[local] Instance sorted_order : Symbols.HashOrder := map_to_list.

(** A statement about every relocation, as a decidable one. *)
Lemma all_pairs (P : VAddr → ParsedRelocation → Prop) l :
  Forall (λ q, P q.1 q.2) l → ∀ base r, (base, r) ∈ l → P base r.
Proof. intros Hl base r Hin. rewrite Forall_forall in Hl. by apply (Hl (base, r)). Qed.

(** The second relocation refers to an import nobody provides, and gets the
    first stub; the last has no symbol. *)
Lemma relocate_all_spec_witness : ∃ m' alloc',
  relocate_all (sample_linker (sample_md sample_relocs 0 0)) (zeros, Some new_stubs) =
    ((m', Some alloc'), Ok tt) ∧
  GuestMemory.load 8 m' 0x10100 = Ok 0x10020 ∧ m' !! 0x10118 = Some 0 ∧
  Stubs.names alloc' = [str "memset"].
Proof.
  destruct (relocate_all_spec (sample_linker (sample_md sample_relocs 0 0)) zeros new_stubs)
    as (m' & alloc' & E & _ & _ & Hout & Hin).
  { by apply (bool_decide_eq_true_1 _); vm_compute. }
  { apply (all_pairs (λ b r, Relocation.has_target r = true → mapped zeros (Relocation.target b r) 8)).
    apply (bool_decide_eq_true_1 _). vm_compute. reflexivity. }
  assert ((λ g, Stubs.names <$> g) (relocate_all (sample_linker (sample_md sample_relocs 0 0))
    (zeros, Some new_stubs)).1.2 = Some [str "memset"]) as Hn by (vm_compute; reflexivity).
  rewrite E in Hn. injection Hn as Hn. exists m', alloc'. split; [exact E|].
  split; [|split; [|exact Hn]].
  - set (l := Relocation.all_relocations (modules (sample_linker (sample_md sample_relocs 0 0)))) in *.
    destruct (Hin [] 0x10000 (reloc_view sample_elf sample_syms false
      {| Elf.r_offset := 0x100; Elf.r_info := Elf.R_X86_64_RELATIVE; Elf.r_addend := 0x20 |})
      (tail l)) as (v & Hv & Hl).
    { vm_compute. reflexivity. }
    { vm_compute. reflexivity. }
    { apply (all_pairs (λ b r, Relocation.has_target r = true →
        Relocation.apart 0x10100 (Relocation.target b r))).
      apply (bool_decide_eq_true_1 _). vm_compute. reflexivity. }
    change (Relocation.target _ _) with 0x10100 in Hl. rewrite Hl.
    change (v = 0x10020) in Hv. by rewrite Hv.
  - rewrite Hout; [vm_compute; reflexivity|].
    apply (all_pairs (λ b r, Relocation.has_target r = true →
      ¬ Relocation.target b r ≤ 0x10118 < Relocation.target b r + 8)).
    apply (bool_decide_eq_true_1 _). vm_compute. reflexivity.
Defined.

(** The code of the sample file has a trap at its third byte. *)
Lemma patch_traps_spec_witness : ∃ m' patched,
  patch_traps 0x10000 0x200 (write_bytes sample_code 0x10000 zeros) = Ok (m', patched) ∧
  bytes_at NO_TRAP m' 0x10002 ∧ m' !! 0x10008 = Some 0xC3.
Proof.
  destruct (patch_traps_spec 0x10000 0x200 (write_bytes sample_code 0x10000 zeros))
    as (m' & c & E & Hhit & _ & Hrest).
  { lia. }
  { apply (bool_decide_eq_true_1 _). vm_compute. reflexivity. }
  exists m', c. split; [exact E|]. split.
  - apply Hhit; [lia|lia|]. apply (bool_decide_eq_true_1 _). vm_compute. reflexivity.
  - rewrite Hrest; [vm_compute; reflexivity|]. intros y Hlo Hhi Ht Hy.
    assert (Forall (λ y, ¬ trap_at (write_bytes sample_code 0x10000 zeros) y)
      [0x10003; 0x10004; 0x10005; 0x10006; 0x10007; 0x10008]) as Hall
      by (apply (bool_decide_eq_true_1 _); vm_compute; reflexivity).
    rewrite Forall_forall in Hall. apply (Hall y); [|exact Ht].
    rewrite !elem_of_cons. lia.
Defined.

(** Two initialisers and a small word in an array of known size; its memory ends
    before that of the dump, unless the array is moved down. *)
Definition array_memory : memory :=
  write_bytes (le_encode 8 0x10040 ++ le_encode 8 1 ++ le_encode 8 0x10080) 0x10100 zeros.

Lemma get_init_array_funcs_spec_witness :
  get_init_array_funcs (sample_linker (sample_md [] 0x10100 24)) array_memory =
    Ok [0x10040; 0x10080] ∧
  ∃ x, get_init_array_funcs (sample_linker (sample_md [] 0x101E8 24)) array_memory = Err (Fault x).
Proof.
  split.
  - apply (get_init_array_funcs_spec _ _ [[0x10040; 1; 0x10080]]).
    + apply (bool_decide_eq_true_1 _). vm_compute. reflexivity.
    + constructor; [|constructor]. unfold init_words. cbn -[ROUNDS]. split; [done|].
      intros [|[|[|i]]] w Hw; [injection Hw as <-; vm_compute; reflexivity..|done].
    + apply (bool_decide_eq_true_1 _). vm_compute. reflexivity.
  - apply (get_init_array_funcs_spec _ _ [[0; 0; 0]]).
    + apply (bool_decide_eq_true_1 _). vm_compute. reflexivity.
    + constructor; [|constructor]. unfold init_words. cbn -[ROUNDS]. split; [done|].
      intros [|[|[|i]]] w Hw; [injection Hw as <-; vm_compute; reflexivity..|done].
    + apply (bool_decide_eq_true_1 _). vm_compute. reflexivity.
Defined.

End Linker.
