(* ===== verification/Exports.v ===== *)
(** * The export dispatcher (hle/exports.rs): interface

    A trapped call reaches the emulated function by name, with the registers the
    System V calling convention passes arguments in.  The interface is a class: the
    trap dispatcher is proved against it. *)

From S2P Require Import Prelude Bytes GuestMemory.

Open Scope rust_scope.

Record export_args := {
  rdi : Z; rsi : Z; rdx : Z; rcx : Z; r8 : Z; r9 : Z;
  stack_arg7 : Z; xmm0_bits : Z; xmm1_bits : Z;
}.

(** [W] is the state of the emulated libraries. *)
Class ExportDispatcher (W : Type) :=
  hle_export_dispatcher : bytes → export_args → st (memory * W) halt Z.

Definition float_functions : list bytes :=
  str <$> ["sinf"; "tanf"; "asinf"; "acosf"; "cosf"; "sqrtf"; "atan2f"; "floorf"; "ceilf";
           "fabsf"; "fmodf"]%string.

Definition is_float_function (name : bytes) : bool := bool_decide (name ∈ float_functions).
