(* ===== verification/Libc.v ===== *)
(** * C library calls on guest memory (hle/exports.rs)

    The handlers of the memory and string functions, as functions of the registers
    and of guest memory.  A C string is read up to its terminator; a load or store
    of an unmapped byte is a fault.  The ranges [memcpy] is given must not overlap
    (as [ptr::copy_nonoverlapping] requires): the source is read first. *)

From S2P Require Import Prelude Bytes GuestMemory Exports.

Open Scope rust_scope.

Module Libc.

Definition call : Type := export_args → memory → outcome halt (memory * Z).

Definition load_n (m : memory) (a n : Z) : outcome halt bytes :=
  ok_or (load_bytes m a (Z.to_nat n)) (Fault a).
Definition store_n (m : memory) (a : Z) (bs : bytes) : outcome halt memory :=
  ok_or (store_bytes m a bs) (Fault a).

(** [CStr::from_ptr]: the bytes before the terminator.  Every round reads another
    mapped byte, so [S (size m)] rounds are enough. *)
Fixpoint scan_c_str (fuel : nat) (m : memory) (a : Z) : outcome halt bytes :=
  match fuel with
  | O => Panic
  | S fuel' =>
      c ← load 1 m a;
      if c =? 0 then mret []
      else cs ← scan_c_str fuel' m (a + 1); mret (c :: cs)
  end.

Definition c_str (m : memory) (a : Z) : outcome halt bytes := scan_c_str (S (size m)) m a.

(** *** Guards of static variables *)

Definition cxa_guard_acquire : call := λ args m,
  let guard_ptr := rdi args in
  if negb (guard_ptr =? 0) then
    val ← load 8 m guard_ptr;
    if val =? 0 then m ← store 8 m guard_ptr 1; mret (m, 1) else mret (m, 0)
  else mret (m, 0).

Definition cxa_guard_release : call := λ args m,
  let guard_ptr := rdi args in
  if negb (guard_ptr =? 0) then m ← store 1 m guard_ptr 1; mret (m, 0) else mret (m, 0).

(** *** Memory *)

Definition memcpy : call := λ args m,
  let dst := rdi args in let src := rsi args in let n := rdx args in
  if negb (dst =? 0) && negb (src =? 0) && (0 <? n) then
    bs ← load_n m src n;
    m ← store_n m dst bs;
    mret (m, dst)
  else mret (m, dst).

Definition memset : call := λ args m,
  let dst := rdi args in let val := wrap 8 (rsi args) in let n := rdx args in
  if negb (dst =? 0) && (0 <? n) then
    m ← store_n m dst (replicate (Z.to_nat n) val);
    mret (m, dst)
  else mret (m, dst).

(** [libc::memcmp]: of its result only the sign is documented. *)
Class MemCmp := memcmp_i32 : bytes → bytes → Z.

Definition memcmp `{MemCmp} : call := λ args m,
  let s1 := rdi args in let s2 := rsi args in let n := rdx args in
  if n =? 0 then mret (m, 0)
  else if (s1 =? 0) || (s2 =? 0) then mret (m, 1)
  else
    b1 ← load_n m s1 n;
    b2 ← load_n m s2 n;
    mret (m, wrap 64 (memcmp_i32 b1 b2)).

(** *** Strings *)

(** The safety limit of the copying loops. *)
Definition LIMIT : Z := 0x100000.

(** The loop of [strcpy]; [rounds] is what the limit leaves. *)
Fixpoint copy_str (rounds : nat) (src dst i : Z) (m : memory) : outcome halt memory :=
  match rounds with
  | O => mret m
  | S rounds' =>
      c ← load 1 m (src + i);
      m ← store 1 m (dst + i) c;
      if c =? 0 then mret m else copy_str rounds' src dst (i + 1) m
  end.

Definition ROUNDS : nat := Z.to_nat (LIMIT + 1).

Definition strcpy : call := λ args m,
  let dst := rdi args in let src := rsi args in
  if negb (dst =? 0) && negb (src =? 0) then
    m ← copy_str ROUNDS src dst 0 m; mret (m, dst)
  else mret (m, dst).

Definition strlen : call := λ args m,
  let s := rdi args in
  if s =? 0 then mret (m, 0) else cs ← c_str m s; mret (m, blen cs).

(** [CStr::cmp]: the bytes in lexicographic order. *)
Fixpoint bytes_cmp (b1 b2 : bytes) : comparison :=
  match b1, b2 with
  | [], [] => Eq
  | [], _ :: _ => Lt
  | _ :: _, [] => Gt
  | x :: b1', y :: b2' =>
      match x ?= y with Eq => bytes_cmp b1' b2' | c => c end
  end.

Definition strcmp : call := λ args m,
  let s1 := rdi args in let s2 := rsi args in
  if (s1 =? 0) || (s2 =? 0) then mret (m, if s1 =? s2 then 0 else 1)
  else
    c1 ← c_str m s1;
    c2 ← c_str m s2;
    mret (m, match bytes_cmp c1 c2 with Eq => 0 | Lt => wrap 64 (-1) | Gt => 1 end).

(** [while *dst.add(i) != 0]: [None] when the limit is reached. *)
Fixpoint find_end (rounds : nat) (dst i : Z) (m : memory) : outcome halt (option Z) :=
  match rounds with
  | O => mret None
  | S rounds' =>
      c ← load 1 m (dst + i);
      if c =? 0 then mret (Some i) else find_end rounds' dst (i + 1) m
  end.

Definition strcat : call := λ args m,
  let dst := rdi args in let src := rsi args in
  if negb (dst =? 0) && negb (src =? 0) then
    e ← find_end ROUNDS dst 0 m;
    match e with
    | None => mret (m, dst)
    | Some i => m ← copy_str ROUNDS src (dst + i) 0 m; mret (m, dst)
    end
  else mret (m, dst).

(** *** Output *)

Fixpoint contains (pat bs : bytes) : bool :=
  bool_decide (pat `prefix_of` bs) || match bs with [] => false | _ :: bs' => contains pat bs' end.

(** A string argument that is only logged. *)
Definition log_str (m : memory) (a : Z) : outcome halt unit :=
  if negb (a =? 0) then _ ← c_str m a; mret tt else mret tt.

Definition ERROR_FORMAT : bytes := str "%s(%u): error in %s(): %s".

Definition printf : call := λ args m,
  fmt ← (if negb (rdi args =? 0) then cs ← c_str m (rdi args); mret (from_utf8_lossy cs)
         else mret (str "null"));
  if contains ERROR_FORMAT fmt then
    _ ← log_str m (rsi args);
    _ ← log_str m (rcx args);
    _ ← log_str m (r8 args);
    mret (m, 0)
  else mret (m, 0).

Definition puts : call := λ args m, _ ← log_str m (rdi args); mret (m, 0).

(** The string argument an assertion passes in a [va_list], for the log. *)
Definition log_va_list (m : memory) (va_list : Z) : outcome halt unit :=
  gp_offset ← load 4 m va_list;
  reg_save_area ← load 8 m (va_list + 16);
  if (gp_offset <=? 40) && negb (reg_save_area =? 0) then
    arg_ptr ← load 8 m (reg_save_area +64 gp_offset);
    log_str m arg_ptr
  else mret tt.

Definition vsnprintf : call := λ args m,
  let buf := rdi args in let size := rsi args in let fmt := rdx args in
  if (buf =? 0) || (size =? 0) then mret (m, 0)
  else if negb (fmt =? 0) then
    fmt_bytes ← c_str m fmt;
    let copy_len := blen fmt_bytes `min` (size - 1) in
    m ← store_n m buf (take (Z.to_nat copy_len) fmt_bytes);
    m ← store 1 m (buf + copy_len) 0;
    (* the format is read again, after the copy *)
    fmt_bytes ← load_n m fmt (blen fmt_bytes);
    _ ← (if contains (str "%s") (from_utf8_lossy fmt_bytes) && negb (rcx args =? 0)
         then log_va_list m (rcx args) else mret tt);
    mret (m, copy_len)
  else m ← store 1 m buf 0; mret (m, 0).

(** ** Lemmas *)

(** A C string in memory. *)
Definition c_string (m : memory) (a : Z) (s : bytes) : Prop :=
  bytes_at (s ++ [0]) m a ∧ (0 ∉ s).

#[export] Instance c_string_dec m a s : Decision (c_string m a s).
Proof. unfold c_string; apply _. Defined.

(** The mapped addresses from [a] on. *)
Definition above (m : memory) (a : Z) : nat := size (filter (λ kv, a ≤ kv.1) m).

Lemma above_size m a : (above m a ≤ size m)%nat.
Proof. unfold above. apply map_subseteq_size, map_filter_subseteq. Qed.

Lemma above_step m a : is_Some (m !! a) → (above m (a + 1) < above m a)%nat.
Proof.
  intros [b Hb]. unfold above. apply map_subset_size. split.
  - apply map_subseteq_spec. intros k v [Hk Hle]%map_lookup_filter_Some.
    apply map_lookup_filter_Some. simpl in *. split; [done|lia].
  - intros Hsub. rewrite map_subseteq_spec in Hsub.
    assert (filter (λ kv : Z * Z, a ≤ kv.1) m !! a = Some b) as Ha.
    { apply map_lookup_filter_Some. simpl. split; [done|lia]. }
    apply Hsub, map_lookup_filter_Some in Ha as [_ Hle]. simpl in Hle. lia.
Qed.

(** A scan finds the string, or an unmapped byte before its end. *)
Lemma scan_c_str_cases fuel m a : (above m a < fuel)%nat →
  (∃ s, scan_c_str fuel m a = Ok s ∧ c_string m a s) ∨
  (∃ x, scan_c_str fuel m a = Err (Fault x) ∧ a ≤ x ∧ m !! x = None ∧
     ∀ k, a ≤ k < x → is_Some (m !! k) ∧ m !! k ≠ Some 0).
Proof.
  revert a. induction fuel as [|fuel IH]; intros a Hf; [lia|]. cbn [scan_c_str].
  destruct (m !! a) as [c|] eqn:Ha.
  2: { right. exists a. rewrite load1_fault by done. split_and!; [done|lia|done|lia]. }
  rewrite (load1 _ _ _ Ha). cbn [mbind outcome_bind].
  pose proof (above_step m a (mk_is_Some _ _ Ha)).
  destruct (Z.eqb_spec c 0) as [->|Hc].
  { left. exists []. split; [done|]. split; [|by apply not_elem_of_nil].
    apply bytes_at_lookup. intros [|k] b Hk; [|done]. rewrite Z.add_0_r. simpl in Hk. congruence. }
  destruct (IH (a + 1)) as [(s & -> & Hs & H0)|(x & -> & Hx & Hn & Hall)]; [lia|left|right].
  - exists (c :: s). split; [done|]. split; [|set_solver]. rewrite bytes_at_lookup in *.
    intros [|k] b Hk; simpl in Hk; [rewrite Z.add_0_r; congruence|].
    replace (a + Z.of_nat (S k)) with (a + 1 + Z.of_nat k) by lia. by apply Hs.
  - exists x. split_and!; [done|lia|done|]. intros k Hk.
    destruct (decide (k = a)) as [->|]; [rewrite Ha; split; [by eexists|congruence]|apply Hall; lia].
Qed.

Lemma c_str_cases m a :
  (∃ s, c_str m a = Ok s ∧ c_string m a s) ∨
  (∃ x, c_str m a = Err (Fault x) ∧ a ≤ x ∧ m !! x = None ∧
     ∀ k, a ≤ k < x → is_Some (m !! k) ∧ m !! k ≠ Some 0).
Proof. apply scan_c_str_cases. pose proof (above_size m a). lia. Qed.

Lemma c_string_head m a c s : c_string m a (c :: s) → m !! a = Some c ∧ c ≠ 0 ∧ c_string m (a + 1) s.
Proof.
  intros [Hb H0]. rewrite bytes_at_lookup in Hb. split_and!.
  - rewrite <-(Z.add_0_r a). by apply (Hb 0%nat).
  - set_solver.
  - split; [|set_solver]. apply bytes_at_lookup. intros k b Hk.
    replace (a + 1 + Z.of_nat k) with (a + Z.of_nat (S k)) by lia. by apply Hb.
Qed.

Lemma c_string_nil m a : c_string m a [] → m !! a = Some 0.
Proof. intros [Hb _]. rewrite bytes_at_lookup in Hb. rewrite <-(Z.add_0_r a). by apply (Hb 0%nat). Qed.

(** A C string is determined by its address. *)
Lemma c_string_unique m a s s' : c_string m a s → c_string m a s' → s = s'.
Proof.
  revert a s'. induction s as [|c s IH]; intros a [|c' s'] Hs Hs'; [done|..].
  - apply c_string_nil in Hs. apply c_string_head in Hs' as (? & ? & _). congruence.
  - apply c_string_nil in Hs'. apply c_string_head in Hs as (? & ? & _). congruence.
  - apply c_string_head in Hs as (E & _ & Hs), Hs' as (E' & _ & Hs').
    f_equal; [congruence|by eapply IH].
Qed.

Lemma c_string_mapped m a s x : c_string m a s → a ≤ x ≤ a + blen s → is_Some (m !! x).
Proof.
  intros [Hb _] Hx. rewrite bytes_at_lookup in Hb.
  destruct (lookup_lt_is_Some_2 (s ++ [0]) (Z.to_nat (x - a))) as [b Hk].
  { rewrite length_app. simpl. lia. }
  exists b. rewrite <-(Hb _ _ Hk). f_equal. lia.
Qed.

Lemma c_str_Ok m a s : c_string m a s → c_str m a = Ok s.
Proof.
  intros Hs. destruct (c_str_cases m a) as [(s' & -> & Hs')|(x & _ & Hx & Hn & Hall)].
  { by rewrite (c_string_unique _ _ _ _ Hs Hs'). }
  exfalso. destruct (decide (x ≤ a + blen s)) as [|Hgt].
  { destruct (c_string_mapped m a s x Hs) as [b Hb]; [lia|congruence]. }
  destruct (Hall (a + blen s)) as [_ Hne]; [lia|]. apply Hne.
  destruct Hs as [Hb _]. rewrite bytes_at_lookup in Hb. apply (Hb (length s)).
  rewrite lookup_app_r, Nat.sub_diag by lia. done.
Qed.

(** Two areas of memory that do not meet. *)
Definition disjoint_areas (a n b k : Z) : Prop := a + n ≤ b ∨ b + k ≤ a.

Lemma c_string_agree m m' a s : (∀ x, a ≤ x ≤ a + blen s → m' !! x = m !! x) →
  c_string m a s → c_string m' a s.
Proof.
  intros Hm [Hb H0]. split; [|done]. rewrite (bytes_at_agree _ _ m); [done|].
  intros x Hx. apply Hm. rewrite length_app in Hx. simpl in Hx. lia.
Qed.

(** The copying loop writes the string and its terminator, up to the limit. *)
Lemma copy_str_spec rounds src dst i s m : is_bytes s → c_string m (src + i) s →
  mapped m (dst + i) (blen s + 1) →
  disjoint_areas (src + i) (blen s + 1) (dst + i) (blen s + 1) →
  copy_str rounds src dst i m = Ok (write_bytes (take rounds (s ++ [0])) (dst + i) m).
Proof.
  intros Hs. revert i m rounds. induction Hs as [|c s Hc _ IH]; intros i m [|rounds] Hstr Hm Hd;
    [done| |done|].
  - cbn [copy_str]. rewrite (load1 _ _ 0) by by apply c_string_nil. cbn [mbind outcome_bind].
    rewrite store1; [|apply Hm; simpl; lia|done]. cbn. by rewrite take_nil.
  - cbn [copy_str]. apply c_string_head in Hstr as (Hhd & Hne & Htl). rewrite (load1 _ _ c) by done.
    cbn [mbind outcome_bind]. rewrite store1; [|apply Hm; simpl; lia|done].
    cbn [mbind outcome_bind]. rewrite (proj2 (Z.eqb_neq c 0)) by done. cbn [length] in *.
    rewrite IH.
    + cbn [app take write_bytes]. by rewrite Z.add_assoc.
    + rewrite Z.add_assoc. eapply c_string_agree; [|exact Htl]. intros x Hx.
      unfold disjoint_areas in Hd. rewrite lookup_insert_ne; [done|lia].
    + intros x Hx. destruct (decide (x = dst + i)) as [->|]; [rewrite lookup_insert_eq; by eexists|].
      rewrite lookup_insert_ne by done. apply Hm. lia.
    + unfold disjoint_areas in *. lia.
Qed.

Lemma find_end_spec rounds dst i d m : c_string m (dst + i) d → (length d < rounds)%nat →
  find_end rounds dst i m = Ok (Some (i + blen d)).
Proof.
  revert i rounds. induction d as [|c d IH]; intros i [|rounds] Hd Hr; simpl length in Hr; try lia;
    cbn [find_end].
  - rewrite (load1 _ _ 0) by by apply c_string_nil. cbn. by rewrite Z.add_0_r.
  - apply c_string_head in Hd as (Hhd & Hne & Htl). rewrite (load1 _ _ c) by done.
    cbn [mbind outcome_bind]. rewrite (proj2 (Z.eqb_neq c 0)) by done.
    rewrite IH; [|by rewrite Z.add_assoc|lia]. cbn [length]. do 2 f_equal. lia.
Qed.

Lemma bytes_cmp_spec b1 b2 :
  match bytes_cmp b1 b2 with
  | Eq => b1 = b2
  | Lt => ∃ p t2, b2 = p ++ t2 ∧
      ((b1 = p ∧ t2 ≠ []) ∨ ∃ x y t1 t2', b1 = p ++ x :: t1 ∧ t2 = y :: t2' ∧ x < y)
  | Gt => ∃ p t1, b1 = p ++ t1 ∧
      ((b2 = p ∧ t1 ≠ []) ∨ ∃ x y t1' t2, t1 = x :: t1' ∧ b2 = p ++ y :: t2 ∧ y < x)
  end.
Proof.
  revert b2. induction b1 as [|x b1 IH]; intros [|y b2]; cbn [bytes_cmp]; [done|..].
  - exists [], (y :: b2). split; [done|]. by left.
  - exists [], (x :: b1). split; [done|]. by left.
  - destruct (Z.compare_spec x y) as [->|Hlt|Hgt].
    + specialize (IH b2). destruct (bytes_cmp b1 b2); [by rewrite IH|..];
        destruct IH as (p & t & -> & [[-> Ht]|(u & v & w & z & E1 & E2 & Hl)]);
        exists (y :: p), t; (split; [done|]); [by left|right|by left|right];
        exists u, v, w, z; subst; by split_and!.
    + exists [], (y :: b2). split; [done|]. right. by exists x, y, b1, b2.
    + exists [], (x :: b1). split; [done|]. right. by exists x, y, b1, b2.
Qed.

(** ** No call panics *)

Lemma load_n_safe m a n : mem_ok m → safe (load_n m a n) is_bytes.
Proof.
  intros Hm. unfold load_n. destruct (load_bytes m a (Z.to_nat n)) eqn:E; [|done].
  by eapply load_bytes_ok.
Qed.

Lemma store_n_safe m a bs : mem_ok m → is_bytes bs → safe (store_n m a bs) mem_ok.
Proof. apply store_bytes_safe. Qed.

Lemma c_str_safe m a : mem_ok m → safe (c_str m a) is_bytes.
Proof.
  intros Hm. destruct (c_str_cases m a) as [(s & -> & Hs & _)|(x & -> & _)]; [|done].
  cbn. apply Forall_app with (l2 := [0]). by eapply load_bytes_ok.
Qed.

#[export] Hint Resolve load_n_safe store_n_safe c_str_safe : guest.

Lemma log_str_safe m a : mem_ok m → safe (log_str m a) (λ _, True).
Proof. intros Hm. unfold log_str. safe_steps. Qed.
#[export] Hint Resolve log_str_safe : guest.

Lemma copy_str_safe rounds src dst i m : mem_ok m → safe (copy_str rounds src dst i m) mem_ok.
Proof.
  revert i m. induction rounds as [|rounds IH]; intros i m Hm; cbn [copy_str]; [done|]. safe_steps.
Qed.

Lemma find_end_safe rounds dst i m : mem_ok m → safe (find_end rounds dst i m) (λ _, True).
Proof. intros Hm. revert i. induction rounds as [|rounds IH]; intros i; cbn [find_end]; [done|]. safe_steps. Qed.
#[export] Hint Resolve copy_str_safe find_end_safe : guest.

(** A call leaves memory of bytes, and stops only by a fault. *)
Definition call_safe (c : call) : Prop :=
  ∀ args m, mem_ok m → safe (c args m) (λ '(m', _), mem_ok m').

Lemma cxa_guard_acquire_safe : call_safe cxa_guard_acquire.
Proof. intros args m Hm. unfold cxa_guard_acquire. safe_steps. Qed.
Lemma cxa_guard_release_safe : call_safe cxa_guard_release.
Proof. intros args m Hm. unfold cxa_guard_release. safe_steps. Qed.
Lemma memcpy_safe : call_safe memcpy.
Proof. intros args m Hm. unfold memcpy. safe_steps. Qed.
Lemma memset_safe : call_safe memset.
Proof.
  intros args m Hm. unfold memset. safe_step; [|safe_steps].
  eapply guest_bind; [apply store_n_safe; [done|]|by intros m' Hm'].
  apply Forall_replicate. by apply (wrap_range 8).
Qed.
Lemma memcmp_safe `{MemCmp} : call_safe memcmp.
Proof. intros args m Hm. unfold memcmp. safe_steps. Qed.
Lemma strcpy_safe : call_safe strcpy.
Proof. intros args m Hm. unfold strcpy. safe_steps. Qed.
Lemma strlen_safe : call_safe strlen.
Proof. intros args m Hm. unfold strlen. safe_steps. Qed.
Lemma strcmp_safe : call_safe strcmp.
Proof. intros args m Hm. unfold strcmp. safe_steps. Qed.
Lemma strcat_safe : call_safe strcat.
Proof. intros args m Hm. unfold strcat. safe_steps. Qed.
Lemma puts_safe : call_safe puts.
Proof. intros args m Hm. unfold puts. safe_steps. Qed.
Lemma printf_safe : call_safe printf.
Proof.
  intros args m Hm. unfold printf. eapply (guest_bind _ _ (λ _, True)); [safe_steps|intros fmt _].
  safe_steps.
Qed.
Lemma log_va_list_safe m va_list : mem_ok m → safe (log_va_list m va_list) (λ _, True).
Proof. intros Hm. unfold log_va_list. safe_steps. Qed.
#[export] Hint Resolve log_va_list_safe : guest.
Lemma vsnprintf_safe : call_safe vsnprintf.
Proof.
  intros args m Hm. unfold vsnprintf. safe_step; [safe_steps|]. safe_step; [|safe_steps].
  safe_step. eapply guest_bind; [apply store_n_safe; [done|by apply Forall_take]|intros m' Hm'].
  safe_step. safe_step. eapply (guest_bind _ _ (λ _, True)); [safe_steps|intros _ _]. safe_steps.
Qed.

(** ** Properties *)

(** Comparing two C strings answers 0 exactly for equal strings, and otherwise
    the sign of their lexicographic order: -1, as 64 bits, when the first is a proper
    prefix of the second or smaller at the first difference, else 1.  Nothing is
    written.  A null pointer equals only itself, and a string without terminator
    faults at the first unmapped byte. *)
Theorem strcmp_spec args m :
  (∀ s1 s2, rdi args ≠ 0 → rsi args ≠ 0 → c_string m (rdi args) s1 → c_string m (rsi args) s2 →
     ∃ r, strcmp args m = Ok (m, r) ∧
     ((r = 0 ∧ s1 = s2) ∨
      (r = 2 ^ 64 - 1 ∧ ∃ p t2, s2 = p ++ t2 ∧
         ((s1 = p ∧ t2 ≠ []) ∨ ∃ x y t1 t2', s1 = p ++ x :: t1 ∧ t2 = y :: t2' ∧ x < y)) ∨
      (r = 1 ∧ ∃ p t1, s1 = p ++ t1 ∧
         ((s2 = p ∧ t1 ≠ []) ∨ ∃ x y t1' t2, t1 = x :: t1' ∧ s2 = p ++ y :: t2 ∧ y < x)))) ∧
  (rdi args = 0 ∨ rsi args = 0 →
     strcmp args m = Ok (m, if rdi args =? rsi args then 0 else 1)) ∧
  (rdi args ≠ 0 → rsi args ≠ 0 → (∀ s, ¬ c_string m (rdi args) s) →
     ∃ x, strcmp args m = Err (Fault x) ∧ rdi args ≤ x ∧ m !! x = None).
Proof.
  unfold strcmp. split_and!.
  - intros s1 s2 H1 H2 Hs1 Hs2. rewrite (proj2 (Z.eqb_neq _ _) H1), (proj2 (Z.eqb_neq _ _) H2).
    cbn [orb]. rewrite (c_str_Ok _ _ _ Hs1), (c_str_Ok _ _ _ Hs2). cbn [mbind outcome_bind].
    eexists. split; [done|]. pose proof (bytes_cmp_spec s1 s2) as Hc.
    destruct (bytes_cmp s1 s2); [by left|right; by left|right; by right].
  - intros Hn. by destruct (Z.eqb_spec (rdi args) 0), (Z.eqb_spec (rsi args) 0); try lia; cbn [orb].
  - intros H1 H2 Hno. rewrite (proj2 (Z.eqb_neq _ _) H1), (proj2 (Z.eqb_neq _ _) H2). cbn [orb].
    destruct (c_str_cases m (rdi args)) as [(s & _ & Hs)|(x & -> & Hx & Hn & _)]; [by destruct (Hno s)|].
    by exists x.
Qed.

(** C28: [strlen] returns the length of a C string; [strcpy] and [strcat] leave, at
    the destination, the source and the concatenation of destination and source, and
    return the destination; nothing else in memory changes.  This holds for strings
    up to the limit of 2^20 bytes, in mapped memory, when the areas do not overlap;
    of a longer source, the copy has the first 2^20 + 1 bytes and no terminator. *)
Theorem string_copy_spec args m s : rdi args ≠ 0 → rsi args ≠ 0 →
  is_bytes s → c_string m (rsi args) s →
  (strlen {| rdi := rsi args; rsi := 0; rdx := 0; rcx := 0; r8 := 0; r9 := 0;
             stack_arg7 := 0; xmm0_bits := 0; xmm1_bits := 0 |} m = Ok (m, blen s)) ∧
  (mapped m (rdi args) (blen s + 1) →
   disjoint_areas (rsi args) (blen s + 1) (rdi args) (blen s + 1) →
   ∃ m', strcpy args m = Ok (m', rdi args) ∧
     (blen s ≤ LIMIT → c_string m' (rdi args) s) ∧
     (LIMIT < blen s → bytes_at (take ROUNDS s) m' (rdi args)) ∧
     ∀ x, ¬ rdi args ≤ x ≤ rdi args + blen s → m' !! x = m !! x) ∧
  (∀ d, c_string m (rdi args) d → blen d ≤ LIMIT → blen s ≤ LIMIT →
   mapped m (rdi args) (blen d + blen s + 1) →
   disjoint_areas (rsi args) (blen s + 1) (rdi args) (blen d + blen s + 1) →
   ∃ m', strcat args m = Ok (m', rdi args) ∧ c_string m' (rdi args) (d ++ s) ∧
     ∀ x, ¬ rdi args ≤ x ≤ rdi args + blen d + blen s → m' !! x = m !! x).
Proof.
  intros Hdst Hsrc Hs Hstr. split; [|split].
  - unfold strlen. cbn [rdi]. rewrite (proj2 (Z.eqb_neq _ _) Hsrc), (c_str_Ok _ _ _ Hstr). done.
  - intros Hm Hd. unfold strcpy. rewrite (proj2 (Z.eqb_neq _ _) Hdst), (proj2 (Z.eqb_neq _ _) Hsrc).
    cbn [negb andb]. rewrite (copy_str_spec _ _ _ _ s) by (rewrite ?Z.add_0_r; done).
    cbn [mbind outcome_bind]. rewrite Z.add_0_r. eexists. split; [done|]. split_and!.
    + intros Hl. split; [|by apply Hstr]. rewrite take_ge; [apply bytes_at_write|].
      rewrite length_app. unfold ROUNDS, LIMIT in *. simpl. lia.
    + intros Hl. rewrite take_app_le by (unfold ROUNDS, LIMIT in *; lia). apply bytes_at_write.
    + intros x Hx. rewrite write_bytes_lookup, length_take, length_app. simpl length.
      case_range; [lia|done].
  - intros d Hdstr Hdl Hl Hm Hd. unfold strcat.
    rewrite (proj2 (Z.eqb_neq _ _) Hdst), (proj2 (Z.eqb_neq _ _) Hsrc). cbn [negb andb].
    unfold disjoint_areas in Hd.
    rewrite (find_end_spec _ _ _ d) by (rewrite ?Z.add_0_r; done || unfold ROUNDS, LIMIT in *; lia).
    cbn [mbind outcome_bind]. rewrite Z.add_0_l.
    rewrite (copy_str_spec _ _ _ _ s); rewrite ?Z.add_0_r; [|done|done| |unfold disjoint_areas; lia].
    2: { eapply mapped_weaken; [done|lia..]. }
    rewrite take_ge by (rewrite length_app; unfold ROUNDS, LIMIT in *; simpl; lia).
    cbn [mbind outcome_bind]. eexists. split; [done|]. split; [split|].
    + rewrite <-(assoc_L (++)). apply bytes_at_app. split; [|apply bytes_at_write].
      rewrite (bytes_at_agree _ _ m); [by apply bytes_at_app with (b2 := [0]), Hdstr|].
      intros x Hx. rewrite write_bytes_lookup. case_range; [lia|done].
    + intros [?|?]%elem_of_app; [by apply Hdstr|by apply Hstr].
    + intros x Hx. rewrite write_bytes_lookup, length_app. simpl length. case_range; [lia|done].
Qed.

(** ** Witnesses *)

(** "abc" at 0x1000 and "abd" at 0x1010. *)
Definition two_strings : memory :=
  write_bytes (str "abc" ++ [0]) 0x1000 (write_bytes (str "abd" ++ [0])
    0x1010 (write_bytes (replicate 64 7) 0x1000 ∅)).

Definition call_args (a b : Z) : export_args :=
  {| rdi := a; rsi := b; rdx := 0; rcx := 0; r8 := 0; r9 := 0; stack_arg7 := 0;
     xmm0_bits := 0; xmm1_bits := 0 |}.

Lemma strcmp_spec_witness :
  strcmp (call_args 0x1000 0x1010) two_strings = Ok (two_strings, 2 ^ 64 - 1) ∧
  strcmp (call_args 0 0) two_strings = Ok (two_strings, 0).
Proof.
  split.
  - destruct (strcmp_spec (call_args 0x1000 0x1010) two_strings) as [H _].
    destruct (H (str "abc") (str "abd")) as (r & E & Hr); [done|done|..].
    { apply (bool_decide_eq_true_1 _). vm_compute. reflexivity. }
    { apply (bool_decide_eq_true_1 _). vm_compute. reflexivity. }
    destruct Hr as [[_ Hr]|[[-> _]|[-> _]]]; [discriminate Hr|exact E|].
    assert ((λ o, if o is Ok (_, r) then r else 0) (strcmp (call_args 0x1000 0x1010) two_strings)
      = 2 ^ 64 - 1) as Hv by (vm_compute; reflexivity). rewrite E in Hv. discriminate Hv.
  - apply (strcmp_spec (call_args 0 0) two_strings). by left.
Defined.

Lemma string_copy_spec_witness : ∃ m',
  strcat (call_args 0x1000 0x1010) two_strings = Ok (m', 0x1000) ∧
  c_string m' 0x1000 (str "abcabd").
Proof.
  destruct (string_copy_spec (call_args 0x1000 0x1010) two_strings (str "abd")) as (_ & _ & H).
  { done. }
  { done. }
  { apply (bool_decide_eq_true_1 _). vm_compute. reflexivity. }
  { apply (bool_decide_eq_true_1 _). vm_compute. reflexivity. }
  destruct (H (str "abc")) as (m' & E & Hs & _).
  { apply (bool_decide_eq_true_1 _). vm_compute. reflexivity. }
  { done. }
  { done. }
  { apply (bool_decide_eq_true_1 _). vm_compute. reflexivity. }
  { unfold disjoint_areas. right. vm_compute. intros [=]. }
  by exists m'.
Defined.

End Libc.
