(* ===== verification/ExportHandlers.v ===== *)
(** * The emulated library functions (hle/exports.rs)

    The state behind the exports, a handler per function, and
    [hle_export_dispatcher], the [match] on the name of the call, as an instance of
    the interface in Exports.v.  The C functions on memory are in Libc.v, the frames and
    their renderer in Gpu.v and Vulkan.v.  The host's files, the starting of host threads,
    the floating-point functions of the standard library, Vulkan and the memory
    comparison are parameters; sleeping and logging have no effect here, but the strings
    that are logged are read.  Attempts to spawn a thread are recorded with their outcome;
    how a thread starts is [start_guest_thread] of Boot.v. *)

From S2P Require Import Prelude CommonTypes BTreeMap PhysicalMemory AddressSpace.
From S2P Require Import VirtualMemory Bytes GuestMemory UnixPath KernelServices.
From S2P Require Import LinkerModule Vulkan Gpu Exports Libc.

Open Scope rust_scope.

(** [Seek::seek], and [Path::exists]. *)
Inductive SeekFrom := SeekStart (n : Z) | SeekCurrent (n : Z) | SeekEnd (n : Z).

Class HostSeek (W F : Type) := {
  host_exists : path → W → bool;
  host_seek : F → SeekFrom → W → W * F * option Z;
}.

(** [f32::sin] and the like, from bits to bits. *)
Class FloatOps := {
  f32_sin : Z → Z; f32_tan : Z → Z; f32_asin : Z → Z; f32_acos : Z → Z;
  f32_atan2 : Z → Z → Z;
}.

(** A call of [thread::Builder::spawn]: entry point, stack, argument and TCB. *)
Record spawn_request := { start_routine : Z; sp_rsp : Z; sp_arg : Z; sp_tcb : Z }.

(** Whether the host starts the thread, after what it made of the earlier requests:
    [Builder::spawn] returns an error when the system has no thread left. *)
Class HostSpawn := { spawn_ok : list (spawn_request * bool) → spawn_request → bool }.

Module ExportHandlers.

Import Libc.

Section state.
Context {OS : Type} `{!HostOS OS} `{!Bitflags}.
Context {HF F : Type} `{!HostFiles HF F, !HostSeek HF F} `{!Mounts.MountOrder}.
Context `{!FloatOps, !MemCmp, !HostSpawn}.
Context {Window : Type} `{!Vulkan.VulkanApi Window}.

Record PhysMappingEntry := { phys_start : Z; virt_start : Z; pm_size : Z }.

Record OpenCFile := { cfile : F; cpath : bytes }.

(** The globals, by what they belong to: the host kernel, the memory manager and
    the physical mappings; the files. *)
Record memory_part := {
  os : OS;
  manager : option Virtual.MemoryManager;
  phys_mappings : option (list PhysMappingEntry);
}.

Record file_part := {
  host_files : HF;
  next_file_ptr : Z;
  open_cfiles : option (gmap Z OpenCFile);
  fs_mounts : option Mounts.mounts;
}.

Record world := {
  mems : memory_part;
  files : file_part;
  next_equeue_id : Z;
  gpu : Gpu.GpuGlobal;
  rand_state : Z;
  unhandled_calls : Z;
  spawned : list (spawn_request * bool);
}.

Definition set_mems (x : memory_part) (w : world) : world :=
  {| mems := x; files := files w; next_equeue_id := next_equeue_id w; gpu := gpu w;
     rand_state := rand_state w; unhandled_calls := unhandled_calls w; spawned := spawned w |}.
Definition set_files (x : file_part) (w : world) : world :=
  {| mems := mems w; files := x; next_equeue_id := next_equeue_id w; gpu := gpu w;
     rand_state := rand_state w; unhandled_calls := unhandled_calls w; spawned := spawned w |}.
Definition set_next_equeue_id (x : Z) (w : world) : world :=
  {| mems := mems w; files := files w; next_equeue_id := x; gpu := gpu w;
     rand_state := rand_state w; unhandled_calls := unhandled_calls w; spawned := spawned w |}.
Definition set_gpu (x : Gpu.GpuGlobal) (w : world) : world :=
  {| mems := mems w; files := files w; next_equeue_id := next_equeue_id w; gpu := x;
     rand_state := rand_state w; unhandled_calls := unhandled_calls w; spawned := spawned w |}.
Definition set_rand_state (x : Z) (w : world) : world :=
  {| mems := mems w; files := files w; next_equeue_id := next_equeue_id w; gpu := gpu w;
     rand_state := x; unhandled_calls := unhandled_calls w; spawned := spawned w |}.
Definition set_unhandled_calls (x : Z) (w : world) : world :=
  {| mems := mems w; files := files w; next_equeue_id := next_equeue_id w; gpu := gpu w;
     rand_state := rand_state w; unhandled_calls := x; spawned := spawned w |}.
Definition add_spawned (x : spawn_request * bool) (w : world) : world :=
  {| mems := mems w; files := files w; next_equeue_id := next_equeue_id w; gpu := gpu w;
     rand_state := rand_state w; unhandled_calls := unhandled_calls w;
     spawned := spawned w ++ [x] |}.

Definition set_manager (o : OS) (mm : Virtual.MemoryManager) (w : world) : world :=
  set_mems {| os := o; manager := Some mm; phys_mappings := phys_mappings (mems w) |} w.
Definition set_phys_mappings (x : option (list PhysMappingEntry)) (w : world) : world :=
  set_mems {| os := os (mems w); manager := manager (mems w); phys_mappings := x |} w.
Definition set_open_cfiles (h : HF) (p : Z) (x : option (gmap Z OpenCFile)) (w : world) : world :=
  set_files {| host_files := h; next_file_ptr := p; open_cfiles := x;
               fs_mounts := fs_mounts (files w) |} w.

(** The state before [main] has set anything up. *)
Definition world_start (o : OS) (h : HF) : world :=
  {| mems := {| os := o; manager := None; phys_mappings := None |};
     files := {| host_files := h; next_file_ptr := 0xBEEF00000000; open_cfiles := None;
                 fs_mounts := None |};
     next_equeue_id := 1; gpu := Gpu.GPU_CONTEXT; rand_state := 12345; unhandled_calls := 0;
     spawned := [] |}.

Definition initialize_exports (memory : Virtual.MemoryManager) (w : world) : world :=
  set_files {| host_files := host_files (files w); next_file_ptr := next_file_ptr (files w);
               open_cfiles := Some ∅; fs_mounts := Some ∅ |}
    (set_mems {| os := os (mems w); manager := Some memory; phys_mappings := Some [] |} w).

Definition mount_filesystem (ps4_prefix : bytes) (host_path : path) (w : world) : world :=
  match fs_mounts (files w) with
  | Some ms =>
      set_files {| host_files := host_files (files w); next_file_ptr := next_file_ptr (files w);
                   open_cfiles := open_cfiles (files w);
                   fs_mounts := Some (<[ps4_prefix := host_path]> ms) |} w
  | None => w
  end.

Definition register_phys_mapping (phys virt_addr size : Z) (w : world) : world :=
  match phys_mappings (mems w) with
  | Some l =>
      set_phys_mappings
        (Some (l ++ [{| phys_start := phys; virt_start := virt_addr; pm_size := size |}])) w
  | None => w
  end.

Fixpoint find_mapping (l : list PhysMappingEntry) (phys : Z) : option Z :=
  match l with
  | [] => None
  | e :: l' =>
      if (phys_start e <=? phys) && (phys <? phys_start e +64 pm_size e)
      then Some (virt_start e +64 (phys -64 phys_start e)) else find_mapping l' phys
  end.

Definition phys_to_virt (phys : Z) (w : world) : option Z :=
  match phys_mappings (mems w) with Some l => find_mapping l phys | None => None end.

Definition resolve_ps4_path (ps4_path : bytes) (w : world) : option path :=
  match fs_mounts (files w) with Some ms => Mounts.resolve ms ps4_path | None => None end.

(** ** Computations over guest memory and the globals *)

Abbreviation act := (st (memory * world) halt).
Definition handler : Type := export_args → act Z.

Definition in_memory {A} (f : memory → outcome halt (memory * A)) : act A := λ '(m, w),
  match f m with
  | Ok (m, a) => ((m, w), Ok a)
  | Err h => ((m, w), Err h)
  | Panic => ((m, w), Panic)
  end.

Definition modify (f : world → world) : act unit := λ '(m, w), ((m, f w), Ok tt).
Definition get_world : act world := λ '(m, w), ((m, w), Ok w).

Definition reading {A} (f : memory → outcome halt A) : act A :=
  in_memory (λ m, a ← f m; mret (m, a)).
Definition writing (f : memory → outcome halt memory) : act unit :=
  in_memory (λ m, m ← f m; mret (m, tt)).

(** An out parameter, when there is one. *)
Definition store_out (n : nat) (out v : Z) : act unit :=
  if negb (out =? 0) then writing (λ m, store n m out v) else mret tt.

Definition libc (c : call) : handler := λ args, in_memory (c args).
Definition returns (v : Z) : handler := λ _, mret v.

(** ** Memory *)

Definition CPU_RW : Z := Virtual.MemoryProt.CPU_RW.

(** A fresh mapping at an address of the manager's choice; [None] when it fails, or
    before the manager is set. *)
Definition map_fresh (len prot : Z) (ty : Virtual.VMAType) (name : string) : act (option Z) :=
  λ '(m, w),
  match manager (mems w) with
  | None => ((m, w), Ok None)
  | Some mm =>
      match Virtual.map_memory 0 len prot LinkerModule.ANON_PRIVATE ty name (os (mems w), mm) with
      | ((o, mm), Ok addr) =>
          ((map_zeros addr (align_up len PAGE_SIZE) m, set_manager o mm w), Ok (Some addr))
      | ((o, mm), Err _) => ((m, set_manager o mm w), Ok None)
      | ((o, mm), Panic) => ((m, set_manager o mm w), Panic)
      end
  end.

Definition alloc_memory (len : Z) (name : string) : act Z :=
  a ← map_fresh len CPU_RW Virtual.Flexible name; mret (default 0 a).

Definition malloc : handler := λ args,
  let len := rdi args in
  alloc_memory (if len =? 0 then 4096 else len) "heap_alloc".

Definition ORBIS_ENOMEM : Z := 0x8002000C.

(** The two allocations of direct memory differ in their argument registers. *)
Definition allocate_direct (len phys_addr_out : Z) (name : string) : act Z :=
  r ← map_fresh len CPU_RW Virtual.Direct name;
  match r with
  | Some virt_addr =>
      _ ← store_out 8 phys_addr_out virt_addr;
      _ ← modify (register_phys_mapping virt_addr virt_addr len);
      mret 0
  | None => mret ORBIS_ENOMEM
  end.

Definition sceKernelAllocateDirectMemory : handler := λ args,
  allocate_direct (rdx args) (r9 args) "direct_phys".
Definition sceKernelAllocateMainDirectMemory : handler := λ args,
  allocate_direct (rdi args) (rcx args) "direct_main_phys".

Definition sceKernelMapDirectMemory : handler := λ args,
  _ ← store_out 8 (rdi args) (r8 args); mret 0.

(** ** Files *)

Definition C_EOF : Z := wrap 64 (-1).

Definition fopen : handler := λ args,
  if rdi args =? 0 then mret 0
  else
    filename ← reading (λ m, c_str m (rdi args));
    let filename := from_utf8_lossy filename in
    _ ← reading (λ m, log_str m (rsi args));
    w ← get_world;
    match resolve_ps4_path filename w with
    | Some host_path =>
        if host_exists host_path (host_files (files w)) then
          match host_open host_path (host_files (files w)) with
          | (h, Some file) =>
              let fake_ptr := next_file_ptr (files w) in
              _ ← modify (set_open_cfiles h (fake_ptr +64 0x100)
                    ((λ map, <[fake_ptr := {| cfile := file; cpath := filename |}]> map)
                       <$> open_cfiles (files w)));
              mret fake_ptr
          | (h, None) =>
              _ ← modify (set_open_cfiles h (next_file_ptr (files w)) (open_cfiles (files w)));
              mret 0
          end
        else mret 0
    | None => mret 0
    end.

(** The open file behind a [FILE*], with the table it is in. *)
Definition lookup_cfile (file_ptr : Z) (w : world) : option (gmap Z OpenCFile * OpenCFile) :=
  map ← open_cfiles (files w); f ← map !! file_ptr; Some (map, f).

(** What the host made of an open file. *)
Definition put_cfile (file_ptr : Z) (map : gmap Z OpenCFile) (f : OpenCFile) (h : HF) (c : F)
  : act unit :=
  modify (λ w, set_open_cfiles h (next_file_ptr (files w))
    (Some (<[file_ptr := {| cfile := c; cpath := cpath f |}]> map)) w).

(** One [File::read] into the caller's buffer.  A buffer that is not mapped is an
    error of the call (EFAULT, read(2)), not a fault. *)
Definition fread : handler := λ args,
  let buf := rdi args in let size := rsi args in let count := rdx args in
  let file_ptr := rcx args in
  let total := size *64 count in
  if (buf =? 0) || (total =? 0) then mret 0
  else
    '(m, w) ← st_get;
    match lookup_cfile file_ptr w with
    | None => mret 0
    | Some (map, f) =>
        if bool_decide (mapped m buf total) then
          match host_read (cfile f) total (host_files (files w)) with
          | (h, c, Some bs) =>
              _ ← put_cfile file_ptr map f h c;
              _ ← writing (λ m, store_n m buf bs);
              mret (blen bs / size)
          | (h, c, None) => _ ← put_cfile file_ptr map f h c; mret 0
          end
        else mret 0
    end.

Definition fclose : handler := λ args,
  let file_ptr := rdi args in
  w ← get_world;
  match lookup_cfile file_ptr w with
  | Some (map, _) =>
      _ ← modify (set_open_cfiles (host_files (files w)) (next_file_ptr (files w))
            (Some (delete file_ptr map)));
      mret 0
  | None => mret C_EOF
  end.

Definition seek_from (whence offset : Z) : option SeekFrom :=
  if whence =? 0 then Some (SeekStart (wrap 64 offset))
  else if whence =? 1 then Some (SeekCurrent offset)
  else if whence =? 2 then Some (SeekEnd offset)
  else None.

Definition seek_cfile (file_ptr : Z) (s : SeekFrom) (ok : Z → Z) : act Z :=
  w ← get_world;
  match lookup_cfile file_ptr w with
  | Some (map, f) =>
      match host_seek (cfile f) s (host_files (files w)) with
      | (h, c, r) =>
          _ ← put_cfile file_ptr map f h c;
          mret (from_option ok C_EOF r)
      end
  | None => mret C_EOF
  end.

Definition fseek : handler := λ args,
  match seek_from (to_signed 32 (rdx args)) (to_signed 64 (rsi args)) with
  | Some s => seek_cfile (rdi args) s (λ _, 0)
  | None => mret C_EOF
  end.

(** [stream_position]: a seek by 0 from the current position. *)
Definition ftell : handler := λ args, seek_cfile (rdi args) (SeekCurrent 0) (λ pos, pos).

(** ** Event queues and threads *)

Definition sceKernelCreateEqueue : handler := λ args,
  _ ← reading (λ m, log_str m (rsi args));
  w ← get_world;
  let id := next_equeue_id w in
  _ ← modify (set_next_equeue_id (to_signed 32 (id + 1)));
  _ ← store_out 4 (rdi args) (wrap 32 id);
  mret 0.

(** The name of a thread, by which its areas are called. *)
Definition thread_name (m : memory) (a : Z) : outcome halt bytes :=
  if negb (a =? 0) then cs ← c_str m a; mret (from_utf8_lossy cs) else mret (str "unnamed").

Definition TCB_SIZE : Z := 4096.
Definition STACK_SIZE : Z := 2 * 1024 * 1024.

(** The first stack pointer: one word below the 16-byte aligned top. *)
Definition thread_rsp (stack_base : Z) : Z :=
  Z.land (stack_base +64 STACK_SIZE) (not64 0xF) -64 8.

(** [let _ = Builder::new().spawn(..)]: the error is dropped. *)
Definition spawn (q : spawn_request) : act unit :=
  modify (λ w, add_spawned (q, spawn_ok (spawned w) q) w).

Definition scePthreadCreate : handler := λ args,
  name ← reading (λ m, thread_name m (r8 args));
  let area (s : string) := LinkerModule.bytes_string (str s ++ name) in
  w ← get_world;
  match manager (mems w) with
  | None => mret ORBIS_ENOMEM
  | Some _ =>
      tcb ← map_fresh TCB_SIZE CPU_RW Virtual.ThreadData (area "Thread TCB: ");
      let tcb_base := default 0 tcb in
      stack ← map_fresh STACK_SIZE CPU_RW Virtual.ThreadData (area "Thread Stack: ");
      let stack_base := default 0 stack in
      if negb (tcb_base =? 0) && negb (stack_base =? 0) then
        let rsp := thread_rsp stack_base in
        _ ← writing (λ m, store 8 m rsp 0);
        _ ← store_out 8 (rdi args) tcb_base;
        _ ← spawn {| start_routine := rdx args; sp_rsp := rsp; sp_arg := rcx args;
                     sp_tcb := tcb_base |};
        mret 0
      else mret ORBIS_ENOMEM
  end.

(** ** Video output *)

(** Consecutive 32-bit words. *)
Fixpoint store_words (ws : list Z) (a : Z) (m : memory) : outcome halt memory :=
  match ws with
  | [] => mret m
  | v :: ws' => m ← store 4 m a v; store_words ws' (a + 4) m
  end.

Definition zero_bytes (a : Z) (n : nat) (m : memory) : outcome halt memory :=
  store_n m a (replicate n 0).

Definition sceVideoOutGetResolutionStatus : handler := λ args,
  let status_ptr := rsi args in
  if negb (status_ptr =? 0) then
    _ ← writing (zero_bytes status_ptr 32);
    _ ← writing (store_words [1920; 1080; 1920; 1080] status_ptr);
    mret 0
  else mret 0.

Definition sceVideoOutSetBufferAttribute : handler := λ args,
  let attr_ptr := rdi args in
  let width := wrap 32 (r8 args) in
  let pitch := if negb (stack_arg7 args =? 0) then wrap 32 (stack_arg7 args) else width in
  if negb (attr_ptr =? 0) then
    _ ← writing (store_words
          [wrap 32 (rsi args); wrap 32 (rdx args); wrap 32 (rcx args); width; wrap 32 (r9 args);
           pitch; 0] attr_ptr);
    mret 0
  else mret 0.

(** The addresses are read for the log. *)
Fixpoint read_addresses (n : nat) (a : Z) (m : memory) : outcome halt unit :=
  match n with
  | O => mret tt
  | S n' => _ ← load 8 m a; read_addresses n' (a + 8) m
  end.

Definition sceVideoOutRegisterBuffers : handler := λ args,
  let buf_num := to_signed 32 (rcx args) in
  if negb (rdx args =? 0) && (0 <? buf_num) then
    _ ← reading (read_addresses (Z.to_nat buf_num) (rdx args)); mret 0
  else mret 0.

(** ** Command buffers *)

Definition HW_INIT_PACKET_SIZE : Z := 0x100.

Definition init_sequence : list Z :=
  [
   0xc0001200; 0x00000000; 0xc0017600; 0x00000216; 0xffffffff; 0xc0017600;
   0x00000217; 0xffffffff; 0xc0017600; 0x00000215; 0x00000000; 0xc0016900;
   0x000002f9; 0x0000002d; 0xc0016900; 0x00000282; 0x00000008; 0xc0016900;
   0x00000280; 0x00080008; 0xc0016900; 0x00000281; 0xffff0000; 0xc0016900;
   0x00000204; 0x00000000; 0xc0016900; 0x00000206; 0x0000043f; 0xc0016900;
   0x00000083; 0x0000ffff; 0xc0016900; 0x00000317; 0x00000010; 0xc0016900;
   0x000002fa; 0x3f800000; 0xc0016900; 0x000002fc; 0x3f800000; 0xc0016900;
   0x000002fb; 0x3f800000; 0xc0016900; 0x000002fd; 0x3f800000; 0xc0016900;
   0x00000202; 0x00cc0010; 0xc0016900; 0x0000030e; 0xffffffff; 0xc0016900;
   0x0000030f; 0xffffffff; 0xc0002f00; 0x00000001; 0xc0017600; 0x00000007;
   0x001701ff; 0xc0017600; 0x00000046; 0x001701fd; 0xc0017600; 0x00000087;
   0x001701ff; 0xc0017600; 0x000000c7; 0x001701fd; 0xc0017600; 0x00000107;
   0x00000017; 0xc0017600; 0x00000147; 0x001701fd; 0xc0017600; 0x00000047;
   0x0000001c; 0xc0016900; 0x000001b1; 0x00000002; 0xc0016900; 0x00000101;
   0x00000000; 0xc0016900; 0x00000100; 0xffffffff; 0xc0016900; 0x00000103;
   0x00000000; 0xc0016900; 0x00000284; 0x00000000; 0xc0016900; 0x00000290;
   0x00000000; 0xc0016900; 0x000002ae; 0x00000000; 0xc0016900; 0x00000102;
   0x00000000; 0xc0016900; 0x00000292; 0x00000000; 0xc0016900; 0x00000293;
   0x06020000; 0xc0016900; 0x000002f8; 0x00000000; 0xc0016900; 0x000002de;
   0x000001e9; 0xc0036900; 0x00000295; 0x00000100; 0x00000100; 0x00000004;
   0xc0017900; 0x00000200; 0xe0000000; 0xc0016900; 0x000002aa; 0x000000ff
  ].

(** [while offset < HW_INIT_PACKET_SIZE]: NOP packets of two words, and a zero where
    only one is left; [n] words are left. *)
Fixpoint nop_fill (n : nat) : list Z :=
  match n with
  | S (S n') => 0xC0001000 :: 0 :: nop_fill n'
  | S O => [0]
  | O => []
  end.

Definition sceGnmDrawInitDefaultHardwareState350 : handler := λ args,
  let cmdbuf := rdi args in
  let size := wrap 32 (rsi args) in
  if (cmdbuf =? 0) || (size <? HW_INIT_PACKET_SIZE) then mret 0
  else
    _ ← writing (store_words init_sequence cmdbuf);
    _ ← writing (store_words (nop_fill (Z.to_nat (HW_INIT_PACKET_SIZE - blen init_sequence)))
                   (cmdbuf + 4 * blen init_sequence));
    mret (cmdbuf +64 4 * HW_INIT_PACKET_SIZE).

Definition sceGnmInsertWaitFlipDone : handler := λ args,
  let cmdbuf := rdi args in
  let size := 7 in
  if negb (cmdbuf =? 0) then
    let header_size := size - 1 in
    _ ← writing (store_words
          (Z.lor 0xC0001000 (Z.shiftl (header_size - 1) 16) :: replicate (Z.to_nat (size - 1)) 0)
          cmdbuf);
    mret (cmdbuf +64 4 * size)
  else mret 0.

Definition sceKernelWaitEqueue : handler := λ args,
  _ ← store_out 4 (rcx args) 0; mret 0.

(** The 32-bit words of a buffer. *)
Fixpoint load_words (n : nat) (a : Z) (m : memory) : outcome halt (list Z) :=
  match n with
  | O => mret []
  | S n' => v ← load 4 m a; vs ← load_words n' (a + 4) m; mret (v :: vs)
  end.

Definition on_gpu {R} (f : st (Gpu.GpuContext * Vulkan.log) Empty_set R) : act R := λ '(m, w),
  match Gpu.with_gpu f (gpu w) with
  | (g, Ok r) => ((m, set_gpu g w), Ok r)
  | (g, Err e) => match e with end
  | (g, Panic) => ((m, set_gpu g w), Panic)
  end.

Definition submit_buffer (dcb : list Z) : act unit := on_gpu (Gpu.gfx dcb []).
Definition gpu_submit_done : act unit := on_gpu Gpu.submit_done.

(** Which buffers of a submission are passed on. *)
Definition buffer_accepted (dcb_ptr dcb_size_dw : Z) : bool :=
  (0x10000 <? dcb_ptr) && (0 <? dcb_size_dw) && (dcb_size_dw <? 0x1000000).

(** [for i in 0..count]. *)
Fixpoint submit_loop (n : nat) (i dcb_addrs dcb_sizes : Z) : act unit :=
  match n with
  | O => mret tt
  | S n' =>
      dcb_ptr ← reading (λ m, load 8 m (dcb_addrs + 8 * i));
      dcb_size_bytes ← reading (λ m, load 4 m (dcb_sizes + 4 * i));
      let dcb_size_dw := dcb_size_bytes / 4 in
      _ ← (if buffer_accepted dcb_ptr dcb_size_dw then
             dcb ← reading (load_words (Z.to_nat dcb_size_dw) dcb_ptr);
             submit_buffer dcb
           else mret tt);
      submit_loop n' (i + 1) dcb_addrs dcb_sizes
  end.

Definition submission_accepted (count addrs sizes : Z) : bool :=
  (0 <? count) && (count <? 100) && (0x10000 <? addrs) && (addrs mod 8 =? 0)
  && (0x10000 <? sizes) && (sizes mod 4 =? 0).

Definition sceGnmSubmitCommandBuffers : handler := λ args,
  let count := wrap 32 (rdi args) in
  if submission_accepted count (rsi args) (rdx args) then
    _ ← submit_loop (Z.to_nat count) 0 (rsi args) (rdx args); mret 0
  else mret 0.

Definition sceGnmSubmitDone : handler := λ _, _ ← gpu_submit_done; mret 0.

(** ** Controller, users, system services *)

Definition scePadOpen : handler := λ args,
  mret (Z.max (to_signed 32 (to_signed 32 (rdx args) + 1)) 1).

(** Single bytes at offsets, in order. *)
Fixpoint store_at (a : Z) (l : list (Z * Z)) (m : memory) : outcome halt memory :=
  match l with
  | [] => mret m
  | (o, v) :: l' => m ← store 1 m (a + o) v; store_at a l' m
  end.

Definition scePadReadState : handler := λ args,
  let data_ptr := rsi args in
  if negb (data_ptr =? 0) then
    _ ← writing (zero_bytes data_ptr 80);
    _ ← writing (store_at data_ptr [(4, 128); (5, 128); (6, 128); (7, 128); (19, 1)]);
    mret 0
  else mret 0.

(** An identifier of 1 in an out parameter. *)
Definition writes_one : handler := λ args, _ ← store_out 4 (rdi args) 1; mret 0.

Definition sceUserServiceGetLoginUserIdList : handler := λ args,
  let list_out := rdi args in
  if negb (list_out =? 0) then
    _ ← writing (store_words [1; wrap 32 (-1); wrap 32 (-1); wrap 32 (-1)] list_out); mret 0
  else mret 0.

Definition sceSystemServiceGetStatus : handler := λ args,
  _ ← (if negb (rdi args =? 0) then writing (zero_bytes (rdi args) 64) else mret tt);
  _ ← gpu_submit_done;
  mret 0.

(** ** Arithmetic *)

Definition float1 (f : Z → Z) : handler := λ args, mret (f (wrap 32 (xmm0_bits args))).

Definition atan2f : handler := λ args,
  mret (f32_atan2 (wrap 32 (xmm0_bits args)) (wrap 32 (xmm1_bits args))).

Definition next_rand (state : Z) : Z := state *64 1103515245 +64 12345.

Definition rand : handler := λ _,
  w ← get_world;
  let state := next_rand (rand_state w) in
  _ ← modify (set_rand_state state);
  mret (Z.land (Z.shiftr state 16) 0x7FFFFFFF).

(** ** The dispatcher *)

Definition exit_process : handler := λ _, st_lift (Err (Exited 0)).

Definition unhandled : handler := λ _,
  _ ← modify (λ w, set_unhandled_calls (unhandled_calls w +64 1) w); mret 0.

(** The arms of the [match], in order. *)
Definition arms : list (list string * handler) :=
  [(["_init_env"], returns 0);
   (["atexit"; "__cxa_atexit"], returns 0);
   (["__cxa_guard_acquire"], libc cxa_guard_acquire);
   (["__cxa_guard_release"], libc cxa_guard_release);
   (["sceKernelIsNeoMode"], returns 0);
   (["catchReturnFromMain"; "exit"], exit_process);
   (["malloc"; "_Znwm"], malloc);
   (["free"; "_ZdlPv"], returns 0);
   (["memcpy"], libc memcpy);
   (["memset"], libc memset);
   (["strcpy"], libc strcpy);
   (["strlen"], libc strlen);
   (["strcmp"], libc strcmp);
   (["memcmp"], libc memcmp);
   (["strcat"], libc strcat);
   (["printf"; "sceClibPrintf"], libc printf);
   (["puts"], libc puts);
   (["vsnprintf"], libc vsnprintf);
   (["fopen"], fopen);
   (["fread"], fread);
   (["fclose"], fclose);
   (["fseek"], fseek);
   (["ftell"], ftell);
   (["sceKernelGetDirectMemorySize"], returns (5632 * 1024 * 1024));
   (["sceKernelAllocateDirectMemory"], sceKernelAllocateDirectMemory);
   (["sceKernelAllocateMainDirectMemory"], sceKernelAllocateMainDirectMemory);
   (["sceKernelMapDirectMemory"], sceKernelMapDirectMemory);
   (["sceKernelMunmap"; "sceKernelReleaseDirectMemory"], returns 0);
   (["sceKernelCreateEqueue"], sceKernelCreateEqueue);
   (["sceKernelDeleteEqueue"], returns 0);
   (["scePthreadMutexDestroy"; "scePthreadMutexInit"; "scePthreadMutexLock";
     "scePthreadMutexUnlock"], returns 0);
   (["scePthreadCreate"], scePthreadCreate);
   (["sceVideoOutOpen"], returns 1);
   (["sceVideoOutSetFlipRate"; "sceVideoOutClose"], returns 0);
   (["sceVideoOutGetResolutionStatus"], sceVideoOutGetResolutionStatus);
   (["sceVideoOutSetBufferAttribute"], sceVideoOutSetBufferAttribute);
   (["sceVideoOutRegisterBuffers"], sceVideoOutRegisterBuffers);
   (["sceGnmAddEqEvent"; "sceGnmDeleteEqEvent"], returns 0);
   (["sceGnmDrawInitDefaultHardwareState350"], sceGnmDrawInitDefaultHardwareState350);
   (["sceGnmInsertWaitFlipDone"], sceGnmInsertWaitFlipDone);
   (["fzyMKs9kim0"; "fzyMKs9kim0#R#S"], sceKernelWaitEqueue);
   (["zwY0YV91TTI"; "zwY0YV91TTI#R#S"], sceGnmSubmitCommandBuffers);
   (["E90Gz79LdBQ"; "E90Gz79LdBQ#R#S"], sceGnmSubmitDone);
   (["W1Etj-jlW7Y"; "W1Etj-jlW7Y#B#C"; "5uFKckiJYRM"; "5uFKckiJYRM#B#C";
     "+AFvOEXrKJk"; "+AFvOEXrKJk#B#C"; "GGsn7jMTxw4"; "GGsn7jMTxw4#B#C";
     "7qZVNgEu+SY"; "7qZVNgEu+SY#B#C"; "gAhCn6UiU4Y"; "gAhCn6UiU4Y#B#C";
     "HlTPoZ-oY7Y"; "HlTPoZ-oY7Y#B#C"; "xbxNatawohc"; "xbxNatawohc#B#C";
     "yvZ73uQUqrk"; "yvZ73uQUqrk#B#C"], returns 0);
   (["scePadInit"], returns 0);
   (["scePadOpen"], scePadOpen);
   (["scePadReadState"], scePadReadState);
   (["scePadClose"], returns 0);
   (["sceUserServiceInitialize"; "sceUserServiceTerminate"], returns 0);
   (["sceUserServiceGetInitialUser"], writes_one);
   (["sceUserServiceGetEvent"], returns 0x80990004);
   (["sceUserServiceGetLoginUserIdList"], sceUserServiceGetLoginUserIdList);
   (["sceSystemServiceHideSplashScreen"; "sceSystemServiceParamGetInt"; "sceSysmoduleLoadModule";
     "sceCommonDialogInitialize"; "sceSaveDataInitialize3"; "sceSaveDataTerminate";
     "sceNpSetContentRestriction"; "sceNpSetNpTitleId"; "sceNpScoreCreateNpTitleCtxA";
     "sceScreenShotSetOverlayImageWithOrigin"], returns 0);
   (["sceSystemServiceReceiveEvent"], returns 0x80A10004);
   (["sceSystemServiceGetStatus"], sceSystemServiceGetStatus);
   (["sceSaveDataDialogUpdateStatus"], returns 0);
   (["sceSaveDataDialogGetResult"], returns 0);
   (["sceNpTrophyCreateHandle"], writes_one);
   (["sceNpTrophyCreateContext"], writes_one);
   (["sceAudioOutInit"], returns 0);
   (["sceAudioOutOpen"], returns 1);
   (["sceNpTrophyRegisterContext"], returns 0);
   (["sinf"], float1 f32_sin);
   (["tanf"], float1 f32_tan);
   (["asinf"], float1 f32_asin);
   (["acosf"], float1 f32_acos);
   (["atan2f"], atan2f);
   (["rand"], rand)]%string.

Fixpoint select (arms : list (list string * handler)) (name : bytes) : handler :=
  match arms with
  | [] => unhandled
  | (names, h) :: arms' =>
      if bool_decide (name ∈ str <$> names) then h else select arms' name
  end.

#[export] Instance export_dispatcher : ExportDispatcher world := λ name args,
  select arms name args.

End state.

Arguments world OS HF F : clear implicits.
Arguments OpenCFile : clear implicits.

(** ** What a call can do *)

Section laws.
Context {OS : Type} `{!HostOS OS, !HostOSLaws OS} `{!Bitflags, !BitflagsLaws}.
Context {HF F : Type} `{!HostFiles HF F, !HostFilesLaws HF F, !HostSeek HF F} `{!Mounts.MountOrder}.
Context `{!FloatOps, !MemCmp, !HostSpawn}.
Context {Window : Type} `{!Vulkan.VulkanApi Window}.

Abbreviation world := (world OS HF F).
Abbreviation act := (st (memory * world) halt).

Definition world_ok (w : world) : Prop :=
  ∀ mm, manager (mems w) = Some mm → Virtual.wf mm.

(** The lock of the GPU context is not poisoned. *)
Definition gpu_ok (w : world) : Prop := Gpu.poisoned (gpu w) = false.

(** A computation from bytes in memory, a well-formed manager and a sound lock leaves
    them so, and stops only by a fault. *)
Definition act_safe {A} (c : act A) (Q : A → Prop) : Prop :=
  ∀ m w, mem_ok m → world_ok w → gpu_ok w →
  let '((m', w'), r) := c (m, w) in mem_ok m' ∧ world_ok w' ∧ gpu_ok w' ∧ safe r Q.

Lemma act_ret {A} (a : A) (Q : A → Prop) : Q a → act_safe (mret a) Q.
Proof. by intros HQ m w ? ? ?. Qed.

Lemma act_bind {A B} (c : act A) (k : A → act B) P Q :
  act_safe c P → (∀ a, P a → act_safe (k a) Q) → act_safe (c ≫= k) Q.
Proof.
  intros Hc Hk m w Hm Hw Hg. specialize (Hc m w Hm Hw Hg). unfold mbind, st_bind.
  destruct (c (m, w)) as [[m' w'] [a|[]|]]; destruct Hc as (? & ? & ? & Hr); try done. by apply Hk.
Qed.

Lemma act_mono {A} (c : act A) (P Q : A → Prop) :
  act_safe c P → (∀ a, P a → Q a) → act_safe c Q.
Proof.
  intros Hc HPQ m w Hm Hw Hg. specialize (Hc m w Hm Hw Hg). destruct (c (m, w)) as [[m' w'] r].
  destruct Hc as (? & ? & ? & ?). split_and!; [done..|by eapply guest_mono].
Qed.

Lemma act_reading {A} (f : memory → outcome halt A) Q :
  (∀ m, mem_ok m → safe (f m) Q) → act_safe (reading f) Q.
Proof.
  intros Hf m w Hm Hw Hg. specialize (Hf m Hm). unfold reading, in_memory.
  destruct (f m) as [a|[]|]; cbn; done.
Qed.

Lemma act_writing f : (∀ m, mem_ok m → safe (f m) mem_ok) → act_safe (writing f) (λ _, True).
Proof.
  intros Hf m w Hm Hw Hg. specialize (Hf m Hm). unfold writing, in_memory.
  destruct (f m) as [a|[]|]; cbn; done.
Qed.

Lemma act_modify f : (∀ w, world_ok w → gpu_ok w → world_ok (f w) ∧ gpu_ok (f w)) →
  act_safe (modify f) (λ _, True).
Proof. intros Hf m w Hm Hw Hg. destruct (Hf w Hw Hg). by split_and!. Qed.

Lemma act_get_world : act_safe get_world (λ w, world_ok w ∧ gpu_ok w).
Proof. by intros m w Hm Hw Hg. Qed.

Lemma act_libc c args : call_safe c → act_safe (libc c args) (λ _, True).
Proof.
  intros Hc m w Hm Hw Hg. specialize (Hc args m Hm). unfold libc, in_memory.
  destruct (c args m) as [[m' r]|[]|]; cbn; done.
Qed.

Lemma act_store_out n out v : act_safe (store_out n out v) (λ _, True).
Proof.
  unfold store_out. destruct (negb _); [|by apply act_ret].
  apply act_writing. intros m Hm. by apply store_safe.
Qed.

(** A fresh mapping, of a size the manager can place. *)
Definition len_ok (len : Z) : Prop := 0 ≤ len ∧ len + PAGE_SIZE ≤ Virtual.VA_LIMIT.

Lemma map_fresh_cases len prot ty name m (w : world) : world_ok w → len_ok len →
  (∃ w', map_fresh len prot ty name (m, w) = ((m, w'), Ok None) ∧ world_ok w' ∧
     manager (mems w') = manager (mems w) ∧ set_mems (mems w) w' = w ∧
     phys_mappings (mems w') = phys_mappings (mems w)) ∨
  ∃ o' mm mm' addr, let n := align_up len PAGE_SIZE in
    map_fresh len prot ty name (m, w) =
      ((map_zeros addr n m, set_manager o' mm' w), Ok (Some addr)) ∧
    manager (mems w) = Some mm ∧ Virtual.wf mm' ∧ Virtual.carve_ok addr n ∧ (PAGE_SIZE | addr) ∧
    (∀ a, addr ≤ a < addr + n → Virtual.type_at mm a = Some Virtual.Free) ∧
    ∀ a, Virtual.view mm' a = if in_range addr (addr + n) a
      then Some (ty, prot, name, flags_contains LinkerModule.ANON_PRIVATE
                                   Virtual.MemoryMapFlags.NO_COALESCE)
      else Virtual.view mm a.
Proof.
  intros Hw [Hl Hlim]. unfold map_fresh. destruct (manager (mems w)) as [mm|] eqn:Em.
  2: { left. exists w. split_and!; try done. by destruct w. }
  pose proof (Hw mm Em) as Hwf.
  destruct (Virtual.map_anywhere len prot LinkerModule.ANON_PRIVATE ty name (os (mems w)) mm Hwf Hl Hlim)
    as [(o' & e & ->)|(o' & addr & mm' & -> & Hwf' & Hc & Hp & Hf & Hv & _)].
  - left. eexists. split; [done|]. split_and!; [|done| |done].
    + intros mm1 [= <-]. done.
    + destruct w as [[] ? ? ? ? ? ?]. cbn in *. by subst.
  - right. by exists o', mm, mm', addr.
Qed.

Lemma act_map_fresh len prot ty name : len_ok len →
  act_safe (map_fresh len prot ty name) (λ _, True).
Proof.
  intros Hl m w Hm Hw Hg.
  destruct (map_fresh_cases len prot ty name m w Hw Hl)
    as [(w' & -> & ? & _ & E & _)|(o' & mm & mm' & addr & -> & _ & Hwf & _)].
  - split_and!; [done..| |done]. unfold gpu_ok in *. by rewrite <-E in Hg.
  - split_and!; [by apply map_zeros_ok| |done..]. intros mm1 [= <-]. done.
Qed.

Lemma act_modify_rest (f : world → world) :
  (∀ w, mems (f w) = mems w ∧ gpu (f w) = gpu w) → act_safe (modify f) (λ _, True).
Proof.
  intros Hf. apply act_modify. intros w. destruct (Hf w) as [E1 E2]. unfold world_ok, gpu_ok.
  by rewrite E1, E2.
Qed.

Lemma act_st_get : act_safe st_get (λ '(m, w), mem_ok m ∧ world_ok w ∧ gpu_ok w).
Proof. by intros m w Hm Hw Hg. Qed.

#[local] Hint Resolve act_get_world act_st_get act_libc act_store_out act_map_fresh : guest.
#[local] Hint Extern 1 (act_safe (reading _) _) =>
  apply act_reading; intros; solve [eauto with guest] : guest.
#[local] Hint Extern 1 (act_safe (writing _) _) =>
  apply act_writing; intros; solve [eauto with guest] : guest.
#[local] Hint Extern 1 (act_safe (modify _) _) =>
  apply act_modify_rest; intros ?; split; reflexivity : guest.

Ltac act_step :=
  match goal with
  | |- act_safe (_ ≫= _) _ => eapply act_bind; [solve [eauto with guest]|intros ? ?]
  | |- act_safe (mret _) _ => apply act_ret; done
  | |- act_safe (if ?b then _ else _) _ => destruct b eqn:?
  | |- act_safe (let '(_, _) := ?p in _) _ => destruct p
  | |- act_safe (match ?x with Some _ => _ | None => _ end) _ => destruct x eqn:?
  end.
Ltac act_steps := repeat act_step; try solve [eauto with guest].

Lemma store_words_safe ws a m : mem_ok m → safe (store_words ws a m) mem_ok.
Proof. revert a m. induction ws as [|v ws IH]; intros a m Hm; cbn [store_words]; [done|]. safe_steps. Qed.

Lemma store_at_safe a l m : mem_ok m → safe (store_at a l m) mem_ok.
Proof. revert m. induction l as [|[o v] l IH]; intros m Hm; cbn [store_at]; [done|]. safe_steps. Qed.

Lemma zero_bytes_safe a n m : mem_ok m → safe (zero_bytes a n m) mem_ok.
Proof. intros Hm. apply store_n_safe; [done|]. by apply Forall_replicate. Qed.

Lemma read_addresses_safe n a m : mem_ok m → safe (read_addresses n a m) (λ _, True).
Proof. intros Hm. revert a. induction n as [|n IH]; intros a; cbn [read_addresses]; [done|]. safe_steps. Qed.

Lemma load_words_safe n a m : mem_ok m → safe (load_words n a m) (Forall (in_u 32)).
Proof.
  intros Hm. revert a. induction n as [|n IH]; intros a; cbn [load_words]; [by constructor|].
  eapply guest_bind; [by apply load_safe|intros v Hv]. eapply guest_bind; [apply IH|intros vs Hvs].
  by constructor.
Qed.

Lemma thread_name_safe m a : mem_ok m → safe (thread_name m a) (λ _, True).
Proof. intros Hm. unfold thread_name. safe_steps. Qed.

#[local] Hint Resolve store_words_safe store_at_safe zero_bytes_safe read_addresses_safe
  load_words_safe thread_name_safe : guest.

Lemma submit_buffer_safe dcb : Forall (in_u 32) dcb → act_safe (submit_buffer dcb) (λ _, True).
Proof.
  intros Hd m w Hm Hw Hg. unfold submit_buffer, on_gpu.
  by destruct (Gpu.with_gpu_gfx dcb [] (gpu w) Hd Hg) as (c & t & _ & ->).
Qed.
#[local] Hint Resolve submit_buffer_safe : guest.

Lemma submit_loop_safe n i a b : act_safe (submit_loop n i a b) (λ _, True).
Proof.
  revert i. induction n as [|n IH]; intros i; cbn [submit_loop]; [by apply act_ret|].
  act_step. act_step. eapply (act_bind _ _ (λ _, True)); [|by intros _ _].
  act_steps.
Qed.
#[local] Hint Resolve submit_loop_safe : guest.

(** As [act_safe], but a frame is requested: the renderer may panic. *)
Definition frame_safe (c : act Z) : Prop :=
  ∀ m w, mem_ok m → world_ok w → gpu_ok w →
  let '((m', w'), r) := c (m, w) in mem_ok m' ∧ world_ok w' ∧
    match r with
    | Ok _ | Err (Fault _) => gpu_ok w'
    | Err _ => False
    | Panic => Gpu.gpu_lost (gpu w')
    end.

Lemma submit_done_safe v : frame_safe (_ ← gpu_submit_done; mret v).
Proof.
  intros m w Hm Hw Hg. unfold gpu_submit_done, on_gpu, mbind, st_bind.
  destruct (Gpu.submit_done_cases (gpu w) Hg) as (g' & c & -> & _ & _ & _ & _ & Hl).
  destruct (Gpu.poisoned g') eqn:Ep; split_and!; try done. by apply Hl.
Qed.

Lemma frame_bind {A} (c : act A) (k : A → act Z) P :
  act_safe c P → (∀ a, P a → frame_safe (k a)) → frame_safe (c ≫= k).
Proof.
  intros Hc Hk m w Hm Hw Hg. specialize (Hc m w Hm Hw Hg). unfold mbind, st_bind.
  destruct (c (m, w)) as [[m' w'] [a|[]|]]; destruct Hc as (? & ? & ? & Hr); try done. by apply Hk.
Qed.

Lemma put_cfile_safe p map f h c : act_safe (put_cfile p map f h c) (λ _, True).
Proof. unfold put_cfile. eauto with guest. Qed.
#[local] Hint Resolve put_cfile_safe : guest.

Lemma fopen_safe args : act_safe (fopen args) (λ _, True).
Proof.
  unfold fopen. act_step; [act_steps|]. act_step. act_step. act_step. act_step; [|act_steps].
  act_step; [|act_steps]. destruct (host_open _ _) as [h [f|]]; act_steps.
Qed.

Lemma fread_safe args : act_safe (fread args) (λ _, True).
Proof.
  unfold fread. act_step; [act_steps|]. act_step. destruct a as [m w].
  destruct (lookup_cfile _ _) as [[map f]|]; [|act_steps]. act_step; [|act_steps].
  destruct (host_read _ _ _) as [[h c] r] eqn:E.
  apply host_read_spec in E as [_ Hr]; [|apply wrap_range; lia].
  destruct r as [bs|]; [|act_steps]. act_step. destruct Hr as [_ Hbs]. act_steps.
Qed.

Lemma fclose_safe args : act_safe (fclose args) (λ _, True).
Proof. unfold fclose. act_step. destruct (lookup_cfile _ _) as [[map f]|]; act_steps. Qed.

Lemma seek_cfile_safe p s ok : act_safe (seek_cfile p s ok) (λ _, True).
Proof.
  unfold seek_cfile. act_step. destruct (lookup_cfile _ _) as [[map f]|]; [|act_steps].
  destruct (host_seek _ _ _) as [[h c] r]. act_steps.
Qed.
#[local] Hint Resolve seek_cfile_safe : guest.

Lemma alloc_memory_safe len name : len_ok len → act_safe (alloc_memory len name) (λ _, True).
Proof. intros Hl. unfold alloc_memory. act_steps. Qed.

Lemma malloc_safe args : len_ok (rdi args) → act_safe (malloc args) (λ _, True).
Proof. intros Hl. unfold malloc. apply alloc_memory_safe. by destruct (rdi args =? 0). Qed.

Lemma allocate_direct_safe len out name : len_ok len →
  act_safe (allocate_direct len out name) (λ _, True).
Proof.
  intros Hl. unfold allocate_direct. act_steps. eapply act_bind; [|intros _ _; by apply act_ret].
  apply act_modify. intros w Hw. unfold register_phys_mapping.
  by destruct (phys_mappings (mems w)).
Qed.

Lemma spawn_safe q : act_safe (spawn q) (λ _, True).
Proof. unfold spawn. eauto with guest. Qed.
#[local] Hint Resolve spawn_safe : guest.

Lemma scePthreadCreate_safe args : act_safe (scePthreadCreate args) (λ _, True).
Proof.
  assert (len_ok TCB_SIZE) by done. assert (len_ok STACK_SIZE) by done.
  unfold scePthreadCreate. act_steps.
Qed.

Lemma get_status_safe args : frame_safe (sceSystemServiceGetStatus args).
Proof.
  eapply (frame_bind _ _ (λ _, True)); [act_steps|]. intros _ _. apply submit_done_safe.
Qed.

Lemma returns_safe v args : act_safe (returns v args) (λ _, True).
Proof. by apply act_ret. Qed.

Lemma map_direct_safe args : act_safe (sceKernelMapDirectMemory args) (λ _, True).
Proof. unfold sceKernelMapDirectMemory. act_steps. Qed.

Lemma fseek_safe args : act_safe (fseek args) (λ _, True).
Proof. unfold fseek. act_steps. Qed.

Lemma ftell_safe args : act_safe (ftell args) (λ _, True).
Proof. unfold ftell. act_steps. Qed.

Lemma create_equeue_safe args : act_safe (sceKernelCreateEqueue args) (λ _, True).
Proof. unfold sceKernelCreateEqueue. act_steps. Qed.

Lemma resolution_status_safe args : act_safe (sceVideoOutGetResolutionStatus args) (λ _, True).
Proof. unfold sceVideoOutGetResolutionStatus. act_steps. Qed.

Lemma buffer_attribute_safe args : act_safe (sceVideoOutSetBufferAttribute args) (λ _, True).
Proof. unfold sceVideoOutSetBufferAttribute. act_steps. Qed.

Lemma register_buffers_safe args : act_safe (sceVideoOutRegisterBuffers args) (λ _, True).
Proof. unfold sceVideoOutRegisterBuffers. act_steps. Qed.

Lemma init_state_safe args : act_safe (sceGnmDrawInitDefaultHardwareState350 args) (λ _, True).
Proof. unfold sceGnmDrawInitDefaultHardwareState350. act_steps. Qed.

Lemma wait_flip_safe args : act_safe (sceGnmInsertWaitFlipDone args) (λ _, True).
Proof. unfold sceGnmInsertWaitFlipDone. act_steps. Qed.

Lemma wait_equeue_safe args : act_safe (sceKernelWaitEqueue args) (λ _, True).
Proof. unfold sceKernelWaitEqueue. act_steps. Qed.

Lemma submit_safe args : act_safe (sceGnmSubmitCommandBuffers args) (λ _, True).
Proof. unfold sceGnmSubmitCommandBuffers. act_steps. Qed.

Lemma pad_open_safe args : act_safe (scePadOpen args) (λ _, True).
Proof. by apply act_ret. Qed.

Lemma pad_read_safe args : act_safe (scePadReadState args) (λ _, True).
Proof. unfold scePadReadState. act_steps. Qed.

Lemma writes_one_safe args : act_safe (writes_one args) (λ _, True).
Proof. unfold writes_one. act_steps. Qed.

Lemma login_list_safe args : act_safe (sceUserServiceGetLoginUserIdList args) (λ _, True).
Proof. unfold sceUserServiceGetLoginUserIdList. act_steps. Qed.

Lemma float1_safe f args : act_safe (float1 f args) (λ _, True).
Proof. by apply act_ret. Qed.

Lemma atan2f_safe args : act_safe (atan2f args) (λ _, True).
Proof. by apply act_ret. Qed.

Lemma rand_safe args : act_safe (rand args) (λ _, True).
Proof. unfold rand. act_steps. Qed.

Lemma unhandled_safe args : act_safe (unhandled args) (λ _, True).
Proof. unfold unhandled. act_steps. Qed.

(** Allocations are not larger than the address space. *)
Definition sizes_ok (name : bytes) (args : export_args) : Prop :=
  (name ∈ str <$> ["malloc"; "_Znwm"; "sceKernelAllocateMainDirectMemory"]%string →
     len_ok (rdi args)) ∧
  (name = str "sceKernelAllocateDirectMemory" → len_ok (rdx args)).

Definition exit_names : list bytes := str <$> ["catchReturnFromMain"; "exit"]%string.

(** The calls that request a frame: sceGnmSubmitDone, by its two names, and
    sceSystemServiceGetStatus. *)
Definition frame_names : list bytes :=
  str <$> ["E90Gz79LdBQ"; "E90Gz79LdBQ#R#S"; "sceSystemServiceGetStatus"]%string.

(** What the calls by a name may do. *)
Definition named_safe (name : bytes) (c : act Z) : Prop :=
  act_safe c (λ _, True) ∨ frame_safe c ∧ name ∈ frame_names.

(** An arm is safe for the calls that reach it. *)
Definition arm_safe (arm : list string * handler (OS:=OS) (HF:=HF) (F:=F)) : Prop :=
  ∀ name args, name ∈ str <$> arm.1 → sizes_ok name args →
  arm.2 args = exit_process args ∧ name ∈ exit_names ∨
  named_safe name (arm.2 args) ∧ name ∉ exit_names.

Abbreviation arms := (arms (OS:=OS) (HF:=HF) (F:=F)).

Lemma arm_safe_named names h :
  (∀ name args, name ∈ str <$> names → sizes_ok name args → named_safe name (h args)) →
  forallb (λ s, negb (bool_decide (str s ∈ exit_names))) names = true → arm_safe (names, h).
Proof.
  intros Hh Hn name args Hin Hs. right. split; [by eapply Hh|].
  apply list_elem_of_fmap in Hin as (s & -> & Hs'). rewrite forallb_forall in Hn.
  specialize (Hn s). rewrite <-list_elem_of_In in Hn. specialize (Hn Hs').
  by case_bool_decide.
Qed.

Lemma arm_safe_intro names h :
  (∀ args, act_safe (h args) (λ _, True)) →
  forallb (λ s, negb (bool_decide (str s ∈ exit_names))) names = true → arm_safe (names, h).
Proof. intros Hh. apply arm_safe_named. intros name args _ _. by left. Qed.

Create HintDb arms discriminated.
#[local] Hint Resolve returns_safe cxa_guard_acquire_safe cxa_guard_release_safe memcpy_safe
  memset_safe strcpy_safe strlen_safe strcmp_safe memcmp_safe strcat_safe printf_safe puts_safe
  vsnprintf_safe fopen_safe fread_safe fclose_safe fseek_safe ftell_safe map_direct_safe
  create_equeue_safe scePthreadCreate_safe resolution_status_safe buffer_attribute_safe
  register_buffers_safe init_state_safe wait_flip_safe wait_equeue_safe submit_safe
  pad_open_safe pad_read_safe writes_one_safe login_list_safe float1_safe atan2f_safe
  rand_safe : arms.

Ltac arm :=
  apply Forall_cons; split;
    [apply arm_safe_intro;
       [first [solve [auto with arms]|intros args; apply act_libc; solve [auto with arms]]
       |vm_compute; reflexivity]|].

Ltac sized_arm t :=
  apply Forall_cons; split;
    [apply arm_safe_named; [intros name args Hn [Hm Hd]; cbn in Hn; left; t|vm_compute; reflexivity]|].

Ltac frame_arm t :=
  apply Forall_cons; split;
    [apply arm_safe_named; [intros name args Hn _; cbn in Hn; right; split; [apply t|cbn; set_solver]
                           |vm_compute; reflexivity]|].

Lemma arms_safe : Forall arm_safe arms.
Proof.
  unfold arms. repeat arm.
  apply Forall_cons; split; [intros name args Hn _; by left|]. 
  sized_arm ltac:(apply malloc_safe, Hm; cbn; set_solver).
  repeat arm.
  sized_arm ltac:(apply allocate_direct_safe, Hd; cbn; set_solver).
  sized_arm ltac:(apply allocate_direct_safe, Hm; cbn; set_solver).
  repeat arm. frame_arm submit_done_safe. repeat arm. frame_arm get_status_safe.
  repeat arm. apply Forall_nil_2.
Qed.

Lemma select_cases l name : Forall arm_safe l → 
  (select l name = unhandled ∧ ∀ names h, (names, h) ∈ l → name ∉ str <$> names) ∨
  ∃ arm, arm_safe arm ∧ name ∈ str <$> arm.1 ∧ select l name = arm.2.
Proof.
  induction 1 as [|[names h] l Ha Hl IH]; cbn [select]; [left; set_solver|].
  case_bool_decide as Hn; [right; by exists (names, h)|].
  destruct IH as [[-> IH]|?]; [left|by right]. split; [done|].
  intros names' h' [[= -> ->]|Hin]%elem_of_cons; [done|by eapply IH].
Qed.

(** C4: a trapped call of any exported name, with any arguments, never calls [abort],
    and it panics in one case only.  From a memory of bytes, a well-formed memory manager
    and a lock of the GPU that is not poisoned, with allocation sizes that fit the address
    space ([sizes_ok]: at most [VA_LIMIT] less a page), it returns a value or faults on
    guest memory, and leaves the three so.  Only the calls that request a
    frame ([frame_names]) may panic, and then Vulkan has reported an error that the
    renderer unwraps; memory and manager are intact, and the lock is poisoned.  The only calls that
    end the process are [exit] and the return from [main], always with status 0. *)
Theorem dispatch_safe (name : bytes) (args : export_args) (m : memory) (w : world) :
  mem_ok m → world_ok w → gpu_ok w → sizes_ok name args →
  let '((m', w'), r) :=
    hle_export_dispatcher (ExportDispatcher:=export_dispatcher) name args (m, w) in
  mem_ok m' ∧ world_ok w' ∧
  match r with
  | Ok _ | Err (Fault _) => gpu_ok w' ∧ name ∉ exit_names
  | Err (Exited code) => code = 0 ∧ name ∈ exit_names
  | Err Aborted => False
  | Panic => name ∈ frame_names ∧ Gpu.gpu_lost (gpu w')
  end.
Proof.
  intros Hm Hw Hg Hs. unfold hle_export_dispatcher, export_dispatcher.
  assert (∀ (c : act Z), named_safe name c → name ∉ exit_names →
    let '((m', w'), r) := c (m, w) in mem_ok m' ∧ world_ok w' ∧
    match r with
    | Ok _ | Err (Fault _) => gpu_ok w' ∧ name ∉ exit_names
    | Err (Exited code) => code = 0 ∧ name ∈ exit_names
    | Err Aborted => False
    | Panic => name ∈ frame_names ∧ Gpu.gpu_lost (gpu w')
    end) as Hgo.
  { intros c [Hc|[Hc Hf]] Hn; specialize (Hc m w Hm Hw Hg);
      destruct (c (m, w)) as [[m' w'] [a|[]|]]; naive_solver. }
  destruct (select_cases arms name arms_safe) as [[-> Hno]|(arm & Ha & Hn & ->)].
  - apply Hgo; [left; apply unhandled_safe|]. eapply (Hno _ exit_process). cbn. set_solver.
  - destruct (Ha name args Hn Hs) as [[-> Hx]|[Hc Hx]]; [done|by apply Hgo].
Qed.

End laws.
End ExportHandlers.
