(* ===== verification/ExportLaws.v ===== *)
(** * What the emulated library functions promise (hle/exports.rs)

    Calls go through [hle_export_dispatcher] by name.  Section [heap]: the blocks of
    [malloc]; section [direct]: direct memory is identity-mapped; section [gnm]:
    command buffers that are written, and command buffers that are submitted; section
    [cfiles]: the [FILE*] handles. *)

From S2P Require Import Prelude CommonTypes BTreeMap PhysicalMemory AddressSpace.
From S2P Require Import VirtualMemory Bytes GuestMemory UnixPath KernelServices.
From S2P Require Import LinkerModule Vulkan Gpu Exports Libc ExportHandlers.

Open Scope rust_scope.

Module ExportLaws.

Import Pm4 Libc ExportHandlers.

Section laws.
Context {OS : Type} `{!HostOS OS, !HostOSLaws OS} `{!Bitflags, !BitflagsLaws}.
Context {HF F : Type} `{!HostFiles HF F, !HostFilesLaws HF F, !HostSeek HF F} `{!Mounts.MountOrder}.
Context `{!FloatOps, !MemCmp, !HostSpawn}.
Context {Window : Type} `{!Vulkan.VulkanApi Window}.

Abbreviation world := (world OS HF F).
Abbreviation act := (st (memory * world) halt).
Abbreviation hle name args :=
  (hle_export_dispatcher (ExportDispatcher:=export_dispatcher) (str name%string) args).

(** Arguments in the first registers. *)
Definition regs1 (a : Z) : export_args :=
  {| rdi := a; rsi := 0; rdx := 0; rcx := 0; r8 := 0; r9 := 0; stack_arg7 := 0; xmm0_bits := 0;
     xmm1_bits := 0 |}.

(** ** The heap *)

Inductive heap_call := Malloc (len : Z) | Free (p : Z).

(** The size of the block behind a pointer. *)
Definition block_size (len : Z) : Z := align_up (if len =? 0 then 4096 else len) PAGE_SIZE.

Definition heap_step (c : heap_call) (s : memory * world) : (memory * world) * list (Z * Z) :=
  match c with
  | Malloc len =>
      match hle "malloc" (regs1 len) s with
      | (s', Ok p) => (s', if p =? 0 then [] else [(p, block_size len)])
      | (s', _) => (s', [])
      end
  | Free p => ((hle "free" (regs1 p) s).1, [])
  end.

(** The blocks handed out, oldest first. *)
Fixpoint heap_run (cs : list heap_call) (s : memory * world) : (memory * world) * list (Z * Z) :=
  match cs with
  | [] => (s, [])
  | c :: cs' =>
      let '(s, bs) := heap_step c s in
      let '(s, bs') := heap_run cs' s in (s, bs ++ bs')
  end.

Definition heap_call_ok (c : heap_call) : Prop :=
  match c with Malloc len => len_ok len | Free _ => True end.

(** Addresses the manager may still hand out. *)
Definition free_in (w : world) (a : Z) : Prop :=
  ∃ mm, manager (mems w) = Some mm ∧ Virtual.type_at mm a = Some Virtual.Free.

Definition inside (b : Z * Z) (a : Z) : Prop := b.1 ≤ a < b.1 + b.2.

Lemma block_len_ok len : len_ok len → len_ok (if len =? 0 then 4096 else len).
Proof. by destruct (len =? 0). Qed.

(** A fresh mapping takes free addresses and zeroes them. *)
Lemma map_fresh_free len prot ty name m (w : world) : ty ≠ Virtual.Free → world_ok w → len_ok len →
  let '((m', w'), r) := map_fresh len prot ty name (m, w) in
  world_ok w' ∧ (∀ a, free_in w' a → free_in w a) ∧
  match r with
  | Ok None => m' = m
  | Ok (Some addr) =>
      let b := (addr, align_up len PAGE_SIZE) in
      (PAGE_SIZE | addr) ∧ Virtual.carve_ok addr b.2 ∧ (∀ a, inside b a → free_in w a ∧ ¬ free_in w' a) ∧
      ∀ a, inside b a ∧ m' !! a = Some 0 ∨ ¬ inside b a ∧ m' !! a = m !! a
  | _ => False
  end.
Proof.
  intros Hty Hw Hl.
  destruct (map_fresh_cases len prot ty name m w Hw Hl)
    as [(w' & -> & Hw' & Em & _)|(o' & mm & mm' & addr & -> & Em & Hwf & Hc & Hp & Hf & Hv)].
  { split_and!; [done| |done]. intros a. unfold free_in. by rewrite Em. }
  assert (∀ a, free_in (set_manager o' mm' w) a →
    Virtual.type_at mm a = Some Virtual.Free ∧ ¬ inside (addr, align_up len PAGE_SIZE) a) as Hold.
  { intros a (mm1 & [= <-] & Ha). unfold Virtual.type_at in Ha.
    specialize (Hv a). unfold Virtual.view, Virtual.view_map in Hv.
    destruct (at_addr (Virtual.vma_map mm') a) as [v|]; [|done].
    injection Ha as Ha. unfold inside. cbn [fst snd].
    revert Hv. case_range.
    - intros [= Hv _ _ _]. congruence.
    - intros Hv. split; [|lia]. unfold Virtual.type_at.
      destruct (at_addr (Virtual.vma_map mm) a) as [v0|]; [|done]. cbn in *.
      injection Hv as Hv _ _ _. congruence. }
  split_and!.
  - intros mm1 [= <-]. done.
  - intros a [? _]%Hold. by exists mm.
  - split_and!; [done|done| |].
    + intros a Ha. split; [exists mm; split; [done|by apply Hf]|]. by intros [_ ?]%Hold.
    + intros a. rewrite map_zeros_lookup by (destruct Hc; lia).
      unfold inside. cbn [fst snd].
      case_range; [left|right]; split; done || lia.
Qed.

(** One step of the heap: at most one block, taken from free addresses and zeroed;
    nothing else of memory changes. *)
Lemma heap_step_spec c m (w : world) : world_ok w → heap_call_ok c →
  (∀ a, free_in w a → a ≠ 0) →
  let '((m', w'), bs) := heap_step c (m, w) in
  world_ok w' ∧ (∀ a, free_in w' a → free_in w a) ∧
  (bs = [] ∧ m' = m ∨
   ∃ b, bs = [b] ∧ (PAGE_SIZE | b.1) ∧ (∀ a, inside b a → free_in w a ∧ ¬ free_in w' a) ∧
     ∀ a, inside b a ∧ m' !! a = Some 0 ∨ ¬ inside b a ∧ m' !! a = m !! a).
Proof.
  intros Hw Hc Hne0. destruct c as [len|p]; cbn [heap_step heap_call_ok] in *.
  2: { change (hle "free" (regs1 p) (m, w)) with ((m, w), Ok (E:=halt) 0). cbn [fst].
    split_and!; [done..|by left]. }
  change (hle "malloc" (regs1 len) (m, w)) with (malloc (regs1 len) (m, w)).
  unfold malloc, alloc_memory. cbn [rdi regs1]. fold (block_size len).
  pose proof (map_fresh_free _ CPU_RW Virtual.Flexible "heap_alloc" m w ltac:(done) Hw
    (block_len_ok _ Hc)) as Hm.
  fold (block_size len) in Hm. unfold mbind at 1, st_bind.
  destruct (map_fresh _ _ _ _ (m, w)) as [[m' w'] [[addr|]|h|]];
    destruct Hm as (Hw' & Hf & Hr); cbn [default mret st_ret]; [|by split_and!; [..|left]|done..].
  destruct Hr as (Hp & Hpos & Hin & Hz). cbn [default from_option id].
  destruct (Z.eqb_spec addr 0) as [->|Hne].
  { destruct (Hne0 0); [|done]. apply Hin. destruct Hpos. split; cbn in *; lia. }
  split_and!; [done..|]. right. eexists. split_and!; [done..|exact Hz].
Qed.

(** C5: the heap of the emulated program, over any sequence of [malloc] and [free]:
    the blocks handed out never overlap (freed memory is never handed out again),
    they are page-aligned, come from addresses that were free, read as zero, and
    nothing outside them changes. *)
Theorem heap_blocks_disjoint (cs : list heap_call) (m : memory) (w : world) :
  world_ok w → Forall heap_call_ok cs → (∀ a, free_in w a → a ≠ 0) →
  let '((m', w'), bs) := heap_run cs (m, w) in
  (∀ i j b c a, (i < j)%nat → bs !! i = Some b → bs !! j = Some c → inside b a → ¬ inside c a) ∧
  Forall (λ b, (PAGE_SIZE | b.1) ∧
               ∀ a, inside b a → free_in w a ∧ m' !! a = Some 0) bs ∧
  ∀ a, Forall (λ b, ¬ inside b a) bs → m' !! a = m !! a.
Proof.
  intros Hw Hcs. revert m w Hw. induction Hcs as [|c cs Hc Hcs IH]; intros m w Hw Hne0; cbn [heap_run].
  { split_and!; [done|constructor|done]. }
  pose proof (heap_step_spec c m w Hw Hc Hne0) as Hs.
  destruct (heap_step c (m, w)) as [[m1 w1] bs1]. destruct Hs as (Hw1 & Hf1 & Hb).
  specialize (IH m1 w1 Hw1 ltac:(auto)).
  destruct (heap_run cs (m1, w1)) as [[m2 w2] bs2]. destruct IH as (Hd & Hz & Hk).
  assert (Forall (λ b, (PAGE_SIZE | b.1) ∧ ∀ a, inside b a → free_in w a ∧ m2 !! a = Some 0) bs2)
    as Hz'.
  { eapply Forall_impl; [exact Hz|]. intros b [? Hb']. split; [done|].
    intros a [? ?]%Hb'. auto. }
  destruct Hb as [[-> ->]|(b & -> & Hp & Hin & Hm)]; [done|].
  assert (∀ a, inside b a → Forall (λ c, ¬ inside c a) bs2) as Hsep.
  { intros a Ha. eapply Forall_impl; [exact Hz|]. intros c' [_ Hc'] Hca.
    destruct (Hc' a Hca) as [? _]. by apply (Hin a Ha). }
  split_and!.
  - intros [|i] [|j] b' c' a Hij Hi Hj Hb'; [lia| |lia|].
    + injection Hi as <-. change (bs2 !! j = Some c') in Hj.
      by apply (Forall_lookup_1 _ _ _ _ (Hsep a Hb') Hj).
    + eapply (Hd i j); [lia|done..].
  - constructor; [|done]. split; [done|]. intros a Ha. split; [by apply Hin|].
    rewrite Hk by by apply Hsep. by destruct (Hm a) as [[_ ?]|[? _]].
  - intros a [Ha Hrest]%Forall_cons. rewrite Hk by done. by destruct (Hm a) as [[? _]|[_ ?]].
Qed.

(** ** Direct memory *)

(** Physical addresses are virtual addresses. *)
Definition identity_mapped (w : world) : Prop :=
  ∀ l e, phys_mappings (mems w) = Some l → e ∈ l → phys_start e = virt_start e.

Lemma find_mapping_identity l a : (∀ e, e ∈ l → phys_start e = virt_start e) → in_u 64 a →
  find_mapping l a = None ∨ find_mapping l a = Some a.
Proof.
  intros Hl Ha. induction l as [|e l IH]; cbn [find_mapping]; [by left|].
  destruct (_ && _); [right|apply IH; set_solver].
  rewrite (Hl e) by set_solver. f_equal. unfold add64, sub64, wrap.
  rewrite Z.add_mod_idemp_r by done.
  replace (virt_start e + (a - virt_start e)) with a by lia. by apply wrap_small.
Qed.

Lemma find_mapping_last l e a : phys_start e ≤ a < phys_start e + pm_size e →
  phys_start e + pm_size e < 2 ^ 64 → 0 ≤ phys_start e → is_Some (find_mapping (l ++ [e]) a).
Proof.
  intros Ha Hl H0'. induction l as [|e' l IH]; cbn [find_mapping app].
  - rewrite (proj2 (Z.leb_le _ _)) by lia. rewrite (proj2 (Z.ltb_lt _ _)); [by eexists|].
    unfold add64. rewrite wrap_small; unfold in_u; lia.
  - destruct (_ && _); [by eexists|done].
Qed.

Lemma store_out_cases n out v m (w : world) : store_out n out v (m, w) =
  if decide (out = 0 ∨ mapped m out (Z.of_nat n))
  then ((if out =? 0 then m else write_bytes (le_encode n v) out m, w), Ok tt)
  else ((m, w), Err (Fault out)).
Proof.
  unfold store_out. destruct (Z.eqb_spec out 0) as [->|Hn]; cbn [negb].
  { by rewrite decide_True by by left. }
  unfold writing, in_memory. case_decide as Hm.
  - destruct Hm as [?|Hm]; [done|]. by rewrite store_total.
  - by rewrite store_fault by naive_solver.
Qed.

Lemma identity_registered w addr len : identity_mapped w →
  identity_mapped (register_phys_mapping addr addr len w).
Proof.
  unfold identity_mapped, register_phys_mapping. intros Hid.
  destruct (phys_mappings (mems w)) as [l|] eqn:E; cbn; [|by rewrite E].
  intros l' e [= <-] [He|He]%elem_of_app; [by eapply Hid|].
  apply list_elem_of_singleton in He as ->. done.
Qed.

Lemma register_phys_to_virt w addr len a : identity_mapped w → is_Some (phys_mappings (mems w)) →
  0 ≤ addr → addr + len < 2 ^ 64 → addr ≤ a < addr + len →
  phys_to_virt a (register_phys_mapping addr addr len w) = Some a.
Proof.
  intros Hid [l El] ? ? Ha. pose proof (identity_registered w addr len Hid) as Hid'.
  unfold phys_to_virt, register_phys_mapping in *. rewrite El in *. cbn in *.
  set (l' := l ++ _) in *.
  destruct (find_mapping_identity l' a) as [Hn|?]; [intros e; by apply Hid'|unfold in_u; lia| |done].
  destruct (find_mapping_last l {| phys_start := addr; virt_start := addr; pm_size := len |} a)
    as [? Hs]; [cbn; lia..|]. fold l' in Hs. congruence.
Qed.

Lemma free_in_registered w addr len a :
  free_in (register_phys_mapping addr addr len w) a ↔ free_in w a.
Proof. unfold free_in, register_phys_mapping. by destruct (phys_mappings (mems w)). Qed.

Lemma hle_map_direct args m (w : world) : rdi args ≠ 0 → mapped m (rdi args) 8 →
  hle "sceKernelMapDirectMemory" args (m, w) =
  ((write_bytes (le_encode 8 (r8 args)) (rdi args) m, w), Ok 0).
Proof.
  intros Hne Hm. change (hle "sceKernelMapDirectMemory" args) with
    (sceKernelMapDirectMemory (OS:=OS) (HF:=HF) (F:=F) args).
  unfold sceKernelMapDirectMemory, mbind at 1, st_bind.
  by rewrite store_out_cases, decide_True, (proj2 (Z.eqb_neq _ _)) by first [done|by right].
Qed.

(** C14: direct memory, allocated and mapped: a successful
    [sceKernelAllocateDirectMemory] takes page-aligned free addresses, writes the
    first one as the "physical" address, and makes [phys_to_virt] the identity on
    them; [sceKernelMapDirectMemory] of that address then succeeds and returns the
    same address.  A failed allocation changes no memory and returns
    [ORBIS_ENOMEM]; the call faults only on an out pointer that is not mapped. *)
Theorem direct_memory_identity (args : export_args) (m : memory) (w : world) :
  world_ok w → identity_mapped w → is_Some (phys_mappings (mems w)) → len_ok (rdx args) →
  let '((m', w'), r) := hle "sceKernelAllocateDirectMemory" args (m, w) in
  world_ok w' ∧ identity_mapped w' ∧
  (r = Ok ORBIS_ENOMEM ∧ m' = m ∨
   r = Err (Fault (r9 args)) ∧ r9 args ≠ 0 ∧ ¬ mapped m (r9 args) 8 ∨
   r = Ok 0 ∧ ∃ addr, (PAGE_SIZE | addr) ∧
     (∀ a, inside (addr, align_up (rdx args) PAGE_SIZE) a → free_in w a ∧ ¬ free_in w' a) ∧
     (∀ a, inside (addr, rdx args) a → phys_to_virt a w' = Some a) ∧
     (r9 args ≠ 0 → load 8 m' (r9 args) = Ok addr) ∧
     ∀ args', r8 args' = addr → rdi args' ≠ 0 → mapped m' (rdi args') 8 →
       ∃ m'', hle "sceKernelMapDirectMemory" args' (m', w') = ((m'', w'), Ok 0) ∧
              load 8 m'' (rdi args') = Ok addr).
Proof.
  intros Hw Hid Hsome Hl.
  change (hle "sceKernelAllocateDirectMemory" args) with (sceKernelAllocateDirectMemory (HF:=HF)
    (F:=F) args).
  unfold sceKernelAllocateDirectMemory, allocate_direct.
  pose proof (map_fresh_cases (rdx args) CPU_RW Virtual.Direct "direct_phys" m w Hw Hl) as Hcases.
  pose proof (map_fresh_free (rdx args) CPU_RW Virtual.Direct "direct_phys" m w ltac:(done) Hw Hl) as Hm.
  unfold mbind at 1, st_bind.
  assert (∀ m' w' r, map_fresh (rdx args) CPU_RW Virtual.Direct "direct_phys" (m, w) = ((m', w'), r) →
    phys_mappings (mems w') = phys_mappings (mems w)) as Hphys.
  { intros m' w' r. destruct Hcases as [(w1 & -> & _ & _ & _ & ?)|(? & ? & ? & ? & -> & _)];
      by intros [= <- <- <-]. }
  destruct (map_fresh _ _ _ _ (m, w)) as [[m' w'] r]. specialize (Hphys m' w' r eq_refl).
  assert (identity_mapped w') as Hid' by (intros l e; rewrite Hphys; apply Hid).
  rewrite <-Hphys in Hsome.
  destruct r as [[addr|]|h|]; destruct Hm as (Hw' & Hf & Hr); [|by split_and!; [..|left]|done..].
  destruct Hr as (Hp & (Hc0 & Hc & Hlim) & Hin & Hz). cbn [snd] in *. unfold Virtual.VA_LIMIT in Hlim.
  assert (rdx args ≤ align_up (rdx args) PAGE_SIZE) as Hal.
  { destruct Hl. apply (align_up_spec _ _ is_pow2_PAGE_SIZE); unfold Virtual.VA_LIMIT, PAGE_SIZE in *; lia. }
  unfold mbind at 1, st_bind. rewrite store_out_cases. case_decide as Hout.
  2: { split_and!; [done..|]. right. left. split_and!; [done|tauto|]. intros Hm. apply Hout. right.
    intros x Hx. destruct (Hz x) as [[_ ->]|[_ ->]]; [done|by apply Hm]. }
  cbn [modify mbind st_bind mret st_ret]. set (w2 := register_phys_mapping addr addr (rdx args) w').
  assert (world_ok w2) as Hw2.
  { unfold w2, register_phys_mapping. destruct (phys_mappings (mems w')); [|done].
    exact Hw'. }
  split; [done|]. split; [by apply identity_registered|]. right. right. split; [done|].
  exists addr. split_and!; [done| | | |].
  - intros a Ha. unfold w2. rewrite free_in_registered. by apply Hin.
  - intros a Ha. unfold inside in Ha. cbn [fst snd] in Ha.
    apply register_phys_to_virt; [done|done|lia..].
  - intros Hne. destruct Hout as [?|Hm]; [done|]. rewrite (proj2 (Z.eqb_neq _ _)) by done.
    eapply load_store_same; [by apply store_total|change (256 ^ Z.of_nat 8) with (2 ^ 64); lia].
  - intros args' Hr8 Hne Hm.
    exists (write_bytes (le_encode 8 addr) (rdi args') (if r9 args =? 0 then m' else
      write_bytes (le_encode 8 addr) (r9 args) m')).
    split; [|eapply load_store_same; [by apply store_total|change (256 ^ Z.of_nat 8) with (2 ^ 64); lia]].
    rewrite hle_map_direct, Hr8 by done. done.
Qed.

(** ** Command buffers *)

Definition words_bytes (ws : list Z) : bytes := concat (le_encode 4 <$> ws).

Lemma words_bytes_length ws : blen (words_bytes ws) = 4 * blen ws.
Proof.
  unfold words_bytes. induction ws as [|v ws IH]; [done|]. rewrite fmap_cons. cbn [concat].
  rewrite length_app, le_encode_length. simpl length. lia.
Qed.

Lemma store_words_Ok ws a m : mapped m a (4 * blen ws) →
  store_words ws a m = Ok (write_bytes (words_bytes ws) a m).
Proof.
  revert a m. induction ws as [|v ws IH]; intros a m Hm; cbn [store_words]; [done|].
  simpl length in Hm. rewrite store_total by (intros x Hx; apply Hm; lia).
  cbn [mbind outcome_bind]. rewrite IH.
  - unfold words_bytes. rewrite fmap_cons. cbn [concat]. rewrite write_bytes_app.
    by rewrite le_encode_length.
  - apply write_bytes_mapped; intros x Hx; apply Hm; rewrite ?le_encode_length in *; lia.
Qed.

Lemma load_words_at ws a m : Forall (in_u 32) ws → bytes_at (words_bytes ws) m a →
  load_words (length ws) a m = Ok ws.
Proof.
  intros Hws. revert a. induction Hws as [|v ws Hv _ IH]; intros a Hm; cbn [load_words length]; [done|].
  unfold words_bytes in Hm. rewrite fmap_cons in Hm. cbn [concat] in Hm.
  apply bytes_at_app in Hm as [Hv' Hm]. rewrite le_encode_length in Hm. 
  assert (load 4 m a = Ok v) as ->.
  { apply load_Ok. exists (le_encode 4 v). unfold bytes_at in Hv'. rewrite le_encode_length in Hv'.
    split; [done|]. by rewrite le_decode_encode. }
  cbn [mbind outcome_bind]. by rewrite IH.
Qed.

(** A buffer of a submission: its entries in the two tables, and its words when it
    is one that is passed on. *)
Definition buffer : Type := Z * Z * list Z.

Definition passed_on (b : buffer) : bool := buffer_accepted b.1.1 (b.1.2 / 4).

Definition buffer_at (m : memory) (addrs sizes : Z) (i : Z) (b : buffer) : Prop :=
  load 8 m (addrs + 8 * i) = Ok b.1.1 ∧ load 4 m (sizes + 4 * i) = Ok b.1.2 ∧
  (passed_on b = true → load_words (Z.to_nat (b.1.2 / 4)) b.1.1 m = Ok b.2).

(** The calls on the GPU that a submission stands for. *)
Definition submissions (bs : list buffer) : list (Gpu.gpu_call (Window:=Window)) :=
  (λ b, Gpu.SubmitGfx b.2 []) <$> List.filter passed_on bs.

Lemma set_gpu_same (w : world) : set_gpu (gpu w) w = w.
Proof. by destruct w. Qed.

Lemma set_gpu_twice g g' (w : world) : set_gpu g (set_gpu g' w) = set_gpu g w.
Proof. done. Qed.

Lemma act_bind_Ok {A B} (c : act A) (k : A → act B) s s' a :
  c s = (s', Ok a) → (c ≫= k) s = k a s'.
Proof. intros E. unfold mbind, st_bind. by rewrite E. Qed.

Lemma act_bind_Panic {A B} (c : act A) (k : A → act B) s s' :
  c s = (s', Panic) → (c ≫= k) s = (s', Panic).
Proof. intros E. unfold mbind, st_bind. by rewrite E. Qed.

Lemma reading_Ok {A} (f : memory → outcome halt A) m (w : world) a :
  f m = Ok a → reading f (m, w) = ((m, w), Ok a).
Proof. intros E. unfold reading, in_memory. by rewrite E. Qed.

(** What a submission makes of the outcome on the GPU: the panic is that of a poisoned
    lock. *)
Definition submitted {A} (c : act A) (a : A) (m : memory) (w : world)
    (r : Gpu.GpuGlobal * outcome Empty_set unit) : Prop :=
  match r with
  | (g, Ok _) => Gpu.poisoned g = Gpu.poisoned (gpu w) ∧ c (m, w) = ((m, set_gpu g w), Ok a)
  | (_, Err e) => match e with end
  | (g, Panic) => Gpu.poisoned (gpu w) = true ∧ c (m, w) = ((m, set_gpu g w), Panic)
  end.

(** A submission of one buffer is one step of the GPU. *)
Lemma submit_buffer_step dcb m (w : world) : Forall (in_u 32) dcb →
  submitted (submit_buffer dcb) tt m w (Gpu.gpu_step (Gpu.SubmitGfx dcb []) (gpu w)).
Proof.
  intros Hd. unfold submitted, submit_buffer, on_gpu. cbn [Gpu.gpu_step].
  destruct (Gpu.poisoned (gpu w)) eqn:Hp.
  - unfold Gpu.with_gpu, Gpu.locked. by rewrite Hp.
  - by destruct (Gpu.with_gpu_gfx dcb [] (gpu w) Hd Hp) as (c & t & _ & ->).
Qed.

Lemma submit_loop_spec bs i addrs sizes m (w : world) : mem_ok m →
  (∀ k b, bs !! k = Some b → buffer_at m addrs sizes (i + Z.of_nat k) b) →
  submitted (submit_loop (length bs) i addrs sizes) tt m w (Gpu.gpu_run (submissions bs) (gpu w)).
Proof.
  intros Hm. revert i w. induction bs as [|b bs IH]; intros i w Hb.
  { split; [done|]. by rewrite set_gpu_same. }
  destruct (Hb 0%nat b eq_refl) as (Hp & Hs & Hws). rewrite Z.add_0_r in *.
  assert (∀ k b, bs !! k = Some b → buffer_at m addrs sizes (i + 1 + Z.of_nat k) b) as Hb'.
  { intros k b' Hk. replace (i + 1 + Z.of_nat k) with (i + Z.of_nat (S k)) by lia. by apply Hb. }
  unfold submitted. cbn [submit_loop length]. unfold submissions. cbn [List.filter].
  rewrite (act_bind_Ok _ _ _ _ _ (reading_Ok _ _ _ _ Hp)).
  rewrite (act_bind_Ok _ _ _ _ _ (reading_Ok _ _ _ _ Hs)). cbn zeta.
  fold (passed_on b). destruct (passed_on b); [|exact (IH (i + 1) w Hb')].
  pose proof (load_words_safe (Z.to_nat (b.1.2 / 4)) b.1.1 m Hm) as Hu.
  specialize (Hws eq_refl). rewrite Hws in Hu. cbn in Hu.
  pose proof (submit_buffer_step b.2 m w Hu) as Hsb. unfold submitted in Hsb.
  rewrite <-(act_bind_Ok _ submit_buffer _ _ _ (reading_Ok _ _ w _ Hws)) in Hsb.
  cbn [fmap list_fmap Gpu.gpu_run]. unfold mbind at 1, st_bind.
  destruct (Gpu.gpu_step (Gpu.SubmitGfx b.2 []) (gpu w)) as [g1 [[]|[]|]]; destruct Hsb as [Hp1 E1].
  - specialize (IH (i + 1) (set_gpu g1 w) Hb'). unfold submitted, submissions in IH.
    cbn [gpu set_gpu] in IH. rewrite Hp1 in IH. by rewrite (act_bind_Ok _ _ _ _ _ E1).
  - by rewrite (act_bind_Panic _ _ _ _ E1).
Qed.

Lemma hle_submit args m (w : world) bs : mem_ok m →
  submission_accepted (blen bs) (rsi args) (rdx args) = true → wrap 32 (rdi args) = blen bs →
  (∀ k b, bs !! k = Some b → buffer_at m (rsi args) (rdx args) (Z.of_nat k) b) →
  submitted (hle "zwY0YV91TTI" args) 0 m w (Gpu.gpu_run (submissions bs) (gpu w)).
Proof.
  intros Hm Hacc Hc Hb. change (hle "zwY0YV91TTI" args) with
    (sceGnmSubmitCommandBuffers (OS:=OS) (HF:=HF) (F:=F) args).
  unfold sceGnmSubmitCommandBuffers. rewrite Hc, Hacc, Nat2Z.id.
  pose proof (submit_loop_spec bs 0 (rsi args) (rdx args) m w Hm Hb) as Hl.
  unfold submitted, mbind, st_bind in *.
  destruct (Gpu.gpu_run (submissions bs) (gpu w)) as [g [u|[]|]]; by destruct Hl as [? ->].
Qed.

(** C13: [sceGnmSubmitCommandBuffers] implements the GPU's interface: the buffers its
    two tables describe, except those with a null-page address or an empty or huge
    size, are submitted to the command processor in the order of the tables, each
    once, with exactly the words memory holds; memory is not changed.  A submission
    whose count or tables are implausible does nothing.  A submission panics only when a
    frame before it has poisoned the lock of the GPU. *)
Theorem submit_command_buffers_refines (args : export_args) (m : memory) (w : world)
    (bs : list buffer) : mem_ok m → wrap 32 (rdi args) = blen bs →
  (submission_accepted (blen bs) (rsi args) (rdx args) = true →
   (∀ k b, bs !! k = Some b → buffer_at m (rsi args) (rdx args) (Z.of_nat k) b) →
   match Gpu.gpu_run (submissions bs) (gpu w) with
   | (g, Ok _) => Gpu.poisoned g = Gpu.poisoned (gpu w) ∧
       hle "zwY0YV91TTI" args (m, w) = ((m, set_gpu g w), Ok 0)
   | (_, Err e) => match e with end
   | (g, Panic) => Gpu.poisoned (gpu w) = true ∧
       hle "zwY0YV91TTI" args (m, w) = ((m, set_gpu g w), Panic)
   end) ∧
  (submission_accepted (blen bs) (rsi args) (rdx args) = false →
   hle "zwY0YV91TTI" args (m, w) = ((m, w), Ok 0)).
Proof.
  intros Hm Hc. split; [by intros; apply hle_submit|].
  intros Hacc. change (hle "zwY0YV91TTI" args) with
    (sceGnmSubmitCommandBuffers (OS:=OS) (HF:=HF) (F:=F) args).
  unfold sceGnmSubmitCommandBuffers. by rewrite Hc, Hacc.
Qed.

(** The words of the default state, and of the wait for a flip. *)
Definition init_words : list Z := init_sequence ++ nop_fill 130.
Definition wait_words : list Z := 0xC0051000 :: replicate 6 0.

Lemma hle_init_state args m (w : world) : rdi args ≠ 0 → 0x100 ≤ wrap 32 (rsi args) →
  mapped m (rdi args) 0x400 →
  hle "sceGnmDrawInitDefaultHardwareState350" args (m, w) =
  ((write_bytes (words_bytes init_words) (rdi args) m, w), Ok (rdi args +64 0x400)).
Proof.
  intros Hne Hs Hm. change (hle "sceGnmDrawInitDefaultHardwareState350" args) with
    (sceGnmDrawInitDefaultHardwareState350 (OS:=OS) (HF:=HF) (F:=F) args).
  unfold sceGnmDrawInitDefaultHardwareState350.
  rewrite (proj2 (Z.eqb_neq _ _)), (proj2 (Z.ltb_ge _ _)) by done. cbn [orb].
  change (4 * blen init_sequence) with 504. change (Z.to_nat (HW_INIT_PACKET_SIZE - blen init_sequence)) with 130%nat.
  unfold writing, in_memory, mbind, st_bind.
  rewrite store_words_Ok by (intros x Hx; apply Hm; change (blen init_sequence) with 126 in Hx; lia).
  cbn [outcome_bind mret outcome_ret].
  assert (mapped m (rdi args) (blen (words_bytes init_sequence))) as Hm1
    by (rewrite words_bytes_length; intros x Hx; apply Hm; change (blen init_sequence) with 126 in Hx; lia).
  rewrite store_words_Ok.
  2: { apply write_bytes_mapped; [done|]. intros x Hx. apply Hm.
    change (blen (nop_fill 130)) with 130 in Hx. lia. }
  cbn [outcome_bind mret outcome_ret st_ret]. unfold init_words, words_bytes at 3.
  rewrite fmap_app, concat_app, write_bytes_app. reflexivity.
Qed.

Lemma hle_wait_flip args m (w : world) : rdi args ≠ 0 → mapped m (rdi args) 28 →
  hle "sceGnmInsertWaitFlipDone" args (m, w) =
  ((write_bytes (words_bytes wait_words) (rdi args) m, w), Ok (rdi args +64 28)).
Proof.
  intros Hne Hm. change (hle "sceGnmInsertWaitFlipDone" args) with
    (sceGnmInsertWaitFlipDone (OS:=OS) (HF:=HF) (F:=F) args).
  unfold sceGnmInsertWaitFlipDone. rewrite (proj2 (Z.eqb_neq _ _)) by done. cbn [negb].
  unfold writing, in_memory, mbind, st_bind. by rewrite store_words_Ok.
Qed.

(** The packets of the default state, and after them the wait. *)
Definition default_packets : list Liverpool.packet := let Packet := Liverpool.Packet in
  [Packet ClearState [0]; Packet SetShReg [0x216; 0xFFFFFFFF];
   Packet SetShReg [0x217; 0xFFFFFFFF]; Packet SetShReg [0x215; 0];
   Packet SetContextReg [0x2F9; 0x2D]; Packet SetContextReg [0x282; 8];
   Packet SetContextReg [0x280; 0x80008]; Packet SetContextReg [0x281; 0xFFFF0000];
   Packet SetContextReg [0x204; 0]; Packet SetContextReg [0x206; 0x43F];
   Packet SetContextReg [0x83; 0xFFFF]; Packet SetContextReg [0x317; 0x10];
   Packet SetContextReg [0x2FA; 0x3F800000]; Packet SetContextReg [0x2FC; 0x3F800000];
   Packet SetContextReg [0x2FB; 0x3F800000]; Packet SetContextReg [0x2FD; 0x3F800000];
   Packet SetContextReg [0x202; 0xCC0010]; Packet SetContextReg [0x30E; 0xFFFFFFFF];
   Packet SetContextReg [0x30F; 0xFFFFFFFF]; Packet NumInstances [1];
   Packet SetShReg [7; 0x1701FF]; Packet SetShReg [0x46; 0x1701FD];
   Packet SetShReg [0x87; 0x1701FF]; Packet SetShReg [0xC7; 0x1701FD];
   Packet SetShReg [0x107; 0x17]; Packet SetShReg [0x147; 0x1701FD]; Packet SetShReg [0x47; 0x1C];
   Packet SetContextReg [0x1B1; 2]; Packet SetContextReg [0x101; 0];
   Packet SetContextReg [0x100; 0xFFFFFFFF]; Packet SetContextReg [0x103; 0];
   Packet SetContextReg [0x284; 0]; Packet SetContextReg [0x290; 0];
   Packet SetContextReg [0x2AE; 0]; Packet SetContextReg [0x102; 0];
   Packet SetContextReg [0x292; 0]; Packet SetContextReg [0x293; 0x6020000];
   Packet SetContextReg [0x2F8; 0]; Packet SetContextReg [0x2DE; 0x1E9];
   Packet SetContextReg [0x295; 0x100; 0x100; 4]; Packet SetUconfigReg [0x200; 0xE0000000];
   Packet SetContextReg [0x2AA; 0xFF]]
  ++ replicate 65 (Packet Nop [0]) ++ [Packet Nop (replicate 6 0)].

Definition default_words : list Z := init_words ++ wait_words.

Lemma default_words_ok : Forall (in_u 32) default_words.
Proof. by apply (bool_decide_eq_true_1 _); vm_compute. Qed.

Lemma run_default_words r : ∃ t,
  Liverpool.process_loop (S (length default_words)) default_words 0 (r, []) =
  Ok (Liverpool.set_num_instances 1 r, t).
Proof. eexists. vm_compute. reflexivity. Qed.

(** The command processor runs the whole buffer; of its registers the buffer sets
    the instance count. *)
Lemma submit_default_words (g : Gpu.GpuContext) : ∃ g' t,
  Gpu.submit_gfx g default_words [] = Ok (g', t) ∧
  Liverpool.regs (Gpu.command_processor g') =
    Liverpool.set_num_instances 1 (Liverpool.regs (Gpu.command_processor g)) ∧
  Liverpool.submit_count (Gpu.command_processor g') =
    Liverpool.submit_count (Gpu.command_processor g) +64 1.
Proof.
  unfold Gpu.submit_gfx, Liverpool.process_command_buffer.
  destruct (run_default_words (Liverpool.regs (Gpu.command_processor g))) as [t ->].
  cbn [mbind outcome_bind]. by eexists _, t.
Qed.

Lemma default_words_packets :
  default_words = concat (Liverpool.encode_packet <$> default_packets).
Proof. vm_compute. reflexivity. Qed.

(** The registers and the submission count of the GPU, as a first use finds them. *)
Definition gpu_regs (g : Gpu.GpuGlobal) : Liverpool.GpuRegs * Z :=
  let cp := Gpu.command_processor (default Gpu.GpuContext_default (Gpu.context g)) in
  (Liverpool.regs cp, Liverpool.submit_count cp).

(** C12: the first command buffer of a program: [sceGnmDrawInitDefaultHardwareState350]
    at its start, [sceGnmInsertWaitFlipDone] where the first call says it continues,
    and [sceGnmSubmitCommandBuffers] of the 263 words.  The buffer holds exactly the
    default packets, nothing else of memory changes, and the submission, where no frame
    has poisoned the lock of the GPU, runs it to the end: the command processor counts it,
    sets the instance count to 1 and keeps its other registers.  The first call returns
    the address behind its packets; the comment in its arm says that it returns
    [HwInitPacketSize], a count of words. *)
Theorem default_state_submitted (a1 a2 a3 : export_args) (m : memory) (w : world) (buf := rdi a1) :
  mem_ok m → 0x10000 < buf → buf + 1052 < 2 ^ 64 → 0x100 ≤ wrap 32 (rsi a1) → mapped m buf 1052 →
  rdi a2 = buf + 0x400 → wrap 32 (rdi a3) = 1 → submission_accepted 1 (rsi a3) (rdx a3) = true →
  ∃ m1 m2,
    hle "sceGnmDrawInitDefaultHardwareState350" a1 (m, w) = ((m1, w), Ok (buf + 0x400)) ∧
    hle "sceGnmInsertWaitFlipDone" a2 (m1, w) = ((m2, w), Ok (buf + 1052)) ∧
    load_words 263 buf m2 = Ok (concat (Liverpool.encode_packet <$> default_packets)) ∧
    (∀ x, ¬ buf ≤ x < buf + 1052 → m2 !! x = m !! x) ∧
    (gpu_ok w → load 8 m2 (rsi a3) = Ok buf → load 4 m2 (rdx a3) = Ok 1052 →
     ∃ g, hle "zwY0YV91TTI" a3 (m2, w) = ((m2, set_gpu g w), Ok 0) ∧
       gpu_regs g = (Liverpool.set_num_instances 1 (gpu_regs (gpu w)).1, (gpu_regs (gpu w)).2 +64 1)).
Proof.
  intros Hm Hlo Hhi Hs Hmap Ea2 Hc Hacc.
  assert (∀ a b n, 0 ≤ a → a + n ≤ 1052 → b = buf + a → mapped m b n) as Hsub
    by (intros a b n ? ? -> x Hx; apply Hmap; lia).
  set (m1 := write_bytes (words_bytes init_words) buf m).
  set (m2 := write_bytes (words_bytes default_words) buf m).
  exists m1, m2. unfold buf in *.
  assert (mapped m (rdi a1) (blen (words_bytes init_words))) as Hm1
    by (apply (Hsub 0); [lia|vm_compute; discriminate|lia]).
  assert (bytes_at (words_bytes default_words) m2 (rdi a1)) as Hat by apply bytes_at_write.
  apply load_words_at in Hat; [|exact default_words_ok]. change (length default_words) with 263%nat in Hat.
  split_and!.
  - rewrite hle_init_state; [by rewrite add64_small by lia|lia|exact Hs|apply (Hsub 0); lia].
  - rewrite hle_wait_flip, Ea2, add64_small; [|lia|lia|].
    + unfold m2, default_words, words_bytes at 2. rewrite fmap_app, concat_app, write_bytes_app.
      replace (rdi a1 + 0x400 + 28) with (rdi a1 + 1052) by lia. reflexivity.
    + apply write_bytes_mapped; [done|]. apply (Hsub 0x400); lia.
  - by rewrite <-default_words_packets.
  - intros x Hx. unfold m2. rewrite write_bytes_lookup, words_bytes_length.
    change (blen default_words) with 263. case_range; [lia|done].
  - intros Hg Hp Hz. assert (passed_on (rdi a1, 1052, default_words) = true) as Hpass.
    { unfold passed_on, buffer_accepted. cbn [fst snd]. by rewrite (proj2 (Z.ltb_lt _ _)) by lia. }
    pose proof (hle_submit a3 m2 w [(rdi a1, 1052, default_words)]) as Hsub'.
    unfold submissions in Hsub'. cbn [List.filter] in Hsub'. rewrite Hpass in Hsub'.
    cbn [fmap list_fmap snd Gpu.gpu_run Gpu.gpu_step] in Hsub'. unfold mbind, st_bind in Hsub'.
    destruct (Gpu.with_gpu_gfx default_words [] (gpu w) default_words_ok Hg) as (c & t & Eg & E).
    rewrite E in Hsub'. eexists. split; [apply Hsub'; [|done|done|]|].
    + apply write_bytes_ok; [done|]. unfold words_bytes. apply Forall_concat, Forall_fmap.
      apply Forall_true. intros v. apply le_encode_bytes.
    + intros [|k] b Hk; [|done]. injection Hk as <-. by split_and!; rewrite ?Z.add_0_r.
    + destruct (submit_default_words (default Gpu.GpuContext_default (Gpu.context (gpu w))))
        as (c' & t' & Eg' & Er & Ec). rewrite Eg in Eg'. injection Eg' as <- <-.
      unfold gpu_regs. cbn [Gpu.context default from_option id]. by rewrite Er, Ec.
Qed.

(** ** [FILE*] handles *)

Inductive cfile_call :=
| Fopen (args : export_args) | Fclose (args : export_args) | Fread (args : export_args)
| Fseek (args : export_args) | Ftell (args : export_args).

Definition cfile_step (c : cfile_call) : act Z :=
  match c with
  | Fopen args => hle "fopen" args
  | Fclose args => hle "fclose" args
  | Fread args => hle "fread" args
  | Fseek args => hle "fseek" args
  | Ftell args => hle "ftell" args
  end.

(** Each call with its result, oldest first. *)
Fixpoint cfile_run (cs : list cfile_call) (s : memory * world)
  : (memory * world) * list (cfile_call * outcome halt Z) :=
  match cs with
  | [] => (s, [])
  | c :: cs' =>
      let '(s, r) := cfile_step c s in
      let '(s, h) := cfile_run cs' s in (s, (c, r) :: h)
  end.

Definition opened (h : list (cfile_call * outcome halt Z)) : list Z :=
  omap (λ '(c, r), match c, r with
    | Fopen _, Ok p => if p =? 0 then None else Some p
    | _, _ => None
    end) h.

Definition closed (h : list (cfile_call * outcome halt Z)) : list Z :=
  omap (λ '(c, r), match c, r with
    | Fclose args, Ok v => if v =? 0 then Some (rdi args) else None
    | _, _ => None
    end) h.

(** The open handles, and the next one. *)
Definition cfile_table (w : world) (next : Z) (D : gset Z) : Prop :=
  next_file_ptr (files w) = next ∧ ∃ t, open_cfiles (files w) = Some t ∧ dom t = D.

Definition FIRST_FILE : Z := 0xBEEF00000000.

Lemma lookup_cfile_dom p w next D : cfile_table w next D →
  match lookup_cfile p w with
  | Some (t, f) => open_cfiles (files w) = Some t ∧ t !! p = Some f ∧ p ∈ D
  | None => p ∉ D
  end.
Proof.
  intros (_ & t & E & <-). unfold lookup_cfile. rewrite E. cbn [mbind option_bind].
  destruct (t !! p) as [f|] eqn:Ef; cbn; [|by apply not_elem_of_dom].
  split_and!; [done..|]. by eapply elem_of_dom_2.
Qed.

Lemma put_cfile_table p t f h c m (w : world) next D : cfile_table w next D →
  open_cfiles (files w) = Some t → p ∈ D →
  ∃ w', put_cfile p t f h c (m, w) = ((m, w'), Ok tt) ∧ cfile_table w' next D.
Proof.
  intros (En & t' & E & ED) Et Hp. eexists. split; [done|]. split; [done|]. eexists. split; [done|].
  rewrite dom_insert_L. simplify_eq. set_solver.
Qed.

(** What a call does to the world when it returns; when it stops, the table of
    handles is as it was. *)
Section triple.
Variables (next : Z) (D : gset Z).

Definition triple {A} (P : world → Prop) (c : act A) (Q : A → world → Prop) : Prop :=
  ∀ m w, P w → let '((m', w'), r) := c (m, w) in
  match r with Ok a => Q a w' | _ => cfile_table w' next D end.

Lemma triple_ret {A} (a : A) P (Q : A → world → Prop) :
  (∀ w, P w → Q a w) → triple P (mret a) Q.
Proof. intros HQ m w. apply HQ. Qed.

Lemma triple_bind {A B} (c : act A) (k : A → act B) P R Q :
  triple P c R → (∀ a, triple (R a) (k a) Q) → triple P (c ≫= k) Q.
Proof.
  intros Hc Hk m w Hw. specialize (Hc m w Hw). unfold mbind, st_bind.
  destruct (c (m, w)) as [[m' w'] [a|h|]]; [by apply Hk|done..].
Qed.

Lemma triple_then {A B} (c : act A) (b : B) P Q :
  triple P c (λ _, Q b) → triple P (_ ← c; mret b) Q.
Proof. intros Hc. eapply triple_bind; [exact Hc|intros a]. by apply triple_ret. Qed.

Lemma triple_reading {A} (f : memory → outcome halt A) (P : world → Prop) :
  (∀ w, P w → cfile_table w next D) → triple P (reading f) (λ _, P).
Proof.
  intros HP m w Hw. unfold reading, in_memory. destruct (f m) as [a|h|]; cbn; auto.
Qed.

Lemma triple_writing f (P : world → Prop) :
  (∀ w, P w → cfile_table w next D) → triple P (writing f) (λ _, P).
Proof.
  intros HP m w Hw. unfold writing, in_memory. destruct (f m) as [a|h|]; cbn; auto.
Qed.

Lemma triple_get_world (P : world → Prop) : triple P get_world (λ w w', w' = w ∧ P w').
Proof. by intros m w Hw. Qed.

Lemma triple_st_get (P : world → Prop) : triple P st_get (λ '(_, w) w', w' = w ∧ P w').
Proof. by intros m w Hw. Qed.

Lemma triple_modify f (P : world → Prop) (Q : world → Prop) :
  (∀ w, P w → Q (f w)) → triple P (modify f) (λ _, Q).
Proof. intros Hf m w. apply Hf. Qed.

Lemma triple_put_cfile p t f h c w0 :
  p ∈ D → triple (λ w, w = w0 ∧ cfile_table w next D ∧ open_cfiles (files w) = Some t)
    (put_cfile p t f h c) (λ _ w, cfile_table w next D).
Proof.
  intros Hp m w (_ & Hw & Et). destruct (put_cfile_table p t f h c m w next D Hw Et Hp) as (w' & -> & ?).
  done.
Qed.

(** The table while nothing has been done to it. *)
Abbreviation table := (λ w : world, cfile_table w next D).

(** A handle that is not open. *)
Abbreviation untouched p v := (λ r (w : world), table w ∧ (p ∉ D → r = v)).

Lemma fopen_table args : triple table (fopen args) (λ r w,
  r = next ∧ cfile_table w (next +64 0x100) ({[next]} ∪ D) ∨ r = 0 ∧ table w).
Proof.
  unfold fopen. destruct (rdi args =? 0); [apply triple_ret; auto|].
  eapply triple_bind; [by apply triple_reading|intros cs; cbn zeta].
  eapply triple_bind; [by apply triple_reading|intros ?; cbv beta].
  eapply triple_bind; [apply triple_get_world|intros w].
  assert (∀ v (R : Z → world → Prop), (∀ w, table w → R v w) →
    triple (λ w', w' = w ∧ table w') (mret v) R) as Hdone.
  { intros v R HR. apply triple_ret. intros w' [-> ?]. auto. }
  destruct (resolve_ps4_path _ w) as [host_path|]; [|by apply Hdone; auto].
  destruct (host_exists _ _); [|by apply Hdone; auto].
  destruct (host_open _ _) as [h [f|]].
  - apply triple_then.
    apply triple_modify. intros w' (-> & En & t & Et & ED). left. split; [done|].
    split; [cbn; by rewrite En|]. rewrite Et. eexists. split; [reflexivity|].
    rewrite dom_insert_L. by rewrite En, ED.
  - apply triple_then, triple_modify. intros w' (-> & Hw). right. split; [done|]. exact Hw.
Qed.

(** A branch on the open file of a handle. *)
Lemma triple_lookup {A} p (w : world) (yes : gmap Z (OpenCFile F) → OpenCFile F → act A)
    (no : act A) Q v :
  (∀ t f, p ∈ D → triple (λ w', w' = w ∧ table w' ∧ open_cfiles (files w') = Some t) (yes t f) Q) →
  (∀ w', table w' → p ∉ D → Q v w') → no = mret v →
  triple (λ w', w' = w ∧ table w')
    (match lookup_cfile p w with Some (t, f) => yes t f | None => no end) Q.
Proof.
  intros Hy Hn -> m w' [-> Hw]. pose proof (lookup_cfile_dom p w next D Hw) as Hp.
  destruct (lookup_cfile p w) as [[t f]|]; [|by apply Hn].
  destruct Hp as (Et & _ & Hp). by apply Hy.
Qed.

Lemma fclose_table args : triple table (fclose args) (λ r w,
  r = 0 ∧ (rdi args ∈ D) ∧ cfile_table w next (D ∖ {[rdi args]}) ∨
  r = C_EOF ∧ (rdi args ∉ D) ∧ table w).
Proof.
  unfold fclose. eapply triple_bind; [apply triple_get_world|intros w]. cbv zeta beta.
  apply (triple_lookup (rdi args) w (λ t _, _)) with (v := C_EOF); [|auto|done].
  intros t f Hp. apply triple_then, triple_modify. intros w' (-> & (En & t' & Et' & ED) & Et).
  left. split; [done|]. split; [done|]. split; [done|]. eexists. split; [done|].
  rewrite dom_delete_L. simplify_eq. done.
Qed.

Lemma fread_table args : triple table (fread args) (untouched (rcx args) 0).
Proof.
  unfold fread. destruct (_ || _); [by apply triple_ret|].
  eapply triple_bind; [apply triple_st_get|intros [m w]]. cbv zeta beta.
  apply (triple_lookup (rcx args) w (λ t f, _)) with (v := 0); [|by auto|done].
  intros t f Hp. 
  assert (∀ v (P : world → Prop), (∀ w, P w → table w) →
    triple P (mret v) (untouched (rcx args) 0)) as Hdone.
  { intros v P HP. apply triple_ret. intros w' Hw'. by split; [apply HP|]. }
  case_bool_decide; [|apply Hdone; by intros ? (_ & ? & _)].
  destruct (host_read _ _ _) as [[h c] [bs|]].
  - eapply triple_bind; [by apply triple_put_cfile|intros ?].
    eapply triple_bind; [apply triple_writing; intros ? Hx; exact Hx|intros ?]. by apply Hdone.
  - eapply triple_bind; [by apply triple_put_cfile|intros ?]. by apply Hdone.
Qed.

Lemma seek_table p sk ok : triple table (seek_cfile p sk ok) (untouched p C_EOF).
Proof.
  unfold seek_cfile. eapply triple_bind; [apply triple_get_world|intros w]. cbv zeta beta.
  apply (triple_lookup p w (λ t f, _)) with (v := C_EOF); [|by auto|done].
  intros t f Hp. destruct (host_seek _ _ _) as [[h c] r].
  eapply triple_bind; [by apply triple_put_cfile|intros ?].
  apply triple_ret. intros w' Hw'. by split.
Qed.

Lemma fseek_table args : triple table (fseek args) (untouched (rdi args) C_EOF).
Proof.
  unfold fseek. destruct (seek_from _ _); [apply seek_table|]. by apply triple_ret.
Qed.

End triple.

(** The handles open after a history, and what a call on another one returns. *)
Definition open_handles (h : list (cfile_call * outcome halt Z)) : gset Z :=
  list_to_set (opened h) ∖ list_to_set (closed h).

Definition refusal (c : cfile_call) : option (Z * Z) :=
  match c with
  | Fopen _ => None
  | Fread args => Some (rcx args, 0)
  | Fclose args | Fseek args | Ftell args => Some (rdi args, C_EOF)
  end.

Definition stale_refused (h : list (cfile_call * outcome halt Z)) (c : cfile_call)
    (r : outcome halt Z) : Prop :=
  ∀ p v a, refusal c = Some (p, v) → p ∉ open_handles h → r = Ok a → a = v.

Definition nth_handle (k : nat) : Z := FIRST_FILE + 0x100 * Z.of_nat k.

Record cfile_inv (h : list (cfile_call * outcome halt Z)) (w : world) : Prop := {
  inv_table : cfile_table w (nth_handle (length (opened h))) (open_handles h);
  inv_opened : opened h = nth_handle <$> seq 0 (length (opened h));
  inv_closed : ∀ p, p ∈ closed h → p ∈ opened h;
}.

Lemma opened_app h h' : opened (h ++ h') = opened h ++ opened h'.
Proof. apply omap_app. Qed.
Lemma closed_app h h' : closed (h ++ h') = closed h ++ closed h'.
Proof. apply omap_app. Qed.

Lemma opened_length h : (length (opened h) ≤ length h)%nat.
Proof.
  unfold opened. induction h as [|[c r] h IH]; [done|]. cbn [omap list_omap length].
  case_match; simpl length; lia.
Qed.

Lemma nth_handle_inj j k : nth_handle j = nth_handle k → j = k.
Proof. unfold nth_handle. lia. Qed.

Lemma next_handle_fresh h w : cfile_inv h w → nth_handle (length (opened h)) ∉ opened h.
Proof.
  intros Hi. rewrite (inv_opened _ _ Hi) at 2. intros (k & Hk & Hs)%list_elem_of_fmap.
  apply nth_handle_inj in Hk. apply elem_of_seq in Hs. lia.
Qed.

(** A step that neither opens nor closes. *)
Lemma cfile_inv_same h w w' c r : cfile_inv h w → opened [(c, r)] = [] → closed [(c, r)] = [] →
  cfile_table w' (nth_handle (length (opened h))) (open_handles h) → cfile_inv (h ++ [(c, r)]) w'.
Proof.
  intros [Ht Ho Hc] Eo Ec Hw. split; unfold open_handles in *;
    rewrite ?opened_app, ?closed_app, ?Eo, ?Ec, ?app_nil_r; done.
Qed.

Lemma cfile_inv_open h w w' args : cfile_inv h w →
  cfile_table w' (nth_handle (S (length (opened h))))
    ({[nth_handle (length (opened h))]} ∪ open_handles h) →
  cfile_inv (h ++ [(Fopen args, Ok (nth_handle (length (opened h))))]) w'.
Proof.
  intros Hi Ht. pose proof (next_handle_fresh h w Hi) as Hf. destruct Hi as [_ Ho Hc].
  assert (opened [(Fopen args, Ok (E:=halt) (nth_handle (length (opened h))))] =
    [nth_handle (length (opened h))]) as E.
  { cbn. rewrite (proj2 (Z.eqb_neq _ _)); [done|]. unfold nth_handle, FIRST_FILE. lia. }
  split; unfold open_handles in *; rewrite ?opened_app, ?closed_app, ?E,
    ?app_nil_r, ?length_app, ?Nat.add_1_r.
  - replace (list_to_set (opened h ++ _) ∖ _) with
      (({[nth_handle (length (opened h))]} : gset Z) ∪ list_to_set (opened h) ∖ list_to_set (closed h));
      [exact Ht|]. apply set_eq. intros x. specialize (Hc (nth_handle (length (opened h)))).
    rewrite list_to_set_app. set_solver.
  - rewrite seq_S, fmap_app. cbn. by f_equal.
  - set_solver.
Qed.

Lemma cfile_inv_close h w w' args : cfile_inv h w → rdi args ∈ open_handles h →
  cfile_table w' (nth_handle (length (opened h))) (open_handles h ∖ {[rdi args]}) →
  cfile_inv (h ++ [(Fclose args, Ok 0)]) w'.
Proof.
  intros [_ Ho Hc] Hp Ht.
  split; unfold open_handles in *; rewrite ?opened_app, ?closed_app;
    cbn [opened closed omap list_omap Z.eqb]; rewrite ?app_nil_r.
  - replace (list_to_set (opened h) ∖ list_to_set (closed h ++ [rdi args])) with
      ((list_to_set (opened h) ∖ list_to_set (closed h)) ∖ ({[rdi args]} : gset Z)); [done|].
    apply set_eq. intros x. rewrite list_to_set_app. set_solver.
  - done.
  - set_solver.
Qed.

(** A step of which only a refusal is known. *)
Lemma cfile_inv_untouched h w w' c r p v : cfile_inv h w → refusal c = Some (p, v) →
  closed [(c, r)] = [] →
  match r with
  | Ok a => cfile_table w' (nth_handle (length (opened h))) (open_handles h) ∧
            (p ∉ open_handles h → a = v)
  | _ => cfile_table w' (nth_handle (length (opened h))) (open_handles h)
  end → cfile_inv (h ++ [(c, r)]) w' ∧ stale_refused h c r.
Proof.
  intros Hi Hc Ecl Hr. assert (opened [(c, r)] = []) as Eop by (by destruct c).
  split.
  - eapply cfile_inv_same; [done..|]. by destruct r as [a|e|]; [destruct Hr|..].
  - intros p' v' a Hc' Hp ->. rewrite Hc in Hc'. injection Hc' as <- <-. by apply Hr.
Qed.

Lemma cfile_step_inv c h m w : cfile_inv h w → Z.of_nat (length h) < 2 ^ 40 →
  let '((m', w'), r) := cfile_step c (m, w) in
  cfile_inv (h ++ [(c, r)]) w' ∧ stale_refused h c r.
Proof.
  intros Hi Hl. pose proof (inv_table _ _ Hi) as Ht. pose proof (opened_length h) as Hlen.
  destruct c as [args|args|args|args|args]; cbn [cfile_step].
  - change (hle "fopen" args) with (fopen (OS:=OS) args).
    pose proof (fopen_table _ _ args m w Ht) as Hr. revert Hr.
    destruct (fopen args (m, w)) as [[m' w'] [p|e|]]; intros Hr; [|split; [by apply (cfile_inv_same h w)|done]..].
    destruct Hr as [[-> Hr]|[-> Hr]].
    + split; [|done]. apply (cfile_inv_open h w); [done|].
      replace (nth_handle (S (length (opened h)))) with (nth_handle (length (opened h)) +64 0x100); [done|].
      unfold nth_handle, FIRST_FILE. rewrite add64_small; lia.
    + split; [by apply (cfile_inv_same h w)|done].
  - change (hle "fclose" args) with (fclose (OS:=OS) (HF:=HF) (F:=F) args).
    pose proof (fclose_table _ _ args m w Ht) as Hr. revert Hr.
    destruct (fclose args (m, w)) as [[m' w'] [p|e|]]; intros Hr;
      [|by apply (cfile_inv_untouched h w) with (rdi args) C_EOF..].
    destruct Hr as [(-> & Hp & Hr)|(-> & Hp & Hr)].
    + split; [by apply (cfile_inv_close h w)|]. intros p v a [= <- <-]. done.
    + by apply (cfile_inv_untouched h w) with (rdi args) C_EOF.
  - change (hle "fread" args) with (fread (OS:=OS) (HF:=HF) (F:=F) args).
    pose proof (fread_table _ _ args m w Ht) as Hr. revert Hr.
    destruct (fread args (m, w)) as [[m' w'] r]; intros Hr.
    by apply (cfile_inv_untouched h w) with (rcx args) 0.
  - change (hle "fseek" args) with (fseek (OS:=OS) (HF:=HF) (F:=F) args).
    pose proof (fseek_table _ _ args m w Ht) as Hr. revert Hr.
    destruct (fseek args (m, w)) as [[m' w'] r]; intros Hr.
    by apply (cfile_inv_untouched h w) with (rdi args) C_EOF.
  - change (hle "ftell" args) with (ftell (OS:=OS) (HF:=HF) (F:=F) args).
    pose proof (seek_table _ _ (rdi args) (SeekCurrent 0) (λ pos, pos) m w Ht) as Hr. revert Hr.
    unfold ftell. destruct (seek_cfile _ _ _ (m, w)) as [[m' w'] r]; intros Hr.
    by apply (cfile_inv_untouched h w) with (rdi args) C_EOF.
Qed.

Lemma cfile_run_inv cs h0 m w : cfile_inv h0 w →
  Z.of_nat (length h0 + length cs) < 2 ^ 40 →
  let '((m', w'), h) := cfile_run cs (m, w) in
  cfile_inv (h0 ++ h) w' ∧
  ∀ i c r, h !! i = Some (c, r) → stale_refused (h0 ++ take i h) c r.
Proof.
  revert h0 m w. induction cs as [|c cs IH]; intros h0 m w Hi Hl; cbn [cfile_run].
  { by rewrite app_nil_r. }
  pose proof (cfile_step_inv c h0 m w Hi ltac:(lia)) as Hs.
  destruct (cfile_step c (m, w)) as [[m1 w1] r]. destruct Hs as [Hi1 Hr].
  specialize (IH (h0 ++ [(c, r)]) m1 w1 Hi1). rewrite length_app in IH. simpl length in *.
  specialize (IH ltac:(lia)). destruct (cfile_run cs (m1, w1)) as [[m2 w2] h].
  destruct IH as [Hi2 Hs]. rewrite <-(assoc_L (++)) in Hi2. split; [done|].
  intros [|i] c' r' Hk.
  - injection Hk as <- <-. by rewrite app_nil_r.
  - specialize (Hs i c' r' Hk). by rewrite <-(assoc_L (++)) in Hs.
Qed.

(** C15: [FILE*] handles, over any sequence of file calls: [fopen] never hands out a
    handle twice, the handles that are open are those handed out and not yet
    closed, and every other call on a handle that is not open is refused ([fread]
    reads 0 items, the others return [EOF]). *)
Theorem cfile_handles (cs : list cfile_call) (m : memory) (w : world) :
  cfile_table w FIRST_FILE ∅ → Z.of_nat (length cs) < 2 ^ 40 →
  let '((m', w'), h) := cfile_run cs (m, w) in
  NoDup (opened h) ∧
  (∃ t, open_cfiles (files w') = Some t ∧
        ∀ p, is_Some (t !! p) ↔ p ∈ opened h ∧ (p ∉ closed h)) ∧
  ∀ i c r, h !! i = Some (c, r) → stale_refused (take i h) c r.
Proof.
  intros Ht Hl. pose proof (cfile_run_inv cs [] m w) as H'. cbn [app length] in H'.
  destruct (cfile_run cs (m, w)) as [[m' w'] h]. destruct H' as [[Ht' Ho _] Hs]; [|lia|].
  { split; [|done|done]. unfold open_handles. cbn. by rewrite difference_empty_L. }
  split_and!; [|..|done].
  - rewrite Ho. apply NoDup_fmap_2; [|apply NoDup_seq]. intros j k. apply nth_handle_inj.
  - destruct Ht' as (_ & t & Et & ED). exists t. split; [done|]. intros p.
    rewrite <-elem_of_dom, ED. unfold open_handles. set_solver.
Qed.

End laws.

(** ** Witnesses *)

#[local] Existing Instances bitflags_impl bitflags_impl_laws ToyOS.toy_os ToyOS.toy_os_laws.

(** Every file exists, and holds its path; a seek gives a position. *)
#[local] Instance toy_files : HostFiles unit bytes :=
  {| host_open p w := (w, Some (wrap 8 <$> concat (comps p)));
     host_read f n w :=
       (w, drop (Z.to_nat n) f, if decide (is_bytes f) then Some (take (Z.to_nat n) f) else None);
     host_write f bs w := (w, f, None);
     host_print fd bs w := w;
     read_only f := is_bytes f |}.
#[local] Instance toy_files_laws : HostFilesLaws unit bytes.
Proof.
  split; cbn.
  - intros p w w' f [= <- <-]. apply Forall_fmap, Forall_true. intros b. by apply (wrap_range 8).
  - intros f n w w' f' r Hn [= <- <- <-]. split; [by apply Forall_drop|].
    case_decide; [|done]. rewrite length_take. split; [lia|by apply Forall_take].
  - by intros f bs w w' f' r ? [= <- <- <-].
Qed.
#[local] Instance toy_seek : HostSeek unit bytes :=
  {| host_exists p w := true; host_seek f s w := (w, f, Some (blen f)) |}.
#[local] Instance sorted_mounts : Mounts.MountOrder := map_to_list.
#[local] Instance toy_floats : FloatOps :=
  {| f32_sin x := x; f32_tan x := x; f32_asin x := x; f32_acos x := x; f32_atan2 x y := x |}.
#[local] Instance toy_memcmp : MemCmp := λ b1 b2, if decide (b1 = b2) then 0 else 1.
#[local] Instance toy_spawn : HostSpawn := {| spawn_ok qs q := true |}.
#[local] Instance toy_vulkan : Vulkan.VulkanApi unit := Vulkan.toy_api true.

Abbreviation toy_hle name args :=
  (hle_export_dispatcher (ExportDispatcher:=export_dispatcher) (str name%string) args).

Definition app_world : world ToyOS.OS unit bytes :=
  mount_filesystem (str "/app0") (from_bytes (str "/games/x"))
    (initialize_exports Virtual.small_mm (world_start ToyOS.boot tt)).

Lemma app_world_ok : world_ok app_world.
Proof. intros mm [= <-]. exact Virtual.small_mm_wf. Qed.

(** The renderer after three frames: the next wait for its fence fails. *)
Definition drawn_world : world ToyOS.OS unit bytes :=
  set_gpu (Gpu.gpu_run [Gpu.InitGpu (Some tt); Gpu.SubmitDone; Gpu.SubmitDone; Gpu.SubmitDone]
             Gpu.GPU_CONTEXT).1 app_world.

(** The return from [main], an allocation, and a frame whose fence is lost. *)
Lemma dispatch_safe_witness :
  (toy_hle "exit" (regs1 3) (∅, app_world)).2 = Err (Exited 0) ∧
  (toy_hle "malloc" (regs1 0x5000) (∅, app_world)).2 = Ok (2 ^ 36) ∧
  world_ok (toy_hle "malloc" (regs1 0x5000) (∅, app_world)).1.2 ∧
  (toy_hle "E90Gz79LdBQ" (regs1 0) (∅, drawn_world)).2 = Panic ∧
  Gpu.gpu_lost (gpu (toy_hle "E90Gz79LdBQ" (regs1 0) (∅, drawn_world)).1.2).
Proof.
  split; [vm_compute; reflexivity|]. split; [vm_compute; reflexivity|].
  assert ((toy_hle "E90Gz79LdBQ" (regs1 0) (∅, drawn_world)).2 = Panic) as Ep
    by (vm_compute; reflexivity).
  pose proof (dispatch_safe (str "malloc") (regs1 0x5000) ∅ app_world) as Hd.
  pose proof (dispatch_safe (str "E90Gz79LdBQ") (regs1 0) ∅ drawn_world) as Hf.
  destruct (hle_export_dispatcher _ _ (∅, app_world)) as [[m' w'] r].
  destruct (hle_export_dispatcher _ _ (∅, drawn_world)) as [[m2 w2] r2]. cbn [fst snd] in *. subst r2.
  split; [|split; [done|]].
  - apply Hd; [apply map_Forall_empty|exact app_world_ok|done|].
    split; [intros _; by split; vm_compute|intros _; by split; vm_compute].
  - destruct Hf as (_ & _ & _ & Hl); [apply map_Forall_empty|exact app_world_ok|by vm_compute| |exact Hl].
    split; intros Hn; exfalso; revert Hn; apply (bool_decide_eq_false_1 _); by vm_compute.
Defined.

Lemma app_free a : free_in app_world a → a ≠ 0.
Proof.
  intros (mm & [= <-] & Ha) ->. vm_compute in Ha. done.
Qed.

(** The first page freed is not handed out again; the last request does not fit. *)
Lemma heap_blocks_disjoint_witness :
  let r := heap_run [Malloc 0; Free (2 ^ 36); Malloc 0x5000; Malloc 0x10000]
             (∅, app_world) in
  r.2 = [(2 ^ 36, 0x4000); (2 ^ 36 + 0x10000, 0x8000)] ∧
  r.1.1 !! (2 ^ 36 + 0x10000) = Some 0.
Proof.
  pose proof (heap_blocks_disjoint
    [Malloc 0; Free (2 ^ 36); Malloc 0x5000; Malloc 0x10000] ∅ app_world app_world_ok) as H.
  assert ((heap_run [Malloc 0; Free (2 ^ 36); Malloc 0x5000; Malloc 0x10000]
             (∅, app_world)).2 = [(2 ^ 36, 0x4000); (2 ^ 36 + 0x10000, 0x8000)]) as E
    by (vm_compute; reflexivity).
  destruct (heap_run _ _) as [[m' w'] bs]. cbn in E. subst bs. split; [done|].
  destruct H as (_ & Hz & _); [|exact app_free|].
  { repeat constructor; vm_compute; discriminate. }
  apply (Forall_lookup_1 _ _ 1 _ Hz eq_refl). split; cbn; lia.
Defined.

(** 8 bytes for out parameters. *)
Definition out_mem : memory := map_zeros 0x20000 8 ∅.

Definition direct_args : export_args :=
  {| rdi := 0; rsi := 2 ^ 32; rdx := 0x4000; rcx := 0x200000; r8 := 0; r9 := 0x20000;
     stack_arg7 := 0; xmm0_bits := 0; xmm1_bits := 0 |}.
Definition map_args : export_args :=
  {| rdi := 0x20000; rsi := 0x4000; rdx := 3; rcx := 0; r8 := 2 ^ 36; r9 := 0; stack_arg7 := 0;
     xmm0_bits := 0; xmm1_bits := 0 |}.

Lemma direct_memory_identity_witness :
  let '((m', w'), r) := toy_hle "sceKernelAllocateDirectMemory" direct_args (out_mem, app_world) in
  r = Ok 0 ∧ load 8 m' 0x20000 = Ok (2 ^ 36) ∧ phys_to_virt (2 ^ 36 + 5) w' = Some (2 ^ 36 + 5) ∧
  ∃ m'', toy_hle "sceKernelMapDirectMemory" map_args (m', w') = ((m'', w'), Ok 0).
Proof.
  pose proof (direct_memory_identity direct_args out_mem app_world
    app_world_ok) as Hd.
  assert ((toy_hle "sceKernelAllocateDirectMemory" direct_args (out_mem, app_world)).2 = Ok 0) as Er
    by (vm_compute; reflexivity).
  assert (load 8 (toy_hle "sceKernelAllocateDirectMemory" direct_args (out_mem, app_world)).1.1 0x20000 =
    Ok (2 ^ 36)) as El by (vm_compute; reflexivity).
  assert (mapped (toy_hle "sceKernelAllocateDirectMemory" direct_args (out_mem, app_world)).1.1 0x20000 8)
    as Em by (apply (bool_decide_eq_true_1 _); vm_compute; reflexivity).
  destruct (hle_export_dispatcher _ _ _) as [[m' w'] r]. cbn [fst snd] in *. subst r.
  destruct Hd as (_ & _ & [[? _]|[[? _]|(_ & addr & _ & _ & Hv & Hl & Hm)]]); [| | |done|done|].
  { by intros l e [= <-] He%elem_of_nil. }
  { by eexists. }
  { by split; vm_compute. }
  assert (addr = 2 ^ 36) as ->.
  { specialize (Hl ltac:(done)). change (r9 direct_args) with 0x20000 in Hl. congruence. }
  split_and!; [done|done|apply Hv; split; cbn; lia|].
  destruct (Hm map_args eq_refl ltac:(done) Em) as (m'' & E & _). by exists m''.
Defined.

(** A file is opened, closed and opened again. *)
Definition file_mem : memory := write_bytes (str "/app0/data" ++ [0]) 0x20000 ∅.

Definition file_calls : list cfile_call :=
  [Fopen (regs1 0x20000); Fclose (regs1 FIRST_FILE); Fclose (regs1 FIRST_FILE); Fopen (regs1 0x20000);
   Ftell (regs1 FIRST_FILE)].

Lemma cfile_handles_witness :
  let h := (cfile_run file_calls (file_mem, app_world)).2 in
  snd <$> h = [Ok FIRST_FILE; Ok 0; Ok C_EOF; Ok (FIRST_FILE + 0x100); Ok C_EOF] ∧
  NoDup (opened h) ∧ stale_refused (take 4 h) (Ftell (regs1 FIRST_FILE)) (Ok C_EOF).
Proof.
  pose proof (cfile_handles file_calls file_mem app_world) as Hh.
  assert (snd <$> (cfile_run file_calls (file_mem, app_world)).2 =
    [Ok FIRST_FILE; Ok 0; Ok C_EOF; Ok (FIRST_FILE + 0x100); Ok C_EOF]) as E
    by (vm_compute; reflexivity).
  assert ((cfile_run file_calls (file_mem, app_world)).2 !! 4%nat =
    Some (Ftell (regs1 FIRST_FILE), Ok C_EOF)) as E4 by (vm_compute; reflexivity).
  destruct (cfile_run _ _) as [[m' w'] h]. cbn [fst snd] in *.
  destruct Hh as (Hn & _ & Hs); [|vm_compute; reflexivity|].
  { split; [done|]. by exists ∅. }
  split; [exact E|]. split; [exact Hn|]. exact (Hs 4%nat _ _ E4).
Defined.

(** Two entries: a buffer that sets the instance count, and an empty one. *)
Definition submit_args : export_args :=
  {| rdi := 2; rsi := 0x20000; rdx := 0x20010; rcx := 0; r8 := 0; r9 := 0; stack_arg7 := 0;
     xmm0_bits := 0; xmm1_bits := 0 |}.
Definition count_words : list Z := [Pm4.type3_header NumInstances 1; 7].
Definition submit_mem : memory :=
  write_bytes (le_encode 8 0x20020 ++ le_encode 8 0 ++ le_encode 4 8 ++ le_encode 4 64 ++
               replicate 8 0 ++ words_bytes count_words) 0x20000 ∅.
Definition submit_bufs : list buffer := [(0x20020, 8, count_words); (0, 64, [])].

Lemma submit_command_buffers_refines_witness :
  ∃ g, toy_hle "zwY0YV91TTI" submit_args (submit_mem, app_world) =
         ((submit_mem, set_gpu g app_world), Ok 0) ∧
    Liverpool.num_instances (gpu_regs g).1 = 7.
Proof.
  destruct (submit_command_buffers_refines submit_args submit_mem app_world submit_bufs) as [Hr _].
  { apply (bool_decide_eq_true_1 _). vm_compute. reflexivity. }
  { vm_compute. reflexivity. }
  assert ((Gpu.gpu_run (submissions submit_bufs) (gpu app_world)).2 = Ok tt) as Eo
    by (vm_compute; reflexivity).
  assert (Liverpool.num_instances (gpu_regs (Gpu.gpu_run (submissions submit_bufs) (gpu app_world)).1).1
    = 7) as Eg by (vm_compute; reflexivity).
  destruct (Gpu.gpu_run _ _) as [g r]. cbn [fst snd] in *. subst r. exists g.
  split; [|exact Eg]. apply Hr.
  { vm_compute. reflexivity. }
  intros [|[|k]] b Hk; [..|done]; injection Hk as <-; (split; [|split]);
    vm_compute; (reflexivity || intros Hp; reflexivity || discriminate Hp).
Defined.

(** Room for the buffer, behind the tables of the submission. *)
Definition buffer_mem : memory :=
  write_bytes (le_encode 8 0x20010 ++ le_encode 4 1052 ++ replicate 4 0) 0x20000
    (map_zeros 0x20010 1052 ∅).
Definition regs2 (a b c : Z) : export_args :=
  {| rdi := a; rsi := b; rdx := c; rcx := 0; r8 := 0; r9 := 0; stack_arg7 := 0; xmm0_bits := 0;
     xmm1_bits := 0 |}.

Lemma default_state_submitted_witness : ∃ m2 g,
  toy_hle "zwY0YV91TTI" (regs2 1 0x20000 0x20008) (m2, app_world) =
    ((m2, set_gpu g app_world), Ok 0) ∧
  Liverpool.num_instances (gpu_regs g).1 = 1.
Proof.
  assert (mem_ok buffer_mem) as Hok by (apply (bool_decide_eq_true_1 _); vm_compute; reflexivity).
  assert (mapped buffer_mem 0x20010 1052) as Hmap
    by (apply (bool_decide_eq_true_1 _); vm_compute; reflexivity).
  destruct (default_state_submitted (regs2 0x20010 0x100 0)
    (regs2 0x20410 0 0) (regs2 1 0x20000 0x20008) buffer_mem app_world Hok ltac:(by cbn)
    ltac:(by cbn) ltac:(by vm_compute) Hmap eq_refl eq_refl eq_refl)
    as (m1 & m2 & _ & _ & _ & Hk & Hs).
  assert (∀ n a, 0x20000 ≤ a → a + Z.of_nat n ≤ 0x20010 → load n m2 a = load n buffer_mem a) as Hl.
  { intros n a ? ?. apply load_agree. intros x Hx. apply Hk. cbn. lia. }
  destruct Hs as (g & E & Eg).
  { by vm_compute. }
  { change (rsi (regs2 1 0x20000 0x20008)) with 0x20000. rewrite Hl by lia. vm_compute. reflexivity. }
  { change (rdx (regs2 1 0x20000 0x20008)) with 0x20008. rewrite Hl by lia. vm_compute. reflexivity. }
  exists m2, g. split; [exact E|]. by rewrite Eg.
Defined.

End ExportLaws.
