(* ===== verification/Dispatcher.v ===== *)
(** * The trap dispatcher (hle/dispatcher.rs)

    Module [Patch]: the rewriting of SYSCALL to UD2.  Module [ThreadFs]: the table
    of host FS bases; the gettid and arch_prctl calls of the host thread are a
    class.  The signal handlers are in Signals.v. *)

From S2P Require Import Prelude Bytes GuestMemory.

Open Scope rust_scope.

Module Patch.

(** [while offset < size - 1], as the number of rounds left. *)
Fixpoint patch_loop (n : nat) (memory_base offset : Z) (patched_count : Z) (m : memory)
  : outcome halt (memory * Z) :=
  match n with
  | O => mret (m, patched_count)
  | S n' =>
      b1 ← load 1 m (memory_base + offset);
      b2 ← load 1 m (memory_base + (offset + 1));
      if (b1 =? 0x0F) && (b2 =? 0x05) then
        m ← store 1 m (memory_base + (offset + 1)) 0x0B;
        patch_loop n' memory_base (offset + 1) (add32 patched_count 1) m
      else patch_loop n' memory_base (offset + 1) patched_count m
  end.

Definition patch_syscalls (memory_base size : Z) (m : memory) : outcome halt (memory * Z) :=
  patch_loop (Z.to_nat (size -64 1)) memory_base 0 0 m.

(** ** Lemmas *)

(** A SYSCALL instruction, as far as its bytes tell. *)
Definition syscall_at (m : memory) (y : Z) : Prop :=
  m !! y = Some 0x0F ∧ m !! (y + 1) = Some 0x05.
#[export] Instance syscall_at_dec m y : Decision (syscall_at m y).
Proof. unfold syscall_at; apply _. Defined.

Definition patched (m : memory) (lo hi x : Z) : option Z :=
  if decide (lo ≤ x - 1 < hi ∧ syscall_at m (x - 1)) then Some 0x0B else m !! x.

Definition syscalls (m : memory) (lo : Z) (n : nat) : list Z :=
  filter (syscall_at m) (seqZ lo (Z.of_nat n)).

Lemma syscalls_cons m lo n : syscalls m lo (S n) =
  (if decide (syscall_at m lo) then [lo] else []) ++ syscalls m (lo + 1) n.
Proof.
  unfold syscalls. rewrite seqZ_cons by lia. rewrite filter_cons.
  replace (Z.succ lo) with (lo + 1) by lia. replace (Z.pred (Z.of_nat (S n))) with (Z.of_nat n) by lia.
  by case_decide.
Qed.

(** Rewriting one instruction leaves the others where they are. *)
Lemma syscall_at_patched m y z : syscall_at m y → y < z →
  syscall_at (<[y + 1 := 0x0B]> m) z ↔ syscall_at m z.
Proof.
  intros [Hy Hy1] Hz. unfold syscall_at. rewrite (lookup_insert_ne _ (y + 1) (z + 1)) by lia.
  destruct (decide (z = y + 1)) as [->|].
  - rewrite lookup_insert_eq, Hy1. naive_solver.
  - by rewrite lookup_insert_ne by lia.
Qed.

Lemma syscalls_ext m m' lo n : (∀ z, lo ≤ z → syscall_at m z ↔ syscall_at m' z) →
  syscalls m lo n = syscalls m' lo n.
Proof.
  revert lo. induction n as [|n IH]; intros lo Hz; [done|].
  rewrite !syscalls_cons, (IH (lo + 1)) by (intros z ?; apply Hz; lia).
  pose proof (Hz lo ltac:(lia)). repeat case_decide; naive_solver.
Qed.

Lemma patched_ext m m' lo hi x : (∀ z, lo ≤ z → syscall_at m z ↔ syscall_at m' z) →
  m !! x = m' !! x → patched m lo hi x = patched m' lo hi x.
Proof.
  intros Hz Hx. unfold patched. rewrite Hx. apply decide_ext.
  split; (intros [? Hs]; split; [done|]; apply (Hz (x - 1)); [lia|done]).
Qed.

Lemma syscall_at_bytes m y b1 b2 : m !! y = Some b1 → m !! (y + 1) = Some b2 →
  (b1 =? 0x0F) && (b2 =? 0x05) = bool_decide (syscall_at m y).
Proof.
  intros E1 E2. case_bool_decide as Hs; unfold syscall_at in Hs;
    destruct (Z.eqb_spec b1 0x0F), (Z.eqb_spec b2 0x05); cbn; congruence || naive_solver.
Qed.

Lemma patch_loop_spec n base o c m : in_u 32 c → mapped m (base + o) (Z.of_nat n + 1) →
  ∃ m', patch_loop n base o c m = Ok (m', wrap 32 (c + blen (syscalls m (base + o) n))) ∧
    ∀ x, m' !! x = patched m (base + o) (base + o + Z.of_nat n) x.
Proof.
  revert o c m. induction n as [|n IH]; intros o c m Hc Hm.
  { exists m. cbn [patch_loop]. rewrite Z.add_0_r, wrap_small by done. split; [done|].
    intros x. unfold patched. by rewrite decide_False by lia. }
  destruct (Hm (base + o)) as [b1 E1]; [lia|]. destruct (Hm (base + o + 1)) as [b2 E2]; [lia|].
  cbn [patch_loop]. rewrite !Z.add_assoc, (load1 _ _ _ E1), (load1 _ _ _ E2).
  cbn [mbind outcome_bind]. rewrite syscalls_cons.
  rewrite (syscall_at_bytes m (base + o)) by done.
  case_bool_decide as Hs.
  - rewrite store_total by (eapply mapped_weaken; [done|lia..]). cbn [mbind outcome_bind].
    change (write_bytes (le_encode 1 0x0B) (base + o + 1) m)
      with (<[base + o + 1 := 0x0B]> m : memory).
    pose proof (syscall_at_patched m (base + o)) as Hrest. rewrite decide_True by done.
    destruct (IH (o + 1) (add32 c 1) (<[base + o + 1 := 0x0B]> m)) as (m' & -> & Hm').
    { by apply wrap_range. }
    { intros x Hx. destruct (decide (x = base + o + 1)) as [->|].
      - rewrite lookup_insert_eq. by eexists.
      - rewrite lookup_insert_ne by done. apply Hm. lia. }
    exists m'. rewrite Z.add_assoc in *. split.
    + rewrite (syscalls_ext _ m) by (intros z ?; apply Hrest; [done|lia]).
      do 2 f_equal. unfold add32. rewrite wrap_add_l. f_equal. rewrite length_app. simpl length. lia.
    + intros x. rewrite Hm'. unfold patched.
      destruct (decide (x = base + o + 1)) as [->|Hx].
      { rewrite (decide_True (P := base + o ≤ _ < _ ∧ _)).
        2: { rewrite Z.add_simpl_r. split; [lia|done]. }
        rewrite lookup_insert_eq. by case_decide. }
      rewrite lookup_insert_ne by done. apply decide_ext.
      split; (intros [? Hx1]; split; [lia|]); revert Hx1; apply Hrest; (done || lia).
  - rewrite decide_False by done. destruct (IH (o + 1) c m) as (m' & -> & Hm').
    { done. }
    { eapply mapped_weaken; [done|lia..]. }
    exists m'. rewrite Z.add_assoc in *. split; [done|]. intros x. rewrite Hm'. unfold patched.
    apply decide_ext. destruct (decide (x - 1 = base + o)) as [E|]; [|intuition lia].
    rewrite E. intuition lia.
Qed.

(** A scan that ends has read every byte of its region. *)
Lemma patch_loop_cases n base o c m : (0 < n)%nat →
  mapped m (base + o) (Z.of_nat n + 1) ∨ ∃ a, patch_loop n base o c m = Err (Fault a).
Proof.
  revert o c m. induction n as [|n IH]; intros o c m Hn; [lia|]. cbn [patch_loop].
  destruct (m !! (base + o)) as [b1|] eqn:E1.
  2: { right. exists (base + o). by rewrite (load1_fault _ _ E1). }
  destruct (m !! (base + (o + 1))) as [b2|] eqn:E2.
  2: { right. exists (base + (o + 1)). by rewrite (load1 _ _ _ E1), (load1_fault _ _ E2). }
  rewrite (load1 _ _ _ E1), (load1 _ _ _ E2). cbn [mbind outcome_bind].
  assert (mapped m (base + o) 2) as H2.
  { intros x Hx. assert (x = base + o ∨ x = base + (o + 1)) as [-> | ->] by lia; by eexists. }
  destruct n as [|n].
  { left. eapply mapped_weaken; [exact H2|lia..]. }
  assert (∀ m1, (∀ a k, mapped m1 a k → mapped m a k) →
    mapped m1 (base + (o + 1)) (Z.of_nat (S n) + 1) → mapped m (base + o) (Z.of_nat (S (S n)) + 1))
    as Hext.
  { intros m1 Hm1 Hr x Hx. destruct (decide (x = base + o)) as [->|]; [by eexists|].
    apply (Hm1 _ _ Hr). lia. }
  case_match.
  - rewrite store_total by (eapply mapped_weaken; [exact H2|lia..]). cbn [mbind outcome_bind].
    destruct (IH (o + 1) (add32 c 1) (write_bytes (le_encode 1 0x0B) (base + (o + 1)) m))
      as [Hr|Hf]; [lia| |by right].
    left. eapply Hext; [|exact Hr]. intros a k. apply write_bytes_mapped.
    eapply mapped_weaken; [exact H2|lia|]. rewrite le_encode_length. lia.
  - destruct (IH (o + 1) c m) as [Hr|Hf]; [lia| |by right]. left. by eapply Hext.
Qed.

(** The effect of a scan, and what it does to one instruction. *)
Lemma patch_syscalls_lookup m base size : 0 < size < 2 ^ 64 → mapped m base size →
  ∃ m', patch_syscalls base size m =
      Ok (m', wrap 32 (blen (syscalls m base (Z.to_nat (size - 1))))) ∧
    ∀ x, m' !! x = patched m base (base + size - 1) x.
Proof.
  intros Hs Hm. unfold patch_syscalls. unwrap64.
  destruct (patch_loop_spec (Z.to_nat (size - 1)) base 0 0 m) as (m' & E & Hm').
  { done. }
  { rewrite Z.add_0_r. eapply mapped_weaken; [done|lia..]. }
  rewrite Z.add_0_r, Z.add_0_l, Z2Nat.id in * by lia. exists m'. split; [exact E|].
  intros x. rewrite Hm'. by replace (base + size - 1) with (base + (size - 1)) by lia.
Qed.

Lemma patched_syscall m lo hi y : lo ≤ y < hi → syscall_at m y →
  patched m lo hi y = Some 0x0F ∧ patched m lo hi (y + 1) = Some 0x0B.
Proof.
  intros Hy [Hy0 Hy1]. unfold patched. split.
  - rewrite decide_False; [done|]. intros [_ [_ H0]]. rewrite Z.sub_add in H0. congruence.
  - apply decide_True. rewrite Z.add_simpl_r. by split.
Qed.

(** No SYSCALL is left in the region. *)
Lemma patched_none (m m' : memory) lo hi y : (∀ x, m' !! x = patched m lo hi x) →
  lo ≤ y < hi → ¬ syscall_at m' y.
Proof.
  intros Hm' Hy [Hy0 Hy1]. rewrite Hm' in Hy0, Hy1. unfold patched in *.
  rewrite Z.add_simpl_r in Hy1. destruct (decide (lo ≤ y < _ ∧ _)) as [|Hn]; [done|].
  destruct (decide (lo ≤ y - 1 < _ ∧ _)); [done|]. apply Hn. by split; [lia|].
Qed.

Lemma patched_mapped (m m' : memory) lo hi a n : (∀ x, m' !! x = patched m lo hi x) →
  mapped m a n → mapped m' a n.
Proof. intros Hm' Hm x Hx. rewrite Hm'. unfold patched. case_decide; [by eexists|by apply Hm]. Qed.

(** ** Properties *)

(** C29: patching a non-empty mapped region replaces exactly the second byte of
    every byte pair 0F 05 in it and counts the pairs (modulo 2^32): each becomes
    the trap 0F 0B, no such pair is left, and no other byte of memory changes.
    An empty region is not left alone: [size - 1] wraps around and the scan runs
    on until it faults. *)
Theorem patch_syscalls_spec m base size : 0 ≤ size < 2 ^ 64 →
  (if decide (size = 0) then ¬ mapped m base (2 ^ 64) else mapped m base size) →
  if decide (size = 0) then ∃ a, patch_syscalls base size m = Err (Fault a) else
  ∃ m', patch_syscalls base size m =
      Ok (m', wrap 32 (blen (syscalls m base (Z.to_nat (size - 1))))) ∧
    (∀ y, base ≤ y < base + size - 1 → syscall_at m y →
       m' !! y = Some 0x0F ∧ m' !! (y + 1) = Some 0x0B) ∧
    (∀ y, base ≤ y < base + size - 1 → ¬ syscall_at m' y) ∧
    (∀ x, ¬ (base ≤ x - 1 < base + size - 1 ∧ syscall_at m (x - 1)) → m' !! x = m !! x).
Proof.
  intros Hs Hm. case_decide as Hz.
  { subst size. unfold patch_syscalls. change (0 -64 1) with (2 ^ 64 - 1).
    destruct (patch_loop_cases (Z.to_nat (2 ^ 64 - 1)) base 0 0 m) as [Hr|]; [lia| |done].
    destruct Hm. rewrite Z.add_0_r, Z2Nat.id in Hr by lia.
    by replace (2 ^ 64) with (2 ^ 64 - 1 + 1) by lia. }
  destruct (patch_syscalls_lookup m base size) as (m' & E & Hm'); [lia|done|].
  exists m'. split; [exact E|]. split; [|split].
  - intros y Hy Hsys. rewrite !Hm'. by apply patched_syscall.
  - intros y. by eapply patched_none.
  - intros x Hx. rewrite Hm'. apply decide_False. intros [? ?]. apply Hx. by split; [lia|].
Qed.

(** Two instructions, a lone 0F, and one whose second byte is outside. *)
Definition sample_code : memory :=
  write_bytes [0x0F; 0x05; 0x90; 0x0F; 0x0F; 0x05; 0xC3; 0x0F; 0x05] 0x1000 ∅.

Lemma patch_syscalls_spec_witness : ∃ m', patch_syscalls 0x1000 8 sample_code = Ok (m', 2) ∧
  m' !! 0x1001 = Some 0x0B ∧ m' !! 0x1008 = Some 0x05.
Proof.
  assert (mapped sample_code 0x1000 8) as Hm.
  { intros x Hx. assert (∃ i, (i < 8)%nat ∧ x = 0x1000 + Z.of_nat i) as (i & Hi & ->).
    { exists (Z.to_nat (x - 0x1000)). lia. }
    do 8 (destruct i as [|i]; [by eexists; vm_compute|]). lia. }
  destruct (patch_syscalls_spec sample_code 0x1000 8) as (m' & E & Hp & _ & Hx); [lia|exact Hm|].
  exists m'. split; [exact E|]. split.
  - apply (Hp 0x1000); [lia|]. by split; vm_compute.
  - rewrite Hx; [by vm_compute|]. intros [? _]. lia.
Defined.

End Patch.

(** The calling thread, as far as Linux shows it: gettid(2), and the FS base of
    arch_prctl(2). *)
Class HostThread (T : Type) := {
  gettid : T → Z;
  arch_get_fs : T → Z;
  arch_set_fs : Z → T → T;
}.

(** ARCH_SET_FS sets the base when the address lies in the user half; a thread
    keeps its identity. *)
Class HostThreadLaws T `{HostThread T} : Prop := {
  set_get_fs v (t : T) : 0 ≤ v < 2 ^ 47 → arch_get_fs (arch_set_fs v t) = v;
  set_fs_tid v (t : T) : gettid (arch_set_fs v t) = gettid t;
}.

Module ThreadFs.

Abbreviation fs_table := (list (Z * Z)).

Definition THREAD_FS_MAP : fs_table := repeat (0, 0) 64.

(** [for i in 0..64]: the first slot that is free or the thread's. *)
Fixpoint register_slot (tid fs_base : Z) (l : fs_table) : fs_table :=
  match l with
  | [] => []
  | (t, f) :: l' =>
      if (t =? 0) || (t =? tid) then (tid, fs_base) :: l'
      else (t, f) :: register_slot tid fs_base l'
  end.

Fixpoint find_slot (tid : Z) (l : fs_table) : Z :=
  match l with
  | [] => 0
  | (t, f) :: l' => if t =? tid then f else find_slot tid l'
  end.

Section thread.
Context `{HostThread T}.

Definition register_thread_fs (fs_base : Z) (t : T) (l : fs_table) : fs_table :=
  register_slot (wrap 32 (gettid t)) fs_base l.

Definition get_thread_fs (t : T) (l : fs_table) : Z := find_slot (wrap 32 (gettid t)) l.

(** A history of registrations, each by its thread. *)
Definition registered (h : list (T * Z)) : fs_table :=
  foldl (λ l '(t, fs), register_thread_fs fs t l) THREAD_FS_MAP h.

End thread.

(** A registration is found, if a slot was free or the thread's own; otherwise the thread
    reads 0. *)
Lemma register_found tid fs l : find_slot tid (register_slot tid fs l) =
  if existsb (λ e, (e.1 =? 0) || (e.1 =? tid)) l then fs else 0.
Proof.
  induction l as [|[t f] l IH]; [done|]. cbn [register_slot existsb fst].
  destruct ((t =? 0) || (t =? tid)) eqn:E; cbn [find_slot orb]; [by rewrite Z.eqb_refl|].
  apply orb_false_iff in E as [_ ->]. exact IH.
Qed.

(** ** The table as a map of at most 64 threads *)

Definition admit_thread (tid fs : Z) (M : gmap Z Z) : gmap Z Z :=
  if decide (tid ∈ dom M ∨ (size M < 64)%nat) then <[tid := fs]> M else M.

(** Used slots first, no thread twice, and never the thread 0. *)
Definition table_of (l : fs_table) (M : gmap Z Z) : Prop :=
  ∃ es, l = es ++ repeat (0, 0) (64 - length es) ∧ (length es ≤ 64)%nat ∧
    NoDup es.*1 ∧ (0 ∉ es.*1) ∧ M = list_to_map es.

Lemma find_slot_map tid es n : tid ≠ 0 →
  find_slot tid (es ++ repeat (0, 0) n) = default 0 ((list_to_map es : gmap Z Z) !! tid).
Proof.
  intros Ht. induction es as [|[t f] es IH]; cbn [app find_slot list_to_map foldr].
  - rewrite lookup_empty. induction n as [|n IH]; [done|]. cbn.
    by destruct tid.
  - cbn. destruct (Z.eqb_spec t tid) as [->|].
    + by rewrite lookup_insert_eq.
    + by rewrite lookup_insert_ne.
Qed.

Lemma register_slot_new tid f es l : tid ∉ es.*1 → 0 ∉ es.*1 →
  register_slot tid f (es ++ l) = es ++ register_slot tid f l.
Proof.
  induction es as [|[t g] es IH]; [done|]. rewrite fmap_cons.
  intros [Ht Hn]%not_elem_of_cons [H0 Hn0]%not_elem_of_cons. cbn in *.
  destruct (Z.eqb_spec t 0), (Z.eqb_spec t tid); try congruence. cbn. by rewrite IH.
Qed.

Lemma register_slot_old tid f es l : tid ∈ es.*1 → 0 ∉ es.*1 →
  register_slot tid f (es ++ l) = register_slot tid f es ++ l ∧
  (register_slot tid f es).*1 = es.*1 ∧
  (list_to_map (register_slot tid f es) : gmap Z Z) = <[tid := f]> (list_to_map es).
Proof.
  induction es as [|[t g] es IH]; [by intros ?%elem_of_nil|]. rewrite fmap_cons.
  intros Ht [H0 Hn0]%not_elem_of_cons. cbn in *.
  destruct (Z.eqb_spec t 0); [congruence|]. destruct (Z.eqb_spec t tid) as [->|Hd]; cbn.
  - split_and!; [done..|]. by rewrite insert_insert_eq.
  - apply elem_of_cons in Ht as [?|Ht]; [congruence|].
    destruct (IH Ht Hn0) as (-> & -> & ->). split_and!; [done..|].
    by apply insert_insert_ne.
Qed.

Lemma register_slot_table tid f l M : tid ≠ 0 → table_of l M →
  table_of (register_slot tid f l) (admit_thread tid f M).
Proof.
  intros Ht (es & -> & Hl & Hnd & H0 & ->). unfold admit_thread.
  assert (tid ∈ dom (list_to_map es : gmap Z Z) ↔ tid ∈ es.*1) as Hdom
    by by rewrite dom_list_to_map_L, elem_of_list_to_set.
  assert (size (list_to_map es : gmap Z Z) = length es) as Hsize by by apply map_size_list_to_map.
  destruct (decide (tid ∈ es.*1)) as [Hin|Hin].
  - rewrite decide_True by (left; by apply Hdom).
    destruct (register_slot_old tid f es (repeat (0, 0) (64 - length es)) Hin H0) as (-> & Hk & Hm).
    assert (length (register_slot tid f es) = length es) as Hlen.
    { by rewrite <-(length_fmap fst), Hk, length_fmap. }
    exists (register_slot tid f es). rewrite Hk, Hlen. split_and!; done.
  - rewrite register_slot_new by done. case_decide as Hd.
    + assert (length es < 64)%nat as Hlt by (destruct Hd as [?%Hdom|]; [done|lia]).
      exists (es ++ [(tid, f)]). rewrite fmap_app, length_app. cbn [length fmap list_fmap fst].
      replace (64 - length es)%nat with (S (64 - (length es + 1))) by lia.
      cbn [repeat register_slot]. cbn. rewrite <-(assoc_L (++)). split_and!.
      * done.
      * lia.
      * apply NoDup_app. split_and!; [done| |apply NoDup_singleton].
        intros x Hx Hx'. apply list_elem_of_singleton in Hx'. by subst.
      * rewrite not_elem_of_app. split; [done|]. by intros ?%list_elem_of_singleton.
      * rewrite list_to_map_snoc; [done|done].
    + assert (¬ (length es < 64)%nat) as Hge by (intros ?; apply Hd; right; lia).
      assert (64 - length es = 0)%nat as E by lia. rewrite E.
      exists es. rewrite E. by split_and!.
Qed.

Section histories.
Context `{HostThread T}.

(** The registrations by thread id, and the map they leave. *)
Definition by_tid (h : list (T * Z)) : list (Z * Z) :=
  (λ '(t, fs), (wrap 32 (gettid t), fs)) <$> h.

Definition admitted (h : list (T * Z)) : gmap Z Z :=
  foldl (λ M '(tid, fs), admit_thread tid fs M) ∅ (by_tid h).

Lemma registered_table h : 0 ∉ (by_tid h).*1 → table_of (registered h) (admitted h).
Proof.
  unfold registered, admitted. assert (table_of THREAD_FS_MAP ∅) as Hi.
  { exists []. split_and!; [done|simpl; lia|constructor|set_solver|done]. }
  revert Hi. generalize THREAD_FS_MAP, (∅ : gmap Z Z).
  induction h as [|[t fs] h IH]; intros l M Hl Hz; [done|].
  unfold by_tid in *. rewrite !fmap_cons in Hz. apply not_elem_of_cons in Hz as [Hz0 Hz].
  cbn [foldl fmap list_fmap]. apply IH; [|done]. by apply register_slot_table.
Qed.

(** While at most 64 threads have registered, none is refused. *)
Lemma admitted_all h : (size (list_to_set (by_tid h).*1 : gset Z) ≤ 64)%nat →
  admitted h = list_to_map (reverse (by_tid h)).
Proof.
  unfold admitted. induction (by_tid h) as [|[tid fs] l IH] using rev_ind; [done|].
  rewrite foldl_snoc, reverse_snoc, fmap_app, list_to_set_app_L. cbn [list_to_map foldr].
  change (list_to_set [(tid, fs)].*1 : gset Z) with ({[tid]} ∪ ∅ : gset Z).
  rewrite (right_id_L ∅ (∪)). intros Hs.
  rewrite IH by (etrans; [|exact Hs]; apply subseteq_size; set_solver). cbn [fst snd].
  unfold admit_thread. set (M := list_to_map (reverse l)). apply decide_True.
  assert (dom M = list_to_set l.*1) as Hdom.
  { unfold M. rewrite dom_list_to_map_L. apply set_eq. intros x.
    by rewrite !elem_of_list_to_set, reverse_Permutation. }
  destruct (decide (tid ∈ dom M)) as [|Hn]; [by left|right].
  rewrite <-size_dom, Hdom in *. rewrite size_union, size_singleton in Hs by set_solver. lia.
Qed.

(** A thread is found under the FS base of its latest registration, as long
    as it was admitted: a registration is refused, silently, exactly when 64
    other threads hold the slots.  So up to 64 threads nothing is lost; after
    that a new thread reads 0, as if it had never registered. *)
Theorem thread_fs_spec (h : list (T * Z)) (t : T) :
  0 ∉ (by_tid h).*1 → wrap 32 (gettid t) ≠ 0 →
  get_thread_fs t (registered h) = default 0 (admitted h !! wrap 32 (gettid t)) ∧
  ((size (list_to_set (by_tid h).*1 : gset Z) ≤ 64)%nat →
     get_thread_fs t (registered h) =
       default 0 ((list_to_map (reverse (by_tid h)) : gmap Z Z) !! wrap 32 (gettid t))) ∧
  ∀ t' fs, wrap 32 (gettid t') = wrap 32 (gettid t) →
    get_thread_fs t (registered (h ++ [(t', fs)])) =
      if decide (wrap 32 (gettid t) ∈ dom (admitted h) ∨ (size (admitted h) < 64)%nat)
      then fs else 0.
Proof.
  intros Hh Ht. assert (∀ h', 0 ∉ (by_tid h').*1 →
    get_thread_fs t (registered h') = default 0 (admitted h' !! wrap 32 (gettid t))) as Hget.
  { intros h' Hh'. unfold get_thread_fs. destruct (registered_table h' Hh') as (es & -> & _ & _ & _ & ->).
    by apply find_slot_map. }
  split; [by apply Hget|]. split; [intros Hs; by rewrite Hget, admitted_all|].
  intros t' fs E. rewrite Hget.
  2: { unfold by_tid. rewrite !fmap_app. cbn. rewrite E. apply not_elem_of_app. split; [done|].
       intros ?%list_elem_of_singleton. congruence. }
  unfold admitted, by_tid. rewrite fmap_app, foldl_app. cbn. rewrite E.
  fold (by_tid h). fold (admitted h). unfold admit_thread. case_decide as Hd.
  - by rewrite lookup_insert_eq.
  - rewrite (not_elem_of_dom_1 (admitted h)); [done|]. intros ?. apply Hd. by left.
Qed.

End histories.

(** Threads that are their ids. *)
#[local] Instance toy_thread : HostThread (Z * Z) :=
  {| gettid := fst; arch_get_fs := snd; arch_set_fs v t := (t.1, v) |}.

(** Thread 7 registers twice, thread 9 in between. *)
Lemma thread_fs_spec_witness :
  get_thread_fs (7, 0) (registered [((7, 0), 0x1000); ((9, 0), 0x2000); ((7, 0), 0x3000)]) = 0x3000 ∧
  get_thread_fs (100, 0) (registered ((λ i, ((i, 0), 5)) <$> seqZ 1 64 ++ [100])) = 0.
Proof.
  split.
  - destruct (thread_fs_spec [((7, 0), 0x1000); ((9, 0), 0x2000); ((7, 0), 0x3000)] (7, 0))
      as (_ & Hall & _).
    + by apply (bool_decide_eq_true_1 _); vm_compute.
    + done.
    + rewrite Hall by (by apply (bool_decide_eq_true_1 _); vm_compute). by vm_compute.
  - rewrite fmap_app.
    destruct (thread_fs_spec ((λ i, ((i, 0), 5)) <$> seqZ 1 64) (100, 0)) as (_ & _ & Hr).
    + by apply (bool_decide_eq_true_1 _); vm_compute.
    + done.
    + cbn [fmap list_fmap]. rewrite (Hr (100, 0) 5 eq_refl). by vm_compute.
Defined.

End ThreadFs.
