(* ===== verification/Signals.v ===== *)
(** * The signal handlers (hle/dispatcher.rs)

    The SIGILL handler, which runs emulated functions and system calls, and the
    SIGSEGV handler, which unwinds a faulting guest, as functions of the interrupted
    context, guest memory and the globals; and runs of a guest under both. *)

From stdpp Require Import functions.
From S2P Require Import Prelude Bytes GuestMemory CommonTypes AddressSpace Hle Exports Dispatcher.

Open Scope rust_scope.

Module Signals.

Import Stubs ThreadFs.

(** The general registers the handlers use, of the [gregs] array. *)
Inductive greg :=
| REG_R8 | REG_R9 | REG_R10 | REG_R11 | REG_R12 | REG_R13 | REG_R14 | REG_R15
| REG_RDI | REG_RSI | REG_RBP | REG_RBX | REG_RDX | REG_RAX | REG_RCX | REG_RSP | REG_RIP.

#[export] Instance greg_eq_dec : EqDecision greg.
Proof. solve_decision. Defined.

(** The low and high half of a vector register. *)
Record xmm_reg := { lo : Z; hi : Z }.
Record fp_state := { xmm0 : xmm_reg; xmm1 : xmm_reg }.

(** The interrupted context, memory, and what the handlers reach besides.  A
    register is its 64-bit pattern; [fpregs] is the pointer, possibly null. *)
Record process (T W : Type) := {
  thread : T;
  gregs : greg → Z;
  fpregs : option fp_state;
  mem : memory;
  stub_alloc : option StubAllocator;
  thread_fs_map : fs_table;
  sigsegv_recovery_count : Z;
  world : W;
}.

Arguments thread {T W}.
Arguments gregs {T W}.
Arguments fpregs {T W}.
Arguments mem {T W}.
Arguments stub_alloc {T W}.
Arguments thread_fs_map {T W}.
Arguments sigsegv_recovery_count {T W}.
Arguments world {T W}.

Section signals.
Context {T W : Type} `{HostThread T, ExportDispatcher W}.

Definition with_thread (f : T → T) (p : process T W) : process T W :=
  {| thread := f (thread p); gregs := gregs p; fpregs := fpregs p; mem := mem p;
     stub_alloc := stub_alloc p; thread_fs_map := thread_fs_map p;
     sigsegv_recovery_count := sigsegv_recovery_count p; world := world p |}.

Definition set_reg (r : greg) (v : Z) (p : process T W) : process T W :=
  {| thread := thread p; gregs := <[r := v]> (gregs p); fpregs := fpregs p; mem := mem p;
     stub_alloc := stub_alloc p; thread_fs_map := thread_fs_map p;
     sigsegv_recovery_count := sigsegv_recovery_count p; world := world p |}.

Definition set_xmm0 (v : Z) (p : process T W) : process T W :=
  {| thread := thread p; gregs := gregs p;
     fpregs := (λ f, {| xmm0 := {| lo := v; hi := 0 |}; xmm1 := xmm1 f |}) <$> fpregs p;
     mem := mem p; stub_alloc := stub_alloc p; thread_fs_map := thread_fs_map p;
     sigsegv_recovery_count := sigsegv_recovery_count p; world := world p |}.

Definition with_memory (m : memory) (w : W) (p : process T W) : process T W :=
  {| thread := thread p; gregs := gregs p; fpregs := fpregs p; mem := m;
     stub_alloc := stub_alloc p; thread_fs_map := thread_fs_map p;
     sigsegv_recovery_count := sigsegv_recovery_count p; world := w |}.

Definition count_recovery (p : process T W) : process T W :=
  {| thread := thread p; gregs := gregs p; fpregs := fpregs p; mem := mem p;
     stub_alloc := stub_alloc p; thread_fs_map := thread_fs_map p;
     sigsegv_recovery_count := sigsegv_recovery_count p +64 1; world := world p |}.

Definition set_fs (v : Z) : process T W → process T W := with_thread (arch_set_fs v).

(** [if guest_fs != 0 { arch_prctl(ARCH_SET_FS, guest_fs) }]. *)
Definition restore_guest_fs (guest_fs : Z) (p : process T W) : process T W :=
  if negb (guest_fs =? 0) then set_fs guest_fs p else p.

Definition hle_syscall_dispatcher (sys_id arg1 arg2 arg3 arg4 _arg5 _arg6 : Z)
  : outcome halt Z :=
  if sys_id =? 1 then Err (Exited 0) else mret 0.

(** [*rip == 0x0F && *rip.add(1) == 0x0B]. *)
Definition at_ud2 (m : memory) (rip : Z) : outcome halt bool :=
  b ← load 1 m rip;
  if b =? 0x0F then b ← load 1 m (rip + 1); mret (b =? 0x0B) else mret false.

(** A [ret]: pops the return address into RIP. *)
Definition emulate_ret (p : process T W) : outcome halt (process T W) :=
  return_addr ← load 8 (mem p) (gregs p REG_RSP);
  mret (set_reg REG_RIP return_addr (set_reg REG_RSP (gregs p REG_RSP +64 8) p)).

Definition skip_ud2 (p : process T W) : process T W :=
  set_reg REG_RIP (gregs p REG_RIP +64 2) p.

(** A stub: the arguments, the call, its result and the return. *)
Definition dispatch_stub (p : process T W) : outcome halt (process T W) :=
  let rip := gregs p REG_RIP in
  let stub_idx := default 0 (get_stub_index rip (stub_alloc p)) in
  let stub_name := get_stub_name stub_idx (stub_alloc p) in
  let rsp := gregs p REG_RSP in
  stack_arg7 ← if negb (rsp =? 0) then load 8 (mem p) (rsp + 8) else mret 0;
  let '(xmm0_bits, xmm1_bits) :=
    match fpregs p with Some f => (lo (xmm0 f), lo (xmm1 f)) | None => (0, 0) end in
  let args :=
    {| rdi := gregs p REG_RDI; rsi := gregs p REG_RSI; rdx := gregs p REG_RDX;
       rcx := gregs p REG_RCX; r8 := gregs p REG_R8; r9 := gregs p REG_R9;
       stack_arg7 := stack_arg7; xmm0_bits := xmm0_bits; xmm1_bits := xmm1_bits |} in
  match hle_export_dispatcher stub_name args (mem p, world p) with
  | ((m, w), Ok result) =>
      let p := with_memory m w p in
      let p :=
        if is_float_function stub_name then set_reg REG_RAX 0 (set_xmm0 result p)
        else set_reg REG_RAX result p in
      emulate_ret p
  | (_, Err e) => Err e
  | (_, Panic) => Panic
  end.

(** A patched system call. *)
Definition dispatch_syscall (p : process T W) : outcome halt (process T W) :=
  result ← hle_syscall_dispatcher (gregs p REG_RAX) (gregs p REG_RDI) (gregs p REG_RSI)
             (gregs p REG_RDX) (gregs p REG_R10) (gregs p REG_R8) (gregs p REG_R9);
  mret (skip_ud2 (set_reg REG_RAX result p)).

Definition sigill_handler (p : process T W) : outcome halt (process T W) :=
  let guest_fs := arch_get_fs (thread p) in
  let host_fs := get_thread_fs (thread p) (thread_fs_map p) in
  if host_fs =? 0 then
    ud2 ← at_ud2 (mem p) (gregs p REG_RIP);
    if ud2 : bool then
      p ← if is_stub (gregs p REG_RIP) (stub_alloc p) then
            p ← emulate_ret p; mret (set_reg REG_RAX 0 p)
          else mret (set_reg REG_RAX 0 (skip_ud2 p));
      mret (restore_guest_fs guest_fs p)
    else Err Aborted
  else
    let p := set_fs host_fs p in
    ud2 ← at_ud2 (mem p) (gregs p REG_RIP);
    p ← if ud2 : bool then
          if is_stub (gregs p REG_RIP) (stub_alloc p) then dispatch_stub p
          else dispatch_syscall p
        else Err Aborted;
    mret (restore_guest_fs guest_fs p).

(** ** Faults *)

Definition MAX_SIGSEGV_RECOVERIES : Z := 512.
Definition guest_base : Z := 0x1000000000.
Definition guest_end : Z := 0x1001000000.

Definition in_guest (a : Z) : bool := (guest_base <=? a) && (a <? guest_end).

(** [for _depth in 0..16]: the return address, the saved RBP, the frame. *)
Fixpoint unwind (n : nat) (m : memory) (frame_rbp : Z) : outcome halt (Z * Z * Z) :=
  match n with
  | O => mret (0, 0, frame_rbp)
  | S n' =>
      if (frame_rbp =? 0) || (frame_rbp <? 0x1000) then mret (0, 0, frame_rbp)
      else
        saved_rbp ← load 8 m frame_rbp;
        ret_addr ← load 8 m (frame_rbp +64 8);
        if in_guest ret_addr then mret (ret_addr, saved_rbp, frame_rbp)
        else unwind n' m saved_rbp
  end.

(** The frame found, or the top of the stack. *)
Definition find_return (m : memory) (rbp rsp : Z) : outcome halt (Z * Z * Z) :=
  '(found_ret, found_rbp, frame_rbp) ← unwind 16 m rbp;
  if found_ret =? 0 then
    stack_ret ← load 8 m rsp;
    if in_guest stack_ret then mret (stack_ret, rbp, frame_rbp)
    else mret (found_ret, found_rbp, frame_rbp)
  else mret (found_ret, found_rbp, frame_rbp).

(** The register and memory dump, and the end. *)
Definition fatal (p : process T W) : outcome halt (process T W) :=
  let rip := gregs p REG_RIP in
  if negb (rip =? 0) then
    _ ← ok_or (load_bytes (mem p) (rip - 32) 32) (Fault (rip - 32));
    _ ← ok_or (load_bytes (mem p) rip 16) (Fault rip);
    _ ← ok_or (load_bytes (mem p) (gregs p REG_RSP) 64) (Fault (gregs p REG_RSP));
    Err Aborted
  else Err Aborted.

Definition sigsegv_handler (p : process T W) : outcome halt (process T W) :=
  let guest_fs := arch_get_fs (thread p) in
  let host_fs := get_thread_fs (thread p) (thread_fs_map p) in
  let p := if negb (host_fs =? 0) then set_fs host_fs p else p in
  let count := sigsegv_recovery_count p in
  let p := count_recovery p in
  if count <? MAX_SIGSEGV_RECOVERIES then
    '(found_ret, found_rbp, frame_rbp) ←
      find_return (mem p) (gregs p REG_RBP) (gregs p REG_RSP);
    if negb (found_ret =? 0) then
      mret (restore_guest_fs guest_fs
        (set_reg REG_RAX 0 (set_reg REG_RSP (frame_rbp +64 16)
          (set_reg REG_RBP found_rbp (set_reg REG_RIP found_ret p)))))
    else fatal p
  else fatal p.

(** ** Lemmas *)

Lemma at_ud2_true m rip : at_ud2 m rip = Ok true ↔
  m !! rip = Some 0x0F ∧ m !! (rip + 1) = Some 0x0B.
Proof.
  unfold at_ud2. destruct (m !! rip) as [b|] eqn:E.
  2: { rewrite (load1_fault _ _ E). cbn. naive_solver. }
  rewrite (load1 _ _ _ E). cbn. destruct (Z.eqb_spec b 0x0F) as [->|]; [|naive_solver].
  destruct (m !! (rip + 1)) as [c|] eqn:E1.
  - rewrite (load1 _ _ _ E1). cbn. destruct (Z.eqb_spec c 0x0B); naive_solver.
  - rewrite (load1_fault _ _ E1). cbn. naive_solver.
Qed.

(** The registers a called function must preserve. *)
Definition callee_saved : list greg := [REG_RBX; REG_RBP; REG_R12; REG_R13; REG_R14; REG_R15].

(** Back in the guest: its FS base, identity and the tables are what they were. *)
Definition resumes (p p' : process T W) : Prop :=
  arch_get_fs (thread p') = arch_get_fs (thread p) ∧ gettid (thread p') = gettid (thread p) ∧
  stub_alloc p' = stub_alloc p ∧ thread_fs_map p' = thread_fs_map p.

Definition guest_fs_ok (p : process T W) : Prop := 0 < arch_get_fs (thread p) < 2 ^ 47.

Definition registered_thread (p : process T W) : Prop :=
  get_thread_fs (thread p) (thread_fs_map p) ≠ 0.

Section laws.
Context `{!HostThreadLaws T}.

(** Whatever the handler did to the thread, restoring the guest FS base undoes. *)
Lemma restore_resumes p q : guest_fs_ok p → gettid (thread q) = gettid (thread p) →
  stub_alloc q = stub_alloc p → thread_fs_map q = thread_fs_map p →
  resumes p (restore_guest_fs (arch_get_fs (thread p)) q) ∧
  (gregs (restore_guest_fs (arch_get_fs (thread p)) q) = gregs q ∧
   fpregs (restore_guest_fs (arch_get_fs (thread p)) q) = fpregs q ∧
   mem (restore_guest_fs (arch_get_fs (thread p)) q) = mem q ∧
   world (restore_guest_fs (arch_get_fs (thread p)) q) = world q ∧
   sigsegv_recovery_count (restore_guest_fs (arch_get_fs (thread p)) q) =
     sigsegv_recovery_count q).
Proof.
  unfold guest_fs_ok. intros Hfs Ht Hs Hm. unfold restore_guest_fs.
  destruct (Z.eqb_spec (arch_get_fs (thread p)) 0); [lia|]. cbn. split; [|done].
  unfold resumes. cbn. rewrite set_get_fs by lia. by rewrite set_fs_tid.
Qed.

(** How a trap at a stub, and one at a patched system call, come back. *)
Definition returned (p p' : process T W) : Prop :=
  gregs p' REG_RSP = gregs p REG_RSP +64 8 ∧
  load 8 (mem p') (gregs p REG_RSP) = Ok (gregs p' REG_RIP) ∧
  Forall (λ r, gregs p' r = gregs p r) callee_saved.

Definition skipped (p p' : process T W) : Prop :=
  gregs p' REG_RIP = gregs p REG_RIP +64 2 ∧ gregs p' REG_RAX = 0 ∧
  (∀ r, r ≠ REG_RIP → r ≠ REG_RAX → gregs p' r = gregs p r) ∧
  fpregs p' = fpregs p ∧ mem p' = mem p ∧ world p' = world p.

(** How a call can fail to come back: an unreadable stack, or the export. *)
Definition call_stops (p : process T W) (r : outcome halt (memory * W * Z)) : Prop :=
  (∃ a, r = Err (Fault a) ∧ (a = gregs p REG_RSP ∨ a = gregs p REG_RSP + 8)) ∨
  ∃ name args s e, hle_export_dispatcher name args (mem p, world p) = (s, e) ∧
    match e with Ok _ => False | Err e => r = Err e | Panic => r = Panic end.

Lemma load_error n m a : match load n m a with Ok _ => True | Err e => e = Fault a | Panic => False end.
Proof. unfold load. by destruct (load_bytes m a n). Qed.

Lemma emulate_ret_cases p : match emulate_ret p with
  | Ok p' => ∃ a, load 8 (mem p) (gregs p REG_RSP) = Ok a ∧
      p' = set_reg REG_RIP a (set_reg REG_RSP (gregs p REG_RSP +64 8) p)
  | Err e => e = Fault (gregs p REG_RSP)
  | Panic => False
  end.
Proof.
  unfold emulate_ret. pose proof (load_error 8 (mem p) (gregs p REG_RSP)) as Hl.
  destruct (load 8 (mem p) (gregs p REG_RSP)); [|done..]. by eexists.
Qed.

(** The call of a stub up to the return of the export. *)
Lemma dispatch_stub_cases p : match dispatch_stub p with
  | Ok p' => returned p p' ∧ thread p' = thread p ∧ stub_alloc p' = stub_alloc p ∧
      thread_fs_map p' = thread_fs_map p ∧
      sigsegv_recovery_count p' = sigsegv_recovery_count p
  | Err e => call_stops p (Err e)
  | Panic => call_stops p Panic
  end.
Proof.
  unfold dispatch_stub.
  assert (match (if negb (gregs p REG_RSP =? 0) then load 8 (mem p) (gregs p REG_RSP + 8)
    else mret 0) with Ok _ => True | Err e => e = Fault (gregs p REG_RSP + 8)
    | Panic => False end) as Hs by (destruct (negb _); [apply load_error|done]).
  destruct (if negb (gregs p REG_RSP =? 0) then _ else _) as [a7|e|];
    cbn [mbind outcome_bind]; [|subst e; left; eauto|done].
  destruct (match fpregs p with Some f => _ | None => _ end) as [x0 x1].
  destruct (hle_export_dispatcher _ _ _) as [[m w] [v|e|]] eqn:Ex.
  - match goal with |- context [emulate_ret ?q] => pose proof (emulate_ret_cases q) as Hr;
      destruct (emulate_ret q) as [p'|e|] end.
    + destruct Hr as (a & Ha & ->). destruct (is_float_function _); (split; [|done]);
        (split; [done|split; [exact Ha|by repeat constructor]]).
    + left. destruct (is_float_function _); subst e; eauto.
    + destruct Hr.
  - right. do 4 eexists. split; [exact Ex|done].
  - right. do 4 eexists. split; [exact Ex|done].
Qed.

(** C17: a SIGILL is handled exactly when it comes from a UD2.  At a stub the
    handler performs a call: it returns to the address on the stack, pops it and
    preserves the callee-saved registers.  Elsewhere it performs a system call:
    system call 1 exits, every other one continues behind the instruction with
    RAX = 0 and nothing else changed.  Either way the guest gets its FS base back,
    though the host's was installed in between.  A thread that is not registered
    cannot exit. *)
Theorem sigill_outcomes p : guest_fs_ok p →
  let rip := gregs p REG_RIP in
  match sigill_handler p with
  | Ok p' => at_ud2 (mem p) rip = Ok true ∧ resumes p p' ∧
      sigsegv_recovery_count p' = sigsegv_recovery_count p ∧
      if is_stub rip (stub_alloc p) then returned p p'
      else skipped p p' ∧ (registered_thread p → gregs p REG_RAX ≠ 1)
  | Err e => at_ud2 (mem p) rip = Err e ∨ at_ud2 (mem p) rip = Ok false ∧ e = Aborted ∨
      at_ud2 (mem p) rip = Ok true ∧
      if is_stub rip (stub_alloc p) then call_stops p (Err e)
      else e = Exited 0 ∧ gregs p REG_RAX = 1 ∧ registered_thread p
  | Panic => is_stub rip (stub_alloc p) = true ∧ call_stops p Panic
  end.
Proof.
  intros Hfs rip. unfold sigill_handler, registered_thread.
  assert (at_ud2 (mem p) rip ≠ Panic) as Hnp.
  { unfold at_ud2. pose proof (load_error 1 (mem p) rip). pose proof (load_error 1 (mem p) (rip + 1)).
    destruct (load 1 (mem p) rip) as [b|e|]; [cbn; destruct (b =? 0x0F); [|done]|done..].
    by destruct (load 1 (mem p) (rip + 1)). }
  destruct (Z.eqb_spec (get_thread_fs (thread p) (thread_fs_map p)) 0) as [Hh|Hh].
  - fold rip. destruct (at_ud2 (mem p) rip) as [[]|e|] eqn:Eu; cbn [mbind outcome_bind]; try by auto.
    destruct (is_stub rip (stub_alloc p)).
    + pose proof (emulate_ret_cases p) as Hr. destruct (emulate_ret p) as [q|e|]; cbn [mbind outcome_bind].
      * destruct Hr as (a & Ha & ->).
        edestruct (restore_resumes p) as [Hres (Eg & Ef & Em & Ew & Ec)]; [done|..|cbn].
        4: { split; [done|]. split; [exact Hres|]. split; [exact Ec|].
             unfold returned. rewrite Eg, Em. by split_and!; [|exact Ha|repeat constructor]. }
        all: done.
      * right; right. split; [done|]. left. subst. eauto.
      * done.
    + cbn. edestruct (restore_resumes p (set_reg REG_RAX 0 (skip_ud2 p))) as
        [Hres (Eg & Ef & Em & Ew & Ec)]; [done..|].
      split; [done|]. split; [exact Hres|]. split; [exact Ec|]. split; [|done].
      unfold skipped. rewrite Eg, Ef, Em, Ew. split_and!; try done. intros [] ??; done.
  - set (q := set_fs _ p). change (mem q) with (mem p). change (gregs q) with (gregs p).
    change (stub_alloc q) with (stub_alloc p). fold rip.
    destruct (at_ud2 (mem p) rip) as [[]|e|] eqn:Eu; cbn [mbind outcome_bind]; try by auto.
    destruct (is_stub rip (stub_alloc p)).
    + pose proof (dispatch_stub_cases q) as Hd.
      destruct (dispatch_stub q) as [q'|e|]; cbn [mbind outcome_bind].
      * destruct Hd as ((Hr1 & Hr2 & Hr3) & Ht & Hsa & Hm & Hc).
        edestruct (restore_resumes p q') as [Hres (Eg & Ef & Em & Ew & Ec)]; [done|..].
        { rewrite Ht. apply set_fs_tid. } { done. } { done. }
        split; [done|]. split; [exact Hres|]. split; [by rewrite Ec|].
        unfold returned. by rewrite Eg, Em.
      * right; right. split; [done|exact Hd].
      * by split.
    + unfold dispatch_syscall, hle_syscall_dispatcher. change (gregs q) with (gregs p).
      destruct (Z.eqb_spec (gregs p REG_RAX) 1); cbn [mbind outcome_bind mret outcome_ret].
      { right; right. by split_and!. }
      edestruct (restore_resumes p (skip_ud2 (set_reg REG_RAX 0 q))) as
        [Hres (Eg & Ef & Em & Ew & Ec)]; [done| |done|done|].
      { apply set_fs_tid. }
      split; [done|]. split; [exact Hres|]. split; [exact Ec|]. split; [|done].
      unfold skipped. rewrite Eg, Ef, Em, Ew. split_and!; try done. intros [] ??; done.
Qed.

(** The arguments a call passes, by the System V convention. *)
Definition call_args (p : process T W) (arg7 : Z) : export_args :=
  {| rdi := gregs p REG_RDI; rsi := gregs p REG_RSI; rdx := gregs p REG_RDX;
     rcx := gregs p REG_RCX; r8 := gregs p REG_R8; r9 := gregs p REG_R9;
     stack_arg7 := arg7;
     xmm0_bits := from_option (λ f, lo (xmm0 f)) 0 (fpregs p);
     xmm1_bits := from_option (λ f, lo (xmm1 f)) 0 (fpregs p) |}.

(** The result register of a function that returns [v], and the others. *)
Definition result_in (name : bytes) (v : Z) (p p' : process T W) : Prop :=
  (∀ r, r ∉ [REG_RIP; REG_RSP; REG_RAX] → gregs p' r = gregs p r) ∧
  if is_float_function name
  then gregs p' REG_RAX = 0 ∧
       fpregs p' = (λ f, {| xmm0 := {| lo := v; hi := 0 |}; xmm1 := xmm1 f |}) <$> fpregs p
  else gregs p' REG_RAX = v ∧ fpregs p' = fpregs p.

(** C18: a guest call to a stub is a call to the emulated function the stub was
    allocated for, in a registered thread: the export gets the argument registers,
    the seventh argument from the stack and the low halves of the vector
    registers; the guest continues at the return address the export left on the
    stack, with the result in XMM0 or RAX, memory as the export left it, and its
    own FS base. *)
Theorem sigill_stub_call p alloc i name arg7 m w v ret :
  guest_fs_ok p → registered_thread p →
  stub_alloc p = Some alloc → alloc_wf alloc → names alloc !! i = Some name →
  gregs p REG_RIP = slot_addr alloc i → at_ud2 (mem p) (slot_addr alloc i) = Ok true →
  gregs p REG_RSP ≠ 0 → load 8 (mem p) (gregs p REG_RSP + 8) = Ok arg7 →
  hle_export_dispatcher name (call_args p arg7) (mem p, world p) = ((m, w), Ok v) →
  load 8 m (gregs p REG_RSP) = Ok ret →
  ∃ p', sigill_handler p = Ok p' ∧ resumes p p' ∧
    gregs p' REG_RIP = ret ∧ gregs p' REG_RSP = gregs p REG_RSP +64 8 ∧
    result_in name v p p' ∧ mem p' = m ∧ world p' = w.
Proof.
  unfold registered_thread. intros Hfs Hh Hsa Hwf Hi Hrip Hud Hrsp H7 Hx Hret.
  destruct (slot_lookup alloc i name 0 Hwf Hi) as (Hst & Hix & Hnm); [done|].
  rewrite Z.add_0_r in *. unfold sigill_handler. rewrite (proj2 (Z.eqb_neq _ 0) Hh).
  set (q := set_fs _ p). change (mem q) with (mem p). change (gregs q) with (gregs p).
  change (stub_alloc q) with (stub_alloc p). rewrite Hrip, Hud, Hsa. cbn [mbind outcome_bind].
  rewrite Hst. assert (∃ q', dispatch_stub q = Ok q' ∧ thread q' = thread q ∧
    stub_alloc q' = stub_alloc p ∧ thread_fs_map q' = thread_fs_map p ∧
    gregs q' REG_RIP = ret ∧ gregs q' REG_RSP = gregs p REG_RSP +64 8 ∧
    result_in name v p q' ∧ mem q' = m ∧ world q' = w)
    as (q' & -> & Ht & Hs & Hm & Hq).
  { unfold dispatch_stub. change (gregs q) with (gregs p). change (stub_alloc q) with (stub_alloc p).
    change (mem q) with (mem p). change (fpregs q) with (fpregs p). change (world q) with (world p).
    rewrite Hrip, Hsa, Hix. unfold default, from_option, id. rewrite Hnm.
    rewrite (proj2 (Z.eqb_neq _ 0) Hrsp), H7. cbn [negb mbind outcome_bind].
    assert (match fpregs p with Some f => (lo (xmm0 f), lo (xmm1 f)) | None => (0, 0) end =
      (from_option (λ f, lo (xmm0 f)) 0 (fpregs p), from_option (λ f, lo (xmm1 f)) 0 (fpregs p)))
      as -> by by destruct (fpregs p).
    unfold call_args in Hx. rewrite Hx. unfold result_in, emulate_ret.
    destruct (is_float_function name);
      (match goal with |- context [load 8 ?m0 ?a] =>
         change (load 8 m0 a) with (load 8 m (gregs p REG_RSP)) end); rewrite Hret; eexists;
      (split; [reflexivity|]); split_and!; try (reflexivity || exact Hsa);
      intros [] Hr; try reflexivity; set_solver. }
  cbn [mbind outcome_bind]. edestruct (restore_resumes p q') as [Hres (Eg & Ef & Em & Ew & Ec)];
    [done|rewrite Ht; apply set_fs_tid|done..|].
  eexists. split; [reflexivity|]. split; [exact Hres|]. unfold result_in in *. by rewrite Eg, Ef, Em, Ew.
Qed.

(** C33: rewriting the SYSCALL instructions of a module keeps their meaning, up to
    the dispatcher: when control reaches the place of one, the handler runs the
    system call and continues behind the instruction; exit ends the process. *)
Theorem patched_syscall_traps base size m m' c y p :
  0 < size < 2 ^ 64 → mapped m base size → Patch.patch_syscalls base size m = Ok (m', c) →
  base ≤ y < base + size - 1 → Patch.syscall_at m y →
  mem p = m' → gregs p REG_RIP = y → is_stub y (stub_alloc p) = false →
  guest_fs_ok p → registered_thread p →
  if decide (gregs p REG_RAX = 1) then sigill_handler p = Err (Exited 0)
  else ∃ p', sigill_handler p = Ok p' ∧ resumes p p' ∧ skipped p p'.
Proof.
  unfold registered_thread. intros Hsz Hmap Hpatch Hy Hsys Hmem Hrip Hst Hfs Hh.
  assert (at_ud2 m' y = Ok true) as Hud.
  { apply at_ud2_true.
    destruct (Patch.patch_syscalls_lookup m base size Hsz Hmap) as (m1 & E & Hm1).
    rewrite E in Hpatch. injection Hpatch as -> _. rewrite !Hm1. by apply Patch.patched_syscall. }
  unfold sigill_handler. rewrite (proj2 (Z.eqb_neq _ 0) Hh).
  set (q := set_fs _ p). change (mem q) with (mem p). change (gregs q) with (gregs p).
  change (stub_alloc q) with (stub_alloc p). rewrite Hmem, Hrip, Hud. cbn [mbind outcome_bind].
  rewrite Hst. unfold dispatch_syscall, hle_syscall_dispatcher. change (gregs q) with (gregs p).
  destruct (Z.eqb_spec (gregs p REG_RAX) 1).
  - by rewrite decide_True by done.
  - rewrite decide_False by done. cbn [mbind outcome_bind mret outcome_ret].
    edestruct (restore_resumes p (skip_ud2 (set_reg REG_RAX 0 q))) as
      [Hres (Eg & Ef & Em & Ew & Ec)]; [done| |done|done|].
    { apply set_fs_tid. }
    eexists. split; [reflexivity|]. split; [exact Hres|].
    unfold skipped. rewrite Eg, Ef, Em, Ew. split_and!; try done. intros [] ??; done.
Qed.

(** ** Faults *)

(** The [k]-th frame of the RBP chain, none of the frames before it returning into
    the guest. *)
Inductive frame_chain (m : memory) : nat → Z → Z → Prop :=
| chain_here rbp : frame_chain m 0 rbp rbp
| chain_next k rbp saved ret frame :
    0x1000 ≤ rbp → load 8 m rbp = Ok saved → load 8 m (rbp +64 8) = Ok ret →
    in_guest ret = false → frame_chain m k saved frame → frame_chain m (S k) rbp frame.

(** A frame that returns into the guest, and the end of a chain without one. *)
Definition good_frame (m : memory) (frame saved ret : Z) : Prop :=
  0x1000 ≤ frame ∧ load 8 m frame = Ok saved ∧ load 8 m (frame +64 8) = Ok ret ∧
  in_guest ret = true.

Lemma in_guest_nonzero a : in_guest a = true → a ≠ 0.
Proof. unfold in_guest, guest_base. intros [?%Z.leb_le _]%andb_true_iff. lia. Qed.

Lemma unwind_spec n m rbp : match unwind n m rbp with
  | Ok (ret, saved, frame) => ∃ k, frame_chain m k rbp frame ∧
      if ret =? 0 then (k = n ∨ frame < 0x1000) else (k < n)%nat ∧ good_frame m frame saved ret
  | Err e => ∃ a, e = Fault a
  | Panic => False
  end.
Proof.
  revert rbp. induction n as [|n IH]; intros rbp; cbn [unwind].
  { exists 0%nat. split; [constructor|by left]. }
  destruct ((rbp =? 0) || (rbp <? 0x1000)) eqn:E.
  { exists 0%nat. split; [constructor|]. right. apply orb_true_iff in E as [?%Z.eqb_eq|?%Z.ltb_lt]; lia. }
  apply orb_false_iff in E as [_ Hr%Z.ltb_ge].
  pose proof (load_error 8 m rbp) as E1. pose proof (load_error 8 m (rbp +64 8)) as E2.
  destruct (load 8 m rbp) as [saved|e|] eqn:Es; cbn [mbind outcome_bind]; [|eauto|done].
  destruct (load 8 m (rbp +64 8)) as [ret|e|] eqn:Et; cbn [mbind outcome_bind]; [|eauto|done].
  destruct (in_guest ret) eqn:Ei.
  - cbn. exists 0%nat. split; [constructor|].
    rewrite (proj2 (Z.eqb_neq _ 0) (in_guest_nonzero _ Ei)). by split_and!; [lia|].
  - specialize (IH saved). destruct (unwind n m saved) as [[[ret' saved'] frame]|e|]; [|done..].
    destruct IH as (k & Hk & Hd). exists (S k). split; [by econstructor|].
    destruct (ret' =? 0); [destruct Hd; [left; lia|by right]|]. destruct Hd. split; [lia|done].
Qed.

Lemma find_return_spec m rbp rsp ret saved frame :
  find_return m rbp rsp = Ok (ret, saved, frame) → ret ≠ 0 →
  in_guest ret = true ∧ ∃ k, frame_chain m k rbp frame ∧
    ((k < 16)%nat ∧ good_frame m frame saved ret ∨
     (k = 16%nat ∨ frame < 0x1000) ∧ saved = rbp ∧ load 8 m rsp = Ok ret).
Proof.
  unfold find_return. pose proof (unwind_spec 16 m rbp) as Hu.
  destruct (unwind 16 m rbp) as [[[ret' saved'] frame']|e|]; cbn [mbind outcome_bind]; [|done..].
  destruct Hu as (k & Hk & Hd). destruct (Z.eqb_spec ret' 0) as [->|].
  - destruct (load 8 m rsp) as [top|e|] eqn:Et; cbn [mbind outcome_bind]; [|done..].
    destruct (in_guest top) eqn:Ei; intros [= <- <- <-] Hn; [|done].
    split; [done|]. exists k. split; [done|]. by right.
  - intros [= <- <- <-] _. split; [apply Hd|]. exists k. split; [done|]. by left.
Qed.

Lemma fatal_never_Ok p q : fatal p ≠ Ok q.
Proof.
  unfold fatal. destruct (negb _); [|done].
  by destruct (load_bytes _ _ 32), (load_bytes _ _ 16), (load_bytes _ _ 64).
Qed.

(** C34: a recovered fault resumes in guest code: with RAX = 0, at the return
    address of the innermost of at most 16 frames on the RBP chain that returns
    into the guest, whose caller's RBP is restored and whose stack is popped; only
    RIP, RBP, RSP and RAX change.  When there is no such frame the return address
    is taken from the top of the stack, but the stack pointer is then still set
    from the last frame of the chain, not from RSP. *)
Theorem sigsegv_recovery p p' : guest_fs_ok p → sigsegv_handler p = Ok p' →
  resumes p p' ∧ mem p' = mem p ∧ world p' = world p ∧ fpregs p' = fpregs p ∧
  in_guest (gregs p' REG_RIP) = true ∧ gregs p' REG_RAX = 0 ∧
  (∀ r, r ∉ [REG_RIP; REG_RBP; REG_RSP; REG_RAX] → gregs p' r = gregs p r) ∧
  ∃ k frame, frame_chain (mem p) k (gregs p REG_RBP) frame ∧
    gregs p' REG_RSP = frame +64 16 ∧
    ((k < 16)%nat ∧ good_frame (mem p) frame (gregs p' REG_RBP) (gregs p' REG_RIP) ∨
     (k = 16%nat ∨ frame < 0x1000) ∧ gregs p' REG_RBP = gregs p REG_RBP ∧
     load 8 (mem p) (gregs p REG_RSP) = Ok (gregs p' REG_RIP)).
Proof.
  intros Hfs. unfold sigsegv_handler. set (q := count_recovery _).
  assert (gregs q = gregs p ∧ mem q = mem p ∧ world q = world p ∧ fpregs q = fpregs p ∧
    stub_alloc q = stub_alloc p ∧ thread_fs_map q = thread_fs_map p ∧
    gettid (thread q) = gettid (thread p)) as (Eg & Em & Ew & Ef & Es & Et & Ei).
  { unfold q. destruct (negb _); split_and!; try done. apply set_fs_tid. }
  clearbody q. destruct (_ <? MAX_SIGSEGV_RECOVERIES); [|by intros ?%fatal_never_Ok].
  rewrite Eg, Em. destruct (find_return _ _ _) as [[[ret saved] frame]|e|] eqn:E;
    cbn [mbind outcome_bind]; [|done..].
  destruct (Z.eqb_spec ret 0) as [|Hret]; cbn [negb]; [by intros ?%fatal_never_Ok|].
  destruct (find_return_spec _ _ _ _ _ _ E Hret) as (Hi & k & Hk & Hd). intros [= <-].
  edestruct (restore_resumes p (set_reg REG_RAX 0 (set_reg REG_RSP (frame +64 16)
    (set_reg REG_RBP saved (set_reg REG_RIP ret q))))) as [Hres (Rg & Rf & Rm & Rw & _)]; [done..|].
  split; [exact Hres|]. rewrite Rg, Rf, Rm, Rw. cbn [mem world fpregs set_reg].
  split; [done|]. split; [done|]. split; [done|]. split; [exact Hi|]. split; [done|].
  split; [|by exists k, frame].
  intros r Hr. cbn [gregs set_reg]. rewrite Eg.
  rewrite !fn_lookup_insert_ne by (intros <-; apply Hr; set_solver). done.
Qed.

(** A run of the guest under the handlers, with the number of recovered faults.
    What the guest does by itself leaves the counter of the handlers alone. *)
Inductive run : nat → process T W → process T W → Prop :=
| run_start p : run 0 p p
| run_guest n p q r : run n p q →
    sigsegv_recovery_count r = sigsegv_recovery_count q → run n p r
| run_sigill n p q r : run n p q → sigill_handler q = Ok r → run n p r
| run_sigsegv n p q r : run n p q → sigsegv_handler q = Ok r → run (S n) p r.

Lemma sigsegv_count p p' : sigsegv_handler p = Ok p' →
  sigsegv_recovery_count p < MAX_SIGSEGV_RECOVERIES ∧
  sigsegv_recovery_count p' = sigsegv_recovery_count p +64 1.
Proof.
  unfold sigsegv_handler. set (q := if negb _ then _ else p).
  assert (sigsegv_recovery_count q = sigsegv_recovery_count p) as Eq.
  { unfold q. by destruct (negb _). }
  clearbody q. rewrite Eq. destruct (Z.ltb_spec (sigsegv_recovery_count p) MAX_SIGSEGV_RECOVERIES);
    [|by intros ?%fatal_never_Ok].
  destruct (find_return _ _ _) as [[[ret saved] frame]|e|]; cbn [mbind outcome_bind]; [|done..].
  destruct (negb (ret =? 0)); [|by intros ?%fatal_never_Ok]. intros [= <-]. split; [done|].
  unfold restore_guest_fs. rewrite <-Eq. by destruct (negb _).
Qed.

Lemma sigill_count p p' : sigill_handler p = Ok p' →
  sigsegv_recovery_count p' = sigsegv_recovery_count p.
Proof.
  assert (∀ g q, sigsegv_recovery_count (restore_guest_fs g q) = sigsegv_recovery_count q) as Hrs.
  { intros g q. unfold restore_guest_fs. by destruct (negb _). }
  unfold sigill_handler. destruct (_ =? 0).
  - destruct (at_ud2 _ _) as [[]|e|]; cbn [mbind outcome_bind]; [|done..].
    destruct (is_stub _ _); [|intros [= <-]; by rewrite Hrs].
    pose proof (emulate_ret_cases p) as Hr. destruct (emulate_ret p) as [q|e|];
      cbn [mbind outcome_bind]; [|done..].
    destruct Hr as (a & _ & ->). intros [= <-]. by rewrite Hrs.
  - set (q := set_fs _ p). change (sigsegv_recovery_count p) with (sigsegv_recovery_count q).
    clearbody q. destruct (at_ud2 _ _) as [[]|e|]; cbn [mbind outcome_bind]; [|done..].
    destruct (is_stub _ _).
    + pose proof (dispatch_stub_cases q) as Hd. destruct (dispatch_stub q) as [q'|e|];
        cbn [mbind outcome_bind]; [|done..].
      intros [= <-]. rewrite Hrs. apply Hd.
    + unfold dispatch_syscall, hle_syscall_dispatcher. destruct (_ =? 1); [done|].
      cbn [mbind outcome_bind mret outcome_ret]. intros [= <-]. by rewrite Hrs.
Qed.

(** C35: a guest cannot be kept alive by fault recovery for ever: however it runs,
    and whatever system calls and emulated functions it calls in between, at most
    512 faults are recovered, each is counted once, and the next one is fatal. *)
Theorem recoveries_bounded n p q : sigsegv_recovery_count p = 0 → run n p q →
  sigsegv_recovery_count q = Z.of_nat n ∧ Z.of_nat n ≤ MAX_SIGSEGV_RECOVERIES ∧
  (Z.of_nat n = MAX_SIGSEGV_RECOVERIES → ∀ r, sigsegv_handler q ≠ Ok r).
Proof.
  intros Hp Hr. assert (sigsegv_recovery_count q = Z.of_nat n ∧
    Z.of_nat n ≤ MAX_SIGSEGV_RECOVERIES) as [Hc Hn].
  { induction Hr as [|n p q r _ IH E|n p q r _ IH E%sigill_count|n p q r _ IH [Hl E]%sigsegv_count];
      [done|destruct (IH Hp); split; lia..|].
    destruct (IH Hp) as [Eq _]. unfold MAX_SIGSEGV_RECOVERIES in *. rewrite E, Eq in *. unwrap64.
    split; lia. }
  split; [done|]. split; [done|]. intros E r [Hl _]%sigsegv_count. lia.
Qed.

End laws.

End signals.

(** ** Witnesses *)

(** A thread is its id and its FS base, an export adds one to its first argument. *)
#[local] Instance toy_thread : HostThread (Z * Z) :=
  {| gettid := fst; arch_get_fs := snd; arch_set_fs v t := (t.1, v) |}.

#[local] Instance toy_thread_laws : HostThreadLaws (Z * Z).
Proof. by split. Qed.

#[local] Instance toy_exports : ExportDispatcher unit := λ name args s, (s, Ok (rdi args + 1)).

Definition toy_alloc : StubAllocator :=
  {| base := 2 ^ 36; used := 2; names := [str "malloc"; str "puts"] |}.

(** A UD2 in the second stub, one at 0x3000; a stack at 0x7000, whose second word
    is a guest address, like the first word of the frame below it. *)
Definition toy_memory : memory :=
  write_bytes [0x0F; 0x0B] (2 ^ 36 + 16) (write_bytes [0x0F; 0x0B] 0x3000
    (write_bytes (le_encode 8 0x7010 ++ le_encode 8 0x1000000040) 0x7000
      (write_bytes (le_encode 8 0 ++ le_encode 8 0) 0x7010 ∅))).

Definition toy_process (rip rax : Z) : process (Z * Z) unit :=
  {| thread := (7, 0x5000);
     gregs := λ r, match r with
       | REG_RIP => rip | REG_RSP => 0x7000 | REG_RBP => 0x7000 | REG_RAX => rax
       | REG_RDI => 41 | _ => 0 end;
     fpregs := None; mem := toy_memory; stub_alloc := Some toy_alloc;
     thread_fs_map := register_slot 7 0x9000 THREAD_FS_MAP;
     sigsegv_recovery_count := 0; world := tt |}.

Lemma toy_guest_fs rip rax : guest_fs_ok (toy_process rip rax).
Proof. by split. Qed.

(** The second stub returns; a system call in another place is skipped. *)
Lemma sigill_outcomes_witness :
  (∃ p', sigill_handler (toy_process (2 ^ 36 + 16) 0) = Ok p' ∧
     returned (toy_process (2 ^ 36 + 16) 0) p') ∧
  (∃ p', sigill_handler (toy_process 0x3000 5) = Ok p' ∧ skipped (toy_process 0x3000 5) p').
Proof.
  split.
  - pose proof (sigill_outcomes (toy_process (2 ^ 36 + 16) 0) (toy_guest_fs _ _)) as Hs.
    destruct (sigill_handler (toy_process (2 ^ 36 + 16) 0)) as [p'|e|] eqn:E;
      [|vm_compute in E; discriminate E..].
    destruct Hs as (_ & _ & _ & Hr).
    assert (is_stub (gregs (toy_process (2 ^ 36 + 16) 0) REG_RIP)
      (stub_alloc (toy_process (2 ^ 36 + 16) 0)) = true) as Hst by (vm_compute; reflexivity).
    rewrite Hst in Hr. exists p'. split; [reflexivity|exact Hr].
  - pose proof (sigill_outcomes (toy_process 0x3000 5) (toy_guest_fs _ _)) as Hs.
    destruct (sigill_handler (toy_process 0x3000 5)) as [p'|e|] eqn:E;
      [|vm_compute in E; discriminate E..].
    destruct Hs as (_ & _ & _ & Hr).
    assert (is_stub (gregs (toy_process 0x3000 5) REG_RIP)
      (stub_alloc (toy_process 0x3000 5)) = false) as Hst by (vm_compute; reflexivity).
    rewrite Hst in Hr. exists p'. split; [reflexivity|apply Hr].
Defined.

Lemma sigill_stub_call_witness : ∃ p', sigill_handler (toy_process (2 ^ 36 + 16) 0) = Ok p' ∧
  gregs p' REG_RIP = 0x7010 ∧ result_in (str "puts") 42 (toy_process (2 ^ 36 + 16) 0) p'.
Proof.
  destruct (sigill_stub_call (toy_process (2 ^ 36 + 16) 0) toy_alloc 1 (str "puts") 0x1000000040
    toy_memory tt 42 0x7010) as (p' & E & _ & Hrip & _ & Hres & _);
    [apply toy_guest_fs|by vm_compute| | | | | | | | | |by exists p'];
    try (by vm_compute); by apply (bool_decide_eq_true_1 _); vm_compute.
Defined.

Lemma patched_syscall_traps_witness : ∃ p', skipped (toy_process 0x3000 5) p'.
Proof.
  pose (m := write_bytes [0x0F; 0x05] 0x3000 toy_memory).
  assert (∃ c, Patch.patch_syscalls 0x3000 2 m = Ok (toy_memory, c)) as [c Hc].
  { eexists. vm_compute. reflexivity. }
  assert (mapped m 0x3000 2) as Hm.
  { apply (load_bytes_mapped m 0x3000 2). eexists. vm_compute. reflexivity. }
  pose proof (patched_syscall_traps 0x3000 2 m toy_memory c 0x3000 (toy_process 0x3000 5)
    ltac:(lia) Hm Hc ltac:(lia) ltac:(by split; vm_compute) eq_refl eq_refl ltac:(by vm_compute)
    (toy_guest_fs _ _) ltac:(by vm_compute)) as Ht.
  destruct Ht as (p' & _ & _ & Hs). by exists p'.
Defined.

Lemma sigsegv_recovery_witness : ∃ p', sigsegv_handler (toy_process 0 5) = Ok p' ∧
  in_guest (gregs p' REG_RIP) = true ∧ gregs p' REG_RAX = 0.
Proof.
  eexists. split; [vm_compute; reflexivity|].
  edestruct (sigsegv_recovery (toy_process 0 5)) as (_ & _ & _ & _ & Hi & Ha & _);
    [apply toy_guest_fs|vm_compute; reflexivity|].
  split; [exact Hi|exact Ha].
Defined.

(** One fault, recovered, then a system call. *)
Lemma recoveries_bounded_witness : ∃ q, run 1 (toy_process 0 5) q ∧ sigsegv_recovery_count q = 1.
Proof.
  assert (∃ q, run 1 (toy_process 0 5) q) as [q Hq].
  { eexists. eapply run_sigsegv; [apply run_start|]. vm_compute. reflexivity. }
  exists q. split; [exact Hq|]. by apply (recoveries_bounded 1 (toy_process 0 5) q).
Defined.

End Signals.
