(* ===== verification/Boot.v ===== *)
(** * Start-up (anotherps4-bin/src/main.rs, cpu/jump.rs)

    [run_emulator_guest_thread]: from an executable on disk to the jump into the
    guest, through every component, up to the process the signal handlers of
    Signals.v run over; the start of a thread that [scePthreadCreate] spawned; and
    [show_info].  Start-up creates the renderer of Vulkan.v, and may panic in it.  The
    window's event loop and the log are left out. *)

From stdpp Require Import functions.
From S2P Require Import Prelude CommonTypes BTreeMap PhysicalMemory AddressSpace VirtualMemory.
From S2P Require Import MemorySyscalls Bytes GuestMemory UnixPath KernelServices Psf Elf.
From S2P Require Import LinkerModule Vulkan Gpu Hle Linker Exports Libc ExportHandlers Dispatcher.
From S2P Require Import Signals.

Open Scope rust_scope.

Module Boot.

Import LinkerModule Signals.

#[local] Existing Instance Virtual.VMAType_eq_dec.

(** ** The jumps (cpu/jump.rs)

    As functions of the registers at the call: RDI, RSI and RDX hold the arguments,
    and six registers are pushed on the host stack. *)

Definition jump_to_guest (regs : greg → Z) : greg → Z :=
  <[REG_RIP := regs REG_RDI]> (<[REG_RSP := regs REG_RSI]>
  (<[REG_RBP := regs REG_RSP -64 48]> regs)).

Definition zeroed : list greg :=
  [REG_RBX; REG_RCX; REG_RDX; REG_RBP; REG_R8; REG_R9; REG_R10; REG_R11; REG_R12; REG_R13;
   REG_R14; REG_R15].

Definition jump_to_guest_thread (regs : greg → Z) : greg → Z :=
  <[REG_RIP := regs REG_RDI]> (foldr (λ r f, <[r := 0]> f)
  (<[REG_RDI := regs REG_RDX]> (<[REG_RAX := regs REG_RDI]> (<[REG_RSP := regs REG_RSI]> regs)))
  zeroed).

(** A call of either, from a host context. *)
Definition call_regs (entry_point stack_pointer arg : Z) (host : greg → Z) : greg → Z :=
  <[REG_RDI := entry_point]> (<[REG_RSI := stack_pointer]> (<[REG_RDX := arg]> host)).

Inductive boot_stop :=
| ExecutableNotFound
| MemoryFailed (e : mem_error)
| LinkFailed (e : link_error)
| Stopped (h : halt).

Definition of_load_stop (e : load_stop) : boot_stop :=
  match e with Failed e => LinkFailed e | Faulted h => Stopped h end.

Section boot.
Context {OS : Type} `{!HostOS OS} `{!Bitflags} `{!ByteOrder} `{!Symbols.HashOrder}.
Context {HF F : Type} {T C : Type} `{!HostThread T, !HostClock C}.
Context {Window : Type} `{!Vulkan.VulkanApi Window}.
Variable fs_read : path → outcome io_error bytes.
Variable exists_ : path → bool.
(** Whether ARCH_SET_FS accepts an address. *)
Variable arch_set_fs_ok : Z → T → bool.

Abbreviation world := (ExportHandlers.world OS HF F).

(** Everything the emulator is made of. *)
Record machine := {
  guest : memory;
  exports : world;
  stubs : option Stubs.StubAllocator;
  linker : Linker.Linker;
  process_start : option Z;
  host_thread : T;
  fs_map : ThreadFs.fs_table;
}.

Abbreviation boot := (st machine boot_stop).

Definition set_guest (m : memory) (s : machine) : machine :=
  {| guest := m; exports := exports s; stubs := stubs s; linker := linker s;
     process_start := process_start s; host_thread := host_thread s; fs_map := fs_map s |}.
Definition set_exports (w : world) (s : machine) : machine :=
  {| guest := guest s; exports := w; stubs := stubs s; linker := linker s;
     process_start := process_start s; host_thread := host_thread s; fs_map := fs_map s |}.
Definition set_stubs (g : option Stubs.StubAllocator) (s : machine) : machine :=
  {| guest := guest s; exports := exports s; stubs := g; linker := linker s;
     process_start := process_start s; host_thread := host_thread s; fs_map := fs_map s |}.
Definition set_linker (l : Linker.Linker) (s : machine) : machine :=
  {| guest := guest s; exports := exports s; stubs := stubs s; linker := l;
     process_start := process_start s; host_thread := host_thread s; fs_map := fs_map s |}.
Definition set_process_start (t : option Z) (s : machine) : machine :=
  {| guest := guest s; exports := exports s; stubs := stubs s; linker := linker s;
     process_start := t; host_thread := host_thread s; fs_map := fs_map s |}.
Definition set_host_thread (t : T) (l : ThreadFs.fs_table) (s : machine) : machine :=
  {| guest := guest s; exports := exports s; stubs := stubs s; linker := linker s;
     process_start := process_start s; host_thread := t; fs_map := l |}.

Definition kernel (s : machine) : OS := ExportHandlers.os (ExportHandlers.mems (exports s)).
Definition manager (s : machine) : option Virtual.MemoryManager :=
  ExportHandlers.manager (ExportHandlers.mems (exports s)).

Definition set_kernel (o : OS) (s : machine) : machine :=
  let w := exports s in
  set_exports (ExportHandlers.set_mems
    {| ExportHandlers.os := o; ExportHandlers.manager := ExportHandlers.manager (ExportHandlers.mems w);
       ExportHandlers.phys_mappings := ExportHandlers.phys_mappings (ExportHandlers.mems w) |} w) s.
Definition set_manager (o : OS) (mm : Virtual.MemoryManager) (s : machine) : machine :=
  set_exports (ExportHandlers.set_manager o mm (exports s)) s.

(** Before [main]. *)
Definition machine_start (o : OS) (h : HF) (t : T) : machine :=
  {| guest := ∅; exports := ExportHandlers.world_start o h; stubs := None;
     linker := Linker.Linker_new; process_start := None; host_thread := t;
     fs_map := ThreadFs.THREAD_FS_MAP |}.

Definition modify (f : machine → machine) : boot unit := λ s, (f s, Ok tt).

(** ** Steps 1 to 6 *)

(** The contents are only logged; an error is, too. *)
Definition read_param_sfo (game_directory : path) : boot unit := λ s,
  let sfo_path := join (join game_directory (str "sce_sys")) (str "param.sfo") in
  if exists_ sfo_path then
    match Psf.open fs_read sfo_path with
    | Panic => (s, Panic)
    | _ => (s, Ok tt)
    end
  else (s, Ok tt).

Definition new_memory_manager : boot Virtual.MemoryManager := λ s,
  match Virtual.new (kernel s) with
  | (o, Ok mm) => (set_kernel o s, Ok mm)
  | (o, Err e) => (set_kernel o s, Err (MemoryFailed e))
  | (o, Panic) => (set_kernel o s, Panic)
  end.

Definition init_stubs : boot unit := λ s,
  match Stubs.init ((kernel s, guest s), stubs s) with
  | (((o, m), g), Ok _) => (set_stubs g (set_guest m (set_kernel o s)), Ok tt)
  | (((o, m), g), Err e) => (set_stubs g (set_guest m (set_kernel o s)), Err (MemoryFailed e))
  | (((o, m), g), Panic) => (set_stubs g (set_guest m (set_kernel o s)), Panic)
  end.

Definition register_libraries : boot unit := modify (λ s,
  let '(r, g) := Libraries.register_all_libraries (Linker.hle_symbols (linker s), stubs s) in
  set_stubs g (set_linker
    {| Linker.modules := Linker.modules (linker s); Linker.hle_symbols := r;
       Linker.dtv_generation_counter := Linker.dtv_generation_counter (linker s);
       Linker.static_tls_size := Linker.static_tls_size (linker s);
       Linker.max_tls_index := Linker.max_tls_index (linker s) |} s)).

Definition init_gpu (window : Window) : boot unit := λ s,
  match Gpu.init_gpu (Some window) (ExportHandlers.gpu (exports s)) with
  | (g, Ok _) => (set_exports (ExportHandlers.set_gpu g (exports s)) s, Ok tt)
  | (g, Err e) => match e with end
  | (g, Panic) => (set_exports (ExportHandlers.set_gpu g (exports s)) s, Panic)
  end.

(** The manager is shared: the exports and the linker use the same one. *)
Definition start_up (executable game_directory : path) (window : Window) (now : C) : boot unit :=
  if negb (exists_ executable) then st_lift (Err ExecutableNotFound)
  else
    _ ← read_param_sfo game_directory;
    memory ← new_memory_manager;
    _ ← modify (set_process_start (Time.init now));
    _ ← modify (set_linker Linker.Linker_new);
    _ ← init_stubs;
    _ ← register_libraries;
    _ ← modify (λ s, set_exports (ExportHandlers.initialize_exports memory (exports s)) s);
    _ ← modify (λ s, set_exports
          (ExportHandlers.mount_filesystem (str "/app0/") game_directory (exports s)) s);
    init_gpu window.

(** ** Steps 7 to 10 *)

(** [None]: see [Linker.load_module]. *)
Definition load_executable (fuel : nat) (executable : path) (s : machine)
  : option (machine * outcome boot_stop Z) :=
  match manager s with
  | None => Some (s, Panic)
  | Some mm =>
      '((sys, m, l), r) ← Linker.load_module fs_read exists_ fuel executable
                            ((kernel s, mm), guest s, linker s);
      Some (set_linker l (set_guest m (set_manager sys.1 sys.2 s)), map_err of_load_stop r)
  end.

Definition relocate : boot unit := λ s,
  match Linker.relocate_all (linker s) (guest s, stubs s) with
  | ((m, g), r) => (set_stubs g (set_guest m s), map_err Stopped r)
  end.

(** ** The second phase *)

Definition is_executable_code (v : Virtual.VirtualMemoryArea) : bool :=
  bool_decide (Virtual.vma_name v = "eboot.bin"%string ∧ Virtual.vma_type v = Virtual.Code).

(** The area of the executable is looked up by name, and unwrapped. *)
Definition code_vma (s : machine) : option Virtual.VirtualMemoryArea :=
  mm ← manager s; snd <$> list_find (λ v, is_executable_code v) (Virtual.get_vmas mm).

Definition patch_executable : boot unit := λ s,
  match code_vma s with
  | None => (s, Panic)
  | Some v =>
      match Patch.patch_syscalls (Virtual.vma_base v) (Virtual.vma_size v) (guest s) with
      | Ok (m, _) => (set_guest m s, Ok tt)
      | Err h => (s, Err (Stopped h))
      | Panic => (s, Panic)
      end
  end.

(** Fresh thread data, at an address of the manager's choice. *)
Definition map_area (len : Z) (name : string) : boot Z := λ s,
  match manager s with
  | None => (s, Panic)
  | Some mm =>
      match Virtual.map_memory 0 len
              (Z.lor Virtual.MemoryProt.CPU_READ Virtual.MemoryProt.CPU_WRITE)
              ANON_PRIVATE Virtual.ThreadData name (kernel s, mm) with
      | ((o, mm), Ok addr) =>
          (set_guest (map_zeros addr (align_up len PAGE_SIZE) (guest s)) (set_manager o mm s), Ok addr)
      | ((o, mm), Err e) => (set_manager o mm s, Err (MemoryFailed e))
      | ((o, mm), Panic) => (set_manager o mm s, Panic)
      end
  end.

(** A computation on guest memory, from which only a fault returns. *)
Definition on_guest {A} (f : memory → outcome halt (memory * A)) : boot A := λ s,
  match f (guest s) with
  | Ok (m, a) => (set_guest m s, Ok a)
  | Err h => (s, Err (Stopped h))
  | Panic => (s, Panic)
  end.

(** [rsp -= 8; ptr::write(rsp, v)]. *)
Definition push (v rsp : Z) (m : memory) : outcome halt (memory * Z) :=
  let rsp := rsp -64 8 in m ← store 8 m rsp v; mret (m, rsp).

(** The terminators of auxv, envp and argv, an argument and argc, all null; then
    the alignment. *)
Definition build_stack (stack_end : Z) (m : memory) : outcome halt (memory * Z) :=
  '(m, rsp) ← push 0 stack_end m;
  '(m, rsp) ← push 0 rsp m;
  '(m, rsp) ← push 0 rsp m;
  '(m, rsp) ← push 0 rsp m;
  '(m, rsp) ← push 0 rsp m;
  mret (m, Z.land rsp (not64 0xF)).

(** The change of TLS, for the main thread and for those it spawns: the host's FS
    base is remembered, and the guest's points to the TCB, whose first word is its
    own address. *)
Definition switch_tls (tcb_base : Z) (t : T) (l : ThreadFs.fs_table) (m : memory)
  : outcome halt (memory * T * ThreadFs.fs_table) :=
  let l := ThreadFs.register_thread_fs (arch_get_fs t) t l in
  m ← store 8 m tcb_base tcb_base;
  if arch_set_fs_ok tcb_base t then mret (m, arch_set_fs tcb_base t, l) else Err Aborted.

Definition switch_main_thread (tcb_base : Z) : boot unit := λ s,
  match switch_tls tcb_base (host_thread s) (fs_map s) (guest s) with
  | Ok (m, t, l) => (set_host_thread t l (set_guest m s), Ok tt)
  | Err h => (s, Err (Stopped h))
  | Panic => (s, Panic)
  end.

Definition TCB_SIZE : Z := 4096.
Definition STACK_SIZE : Z := 2 * 1024 * 1024.

(** The entry point and the stack pointer of the jump.  [get_dt_init_funcs] is
    called, but its functions are not run. *)
Definition enter_guest : boot (Z * Z) :=
  _ ← relocate;
  _ ← patch_executable;
  tcb_base ← map_area TCB_SIZE "Main Thread TCB";
  stack_base ← map_area STACK_SIZE "Main Thread Stack";
  rsp ← on_guest (build_stack (stack_base +64 STACK_SIZE));
  s ← st_get;
  entry_point ← st_lift (unwrap (Linker.entry_point (linker s)));
  _ ← switch_main_thread tcb_base;
  mret (entry_point, rsp).

Definition run_emulator_guest_thread (fuel : nat) (executable game_directory : path)
    (window : Window) (now : C) (s : machine) : option (machine * outcome boot_stop (Z * Z)) :=
  match start_up executable game_directory window now s with
  | (s, Err e) => Some (s, Err e)
  | (s, Panic) => Some (s, Panic)
  | (s, Ok _) =>
      '(s, r) ← load_executable fuel executable s;
      match r with
      | Ok _ => Some (enter_guest s)
      | Err e => Some (s, Err e)
      | Panic => Some (s, Panic)
      end
  end.

(** The guest after the jump, as the signal handlers see it. *)
Definition guest_process (s : machine) (entry_point rsp : Z) (host : greg → Z)
    (fp : option fp_state) : process T world :=
  {| thread := host_thread s; gregs := jump_to_guest (call_regs entry_point rsp 0 host);
     fpregs := fp; Signals.mem := guest s; stub_alloc := stubs s; thread_fs_map := fs_map s;
     sigsegv_recovery_count := 0; Signals.world := exports s |}.

(** The closure a thread of [scePthreadCreate] runs: the process as it sees it, on
    its own host thread. *)
Definition start_guest_thread (q : spawn_request) (t : T) (host : greg → Z)
    (p : process T world) : outcome halt (process T world) :=
  '(m, t, l) ← switch_tls (sp_tcb q) t (thread_fs_map p) (Signals.mem p);
  mret {| thread := t;
          gregs := jump_to_guest_thread (call_regs (start_routine q)
                     (sp_rsp q) (sp_arg q) host);
          fpregs := fpregs p; Signals.mem := m; stub_alloc := stub_alloc p; thread_fs_map := l;
          sigsegv_recovery_count := sigsegv_recovery_count p; Signals.world := Signals.world p |}.

(** ** The command line *)

(** [run_emulator]: without a directory, the one the executable is in. *)
Definition game_directory_of (executable : path) (game_dir : option path) : path :=
  match game_dir with
  | Some p => p
  | None => default (from_bytes [46]) (parent executable)
  end.

(** [Path::extension]: what follows the last dot of the file name, unless nothing
    precedes it. *)
Fixpoint last_dot (bs : bytes) : option (bytes * bytes) :=
  match bs with
  | [] => None
  | b :: bs' =>
      match last_dot bs' with
      | Some (before, after) => Some (b :: before, after)
      | None => if b =? 46 then Some ([], bs') else None
      end
  end.

Definition extension (p : path) : option bytes :=
  name ← file_name p;
  '(before, after) ← last_dot name;
  if bool_decide (before = []) then None else Some after.

(** [to_lowercase], as far as the names below are concerned: no other character
    becomes one of their letters. *)
Definition to_lowercase (bs : bytes) : bytes :=
  (λ b, if (65 <=? b) && (b <=? 90) then b + 32 else b) <$> bs.

Inductive info := ShowSfo (psf : Psf.Psf) | ShowElf (elf : Elf.Elf).
Inductive info_error := SfoError (e : Psf.PsfError) | ElfFileError (e : Elf.ElfError) | UnknownFileFormat.

Definition show_info (p : path) : outcome info_error info :=
  let ext := to_lowercase (default [] (extension p)) in
  if bool_decide (ext = str "sfo") then
    psf ← map_err SfoError (Psf.open fs_read p); mret (ShowSfo psf)
  else if bool_decide (ext ∈ [str "bin"; str "elf"; str "self"]) then
    elf ← map_err ElfFileError (Elf.open fs_read p); mret (ShowElf elf)
  else
    match Elf.open fs_read p with
    | Ok elf => mret (ShowElf elf)
    | Panic => Panic
    | Err _ =>
        match Psf.open fs_read p with
        | Ok psf => mret (ShowSfo psf)
        | Panic => Panic
        | Err _ => Err UnknownFileFormat
        end
    end.

End boot.

(** ** Lemmas: how a step of start-up ends *)

(** The errors there may be once the executable has been found and loaded. *)
Definition start_error (e : boot_stop) : Prop :=
  match e with
  | MemoryFailed _ | Stopped (Fault _) | Stopped Aborted => True
  | _ => False
  end.

(** The error is one of [E], and a panic has the cause [X]. *)
Definition ends_by {M A} (E : boot_stop → Prop) (X : Prop) (r : M * outcome boot_stop A)
    (Q : M → A → Prop) : Prop :=
  match r.2 with Ok a => Q r.1 a | Err e => E e | Panic => X end.
Abbreviation ends := (ends_by start_error False).

Lemma ends_bind {M A B} E X (c : st M boot_stop A) (k : A → st M boot_stop B) s P Q :
  ends_by E X (c s) P → (∀ s' a, P s' a → ends_by E X (k a s') Q) → ends_by E X ((c ≫= k) s) Q.
Proof.
  intros Hc Hk. unfold mbind, st_bind, ends_by in *.
  destruct (c s) as [s' [a|e|]]; cbn in *; [|done..]. by apply Hk.
Qed.

Lemma ends_mono {M A} E X (r : M * outcome boot_stop A) (P Q : M → A → Prop) :
  ends_by E X r P → (∀ s a, P s a → Q s a) → ends_by E X r Q.
Proof. intros Hr HPQ. unfold ends_by in *. destruct r as [s [a|e|]]; [by apply HPQ|done..]. Qed.

(** *** The stack and the TLS *)

Lemma push_zero rsp m : 8 ≤ rsp < 2 ^ 64 → mapped m (rsp - 8) 8 →
  (∀ x, rsp - 8 ≤ x < rsp → m !! x = Some 0) → push 0 rsp m = Ok (m, rsp - 8).
Proof.
  intros Hr Hm Hz. unfold push. unwrap64. rewrite store_total by done. cbn [mbind outcome_bind].
  unfold mret, outcome_ret. do 2 f_equal. apply map_eq. intros x. rewrite write_bytes_lookup.
  rewrite le_encode_length. case_range; [|done]. rewrite Hz by lia.
  change (le_encode 8 0) with (replicate 8 0). apply lookup_replicate_2. lia.
Qed.

(** In fresh memory the pushes change nothing: the stack ends with 48 null bytes,
    eight of them below argc. *)
Lemma build_stack_zero e m : 48 ≤ e < 2 ^ 64 → (16 | e) → (∀ x, e - 48 ≤ x < e → m !! x = Some 0) →
  build_stack e m = Ok (m, e - 48).
Proof.
  intros He [k ->] Hz. assert (∀ a n, k * 16 - 48 ≤ a → a + n ≤ k * 16 → mapped m a n) as Hm.
  { intros a n ?? x ?. rewrite Hz by lia. by eexists. }
  unfold build_stack. cbn [mbind outcome_bind].
  do 5 (rewrite push_zero; [cbn [mbind outcome_bind]|lia|apply Hm; lia|intros x ?; apply Hz; lia]).
  unfold mret, outcome_ret. do 2 f_equal.
  replace (k * 16 - 8 - 8 - 8 - 8 - 8) with ((k - 3) * 16 + 8) by lia.
  change 0xF with (2 ^ 4 - 1). rewrite land_not64_ones by (unfold in_u; lia).
  rewrite (Z.add_comm (_ * 16)), Z.mod_add by lia. change (8 mod 2 ^ 4) with 8. lia.
Qed.

Section laws.
Context {OS : Type} `{!HostOS OS, !HostOSLaws OS} `{!Bitflags, !BitflagsLaws}.
Context `{!ByteOrder, !ByteOrderLaws} `{!Symbols.HashOrder}.
Context {HF F : Type} {T C : Type} `{!HostThread T, !HostThreadLaws T, !HostClock C}.
Context {Window : Type} `{!Vulkan.VulkanApi Window, !HostSpawn}.
Variable fs_read : path → outcome io_error bytes.
Variable exists_ : path → bool.
Variable arch_set_fs_ok : Z → T → bool.

(** arch_prctl(2): an address outside the user half is refused. *)
Hypothesis arch_set_fs_range : ∀ v t, arch_set_fs_ok v t = true → 0 ≤ v < 2 ^ 47.

Abbreviation machine := (machine (OS:=OS) (HF:=HF) (F:=F) (T:=T)).
Abbreviation boot := (st machine boot_stop).

(** The main thread is the first to register. *)
Lemma first_registration t : ThreadFs.get_thread_fs t
  (ThreadFs.register_thread_fs (arch_get_fs t) t ThreadFs.THREAD_FS_MAP) = arch_get_fs t.
Proof.
  unfold ThreadFs.get_thread_fs, ThreadFs.register_thread_fs, ThreadFs.THREAD_FS_MAP.
  cbn [repeat ThreadFs.register_slot]. change (0 =? 0) with true. cbn. by rewrite Z.eqb_refl.
Qed.

(** The TCB starts with its own address, which is the FS base. *)
Definition tls_at (tcb : Z) (t : T) (m : memory) : Prop :=
  arch_get_fs t = tcb ∧ GuestMemory.load 8 m tcb = Ok tcb.

Lemma switch_tls_ends tcb t l m : mapped m tcb 8 →
  switch_tls arch_set_fs_ok tcb t l m = Err Aborted ∨ ∃ m',
    switch_tls arch_set_fs_ok tcb t l m =
      Ok (m', arch_set_fs tcb t, ThreadFs.register_thread_fs (arch_get_fs t) t l) ∧
    0 ≤ tcb < 2 ^ 47 ∧ tls_at tcb (arch_set_fs tcb t) m' ∧
    (∀ x, ¬ tcb ≤ x < tcb + 8 → m' !! x = m !! x) ∧ (mem_ok m → mem_ok m') ∧
    (∀ a n, mapped m a n → mapped m' a n).
Proof.
  intros Hm. unfold switch_tls. rewrite store_total by done. cbn [mbind outcome_bind].
  destruct (arch_set_fs_ok tcb t) eqn:Ea; [right|by left].
  apply arch_set_fs_range in Ea. eexists. split; [done|]. split; [done|]. split; [split|split; [|split]].
  - by apply set_get_fs.
  - apply (load_store_same 8 m tcb tcb); [by apply store_total|].
    change (256 ^ Z.of_nat 8) with (2 ^ 64). lia.
  - intros x Hx. rewrite write_bytes_lookup, le_encode_length. by case_range.
  - intros Hok. apply write_bytes_ok; [done|apply le_encode_bytes].
  - intros a n. apply write_bytes_mapped. by rewrite le_encode_length.
Qed.

(** *** Areas for the main thread *)

Lemma manager_set_manager o mm (s : machine) : manager (set_manager o mm s) = Some mm.
Proof. done. Qed.

(** The files and the GPU of the exports. *)
Definition services (s : machine) : ExportHandlers.file_part * Gpu.GpuGlobal :=
  (ExportHandlers.files (exports s), ExportHandlers.gpu (exports s)).

(** What a new area leaves as it was. *)
Definition same_program (s s' : machine) : Prop :=
  linker s' = linker s ∧ stubs s' = stubs s ∧ host_thread s' = host_thread s ∧
  fs_map s' = fs_map s ∧ services s' = services s.

Lemma map_area_ends len name (s : machine) mm : manager s = Some mm → Virtual.wf mm →
  0 < len → len + PAGE_SIZE ≤ Virtual.VA_LIMIT →
  ends (map_area len name s) (λ s' addr, same_program s s' ∧ ∃ mm', manager s' = Some mm' ∧
    Virtual.wf mm' ∧ Virtual.keeps mm mm' ∧ (PAGE_SIZE | addr) ∧
    Virtual.carve_ok addr (align_up len PAGE_SIZE) ∧
    (∀ x, addr ≤ x < addr + len → Virtual.type_at mm x = Some Virtual.Free ∧ guest s' !! x = Some 0 ∧
       Virtual.type_at mm' x = Some Virtual.ThreadData) ∧
    (∀ x, Virtual.type_at mm x ≠ Some Virtual.Free → guest s' !! x = guest s !! x ∧
       Virtual.type_at mm' x ≠ Some Virtual.Free) ∧
    (∀ x, Virtual.type_at mm' x = Some Virtual.Code → Virtual.type_at mm x = Some Virtual.Code) ∧
    (mem_ok (guest s) → mem_ok (guest s'))).
Proof.
  intros Em Hwf Hlen Hlim. unfold map_area. rewrite Em.
  set (p := Z.lor _ _).
  destruct (Virtual.map_anywhere len p ANON_PRIVATE Virtual.ThreadData name (kernel s) mm Hwf)
    as [(o & e & ->)|(o & addr & mm' & -> & Hwf' & Hc & Hp & Hfree & Hv & He & Hk)]; [lia|done|done|].
  pose proof (Virtual.args_ok_aligned 0 len) as [Hn _]; [unfold Virtual.args_ok; lia|].
  set (n := align_up len PAGE_SIZE) in *. unfold ends_by. cbn [fst snd]. split; [by split_and!|].
  exists mm'. assert (∀ x, addr ≤ x < addr + n → Virtual.type_at mm' x = Some Virtual.ThreadData) as Ht.
  { intros x Hx. specialize (He x Hx). unfold Virtual.entry_at, Virtual.type_at in *. by rewrite He. }
  split_and!; [done|done|done|done|done|..].
  - intros x Hx. split; [apply Hfree; lia|]. split; [|apply Ht; lia].
    cbn. rewrite map_zeros_lookup by lia. by case_range; [|lia].
  - intros x Hx. assert (¬ addr ≤ x < addr + n) as Hout by by intros ?%Hfree.
    split; [cbn; rewrite map_zeros_lookup by lia; by case_range|].
    specialize (Hv x). revert Hv. case_range; [done|]. intros Hv.
    by rewrite (Linker.view_type_at _ _ _ Hv).
  - intros x Hx. specialize (Hv x). revert Hv. case_range.
    + rewrite Ht in Hx by done. by injection Hx.
    + intros Hv. by rewrite <-(Linker.view_type_at _ _ _ Hv).
  - apply map_zeros_ok.
Qed.

(** *** Threads *)

Abbreviation world := (ExportHandlers.world OS HF F).

(** What a handler has done when it returns. *)
Definition returns {A} (r : (memory * world) * outcome halt A) (Q : memory → world → A → Prop)
  : Prop := match r with ((m, w), Ok a) => Q m w a | _ => True end.

Lemma returns_bind {A B} (c : st (memory * world) halt A) (k : A → st (memory * world) halt B) s P Q :
  returns (c s) P → (∀ m w a, P m w a → returns (k a (m, w)) Q) → returns ((c ≫= k) s) Q.
Proof.
  intros Hc Hk. unfold mbind, st_bind, returns in *.
  destruct (c s) as [[m w] [a|e|]]; [by apply Hk|done..].
Qed.

Definition still_mapped (m m' : memory) : Prop := ∀ a n, mapped m a n → mapped m' a n.

#[local] Instance still_mapped_preorder : PreOrder still_mapped.
Proof. split; [by intros m a n|]. intros m1 m2 m3 H12 H23 a n ?. by apply H23, H12. Qed.

Lemma reading_returns {A} (f : memory → outcome halt A) m (w : world) :
  returns (ExportHandlers.reading f (m, w)) (λ m' w' _, m' = m ∧ w' = w).
Proof. unfold ExportHandlers.reading, ExportHandlers.in_memory. by destruct (f m). Qed.

Lemma writing_returns n a v m (w : world) :
  returns (ExportHandlers.writing (λ m, store n m a v) (m, w)) (λ m' w' _, still_mapped m m' ∧ w' = w).
Proof.
  unfold ExportHandlers.writing, ExportHandlers.in_memory.
  destruct (store n m a v) as [m'|e|] eqn:E; cbn; [|done..]. split; [|done].
  apply store_Ok in E as (Hm & ->). intros b k Hb. apply write_bytes_mapped; [|done].
  by rewrite le_encode_length.
Qed.

Lemma store_out_returns n a v m (w : world) :
  returns (ExportHandlers.store_out n a v (m, w)) (λ m' w' _, still_mapped m m' ∧ w' = w).
Proof.
  unfold ExportHandlers.store_out. destruct (negb _); [apply writing_returns|]. by split.
Qed.

Lemma map_fresh_returns len prot ty name m (w : world) : ExportHandlers.world_ok w →
  ExportHandlers.len_ok len →
  returns (ExportHandlers.map_fresh len prot ty name (m, w)) (λ m' w' r,
    ExportHandlers.world_ok w' ∧ ExportHandlers.spawned w' = ExportHandlers.spawned w ∧
    still_mapped m m' ∧
    if r is Some addr then (PAGE_SIZE | addr) ∧ 0 ≤ addr ∧ addr + len ≤ Virtual.VA_LIMIT ∧
      mapped m' addr len
    else True).
Proof.
  intros Hw Hl. pose proof Hl as [Hl0 Hlim].
  destruct (ExportHandlers.map_fresh_cases len prot ty name m w Hw Hl)
    as [(w' & -> & Hw' & _ & E & _)|(o & mm & mm' & addr & -> & _ & Hwf & Hc & Hp & _)].
  - split; [done|]. split; [by rewrite <-E|]. by split.
  - pose proof (Virtual.args_ok_aligned 0 len) as [? _]; [unfold Virtual.args_ok; lia|].
    destruct Hc as (? & _ & ?). cbn. split; [by intros ? [= <-]|]. split; [done|].
    assert (∀ a n, mapped m a n → mapped (map_zeros addr (align_up len PAGE_SIZE) m) a n) as Hk.
    { intros a n Hm x Hx. rewrite map_zeros_lookup by lia. case_range; [by eexists|by apply Hm]. }
    split; [exact Hk|]. split_and!; [done|done|lia|].
    eapply mapped_weaken; [apply map_zeros_mapped; lia|lia..].
Qed.

(** A new area, when the manager grants one. *)
Lemma map_fresh_Ok len prot ty name m (w : world) mm addr :
  ExportHandlers.manager (ExportHandlers.mems w) = Some mm →
  let r := Virtual.map_memory 0 len prot ANON_PRIVATE ty name (ExportHandlers.os (ExportHandlers.mems w), mm) in
  r.2 = Ok addr →
  ExportHandlers.map_fresh len prot ty name (m, w) =
    ((map_zeros addr (align_up len PAGE_SIZE) m, ExportHandlers.set_manager r.1.1 r.1.2 w), Ok (Some addr)).
Proof.
  intros Em r Hr. unfold ExportHandlers.map_fresh. rewrite Em. fold r.
  destruct r as [[o mm'] [a|e|]]; [|done..]. by injection Hr as ->.
Qed.

(** A thread that [scePthreadCreate] reports as created. *)
Lemma thread_create_returns args m (w : world) : ExportHandlers.world_ok w →
  returns (ExportHandlers.scePthreadCreate args (m, w)) (λ m' w' rc, rc = 0 →
    ∃ tcb stack, 0 < tcb ∧ mapped m' tcb 8 ∧ (PAGE_SIZE | stack) ∧ 0 < stack ∧
      stack + STACK_SIZE ≤ Virtual.VA_LIMIT ∧ mapped m' stack STACK_SIZE ∧
      let q := {| start_routine := rdx args; sp_rsp := ExportHandlers.thread_rsp stack;
                  sp_arg := rcx args; sp_tcb := tcb |} in
      ExportHandlers.spawned w' =
        ExportHandlers.spawned w ++ [(q, spawn_ok (ExportHandlers.spawned w) q)]).
Proof.
  intros Hw. unfold ExportHandlers.scePthreadCreate.
  eapply returns_bind; [apply reading_returns|]. intros ? ? nm [-> ->].
  apply (returns_bind _ _ _ (λ m1 w1 a, m1 = m ∧ w1 = w ∧ a = w)); [done|]. intros ? ? ? (-> & -> & ->).
  destruct (ExportHandlers.manager _); [|done]. cbn beta zeta.
  eapply returns_bind; [by apply map_fresh_returns|]. intros m1 w1 tcb (Hw1 & E1 & _ & Htcb).
  eapply returns_bind; [by apply map_fresh_returns|]. intros m2 w2 stack (_ & E2 & Hk2 & Hstack).
  destruct (_ && _) eqn:Ez; [|done].
  apply andb_true_iff in Ez as [Ht%negb_true_iff%Z.eqb_neq Hs%negb_true_iff%Z.eqb_neq].
  destruct tcb as [tcb|]; [|done]. destruct stack as [stack|]; [|done]. cbn [default] in *.
  destruct Htcb as (_ & ? & _ & Hmt), Hstack as (Hp & ? & ? & Hms).
  eapply returns_bind; [apply writing_returns|]. intros m3 w3 [] [Hk3 ->].
  eapply returns_bind; [apply store_out_returns|]. intros m4 w4 [] [Hk4 ->].
  intros _. exists tcb, stack. cbn. rewrite E2, E1. unfold still_mapped, id in *.
  split_and!; [lia| |done|lia|done|by apply Hk4, Hk3|done].
  apply Hk4, Hk3, Hk2. eapply mapped_weaken; [exact Hmt|lia|]. unfold ExportHandlers.TCB_SIZE. lia.
Qed.

(** C6: when [scePthreadCreate] returns 0, it has asked the host for one thread; whether
    the host has started it is not reported: a failed spawn is dropped.  If the host has,
    and nothing has been unmapped in between, either the kernel refuses the TCB address,
    and the thread aborts the process, or it enters the guest at the start routine, with
    its argument in RDI, on a stack of its own with the alignment of a called function, all
    other registers null but RAX, RSI and RIP, and with a TCB that starts with its own
    address.  The signal handlers find the FS base of the host for it, as long as one
    of the 64 slots was free or its own; otherwise they read 0.  Memory outside the TCB's
    first word and the rest of the process are as they were. *)
Theorem created_thread_enters args m m' (w w' : world) : ExportHandlers.world_ok w →
  ExportHandlers.scePthreadCreate args (m, w) = ((m', w'), Ok 0) →
  ∃ q : spawn_request,
    ExportHandlers.spawned w' =
      ExportHandlers.spawned w ++ [(q, spawn_ok (ExportHandlers.spawned w) q)] ∧
    ∀ (p : process T world) t host, dom m' ⊆ dom (Signals.mem p) →
      match start_guest_thread arch_set_fs_ok q t host p with
      | Ok p' => gregs p' REG_RIP = rdx args ∧ gregs p' REG_RDI = rcx args ∧
          gregs p' REG_RSP mod 16 = 8 ∧ mapped (Signals.mem p') (gregs p' REG_RSP - 0x1FFFF8) 0x200000 ∧
          (∀ r, r ∈ zeroed → gregs p' r = 0) ∧
          guest_fs_ok p' ∧ tls_at (arch_get_fs (thread p')) (thread p') (Signals.mem p') ∧
          gettid (thread p') = gettid t ∧
          thread_fs_map p' = ThreadFs.register_thread_fs (arch_get_fs t) t (thread_fs_map p) ∧
          ThreadFs.get_thread_fs (thread p') (thread_fs_map p') =
            (if existsb (λ e, (e.1 =? 0) || (e.1 =? wrap 32 (gettid t))) (thread_fs_map p)
             then arch_get_fs t else 0) ∧
          (∀ x, ¬ sp_tcb q ≤ x < sp_tcb q + 8 → Signals.mem p' !! x = Signals.mem p !! x) ∧
          stub_alloc p' = stub_alloc p ∧ Signals.world p' = Signals.world p
      | Err e => e = Aborted
      | Panic => False
      end.
Proof.
  intros Hw E. pose proof (thread_create_returns args m w Hw) as Hr. rewrite E in Hr.
  destruct (Hr eq_refl) as (tcb & stack & Hpos & Htcb & [k ->] & ? & ? & Hstack & Hsp).
  eexists. split; [exact Hsp|]. intros p t host Hdom.
  assert (∀ a n, mapped m' a n → mapped (Signals.mem p) a n) as Hk.
  { intros a n Hm x Hx. by apply elem_of_dom, Hdom, elem_of_dom, Hm. }
  unfold start_guest_thread. cbn [sp_tcb sp_rsp start_routine sp_arg].
  destruct (switch_tls_ends tcb t (thread_fs_map p) (Signals.mem p))
    as [->|(m1 & -> & Hrange & [Efs Hload] & Hm1 & _ & Hmm)]; [by apply Hk|done|].
  cbn [mbind outcome_bind]. unfold mret, outcome_ret.
  assert (ExportHandlers.thread_rsp (k * PAGE_SIZE) = k * PAGE_SIZE + STACK_SIZE - 8) as Ersp.
  { unfold ExportHandlers.thread_rsp, Virtual.VA_LIMIT, PAGE_SIZE, STACK_SIZE, ExportHandlers.STACK_SIZE in *.
    unwrap64. change 0xF with (2 ^ 4 - 1). rewrite land_not64_ones by (unfold in_u; lia).
    replace (k * (16 * 1024) + 2 * 1024 * 1024) with ((1024 * k + 131072) * 2 ^ 4) by lia.
    rewrite Z.mod_mul by lia. rewrite Z.sub_0_r. unwrap64. lia. }
  split; [done|]. split; [done|].
  change (gregs _ REG_RSP) with (ExportHandlers.thread_rsp (k * PAGE_SIZE)). rewrite Ersp.
  split; [|split; [|split; [|split; [|split; [|split; [|split; [|split; [|split; [|done]]]]]]]]].
  - unfold PAGE_SIZE, STACK_SIZE. replace (_ - 8) with (8 + (1024 * k + 131071) * 16) by lia.
    by rewrite Z.mod_add.
  - apply Hmm, Hk. eapply mapped_weaken; [exact Hstack|unfold STACK_SIZE; lia..].
  - intros r Hin. repeat (apply elem_of_cons in Hin as [->|Hin]; [reflexivity|]).
    by apply elem_of_nil in Hin.
  - unfold guest_fs_ok. cbn [thread]. rewrite Efs. lia.
  - split; [done|]. cbn [thread Signals.mem]. by rewrite Efs.
  - cbn [thread]. by rewrite set_fs_tid.
  - done.
  - unfold ThreadFs.get_thread_fs. cbn [thread thread_fs_map]. rewrite set_fs_tid.
    apply ThreadFs.register_found.
  - exact Hm1.
Qed.

(** *** The area of the executable *)

Variable loadable : gset bytes.
Hypothesis names_bytes : ∀ n, n ∈ loadable → is_bytes n.

Definition executable_name : bytes := str "eboot.bin".

(** The modules have names and areas of their own, the main one among them, and
    nothing else is code. *)
Record in_place (mm : Virtual.MemoryManager) (ms : list LoadedModule) (md : LoadedModule) : Prop := {
  ip_wf : Virtual.wf mm;
  ip_main : head ms = Some md;
  ip_names : NoDup (name <$> ms);
  ip_loadable n : n ∈ name <$> ms → n ∈ loadable;
  ip_areas md' : md' ∈ ms → 0 < aligned_base_size md' < 2 ^ 63 ∧ Linker.in_area mm md';
  ip_code x : Virtual.type_at mm x = Some Virtual.Code → ∃ md', md' ∈ ms ∧ Linker.region md' x;
}.

Lemma is_executable_module md' : is_bytes (name md') →
  is_executable_code (Linker.module_area md') = true ↔ name md' = executable_name.
Proof.
  intros Hb. unfold is_executable_code. rewrite bool_decide_eq_true. cbn. split.
  - intros [E _]. by rewrite <-(str_bytes_string _ Hb), E.
  - intros ->. split; [vm_compute; reflexivity|done].
Qed.

Lemma main_in mm ms md : in_place mm ms md → md ∈ ms.
Proof. intros [_ Hmain _ _ _ _]. destruct ms; [done|]. injection Hmain as ->. left. Qed.

(** An area the lookup accepts is that of a module called like the executable. *)
Lemma code_vma_module mm ms md v : in_place mm ms md → v ∈ Virtual.get_vmas mm →
  is_executable_code v = true →
  ∃ md', md' ∈ ms ∧ name md' = executable_name ∧ v = Linker.module_area md'.
Proof.
  intros [Hwf Hmain Hnd Hl Hareas Hcode] Hv He.
  destruct (Virtual.values_bounds _ _ Hwf Hv) as (? & ? & _).
  assert (Virtual.entry_at mm (Virtual.vma_base v) = Some v) as Hat.
  { unfold Virtual.entry_at. apply (Virtual.wf_values _ _ Hwf) in Hv.
    eapply at_addr_unique; [done|done|unfold iend; cbn; lia]. }
  destruct (Hcode (Virtual.vma_base v)) as (md' & Hmd' & Hr).
  { unfold Virtual.entry_at, Virtual.type_at in *. rewrite Hat. cbn.
    unfold is_executable_code in He. apply bool_decide_eq_true in He as [_ ->]. done. }
  destruct (Hareas md' Hmd') as [_ Hin']. rewrite (Hin' _ Hr) in Hat. injection Hat as <-.
  exists md'. split; [done|]. split; [|done]. apply is_executable_module; [|done].
  apply names_bytes, Hl. by apply list_elem_of_fmap_2.
Qed.

(** The lookup by name finds exactly the executable's region. *)
Lemma code_vma_main (s : machine) mm ms md : manager s = Some mm → in_place mm ms md →
  name md = executable_name → code_vma s = Some (Linker.module_area md).
Proof.
  intros Em Hip Hname. pose proof (main_in _ _ _ Hip) as Hmd.
  pose proof Hip as [_ _ Hnd Hl Hareas _]. unfold code_vma. rewrite Em. cbn [mbind option_bind].
  destruct (Hareas md Hmd) as [Hsz Hin].
  assert (Linker.module_area md ∈ Virtual.get_vmas mm) as Hv.
  { assert (Linker.region md (base_virtual_addr md)) as Hx by (unfold Linker.region; lia).
    specialize (Hin _ Hx). apply at_addr_elem in Hin as [[k Hk] _].
    apply list_elem_of_fmap. by exists (k, Linker.module_area md). }
  destruct (list_find (λ v, is_executable_code v) (Virtual.get_vmas mm)) as [[i v]|] eqn:Ef.
  - cbn. f_equal. apply list_find_Some in Ef as (Hi & He & _). apply list_elem_of_lookup_2 in Hi.
    destruct (code_vma_module _ _ _ v Hip Hi) as (md' & Hmd' & Hn & ->); [by apply Is_true_true|].
    apply list_elem_of_lookup in Hmd as [i1 L1], Hmd' as [i2 L2].
    assert (i1 = i2) as ->; [|congruence].
    apply (NoDup_lookup (name <$> ms) _ _ executable_name Hnd); rewrite list_lookup_fmap.
    + by rewrite L1, <-Hname.
    + by rewrite L2, <-Hn.
  - rewrite list_find_None, Forall_forall in Ef. destruct (Ef _ Hv). apply Is_true_true.
    apply is_executable_module; [|done]. apply names_bytes, Hl. by apply list_elem_of_fmap_2.
Qed.

(** Without a module of that name it finds nothing. *)
Lemma code_vma_other (s : machine) mm ms md : manager s = Some mm → in_place mm ms md →
  executable_name ∉ name <$> ms → code_vma s = None.
Proof.
  intros Em Hip Hno. unfold code_vma. rewrite Em. cbn [mbind option_bind].
  destruct (list_find (λ v, is_executable_code v) (Virtual.get_vmas mm)) as [[i v]|] eqn:Ef; [|done].
  apply list_find_Some in Ef as (Hi & He & _). apply list_elem_of_lookup_2 in Hi.
  destruct (code_vma_module _ _ _ v Hip Hi) as (md' & Hmd' & Hn & _); [by apply Is_true_true|].
  destruct Hno. rewrite <-Hn. by apply list_elem_of_fmap_2.
Qed.

(** *** From a loaded executable to the jump *)

Record ready (s : machine) (mm : Virtual.MemoryManager) (md : LoadedModule) : Prop := {
  rd_manager : manager s = Some mm;
  rd_place : in_place mm (Linker.modules (linker s)) md;
  rd_mapped : mapped (guest s) (base_virtual_addr md) (aligned_base_size md);
  rd_null : Virtual.type_at mm 0 ≠ Some Virtual.Free;
  rd_bytes : mem_ok (guest s);
}.

(** What relocating and patching leave as they were. *)
Definition same_setup (s s' : machine) : Prop :=
  linker s' = linker s ∧ host_thread s' = host_thread s ∧ fs_map s' = fs_map s ∧
  exports s' = exports s.

Definition stubs_ready (s : machine) : Prop :=
  ∃ alloc, stubs s = Some alloc ∧ Stubs.alloc_wf alloc.

Lemma ready_same s s' mm md : same_setup s s' → dom (guest s) ⊆ dom (guest s') →
  mem_ok (guest s') → ready s mm md → ready s' mm md.
Proof.
  intros (El & _ & _ & Ee) Hd Hb [Hm Hp Hr Hn _]. split; [|by rewrite El| |done..].
  - unfold manager in *. by rewrite Ee.
  - intros x Hx. apply elem_of_dom, Hd, elem_of_dom. by apply Hr.
Qed.

Lemma relocate_cases s mm md : ready s mm md → stubs_ready s →
  ∃ s', same_setup s s' ∧
    ((∃ a, relocate s = (s', Err (Stopped (Fault a)))) ∨
     relocate s = (s', Ok tt) ∧ ready s' mm md ∧ stubs_ready s').
Proof.
  intros Hr (alloc & Ea & Hwf). unfold relocate, Linker.relocate_all.
  pose proof (Relocation.relocate_modules_stores (Linker.hle_symbols (linker s))
    (Linker.modules (linker s)) (guest s, stubs s)) as (Hd & Hb & Hst & Hp & He).
  destruct (Relocation.relocate_modules _ _ _) as [[m g] [[]|h|]]; cbn in *; [| |done].
  - destruct (Hst alloc Ea Hwf) as (alloc' & -> & Hwf' & _).
    assert (same_setup s (set_stubs (Some alloc') (set_guest m s))) as Hs by done.
    eexists. split; [exact Hs|right]. split; [done|]. split; [|by exists alloc'].
    eapply ready_same; [exact Hs|cbn; by rewrite Hd|by apply Hb, Hr|done].
  - destruct (He h eq_refl) as [a ->]. eexists. split; [|left; by exists a]. done.
Qed.

Lemma relocate_ends s mm md : ready s mm md → stubs_ready s →
  ends (relocate s) (λ s' _, same_setup s s' ∧ ready s' mm md ∧ stubs_ready s').
Proof.
  intros Hr Hst.
  by destruct (relocate_cases s mm md Hr Hst) as (s' & ? & [[a ->]|(-> & ? & ?)]).
Qed.

(** No SYSCALL is left in a module's region. *)
Definition clean (md : LoadedModule) (m : memory) : Prop :=
  ∀ y, base_virtual_addr md ≤ y < base_virtual_addr md + aligned_base_size md - 1 →
    ¬ Patch.syscall_at m y.

Lemma patch_ends s mm md : ready s mm md → name md = executable_name →
  ends (patch_executable s) (λ s' _, same_setup s s' ∧ stubs s' = stubs s ∧ ready s' mm md ∧
    clean md (guest s')).
Proof.
  intros Hr Hname. pose proof Hr as [Em Hp Hmap _ Hb]. unfold patch_executable.
  rewrite (code_vma_main _ _ _ _ Em Hp Hname). cbn [Linker.module_area Virtual.new_vma Virtual.vma_base Virtual.vma_size].
  assert (0 < aligned_base_size md < 2 ^ 63) as Hsz.
  { eapply ip_areas; [exact Hp|]. by eapply main_in. }
  destruct (Patch.patch_syscalls_lookup (guest s) (base_virtual_addr md) (aligned_base_size md))
    as (m' & -> & Hm'); [lia|done|].
  unfold ends_by. cbn. split; [done|]. split; [done|]. split.
  - eapply (ready_same s); [done| | |done]; cbn.
    + intros x Hx. apply elem_of_dom in Hx.
      apply elem_of_dom. rewrite Hm'. unfold Patch.patched. by case_decide.
    + intros x b. rewrite Hm'. unfold Patch.patched. case_decide; [by intros [= <-]|apply Hb].
  - intros y Hy. by eapply Patch.patched_none.
Qed.

Lemma clean_agree md m m' : (∀ x, Linker.region md x → m' !! x = m !! x) → clean md m → clean md m'.
Proof.
  unfold Linker.region. intros Hx Hc y Hy [Hy0 Hy1]. apply (Hc y Hy). split.
  - by rewrite <-Hx by lia.
  - by rewrite <-Hx by lia.
Qed.

(** An area for the main thread, once the executable is in place. *)
Record area_added (s s' : machine) (mm mm' : Virtual.MemoryManager) (md : LoadedModule)
    (addr len : Z) : Prop := {
  aa_program : same_program s s';
  aa_ready : ready s' mm' md;
  aa_bounds : 0 ≤ addr ∧ addr + len ≤ Virtual.VA_LIMIT;
  aa_page : (PAGE_SIZE | addr);
  aa_fresh x : addr ≤ x < addr + len →
    Virtual.type_at mm x = Some Virtual.Free ∧ guest s' !! x = Some 0 ∧
    Virtual.type_at mm' x = Some Virtual.ThreadData;
  aa_rest x : Virtual.type_at mm x ≠ Some Virtual.Free → guest s' !! x = guest s !! x;
}.

Lemma ready_code s mm md x : ready s mm md → Linker.region md x →
  Virtual.type_at mm x = Some Virtual.Code.
Proof.
  intros [_ Hp _ _ _] Hx. eapply Linker.in_area_type; [|exact Hx].
  eapply ip_areas; [exact Hp|]. by eapply main_in.
Qed.

Lemma map_area_ready len name s mm md : ready s mm md →
  0 < len → len + PAGE_SIZE ≤ Virtual.VA_LIMIT →
  ends (map_area len name s) (λ s' addr, ∃ mm', area_added s s' mm mm' md addr len).
Proof.
  intros Hr Hlen Hlim. pose proof Hr as [Em [Hwf ? ? ? Hareas Hcode] Hmap Hnull Hb].
  eapply ends_mono; [by apply (map_area_ends len name s mm)|]. cbn beta.
  intros s' addr (Hsame & mm' & Em' & Hwf' & Hk & Hp & (? & _ & ?) & Hfresh & Hrest & Hnew & Hb').
  pose proof Hsame as (El & _). exists mm'.
  pose proof (Virtual.args_ok_aligned 0 len) as [? _]; [unfold Virtual.args_ok; lia|].
  split; [done| |lia|done|done|by intros x [? _]%Hrest].
  split; [done| | |by apply Hrest|by apply Hb'].
  - rewrite El. split; try done.
    + intros md' Hmd'. destruct (Hareas md' Hmd'). split; [done|]. by eapply Linker.in_area_keeps.
    + intros x Hx. by apply Hcode, Hnew.
  - intros x Hx. destruct (Hrest x) as [-> _]; [|by apply Hmap].
    by rewrite (ready_code _ _ _ _ Hr Hx).
Qed.

(** The machine at the jump: the program counter and stack pointer are those of the
    main module and of a fresh, null, aligned stack; no SYSCALL is left in its code;
    the thread has a TCB of its own, and the signal handlers know its host FS. *)
Record at_jump (s s' : machine) (md : LoadedModule) (entry rsp : Z) : Prop := {
  aj_main : Linker.main_module (linker s') = Some md;
  aj_entry : entry = base_virtual_addr md +64 Elf.entry_point (elf_of md);
  aj_clean : clean md (guest s');
  aj_stack : (16 | rsp) ∧ ∀ x, rsp ≤ x < rsp + 48 → guest s' !! x = Some 0;
  aj_tls : ∃ tcb, 0 < tcb < 2 ^ 47 ∧ tls_at tcb (host_thread s') (guest s');
  aj_host : fs_map s = ThreadFs.THREAD_FS_MAP →
    ThreadFs.get_thread_fs (host_thread s') (fs_map s') = arch_get_fs (host_thread s);
  aj_place : ∃ mm, manager s' = Some mm ∧ in_place mm (Linker.modules (linker s')) md;
  aj_mapped : mapped (guest s') (base_virtual_addr md) (aligned_base_size md);
  aj_bytes : mem_ok (guest s');
  aj_stubs : stubs_ready s';
  aj_services : services s' = services s;
}.

(** The last step, after both areas. *)
Lemma switch_ends s0 s1 s2 mm0 mm1 mm2 md tcb stack :
  clean md (guest s0) → stubs_ready s0 → ready s0 mm0 md →
  area_added s0 s1 mm0 mm1 md tcb TCB_SIZE → area_added s1 s2 mm1 mm2 md stack STACK_SIZE →
  ends (switch_main_thread arch_set_fs_ok tcb s2) (λ s' _,
    at_jump s0 s' md (base_virtual_addr md +64 Elf.entry_point (elf_of md))
      (stack + STACK_SIZE - 48)).
Proof.
  intros Hclean (alloc & Ea & Hwf) Hr0 [Hp1 Hr1 Hb1 Hal1 Hf1 Hk1] [Hp2 Hr2 Hb2 Hal2 Hf2 Hk2].
  destruct Hp1 as (El1 & Es1 & Et1 & Em1 & Ef1), Hp2 as (El2 & Es2 & Et2 & Em2 & Ef2).
  assert (∀ x, tcb ≤ x < tcb + TCB_SIZE → guest s2 !! x = Some 0 ∧ ¬ stack ≤ x < stack + STACK_SIZE)
    as Htcb.
  { intros x Hx. destruct (Hf1 x Hx) as (_ & Hz & Ht). split.
    - rewrite Hk2, Hz; [done|]. by rewrite Ht.
    - intros (Hfree & _)%Hf2. congruence. }
  assert (0 < tcb) as Hpos.
  { destruct (decide (tcb = 0)) as [->|]; [|lia].
    destruct (Hf1 0) as (Hfree & _); [unfold TCB_SIZE; lia|]. by destruct (rd_null _ _ _ Hr0). }
  unfold switch_main_thread.
  destruct (switch_tls_ends tcb (host_thread s2) (fs_map s2) (guest s2))
    as [->|(m' & -> & ? & Htls & Hm' & Hb' & _)]; [|done|].
  { intros x Hx. destruct (Htcb x) as [-> _]; [unfold TCB_SIZE; lia|by eexists]. }
  assert (mem_ok m') as Hbytes by by apply Hb', Hr2.
  assert (∀ x, Linker.region md x → m' !! x = guest s2 !! x) as Hcode.
  { intros x Hx. apply Hm'. intros Hx'. destruct (Hf1 x) as (Hfree & _); [unfold TCB_SIZE; lia|].
    by rewrite (ready_code _ _ _ _ Hr0 Hx) in Hfree. }
  unfold ends_by. cbn. rewrite Et2, Et1 in *. split; cbn.
  - apply Hr2.
  - done.
  - eapply clean_agree; [|exact Hclean]. intros x Hx. rewrite Hcode by done.
    rewrite Hk2 by by rewrite (ready_code _ _ _ _ Hr1 Hx).
    by rewrite Hk1 by by rewrite (ready_code _ _ _ _ Hr0 Hx).
  - split.
    + destruct Hal2 as [k ->]. exists (1024 * k + 131069). unfold STACK_SIZE, PAGE_SIZE. lia.
    + intros x Hx. assert (stack ≤ x < stack + STACK_SIZE) as Hin by (unfold STACK_SIZE in *; lia).
      rewrite Hm'; [by apply Hf2|]. intros Hx'. destruct (Htcb x) as [_ Hno]; [unfold TCB_SIZE; lia|done].
  - exists tcb. split; [lia|exact Htls].
  - intros E. rewrite Em2, Em1, E. unfold ThreadFs.get_thread_fs. rewrite set_fs_tid.
    apply first_registration.
  - destruct Hr2 as [? ? _ _ _]. by exists mm2.
  - intros x Hx. rewrite Hcode by done. by apply (rd_mapped _ _ _ Hr2).
  - exact Hbytes.
  - exists alloc. unfold stubs_ready. cbn. rewrite Es2, Es1. by split.
  - etrans; [exact Ef2|exact Ef1].
Qed.

Lemma stack_ends s0 s1 mm0 mm1 md stack :
  area_added s0 s1 mm0 mm1 md stack STACK_SIZE →
  on_guest (build_stack (stack +64 STACK_SIZE)) s1 = (s1, Ok (stack + STACK_SIZE - 48)).
Proof.
  intros [_ _ Hb [k ->] Hf _]. unfold on_guest, Virtual.VA_LIMIT, STACK_SIZE, PAGE_SIZE in *. unwrap64.
  rewrite build_stack_zero; [by destruct s1|lia| |].
  - exists (1024 * k + 131072). lia.
  - intros x Hx. apply Hf. lia.
Qed.

Lemma enter_guest_ends s mm md : ready s mm md → name md = executable_name → stubs_ready s →
  ends (enter_guest arch_set_fs_ok s) (λ s' '(entry, rsp), at_jump s s' md entry rsp).
Proof.
  intros Hr Hname Hst. unfold enter_guest.
  eapply ends_bind; [by apply relocate_ends|]. intros s1 _ (Hs1 & Hr1 & Hst1).
  eapply ends_bind; [by eapply patch_ends|]. intros s2 _ (Hs2 & Es2 & Hr2 & Hclean).
  assert (stubs_ready s2) as Hst2 by (unfold stubs_ready; by rewrite Es2).
  eapply ends_bind; [by apply map_area_ready|]. intros s3 tcb (mm3 & Ha3).
  eapply ends_bind; [by apply (map_area_ready _ _ _ mm3 md); [apply Ha3|..]|].
  intros s4 stack (mm4 & Ha4).
  unfold mbind at 1, st_bind at 1. rewrite (stack_ends _ _ _ _ _ _ Ha4). cbv beta iota.
  unfold mbind at 1, st_bind at 1, st_get at 1. cbv beta iota.
  unfold mbind at 1, st_bind at 1, st_lift at 1. unfold Linker.entry_point at 1.
  pose proof (ip_main _ _ _ (rd_place _ _ _ (aa_ready _ _ _ _ _ _ _ Ha4))) as Hmain.
  unfold Linker.main_module at 1. rewrite Hmain. cbn [fmap option_fmap option_map unwrap].
  eapply ends_bind; [by eapply switch_ends|]. intros s5 [] Hj.
  unfold ends_by. cbn. destruct Hs1 as (El1 & Et1 & Em1 & Ee1), Hs2 as (El2 & Et2 & Em2 & Ee2).
  destruct Hj. split; try done.
  - intros E. rewrite aj_host0; [by rewrite Et2, Et1|by rewrite Em2, Em1].
  - rewrite aj_services0. unfold services. by rewrite Ee2, Ee1.
Qed.

(** *** Up to the jump *)

Hypothesis fs_read_returns : ∀ p, fs_read p ≠ Panic.
Hypothesis files_bytes : ∀ p bs, fs_read p = Ok bs → is_bytes bs.
Hypothesis files_ok : Linker.files_ok fs_read loadable.

Lemma read_param_sfo_ok dir (s : machine) : read_param_sfo fs_read exists_ dir s = (s, Ok tt).
Proof.
  unfold read_param_sfo. destruct (exists_ _); [|done]. unfold Psf.open.
  destruct (fs_read _) as [bs|e|] eqn:E; cbn [map_err mbind outcome_bind]; [|done|by destruct (fs_read_returns _ E)].
  pose proof (Psf.parse_no_panic bs (files_bytes _ _ E)). by destruct (Psf.parse bs).
Qed.

Record started (s0 s : machine) (dir : path) : Prop := {
  sd_manager : ∃ mm, manager s = Some mm ∧ Virtual.wf mm ∧
    ∀ x, Virtual.type_at mm x = Some Virtual.Free ∧ x ≠ 0 ∨ Virtual.type_at mm x = None;
  sd_modules : Linker.modules (linker s) = [];
  sd_stubs : stubs_ready s;
  sd_bytes : mem_ok (guest s);
  sd_thread : host_thread s = host_thread s0 ∧ fs_map s = fs_map s0;
  sd_mounts : ExportHandlers.fs_mounts (ExportHandlers.files (exports s)) =
    Some {[ str "/app0/" := dir ]};
  sd_gpu : ExportHandlers.gpu_ok (exports s);
}.

Definition memory_failed (e : boot_stop) : Prop := if e is MemoryFailed _ then True else False.

(** Vulkan reports an error in a call of [VulkanRenderer::new] that is unwrapped. *)
Definition renderer_panics (window : Window) : Prop := (Vulkan.new window []).2 = Panic.

Lemma init_gpu_ends window (s : machine) : ExportHandlers.gpu (exports s) = Gpu.GPU_CONTEXT →
  ends_by memory_failed (renderer_panics window) (init_gpu window s) (λ s' _,
    ExportHandlers.gpu_ok (exports s') ∧
    ∃ g, s' = set_exports (ExportHandlers.set_gpu g (exports s)) s).
Proof.
  intros E. unfold init_gpu. rewrite E.
  pose proof (Gpu.gpu_step_cases (Gpu.InitGpu (Some window)) Gpu.GPU_CONTEXT I eq_refl
    ltac:(by split)) as Hg. cbn [Gpu.gpu_step] in Hg.
  destruct (Gpu.init_gpu _ _) as [g [[]|[]|]].
  - destruct Hg as [Hp _]. split; [exact Hp|]. by exists g.
  - destruct Hg as (_ & win & [= <-] & Hp). exact Hp.
Qed.

Lemma start_up_ends exe dir window now (s : machine) : exists_ exe = true → stubs s = None →
  mem_ok (guest s) → ExportHandlers.gpu (exports s) = Gpu.GPU_CONTEXT →
  ends_by memory_failed (renderer_panics window) (start_up fs_read exists_ exe dir window now s)
    (λ s' _, started s s' dir).
Proof.
  intros He Es Hb Eg. unfold start_up. rewrite He. cbn [negb].
  unfold mbind at 1, st_bind at 1. rewrite read_param_sfo_ok.
  eapply (ends_bind _ _ _ _ _ (λ s1 mm, stubs s1 = None ∧ mem_ok (guest s1) ∧ host_thread s1 = host_thread s ∧
    fs_map s1 = fs_map s ∧ ExportHandlers.gpu (exports s1) = Gpu.GPU_CONTEXT ∧ Virtual.wf mm ∧
    ∀ x, Virtual.type_at mm x = Some Virtual.Free ∧ x ≠ 0 ∨ Virtual.type_at mm x = None)).
  { unfold new_memory_manager. destruct (Virtual.new (kernel s)) as [o [mm|e|]] eqn:En.
    - pose proof (λ x, Syscalls.manager_new_free _ _ _ x En).
      apply Syscalls.manager_new_wf in En as ((? & _) & _). by split_and!.
    - done.
    - destruct (Syscalls.manager_new_no_panic (kernel s)). by rewrite En. }
  intros s1 mm (Es1 & Hb1 & Et1 & Em1 & Eg1 & Hwf & Hfree). cbn beta.
  set (s2 := set_linker Linker.Linker_new (set_process_start (Time.init now) s1)).
  change (ends_by memory_failed (renderer_panics window) ((init_stubs ≫= λ _, register_libraries ≫= λ _,
    modify (λ s, set_exports (ExportHandlers.initialize_exports mm (exports s)) s) ≫= λ _,
    modify (λ s, set_exports
      (ExportHandlers.mount_filesystem (str "/app0/") dir (exports s)) s) ≫= λ _,
    init_gpu window) s2) (λ s' _, started s s' dir)).
  eapply (ends_bind _ _ _ _ _ (λ s3 _, stubs_ready s3 ∧ mem_ok (guest s3) ∧ linker s3 = Linker.Linker_new ∧
    host_thread s3 = host_thread s ∧ fs_map s3 = fs_map s ∧
    ExportHandlers.gpu (exports s3) = Gpu.GPU_CONTEXT)).
  { unfold init_stubs. change (stubs s2) with (stubs s1). rewrite Es1.
    destruct (Stubs.init_cases (kernel s2) (guest s2)) as [([[o m] g] & e & ->)|(o & m & alloc & -> & Ha & _ & Hb')];
      [done|]. split; [by exists alloc|]. split; [by apply Hb'|]. by split_and!. }
  intros s3 [] ((alloc & Ea & Ha) & Hb3 & El & Et & Em & Eg3).
  unfold mbind at 1, st_bind at 1. unfold register_libraries at 1, modify at 1. rewrite Ea.
  destruct (Libraries.register_all_wf (Linker.hle_symbols (linker s3)) alloc Ha)
    as (r & alloc' & -> & Ha'). cbn beta iota.
  unfold mbind at 1 2, st_bind at 1 2, modify at 1 2. cbn beta iota.
  eapply ends_mono; [by apply init_gpu_ends|]. intros s' [] (Hg & g & ->).
  split; [|by cbn; rewrite El|by exists alloc'|done|by split|done|exact Hg].
  exists mm. by split_and!.
Qed.

Hypothesis loadable_fits : Z.of_nat (size loadable) < 2 ^ 32.

(** Loading the executable puts it in place, or nothing is loaded. *)
Lemma load_executable_ends fuel exe dir (s0 s : machine) : started s0 s dir →
  (size loadable < fuel)%nat →
  ∃ s' r, load_executable fs_read exists_ fuel exe s = Some (s', r) ∧
    match r with
    | Ok _ => stubs_ready s' ∧ (∃ mm md, ready s' mm md ∧ name md = module_name exe) ∧
        host_thread s' = host_thread s0 ∧ fs_map s' = fs_map s0 ∧ services s' = services s
    | Err (LinkFailed _) => Linker.modules (linker s') = []
    | Panic => ∃ q, Linker.crashes fs_read q
    | _ => False
    end.
Proof.
  intros [(mm & Em & Hwf & Hfree) Hmods Hst Hb [Et Ef] Hmounts Hgpu] Hfuel.
  unfold load_executable. rewrite Em.
  assert (∀ x, Virtual.type_at mm x ≠ Some Virtual.Code) as Hnocode.
  { intros x Hx. destruct (Hfree x) as [[? _]|?]; congruence. }
  assert (Linker.linker_inv loadable ((kernel s, mm), guest s, linker s)) as Hi.
  { split; unfold Linker.mm, Linker.loaded, Linker.lk; cbn; rewrite ?Hmods; [done|done|constructor|..].
    - by intros n ?%elem_of_nil.
    - by intros md ?%elem_of_nil.
    - done. }
  destruct (Linker.load_main_module fs_read exists_ loadable fuel exe _ files_ok loadable_fits Hi
    Hmods Hfuel) as (s' & r & -> & Hres).
  destruct s' as [[[o mm'] m'] l']. unfold Linker.mm, Linker.mem, Linker.loaded, Linker.lk in *.
  cbn in *. eexists _, _. split; [done|]. destruct r as [i|[e|h]|]; [|exact Hres|done|exact Hres].
  destruct Hres as ([Hwf' Hb' Hnd Hl Hr _] & [_ _ Hm _ Hc] & md & Hmain & Hname).
  unfold Linker.mm, Linker.mem, Linker.loaded, Linker.lk in *. cbn in *.
  split; [exact Hst|]. split; [|by split_and!]. exists mm', md. split; [|done].
  assert (md ∈ Linker.modules l') as Hmd.
  { unfold Linker.main_module in Hmain. destruct (Linker.modules l'); [done|]. injection Hmain as ->. left. }
  split; [done| |by apply Hr| |exact Hb'].
  - split; [done|exact Hmain|done|done|..].
    + intros md' Hmd'. by destruct (Hr md' Hmd') as (? & ? & _).
    + intros x [Hx|Hx]%Hc; [by destruct (Hnocode x)|done].
  - cbn. destruct (Hm 0) as [V _].
    + intros E0. by destruct (Hfree 0) as [[_ ?]|?]; [|congruence].
    + rewrite (Linker.view_type_at _ _ _ V). intros E0.
      by destruct (Hfree 0) as [[_ ?]|?]; [|congruence].
Qed.

(** ** Properties *)

(** C2: running the emulator on an executable called [eboot.bin] ends.  Where the files
    that can be opened have loadable names and LOAD segments that fit their memory
    ([Linker.files_ok]), it ends in one of three ways.  An error is returned: no such
    file, no memory, a file that cannot be linked, and then no module is loaded; a
    relocation outside mapped memory, or a TCB address the kernel refuses.  Or it panics,
    and then for one of two causes: Vulkan reports an error in a call that
    [VulkanRenderer::new] unwraps, or there is a file whose dynamic-library data or
    relocation tables panic the loader.  Or the guest is entered in a state the signal
    handlers can work from: the program counter is the entry point of the main module,
    whose mapped region holds no SYSCALL instruction any more; the stack is aligned and
    reads as null (argc, argv, envp, auxv); the FS base, in the user half, points to a
    TCB that starts with its own address; the thread is registered with the FS base
    the host had; the stub allocator and the memory manager are well formed, the lock of
    the GPU is sound, and /app0/ is the game directory. *)
Theorem boot_reaches_guest fuel exe dir window now (o : OS) (h : HF) t :
  module_name exe = str "eboot.bin" → (size loadable < fuel)%nat →
  ∃ s r, run_emulator_guest_thread fs_read exists_ arch_set_fs_ok fuel
      exe dir window now (machine_start (F:=F) o h t) = Some (s, r) ∧
    match r with
    | Ok (entry_point, rsp) => ∀ host fp,
        let p := guest_process s entry_point rsp host fp in
        (∃ md, Linker.main_module (linker s) = Some md ∧ name md = str "eboot.bin" ∧
           gregs p REG_RIP = base_virtual_addr md +64 Elf.entry_point (elf_of md) ∧
           mapped (Signals.mem p) (base_virtual_addr md) (aligned_base_size md) ∧
           clean md (Signals.mem p)) ∧
        ((16 | gregs p REG_RSP) ∧
         ∀ x, gregs p REG_RSP ≤ x < gregs p REG_RSP + 48 → Signals.mem p !! x = Some 0) ∧
        guest_fs_ok p ∧ tls_at (arch_get_fs (thread p)) (thread p) (Signals.mem p) ∧
        ThreadFs.get_thread_fs (thread p) (thread_fs_map p) = arch_get_fs t ∧
        (∃ alloc, stub_alloc p = Some alloc ∧ Stubs.alloc_wf alloc) ∧
        mem_ok (Signals.mem p) ∧ ExportHandlers.world_ok (Signals.world p) ∧
        ExportHandlers.gpu_ok (Signals.world p) ∧
        ExportHandlers.fs_mounts (ExportHandlers.files (Signals.world p)) =
          Some {[ str "/app0/" := dir ]}
    | Err ExecutableNotFound => exists_ exe = false
    | Err (LinkFailed _) => Linker.modules (linker s) = []
    | Err e => start_error e
    | Panic => renderer_panics window ∨ ∃ q, Linker.crashes fs_read q
    end.
Proof.
  intros Hexe Hfuel. unfold run_emulator_guest_thread. destruct (exists_ exe) eqn:He.
  2: { unfold start_up. rewrite He. cbn. by eexists _, _. }
  pose proof (start_up_ends exe dir window now (machine_start o h t) He eq_refl (map_Forall_empty _)
    eq_refl) as Hs.
  destruct (start_up _ _ exe dir window now _) as [s1 [[]|e|]]; [|eexists _, _; split; [done|]..].
  2: { by destruct e. }
  2: { by left. }
  unfold ends_by in Hs. cbn in Hs.
  destruct (load_executable_ends fuel exe dir _ s1 Hs Hfuel) as (s2 & r & -> & Hr).
  cbn [mbind option_bind]. destruct r as [i|e|]; [|by exists s2, (Err e); destruct e|by exists s2, Panic; auto].
  destruct Hr as (Hst & (mm & md & Hrd & Hname) & Et & Em & Ef). rewrite Hexe in Hname.
  eexists _, _. split; [apply f_equal, surjective_pairing|].
  pose proof (enter_guest_ends s2 mm md Hrd Hname Hst) as Hj.
  unfold ends_by in Hj. destruct (enter_guest arch_set_fs_ok s2) as [s3 [[entry rsp]|e|]]; cbn [fst snd] in *;
    [|by destruct e|done].
  intros host fp. destruct Hj as [Hmain -> Hclean Hstack (tcb & Htcb & Htls) Hhost (mm3 & Emm & Hpl)
    Hmap Hb3 Hst3 Hf3]. destruct Htls as [Efs Hload].
  split; [|split; [exact Hstack|split; [by unfold guest_fs_ok; cbn [thread guest_process]; rewrite Efs|]]].
  { exists md. by split_and!. }
  split; [split; [done|]; cbn [thread guest_process Signals.mem]; by rewrite Efs|].
  split; [cbn [thread thread_fs_map guest_process]; rewrite Hhost, Et; [done|by rewrite Em]|].
  injection Ef as Ef Eg. injection Hf3 as Hf3 Eg3.
  split; [exact Hst3|split; [exact Hb3|split; [|split]]].
  - intros mm' E. change (manager s3 = Some mm') in E. rewrite Emm in E. injection E as <-. apply Hpl.
  - cbn [guest_process Signals.world]. unfold ExportHandlers.gpu_ok. rewrite Eg3, Eg. apply Hs.
  - cbn [guest_process Signals.world]. rewrite Hf3, Ef. apply Hs.
Qed.

(** C25: the executable's code is looked up under the name [eboot.bin], whatever the
    file is called, and the lookup is unwrapped: an executable of another name, with no
    module called [eboot.bin] beside it, never runs. Once it is loaded, start-up
    ends in that panic, unless a relocation faults first; the only panics before it are
    those of C2. *)
Theorem other_names_panic fuel exe dir window now (o : OS) (h : HF) t :
  str "eboot.bin" ∉ loadable → (size loadable < fuel)%nat →
  ∃ s r, run_emulator_guest_thread fs_read exists_ arch_set_fs_ok fuel
      exe dir window now (machine_start (F:=F) o h t) = Some (s, r) ∧
    match r with
    | Ok _ => False
    | Err ExecutableNotFound => exists_ exe = false
    | Err (MemoryFailed _) => True
    | Err (LinkFailed _) => Linker.modules (linker s) = []
    | Err (Stopped stop) => ∃ a, stop = Fault a
    | Panic => renderer_panics window ∨ (∃ q, Linker.crashes fs_read q) ∨
        ∃ md, Linker.main_module (linker s) = Some md ∧ name md = module_name exe
    end.
Proof.
  intros Hno Hfuel. unfold run_emulator_guest_thread. destruct (exists_ exe) eqn:He.
  2: { unfold start_up. rewrite He. cbn. by eexists _, _. }
  pose proof (start_up_ends exe dir window now (machine_start o h t) He eq_refl (map_Forall_empty _)
    eq_refl) as Hs.
  destruct (start_up _ _ exe dir window now _) as [s1 [[]|e|]]; [|eexists _, _; split; [done|]..].
  2: { by destruct e. }
  2: { by left. }
  unfold ends_by in Hs. cbn in Hs.
  destruct (load_executable_ends fuel exe dir _ s1 Hs Hfuel) as (s2 & r & -> & Hr).
  cbn [mbind option_bind]. destruct r as [i|e|]; [|by exists s2, (Err e); destruct e|by exists s2, Panic; auto].
  destruct Hr as (Hst & (mm & md & Hrd & Hname) & _).
  eexists _, _. split; [apply f_equal, surjective_pairing|].
  unfold enter_guest, mbind, st_bind.
  destruct (relocate_cases s2 mm md Hrd Hst) as (s3 & _ & [[a ->]|(-> & [Em Hp _ _ _] & _)]).
  { by exists a. }
  unfold patch_executable. rewrite (code_vma_other _ _ _ _ Em Hp).
  - right. right. exists md. by destruct Hp.
  - intros Hin. by apply Hno, (ip_loadable _ _ _ Hp).
Qed.

End laws.

(** ** Witnesses *)

#[local] Existing Instances byteorder_impl byteorder_impl_laws
  bitflags_impl bitflags_impl_laws ToyOS.toy_os ToyOS.toy_os_laws.
#[local] Instance map_order : Symbols.HashOrder := map_to_list.
#[local] Instance toy_clock : HostClock Z := {| instant_now := id; since_epoch := Some |}.

(** Threads that are their ids, and a kernel that takes any address of the user half. *)
#[local] Instance toy_thread : HostThread (Z * Z) :=
  {| gettid := fst; arch_get_fs := snd; arch_set_fs v t := (t.1, v) |}.
#[local] Instance toy_thread_laws : HostThreadLaws (Z * Z).
Proof. by split. Qed.
Definition toy_fs_ok (v : Z) (t : Z * Z) : bool := (0 <=? v) && (v <? 2 ^ 47).

Lemma toy_fs_range v t : toy_fs_ok v t = true → 0 ≤ v < 2 ^ 47.
Proof. unfold toy_fs_ok. lia. Qed.

#[local] Instance toy_vulkan : Vulkan.VulkanApi unit := Vulkan.toy_api true.

(** A host with two threads to spare. *)
#[local] Instance toy_spawn : HostSpawn := {| spawn_ok qs q := bool_decide (length qs < 2)%nat |}.

Lemma toy_renderer : ¬ renderer_panics tt.
Proof. unfold renderer_panics. vm_compute. discriminate. Qed.

Definition app_exe : path := from_bytes (str "/app0/eboot.bin").
Definition app_dir : path := from_bytes (str "/app0").
Abbreviation run_app fs exe :=
  (run_emulator_guest_thread fs (λ _, true) toy_fs_ok 3 exe app_dir tt 0
     (machine_start (F:=Z) ToyOS.boot tt (1, 0x7000))).

Lemma app_names_bytes n : n ∈ Linker.app_names → is_bytes n.
Proof.
  unfold Linker.app_names. rewrite elem_of_union, !elem_of_singleton. intros [-> | ->];
    by apply (bool_decide_eq_true_1 _); vm_compute.
Qed.

Lemma app_files_bytes p bs : Linker.app_fs p = Ok bs → is_bytes bs.
Proof.
  unfold Linker.app_fs. case_decide; [intros [= <-]; apply Elf.sample_file_bytes|].
  case_decide; [intros [= <-]|done]. by apply (bool_decide_eq_true_1 _); vm_compute.
Qed.

Lemma app_fs_returns p : Linker.app_fs p ≠ Panic.
Proof. unfold Linker.app_fs. by repeat case_decide. Qed.

(** A file that parses, with relocation tables that do. *)
Definition calm (bs : bytes) : bool :=
  match Elf.parse bs with
  | Ok elf => if parse_relocations elf is Panic then false else true
  | Err _ => true
  | Panic => false
  end.

Lemma calm_files (fs : path → outcome io_error bytes) : (∀ p, fs p ≠ Panic) →
  (∀ p bs, fs p = Ok bs → calm bs = true) → ¬ ∃ q, Linker.crashes fs q.
Proof.
  intros Hr Hc [q Hq]. unfold Linker.crashes, Elf.open in Hq. specialize (Hr q).
  specialize (Hc q). unfold calm in Hc. destruct (fs q) as [bs|e|]; [|done..].
  specialize (Hc bs eq_refl). cbn [map_err mbind outcome_bind] in Hq.
  destruct (Elf.parse bs) as [elf|e|]; [|done..]. by rewrite Hq in Hc.
Qed.

Lemma app_calm : ¬ ∃ q, Linker.crashes Linker.app_fs q.
Proof.
  apply calm_files; [exact app_fs_returns|]. intros p bs. unfold Linker.app_fs.
  case_decide; [intros [= <-]; vm_compute; reflexivity|].
  case_decide; [intros [= <-]; vm_compute; reflexivity|done].
Qed.

(** The executable of the linker's example, started from /app0. *)
Lemma boot_reaches_guest_witness : ∃ s r,
  run_app Linker.app_fs app_exe = Some (s, r) ∧ r ≠ Panic ∧ r ≠ Err ExecutableNotFound ∧
  ∀ entry_point rsp, r = Ok (entry_point, rsp) → (16 | rsp) ∧
    guest_fs_ok (guest_process s entry_point rsp (λ _, 0) None).
Proof.
  destruct (boot_reaches_guest (F:=Z) Linker.app_fs (λ _, true) toy_fs_ok toy_fs_range
    Linker.app_names app_names_bytes app_fs_returns app_files_bytes Linker.app_files_ok ltac:(by vm_compute)
    3 app_exe app_dir tt 0 ToyOS.boot tt (1, 0x7000)) as (s & r & E & Hr).
  { by apply (bool_decide_eq_true_1 _); vm_compute. }
  { by apply (bool_decide_eq_true_1 _); vm_compute. }
  exists s, r. split; [exact E|]. split; [intros ->|split; [intros ->; discriminate Hr|]].
  { destruct Hr as [Hr|Hr]; [exact (toy_renderer Hr)|exact (app_calm Hr)]. }
  intros entry rsp ->. destruct (Hr (λ _, 0) None) as (_ & [Ha _] & Hf & _). by split.
Defined.

(** The same executable under another name. *)
Definition elf_exe : path := from_bytes (str "/app0/game.elf").
Definition elf_fs (p : path) : outcome io_error bytes :=
  if decide (module_name p = str "game.elf") then Ok Elf.sample_file else Err UnexpectedEof.

Lemma elf_names_bytes n : n ∈ ({[ str "game.elf" ]} : gset bytes) → is_bytes n.
Proof. intros ->%elem_of_singleton. by apply (bool_decide_eq_true_1 _); vm_compute. Qed.

Lemma elf_files_bytes p bs : elf_fs p = Ok bs → is_bytes bs.
Proof. unfold elf_fs. case_decide; [intros [= <-]; apply Elf.sample_file_bytes|done]. Qed.

Lemma elf_files_ok : Linker.files_ok elf_fs {[ str "game.elf" ]}.
Proof.
  intros p elf0. unfold elf_fs, Elf.open. case_decide as Hn; [|done].
  assert (Linker.file_good (Elf.parse Elf.sample_file) = true) as Hg by (vm_compute; reflexivity).
  apply Linker.file_good_spec in Hg as (elf & E & Hf & Hd). cbn [map_err mbind outcome_bind].
  rewrite E, Hn. intros [= <-]. split; [by apply elem_of_singleton|exact (conj Hf Hd)].
Qed.

Lemma elf_fs_returns p : elf_fs p ≠ Panic.
Proof. unfold elf_fs. by case_decide. Qed.

Lemma elf_calm : ¬ ∃ q, Linker.crashes elf_fs q.
Proof.
  apply calm_files; [exact elf_fs_returns|]. intros p bs. unfold elf_fs.
  case_decide; [intros [= <-]; vm_compute; reflexivity|done].
Qed.

Lemma elf_run : snd <$> run_app elf_fs elf_exe = Some Panic.
Proof. vm_compute. reflexivity. Qed.

Lemma other_names_panic_witness : ∃ s, run_app elf_fs elf_exe = Some (s, Panic) ∧
  ∃ md, Linker.main_module (linker s) = Some md ∧ name md = str "game.elf".
Proof.
  pose proof elf_run as Hv.
  destruct (other_names_panic (F:=Z) elf_fs (λ _, true) toy_fs_ok
    {[ str "game.elf" ]} elf_names_bytes elf_fs_returns elf_files_bytes elf_files_ok ltac:(by vm_compute)
    3 elf_exe app_dir tt 0 ToyOS.boot tt (1, 0x7000)) as (s & r & E & Hr).
  { by apply (bool_decide_eq_true_1 _); vm_compute. }
  { by apply (bool_decide_eq_true_1 _); vm_compute. }
  rewrite E in Hv. injection Hv as ->. exists s.
  split; [exact E|].
  destruct Hr as [Hr|[Hr|(md & Hmd & Hn)]]; [by destruct (toy_renderer Hr)|by destruct (elf_calm Hr)|]. exists md. split; [exact Hmd|]. rewrite Hn.
  vm_compute. reflexivity.
Defined.

(** A thread at 0x4000 with the argument 7. *)
Definition thread_world : ExportHandlers.world ToyOS.OS unit bytes :=
  ExportHandlers.initialize_exports Syscalls.booted (ExportHandlers.world_start ToyOS.boot tt).
Definition thread_args : export_args :=
  {| rdi := 0; rsi := 0; rdx := 0x4000; rcx := 7; r8 := 0; r9 := 0; stack_arg7 := 0;
     xmm0_bits := 0; xmm1_bits := 0 |}.
Definition thread_base : Z := AddressSpace.user_base (Virtual.address_space Syscalls.booted).

Lemma thread_created : ∃ m w,
  ExportHandlers.scePthreadCreate thread_args (∅, thread_world) = ((m, w), Ok 0).
Proof.
  unfold ExportHandlers.scePthreadCreate.
  erewrite (st_bind_ok _ _ _ (∅, thread_world) (str "unnamed")) by reflexivity.
  erewrite (st_bind_ok _ _ _ (∅, thread_world) thread_world) by reflexivity.
  change (ExportHandlers.manager _) with (Some Syscalls.booted). cbn beta iota zeta.
  erewrite st_bind_ok by (apply map_fresh_Ok; [reflexivity|vm_compute; reflexivity]).
  erewrite st_bind_ok by (apply map_fresh_Ok; [reflexivity|vm_compute; reflexivity]).
  match goal with |- context [map_zeros ?a ?n (map_zeros ?b ?k ∅)] =>
    assert (mapped (map_zeros a n (map_zeros b k ∅)) (a + 2097144) 8) as Hm;
      [eapply mapped_weaken; [by apply map_zeros_mapped|vm_compute; done..]|];
    generalize dependent (map_zeros a n (map_zeros b k ∅)) end.
  intros m Hm. match goal with |- context [(m, ?x)] => generalize x end. intros w.
  cbn [default negb andb Z.eqb id].
  erewrite st_bind_ok.
  2: { unfold ExportHandlers.writing, ExportHandlers.in_memory. rewrite store_total by exact Hm. reflexivity. }
  by eexists _, _.
Qed.

Lemma created_thread_enters_witness : ∃ m w q, ExportHandlers.scePthreadCreate thread_args (∅, thread_world) = ((m, w), Ok 0) ∧
  ExportHandlers.spawned w = [(q, true)] ∧
  ∀ p p' : process (Z * Z) (ExportHandlers.world ToyOS.OS unit bytes), Signals.mem p = m →
    start_guest_thread toy_fs_ok q (2, 0x8000) (λ _, 0) p = Ok p' →
    gregs p' REG_RIP = 0x4000 ∧ gregs p' REG_RDI = 7 ∧ guest_fs_ok p'.
Proof.
  destruct thread_created as (m & w & E).
  destruct (created_thread_enters toy_fs_ok toy_fs_range thread_args ∅ m thread_world w) as (q & Hq & Hp).
  { intros mm [= <-]. apply Syscalls.booted_wf. }
  { exact E. }
  exists m, w, q. split; [exact E|]. split; [exact Hq|]. intros p p' Em Ep.
  specialize (Hp p (2, 0x8000) (λ _, 0)). rewrite Em, Ep in Hp.
  destruct Hp as (? & ? & _ & _ & _ & ? & _); [reflexivity|]. by split_and!.
Defined.

End Boot.
